(* ===== verification/_CoqProject ===== *)
-Q . S2P
Prelude.v
Channels.v
Crypto.v
Config.v
Messages.v
Aggregators.v
Adversary.v
Consensus.v
ConsensusFacts.v
ConsensusOrder.v
ConsensusSafety.v
ConsensusAgreement.v
Store.v
Primary.v
Core.v
CoreFacts.v
CoreTrace.v
CoreStore.v
CoreTally.v
Proposer.v
Pool.v
Waiters.v
Network.v
Worker.v
WorkerSync.v
WorkerNode.v
WorkerNodeFacts.v
Node.v
System.v
NodeSamples.v
NodeFacts.v
NodeSafety.v
NodeRounds.v
NodeFeed.v
Certification.v
NodeAgreement.v
Availability.v
Restart.v
Forgery.v
Client.v
Files.v
Main.v
