(* ===== verification/Prelude.v ===== *)
(** * Narwhal and Tusk with silent authorities

    A model of the Rust workspace under [src/]: a mempool (Narwhal: primaries and workers) and a consensus
    (Tusk) over its certificates, with a schedule of silent authorities added for experiments. The
    development is a shallow embedding. A loop of a task is a function from the state of the task and what the
    iteration takes (a message, the result of a future, a reading of the clock) to the new state and what is
    sent; a run is a list of iterations in the order in which the task makes them, so the statements on
    runs hold for every interleaving of the messages. [Node] and [WorkerNode] put the tasks of a primary and of
    a worker together, with the channels between them and the store they share.

    ** How the parts interact

    Clients send transactions to a worker. Its [BatchMaker] seals them into batches and broadcasts these, its
    [QuorumWaiter] waits until authorities with a quorum of stake have them, its [Processor] stores them and
    announces their digests to the primary. The [Proposer] of the primary puts digests and the certificates
    of the round before into a header. The [Core] stores headers, votes for those of other authorities,
    assembles votes into certificates, and sends certificates to the proposer (a quorum of them starts the
    next round) and to the [Consensus], which orders them. What is missing is asked for by the
    [Synchronizer]s and waited for by the [HeaderWaiter] and the [CertificateWaiter], and answered by the
    [Helper]s; the [GarbageCollector] tells the tasks of the progress of the consensus.

    ** Files

    - [Prelude]: outcomes of fallible code ([Ret], [Throw], [Panic]), machine integers, byte arrays, ordered
      maps and sets, sums of stakes, sorting, ranges, environment variables, tactics and hints.
    - [Crypto] ([crypto/src/lib.rs]): digests, keys, signatures, base64.
    - [Config] ([config/src/lib.rs]): the committee, its thresholds and its addresses.
    - [Messages] ([primary/src/messages.rs], [error.rs]): headers, votes, certificates, digests, verification.
    - [Aggregators] ([primary/src/aggregators.rs]): the two aggregators.
    - [Adversary] ([primary/src/adversary.rs]): who is silent in a round, and which leaders commit directly.
    - [Consensus] ([consensus/src/lib.rs]): [State], [order_leaders], [linked], [order_dag], [run]; with
      [ConsensusFacts] (the shape of the DAG), [ConsensusOrder] (the depth-first search), [ConsensusSafety]
      (what is committed) and [ConsensusAgreement] (the leaders, against a specification).
    - [Store] ([store/src/lib.rs]): the task of the store, and the interface [Storage] with [StorageLaws]
      the other tasks are proved against; the task implements it ([store_storage_laws]).
    - [Primary] ([primary/src/primary.rs], [payload_receiver.rs], [synchronizer.rs], [helper.rs]).
    - [Core] ([primary/src/core.rs]): the state, the handlers and the loop; [CoreFacts] (votes, what is fed to
      the consensus, the bound of the recursion), [CoreTrace] (where forwarded certificates come from), [CoreStore]
      (what the store of the primary holds) and [CoreTally] (the certificates of its own headers).
    - [Proposer] ([primary/src/proposer.rs]): the rounds, the timer, the silence and the headers.
    - [Pool]: the pool of cancellable waiters shared by the two tasks that have one.
    - [Waiters] ([primary/src/header_waiter.rs], [certificate_waiter.rs], [garbage_collector.rs]).
    - [Network] ([network/src/*.rs]): connections, senders and the loop of a receiver.
    - [Worker] ([worker/src/worker.rs], [batch_maker.rs], [quorum_waiter.rs], [processor.rs],
      [primary_connector.rs], [helper.rs]) and [WorkerSync] ([worker/src/synchronizer.rs]).
    - [WorkerNode] ([Worker::spawn] of [worker/src/worker.rs]): a worker node, with [WorkerNodeFacts].
    - [Channels]: messages in flight, runs of steps that leave a log, and what holds of all such runs.
    - [Node] ([Primary::spawn] of [primary/src/primary.rs], [run] of [node/src/main.rs]): a primary node with
      its consensus; a step is an iteration of one of its tasks, chosen by the environment, and leaves an
      entry in a log. [NodeFacts] projects a run to the channels and to the tasks, [NodeSafety],
      [NodeFeed] and [NodeRounds] state what holds of one node, [NodeSamples] has runs to evaluate on.
    - [Certification] and [NodeAgreement]: the runs of several honest primaries, what their signatures stand
      for, the uniqueness of certificates and the agreement of the consensus tasks.
    - [System]: a primary and two workers: how a missing batch is asked for (at the wrong worker), and how it would
      come from the worker of another authority.
    - [Availability]: primaries with the workers they have, and where the batches of a header are.
    - [Restart]: what a primary forgets when it is started again on its store.
    - [Forgery]: a run in which a certificate that nobody signed is committed.
    - [Client] ([node/src/benchmark_client.rs]): the load generator.
    - [Files] ([Import] and [Export] of [config/src/lib.rs]) and [Main] ([node/src/main.rs]): what a node is
      started with.

    Definitions have the names of the code; a constructor or a field has a prefix where two types share it.

    ** What the theorems show

    - Consensus: a certificate is committed at most once while certificates are delivered once ([commit_once]),
      the order of a sub-DAG is the part of it that is reached through parents in the DAG that were not output
      before, parents first ([order_dag_spec]), leaders follow an abstract specification
      ([leaders_follow_specification]) and two nodes with supported leaders agree on them ([leaders_agreement]);
      the order in which certificates are delivered does however change what is output
      ([delivery_order_changes_output]).
    - Nodes: [NodeFacts] shows that a run of a node is a run of each of its tasks, joined by first-in first-out
      channels, on which what follows rests. A node never broadcasts two headers in a round
      ([node_never_equivocates]); what it signs it signs once per author and round, for stored headers with a
      quorum of parents ([signed_votes]); its consensus takes certificates that the core verified or assembled
      ([consensus_takes_verified]). From these, for honest authorities whose stake leaves at most f to the
      others: one certified header per author and round ([certificates_unique]), and two primaries commit
      leaders of which one list is a prefix of the other ([primaries_agree]): these run from the bytes that the
      network brings to the output of the consensus.
    - Availability: the batches of a certified header above round 0 are in the stores of workers of honest
      authorities whose stake is more than f, and when its author is honest they hold transactions of clients, and
      its worker forwarded them on acknowledgements of their broadcast that make a quorum
      ([certified_payload_available]); so are those of all that the consensus of an
      honest primary outputs ([committed_payload_available]). These run from what clients and workers send
      to the output of the consensus.
    - Rounds: a primary enters a round exactly when the certificates of the round before that go to its
      consensus are from a quorum, and its headers carry the digests of a quorum of them ([rounds_by_quorum]).
    - Core: exactly one certificate for its own header from the votes of a quorum, in whatever order they come
      and with whatever between them ([header_certified]), at most one vote for an author and a round within the
      garbage collection depth, what a vote stands for, whole histories for the consensus, a well-typed store,
      and the termination of the mutually recursive handlers.
    - Messages, aggregators, configuration: exactly which certificates verify, one certificate per header and
      quorum, quorum intersection, and what digests bind.
    - Proposer: one header per round, no digest lost, a header by the deadline of the timer.
    - Network: a connection of the [ReliableSender] is a first-in first-out queue that loses nothing.
    - Workers: batches keep the transactions in order; forwarding needs a quorum. What a whole worker announces to
      its primary is stored, and its own batches hold the transactions of clients in order and were broadcast and
      acknowledged by a quorum ([announced_digests_backed]). A primary sends the command to get a missing batch to
      the worker of the author of the header, which has it and asks itself for nothing; the tasks on the way from
      the command to the mark in the store of the primary would do their part ([missing_batch_requests]).
    - Programs: the transactions of a client differ and carry the ids a worker looks for
      ([client_transactions]); a node runs with the keys that were generated for it ([generated_keys_run]).
    - Where the code does not do what it means to, a theorem shows the behaviour on a concrete or general input:
      the properties of kind error. Among them, a certificate of round 0 that nobody signed, with whatever
      payload, verifies ([forged_genesis_accepted]) and can be committed ([forged_certificate_committed]), so
      the statements on what certificates stand for are on those above round 0; a primary that is started again
      on its store equivocates ([restarted_primary_equivocates]), so the statements on several primaries are on
      runs from the first start.

    ** Parameters and hypotheses

    Third-party code is a parameter, with what the program relies on as a class of laws: SHA-512 ([Sha512]: no
    law; statements on what a digest binds are about its input), Ed25519 ([Dalek], [DalekLaws]: signing
    verifies), base64 ([Base64], [Base64Laws]: decoding inverts encoding), the data formats of serde ([Format],
    [FormatLaws]), the strings and objects of JSON ([JsonFormat], [JsonFormatLaws]: what is written can be read;
    the documents of a committee and of parameters, whose formats are derived, are [FromJson]), the error types
    and [bincode] ([Backend], [Bincode], [BincodeLaws]: what is serialized deserializes to itself), RocksDB
    ([Rocksdb], [RocksdbLaws]: a read returns the last write). The modules [Toy], [ToyBackend], [ToyBincode],
    [MapDB] and [SampleMain] instantiate all of them with concrete functions that satisfy the laws, on which the witnesses
    evaluate. Sockets and the clock are inputs of the steps.

    The statements on several primaries assume of the cryptography, for the runs at hand, that a signature of an
    honest voter on a certificate was made by its node and that digests do not collide ([crypto_sound]), that
    the primaries start with stores without headers and certificates ([run_of]), and that a node signs nothing
    for a round it has garbage collected ([timely]): the code does not ensure the last
    ([votes_again_below_gc_round]). The statements on availability also assume that the header of a certificate
    was signed by its author ([headers_sound]), and that what a primary receives as from a worker was announced
    by a run of a worker of its own ([workers_of]). [primaries_agree] and [committed_payload_available] also
    assume of the feed of the consensus ([proper_feed]) what the code does not ensure: that a slot (a round and
    an author) comes once ([redelivered_certificate_committed_twice]), that no certificate of round 0 comes
    ([forged_certificate_committed] shows a peer sending one), that rounds stay below the largest [u64], and
    that the certificates a primary assembles itself verify. [leaders_follow_specification] and
    [leaders_agreement] ask for a number of faults in the environment for which the windows of the schedule of
    direct commits can be allocated ([window_fits]); a run of a node has no such panic.

    ** Integers, fuel and bounds

    [u32], [u64] and [usize] values are in [N]; additions and multiplications that can leave the range wrap
    ([u32_add], [u64_add]), which is what a release build does. Hypotheses such as [small_stake] or
    [cround L < two64] say when nothing wraps. The handlers of the core run on seven levels of fuel
    ([core_fuel]), which [fuel_enough] shows to be enough from every state; the depth-first search runs on
    two steps more than the DAG has certificates, which [order_dag_spec] shows to be enough.

    ** Not modelled

    Logs, [Debug] and [Display]; parsing the command line and the addresses in it; partial writes to files; key
    pairs written as JSON arrays, which the derived [Deserialize] reads as well; the capacity of channels (a
    full channel delays its sender, so a bound removes interleavings and adds none; deadlocks are not excluded);
    the network between primaries, whose deliveries are arbitrary inputs of a node; what a node does after the
    panic of one of its tasks (a run ends there); accepting and opening TCP connections; the benchmark scripts. *)

From Stdlib Require Import Lia NArith.
From Stdlib Require Export Init.Byte.
From Stdlib Require Strings.Byte Strings.Ascii.
From stdpp Require Export base tactics numbers option list sorting gmap sets strings.

#[global] Open Scope N_scope.
#[global] Set Default Goal Selector "!".

(** ** Automation shared by the components *)

Create HintDb tusk discriminated.
Create Rewrite HintDb tusk_simpl.

(** [inv_some] reads a successful option bind in a hypothesis backwards. *)
Ltac inv_some :=
  repeat match goal with
  | H : mbind _ _ = Some _ |- _ => apply bind_Some in H as (? & ? & ?)
  | H : fmap _ _ = Some _ |- _ => apply fmap_Some in H as (? & ? & ?)
  | H : Some _ = Some _ |- _ => injection H as ?
  | H : None = Some _ |- _ => discriminate H
  end; subst.

(** [lia] for goals with divisions and remainders by constants. *)
Ltac div_lia := zify; Z.to_euclidean_division_equations; lia.

(** [case_guards] splits every boolean or decidable guard of the goal. *)
Ltac case_guards := repeat (case_match || case_decide || case_bool_decide); simplify_eq.

(** ** Fallible code

    [Ret] is Rust's [Ok] (or a plain value), [Throw] is [Err] and [Panic] is a panic of the task that
    runs the code ([unwrap], [expect], a slice out of range, a remainder by zero). *)

Inductive outcome (E A : Type) :=
| Ret (a : A)
| Throw (e : E)
| Panic.
Arguments Ret {E A} _.
Arguments Throw {E A} _.
Arguments Panic {E A}.

#[export] Instance outcome_ret E : MRet (outcome E) := λ A, Ret.
#[export] Instance outcome_bind E : MBind (outcome E) := λ A B f m,
  match m with Ret a => f a | Throw e => Throw e | Panic => Panic end.
#[export] Instance outcome_fmap E : FMap (outcome E) := λ A B f m,
  match m with Ret a => Ret (f a) | Throw e => Throw e | Panic => Panic end.

(** [Result::map_err]. *)
Definition map_err {E F A} (f : E → F) (m : outcome E A) : outcome F A :=
  match m with Ret a => Ret a | Throw e => Throw (f e) | Panic => Panic end.

(** The macro [ensure!(cond, err)]. *)
Definition ensure {E} (cond : bool) (e : E) : outcome E unit := if cond then Ret () else Throw e.

(** [Option::ok_or_else] and [Option::expect]. *)
Definition ok_or {E A} (o : option A) (e : E) : outcome E A :=
  match o with Some a => Ret a | None => Throw e end.
Definition expect {E A} (o : option A) : outcome E A :=
  match o with Some a => Ret a | None => Panic end.

Definition is_ret {E A} (m : outcome E A) : bool := match m with Ret _ => true | _ => false end.

Lemma is_ret_unit {E} (m : outcome E unit) : is_ret m = true → m = Ret ().
Proof. by destruct m as [[]| |]. Qed.

Lemma outcome_bind_ret {E A B} (m : outcome E A) (f : A → outcome E B) b :
  m ≫= f = Ret b ↔ ∃ a, m = Ret a ∧ f a = Ret b.
Proof. destruct m; simpl; naive_solver. Qed.

Lemma ensure_ret {E} (c : bool) (e : E) u : ensure c e = Ret u ↔ c = true.
Proof. destruct c, u; simpl; naive_solver. Qed.

Lemma map_err_ret {E F A} (f : E → F) (m : outcome E A) a : map_err f m = Ret a ↔ m = Ret a.
Proof. destruct m; simpl; naive_solver. Qed.

Lemma ensure_bind_ret {E A} (c : bool) (e : E) (k : outcome E A) b :
  (ensure c e;; k) = Ret b ↔ c = true ∧ k = Ret b.
Proof. destruct c; simpl; naive_solver. Qed.

Lemma unit_bind_ret {E A} (m : outcome E unit) (k : outcome E A) b :
  (m;; k) = Ret b ↔ m = Ret () ∧ k = Ret b.
Proof. destruct m as [[]| |]; simpl; naive_solver. Qed.

(** [inv_ret] reads a computation that returned [Ret] backwards. *)
Ltac inv_ret :=
  repeat match goal with
  | H : mbind _ _ = Ret _ |- _ => apply outcome_bind_ret in H as (? & ? & ?)
  | H : ensure _ _ = Ret _ |- _ => apply ensure_ret in H
  | H : map_err _ _ = Ret _ |- _ => apply map_err_ret in H
  | H : Ret _ = Ret _ |- _ => injection H as ?
  | H : Throw _ = Ret _ |- _ => discriminate H
  | H : Panic = Ret _ |- _ => discriminate H
  end; subst.

(** [same_ret] identifies the results of a computation known to return twice. *)
Ltac same_ret :=
  repeat match goal with
  | H1 : ?m = Ret ?x, H2 : ?m = Ret ?y |- _ => assert (x = y) by congruence; clear H2; subst
  end.

(** ** Machine integers

    [u64] and [usize] values (rounds, sizes, milliseconds) and [u32] values (stakes, worker ids) are
    natural numbers in [N]; every operation of the code that can leave the range of its type wraps,
    which is what Rust does in the release builds the repository runs. *)

Definition two32 : N := 4294967296.
Definition two64 : N := 18446744073709551616.

Definition u32_add (a b : N) : N := (a + b) mod two32.
Definition u32_mul (a b : N) : N := (a * b) mod two32.
Definition u64_add (a b : N) : N := (a + b) mod two64.
Definition u64_mul (a b : N) : N := (a * b) mod two64.
Definition u64_sub (a b : N) : N := (two64 + a - b) mod two64.

(** [usize::saturating_sub] and [u64::saturating_sub]. *)
Definition saturating_sub (a b : N) : N := if b <=? a then a - b else 0.

Lemma u32_add_small a b : a + b < two32 → u32_add a b = a + b.
Proof. apply N.mod_small. Qed.

Lemma u32_mul_small a b : a * b < two32 → u32_mul a b = a * b.
Proof. apply N.mod_small. Qed.

Lemma u64_add_small a b : a + b < two64 → u64_add a b = a + b.
Proof. apply N.mod_small. Qed.

Lemma u64_mul_small a b : a * b < two64 → u64_mul a b = a * b.
Proof. apply N.mod_small. Qed.

Lemma u64_sub_small a b : b ≤ a → a < two64 → u64_sub a b = a - b.
Proof.
  intros ??. unfold u64_sub.
  replace (two64 + a - b) with ((a - b) + 1 * two64) by lia.
  rewrite N.Div0.mod_add. apply N.mod_small. lia.
Qed.

Lemma u64_sub_lt a b : u64_sub a b < two64.
Proof. apply N.mod_lt. done. Qed.

(** ** Bytes *)

#[export] Instance byte_eq_dec : EqDecision byte := Strings.Byte.byte_eq_dec.

#[export] Program Instance byte_countable : Countable byte :=
  inj_countable Strings.Byte.to_N Strings.Byte.of_N _.
Next Obligation. intros b. apply Strings.Byte.of_to_N. Qed.

Definition byte_of_N (n : N) : byte := default x00 (Strings.Byte.of_N (n mod 256)).

Lemma byte_to_of_N n : Strings.Byte.to_N (byte_of_N n) = n mod 256.
Proof.
  unfold byte_of_N. destruct (Strings.Byte.of_N (n mod 256)) as [b|] eqn:E; simpl.
  - by apply Strings.Byte.to_of_N.
  - apply Strings.Byte.of_N_None_iff in E. pose proof (N.mod_lt n 256). lia.
Qed.

(** [to_le_bytes] of an integer of [n] bytes. *)
Fixpoint le_bytes (n : nat) (x : N) : list byte :=
  match n with
  | O => []
  | S n => byte_of_N x :: le_bytes n (x / 256)
  end.

Lemma length_le_bytes n x : length (le_bytes n x) = n.
Proof. revert x. induction n; intros; simpl; auto. Qed.

Lemma le_bytes_inj n x y :
  x < 256 ^ N.of_nat n → y < 256 ^ N.of_nat n → le_bytes n x = le_bytes n y → x = y.
Proof.
  revert x y. induction n as [|n IH]; intros x y Hx Hy; simpl; [lia|].
  rewrite Nat2N.inj_succ, N.pow_succ_r' in Hx, Hy. intros [= Hb Ht].
  apply (f_equal Strings.Byte.to_N) in Hb. rewrite !byte_to_of_N in Hb.
  apply IH in Ht; [|apply N.Div0.div_lt_upper_bound; lia..].
  rewrite (N.div_mod x 256), (N.div_mod y 256) by done. congruence.
Qed.

#[global] Arguments le_bytes : simpl never.

(** [<[u8] as Ord>::cmp]: lexicographic order. *)
Fixpoint bytes_le (a b : list byte) : bool :=
  match a, b with
  | [], _ => true
  | _ :: _, [] => false
  | x :: a, y :: b =>
      match Strings.Byte.to_N x ?= Strings.Byte.to_N y with
      | Lt => true
      | Gt => false
      | Eq => bytes_le a b
      end
  end.

Lemma byte_to_N_inj x y : Strings.Byte.to_N x = Strings.Byte.to_N y → x = y.
Proof.
  intros H. assert (Some x = Some y) as [=]; [|done].
  rewrite <-(Strings.Byte.of_to_N x), <-(Strings.Byte.of_to_N y). congruence.
Qed.

Lemma bytes_le_refl a : bytes_le a a = true.
Proof. induction a as [|x a IH]; simpl; [done|]. by rewrite N.compare_refl. Qed.

Lemma bytes_le_trans a b c :
  bytes_le a b = true → bytes_le b c = true → bytes_le a c = true.
Proof.
  revert b c. induction a as [|x a IH]; intros [|y b] [|z c]; simpl; try done.
  destruct (N.compare_spec (Strings.Byte.to_N x) (Strings.Byte.to_N y)),
    (N.compare_spec (Strings.Byte.to_N y) (Strings.Byte.to_N z)),
    (N.compare_spec (Strings.Byte.to_N x) (Strings.Byte.to_N z)); try done; try lia; eauto.
Qed.

Lemma bytes_le_total a b : bytes_le a b = true ∨ bytes_le b a = true.
Proof.
  revert b. induction a as [|x a IH]; intros [|y b]; simpl; auto.
  rewrite (N.compare_antisym (Strings.Byte.to_N x) (Strings.Byte.to_N y)).
  destruct (Strings.Byte.to_N x ?= Strings.Byte.to_N y); simpl; auto.
Qed.

Lemma bytes_le_antisym a b : bytes_le a b = true → bytes_le b a = true → a = b.
Proof.
  revert b. induction a as [|x a IH]; intros [|y b]; simpl; try done.
  rewrite (N.compare_antisym (Strings.Byte.to_N x) (Strings.Byte.to_N y)).
  destruct (N.compare_spec (Strings.Byte.to_N x) (Strings.Byte.to_N y)) as [Heq|?|?]; simpl; try done.
  intros ??. apply byte_to_N_inj in Heq as ->. f_equal. auto.
Qed.

(** ** Fixed-size byte arrays: [[u8; n]]

    The length is part of the type, as in the source, so the conversions
    [slice.try_into().unwrap()] of the code are total here where they cannot fail there. *)

Record array (n : nat) := Array {
  arr_bytes : list byte;
  arr_length : bool_decide (length arr_bytes = n) = true
}.
Arguments Array {n} _ _.
Arguments arr_bytes {n} _.
Arguments arr_length {n} _.

#[export] Instance arr_bytes_inj n : Inj (=) (=) (@arr_bytes n).
Proof. intros [l Hl] [k Hk]; simpl. intros ->. f_equal. apply proof_irrel. Qed.

Lemma length_arr_bytes {n} (a : array n) : length (arr_bytes a) = n.
Proof. exact (bool_decide_eq_true_1 _ (arr_length a)). Qed.

(** [TryFrom<&[u8]> for [u8; n]]. *)
Definition array_of (n : nat) (l : list byte) : option (array n) :=
  match bool_decide (length l = n) as b return bool_decide (length l = n) = b → _ with
  | true => λ H, Some (Array l H)
  | false => λ _, None
  end eq_refl.

Lemma array_of_bytes {n} (a : array n) : array_of n (arr_bytes a) = Some a.
Proof.
  destruct a as [l H]. unfold array_of; simpl. generalize (eq_refl (bool_decide (length l = n))).
  generalize (bool_decide (length l = n)) at 2 3. intros [] E; [|congruence].
  do 2 f_equal. apply proof_irrel.
Qed.

Lemma array_of_Some n l a : array_of n l = Some a → arr_bytes a = l.
Proof.
  unfold array_of. generalize (eq_refl (bool_decide (length l = n))).
  generalize (bool_decide (length l = n)) at 2 3. intros [] E; [|done]. by intros [= <-].
Qed.

Lemma array_of_None n l : array_of n l = None ↔ length l ≠ n.
Proof.
  unfold array_of. generalize (eq_refl (bool_decide (length l = n))).
  generalize (bool_decide (length l = n)) at 2 3.
  intros [] E; split; intros H; try done.
  - destruct H. exact (bool_decide_eq_true_1 _ E).
  - exact (bool_decide_eq_false_1 _ E).
Qed.

#[export] Instance array_eq_dec n : EqDecision (array n).
Proof. refine (λ a b, cast_if (decide (arr_bytes a = arr_bytes b))); [by apply (inj _)|congruence]. Defined.

#[export] Program Instance array_countable n : Countable (array n) :=
  inj_countable arr_bytes (array_of n) _.
Next Obligation. intros n a. apply array_of_bytes. Qed.

(** [Default for [u8; 32]]: all zeros. *)
Program Definition array_zero (n : nat) : array n := Array (replicate n x00) _.
Next Obligation. intros n. apply bool_decide_eq_true_2. by rewrite length_replicate. Qed.

(** [&a[..n]] and [&a[n..]] converted to arrays. *)
Program Definition array_take {n m} (a : array (n + m)) : array n := Array (take n (arr_bytes a)) _.
Next Obligation.
  intros n m a. apply bool_decide_eq_true_2. rewrite length_take, length_arr_bytes. lia.
Qed.

Program Definition array_drop {n m} (a : array (n + m)) : array m := Array (drop n (arr_bytes a)) _.
Next Obligation.
  intros n m a. apply bool_decide_eq_true_2. rewrite length_drop, length_arr_bytes. lia.
Qed.

(** [[a, b].concat().try_into()]. *)
Program Definition array_app {n m} (a : array n) (b : array m) : array (n + m) :=
  Array (arr_bytes a ++ arr_bytes b) _.
Next Obligation.
  intros n m a b. apply bool_decide_eq_true_2. by rewrite length_app, !length_arr_bytes.
Qed.

Lemma array_app_take_drop {n m} (a : array (n + m)) : array_app (array_take a) (array_drop a) = a.
Proof. apply (inj arr_bytes). simpl. apply take_drop. Qed.

(** The integer [x] as an array of [n] little-endian bytes. *)
Program Definition array_le (n : nat) (x : N) : array n := Array (le_bytes n x) _.
Next Obligation. intros n x. apply bool_decide_eq_true_2, length_le_bytes. Qed.

(** ** Keys of ordered containers

    [BTreeMap] and [BTreeSet] iterate in the order of their keys. The keys of the program are newtypes
    over byte arrays with the derived lexicographic order; [OrdKey] is what a container needs of them. *)

Class OrdKey (A : Type) `{Countable A} := {
  key_bytes : A → list byte;
  key_bytes_inj :: Inj (=) (=) key_bytes
}.

Definition key_le `{OrdKey A} (a b : A) : Prop := bytes_le (key_bytes a) (key_bytes b) = true.

Section ord_key.
Context `{OrdKey A}.

#[export] Instance key_le_dec : RelDecision (key_le (A:=A)).
Proof. intros a b. unfold key_le. apply _. Defined.

#[export] Instance key_le_total_order : TotalOrder (key_le (A:=A)).
Proof.
  split; [split; [split|]|].
  - intros a. apply bytes_le_refl.
  - intros a b c. apply bytes_le_trans.
  - intros a b ??. apply (inj key_bytes). by apply bytes_le_antisym.
  - intros a b. unfold strict, key_le.
    destruct (decide (a = b)) as [->|Hab]; [auto|].
    destruct (bytes_le_total (key_bytes a) (key_bytes b)) as [E|E].
    + left. split; [done|]. intros E'. apply Hab, (inj key_bytes). by apply bytes_le_antisym.
    + right; right. split; [done|]. intros E'. apply Hab, (inj key_bytes). by apply bytes_le_antisym.
Qed.

#[export] Instance key_le_total : Total (key_le (A:=A)).
Proof. intros a b. apply bytes_le_total. Qed.

(** [BTreeSet::iter]. *)
Definition btree_elems (s : gset A) : list A := merge_sort key_le (elements s).

(** [BTreeMap::keys], [BTreeMap::iter] and [BTreeMap::values]. *)
Definition btree_keys {V} (m : gmap A V) : list A := btree_elems (dom m).
Definition btree_iter {V} (m : gmap A V) : list (A * V) :=
  omap (λ k, pair k <$> m !! k) (btree_keys m).
Definition btree_values {V} (m : gmap A V) : list V := (btree_iter m).*2.

Lemma btree_elems_perm s : btree_elems s ≡ₚ elements s.
Proof. apply merge_sort_Permutation. Qed.

Lemma elem_of_btree_elems s x : x ∈ btree_elems s ↔ x ∈ s.
Proof. by rewrite btree_elems_perm, elem_of_elements. Qed.

Lemma NoDup_btree_elems s : NoDup (btree_elems s).
Proof. rewrite btree_elems_perm. apply NoDup_elements. Qed.

Lemma btree_elems_sorted s : StronglySorted key_le (btree_elems s).
Proof. apply StronglySorted_merge_sort; apply _. Qed.

Lemma elem_of_btree_keys {V} (m : gmap A V) k : k ∈ btree_keys m ↔ is_Some (m !! k).
Proof. unfold btree_keys. by rewrite elem_of_btree_elems, elem_of_dom. Qed.

Lemma NoDup_btree_keys {V} (m : gmap A V) : NoDup (btree_keys m).
Proof. apply NoDup_btree_elems. Qed.

Lemma length_btree_keys {V} (m : gmap A V) : length (btree_keys m) = size m.
Proof. unfold btree_keys. by rewrite btree_elems_perm, <-size_dom. Qed.

Lemma elem_of_btree_iter {V} (m : gmap A V) k v : (k, v) ∈ btree_iter m ↔ m !! k = Some v.
Proof.
  unfold btree_iter. rewrite list_elem_of_omap. split.
  - intros (k' & _ & E). by apply fmap_Some in E as (? & ? & [= -> ->]).
  - intros E. exists k. rewrite elem_of_btree_keys, E. eauto.
Qed.

Lemma elem_of_btree_values {V} (m : gmap A V) v : v ∈ btree_values m ↔ ∃ k, m !! k = Some v.
Proof.
  unfold btree_values. rewrite list_elem_of_fmap. split.
  - intros ([k v'] & -> & E). exists k. by apply elem_of_btree_iter.
  - intros [k E]. exists (k, v). by rewrite elem_of_btree_iter.
Qed.

Lemma btree_iter_keys {V} (m : gmap A V) : (btree_iter m).*1 = btree_keys m.
Proof.
  unfold btree_iter. assert (Hl : ∀ k, k ∈ btree_keys m → is_Some (m !! k)).
  { intros k. by rewrite elem_of_btree_keys. }
  induction (btree_keys m) as [|k l IH]; simpl; [done|].
  destruct (Hl k) as [v Hv]; [left|]. rewrite Hv; simpl. f_equal.
  apply IH. intros k' ?. apply Hl. by right.
Qed.

End ord_key.

(** ** Sums of stakes *)

Definition sum_N {A} (f : A → N) (l : list A) : N := foldr (λ x acc, f x + acc) 0 l.

(** [Iterator::sum::<u32>()]. *)
Definition u32_sum (l : list N) : N := foldl u32_add 0 l.

Lemma sum_N_app {A} (f : A → N) l k : sum_N f (l ++ k) = sum_N f l + sum_N f k.
Proof. induction l; simpl; lia. Qed.

#[export] Instance sum_N_Permutation {A} (f : A → N) : Proper ((≡ₚ) ==> (=)) (sum_N f).
Proof. intros l k Hlk. unfold sum_N. induction Hlk; simpl; lia. Qed.

Lemma sum_N_ext {A} (f g : A → N) l : (∀ x, x ∈ l → f x = g x) → sum_N f l = sum_N g l.
Proof.
  intros Hfg. induction l as [|x l IH]; simpl; [done|].
  rewrite Hfg by left. rewrite IH; [done|]. intros; apply Hfg. by right.
Qed.

Lemma sum_N_fmap {A B} (g : A → B) (f : B → N) l : sum_N f (g <$> l) = sum_N (f ∘ g) l.
Proof. induction l; simpl; auto with f_equal. Qed.

Lemma u32_sum_mod l : u32_sum l = sum_N id l mod two32.
Proof.
  unfold u32_sum. cut (∀ a, foldl u32_add (a mod two32) l = (a + sum_N id l) mod two32).
  { intros E. apply (E 0). }
  induction l as [|x l IH]; intros a; simpl; [by rewrite N.add_0_r|].
  unfold u32_add at 2. rewrite N.Div0.add_mod_idemp_l, IH. f_equal. unfold id. lia.
Qed.

Lemma u32_sum_small l : sum_N id l < two32 → u32_sum l = sum_N id l.
Proof. intros. rewrite u32_sum_mod. by apply N.mod_small. Qed.

Section sum_set.
Context `{Countable A} (f : A → N).
Implicit Types X Y : gset A.

Definition sum_set (X : gset A) : N := sum_N f (elements X).

Lemma sum_set_empty : sum_set ∅ = 0.
Proof. unfold sum_set. by rewrite elements_empty. Qed.

Lemma sum_set_singleton x : sum_set {[ x ]} = f x.
Proof. unfold sum_set. rewrite elements_singleton. simpl. lia. Qed.

Lemma sum_set_disj_union X Y : X ## Y → sum_set (X ∪ Y) = sum_set X + sum_set Y.
Proof. intros. unfold sum_set. by rewrite elements_disj_union, sum_N_app. Qed.

Lemma sum_set_split X Y : sum_set X = sum_set (X ∩ Y) + sum_set (X ∖ Y).
Proof.
  rewrite <-sum_set_disj_union by set_solver. f_equal.
  apply set_eq. intros x. destruct (decide (x ∈ Y)); set_solver.
Qed.

Lemma sum_set_mono X Y : X ⊆ Y → sum_set X ≤ sum_set Y.
Proof. intros. rewrite (sum_set_split Y X). replace (Y ∩ X) with X by set_solver. lia. Qed.

(** Inclusion-exclusion, the arithmetic of quorum intersection. *)
Lemma sum_set_union_inter X Y : sum_set (X ∪ Y) + sum_set (X ∩ Y) = sum_set X + sum_set Y.
Proof.
  rewrite (sum_set_split (X ∪ Y) Y), (sum_set_split X Y).
  replace ((X ∪ Y) ∩ Y) with Y by set_solver.
  replace ((X ∪ Y) ∖ Y) with (X ∖ Y) by set_solver. lia.
Qed.

Lemma sum_set_list_to_set (l : list A) : NoDup l → sum_set (list_to_set l) = sum_N f l.
Proof. intros. unfold sum_set. by rewrite elements_list_to_set. Qed.

End sum_set.

(** ** [slice::sort_by_key]: a stable sort *)

Section sort_by_key.
Context {A : Type} (key : A → N).

Fixpoint insert_by_key (x : A) (l : list A) : list A :=
  match l with
  | [] => [x]
  | y :: l' => if key x <=? key y then x :: y :: l' else y :: insert_by_key x l'
  end.

Definition sort_by_key (l : list A) : list A := foldr insert_by_key [] l.

Lemma insert_by_key_perm x l : insert_by_key x l ≡ₚ x :: l.
Proof.
  induction l as [|y l IH]; simpl; [done|]. case_match; [done|].
  rewrite IH. apply Permutation_swap.
Qed.

Lemma sort_by_key_perm l : sort_by_key l ≡ₚ l.
Proof. induction l as [|x l IH]; simpl; [done|]. by rewrite insert_by_key_perm, IH. Qed.

Lemma insert_by_key_sorted x l :
  StronglySorted (λ a b, key a ≤ key b) l → StronglySorted (λ a b, key a ≤ key b) (insert_by_key x l).
Proof.
  induction 1 as [|y l Hs IH Hy]; simpl; [by repeat constructor|].
  destruct (N.leb_spec (key x) (key y)).
  - constructor; [by constructor|]. constructor; [done|].
    eapply Forall_impl; [exact Hy|]. simpl. lia.
  - constructor; [done|]. rewrite insert_by_key_perm. constructor; [lia|done].
Qed.

Lemma sort_by_key_sorted l : StronglySorted (λ a b, key a ≤ key b) (sort_by_key l).
Proof. induction l; simpl; [constructor|by apply insert_by_key_sorted]. Qed.

End sort_by_key.

(** ** Ranges: [lo..hi] *)

Definition N_range (lo hi : N) : list N := (λ i, lo + N.of_nat i) <$> seq 0 (N.to_nat (hi - lo)).

Lemma elem_of_N_range lo hi x : x ∈ N_range lo hi ↔ lo ≤ x ∧ x < hi.
Proof.
  unfold N_range. rewrite list_elem_of_fmap. split.
  - intros (i & -> & [_ ?]%elem_of_seq). lia.
  - intros [??]. exists (N.to_nat (x - lo)). rewrite elem_of_seq. lia.
Qed.

Lemma NoDup_N_range lo hi : NoDup (N_range lo hi).
Proof. apply NoDup_fmap_2; [intros ??; lia|apply NoDup_seq]. Qed.

Lemma length_N_range lo hi : length (N_range lo hi) = N.to_nat (hi - lo).
Proof. unfold N_range. by rewrite length_fmap, length_seq. Qed.

(** ** [str::parse::<u64>()] and [str::parse::<usize>()] *)

Fixpoint parse_digits (s : string) (acc : N) : option N :=
  match s with
  | EmptyString => Some acc
  | String c s =>
      let n := Ascii.N_of_ascii c in
      if (48 <=? n) && (n <=? 57) then
        let acc := acc * 10 + (n - 48) in
        if acc <? two64 then parse_digits s acc else None
      else None
  end.

(** An optional plus sign and at least one digit. *)
Definition parse_u64 (s : string) : option N :=
  match s with
  | EmptyString => None
  | String c s' =>
      if Ascii.N_of_ascii c =? 43 then (match s' with EmptyString => None | _ => parse_digits s' 0 end)
      else parse_digits s 0
  end.

(** The environment variables of the process, and
    [std::env::var(name).ok().and_then(|value| value.parse().ok()).unwrap_or(0)]. *)
Definition Environment := string → option string.
Definition env_number (env : Environment) (name : string) : N := default 0 (env name ≫= parse_u64).

(** ** Generic list lemmas *)

Lemma filter_none {A} (P : A → Prop) `{∀ x, Decision (P x)} (l : list A) : (∀ x, x ∈ l → ¬ P x) → filter P l = [].
Proof.
  intros Hl. destruct (filter P l) as [|x k] eqn:E; [done|]. exfalso.
  assert (x ∈ filter P l) as [? ?]%list_elem_of_filter by (rewrite E; left). by eapply Hl.
Qed.

Lemma filter_ext_elem {A} (P Q : A → Prop) `{∀ x, Decision (P x), ∀ x, Decision (Q x)} (l : list A) :
  (∀ x, x ∈ l → P x ↔ Q x) → filter P l = filter Q l.
Proof.
  induction l as [|x l IH]; intros Hl; [done|]. rewrite !filter_cons.
  assert (Hx : P x ↔ Q x) by (apply Hl; left).
  rewrite IH by (intros; apply Hl; by right). repeat case_decide; naive_solver.
Qed.

(** Counting the members of a sub-collection. *)
Lemma length_filter_sub {A} `{EqDecision A} (l sub : list A) (P : A → Prop) `{∀ x, Decision (P x)} :
  NoDup l → NoDup sub → sub ⊆ l → (∀ x, x ∈ l → P x ↔ x ∈ sub) → length (filter P l) = length sub.
Proof.
  intros Hl Hsub Hin HP. apply Permutation_length, NoDup_Permutation; [by apply NoDup_filter|done|].
  intros x. rewrite list_elem_of_filter. split; [intros [??]; by apply HP|].
  intros Hx. pose proof (Hin x Hx). split; [by apply HP|done].
Qed.

(** In a list without duplicates, exactly the [k] first elements of the order have rank below [k]. *)
Lemma length_filter_rank {A} `{EqDecision A} (R : relation A) `{!RelDecision R, !TotalOrder R} (k : nat) (l : list A) :
  NoDup l →
  length (filter (λ x, (length (filter (λ y, strict R y x) l) < k)%nat) l) = Nat.min k (length l).
Proof.
  intros Hnd. assert (Hperm : merge_sort R l ≡ₚ l) by apply merge_sort_Permutation.
  assert (Hs : StronglySorted R (merge_sort R l)) by (apply StronglySorted_merge_sort; apply _).
  transitivity (length (filter (λ x, (length (filter (λ y, strict R y x) (merge_sort R l)) < k)%nat)
    (merge_sort R l))).
  { rewrite (Permutation_length (filter_Permutation _ _ _ Hperm)). f_equal. apply filter_ext_elem.
    intros x _. by rewrite Hperm. }
  rewrite <-(Permutation_length Hperm). rewrite <-Hperm in Hnd.
  clear Hperm. revert k. induction Hs as [|x l' Hs IH Hx]; intros k; [by destruct k|].
  apply NoDup_cons in Hnd as [Hn Hnd]. rewrite Forall_forall in Hx.
  assert (Hself : ∀ z, ¬ strict R z z) by (intros z [? Hz]; done).
  assert (Hrank0 : filter (λ y, strict R y x) (x :: l') = []).
  { apply filter_none. intros y [->|Hy]%elem_of_cons; [done|]. intros [? Hy']. by apply Hy', Hx. }
  assert (Hrank : ∀ y, y ∈ l' → filter (λ z, strict R z y) (x :: l') = x :: filter (λ z, strict R z y) l').
  { intros y Hy. rewrite filter_cons, decide_True; [done|]. split; [by apply Hx|].
    intros ?. apply Hn. by rewrite (anti_symm R x y) by auto. }
  rewrite filter_cons, Hrank0. simpl. destruct k as [|k]; simpl.
  - rewrite filter_none; [done|]. intros; lia.
  - f_equal. rewrite <-(IH Hnd k). f_equal. apply filter_ext_elem.
    intros y Hy. rewrite Hrank by done. simpl. lia.
Qed.

Lemma NoDup_app_intro {A} (l k : list A) :
  NoDup l → NoDup k → (∀ x, x ∈ l → x ∉ k) → NoDup (l ++ k).
Proof. intros. by apply NoDup_app. Qed.

Lemma NoDup_fmap_inj_elem {A B} (f : A → B) (l : list A) x y :
  NoDup (f <$> l) → x ∈ l → y ∈ l → f x = f y → x = y.
Proof.
  intros Hnd [i Hi]%list_elem_of_lookup [j Hj]%list_elem_of_lookup E.
  assert (i = j) as <-; [|congruence].
  eapply (NoDup_lookup (f <$> l) i j (f x)); [done|by rewrite list_lookup_fmap, Hi|].
  by rewrite list_lookup_fmap, Hj, E.
Qed.

Lemma NoDup_fst_inj {A B} (l : list (A * B)) e e' :
  NoDup l.*1 → e ∈ l → e' ∈ l → e.1 = e'.1 → e = e'.
Proof.
  apply NoDup_fmap_inj_elem.
Qed.

Lemma existsb_In {A} (f : A → bool) l : existsb f l = true ↔ ∃ x, x ∈ l ∧ f x = true.
Proof. rewrite existsb_exists. by setoid_rewrite list_elem_of_In. Qed.

Lemma forallb_elem {A} (f : A → bool) l : forallb f l = true ↔ ∀ x, x ∈ l → f x = true.
Proof. rewrite forallb_forall. by setoid_rewrite list_elem_of_In. Qed.

#[export] Hint Resolve length_arr_bytes length_le_bytes NoDup_btree_elems NoDup_btree_keys : tusk.
#[export] Hint Rewrite @elem_of_btree_elems @elem_of_btree_keys @elem_of_btree_iter
  @elem_of_btree_values @length_arr_bytes length_le_bytes : tusk_simpl.
