(* ===== verification/Channels.v ===== *)
(** Tasks joined by channels: what the models of the nodes share. The messages in flight are one list, oldest
    first, in which every channel is a queue. A step takes at most one message from a channel and leaves an
    entry in the log, which tells what it took and what it sent. *)

From S2P Require Import Prelude.

(** The channel a message is sent on. *)
Class Channelled (M K : Type) := channel_of : M → K.
Arguments channel_of {M K _} _ /.

(** ** Queues *)

Lemma prefix_sublist {A} (l k : list A) : l `prefix_of` k → l `sublist_of` k.
Proof. intros [k' ->]. by apply sublist_inserts_r. Qed.

Lemma fmap_sublist {A B} (f : A → B) (l k : list A) : l `sublist_of` k → f <$> l `sublist_of` f <$> k.
Proof. induction 1; csimpl; by constructor. Qed.

Section channels.
Context {M K : Type} `{!EqDecision K, !Channelled M K}.
Implicit Types (m : M) (k : K) (q : list M).

(** The messages of a channel, and [recv]: the next one of a channel with the messages that stay. *)
Definition on k q : list M := filter (λ m, channel_of m = k) q.

Fixpoint recv k q : option (M * list M) :=
  match q with
  | [] => None
  | m :: q =>
      if decide (channel_of m = k) then Some (m, q)
      else '(m', q) ← recv k q; Some (m', m :: q)
  end.

Lemma on_app k q q' : on k (q ++ q') = on k q ++ on k q'.
Proof. apply filter_app. Qed.

Lemma elem_of_on m q : m ∈ on (channel_of m) q ↔ m ∈ q.
Proof. unfold on. rewrite list_elem_of_filter. naive_solver. Qed.

(** A list of messages of one kind: all on one channel, none on the others. *)
Lemma on_fmap {A} (f : A → M) k l : (∀ x, channel_of (f x) = k) → on k (f <$> l) = f <$> l.
Proof.
  intros Hf. unfold on. induction l as [|x l IH]; csimpl; [done|]. rewrite filter_cons, decide_True by done. by f_equal.
Qed.

Lemma on_none k q : (∀ m, m ∈ q → channel_of m ≠ k) → on k q = [].
Proof.
  intros Hq. unfold on. induction q as [|m q IH]; [done|]. rewrite filter_cons, decide_False by (apply Hq; left).
  apply IH. intros. apply Hq. by right.
Qed.

(** One kind of a list of messages. *)
Lemma on_omap {A B} (f : A → M) (p : B → option M) (g : B → option A) k l :
  (∀ x, on k (option_list (p x)) = f <$> option_list (g x)) → on k (omap p l) = f <$> omap g l.
Proof.
  intros Hp. induction l as [|x l IH]; [done|]. change (x :: l) with ([x] ++ l).
  rewrite !omap_app, on_app, fmap_app, IH. f_equal. specialize (Hp x). simpl. by destruct (p x), (g x).
Qed.

(** The messages of [q] are, on every channel, what is taken and then those of [q']. *)
Definition consumes q (o : option M) q' : Prop := ∀ k, on k q = on k (option_list o) ++ on k q'.

Lemma recv_consumes k q m q' : recv k q = Some (m, q') → channel_of m = k ∧ consumes q (Some m) q'.
Proof.
  revert q'. induction q as [|x q IH]; intros q'; cbn [recv]; [done|].
  case_decide as Hx; [intros [= -> ->]; split; [done|]; intros k'; apply (on_app k' [m])|].
  destruct (recv k q) as [[m' q1]|] eqn:E; [|done]. intros [= -> <-]. destruct (IH q1 eq_refl) as [Hm Hc].
  split; [done|]. intros k'. specialize (Hc k'). unfold on in *. change (option_list (Some m)) with [m] in *.
  rewrite !filter_cons, filter_nil in *. repeat case_decide; simpl in *; congruence.
Qed.

Lemma consumes_elem q o q' m : consumes q o q' → m ∈ q ↔ m ∈ option_list o ∨ m ∈ q'.
Proof. intros Hc. by rewrite <-(elem_of_on m q), (Hc (channel_of m)), elem_of_app, !elem_of_on. Qed.
End channels.

(** [sent_case] finds what one entry sends on a channel: the messages of one kind, or none. *)
Ltac sent_case :=
  first [done | apply on_fmap; done | by apply on_omap; intros []
        | apply on_none; intros ? Hm;
          first [apply list_elem_of_fmap in Hm as (? & -> & _); done
                |apply list_elem_of_omap in Hm as (y & _ & Ey); by destruct y; simplify_eq/=]].

(** ** Runs *)

Section runs.
Context {S A E : Type} (step : S → A → option (S * E)).

Fixpoint run_steps (s : S) (actions : list A) : option (S * list E) :=
  match actions with
  | [] => Some (s, [])
  | a :: actions =>
      '(s, e) ← step s a;
      '(s, log) ← run_steps s actions;
      Some (s, e :: log)
  end.

(** A relation between the state before, the log and the state after holds of a run when it is reflexive and
    is kept by a step before the run. *)
Lemma run_steps_ind (stepped : S → E → S → Prop) (R : S → list E → S → Prop) s actions s' log :
  (∀ s a s' e, step s a = Some (s', e) → stepped s e s') →
  (∀ s, R s [] s) → (∀ s1 e s2 log s3, stepped s1 e s2 → R s2 log s3 → R s1 (e :: log) s3) →
  run_steps s actions = Some (s', log) → R s log s'.
Proof.
  intros Hst Hr Hs. revert s log. induction actions as [|a actions IH]; intros s log; simpl; [by intros [= -> <-]|].
  destruct (step s a) as [[s1 e]|] eqn:Ea; [|done]. simpl.
  destruct (run_steps s1 actions) as [[s2 log']|] eqn:Er; [|done]. simpl. intros [= -> <-].
  eapply Hs; [by eapply Hst|by apply IH].
Qed.

(** An entry of the log was left by one of the actions. *)
Lemma run_steps_elem s actions s' log e :
  run_steps s actions = Some (s', log) → e ∈ log → ∃ s1 a s2, a ∈ actions ∧ step s1 a = Some (s2, e).
Proof.
  revert s log. induction actions as [|a actions IH]; intros s log; simpl; [intros [= <- <-]; by intros ?%elem_of_nil|].
  destruct (step s a) as [[s1 e1]|] eqn:Ea; [|done]. simpl.
  destruct (run_steps s1 actions) as [[s2 log']|] eqn:Er; [|done]. simpl. intros [= -> <-] [->|He]%elem_of_cons.
  - exists s, a, s1. split; [left|done].
  - destruct (IH s1 log' Er He) as (s3 & a' & s4 & ? & ?). exists s3, a', s4. split; [by right|done].
Qed.

(** Every channel is a queue, when steps take and send as their entries say. *)
Context {M K : Type} `{!EqDecision K, !Channelled M K}.
Variables (in_flight : S → list M) (taken : E → option M) (sent : E → list M).
Hypothesis step_queue : ∀ s a s' e, step s a = Some (s', e) →
  ∃ q, consumes (in_flight s) (taken e) q ∧ in_flight s' = q ++ sent e.

Lemma run_steps_channels s actions s' log :
  run_steps s actions = Some (s', log) →
  ∀ k, on k (in_flight s) ++ on k (log ≫= sent) = on k (omap taken log) ++ on k (in_flight s').
Proof.
  apply (run_steps_ind (λ s e s', ∃ q, consumes (in_flight s) (taken e) q ∧ in_flight s' = q ++ sent e)
    (λ s log s', ∀ k, on k (in_flight s) ++ on k (log ≫= sent) = on k (omap taken log) ++ on k (in_flight s')));
    [exact step_queue|intros; apply app_nil_r|].
  clear s actions s' log. intros s1 e s2 log s3 (q & Hc & E2) IH k. specialize (IH k).
  change (omap taken (e :: log)) with (omap taken ([e] ++ log)). rewrite omap_app, bind_cons, !on_app, <-app_assoc, <-IH.
  rewrite (Hc k), E2, on_app, <-!app_assoc. simpl. by destruct (taken e).
Qed.

(** The messages of the steps on one channel, from what each step sends or takes on it. *)
Lemma on_steps {B} (f : B → M) (g : E → list B) k log :
  (∀ e, on k (sent e) = f <$> g e) → on k (log ≫= sent) = f <$> (log ≫= g).
Proof. intros Hg. induction log as [|e log IH]; [done|]. by rewrite !bind_cons, on_app, fmap_app, Hg, IH. Qed.

Lemma on_taken {B} (f : B → M) (g : E → option B) k log :
  (∀ e, on k (option_list (taken e)) = f <$> option_list (g e)) → on k (omap taken log) = f <$> omap g log.
Proof. apply on_omap. Qed.

(** What is taken from a channel that starts empty was sent on it, in order. *)
Lemma run_steps_prefix {B} (f : B → M) (g : E → list B) (h : E → option B) k s actions s' log :
  Inj (=) (=) f → on k (in_flight s) = [] →
  (∀ e, on k (sent e) = f <$> g e) → (∀ e, on k (option_list (taken e)) = f <$> option_list (h e)) →
  run_steps s actions = Some (s', log) → omap h log `prefix_of` log ≫= g.
Proof.
  intros Hf Hs Hg Hh Hr. apply run_steps_channels with (k := k) in Hr.
  rewrite Hs, (on_steps f g), (on_taken f h) in Hr by done. simpl in Hr.
  apply fmap_app_inv in Hr as (l1 & l2 & E1 & _ & ->). apply list_fmap_eq_inj in E1 as <-; [|done]. by exists l2.
Qed.
End runs.
