(* ===== verification/Crypto.v ===== *)
(** Digests, keys and signatures ([src/crypto/src/lib.rs]).

    SHA-512 and Ed25519 ([ed25519_dalek]) and base64 are third-party code: they are the classes [Sha512],
    [Dalek] and [Base64], arguments of every definition that calls them, and what their documentation
    promises is stated in [DalekLaws] and [Base64Laws]. The module [Toy] instantiates all of them with
    concrete functions, so that every statement can be evaluated. *)

From S2P Require Import Prelude.

(** ** Third-party code *)

(** [Sha512::digest]: 64 bytes out of any message. *)
Class Sha512 := sha512 : list byte → array 64.

(** The functions of [ed25519_dalek] the program calls. *)
Class Dalek := {
  CryptoError : Type;
  dalek_signature : Type;
  dalek_public_key : Type;
  dalek_keypair : Type;
  signature_from_bytes : array 64 → outcome CryptoError dalek_signature;
  public_key_from_bytes : array 32 → outcome CryptoError dalek_public_key;
  keypair_from_bytes : array 64 → outcome CryptoError dalek_keypair;
  keypair_to_bytes : dalek_keypair → array 64;
  keypair_public : dalek_keypair → array 32;
  keypair_sign : dalek_keypair → list byte → array 64;
  verify_strict : dalek_public_key → list byte → dalek_signature → outcome CryptoError unit;
  dalek_verify_batch :
    list (list byte) → list dalek_signature → list dalek_public_key → outcome CryptoError unit
}.

(** What the documentation of [ed25519_dalek] promises: a key pair survives its byte encoding, a
    signature verifies under the key that made it, and a batch of valid signatures is accepted. *)
Class DalekLaws (D : Dalek) : Prop := {
  keypair_bytes_roundtrip k : keypair_from_bytes (keypair_to_bytes k) = Ret k;
  sign_verifies k m :
    ∃ s p, signature_from_bytes (keypair_sign k m) = Ret s ∧
           public_key_from_bytes (keypair_public k) = Ret p ∧ verify_strict p m s = Ret ();
  batch_complete ms ss ps :
    Forall2 (λ '(m, s) p, verify_strict p m s = Ret ()) (zip ms ss) ps →
    length ms = length ss → dalek_verify_batch ms ss ps = Ret ()
}.

(** [base64::encode] and [base64::decode]. *)
Class Base64 := {
  DecodeError : Type;
  InvalidLength : DecodeError;
  base64_encode : list byte → list byte;
  base64_decode : list byte → outcome DecodeError (list byte)
}.

Class Base64Laws (B : Base64) : Prop :=
  base64_roundtrip l : base64_decode (base64_encode l) = Ret l.

(** ** Digests *)

Record Digest := MkDigest { digest_bytes : array 32 }.

#[export] Instance Digest_eq_dec : EqDecision Digest.
Proof. solve_decision. Defined.
#[export] Program Instance Digest_countable : Countable Digest :=
  inj_countable' digest_bytes MkDigest _.
Next Obligation. by intros []. Qed.
#[export] Program Instance Digest_ord : OrdKey Digest := {| key_bytes d := arr_bytes (digest_bytes d) |}.
Next Obligation. intros [d] [e] H%(inj _). simpl in H. congruence. Qed.

(** [Digest::default], [Digest::to_vec], [Digest::size] and [Digest::try_from]. *)
Definition Digest_default : Digest := MkDigest (array_zero 32).
Definition Digest_to_vec (d : Digest) : list byte := arr_bytes (digest_bytes d).
Definition Digest_size (d : Digest) : N := N.of_nat (length (Digest_to_vec d)).
Definition Digest_try_from (item : list byte) : option Digest := MkDigest <$> array_of 32 item.

(** [Digest(hasher.finalize().as_slice()[..32].try_into().unwrap())]. *)
Definition hash_bytes `{Sha512} (m : list byte) : Digest := MkDigest (@array_take 32 32 (sha512 m)).

(** The trait [Hash] of everything that can be hashed. *)
Class Hash (A : Type) := digest : A → Digest.

Lemma Digest_size_32 d : Digest_size d = 32.
Proof. unfold Digest_size, Digest_to_vec. by rewrite length_arr_bytes. Qed.

Lemma length_Digest_to_vec d : length (Digest_to_vec d) = 32%nat.
Proof. apply length_arr_bytes. Qed.

Lemma Digest_to_vec_inj d e : Digest_to_vec d = Digest_to_vec e → d = e.
Proof. destruct d, e. unfold Digest_to_vec; simpl. intros ?%(inj _). by subst. Qed.

(** ** Public keys *)

Record PublicKey := MkPublicKey { key_array : array 32 }.

#[export] Instance PublicKey_eq_dec : EqDecision PublicKey.
Proof. solve_decision. Defined.
#[export] Program Instance PublicKey_countable : Countable PublicKey :=
  inj_countable' key_array MkPublicKey _.
Next Obligation. by intros []. Qed.
#[export] Program Instance PublicKey_ord : OrdKey PublicKey := {| key_bytes k := arr_bytes (key_array k) |}.
Next Obligation. intros [d] [e] H%(inj _). simpl in H. congruence. Qed.

Definition PublicKey_default : PublicKey := MkPublicKey (array_zero 32).
Definition PublicKey_as_ref (k : PublicKey) : list byte := arr_bytes (key_array k).

Lemma length_PublicKey_as_ref k : length (PublicKey_as_ref k) = 32%nat.
Proof. apply length_arr_bytes. Qed.

Lemma PublicKey_as_ref_inj k l : PublicKey_as_ref k = PublicKey_as_ref l → k = l.
Proof. destruct k, l. unfold PublicKey_as_ref; simpl. intros ?%(inj _). by subst. Qed.

#[export] Hint Resolve length_Digest_to_vec length_PublicKey_as_ref Digest_size_32 : tusk.

Section base64.
Context `{Base64}.

Definition PublicKey_encode_base64 (k : PublicKey) : list byte := base64_encode (PublicKey_as_ref k).

(** [bytes[..n].try_into()]: the slice panics when [bytes] is shorter than [n]. *)
Definition slice_to_array (n : nat) (bytes : list byte) : outcome DecodeError (array n) :=
  if (n <=? length bytes)%nat then ok_or (array_of n (take n bytes)) InvalidLength else Panic.

Definition PublicKey_decode_base64 (s : list byte) : outcome DecodeError PublicKey :=
  bytes ← base64_decode s;
  arr ← slice_to_array 32 bytes;
  Ret (MkPublicKey arr).

(** ** Secret keys *)

Record SecretKey := MkSecretKey { secret_array : array 64 }.

Definition SecretKey_encode_base64 (k : SecretKey) : list byte :=
  base64_encode (arr_bytes (secret_array k)).

Definition SecretKey_decode_base64 (s : list byte) : outcome DecodeError SecretKey :=
  bytes ← base64_decode s;
  arr ← slice_to_array 64 bytes;
  Ret (MkSecretKey arr).

End base64.

(** [Drop for SecretKey]: the bytes are zeroed. *)
Definition SecretKey_drop (k : SecretKey) : SecretKey :=
  MkSecretKey (Array ((λ _, x00) <$> arr_bytes (secret_array k))
    (bool_decide_eq_true_2 _ (eq_trans (length_fmap _ _) (length_arr_bytes _)))).

(** ** Signatures *)

Record Signature := MkSignature { part1 : array 32; part2 : array 32 }.

#[export] Instance Signature_eq_dec : EqDecision Signature.
Proof. solve_decision. Defined.

Definition Signature_default : Signature := MkSignature (array_zero 32) (array_zero 32).

Definition Signature_flatten (s : Signature) : array 64 := array_app (part1 s) (part2 s).

Section signatures.
Context `{Dalek}.

(** [generate_keypair], for the key pair the generator of random numbers led to. *)
Definition generate_keypair (keypair : dalek_keypair) : PublicKey * SecretKey :=
  (MkPublicKey (keypair_public keypair), MkSecretKey (keypair_to_bytes keypair)).

Definition Signature_new (d : Digest) (secret : SecretKey) : outcome CryptoError Signature :=
  match keypair_from_bytes (secret_array secret) with
  | Ret keypair =>
      let sig := keypair_sign keypair (Digest_to_vec d) in
      Ret (MkSignature (@array_take 32 32 sig) (@array_drop 32 32 sig))
  | _ => Panic
  end.

Definition Signature_verify (s : Signature) (d : Digest) (k : PublicKey) : outcome CryptoError unit :=
  signature ← signature_from_bytes (Signature_flatten s);
  key ← public_key_from_bytes (key_array k);
  verify_strict key (Digest_to_vec d) signature.

(** The loop of [Signature::verify_batch] that fills [messages], [signatures] and [keys]. *)
Fixpoint verify_batch_collect (d : Digest) (votes : list (PublicKey * Signature)) :
    outcome CryptoError (list (list byte) * list dalek_signature * list dalek_public_key) :=
  match votes with
  | [] => Ret ([], [], [])
  | (key, sig) :: votes =>
      signature ← signature_from_bytes (Signature_flatten sig);
      k ← public_key_from_bytes (key_array key);
      '(ms, ss, ks) ← verify_batch_collect d votes;
      Ret (Digest_to_vec d :: ms, signature :: ss, k :: ks)
  end.

Definition Signature_verify_batch (d : Digest) (votes : list (PublicKey * Signature)) :
    outcome CryptoError unit :=
  '(messages, signatures, keys) ← verify_batch_collect d votes;
  dalek_verify_batch messages signatures keys.

(** [SignatureService::request_signature]: the service signs with the secret key it holds; when it
    panics the requester's [expect] panics too. *)
Definition request_signature (secret : SecretKey) (d : Digest) : outcome CryptoError Signature :=
  Signature_new d secret.

End signatures.

Section crypto_lemmas.
Context `{D : Dalek, !DalekLaws D}.

Lemma Signature_new_flatten d k :
  ∃ s, Signature_new d (MkSecretKey (keypair_to_bytes k)) = Ret s ∧
       Signature_flatten s = keypair_sign k (Digest_to_vec d).
Proof.
  unfold Signature_new; simpl. rewrite keypair_bytes_roundtrip.
  eexists; split; [done|]. apply (@array_app_take_drop 32 32).
Qed.

Lemma Signature_new_verifies d k :
  ∃ s, Signature_new d (generate_keypair k).2 = Ret s ∧
       Signature_verify s d (generate_keypair k).1 = Ret ().
Proof.
  destruct (Signature_new_flatten d k) as (s & Hs & Hf). exists s. split; [done|].
  destruct (sign_verifies k (Digest_to_vec d)) as (sg & pk & E1 & E2 & E3).
  unfold Signature_verify; simpl. by rewrite Hf, E1; simpl; rewrite E2.
Qed.

(** A batch of individually valid votes is accepted. *)
Lemma verify_batch_of_verify d votes :
  Forall (λ v, Signature_verify v.2 d v.1 = Ret ()) votes →
  Signature_verify_batch d votes = Ret ().
Proof.
  intros Hv. unfold Signature_verify_batch.
  cut (∃ ms ss ks, verify_batch_collect d votes = Ret (ms, ss, ks) ∧ length ms = length ss ∧
         Forall2 (λ '(m, s) p, verify_strict p m s = Ret ()) (zip ms ss) ks).
  { intros (ms & ss & ks & -> & Hlen & Hall). simpl. by apply batch_complete. }
  induction Hv as [|[key sig] votes Hv _ (ms & ss & ks & E & Hlen & Hall)]; simpl.
  { by exists [], [], []. }
  unfold Signature_verify in Hv; simpl in Hv.
  destruct (signature_from_bytes _) as [sg|?|]; simpl in Hv |- *; try done.
  destruct (public_key_from_bytes _) as [pk|?|]; simpl in Hv |- *; try done.
  rewrite E; simpl. do 3 eexists. split; [done|]. simpl. auto.
Qed.
End crypto_lemmas.

Lemma slice_to_array_cases `{Base64} n l :
  slice_to_array n l =
    if decide (n ≤ length l)%nat then ok_or (array_of n (take n l)) InvalidLength else Panic.
Proof. unfold slice_to_array. destruct (Nat.leb_spec n (length l)); case_decide; try lia; done. Qed.

Lemma slice_to_array_ret `{Base64} n l :
  (n ≤ length l)%nat → ∃ a, slice_to_array n l = Ret a ∧ arr_bytes a = take n l.
Proof.
  intros Hn. rewrite slice_to_array_cases, decide_True by done.
  destruct (array_of n (take n l)) as [a|] eqn:E.
  - exists a. split; [done|]. by apply array_of_Some.
  - apply array_of_None in E. rewrite length_take in E. lia.
Qed.

(** Decoding inverts encoding; of longer input it takes the first bytes, and shorter input panics in the
    slice, so the error [InvalidLength] it maps to is never returned. *)
Lemma decode_base64_results `{Base64Laws} :
  (∀ k, PublicKey_decode_base64 (PublicKey_encode_base64 k) = Ret k) ∧
  (∀ k, SecretKey_decode_base64 (SecretKey_encode_base64 k) = Ret k) ∧
  ∀ s bytes, base64_decode s = Ret bytes →
    ((32 ≤ length bytes)%nat → ∃ k, PublicKey_decode_base64 s = Ret k ∧ PublicKey_as_ref k = take 32 bytes) ∧
    ((length bytes < 32)%nat → PublicKey_decode_base64 s = Panic) ∧
    ((length bytes < 64)%nat → SecretKey_decode_base64 s = Panic).
Proof.
  split_and!.
  - intros [k]. unfold PublicKey_decode_base64, PublicKey_encode_base64. rewrite base64_roundtrip. simpl.
    unfold PublicKey_as_ref, slice_to_array. simpl. rewrite length_arr_bytes. simpl.
    by rewrite take_ge, array_of_bytes by (by rewrite length_arr_bytes).
  - intros [k]. unfold SecretKey_decode_base64, SecretKey_encode_base64. rewrite base64_roundtrip. simpl.
    unfold slice_to_array. simpl. rewrite length_arr_bytes. simpl.
    by rewrite take_ge, array_of_bytes by (by rewrite length_arr_bytes).
  - intros s bytes E. unfold PublicKey_decode_base64, SecretKey_decode_base64. rewrite E. simpl.
    unfold slice_to_array. split_and!.
    + intros Hl. rewrite (proj2 (Nat.leb_le _ _) Hl).
      destruct (array_of 32 (take 32 bytes)) as [a|] eqn:Ea; simpl.
      * exists (MkPublicKey a). split; [done|]. by apply array_of_Some in Ea.
      * apply array_of_None in Ea. rewrite length_take in Ea. lia.
    + intros Hl. by rewrite (proj2 (Nat.leb_gt _ _) Hl).
    + intros Hl. by rewrite (proj2 (Nat.leb_gt _ _) Hl).
Qed.

(** ** Serialization of keys *)

(** A data format of serde: how it writes and reads a string, and its error made from a message. *)
Class Format `{Base64} (E : Type) := {
  format_output : Type;
  serialize_str : list byte → outcome E format_output;
  deserialize_string : format_output → outcome E (list byte);
  custom : DecodeError → E
}.

Class FormatLaws `{Base64} (E : Type) `{!Format E} : Prop :=
  string_roundtrip s o : serialize_str s = Ret o → deserialize_string o = Ret s.

Section serde.
Context `{Base64} {E : Type} `{!Format E}.

(** [Serialize] and [Deserialize] of the two kinds of keys. *)
Definition PublicKey_serialize (k : PublicKey) : outcome E format_output := serialize_str (PublicKey_encode_base64 k).
Definition PublicKey_deserialize (o : format_output) : outcome E PublicKey :=
  s ← deserialize_string o;
  map_err custom (PublicKey_decode_base64 s).

Definition SecretKey_serialize (k : SecretKey) : outcome E format_output := serialize_str (SecretKey_encode_base64 k).
Definition SecretKey_deserialize (o : format_output) : outcome E SecretKey :=
  s ← deserialize_string o;
  map_err custom (SecretKey_decode_base64 s).

(** What was serialized deserializes to the same key, but a string that decodes to too few bytes is no error:
    it panics whoever deserializes the message it is in. *)
Lemma key_serde_results `{!Base64Laws _, !FormatLaws E} :
  (∀ k o, PublicKey_serialize k = Ret o → PublicKey_deserialize o = Ret k) ∧
  (∀ k o, SecretKey_serialize k = Ret o → SecretKey_deserialize o = Ret k) ∧
  ∀ o s bytes, deserialize_string o = Ret s → base64_decode s = Ret bytes → (length bytes < 32)%nat →
    PublicKey_deserialize o = Panic.
Proof.
  destruct decode_base64_results as (Hp & Hs & Hshort). unfold PublicKey_deserialize, SecretKey_deserialize. split_and!.
  - intros k o ->%string_roundtrip. simpl. by rewrite Hp.
  - intros k o ->%string_roundtrip. simpl. by rewrite Hs.
  - intros o s bytes -> Hd Hl. simpl. destruct (Hshort s bytes Hd) as (_ & Hpanic & _). by rewrite (Hpanic Hl).
Qed.
End serde.

(** ** Concrete third-party functions, for evaluation *)

Module Toy.

Definition poly (m : list byte) : N :=
  foldl (λ acc b, N.land (acc * 257 + Strings.Byte.to_N b + 1) (N.ones 32)) 0 m.

#[export] Instance toy_sha512 : Sha512 := λ m, array_le 64 (poly m).

Definition toy_sign (k : array 32) (m : list byte) : array 64 :=
  @array_app 32 32 k (array_le 32 (poly m)).

Definition toy_verify (p : array 32) (m : list byte) (s : array 64) : outcome unit unit :=
  if decide (s = toy_sign p m) then Ret () else Throw ().

Fixpoint toy_verify_batch (ms : list (list byte)) (ss : list (array 64)) (ps : list (array 32)) :
    outcome unit unit :=
  match ms, ss, ps with
  | [], [], [] => Ret ()
  | m :: ms, s :: ss, p :: ps => toy_verify p m s ≫= λ _, toy_verify_batch ms ss ps
  | _, _, _ => Throw ()
  end.

#[export] Instance toy_dalek : Dalek := {|
  CryptoError := unit;
  dalek_signature := array 64;
  dalek_public_key := array 32;
  dalek_keypair := array 32;
  signature_from_bytes := Ret;
  public_key_from_bytes := Ret;
  keypair_from_bytes a := Ret (@array_take 32 32 a);
  keypair_to_bytes k := @array_app 32 32 k k;
  keypair_public k := k;
  keypair_sign := toy_sign;
  verify_strict := toy_verify;
  dalek_verify_batch := toy_verify_batch
|}.

#[export] Instance toy_dalek_laws : DalekLaws toy_dalek.
Proof.
  split; simpl.
  - intros k. f_equal. apply (inj arr_bytes). simpl. rewrite take_app_length'; [done|].
    symmetry. apply length_arr_bytes.
  - intros k m. do 2 eexists. split_and!; [done|done|]. unfold toy_verify. by rewrite decide_True.
  - intros ms ss ps Hall Hlen. remember (zip ms ss) as zs eqn:E.
    revert ms ss E Hlen. induction Hall as [|[m s] p zs ps Hv _ IH];
      intros [|m' ms] [|s' ss] [=] [=]; simplify_eq/=; [done|]. rewrite Hv; simpl. eauto.
Qed.

(** A base64 that is its own inverse: the alphabet plays no role in the program. *)
#[export] Instance toy_base64 : Base64 := {|
  DecodeError := unit;
  InvalidLength := ();
  base64_encode l := l;
  base64_decode l := Ret l
|}.

#[export] Instance toy_base64_laws : Base64Laws toy_base64.
Proof. by intros l. Qed.

(** The key pair, public key and digest numbered [n]. *)
Definition kp (n : N) : dalek_keypair := array_le 32 n.
Definition pk (n : N) : PublicKey := MkPublicKey (array_le 32 n).
Definition sk (n : N) : SecretKey := (generate_keypair (kp n)).2.
Definition dg (n : N) : Digest := MkDigest (array_le 32 n).

End Toy.
