(* ===== verification/Config.v ===== *)
(** The committee and the parameters of a node ([src/config/src/lib.rs]).

    Stakes are [u32]: the sums and products of the thresholds wrap. The thresholds are related to the
    number [f] of faults, and quorums to each other, for the committees whose total stake stays clear of
    the wrap-around ([small_stake]). *)

From S2P Require Import Prelude Crypto.

(** ** Data *)

Notation Stake := N (only parsing).
Notation WorkerId := N (only parsing).

(** [std::net::SocketAddr]: the bytes of the address (4 or 16) and the port. *)
Record SocketAddr := MkSocketAddr { ip : list byte; port : N }.

#[export] Instance SocketAddr_eq_dec : EqDecision SocketAddr.
Proof. solve_decision. Defined.
#[export] Program Instance SocketAddr_countable : Countable SocketAddr :=
  inj_countable' (λ a, (ip a, port a)) (λ '(i, p), MkSocketAddr i p) _.
Next Obligation. by intros []. Qed.

(** [address.set_ip("0.0.0.0".parse().unwrap())]. *)
Definition set_ip_any (a : SocketAddr) : SocketAddr := MkSocketAddr [x00; x00; x00; x00] (port a).

Record Parameters := MkParameters {
  header_size : N;
  max_header_delay : N;
  gc_depth : N;
  sync_retry_delay : N;
  sync_retry_nodes : N;
  batch_size : N;
  max_batch_delay : N
}.

Definition Parameters_default : Parameters :=
  {| header_size := 1000; max_header_delay := 100; gc_depth := 50; sync_retry_delay := 5000;
     sync_retry_nodes := 3; batch_size := 500000; max_batch_delay := 100 |}.

Record PrimaryAddresses := MkPrimaryAddresses {
  primary_to_primary : SocketAddr;
  worker_to_primary : SocketAddr
}.

Record WorkerAddresses := MkWorkerAddresses {
  transactions : SocketAddr;
  worker_to_worker : SocketAddr;
  primary_to_worker : SocketAddr
}.

Record Authority := MkAuthority {
  auth_stake : Stake;
  auth_primary : PrimaryAddresses;
  auth_workers : gmap WorkerId WorkerAddresses
}.

Record Committee := MkCommittee { authorities : gmap PublicKey Authority }.

Inductive ConfigError :=
| NotInCommittee (name : PublicKey)
| UnknownWorker (id : WorkerId)
| ImportError (file message : list byte)
| ExportError (file message : list byte).

(** ** Operations *)

Section committee.
Variable c : Committee.

Definition committee_size : N := N.of_nat (size (authorities c)).

Definition stake (name : PublicKey) : Stake :=
  match authorities c !! name with Some x => auth_stake x | None => 0 end.

Definition others (myself : PublicKey) : list (PublicKey * Authority) :=
  filter (λ x, x.1 ≠ myself) (btree_iter (authorities c)).

Definition others_stake (myself : PublicKey) : list (PublicKey * Stake) :=
  (λ x, (x.1, auth_stake x.2)) <$> others myself.

Definition total_votes : Stake := u32_sum (auth_stake <$> btree_values (authorities c)).

(** [2 * total_votes / 3 + 1]. *)
Definition quorum_threshold : Stake := u32_add (u32_mul 2 total_votes / 3) 1.

(** [(total_votes + 2) / 3]. *)
Definition validity_threshold : Stake := u32_add total_votes 2 / 3.

Definition primary (to : PublicKey) : outcome ConfigError PrimaryAddresses :=
  ok_or (auth_primary <$> authorities c !! to) (NotInCommittee to).

Definition others_primaries (myself : PublicKey) : list (PublicKey * PrimaryAddresses) :=
  (λ x, (x.1, auth_primary x.2)) <$> others myself.

(** [.iter().find(|(name, _)| name == &to).map(|(_, authority)| authority)]. *)
Definition find_key {K V} `{EqDecision K} (k : K) (l : list (K * V)) : option V :=
  snd <$> (snd <$> list_find (λ x, x.1 = k) l).

Definition worker (to : PublicKey) (id : WorkerId) : outcome ConfigError WorkerAddresses :=
  authority ← ok_or (find_key to (btree_iter (authorities c))) (NotInCommittee to);
  ok_or (find_key id (map_to_list (auth_workers authority))) (NotInCommittee to).

Definition our_workers (myself : PublicKey) : outcome ConfigError (list WorkerAddresses) :=
  authority ← ok_or (find_key myself (btree_iter (authorities c))) (NotInCommittee myself);
  Ret (map_to_list (auth_workers authority)).*2.

Definition others_workers (myself : PublicKey) (id : WorkerId) : list (PublicKey * WorkerAddresses) :=
  omap (λ x, pair x.1 <$> find_key id (map_to_list (auth_workers x.2))) (others myself).

End committee.

(** [KeyPair::new]. *)
Definition KeyPair_new `{Dalek} (keypair : dalek_keypair) : PublicKey * SecretKey :=
  generate_keypair keypair.

(** ** Lookups *)

Lemma find_key_Some {K V} `{EqDecision K} (k : K) (v : V) l :
  NoDup l.*1 → find_key k l = Some v ↔ (k, v) ∈ l.
Proof.
  intros Hnd. unfold find_key. split.
  - intros ([k' v'] & ([i [k'' v'']] & Hf & E)%fmap_Some & ->)%fmap_Some; simplify_eq/=.
    apply list_find_Some in Hf as (Hi & Hk & _); simpl in Hk; subst.
    by eapply list_elem_of_lookup_2.
  - intros Hin. destruct (list_find_elem_of (λ x, x.1 = k) l (k, v)) as [[i [k' v']] Hf]; [done..|].
    rewrite Hf; simpl. apply list_find_Some in Hf as (Hi & Hk & _); simpl in Hk; subst.
    apply list_elem_of_lookup_1 in Hin as [j Hj]. f_equal.
    assert (i = j) as ->; [|congruence].
    eapply NoDup_lookup; [exact Hnd| |]; rewrite list_lookup_fmap; [by rewrite Hi|by rewrite Hj].
Qed.

Lemma find_key_btree_iter `{OrdKey K} {V} (k : K) (m : gmap K V) : find_key k (btree_iter m) = m !! k.
Proof.
  apply option_eq. intros v. rewrite find_key_Some, elem_of_btree_iter; [done|].
  rewrite btree_iter_keys. apply NoDup_btree_keys.
Qed.

Lemma find_key_map_to_list `{Countable K} {V} (k : K) (m : gmap K V) :
  find_key k (map_to_list m) = m !! k.
Proof.
  apply option_eq. intros v. rewrite find_key_Some, elem_of_map_to_list; [done|].
  apply NoDup_fst_map_to_list.
Qed.

Lemma worker_lookup c to id :
  worker c to id =
    match authorities c !! to with
    | Some a => ok_or (auth_workers a !! id) (NotInCommittee to)
    | None => Throw (NotInCommittee to)
    end.
Proof.
  unfold worker. rewrite find_key_btree_iter. destruct (authorities c !! to); simpl; [|done].
  by rewrite find_key_map_to_list.
Qed.

Lemma elem_of_others c myself k a :
  (k, a) ∈ others c myself ↔ k ≠ myself ∧ authorities c !! k = Some a.
Proof. unfold others. by rewrite list_elem_of_filter, elem_of_btree_iter. Qed.

Lemma stake_pos_in c k : 0 < stake c k → k ∈ dom (authorities c).
Proof. unfold stake. rewrite elem_of_dom. destruct (authorities c !! k); [eauto|]. intros []%N.lt_irrefl. Qed.

(** ** Stake of a set of authorities *)

(** The members of the committee and the stake a set of keys holds, without wrap-around. *)
Definition members (c : Committee) : gset PublicKey := dom (authorities c).
Definition stake_of (c : Committee) (S : gset PublicKey) : N := sum_set (stake c) S.
Definition total_stake (c : Committee) : N := stake_of c (members c).

(** The committees whose thresholds do not wrap. *)
Definition small_stake (c : Committee) : Prop := 2 * total_stake c < two32.

#[export] Instance small_stake_dec c : Decision (small_stake c) := _.

Lemma total_votes_mod c : total_votes c = total_stake c mod two32.
Proof.
  unfold total_votes. rewrite u32_sum_mod. f_equal.
  unfold total_stake, stake_of, sum_set, members.
  transitivity (sum_N (stake c) (btree_keys (authorities c))).
  - rewrite <-btree_iter_keys. unfold btree_values. rewrite !sum_N_fmap.
    apply sum_N_ext. intros [k a] Hk%elem_of_btree_iter. unfold stake; simpl. by rewrite Hk.
  - unfold btree_keys. by rewrite btree_elems_perm.
Qed.

Lemma total_votes_small c : small_stake c → total_votes c = total_stake c.
Proof. intros Hs. rewrite total_votes_mod. apply N.mod_small. unfold small_stake in Hs. lia. Qed.

Lemma quorum_threshold_small c : small_stake c → quorum_threshold c = 2 * total_stake c / 3 + 1.
Proof.
  intros Hs. unfold quorum_threshold. rewrite total_votes_small by done.
  rewrite u32_mul_small by done. apply u32_add_small.
  unfold small_stake, two32 in *. div_lia.
Qed.

Lemma validity_threshold_small c : small_stake c → validity_threshold c = (total_stake c + 2) / 3.
Proof.
  intros Hs. unfold validity_threshold. rewrite total_votes_small by done.
  rewrite u32_add_small; [done|]. unfold small_stake, two32 in *. div_lia.
Qed.

Lemma stake_of_members c S : stake_of c S = stake_of c (S ∩ members c).
Proof.
  unfold stake_of. rewrite (sum_set_split _ S (members c)) at 1.
  cut (sum_set (stake c) (S ∖ members c) = 0); [lia|].
  unfold sum_set. transitivity (sum_N (λ _ : PublicKey, 0) (elements (S ∖ members c))).
  - apply sum_N_ext. intros k Hk. rewrite elem_of_elements in Hk.
    destruct (N.eq_0_gt_0_cases (stake c k)) as [|?%stake_pos_in]; [done|]. set_solver.
  - induction (elements _); simpl; lia.
Qed.

Lemma stake_of_total c S : stake_of c S ≤ total_stake c.
Proof. rewrite stake_of_members. apply sum_set_mono. set_solver. Qed.

Lemma stake_of_inter_lower c X Y : stake_of c X + stake_of c Y ≤ total_stake c + stake_of c (X ∩ Y).
Proof.
  pose proof (sum_set_union_inter (stake c) X Y). pose proof (stake_of_total c (X ∪ Y)).
  unfold stake_of in *. lia.
Qed.

Lemma stake_of_pos c X : 0 < stake_of c X → ∃ k, k ∈ X ∧ 0 < stake c k.
Proof.
  unfold stake_of, sum_set. intros Hpos.
  assert (∃ k, k ∈ elements X ∧ 0 < stake c k) as (k & Hk & ?); [|exists k; set_solver].
  induction (elements X) as [|k l IH]; simpl in Hpos; [lia|].
  destruct (N.eq_0_gt_0_cases (stake c k)).
  - destruct IH as (k' & ? & ?); [lia|]. exists k'. split; [by right|done].
  - exists k. split; [left|done].
Qed.

(** A quorum and a validity set share an authority with stake: the arithmetic behind the commit rule. *)
Lemma quorum_validity_meet c X Y :
  small_stake c → quorum_threshold c ≤ stake_of c X → validity_threshold c ≤ stake_of c Y →
  ∃ k, k ∈ X ∧ k ∈ Y ∧ 0 < stake c k.
Proof.
  intros Hs. rewrite quorum_threshold_small, validity_threshold_small by done. intros HX HY.
  pose proof (stake_of_inter_lower c X Y).
  destruct (stake_of_pos c (X ∩ Y)) as (k & ? & ?); [div_lia|]. exists k. set_solver.
Qed.

(** ** A sample committee *)

Module Sample.

Definition address (p : N) : SocketAddr := MkSocketAddr [x7f; x00; x00; x01] p.

Definition authority (stake p : N) : Authority :=
  MkAuthority stake (MkPrimaryAddresses (address p) (address (p + 1)))
    {[ 0 := MkWorkerAddresses (address (p + 2)) (address (p + 3)) (address (p + 4)) ]}.

(** Authorities numbered from 1 with the stakes given. *)
Definition committee_of (stakes : list N) : Committee :=
  MkCommittee (list_to_map (imap (λ i s, (Toy.pk (N.of_nat i + 1), authority s (1000 + 10 * N.of_nat i))) stakes)).

Definition committee : Committee := committee_of [1; 1; 1; 1].

End Sample.

(** ** Properties *)

(** C40: The thresholds of a committee of total stake N = 3f + 1 + k (k < 3) are the ones the comments
    of the code derive: a quorum is 2f + 1 + k = N - f and a validity set is f + 1. *)
Theorem thresholds_of_faults c f k :
  small_stake c → k < 3 → total_stake c = 3 * f + 1 + k →
  quorum_threshold c = 2 * f + 1 + k ∧
  quorum_threshold c = total_stake c - f ∧
  validity_threshold c = f + 1.
Proof.
  intros Hs Hk Ht. rewrite quorum_threshold_small, validity_threshold_small, Ht by done.
  split_and!; div_lia.
Qed.

Lemma thresholds_of_faults_witness :
  quorum_threshold Sample.committee = 2 * 1 + 1 + 0 ∧
  quorum_threshold Sample.committee = total_stake Sample.committee - 1 ∧
  validity_threshold Sample.committee = 1 + 1.
Proof. apply (thresholds_of_faults Sample.committee 1 0); vm_compute; reflexivity. Defined.

(** Two quorums share authorities whose stake reaches the validity threshold: when N = 3f + 1 + k
    the faulty authorities, of stake at most f, cannot be all of the intersection. *)
Theorem quorum_intersection c X Y :
  small_stake c → quorum_threshold c ≤ stake_of c X → quorum_threshold c ≤ stake_of c Y →
  validity_threshold c ≤ stake_of c (X ∩ Y) ∧ ∃ k, k ∈ X ∧ k ∈ Y ∧ k ∈ members c.
Proof.
  intros Hs. rewrite quorum_threshold_small, validity_threshold_small by done. intros HX HY.
  pose proof (stake_of_inter_lower c X Y) as Hi. split; [div_lia|].
  destruct (stake_of_pos c (X ∩ Y)) as (k & Hk & ?%stake_pos_in); [div_lia|].
  exists k. unfold members. set_solver.
Qed.

Lemma quorum_intersection_witness :
  let X := list_to_set [Toy.pk 1; Toy.pk 2; Toy.pk 3] in
  let Y := list_to_set [Toy.pk 2; Toy.pk 3; Toy.pk 4] in
  validity_threshold Sample.committee ≤ stake_of Sample.committee (X ∩ Y) ∧
  ∃ k, k ∈ X ∧ k ∈ Y ∧ k ∈ members Sample.committee.
Proof.
  intros X Y. apply (quorum_intersection Sample.committee X Y);
    [vm_compute; reflexivity|vm_compute; discriminate..].
Defined.

(** The threshold computations wrap: the code multiplies the total stake by two in [u32], so a
    committee of total stake 2^31 gets a quorum threshold of one vote, and two disjoint quorums exist. *)
Theorem quorum_threshold_wraps :
  ∃ c : Committee, total_stake c = 2147483648 ∧ quorum_threshold c = 1 ∧
  ∃ X Y, X ## Y ∧ quorum_threshold c ≤ stake_of c X ∧ quorum_threshold c ≤ stake_of c Y.
Proof.
  exists (Sample.committee_of [1073741824; 1073741824]). split_and!; [vm_compute; reflexivity..|].
  exists {[ Toy.pk 1 ]}, {[ Toy.pk 2 ]}. split.
  - apply disjoint_singleton_l, not_elem_of_singleton. vm_compute. discriminate.
  - split; vm_compute; discriminate.
Qed.

(** [Committee::worker] finds exactly the registered workers, and reports every unknown worker id
    of a known authority as [NotInCommittee]: the error [UnknownWorker] is never returned. *)
Theorem worker_results c to id :
  (∀ w, worker c to id = Ret w ↔ ∃ a, authorities c !! to = Some a ∧ auth_workers a !! id = Some w) ∧
  (∀ e, worker c to id = Throw e → e = NotInCommittee to) ∧
  (is_ret (worker c to id) = false → worker c to id = Throw (NotInCommittee to)).
Proof.
  rewrite worker_lookup. destruct (authorities c !! to) as [a|]; simpl; [|naive_solver].
  destruct (auth_workers a !! id) eqn:E; simpl; naive_solver.
Qed.

(** The peers a node addresses: [others_workers] lists, once each, the authorities other than
    [myself] that run the worker [id], with the address of that worker. *)
Theorem others_workers_spec c myself id :
  NoDup (others_workers c myself id).*1 ∧
  ∀ k w, (k, w) ∈ others_workers c myself id ↔ k ≠ myself ∧ worker c k id = Ret w.
Proof.
  split.
  - unfold others_workers, others.
    pose proof (NoDup_btree_keys (authorities c)) as Hnd. rewrite <-btree_iter_keys in Hnd.
    induction (btree_iter (authorities c)) as [|[k a] l IH]; csimpl; [constructor|].
    apply NoDup_cons in Hnd as [Hk Hnd]. rewrite filter_cons. case_decide; simpl; [|auto].
    destruct (find_key id _) as [w|]; simpl; [|auto]. apply NoDup_cons. split; [|auto].
    intros ([? w'] & E & Hin)%list_elem_of_fmap. simpl in E; subst.
    apply list_elem_of_omap in Hin as ([k' a'] & Hin & E). apply Hk.
    apply list_elem_of_filter in Hin as [_ Hin]. simpl in E.
    destruct (find_key id _); simplify_eq/=. apply list_elem_of_fmap. by eexists (_, a').
  - intros k w. unfold others_workers. rewrite list_elem_of_omap, worker_lookup. split.
    + intros ([k' a] & [? Ha]%elem_of_others & E). simpl in E. rewrite find_key_map_to_list in E.
      apply fmap_Some in E as (w' & Hw & [= -> ->]). by rewrite Ha, Hw.
    + intros [? E]. destruct (authorities c !! k) as [a|] eqn:Ha; [|done].
      destruct (auth_workers a !! id) as [w'|] eqn:Hw; simplify_eq/=.
      exists (k, a). rewrite elem_of_others. simpl. rewrite find_key_map_to_list, Hw. auto.
Qed.
