(* ===== verification/Messages.v ===== *)
(** Headers, votes and certificates ([src/primary/src/messages.rs]) and the errors of the primary
    ([src/primary/src/error.rs]).

    What is hashed is a list of bytes ([header_preimage] and the like), so that statements about what a
    digest binds are statements about byte strings. *)

From S2P Require Import Prelude Crypto Config.

(** ** Errors *)

(** The error types of [rocksdb] and [bincode]. *)
Class Backend := { StoreError : Type; BincodeError : Type }.

Inductive DagError `{Dalek, Backend} :=
| InvalidSignature (e : CryptoError)
| StoreFailure (e : StoreError)
| SerializationError (e : BincodeError)
| InvalidHeaderId
| MalformedHeader (id : Digest)
| UnknownAuthority (name : PublicKey)
| AuthorityReuse (name : PublicKey)
| UnexpectedVote (id : Digest)
| CertificateRequiresQuorum
| HeaderRequiresQuorum (id : Digest)
| TooOld (id : Digest) (round : N).

Notation DagResult A := (outcome DagError A).

(** [bincode::serialize] and [bincode::deserialize] at a type, and what [bincode] documents of them. *)
Class Bincode `{Backend} (A : Type) := {
  serialize : A → list byte;
  deserialize : list byte → outcome BincodeError A
}.

Class BincodeLaws `{Backend} (A : Type) `{!Bincode A} : Prop :=
  bincode_roundtrip (a : A) : deserialize (serialize a) = Ret a.

(** ** Data *)

(** The round number ([u64]). *)
Notation Round := N (only parsing).

Record Header := MkHeader {
  hd_author : PublicKey;
  hd_round : Round;
  hd_payload : gmap Digest WorkerId;
  hd_parents : gset Digest;
  hd_id : Digest;
  hd_signature : Signature
}.

Definition Header_default : Header :=
  MkHeader PublicKey_default 0 ∅ ∅ Digest_default Signature_default.

Record Vote := MkVote {
  vt_id : Digest;
  vt_round : Round;
  vt_origin : PublicKey;
  vt_author : PublicKey;
  vt_signature : Signature
}.

Record Certificate := MkCertificate {
  ct_header : Header;
  ct_votes : list (PublicKey * Signature)
}.

Definition Certificate_default : Certificate := MkCertificate Header_default [].

Definition cround (c : Certificate) : Round := hd_round (ct_header c).
Definition origin (c : Certificate) : PublicKey := hd_author (ct_header c).

#[export] Instance Header_eq_dec : EqDecision Header.
Proof. solve_decision. Defined.
#[export] Instance Vote_eq_dec : EqDecision Vote.
Proof. solve_decision. Defined.
#[export] Instance Certificate_eq_dec : EqDecision Certificate.
Proof. solve_decision. Defined.

(** ** Digests *)

Definition header_preimage (h : Header) : list byte :=
  PublicKey_as_ref (hd_author h) ++ le_bytes 8 (hd_round h) ++
  concat ((λ '(x, y), Digest_to_vec x ++ le_bytes 4 y) <$> btree_iter (hd_payload h)) ++
  concat (Digest_to_vec <$> btree_elems (hd_parents h)).

Definition vote_preimage (v : Vote) : list byte :=
  Digest_to_vec (vt_id v) ++ le_bytes 8 (vt_round v) ++ PublicKey_as_ref (vt_origin v).

Definition certificate_preimage (c : Certificate) : list byte :=
  Digest_to_vec (hd_id (ct_header c)) ++ le_bytes 8 (cround c) ++ PublicKey_as_ref (origin c).

#[export] Instance Header_hash `{Sha512} : Hash Header := λ h, hash_bytes (header_preimage h).
#[export] Instance Vote_hash `{Sha512} : Hash Vote := λ v, hash_bytes (vote_preimage v).
#[export] Instance Certificate_hash `{Sha512} : Hash Certificate := λ c, hash_bytes (certificate_preimage c).

(** [PartialEq for Certificate]: votes, payload, parents and signature are not compared. *)
Definition certificate_eqb (a b : Certificate) : bool :=
  bool_decide (hd_id (ct_header a) = hd_id (ct_header b)) && (cround a =? cround b) &&
  bool_decide (origin a = origin b).

(** [Certificate::genesis]. *)
Definition genesis (committee : Committee) : list Certificate :=
  (λ name, MkCertificate (MkHeader name 0 ∅ ∅ Digest_default Signature_default) []) <$>
    btree_keys (authorities committee).

Section messages.
Context `{!Sha512, !Dalek, !Backend}.

(** ** Headers *)

Definition Header_new (author : PublicKey) (round : Round) (payload : gmap Digest WorkerId)
    (parents : gset Digest) (signature_service : SecretKey) : outcome CryptoError Header :=
  let header := MkHeader author round payload parents Digest_default Signature_default in
  let id := digest header in
  signature ← request_signature signature_service id;
  Ret (MkHeader author round payload parents id signature).

(** [for worker_id in self.payload.values()]. *)
Fixpoint check_workers (committee : Committee) (h : Header) (ids : list WorkerId) : DagResult unit :=
  match ids with
  | [] => Ret ()
  | worker_id :: ids =>
      map_err (λ _, MalformedHeader (hd_id h)) (worker committee (hd_author h) worker_id);;
      check_workers committee h ids
  end.

Definition Header_verify (h : Header) (committee : Committee) : DagResult unit :=
  ensure (bool_decide (digest h = hd_id h)) InvalidHeaderId;;
  ensure (0 <? stake committee (hd_author h)) (UnknownAuthority (hd_author h));;
  check_workers committee h (btree_values (hd_payload h));;
  map_err InvalidSignature (Signature_verify (hd_signature h) (hd_id h) (hd_author h)).

(** ** Votes *)

Definition Vote_new (header : Header) (author : PublicKey) (signature_service : SecretKey) :
    outcome CryptoError Vote :=
  let vote := MkVote (hd_id header) (hd_round header) (hd_author header) author Signature_default in
  signature ← request_signature signature_service (digest vote);
  Ret (MkVote (hd_id header) (hd_round header) (hd_author header) author signature).

Definition Vote_verify (v : Vote) (committee : Committee) : DagResult unit :=
  ensure (0 <? stake committee (vt_author v)) (UnknownAuthority (vt_author v));;
  map_err InvalidSignature (Signature_verify (vt_signature v) (digest v) (vt_author v)).

(** ** Certificates *)

(** The loop of [Certificate::verify] over the votes. *)
Fixpoint count_votes (committee : Committee) (votes : list (PublicKey * Signature))
    (used : gset PublicKey) (weight : Stake) : DagResult Stake :=
  match votes with
  | [] => Ret weight
  | (name, _) :: votes =>
      ensure (bool_decide (name ∉ used)) (AuthorityReuse name);;
      let voting_rights := stake committee name in
      ensure (0 <? voting_rights) (UnknownAuthority name);;
      count_votes committee votes ({[ name ]} ∪ used) (u32_add weight voting_rights)
  end.

Definition Certificate_verify (c : Certificate) (committee : Committee) : DagResult unit :=
  if existsb (λ g, certificate_eqb g c) (genesis committee) then Ret ()
  else
    Header_verify (ct_header c) committee;;
    weight ← count_votes committee (ct_votes c) ∅ 0;
    ensure (quorum_threshold committee <=? weight) CertificateRequiresQuorum;;
    map_err InvalidSignature (Signature_verify_batch (digest c) (ct_votes c)).

End messages.

(** ** What digests bind *)

(** The side conditions of splitting an equation between concatenations of fixed-size fields. *)
Ltac solve_len := by rewrite ?length_le_bytes, ?length_Digest_to_vec, ?length_PublicKey_as_ref.

Lemma concat_chunks_inj {A} (n : nat) (l k : list (list A)) :
  (0 < n)%nat → Forall (λ x, length x = n) l → Forall (λ x, length x = n) k →
  concat l = concat k → l = k.
Proof.
  intros Hn Hl. revert k. induction Hl as [|x l Hx _ IH]; intros [|y k] Hk; simpl; try done.
  - intros E%(f_equal length). apply Forall_cons in Hk as [Hy _].
    rewrite length_app, Hy in E. simpl in E. lia.
  - intros E%(f_equal length). rewrite length_app, Hx in E. simpl in E. lia.
  - apply Forall_cons in Hk as [Hy Hk]. intros [-> E]%app_inj_1; [|congruence]. f_equal. auto.
Qed.

Lemma btree_elems_inj `{OrdKey A} (s t : gset A) : btree_elems s = btree_elems t → s = t.
Proof. intros E. apply set_eq. intros x. by rewrite <-!elem_of_btree_elems, E. Qed.

Lemma btree_iter_inj `{OrdKey A} {V} (m n : gmap A V) : btree_iter m = btree_iter n → m = n.
Proof. intros E. apply map_eq. intros k. apply option_eq. intros v. by rewrite <-!elem_of_btree_iter, E. Qed.

Lemma length_concat_chunks {A} (n : nat) (l : list (list A)) :
  Forall (λ x, length x = n) l → length (concat l) = (n * length l)%nat.
Proof. induction 1 as [|x l Hx _ IH]; simpl; [lia|]. rewrite length_app, Hx, IH. lia. Qed.

Definition payload_chunks (p : gmap Digest WorkerId) : list (list byte) :=
  (λ '(x, y), Digest_to_vec x ++ le_bytes 4 y) <$> btree_iter p.
Definition parent_chunks (s : gset Digest) : list (list byte) := Digest_to_vec <$> btree_elems s.

Lemma payload_chunks_len p : Forall (λ x, length x = 36%nat) (payload_chunks p).
Proof.
  apply Forall_fmap, Forall_true. intros [x y]; simpl.
  by rewrite length_app, length_Digest_to_vec, length_le_bytes.
Qed.

Lemma parent_chunks_len s : Forall (λ x, length x = 32%nat) (parent_chunks s).
Proof. apply Forall_fmap, Forall_true. intros x. apply length_Digest_to_vec. Qed.

Lemma length_btree_iter `{OrdKey A} {V} (m : gmap A V) : length (btree_iter m) = size m.
Proof. by rewrite <-length_btree_keys, <-btree_iter_keys, length_fmap. Qed.

Lemma payload_chunks_inj p q :
  map_Forall (λ _ y, y < two32) p → map_Forall (λ _ y, y < two32) q →
  payload_chunks p = payload_chunks q → p = q.
Proof.
  intros Hp Hq E. apply btree_iter_inj. unfold payload_chunks in E.
  assert (Hp' : Forall (λ x, x.2 < two32) (btree_iter p)).
  { apply Forall_forall. intros [k y] Hk%elem_of_btree_iter. by apply (Hp k). }
  assert (Hq' : Forall (λ x, x.2 < two32) (btree_iter q)).
  { apply Forall_forall. intros [k y] Hk%elem_of_btree_iter. by apply (Hq k). }
  clear Hp Hq. revert E Hq'. generalize (btree_iter q) as lq.
  induction Hp' as [|[x y] lp Hy _ IH]; intros [|[x' y'] lq]; csimpl; try done.
  intros [= [Ex Ey]%app_inj_1 E] [Hy' Hq]%Forall_cons; try solve_len.
  apply Digest_to_vec_inj in Ex as ->. apply le_bytes_inj in Ey as ->; [|done..]. f_equal. auto.
Qed.

Lemma le_bytes_round_inj r r' : r < two64 → r' < two64 → le_bytes 8 r = le_bytes 8 r' → r = r'.
Proof. intros ??. by apply le_bytes_inj. Qed.

Lemma certificate_preimage_inj c d :
  cround c < two64 → cround d < two64 → certificate_preimage c = certificate_preimage d →
  certificate_eqb c d = true.
Proof.
  intros Hc Hd. unfold certificate_preimage, certificate_eqb.
  intros [Ei [Er Eo]%app_inj_1]%app_inj_1; try solve_len.
  apply Digest_to_vec_inj in Ei as ->. apply le_bytes_round_inj in Er as ->; [|done..].
  apply PublicKey_as_ref_inj in Eo as ->. by rewrite !bool_decide_eq_true_2, N.eqb_refl.
Qed.

Lemma certificate_eqb_spec c d :
  certificate_eqb c d = true ↔
    hd_id (ct_header c) = hd_id (ct_header d) ∧ cround c = cround d ∧ origin c = origin d.
Proof.
  unfold certificate_eqb. rewrite !andb_true_iff, !bool_decide_eq_true, N.eqb_eq. naive_solver.
Qed.

(** Equal certificates ([PartialEq]) have the same preimage, hence the same digest. *)
Lemma certificate_eqb_digest `{Sha512} c d : certificate_eqb c d = true → digest c = digest d.
Proof.
  intros (Ei & Er & Eo)%certificate_eqb_spec. unfold digest, Certificate_hash, certificate_preimage.
  by rewrite Ei, Er, Eo.
Qed.

(** A vote on a header signs the digest of the certificate of that header. *)
Lemma vote_digest_certificate `{Sha512} v h vs :
  vt_id v = hd_id h → vt_round v = hd_round h → vt_origin v = hd_author h →
  digest v = digest (MkCertificate h vs).
Proof.
  intros Ei Er Eo. unfold digest, Vote_hash, Certificate_hash, vote_preimage, certificate_preimage,
    cround, origin; simpl. by rewrite Ei, Er, Eo.
Qed.

(** C36: What a header id binds: two headers with the same number of batches in their payload and the
    same hashed bytes have the same author, round, payload and parents. *)
Theorem header_preimage_binding h h' :
  hd_round h < two64 → hd_round h' < two64 →
  map_Forall (λ _ w, w < two32) (hd_payload h) → map_Forall (λ _ w, w < two32) (hd_payload h') →
  size (hd_payload h) = size (hd_payload h') →
  header_preimage h = header_preimage h' →
  hd_author h = hd_author h' ∧ hd_round h = hd_round h' ∧
  hd_payload h = hd_payload h' ∧ hd_parents h = hd_parents h'.
Proof.
  intros Hr Hr' Hp Hp' Hs. unfold header_preimage.
  intros [Ea [Er E]%app_inj_1]%app_inj_1; try solve_len.
  apply app_inj_1 in E as [Ep Eq].
  2: { pose proof (payload_chunks_len (hd_payload h)). pose proof (payload_chunks_len (hd_payload h')).
       unfold payload_chunks in *. rewrite !(length_concat_chunks 36) by done.
       by rewrite !length_fmap, !length_btree_iter, Hs. }
  split_and!.
  - by apply PublicKey_as_ref_inj.
  - by apply le_bytes_round_inj.
  - apply payload_chunks_inj; [done..|]. apply (concat_chunks_inj 36); [lia|apply payload_chunks_len..|done].
  - apply btree_elems_inj. apply (list_fmap_eq_inj Digest_to_vec); [intros ??; apply Digest_to_vec_inj|].
    apply (concat_chunks_inj 32); [lia|apply parent_chunks_len..|done].
Qed.

(** A header of the sample committee. *)
Definition sample_header : Header :=
  MkHeader (Toy.pk 1) 1 {[ Toy.dg 5 := 0 ]} {[ Toy.dg 6; Toy.dg 7 ]} Digest_default Signature_default.

Lemma header_preimage_binding_witness :
  hd_author sample_header = hd_author sample_header ∧ hd_round sample_header = hd_round sample_header ∧
  hd_payload sample_header = hd_payload sample_header ∧ hd_parents sample_header = hd_parents sample_header.
Proof.
  apply (header_preimage_binding sample_header sample_header); try reflexivity;
    apply map_Forall_singleton; reflexivity.
Defined.

(** The headers of the next theorem: [ambiguous_bytes] read as nine parents, and as eight batches. *)
Definition ambiguous_bytes : list byte := (λ k, byte_of_N (N.of_nat k / 4)) <$> seq 0 288.
Definition chunk (n i : nat) : list byte := take n (drop (n * i) ambiguous_bytes).
Definition digest_of_list (l : list byte) : Digest := default Digest_default (Digest_try_from l).

Fixpoint le_value (l : list byte) : N :=
  match l with [] => 0 | b :: l => Strings.Byte.to_N b + 256 * le_value l end.

Definition nine_parents : gset Digest := list_to_set ((λ i, digest_of_list (chunk 32 i)) <$> seq 0 9).
Definition eight_batches : gmap Digest WorkerId :=
  list_to_map ((λ i, (digest_of_list (take 32 (chunk 36 i)), le_value (drop 32 (chunk 36 i)))) <$> seq 0 8).

(** The header id does not bind the split between payload and parents: the entries are hashed
    without their counts, so a header with nine parents and no batch has, for every hash function, the
    id of a header with eight batches and no parent. *)
Theorem header_digest_ambiguous :
  ∃ h h', hd_author h = hd_author h' ∧ hd_round h = hd_round h' ∧
    size (hd_parents h) = 9%nat ∧ hd_payload h = ∅ ∧
    hd_parents h' = ∅ ∧ size (hd_payload h') = 8%nat ∧
    ∀ S : Sha512, @digest _ (@Header_hash S) h = @digest _ (@Header_hash S) h'.
Proof.
  set (mk p q := MkHeader (Toy.pk 1) 1 p q Digest_default Signature_default).
  exists (mk ∅ nine_parents), (mk eight_batches ∅).
  split_and!; [reflexivity..|vm_compute; reflexivity|reflexivity|reflexivity|vm_compute; reflexivity|].
  intros S. unfold digest, Header_hash. f_equal.
Qed.

(** ** What verification accepts *)

Section verify.
Context `{!Sha512, !Dalek, !Backend}.
Implicit Types (committee : Committee) (h : Header) (c : Certificate).

Lemma check_workers_ret committee h ids :
  check_workers committee h ids = Ret () ↔ Forall (λ i, is_ret (worker committee (hd_author h) i) = true) ids.
Proof.
  induction ids as [|i ids IH]; simpl; [split; [constructor|done]|].
  rewrite Forall_cons, <-IH. destruct (worker _ _ _); simpl; naive_solver.
Qed.

Lemma Header_verify_ret committee h :
  Header_verify h committee = Ret () ↔
    digest h = hd_id h ∧ 0 < stake committee (hd_author h) ∧
    (∀ d i, hd_payload h !! d = Some i → is_ret (worker committee (hd_author h) i) = true) ∧
    Signature_verify (hd_signature h) (hd_id h) (hd_author h) = Ret ().
Proof.
  unfold Header_verify.
  rewrite !ensure_bind_ret, unit_bind_ret, map_err_ret, bool_decide_eq_true, N.ltb_lt.
  assert (Hw : (∀ d i, hd_payload h !! d = Some i → is_ret (worker committee (hd_author h) i) = true) ↔
               check_workers committee h (btree_values (hd_payload h)) = Ret ()).
  { rewrite check_workers_ret, Forall_forall. setoid_rewrite elem_of_btree_values. naive_solver. }
  by rewrite Hw.
Qed.

(** The voters of a list of votes. *)
Definition voters (votes : list (PublicKey * Signature)) : list PublicKey := votes.*1.

(** [count_votes] accepts exactly the distinct authorities with stake, and adds their stakes up. *)
Lemma count_votes_ret committee votes used w w' :
  count_votes committee votes used w = Ret w' ↔
    NoDup (voters votes) ∧ (∀ k, k ∈ voters votes → k ∉ used ∧ 0 < stake committee k) ∧
    w' = foldl u32_add w (stake committee <$> voters votes).
Proof.
  revert used w. induction votes as [|[name s] votes IH]; intros used w; csimpl.
  { split; [intros [= ->]|intros (_ & _ & ->)]; [|done]. split_and!; [constructor|set_solver|done]. }
  rewrite !ensure_bind_ret, IH, bool_decide_eq_true, N.ltb_lt, NoDup_cons. unfold voters; csimpl.
  setoid_rewrite elem_of_cons. split.
  - intros (? & ? & ? & Hk & ->). split_and!; [|done| |done].
    + intros Hin%Hk. set_solver.
    + intros k [->|Hin]; [done|]. apply Hk in Hin. set_solver.
  - intros ([Hn ?] & Hk & ->). split_and!; [apply Hk; auto..|done| |done]. intros k Hin.
    destruct (Hk k) as [??]; [auto|]. split; [|done]. set_solver.
Qed.

Lemma voters_stake committee votes :
  NoDup (voters votes) →
  sum_N id (stake committee <$> voters votes) = stake_of committee (list_to_set (voters votes)).
Proof. intros. unfold stake_of. rewrite sum_set_list_to_set by done. apply sum_N_fmap. Qed.

Lemma voters_stake_u32 committee votes :
  small_stake committee → NoDup (voters votes) →
  foldl u32_add 0 (stake committee <$> voters votes) = stake_of committee (list_to_set (voters votes)).
Proof.
  intros Hs Hnd. rewrite <-voters_stake by done. apply u32_sum_small. rewrite voters_stake by done.
  pose proof (stake_of_total committee (list_to_set (voters votes))). unfold small_stake in Hs. lia.
Qed.

Lemma elem_of_genesis committee g :
  g ∈ genesis committee ↔
    ∃ k, k ∈ members committee ∧
      g = MkCertificate (MkHeader k 0 ∅ ∅ Digest_default Signature_default) [].
Proof.
  unfold genesis, members. rewrite list_elem_of_fmap. setoid_rewrite elem_of_btree_keys.
  setoid_rewrite elem_of_dom. naive_solver.
Qed.

(** Being accepted as a genesis certificate looks at the id, the round and the author only. *)
Definition genesis_like committee c : Prop :=
  hd_id (ct_header c) = Digest_default ∧ cround c = 0 ∧ origin c ∈ members committee.

Lemma genesis_contains committee c :
  existsb (λ g, certificate_eqb g c) (genesis committee) = true ↔ genesis_like committee c.
Proof.
  rewrite existsb_In. setoid_rewrite elem_of_genesis. setoid_rewrite certificate_eqb_spec.
  unfold genesis_like, cround, origin. split.
  - intros (g & (k & ? & ->) & ? & ? & ?); simpl in *. subst. eauto.
  - intros (? & ? & ?). eexists. split; [eexists; split; [done|reflexivity]|]. simpl. auto.
Qed.

Lemma Certificate_verify_ret committee c :
  small_stake committee →
  Certificate_verify c committee = Ret () ↔
    genesis_like committee c ∨
    (Header_verify (ct_header c) committee = Ret () ∧
     NoDup (voters (ct_votes c)) ∧ (∀ k, k ∈ voters (ct_votes c) → 0 < stake committee k) ∧
     quorum_threshold committee ≤ stake_of committee (list_to_set (voters (ct_votes c))) ∧
     Signature_verify_batch (digest c) (ct_votes c) = Ret ()).
Proof.
  intros Hs. unfold Certificate_verify. rewrite <-genesis_contains.
  destruct (existsb _ _); [split; [by left|done]|].
  rewrite unit_bind_ret, outcome_bind_ret. split.
  - intros (? & w & (? & Hk & ->)%count_votes_ret & Hb). right.
    apply ensure_bind_ret in Hb as [Hq%N.leb_le Hb%map_err_ret].
    rewrite voters_stake_u32 in Hq by done. split_and!; [done|done|naive_solver|done|done].
  - intros [[=]|(? & ? & Hk & Hq & ?)]. split; [done|]. eexists. split.
    + apply count_votes_ret. split_and!; [done|set_solver|reflexivity].
    + rewrite ensure_bind_ret, map_err_ret, N.leb_le. by rewrite voters_stake_u32.
Qed.
End verify.

(** ** A sample backend and sample messages *)

Module ToyBackend.
#[export] Instance toy_backend : Backend := {| StoreError := unit; BincodeError := unit |}.
End ToyBackend.

(** A [bincode] for evaluation: a tag for the type and the bits of the encoding of the value. *)
Module ToyBincode.
Import ToyBackend.

Fixpoint bits (p : positive) : list byte :=
  match p with xH => [] | xO p => x00 :: bits p | xI p => x01 :: bits p end.

Fixpoint of_bits (l : list byte) : positive :=
  match l with [] => xH | x00 :: l => xO (of_bits l) | _ :: l => xI (of_bits l) end.

Lemma of_bits_bits p : of_bits (bits p) = p.
Proof. induction p; simpl; congruence. Qed.

Definition toy_bincode (A : Type) `{Countable A} (tag : byte) : Bincode A := {|
  serialize a := tag :: bits (encode a);
  deserialize l :=
    match l with
    | b :: l => if decide (b = tag) then ok_or (decode (of_bits l)) () else Throw ()
    | [] => Throw ()
    end
|}.

Lemma toy_bincode_laws A `{Countable A} tag : @BincodeLaws toy_backend A (toy_bincode A tag).
Proof. intros a. simpl. by rewrite decide_True, of_bits_bits, decode_encode. Qed.

#[export] Program Instance Signature_countable : Countable Signature :=
  inj_countable' (λ s, (part1 s, part2 s)) (λ p, MkSignature p.1 p.2) _.
Next Obligation. by intros []. Qed.
#[export] Program Instance Header_countable : Countable Header :=
  inj_countable' (λ h, (hd_author h, hd_round h, hd_payload h, hd_parents h, hd_id h, hd_signature h))
    (λ '(a, r, p, q, i, s), MkHeader a r p q i s) _.
Next Obligation. by intros []. Qed.
#[export] Program Instance Certificate_countable : Countable Certificate :=
  inj_countable' (λ c, (ct_header c, ct_votes c)) (λ p, MkCertificate p.1 p.2) _.
Next Obligation. by intros []. Qed.

#[export] Instance header_bincode : Bincode Header := toy_bincode Header x01.
#[export] Instance certificate_bincode : Bincode Certificate := toy_bincode Certificate x02.
End ToyBincode.

Module SampleMessages.
Import Toy.

(** The value of a computation that is known to return. *)
Definition value {E A} (d : A) (m : outcome E A) : A := match m with Ret a => a | _ => d end.

Definition header (n round : N) (payload : gmap Digest WorkerId) (parents : gset Digest) : Header :=
  value Header_default (Header_new (pk n) round payload parents (sk n)).

Definition vote (h : Header) (n : N) : Vote :=
  value (MkVote Digest_default 0 PublicKey_default PublicKey_default Signature_default)
    (Vote_new h (pk n) (sk n)).

Definition certificate (h : Header) (ns : list N) : Certificate :=
  MkCertificate h ((λ n, (pk n, vt_signature (vote h n))) <$> ns).

Definition genesis_digests : gset Digest := list_to_set (digest <$> genesis Sample.committee).

Definition h1 : Header := header 1 1 {[ dg 5 := 0 ]} genesis_digests.
Definition c1 : Certificate := certificate h1 [1; 2; 3].
End SampleMessages.

(** ** Properties *)

(** C33: [Certificate::verify] accepts a certificate exactly when it looks like a genesis certificate or
    when its header verifies, its voters are distinct authorities with stake, their stake reaches the
    quorum threshold, and the batch of their signatures over the certificate's digest verifies. *)
Theorem certificate_verify_spec `{!Sha512, !Dalek, !Backend} (committee : Committee) (c : Certificate) :
  small_stake committee →
  Certificate_verify c committee = Ret () ↔
    genesis_like committee c ∨
    (Header_verify (ct_header c) committee = Ret () ∧
     NoDup (voters (ct_votes c)) ∧ (∀ k, k ∈ voters (ct_votes c) → 0 < stake committee k) ∧
     quorum_threshold committee ≤ stake_of committee (list_to_set (voters (ct_votes c))) ∧
     Signature_verify_batch (digest c) (ct_votes c) = Ret ()).
Proof. apply Certificate_verify_ret. Qed.

Section witness.
Import Toy ToyBackend SampleMessages.

Lemma certificate_verify_spec_witness :
  Certificate_verify c1 Sample.committee = Ret () ∧
  (Header_verify (ct_header c1) Sample.committee = Ret () ∧
   NoDup (voters (ct_votes c1)) ∧ (∀ k, k ∈ voters (ct_votes c1) → 0 < stake Sample.committee k) ∧
   quorum_threshold Sample.committee ≤ stake_of Sample.committee (list_to_set (voters (ct_votes c1))) ∧
   Signature_verify_batch (digest c1) (ct_votes c1) = Ret ()).
Proof.
  assert (Hs : small_stake Sample.committee) by (vm_compute; reflexivity).
  assert (Hv : Certificate_verify c1 Sample.committee = Ret ())
    by (apply is_ret_unit; vm_compute; reflexivity).
  split; [exact Hv|].
  destruct (proj1 (certificate_verify_spec Sample.committee c1 Hs) Hv) as [(_ & Hr & _)|H]; [|exact H].
  assert (Hne : (cround c1 =? 0) = false) by (vm_compute; reflexivity).
  apply N.eqb_neq in Hne. contradiction.
Defined.
End witness.

(** C34: "Genesis certificates are always valid" is decided by [PartialEq], which ignores everything but
    the id, the round and the author: any payload, any parents and no vote at all are accepted under the
    default id at round 0, for every authority of the committee. *)
Theorem forged_genesis_accepted `{!Sha512, !Dalek, !Backend} committee k payload parents sig votes :
  k ∈ members committee →
  let c := MkCertificate (MkHeader k 0 payload parents Digest_default sig) votes in
  Certificate_verify c committee = Ret () ∧
  ∃ g, g ∈ genesis committee ∧ digest c = digest g.
Proof.
  intros Hk c. assert (Hg : genesis_like committee c) by done. split.
  - unfold Certificate_verify. apply genesis_contains in Hg. by rewrite Hg.
  - eexists. split; [apply elem_of_genesis; eexists; split; [exact Hk|reflexivity]|].
    apply certificate_eqb_digest, certificate_eqb_spec. done.
Qed.

Lemma forged_genesis_accepted_witness :
  let c := MkCertificate (MkHeader (Toy.pk 1) 0 {[ Toy.dg 666 := 7 ]} ∅ Digest_default Signature_default) [] in
  @Certificate_verify Toy.toy_sha512 Toy.toy_dalek ToyBackend.toy_backend c Sample.committee = Ret () ∧
  ∃ g, g ∈ genesis Sample.committee ∧
    @digest _ (@Certificate_hash Toy.toy_sha512) c = @digest _ (@Certificate_hash Toy.toy_sha512) g.
Proof.
  apply (@forged_genesis_accepted Toy.toy_sha512 Toy.toy_dalek ToyBackend.toy_backend Sample.committee
    (Toy.pk 1) {[ Toy.dg 666 := 7 ]} ∅ Signature_default []).
  apply (bool_decide_unpack _). vm_compute. exact I.
Defined.

(** C35: A header built by [Header::new] with the key pair of its author passes [Header::verify] in every
    committee where the author has stake and runs the workers its payload names. *)
Theorem header_new_verifies `{!Sha512, D : !Dalek, !DalekLaws D, !Backend}
    (committee : Committee) keypair round payload parents :
  let author := (generate_keypair keypair).1 in
  0 < stake committee author →
  (∀ d i, payload !! d = Some i → is_ret (worker committee author i) = true) →
  ∃ h, Header_new author round payload parents (generate_keypair keypair).2 = Ret h ∧
    Header_verify h committee = Ret () ∧
    hd_author h = author ∧ hd_round h = round ∧ hd_payload h = payload ∧ hd_parents h = parents.
Proof.
  intros author Hst Hw. unfold Header_new, request_signature.
  set (h0 := MkHeader author round payload parents Digest_default Signature_default).
  destruct (Signature_new_verifies (digest h0) keypair) as (s & -> & Hv); simpl.
  eexists. split; [reflexivity|]. split; [|done]. apply Header_verify_ret. done.
Qed.

Lemma header_new_verifies_witness :
  let author := (@generate_keypair Toy.toy_dalek (Toy.kp 2)).1 in
  ∃ h, @Header_new Toy.toy_sha512 Toy.toy_dalek author 1 {[ Toy.dg 5 := 0 ]} ∅
         (@generate_keypair Toy.toy_dalek (Toy.kp 2)).2 = Ret h ∧
    @Header_verify Toy.toy_sha512 Toy.toy_dalek ToyBackend.toy_backend h Sample.committee = Ret () ∧
    hd_author h = author ∧ hd_round h = 1 ∧ hd_payload h = {[ Toy.dg 5 := 0 ]} ∧ hd_parents h = ∅.
Proof.
  apply (@header_new_verifies Toy.toy_sha512 Toy.toy_dalek Toy.toy_dalek_laws ToyBackend.toy_backend
    Sample.committee (Toy.kp 2) 1 {[ Toy.dg 5 := 0 ]} ∅).
  - vm_compute. reflexivity.
  - intros d i [_ <-]%lookup_singleton_Some. vm_compute. reflexivity.
Defined.
