(* ===== verification/Aggregators.v ===== *)
(** The aggregation of votes into certificates and of certificates into parents
    ([src/primary/src/aggregators.rs]).

    An aggregator is a record and [append] a function from the aggregator and an item to the new
    aggregator and the result; [&mut self] is updated on the error path too, as in the code. The runs of
    an aggregator are folds of [append] over the items it is given ([append_all]). *)

From S2P Require Import Prelude Crypto Config Messages.

(** ** Votes *)

Module VotesAggregator.
Record t := Mk {
  weight : Stake;
  votes : list (PublicKey * Signature);
  used : gset PublicKey
}.

Definition new : t := Mk 0 [] ∅.

Section append.
Context `{!Dalek, !Backend}.

(** [VotesAggregator::append]. *)
Definition append (a : t) (vote : Vote) (committee : Committee) (header : Header) :
    t * DagResult (option Certificate) :=
  let author := vt_author vote in
  if decide (author ∈ used a) then (a, Throw (AuthorityReuse author))
  else
    let votes := votes a ++ [(author, vt_signature vote)] in
    let used := {[ author ]} ∪ used a in
    let weight := u32_add (weight a) (stake committee author) in
    if quorum_threshold committee <=? weight
    then (Mk 0 votes used, Ret (Some (MkCertificate header votes)))
    else (Mk weight votes used, Ret None).

(** The results of appending votes one after the other. *)
Fixpoint append_all (a : t) (vs : list Vote) (committee : Committee) (header : Header) :
    t * list (DagResult (option Certificate)) :=
  match vs with
  | [] => (a, [])
  | v :: vs =>
      let '(a, r) := append a v committee header in
      let '(a, rs) := append_all a vs committee header in (a, r :: rs)
  end.

(** The certificates among the results. *)
Definition emitted (rs : list (DagResult (option Certificate))) : list Certificate :=
  omap (λ r, match r with Ret (Some c) => Some c | _ => None end) rs.
End append.
End VotesAggregator.

(** ** Certificates *)

Module CertificatesAggregator.
Record t := Mk {
  weight : Stake;
  certificates : list Digest;
  used : gset PublicKey
}.

Definition new : t := Mk 0 [] ∅.

Section append.
Context `{!Sha512, !Dalek, !Backend}.

(** [CertificatesAggregator::append]. *)
Definition append (a : t) (certificate : Certificate) (committee : Committee) :
    t * DagResult (option (list Digest)) :=
  let o := origin certificate in
  if decide (o ∈ used a) then (a, Ret None)
  else
    let used := {[ o ]} ∪ used a in
    let certificates := certificates a ++ [digest certificate] in
    let weight := u32_add (weight a) (stake committee o) in
    if quorum_threshold committee <=? weight
    then (Mk 0 [] used, Ret (Some certificates))
    else (Mk weight certificates used, Ret None).

Fixpoint append_all (a : t) (cs : list Certificate) (committee : Committee) :
    t * list (DagResult (option (list Digest))) :=
  match cs with
  | [] => (a, [])
  | c :: cs =>
      let '(a, r) := append a c committee in
      let '(a, rs) := append_all a cs committee in (a, r :: rs)
  end.

Definition emitted (rs : list (DagResult (option (list Digest)))) : list (list Digest) :=
  omap (λ r, match r with Ret (Some c) => Some c | _ => None end) rs.
End append.
End CertificatesAggregator.

(** ** Counting to a quorum

    Both aggregators keep a weight and the set of the authorities they counted. [counting] holds until
    the quorum is reached; [fired] from then on, when the weight only counts the authorities that came
    after the quorum, which are too few for a second one. *)

Section counter.
Variable committee : Committee.
Hypothesis Hs : small_stake committee.
Implicit Types (w : Stake) (U : gset PublicKey).

Definition counting w U : Prop := w = stake_of committee U ∧ w < quorum_threshold committee.

Definition fired w U : Prop :=
  ∃ Q, Q ⊆ U ∧ quorum_threshold committee ≤ stake_of committee Q ∧ w = stake_of committee (U ∖ Q).

Lemma counting_init : counting 0 ∅.
Proof.
  split; [symmetry; apply sum_set_empty|]. rewrite quorum_threshold_small by done. div_lia.
Qed.

Lemma stake_of_add name U :
  name ∉ U → stake_of committee ({[ name ]} ∪ U) = stake_of committee U + stake committee name.
Proof.
  intros. unfold stake_of. rewrite sum_set_disj_union by set_solver. rewrite sum_set_singleton. lia.
Qed.

Lemma u32_add_stake name U :
  name ∉ U → u32_add (stake_of committee U) (stake committee name) = stake_of committee ({[ name ]} ∪ U).
Proof.
  intros. rewrite stake_of_add by done. apply u32_add_small. rewrite <-stake_of_add by done.
  pose proof (stake_of_total committee ({[ name ]} ∪ U)). unfold small_stake in Hs. lia.
Qed.

Lemma counting_step w U name :
  counting w U → name ∉ U →
  let w' := u32_add w (stake committee name) in
  w' = stake_of committee ({[ name ]} ∪ U) ∧
  (if quorum_threshold committee <=? w' then fired 0 ({[ name ]} ∪ U) else counting w' ({[ name ]} ∪ U)).
Proof.
  intros [-> Hw] Hn. cbv zeta. rewrite u32_add_stake by done. split; [done|].
  destruct (N.leb_spec (quorum_threshold committee) (stake_of committee ({[ name ]} ∪ U))); [|by split].
  exists ({[ name ]} ∪ U). split_and!; [done..|]. rewrite difference_diag_L. symmetry. apply sum_set_empty.
Qed.

Lemma fired_lt w U : fired w U → w < quorum_threshold committee.
Proof.
  intros (Q & HQ & Hq & ->). rewrite quorum_threshold_small in * by done.
  pose proof (sum_set_disj_union (stake committee) Q (U ∖ Q)) as E.
  pose proof (stake_of_total committee (Q ∪ U ∖ Q)). unfold stake_of in *.
  rewrite E in * by set_solver. div_lia.
Qed.

Lemma fired_step w U name :
  fired w U → name ∉ U →
  let w' := u32_add w (stake committee name) in
  (quorum_threshold committee <=? w') = false ∧ fired w' ({[ name ]} ∪ U).
Proof.
  intros (Q & HQ & Hq & ->) Hn. cbv zeta. rewrite u32_add_stake by set_solver.
  replace ({[ name ]} ∪ U ∖ Q) with (({[ name ]} ∪ U) ∖ Q) by set_solver.
  assert (Hf : fired (stake_of committee (({[ name ]} ∪ U) ∖ Q)) ({[ name ]} ∪ U)).
  { exists Q. split_and!; [set_solver|done..]. }
  split; [|done]. apply N.leb_gt. by eapply fired_lt.
Qed.

End counter.

(** The authors of a list of votes and the origins of a list of certificates. *)
Definition vote_authors (vs : list Vote) : gset PublicKey := list_to_set (vt_author <$> vs).
Definition cert_origins (cs : list Certificate) : gset PublicKey := list_to_set (origin <$> cs).

Section votes.
Context `{!Dalek, !Backend}.
Variables (committee : Committee) (header : Header).
Hypothesis Hs : small_stake committee.
Import VotesAggregator.

Lemma votes_emitted_cons a v vs :
  let r := append a v committee header in
  emitted (append_all a (v :: vs) committee header).2 =
    match r.2 with Ret (Some c) => [c] | _ => [] end ++ emitted (append_all r.1 vs committee header).2.
Proof.
  simpl. destruct (append a v committee header) as [a' r]; simpl.
  destruct (append_all a' vs committee header) as [a'' rs]; simpl. by destruct r as [[]| |].
Qed.

Lemma votes_append_all_app a vs vs' :
  append_all a (vs ++ vs') committee header =
  let '(a, rs) := append_all a vs committee header in
  let '(a, rs') := append_all a vs' committee header in (a, rs ++ rs').
Proof.
  revert a. induction vs as [|v vs IH]; intros a; simpl; [by destruct (append_all _ _ _ _)|].
  destruct (append _ _ _ _) as [a1 r1]. rewrite IH.
  destruct (append_all a1 vs _ _) as [a2 rs2]. by destruct (append_all a2 _ _ _).
Qed.

Lemma votes_fired a vs :
  fired committee (weight a) (used a) → emitted (append_all a vs committee header).2 = [].
Proof.
  revert a. induction vs as [|v vs IH]; intros a Hf; [done|]. rewrite votes_emitted_cons. cbv zeta.
  unfold append. case_decide as Hin; [by apply IH|].
  destruct (fired_step committee Hs _ _ _ Hf Hin) as [-> Hf']. by apply IH.
Qed.

(** What the votes an aggregator holds have in common with the votes it was given. *)
Definition votes_ok (a : t) (given : list Vote) : Prop :=
  NoDup (voters (votes a)) ∧ list_to_set (voters (votes a)) = used a ∧
  ∀ k s, (k, s) ∈ votes a → ∃ v, v ∈ given ∧ vt_author v = k ∧ vt_signature v = s.

Lemma votes_ok_push a given v :
  votes_ok a given → v ∈ given → vt_author v ∉ used a →
  ∀ w, votes_ok (Mk w (votes a ++ [(vt_author v, vt_signature v)]) ({[ vt_author v ]} ∪ used a)) given.
Proof.
  intros (Hnd & Hu & Hin) Hv Hn w. unfold votes_ok, voters in *; simpl. rewrite fmap_app; simpl. split_and!.
  - apply NoDup_app. split_and!; [done| |apply NoDup_singleton]. intros x Hx.
    rewrite list_elem_of_singleton. intros ->. apply Hn. rewrite <-Hu. by apply elem_of_list_to_set.
  - rewrite list_to_set_app_L, Hu. simpl. set_solver.
  - intros k s [Hk|[= -> ->]%list_elem_of_singleton]%elem_of_app; [by apply Hin|]. by exists v.
Qed.

Lemma votes_counting a given vs :
  vs ⊆ given → counting committee (weight a) (used a) → votes_ok a given →
  let cs := emitted (append_all a vs committee header).2 in
  (cs = [] ∧ stake_of committee (used a ∪ vote_authors vs) < quorum_threshold committee) ∨
  (∃ b, cs = [MkCertificate header (votes b)] ∧ votes_ok b given ∧
     quorum_threshold committee ≤ stake_of committee (used b) ∧ used b ⊆ used a ∪ vote_authors vs).
Proof.
  intros Hsub. revert a. induction vs as [|v vs IH]; intros a Hc Hok; cbv zeta.
  { left. split; [done|]. destruct Hc as [-> ?]. unfold vote_authors; simpl.
    by rewrite (right_id_L ∅ (∪)). }
  assert (Hvs : vs ⊆ given) by set_solver. assert (Hv : v ∈ given) by set_solver.
  rewrite votes_emitted_cons. cbv zeta. unfold append.
  assert (Hcons : ∀ U, U ∪ vote_authors (v :: vs) = {[ vt_author v ]} ∪ U ∪ vote_authors vs)
    by (intros; unfold vote_authors; set_solver).
  rewrite Hcons. case_decide as Hin.
  { replace ({[ vt_author v ]} ∪ used a) with (used a) by set_solver. by apply IH. }
  destruct (counting_step committee Hs _ _ _ Hc Hin) as [Hw Hq].
  pose proof (votes_ok_push a given v Hok Hv Hin) as Hok'. case_match eqn:Hle.
  - right. exists (Mk 0 (votes a ++ [(vt_author v, vt_signature v)]) ({[ vt_author v ]} ∪ used a)); simpl.
    rewrite votes_fired by done. split_and!; [done|exact (Hok' 0)| |set_solver].
    rewrite <-Hw. by apply N.leb_le.
  - by apply (IH Hvs (Mk _ _ _)).
Qed.
End votes.

Section certificates.
Context `{!Sha512, !Dalek, !Backend}.
Variable committee : Committee.
Hypothesis Hs : small_stake committee.
Import CertificatesAggregator.

Lemma certs_emitted_cons a c cs :
  let r := append a c committee in
  emitted (append_all a (c :: cs) committee).2 =
    match r.2 with Ret (Some l) => [l] | _ => [] end ++ emitted (append_all r.1 cs committee).2.
Proof.
  simpl. destruct (append a c committee) as [a' r]; simpl.
  destruct (append_all a' cs committee) as [a'' rs]; simpl. by destruct r as [[]| |].
Qed.

Lemma certs_append_all_app a cs cs' :
  append_all a (cs ++ cs') committee =
  let '(a, rs) := append_all a cs committee in
  let '(a, rs') := append_all a cs' committee in (a, rs ++ rs').
Proof.
  revert a. induction cs as [|x cs IH]; intros a; simpl; [by destruct (append_all _ _ _)|].
  destruct (append _ _ _) as [a1 r1]. rewrite IH.
  destruct (append_all a1 cs _) as [a2 rs2]. by destruct (append_all a2 _ _).
Qed.

Lemma certs_fired a cs :
  fired committee (weight a) (used a) → emitted (append_all a cs committee).2 = [].
Proof.
  revert a. induction cs as [|c cs IH]; intros a Hf; [done|]. rewrite certs_emitted_cons. cbv zeta.
  unfold append. case_decide as Hin; [by apply IH|].
  destruct (fired_step committee Hs _ _ _ Hf Hin) as [-> Hf']. by apply IH.
Qed.

(** The digests an aggregator holds are those of certificates of distinct authorities it was given. *)
Definition certs_ok (digests : list Digest) (U : gset PublicKey) (given : list Certificate) : Prop :=
  ∃ l, digests = digest <$> l ∧ NoDup (origin <$> l) ∧ cert_origins l = U ∧ l ⊆ given.

Lemma certs_ok_push ds U given c :
  certs_ok ds U given → c ∈ given → origin c ∉ U →
  certs_ok (ds ++ [digest c]) ({[ origin c ]} ∪ U) given.
Proof.
  intros (l & -> & Hnd & Hu & Hl) Hc Hn. exists (l ++ [c]). unfold cert_origins in *.
  rewrite !fmap_app; simpl. split_and!; [done| | |set_solver].
  - apply NoDup_app. split_and!; [done| |apply NoDup_singleton]. intros x Hx.
    rewrite list_elem_of_singleton. intros ->. apply Hn. rewrite <-Hu. by apply elem_of_list_to_set.
  - rewrite list_to_set_app_L, Hu. simpl. set_solver.
Qed.

Lemma certs_counting a given cs :
  cs ⊆ given → counting committee (weight a) (used a) → certs_ok (certificates a) (used a) given →
  let ls := emitted (append_all a cs committee).2 in
  (ls = [] ∧ stake_of committee (used a ∪ cert_origins cs) < quorum_threshold committee) ∨
  (∃ ds U, ls = [ds] ∧ certs_ok ds U given ∧
     quorum_threshold committee ≤ stake_of committee U ∧ U ⊆ used a ∪ cert_origins cs).
Proof.
  intros Hsub. revert a. induction cs as [|c cs IH]; intros a Hc Hok; cbv zeta.
  { left. split; [done|]. destruct Hc as [-> ?]. unfold cert_origins; simpl.
    by rewrite (right_id_L ∅ (∪)). }
  assert (Hvs : cs ⊆ given) by set_solver. assert (Hv : c ∈ given) by set_solver.
  rewrite certs_emitted_cons. cbv zeta. unfold append.
  assert (Hcons : ∀ U, U ∪ cert_origins (c :: cs) = {[ origin c ]} ∪ U ∪ cert_origins cs)
    by (intros; unfold cert_origins; set_solver).
  rewrite Hcons. case_decide as Hin.
  { replace ({[ origin c ]} ∪ used a) with (used a) by set_solver. by apply IH. }
  destruct (counting_step committee Hs _ _ _ Hc Hin) as [Hw Hq].
  pose proof (certs_ok_push _ _ given c Hok Hv Hin) as Hok'. case_match eqn:Hle.
  - right. do 2 eexists. simpl. rewrite certs_fired by done. split_and!; [done|exact Hok'| |set_solver].
    rewrite <-Hw. by apply N.leb_le.
  - by apply (IH Hvs (Mk _ _ _)).
Qed.
End certificates.

(** ** Properties *)

(** A vote aggregator assembles its certificate exactly once: given any sequence of votes it emits
    at most one certificate, it emits one exactly when the distinct authors of the votes hold a quorum,
    and that certificate carries the header and votes of distinct given authors with a quorum of stake. *)
Theorem votes_quorum_once `{!Dalek, !Backend} committee header vs :
  small_stake committee →
  let cs := VotesAggregator.emitted (VotesAggregator.append_all VotesAggregator.new vs committee header).2 in
  (cs = [] ↔ stake_of committee (vote_authors vs) < quorum_threshold committee) ∧
  (cs = [] ∨ ∃ c, cs = [c] ∧ ct_header c = header ∧ NoDup (voters (ct_votes c)) ∧
     quorum_threshold committee ≤ stake_of committee (list_to_set (voters (ct_votes c))) ∧
     ∀ k s, (k, s) ∈ ct_votes c → ∃ v, v ∈ vs ∧ vt_author v = k ∧ vt_signature v = s).
Proof.
  intros Hs. cbv zeta.
  destruct (votes_counting committee header Hs VotesAggregator.new vs vs)
    as [[-> Hlt]|(b & -> & (Hnd & Hu & Hin) & Hq & Hsub)];
    [done|by apply counting_init|by split_and!; [constructor| |set_solver]| |];
    simpl in *; rewrite (left_id_L ∅ (∪)) in *.
  - split; [done|by left].
  - split; [split; [done|]|].
    + pose proof (sum_set_mono (stake committee) _ _ Hsub). unfold stake_of in *. lia.
    + right. eexists. split; [done|]. simpl. rewrite Hu. done.
Qed.

Section votes_witness.
Import Toy ToyBackend SampleMessages.

Lemma votes_quorum_once_witness :
  let vs := vote h1 <$> [1; 2; 2; 3; 4] in
  let cs := VotesAggregator.emitted
    (VotesAggregator.append_all VotesAggregator.new vs Sample.committee h1).2 in
  (cs = [] ↔ stake_of Sample.committee (vote_authors vs) < quorum_threshold Sample.committee) ∧
  (cs = [] ∨ ∃ c, cs = [c] ∧ ct_header c = h1 ∧ NoDup (voters (ct_votes c)) ∧
     quorum_threshold Sample.committee ≤
       stake_of Sample.committee (list_to_set (voters (ct_votes c))) ∧
     ∀ k s, (k, s) ∈ ct_votes c → ∃ v, v ∈ vs ∧ vt_author v = k ∧ vt_signature v = s).
Proof. intros vs. apply (votes_quorum_once Sample.committee h1 vs). vm_compute. reflexivity. Defined.
End votes_witness.

(** A certificate aggregator hands the parents of the next round to the proposer exactly once: when
    and only when the distinct origins of the certificates it was given hold a quorum, and then as the
    digests of certificates of distinct origins with a quorum of stake. *)
Theorem parents_quorum_once `{!Sha512, !Dalek, !Backend} committee cs :
  small_stake committee →
  let ls := CertificatesAggregator.emitted
    (CertificatesAggregator.append_all CertificatesAggregator.new cs committee).2 in
  (ls = [] ↔ stake_of committee (cert_origins cs) < quorum_threshold committee) ∧
  (ls = [] ∨ ∃ l, ls = [digest <$> l] ∧ l ⊆ cs ∧ NoDup (origin <$> l) ∧
     quorum_threshold committee ≤ stake_of committee (cert_origins l)).
Proof.
  intros Hs. cbv zeta.
  destruct (certs_counting committee Hs CertificatesAggregator.new cs cs)
    as [[-> Hlt]|(ds & U & -> & (l & -> & Hnd & Hu & Hl) & Hq & Hsub)];
    [done|by apply counting_init|by exists []; split_and!; [| constructor| |set_solver]| |];
    simpl in *; rewrite (left_id_L ∅ (∪)) in *.
  - split; [done|by left].
  - split; [split; [done|]|].
    + pose proof (sum_set_mono (stake committee) _ _ Hsub). unfold stake_of in *. lia.
    + right. exists l. by rewrite Hu.
Qed.

Section certificates_witness.
Import Toy ToyBackend SampleMessages.

Lemma parents_quorum_once_witness :
  let cs := genesis Sample.committee in
  let ls := CertificatesAggregator.emitted
    (CertificatesAggregator.append_all CertificatesAggregator.new cs Sample.committee).2 in
  (ls = [] ↔ stake_of Sample.committee (cert_origins cs) < quorum_threshold Sample.committee) ∧
  (ls = [] ∨ ∃ l, ls = [digest <$> l] ∧ l ⊆ cs ∧ NoDup (origin <$> l) ∧
     quorum_threshold Sample.committee ≤ stake_of Sample.committee (cert_origins l)).
Proof. intros cs. apply (parents_quorum_once Sample.committee cs). vm_compute. reflexivity. Defined.
End certificates_witness.

(** A vote on a header that verifies is a valid signature on the certificates of the header. *)
Lemma vote_verify_certificate `{!Sha512, !Dalek, !Backend} committee h v vs :
  vt_id v = hd_id h → vt_round v = hd_round h → vt_origin v = hd_author h → Vote_verify v committee = Ret () →
  0 < stake committee (vt_author v) ∧
  Signature_verify (vt_signature v) (digest (MkCertificate h vs)) (vt_author v) = Ret ().
Proof.
  intros Ei Er Eo Hv. unfold Vote_verify in Hv. apply ensure_bind_ret in Hv as [?%N.ltb_lt Hsig%map_err_ret].
  split; [done|]. by rewrite <-(vote_digest_certificate v).
Qed.

(** A certificate of a header that verifies, with valid votes of distinct authorities that hold a quorum. *)
Lemma votes_certify `{!Sha512, D : !Dalek, !DalekLaws D, !Backend} committee x :
  small_stake committee →
  Header_verify (ct_header x) committee = Ret () → NoDup (voters (ct_votes x)) →
  quorum_threshold committee ≤ stake_of committee (list_to_set (voters (ct_votes x))) →
  (∀ k s, (k, s) ∈ ct_votes x → 0 < stake committee k ∧ Signature_verify s (digest x) k = Ret ()) →
  Certificate_verify x committee = Ret ().
Proof.
  intros Hs Hh Hnd Hq Hok. apply Certificate_verify_ret; [done|right]. split_and!; [done|done| |done|].
  - intros k ([k' s] & -> & Hk)%list_elem_of_fmap. by eapply Hok.
  - apply verify_batch_of_verify, Forall_forall. intros [k s] Hk. by apply Hok.
Qed.

(** The certificate a primary assembles from the votes it accepted for its own header passes
    [Certificate::verify] at every other primary: its header verifies, and the votes are on that header
    and were verified one by one. *)
Theorem assembled_certificate_verifies `{!Sha512, D : !Dalek, !DalekLaws D, !Backend} committee header vs c :
  small_stake committee →
  Header_verify header committee = Ret () →
  Forall (λ v, vt_id v = hd_id header ∧ vt_round v = hd_round header ∧ vt_origin v = hd_author header ∧
               Vote_verify v committee = Ret ()) vs →
  c ∈ VotesAggregator.emitted (VotesAggregator.append_all VotesAggregator.new vs committee header).2 →
  Certificate_verify c committee = Ret ().
Proof.
  intros Hs Hh Hvs Hc.
  destruct (votes_quorum_once committee header vs Hs) as [_ [E|(x & E & <- & Hnd & Hq & Hin)]]; rewrite E in Hc.
  { by apply elem_of_nil in Hc. }
  apply list_elem_of_singleton in Hc as ->. rewrite Forall_forall in Hvs.
  apply votes_certify; [done..|]. intros k s (v & (? & ? & ? & ?)%Hvs & <- & <-)%Hin.
  destruct x as [h votes]. by apply vote_verify_certificate.
Qed.

Section assembled_witness.
Import Toy ToyBackend SampleMessages.

Lemma assembled_certificate_verifies_witness : Certificate_verify c1 Sample.committee = Ret ().
Proof.
  apply (assembled_certificate_verifies Sample.committee h1 (vote h1 <$> [1; 2; 3]) c1).
  - vm_compute. reflexivity.
  - apply is_ret_unit. vm_compute. reflexivity.
  - repeat (apply Forall_cons_2; [split_and!; [reflexivity..|apply is_ret_unit; vm_compute; reflexivity]|]).
    apply Forall_nil_2.
  - apply (bool_decide_unpack _). vm_compute. exact I.
Defined.
End assembled_witness.
