(* ===== verification/Adversary.v ===== *)
(** The deterministic schedule of silent authorities and of direct commits
    ([src/primary/src/adversary.rs]).

    Scores are the first 32 bytes of a SHA-512; the schedule's counting properties hold for every hash
    function, because scores are only used as sort keys next to a tie-breaker (the key of the authority
    or the round of the slot). *)

From S2P Require Import Prelude Crypto.

(** ** Tuples compare lexicographically *)

Section pair_order.
Context {A B : Type} `{EqDecision A, EqDecision B} (RA : relation A) (RB : relation B).

(** [<(A, B) as Ord>::le]. *)
Definition pair_le (p q : A * B) : Prop := (p.1 ≠ q.1 ∧ RA p.1 q.1) ∨ (p.1 = q.1 ∧ RB p.2 q.2).

#[export] Instance pair_le_dec `{!RelDecision RA, !RelDecision RB} : RelDecision pair_le.
Proof. intros p q. unfold pair_le. apply _. Defined.

#[export] Instance pair_le_total_order `{!TotalOrder RA, !TotalOrder RB} : TotalOrder pair_le.
Proof.
  unfold pair_le. split; [split; [split|]|].
  - intros [a b]; right; simpl. split; [done|reflexivity].
  - intros [a b] [a' b'] [a'' b'']; simpl. intros [[? Ha]|[-> ?]] [[? Ha']|[-> ?]]; auto.
    + left. split; [|by etrans]. intros ->. by apply (anti_symm RA) in Ha.
    + right. split; [done|]. by etrans.
  - intros [a b] [a' b']; simpl. intros [[? Ha]|[-> ?]] [[? Ha']|[? ?]]; try congruence.
    + by apply (anti_symm RA) in Ha.
    + f_equal. by apply (anti_symm RB).
  - intros [a b] [a' b']. unfold strict; simpl.
    destruct (trichotomy (strict RA) a a') as [[? Hn]|[->|[? Hn]]].
    + left. split; [left|]; [split; [|done]; naive_solver|]. intros [[? ?]|[-> ?]]; [done|]. by apply Hn.
    + destruct (trichotomy (strict RB) b b') as [[? Hn]|[->|[? Hn]]]; [left|by right; left|right; right];
        (split; [by right|]); intros [[? ?]|[? ?]]; done.
    + right; right. split; [left|]; [split; [|done]; naive_solver|]. intros [[? ?]|[-> ?]]; [done|]. by apply Hn.
Qed.
End pair_order.

#[export] Program Instance array_ord n : OrdKey (array n) := {| key_bytes := arr_bytes |}.

#[export] Instance N_le_total_order : TotalOrder N.le.
Proof.
  split; [apply _|]. intros a b. unfold strict. destruct (N.lt_trichotomy a b) as [?|[?|?]]; [left|auto|right; right]; lia.
Qed.

(** ** The schedule *)

Section schedule.
Context `{!Sha512}.

(** [b"narwhal-dynamic-adversary-v1"]. *)
Definition score_tag : list byte := String.list_byte_of_string "narwhal-dynamic-adversary-v1".

Definition score (authority : PublicKey) (round seed domain : N) : array 32 :=
  @array_take 32 32 (sha512 (score_tag ++ le_bytes 8 seed ++ le_bytes 8 round ++
    [byte_of_N domain] ++ PublicKey_as_ref authority)).

(** Slots are sorted by score, then by round; authorities by score, then by key. *)
Definition slot_le : relation (array 32 * N) := pair_le key_le N.le.
Definition rank_le : relation (array 32 * PublicKey) := pair_le key_le key_le.

#[export] Instance slot_le_order : TotalOrder slot_le.
Proof. unfold slot_le. apply _. Qed.
#[export] Instance rank_le_order : TotalOrder rank_le.
Proof. unfold rank_le. apply _. Qed.

(** [authorities[round as usize % authorities.len()]]: in range, since the list is not empty there. *)
Definition leader_at (authorities : list PublicKey) (round : N) : PublicKey :=
  default PublicKey_default (authorities !! N.to_nat (round mod N.of_nat (length authorities))).

(** [((ordinal.saturating_sub(1) as usize) / window) * window + 1]. *)
Definition window_start (window round : N) : N :=
  let ordinal := round / 2 in
  u64_add (u64_mul (saturating_sub ordinal 1 / window) window) 1.

(** [2 * (window_start + offset) as u64]. *)
Definition candidate_round (start offset : N) : N := u64_mul 2 (u64_add start offset).

(** The number of candidates whose [(score, key)] is below that of [authority]. *)
Definition rank (candidates : list PublicKey) (authority : PublicKey) (round seed : N) : nat :=
  let own_key := (score authority round seed 0, authority) in
  length (filter (λ c, strict rank_le (score c round seed 0, c) own_key) candidates).

(** The slots of the window of [round], lowest score first. *)
Definition leader_slots (authorities : list PublicKey) (round faults seed : N) : list (array 32 * N) :=
  let window := u64_add (u64_mul 3 faults) 1 in
  let start := window_start window round in
  merge_sort slot_le
    ((λ offset, let candidate := candidate_round start offset in
       (score (leader_at authorities candidate) candidate seed 2, candidate)) <$> N_range 0 window).

Definition leader_is_silent (authorities : list PublicKey) (round faults seed : N) : bool :=
  existsb (λ s, s.2 =? round) (take (N.to_nat faults) (leader_slots authorities round faults seed)).

Definition selected (authority : PublicKey) (authorities : list PublicKey) (round faults seed : N) : bool :=
  let faults := N.min faults (N.of_nat (length authorities)) in
  if faults =? 0 then false
  else if round mod 2 =? 0 then
    let silent := leader_is_silent authorities round faults seed in
    let leader := leader_at authorities round in
    if decide (authority = leader) then silent
    else
      let remaining := faults - (if silent then 1 else 0) in
      N.of_nat (rank (filter (λ c, c ≠ leader) authorities) authority round seed) <? remaining
  else N.of_nat (rank authorities authority round seed) <? faults.

(** The bytes of a slot, [size_of::<([u8; 32], u64)>()], and the most a [Vec] can have, [isize::MAX]. *)
Definition SLOT_SIZE : N := 40.
Definition isize_max : N := 2 ^ 63 - 1.

(** The slots of the window of [leader_round] whose leaders are not silent, lowest score first. The division by
    the size of the window panics when the size wraps around to 0, [Vec::with_capacity] when it is too large. *)
Definition available_slots (authorities : list PublicKey) (leader_round faults seed : N) :
    outcome Empty_set (list (array 32 * N)) :=
  let window := u64_add (u64_mul 3 faults) 1 in
  if window =? 0 then Panic
  else
    let start := window_start window leader_round in
    if isize_max <? SLOT_SIZE * window then Panic
    else Ret (merge_sort slot_le
      (omap (λ offset, let candidate := candidate_round start offset in
         let leader := leader_at authorities candidate in
         if selected leader authorities candidate faults seed then None
         else Some (score leader candidate seed 1, candidate)) (N_range 0 window))).

Definition direct_commit_selected (authorities : list PublicKey) (leader_round faults seed : N) :
    outcome Empty_set bool :=
  if (faults =? 0) || bool_decide (authorities = []) then Ret true
  else
    let window := u64_add (u64_mul 3 faults) 1 in
    let target := N.min (u64_add faults 2) window in
    available ← available_slots authorities leader_round faults seed;
    Ret (existsb (λ s, s.2 =? leader_round) (take (N.to_nat target) available)).

(** The rounds it selects, for counting. *)
Definition direct (authorities : list PublicKey) (faults seed leader_round : N) : bool :=
  match direct_commit_selected authorities leader_round faults seed with Ret b => b | _ => false end.

(** The numbers of faults with which no window is too large. *)
Definition window_fits (faults : N) : Prop := SLOT_SIZE * (3 * faults + 1) ≤ isize_max.

Lemma direct_commit_total authorities leader_round faults seed :
  window_fits faults → ∃ b, direct_commit_selected authorities leader_round faults seed = Ret b.
Proof.
  unfold window_fits, SLOT_SIZE, isize_max. intros Hf. unfold direct_commit_selected, available_slots.
  destruct (_ || _); [by eexists|]. assert (E : u64_add (u64_mul 3 faults) 1 = 3 * faults + 1).
  { rewrite u64_mul_small, u64_add_small; unfold two64; lia. }
  rewrite E. unfold SLOT_SIZE, isize_max. destruct (N.eqb_spec (3 * faults + 1) 0); [lia|].
  destruct (N.ltb_spec (2 ^ 63 - 1) (40 * (3 * faults + 1))); [lia|]. by eexists.
Qed.

End schedule.

(** ** Counting lemmas *)

Lemma total_order_inj {A B} (R : relation B) (f : A → B) `{!Inj (=) (=) f, !TotalOrder R} :
  TotalOrder (λ a b, R (f a) (f b)).
Proof.
  split; [split; [split|]|].
  - intros a. reflexivity.
  - intros a b c ??. by etrans.
  - intros a b ??. apply (inj f). by apply (anti_symm R).
  - intros a b. destruct (trichotomy (strict R) (f a) (f b)) as [?|[?%(inj f)|?]]; [by left|auto|].
    by right; right.
Qed.

Section counting.
Context `{!Sha512}.
Implicit Types (authorities : list PublicKey) (round faults seed : N).

(** Exactly [k] candidates have a rank below [k], when there are that many. *)
Lemma length_filter_rank_lt candidates round seed (k : N) :
  NoDup candidates →
  length (filter (λ a, N.of_nat (rank candidates a round seed) < k) candidates)
    = Nat.min (N.to_nat k) (length candidates).
Proof.
  intros Hnd. set (f := λ a, (score a round seed 0, a)).
  assert (Inj (=) (=) f) by (intros a b [= _ ?]; done).
  set (R := λ a b, rank_le (f a) (f b)).
  assert (HR : TotalOrder R) by exact (total_order_inj rank_le f).
  assert (HD : RelDecision R) by (intros a b; unfold R, rank_le; apply _).
  rewrite <-(length_filter_rank R (N.to_nat k)) by done. f_equal. apply filter_ext_elem.
  intros a _. unfold rank.
  rewrite (filter_ext_elem (λ c, strict rank_le (score c round seed 0, c) (score a round seed 0, a))
    (λ y, strict R y a) candidates) by done. lia.
Qed.

Lemma leader_at_in authorities round :
  authorities ≠ [] → leader_at authorities round ∈ authorities.
Proof.
  intros Hne. unfold leader_at.
  destruct (lookup_lt_is_Some_2 authorities (N.to_nat (round mod N.of_nat (length authorities)))) as [a Ha].
  - assert (length authorities ≠ 0%nat) by (by destruct authorities).
    pose proof (N.mod_lt round (N.of_nat (length authorities))). lia.
  - rewrite Ha; simpl. by eapply list_elem_of_lookup_2.
Qed.

(** Splitting off the leader of a round. *)
Lemma length_filter_leader authorities leader (P : PublicKey → bool) :
  NoDup authorities → leader ∈ authorities →
  length (filter (λ a, P a = true) authorities) =
    ((if P leader then 1 else 0) + length (filter (λ a, P a = true) (filter (λ a, a ≠ leader) authorities)))%nat.
Proof.
  intros Hnd Hin. assert (Hp : authorities ≡ₚ leader :: filter (λ a, a ≠ leader) authorities).
  { apply NoDup_Permutation; [done| |].
    - apply NoDup_cons. split; [|by apply NoDup_filter]. rewrite list_elem_of_filter. naive_solver.
    - intros x. rewrite elem_of_cons, list_elem_of_filter. destruct (decide (x = leader)); naive_solver. }
  rewrite (Permutation_length (filter_Permutation _ _ _ Hp)), filter_cons.
  destruct (P leader); [rewrite decide_True by done|rewrite decide_False by done]; simpl; lia.
Qed.

Lemma length_filter_ne authorities leader :
  NoDup authorities → leader ∈ authorities →
  length (filter (λ a, a ≠ leader) authorities) = (length authorities - 1)%nat.
Proof.
  intros Hnd Hin. pose proof (length_filter_leader authorities leader (λ _, true) Hnd Hin) as Hc. simpl in Hc.
  assert (Hall : ∀ l : list PublicKey, filter (λ _, true = true) l = l).
  { induction l as [|x l IH]; [done|]. by rewrite filter_cons, decide_True, IH. }
  rewrite !Hall in Hc. lia.
Qed.

Lemma selected_count authorities round faults seed :
  NoDup authorities → faults < N.of_nat (length authorities) →
  length (filter (λ a, selected a authorities round faults seed = true) authorities) = N.to_nat faults.
Proof.
  intros Hnd Hf. unfold selected. rewrite N.min_l by lia.
  destruct (N.eqb_spec faults 0) as [->|Hf0]; [by rewrite filter_none|].
  destruct (N.eqb_spec (round mod 2) 0) as [He|He].
  - assert (Hin : leader_at authorities round ∈ authorities).
    { apply leader_at_in. intros ->. simpl in Hf. lia. }
    revert Hin. generalize (leader_at authorities round) as leader. intros leader Hin.
    generalize (leader_is_silent authorities round faults seed) as silent. intros silent.
    rewrite (length_filter_leader _ leader) by done. rewrite decide_True by done.
    rewrite (filter_ext_elem _ (λ a, N.of_nat (rank (filter (λ c, c ≠ leader) authorities) a round seed)
      < faults - (if silent then 1 else 0)) (filter (λ a, a ≠ leader) authorities)).
    + rewrite length_filter_rank_lt by (by apply NoDup_filter). rewrite length_filter_ne by done.
      destruct silent; lia.
    + intros a [Ha _]%list_elem_of_filter. rewrite decide_False by done. apply N.ltb_lt.
  - rewrite (filter_ext_elem _ (λ a, N.of_nat (rank authorities a round seed) < faults)).
    + rewrite length_filter_rank_lt by done. lia.
    + intros a _. apply N.ltb_lt.
Qed.

End counting.

(** ** Windows of leader rounds *)

(** The leader rounds of the window number [k], for [faults] faults. *)
Definition window_size (faults : N) : N := 3 * faults + 1.
Definition window_rounds (k faults : N) : list N :=
  (λ i, 2 * (k * window_size faults + 1 + i)) <$> N_range 0 (window_size faults).

(** The windows whose rounds are [u64]. *)
Definition window_ok (k faults : N) : Prop := 2 * ((k + 2) * window_size faults + 1) < two64.

Section windows.
Context `{!Sha512}.
Variables (authorities : list PublicKey) (k faults seed : N).
Hypothesis (Hok : window_ok k faults).
Let w := window_size faults.

Lemma window_u64 : u64_add (u64_mul 3 faults) 1 = w.
Proof.
  unfold window_ok, window_size, two64 in Hok. unfold w, window_size.
  rewrite u64_mul_small, u64_add_small; unfold two64; nia.
Qed.

Lemma window_start_of round : round ∈ window_rounds k faults → window_start w round = k * w + 1.
Proof.
  unfold window_rounds. rewrite list_elem_of_fmap. intros (i & -> & [_ Hi]%elem_of_N_range).
  fold w in Hi |- *. unfold window_start, saturating_sub. rewrite (N.mul_comm 2), N.div_mul by done.
  destruct (N.leb_spec 1 (k * w + 1 + i)) as [_|]; [|lia].
  replace (k * w + 1 + i - 1) with (i + k * w) by lia.
  assert (w ≠ 0) by (unfold w, window_size; lia).
  rewrite N.div_add, N.div_small by done. rewrite N.add_0_l.
  unfold window_ok in Hok. fold w in Hok. unfold two64 in *.
  rewrite u64_mul_small, u64_add_small; unfold two64; nia.
Qed.

Lemma candidates_window :
  (λ offset, candidate_round (k * w + 1) offset) <$> N_range 0 w = window_rounds k faults.
Proof.
  unfold window_rounds. fold w. apply list_fmap_ext. intros j i Hi.
  apply list_elem_of_lookup_2, elem_of_N_range in Hi. unfold candidate_round.
  unfold window_ok in Hok. fold w in Hok. unfold two64 in *.
  rewrite u64_add_small, u64_mul_small; unfold two64; nia.
Qed.

Lemma NoDup_window_rounds : NoDup (window_rounds k faults).
Proof. apply NoDup_fmap_2; [intros ??; lia|apply NoDup_N_range]. Qed.

Lemma length_window_rounds : length (window_rounds k faults) = N.to_nat w.
Proof. unfold window_rounds. rewrite length_fmap, length_N_range. fold w. lia. Qed.

Lemma window_even round : round ∈ window_rounds k faults → round mod 2 = 0.
Proof.
  unfold window_rounds. intros (i & -> & _)%list_elem_of_fmap.
  rewrite (N.mul_comm 2). by apply N.Div0.mod_mul.
Qed.

(** The slots of the window, in the order of the score of the domain [d]. *)
Definition window_slots (d : N) (rounds : list N) : list (array 32 * N) :=
  merge_sort slot_le ((λ r, (score (leader_at authorities r) r seed d, r)) <$> rounds).

Lemma window_slots_rounds d rounds : (window_slots d rounds).*2 ≡ₚ rounds.
Proof.
  unfold window_slots. rewrite merge_sort_Permutation, <-list_fmap_compose.
  by rewrite (list_fmap_ext _ id), list_fmap_id.
Qed.

Lemma leader_slots_window round :
  round ∈ window_rounds k faults →
  leader_slots authorities round faults seed = window_slots 2 (window_rounds k faults).
Proof.
  intros Hr. unfold leader_slots, window_slots. rewrite window_u64, window_start_of by done.
  by rewrite <-candidates_window, <-list_fmap_compose.
Qed.

(** Among the rounds of a list, those that come with the first [n] slots. *)
Lemma length_filter_take d rounds (n : nat) (P : N → Prop) `{∀ r, Decision (P r)} all :
  NoDup all → NoDup rounds → rounds ⊆ all →
  (∀ r, r ∈ all → P r ↔ r ∈ (take n (window_slots d rounds)).*2) →
  length (filter P all) = Nat.min n (length rounds).
Proof.
  intros Hall Hnd Hsub HP.
  assert (Hlen : length (window_slots d rounds) = length rounds).
  { by rewrite <-(length_fmap snd), window_slots_rounds. }
  assert (Hnd' : NoDup (take n (window_slots d rounds)).*2).
  { rewrite fmap_take. rewrite <-(window_slots_rounds d rounds) in Hnd.
    rewrite <-(take_drop n (window_slots d rounds).*2) in Hnd. by apply NoDup_app in Hnd as (? & _ & _). }
  assert (Hsub' : (take n (window_slots d rounds)).*2 ⊆ all).
  { intros r Hr. apply Hsub. rewrite <-(window_slots_rounds d rounds). rewrite fmap_take in Hr.
    by apply elem_of_take in Hr as (? & ?%list_elem_of_lookup_2 & _). }
  rewrite (length_filter_sub all (take n (window_slots d rounds)).*2) by done.
  rewrite length_fmap, length_take, Hlen. lia.
Qed.

Lemma existsb_slot n l r : existsb (λ s : array 32 * N, s.2 =? r) (take n l) = true ↔ r ∈ (take n l).*2.
Proof.
  rewrite existsb_In, list_elem_of_fmap. setoid_rewrite N.eqb_eq. naive_solver.
Qed.

Hypothesis Hf0 : 0 < faults.
Hypothesis Hf : faults ≤ N.of_nat (length authorities).
Hypothesis Hfits : window_fits faults.

Lemma selected_leader round :
  round ∈ window_rounds k faults →
  selected (leader_at authorities round) authorities round faults seed =
    existsb (λ s, s.2 =? round) (take (N.to_nat faults) (window_slots 2 (window_rounds k faults))).
Proof.
  intros Hr. unfold selected. rewrite N.min_l by done. destruct (N.eqb_spec faults 0); [lia|].
  rewrite (window_even round), N.eqb_refl, decide_True by done.
  unfold leader_is_silent. by rewrite leader_slots_window.
Qed.

Lemma silent_leaders_count :
  length (filter (λ r, selected (leader_at authorities r) authorities r faults seed = true)
    (window_rounds k faults)) = N.to_nat faults.
Proof.
  pose proof NoDup_window_rounds as Hnd.
  rewrite (length_filter_take 2 (window_rounds k faults) (N.to_nat faults)); [|done..|].
  - rewrite length_window_rounds. unfold w, window_size. lia.
  - intros r Hr. by rewrite selected_leader, existsb_slot.
Qed.

(** The rounds of the window whose leader is not silent. *)
Definition live_rounds : list N :=
  filter (λ r, selected (leader_at authorities r) authorities r faults seed = false) (window_rounds k faults).

Lemma available_slots_window round :
  round ∈ window_rounds k faults →
  available_slots authorities round faults seed = Ret (window_slots 1 live_rounds).
Proof.
  intros Hr. unfold available_slots. rewrite window_u64. pose proof Hfits as Hfit. unfold window_fits in Hfit.
  fold (window_size faults) in Hfit. fold w in Hfit |- *.
  destruct (N.eqb_spec w 0); [unfold w, window_size in *; lia|].
  destruct (N.ltb_spec isize_max (SLOT_SIZE * w)); [lia|]. f_equal.
  unfold window_slots, live_rounds. rewrite window_start_of, <-candidates_window by done. f_equal.
  induction (N_range 0 w) as [|i l IH]; [done|]. csimpl. rewrite filter_cons.
  destruct (selected _ _ _ _ _); [rewrite decide_False by done; exact IH|].
  rewrite decide_True by done. csimpl. by f_equal.
Qed.

Lemma length_live_rounds : length live_rounds = N.to_nat (2 * faults + 1).
Proof.
  pose proof silent_leaders_count as Hc. pose proof length_window_rounds as Hw.
  unfold live_rounds.
  assert (Hs : ∀ l, (length (filter (λ r, selected (leader_at authorities r) authorities r faults seed = true) l)
    + length (filter (λ r, selected (leader_at authorities r) authorities r faults seed = false) l) = length l)%nat).
  { induction l as [|r l IH]; [done|]. rewrite !filter_cons. destruct (selected _ _ _ _ _); simpl; lia. }
  specialize (Hs (window_rounds k faults)). unfold w, window_size in Hw. lia.
Qed.

Lemma direct_commit_window round :
  round ∈ window_rounds k faults →
  direct_commit_selected authorities round faults seed =
    Ret (existsb (λ s, s.2 =? round) (take (N.to_nat (faults + 2)) (window_slots 1 live_rounds))).
Proof.
  intros Hr. unfold direct_commit_selected. rewrite available_slots_window, window_u64 by done.
  destruct (N.eqb_spec faults 0); [lia|]. rewrite bool_decide_eq_false_2; [simpl|by intros ->; simpl in Hf; lia].
  rewrite u64_add_small by (unfold window_ok, window_size, two64 in *; nia).
  rewrite N.min_l by (unfold w, window_size; lia). done.
Qed.

Lemma direct_commits_count :
  length (filter (λ r, direct authorities faults seed r = true) (window_rounds k faults)) = N.to_nat (faults + 2).
Proof.
  pose proof NoDup_window_rounds as Hnd.
  assert (Hl : NoDup live_rounds) by (by apply NoDup_filter).
  rewrite (length_filter_take 1 live_rounds (N.to_nat (faults + 2))); [|done..| |].
  - rewrite length_live_rounds. lia.
  - intros r [_ ?]%list_elem_of_filter. done.
  - intros r Hr. unfold direct. by rewrite direct_commit_window, existsb_slot.
Qed.

Lemma direct_commit_not_silent round :
  round ∈ window_rounds k faults → direct authorities faults seed round = true →
  selected (leader_at authorities round) authorities round faults seed = false.
Proof.
  intros Hr. unfold direct. rewrite direct_commit_window, existsb_slot by done. intros Hin.
  assert (Hl : round ∈ live_rounds).
  { rewrite <-(window_slots_rounds 1 live_rounds). rewrite fmap_take in Hin.
    by apply elem_of_take in Hin as (? & ?%list_elem_of_lookup_2 & _). }
  by apply list_elem_of_filter in Hl as [? _].
Qed.
End windows.

(** ** Properties *)

(** C37: In every round exactly f authorities are silent, in odd rounds and in leader rounds alike, for
    every committee of more than f authorities and every seed. *)
Theorem exactly_f_silent `{!Sha512} authorities round faults seed :
  NoDup authorities → faults < N.of_nat (length authorities) →
  length (filter (λ a, selected a authorities round faults seed = true) authorities) = N.to_nat faults.
Proof. apply selected_count. Qed.

Lemma exactly_f_silent_witness :
  length (filter (λ a, @selected Toy.toy_sha512 a (Toy.pk <$> [1; 2; 3; 4]) 2 1 7 = true)
    (Toy.pk <$> [1; 2; 3; 4])) = N.to_nat 1.
Proof.
  apply (@exactly_f_silent Toy.toy_sha512 (Toy.pk <$> [1; 2; 3; 4]) 2 1 7).
  - apply (bool_decide_unpack _). vm_compute. exact I.
  - vm_compute. reflexivity.
Defined.

(** In every window of 3f + 1 leader rounds exactly f leaders are silent and exactly f + 2 rounds are
    selected for a direct commit, none of them the round of a silent leader: the ratio
    (f + 2) / (3f + 1) the documentation of the schedule promises. *)
Theorem window_schedule `{!Sha512} authorities k faults seed :
  0 < faults → faults ≤ N.of_nat (length authorities) → window_ok k faults → window_fits faults →
  let silent r := selected (leader_at authorities r) authorities r faults seed in
  let direct r := direct authorities faults seed r in
  length (filter (λ r, silent r = true) (window_rounds k faults)) = N.to_nat faults ∧
  length (filter (λ r, direct r = true) (window_rounds k faults)) = N.to_nat (faults + 2) ∧
  ∀ r, r ∈ window_rounds k faults → direct r = true → silent r = false.
Proof.
  intros Hf0 Hf Hok Hfits. cbv zeta. split_and!.
  - by apply silent_leaders_count.
  - by apply direct_commits_count.
  - intros r Hr. by apply (direct_commit_not_silent authorities k).
Qed.

Lemma window_schedule_witness :
  let authorities := Toy.pk <$> [1; 2; 3; 4] in
  let silent r := @selected Toy.toy_sha512 (leader_at authorities r) authorities r 1 7 in
  let direct r := @direct Toy.toy_sha512 authorities 1 7 r in
  length (filter (λ r, silent r = true) (window_rounds 2 1)) = N.to_nat 1 ∧
  length (filter (λ r, direct r = true) (window_rounds 2 1)) = N.to_nat (1 + 2) ∧
  ∀ r, r ∈ window_rounds 2 1 → direct r = true → silent r = false.
Proof.
  intros authorities.
  apply (@window_schedule Toy.toy_sha512 authorities 2 1 7);
    [reflexivity|vm_compute; discriminate|vm_compute; reflexivity|vm_compute; discriminate].
Defined.
