(* ===== verification/Consensus.v ===== *)
(** The Tusk consensus ([src/consensus/src/lib.rs]).

    [process_certificate] is one iteration of the loop of [Consensus::run]: it takes the state and a
    certificate from the primary to the new state and the sequence of certificates committed, each with
    the flag the code computes for its statistics. [Panic] is a panic of the consensus task. Iteration
    over a [HashMap] is [map_to_list]; the results that depend on its order only do so up to what the
    properties state. The depth-first search of [order_dag] runs on fuel, one step per certificate of the
    DAG plus two, and [order_dag_total] shows that this is always enough. *)

From S2P Require Import Prelude Crypto Config Messages Adversary.

(** ** State *)

(** The representation of the DAG in memory. *)
Notation Dag := (gmap N (gmap PublicKey (Digest * Certificate))).

Record State := MkState {
  last_committed_round : Round;
  last_committed : gmap PublicKey Round;
  dag : Dag
}.

(** A computation of the consensus task: it can panic but returns no error. *)
Notation task A := (outcome Empty_set A).

Section consensus.
Context `{!Sha512}.

Definition State_new (genesis : list Certificate) : State :=
  let genesis := list_to_map (reverse ((λ x, (origin x, (digest x, x))) <$> genesis)) in
  {| last_committed_round := 0;
     last_committed := (λ e, cround e.2) <$> (genesis : gmap PublicKey (Digest * Certificate));
     dag := {[ 0 := genesis ]} |}.

(** [*self.last_committed.values().max().unwrap()]. *)
Definition max_round (lc : gmap PublicKey Round) : Round := foldr N.max 0 (map_to_list lc).*2.

(** One iteration of the clean-up loop of [State::update]: [self.dag.retain(..)] for one authority. *)
Definition retain_authority (gc_depth lcr : Round) (name : PublicKey) (round : Round) (d : Dag) : Dag :=
  map_imap (λ r authorities,
    let authorities := filter (λ e, e.1 ≠ name ∨ round ≤ r) authorities in
    if decide (authorities ≠ ∅ ∧ lcr ≤ u64_add r gc_depth) then Some authorities else None) d.

Definition update (s : State) (certificate : Certificate) (gc_depth : Round) : State :=
  let lc := <[ origin certificate :=
      match last_committed s !! origin certificate with
      | Some r => N.max r (cround certificate)
      | None => cround certificate
      end ]> (last_committed s) in
  let lcr := max_round lc in
  MkState lcr lc
    (foldl (λ d e, retain_authority gc_depth lcr e.1 e.2 d) (dag s) (map_to_list lc)).

(** ** Consensus *)

Variable committee : Committee.
Variable gc_depth : Round.
Variable env : Environment.

Definition direct_commit_selected (round : Round) : task bool :=
  let faults := env_number env "TUSK_FAULTS" in
  let seed := env_number env "TUSK_ADVERSARY_SEED" in
  Adversary.direct_commit_selected (btree_keys (authorities committee)) round faults seed.

(** The key [keys[coin as usize % self.committee.size()]]. *)
Definition leader_key (round : Round) : task PublicKey :=
  let coin := round in
  let keys := merge_sort key_le (btree_keys (authorities committee)) in
  if committee_size committee =? 0 then Panic
  else expect (keys !! N.to_nat (coin mod committee_size committee)).

Definition leader (round : Round) (d : Dag) : task (option (Digest * Certificate)) :=
  key ← leader_key round;
  Ret (d !! round ≫= λ x, x !! key).

(** The certificates of a round that some certificate of [parents] has as a parent. *)
Definition parents_in (parents : list Certificate) (authorities : gmap PublicKey (Digest * Certificate)) :
    list Certificate :=
  (filter (λ e, existsb (λ x, bool_decide (e.1 ∈ hd_parents (ct_header x))) parents = true)
    (map_to_list authorities).*2).*2.

Fixpoint linked_loop (parents : list Certificate) (rounds : list Round) (d : Dag) : task (list Certificate) :=
  match rounds with
  | [] => Ret parents
  | r :: rounds =>
      authorities ← expect (d !! r);
      linked_loop (parents_in parents authorities) rounds d
  end.

Definition linked (leader prev_leader : Certificate) (d : Dag) : task bool :=
  parents ← linked_loop [leader] (reverse (N_range (cround prev_leader) (cround leader))) d;
  Ret (existsb (certificate_eqb prev_leader) parents).

(** [(lo..=hi).rev().step_by(2)]. *)
Definition rev_step_by_2 (lo hi : Round) : list Round :=
  if hi <? lo then [] else (λ i, hi - 2 * i) <$> N_range 0 ((hi - lo) / 2 + 1).

Fixpoint order_leaders_loop (rounds : list Round) (to_commit : list Certificate) (last : Certificate)
    (d : Dag) : task (list Certificate) :=
  match rounds with
  | [] => Ret to_commit
  | r :: rounds =>
      prev ← leader r d;
      match prev with
      | None => order_leaders_loop rounds to_commit last d
      | Some (_, prev_leader) =>
          is_linked ← linked last prev_leader d;
          if is_linked : bool then order_leaders_loop rounds (to_commit ++ [prev_leader]) prev_leader d
          else order_leaders_loop rounds to_commit last d
      end
  end.

Definition order_leaders (leader : Certificate) (s : State) : task (list Certificate) :=
  order_leaders_loop
    (rev_step_by_2 (u64_add (last_committed_round s) 2) (u64_sub (cround leader) 2))
    [leader] leader (dag s).

(** [x.values().find(|(x, _)| x == parent)] in the round below [x]. *)
Definition find_parent (d : Dag) (x : Certificate) (parent : Digest) : option (Digest * Certificate) :=
  authorities ← d !! u64_sub (cround x) 1;
  snd <$> list_find (λ e, e.1 = parent) (map_to_list authorities).*2.

(** The body of the loop over the parents of [x]; the stack [buffer] has its top first. *)
Definition visit_parent (s : State) (x : Certificate) (acc : list Certificate * gset Digest)
    (parent : Digest) : list Certificate * gset Digest :=
  let '(buffer, already_ordered) := acc in
  match find_parent (dag s) x parent with
  | None => acc
  | Some (digest, certificate) =>
      let skip := bool_decide (digest ∈ already_ordered) ||
        match last_committed s !! origin certificate with
        | Some r => r =? cround certificate
        | None => false
        end in
      if skip then acc else (certificate :: buffer, {[ digest ]} ∪ already_ordered)
  end.

(** [while let Some(x) = buffer.pop()]. *)
Fixpoint order_dag_loop (fuel : nat) (s : State) (buffer : list Certificate) (already_ordered : gset Digest)
    (ordered : list Certificate) : option (list Certificate) :=
  match fuel with
  | O => None
  | S fuel =>
      match buffer with
      | [] => Some ordered
      | x :: buffer =>
          let '(buffer, already_ordered) :=
            foldl (visit_parent s x) (buffer, already_ordered) (btree_elems (hd_parents (ct_header x))) in
          order_dag_loop fuel s buffer already_ordered (ordered ++ [x])
      end
  end.

(** The certificates of the DAG. *)
Definition dag_entries (d : Dag) : list (Digest * Certificate) :=
  (map_to_list d).*2 ≫= λ authorities, (map_to_list authorities).*2.

Definition order_dag_fuel (d : Dag) : nat := S (S (length (dag_entries d))).

Definition order_dag (leader : Certificate) (s : State) : option (list Certificate) :=
  ordered ← order_dag_loop (order_dag_fuel (dag s)) s [leader] ∅ [];
  Some (sort_by_key cround
    (filter (λ x, last_committed_round s ≤ u64_add (cround x) gc_depth) ordered)).

(** [x.round() % 2 == 0 && self.leader(x.round(), &state.dag).map_or(false, ..)]. *)
Definition is_leader (s : State) (x : Certificate) : task bool :=
  if cround x mod 2 =? 0 then
    l ← leader (cround x) (dag s);
    Ret (match l with Some (d, _) => bool_decide (d = digest x) | None => false end)
  else Ret false.

(** [for x in self.order_dag(leader, &state)]. *)
Fixpoint commit_sub_dag (s : State) (xs : list Certificate) : task (State * list (Certificate * bool)) :=
  match xs with
  | [] => Ret (s, [])
  | x :: xs =>
      b ← is_leader s x;
      '(s, sequence) ← commit_sub_dag (update s x gc_depth) xs;
      Ret (s, (x, b) :: sequence)
  end.

(** [for leader in leaders_to_commit.iter().rev()]. *)
Fixpoint commit_leaders (s : State) (leaders : list Certificate) : task (State * list (Certificate * bool)) :=
  match leaders with
  | [] => Ret (s, [])
  | leader :: leaders =>
      xs ← expect (order_dag leader s);
      '(s, sequence) ← commit_sub_dag s xs;
      '(s, sequence') ← commit_leaders s leaders;
      Ret (s, sequence ++ sequence')
  end.

(** [state.dag.entry(round).or_insert_with(HashMap::new).insert(..)]. *)
Definition add_certificate (s : State) (certificate : Certificate) : State :=
  let round := cround certificate in
  MkState (last_committed_round s) (last_committed s)
    (<[ round := <[ origin certificate := (digest certificate, certificate) ]>
        (default ∅ (dag s !! round)) ]> (dag s)).

(** The stake of the certificates of a round that have the digest among their parents. *)
Definition support (leader_digest : Digest) (authorities : gmap PublicKey (Digest * Certificate)) : Stake :=
  u32_sum ((λ e, stake committee (origin e.2)) <$>
    filter (λ e, leader_digest ∈ hd_parents (ct_header e.2)) (map_to_list authorities).*2).

(** The leader a certificate of round [round] lets the task commit, if any: the guards of the loop of
    [Consensus::run] up to the one on the support of the leader. *)
Definition supported_leader (s : State) (round : Round) : task (option Certificate) :=
  let r := u64_sub round 1 in
  if negb (r mod 2 =? 0) || (r <? 4) then Ret None
  else
    let leader_round := u64_sub r 2 in
    if leader_round <=? last_committed_round s then Ret None
    else
      selected ← direct_commit_selected leader_round;
      if negb selected then Ret None
      else
        l ← leader leader_round (dag s);
        match l with
        | None => Ret None
        | Some (leader_digest, leader) =>
            authorities ← expect (dag s !! u64_sub r 1);
            if support leader_digest authorities <? validity_threshold committee then Ret None
            else Ret (Some leader)
        end.

(** One iteration of the loop of [Consensus::run]. *)
Definition process_certificate (s : State) (certificate : Certificate) :
    task (State * list (Certificate * bool)) :=
  let round := cround certificate in
  let s := add_certificate s certificate in
  l ← supported_leader s round;
  match l with
  | None => Ret (s, [])
  | Some leader =>
      leaders_to_commit ← order_leaders leader s;
      commit_leaders s (reverse leaders_to_commit)
  end.

(** The whole run on the certificates received, in order, and the certificates output. *)
Fixpoint run (s : State) (certificates : list Certificate) : task (State * list (Certificate * bool)) :=
  match certificates with
  | [] => Ret (s, [])
  | c :: certificates =>
      '(s, sequence) ← process_certificate s c;
      '(s, sequence') ← run s certificates;
      Ret (s, sequence ++ sequence')
  end.

End consensus.

(** What the task sends for a committed sequence: every certificate to the primary, then to the
    application. *)
Inductive ConsensusOutput :=
| ToPrimary (c : Certificate)
| ToOutput (c : Certificate).

Definition output_sequence (sequence : list (Certificate * bool)) : list ConsensusOutput :=
  sequence ≫= λ x, [ToPrimary x.1; ToOutput x.1].

(** ** Sample DAGs of the sample committee, for evaluation *)

Module SampleDag.
Import Toy.

(** The certificate of authority [o] in round [r], and those of several authorities. *)
Definition mk (r : Round) (parents : gset Digest) (o : N) : Certificate :=
  MkCertificate (MkHeader (pk o) r ∅ parents Digest_default Signature_default) [].
Definition layer (os : list N) (r : Round) (parents : list Certificate) : list Certificate :=
  mk r (list_to_set (digest <$> parents)) <$> os.

Definition genesis : list Certificate := Messages.genesis Sample.committee.
Definition no_variables : Environment := λ _, None.

(** Fully connected rounds of the four authorities. *)
Fixpoint full_rounds (r : Round) (parents : list Certificate) (n : nat) : list Certificate :=
  match n with
  | O => []
  | S n => let l := layer [1; 2; 3; 4] r parents in l ++ full_rounds (r + 1) l n
  end.

Definition feed : list Certificate := full_rounds 1 genesis 9.

Definition run_sample (s : State) (cs : list Certificate) : task (State * list (Certificate * bool)) :=
  run Sample.committee 50 no_variables s cs.

(** The state reached and the certificates output. *)
Definition final (s : State) (cs : list Certificate) : State * list (Certificate * bool) :=
  SampleMessages.value (s, []) (run_sample s cs).

Notation start := (State_new (Messages.genesis Sample.committee)).
Definition outputs (cs : list Certificate) : list Certificate := (final start cs).2.*1.

Lemma final_run s cs :
  is_ret (run_sample s cs) = true →
  run Sample.committee 50 no_variables s cs = Ret ((final s cs).1, (final s cs).2).
Proof. unfold final. fold (run_sample s cs). by destruct (run_sample s cs) as [[]| |]. Qed.
End SampleDag.
