(* ===== verification/ConsensusFacts.v ===== *)
(** Lemmas on the consensus of [Consensus.v]: the entries of the DAG and how [State::update] and a new
    certificate change them, the depth-first search of [order_dag], and the paths [linked] looks for.
    The properties are in [ConsensusSafety.v]. *)

From S2P Require Import Prelude Crypto Config Messages Adversary Consensus.

(** ** Entries of the DAG *)

(** The entry of an authority in a round. *)
Definition dag_at (d : Dag) (r : Round) (n : PublicKey) : option (Digest * Certificate) :=
  d !! r ≫= λ a, a !! n.

(** The slot of a certificate: its round and its author. *)
Definition slot (c : Certificate) : Round * PublicKey := (cround c, origin c).

(** Every round of the DAG has an entry. *)
Definition dag_nonempty (d : Dag) : Prop := map_Forall (λ _ a, a ≠ ∅) d.

Lemma dag_at_Some d r n e : dag_at d r n = Some e ↔ ∃ a, d !! r = Some a ∧ a !! n = Some e.
Proof. unfold dag_at. apply bind_Some. Qed.

Lemma dag_round_entry d r a : dag_nonempty d → d !! r = Some a → ∃ n e, dag_at d r n = Some e.
Proof.
  intros Hne Ha. pose proof (Hne r a Ha) as Hn. apply map_choose in Hn as (n & e & He).
  exists n, e. apply dag_at_Some. eauto.
Qed.

Lemma elem_of_round (a : gmap PublicKey (Digest * Certificate)) e :
  e ∈ (map_to_list a).*2 ↔ ∃ n, a !! n = Some e.
Proof.
  rewrite list_elem_of_fmap. split.
  - intros ([n e'] & -> & Hin). exists n. by apply elem_of_map_to_list.
  - intros [n Hn]. exists (n, e). by rewrite elem_of_map_to_list.
Qed.

Lemma elem_of_dag_entries d e : e ∈ dag_entries d ↔ ∃ r n, dag_at d r n = Some e.
Proof.
  unfold dag_entries. rewrite list_elem_of_bind. setoid_rewrite elem_of_round.
  setoid_rewrite list_elem_of_fmap. setoid_rewrite dag_at_Some. split.
  - intros (a & (n & Hn) & ([r a'] & -> & Hin)). apply elem_of_map_to_list in Hin. eauto.
  - intros (r & n & a & Ha & Hn). exists a. split; [by exists n|]. exists (r, a).
    by rewrite elem_of_map_to_list.
Qed.

(** ** [State::update] *)

Lemma max_round_ge lc n r : lc !! n = Some r → r ≤ max_round lc.
Proof.
  intros Hn. unfold max_round.
  assert (Hin : r ∈ (map_to_list lc).*2).
  { apply list_elem_of_fmap. exists (n, r). by rewrite elem_of_map_to_list. }
  induction (map_to_list lc).*2 as [|x l IH]; simpl; [set_solver|].
  apply elem_of_cons in Hin as [->|Hin]; [lia|]. specialize (IH Hin). lia.
Qed.

Lemma max_round_le lc b : (∀ n r, lc !! n = Some r → r ≤ b) → max_round lc ≤ b.
Proof.
  intros Hb. unfold max_round.
  assert (Hall : Forall (λ r, r ≤ b) (map_to_list lc).*2).
  { apply Forall_forall. intros r ([n r'] & -> & Hin)%list_elem_of_fmap.
    apply elem_of_map_to_list in Hin. by eapply Hb. }
  induction Hall; simpl; lia.
Qed.

Section update.
Context `{!Sha512}.
Implicit Types (s : State) (d : Dag) (c x y : Certificate) (r : Round) (n : PublicKey).

Lemma dag_at_retain gc lcr name round d r n e :
  dag_at (retain_authority gc lcr name round d) r n = Some e ↔
    dag_at d r n = Some e ∧ (n = name → round ≤ r) ∧ lcr ≤ u64_add r gc.
Proof.
  unfold retain_authority. rewrite !dag_at_Some. setoid_rewrite map_lookup_imap.
  setoid_rewrite bind_Some. split.
  - intros (a & (a' & Ha' & Hif) & Hn). case_decide as Hd; [|done]. injection Hif as <-.
    apply map_lookup_filter_Some in Hn as [Hn Hr]. simpl in Hr. split_and!; [eauto|naive_solver|by destruct Hd].
  - intros ((a & Ha & Hn) & Hr & Hg).
    assert (Hf : filter (λ e0 : PublicKey * (Digest * Certificate), e0.1 ≠ name ∨ round ≤ r) a !! n = Some e).
    { apply map_lookup_filter_Some. split; [done|]. simpl. destruct (decide (n = name)); auto. }
    eexists. split; [|exact Hf]. exists a. split; [done|]. rewrite decide_True; [done|].
    split; [|done]. intros E. by rewrite E, lookup_empty in Hf.
Qed.

Lemma dag_nonempty_retain gc lcr name round d : dag_nonempty (retain_authority gc lcr name round d).
Proof.
  intros r a Ha. unfold retain_authority in Ha. rewrite map_lookup_imap in Ha.
  apply bind_Some in Ha as (a' & _ & Ha). case_decide as Hd; [|done]. injection Ha as <-. by destruct Hd.
Qed.

Lemma dag_at_retain_all gc lcr l d r n e :
  dag_at (foldl (λ d e, retain_authority gc lcr e.1 e.2 d) d l) r n = Some e ↔
    dag_at d r n = Some e ∧ (∀ round, (n, round) ∈ l → round ≤ r) ∧ (l ≠ [] → lcr ≤ u64_add r gc).
Proof.
  revert d. induction l as [|[name round] l IH]; intros d; simpl; [set_solver|].
  rewrite IH, dag_at_retain. setoid_rewrite elem_of_cons. split.
  - intros ((? & Hr & ?) & Hl & _). split_and!; [done| |done].
    intros round' [[= -> ->]|?]; auto.
  - intros (? & Hr & Hg). split_and!; [done| | |..]; [intros ->; auto| |intros; auto|]; auto.
Qed.

Lemma dag_nonempty_retain_all gc lcr l d :
  dag_nonempty d → dag_nonempty (foldl (λ d e, retain_authority gc lcr e.1 e.2 d) d l).
Proof.
  revert d. induction l as [|e l IH]; intros d Hd; simpl; [done|]. apply IH, dag_nonempty_retain.
Qed.

(** The committed round of an authority after committing [c]. *)
Lemma update_last_committed s c gc n :
  last_committed (update s c gc) !! n =
    if decide (n = origin c) then
      Some (match last_committed s !! n with Some r => N.max r (cround c) | None => cround c end)
    else last_committed s !! n.
Proof.
  simpl. case_decide as Hn; [subst; by rewrite lookup_insert_eq|by rewrite lookup_insert_ne].
Qed.

Lemma update_entries s c gc r n e :
  dag_at (dag (update s c gc)) r n = Some e ↔
    dag_at (dag s) r n = Some e ∧
    (∀ round, last_committed (update s c gc) !! n = Some round → round ≤ r) ∧
    last_committed_round (update s c gc) ≤ u64_add r gc.
Proof.
  unfold update; simpl. rewrite dag_at_retain_all. setoid_rewrite elem_of_map_to_list.
  assert (Hne : map_to_list (<[ origin c := match last_committed s !! origin c with
    | Some r => N.max r (cround c) | None => cround c end ]> (last_committed s)) ≠ []).
  { intros E%map_to_list_empty_iff. by apply insert_non_empty in E. }
  naive_solver.
Qed.

Lemma update_lcr s c gc :
  last_committed_round s = max_round (last_committed s) →
  last_committed_round (update s c gc) = N.max (last_committed_round s) (cround c).
Proof.
  intros ->. pose proof (update_last_committed s c gc) as Hl. simpl in *.
  set (lc := <[ _ := _ ]> (last_committed s)) in *. apply N.le_antisymm.
  - apply max_round_le. intros n r. rewrite Hl. case_decide; [subst|].
    + destruct (last_committed s !! origin c) as [r'|] eqn:E; intros [= <-]; [|lia].
      apply max_round_ge in E. lia.
    + intros ?%max_round_ge. lia.
  - apply N.max_lub.
    + apply max_round_le. intros n r Hn. specialize (Hl n). case_decide.
      * subst. rewrite Hn in Hl. apply max_round_ge in Hl. lia.
      * rewrite Hn in Hl. by apply max_round_ge in Hl.
    + specialize (Hl (origin c)). rewrite decide_True in Hl by done. apply max_round_ge in Hl.
      destruct (last_committed s !! origin c); lia.
Qed.

Lemma update_lcr_max s c gc : last_committed_round (update s c gc) = max_round (last_committed (update s c gc)).
Proof. done. Qed.

(** ** A new certificate *)

Lemma add_entries s c r n e :
  dag_at (dag (add_certificate s c)) r n = Some e ↔
    (r = cround c ∧ n = origin c ∧ e = (digest c, c)) ∨
    ((r, n) ≠ slot c ∧ dag_at (dag s) r n = Some e).
Proof.
  unfold add_certificate, slot, dag_at; simpl. destruct (decide (r = cround c)) as [->|Hr].
  - rewrite lookup_insert_eq; simpl. destruct (decide (n = origin c)) as [->|Hn].
    + rewrite lookup_insert_eq. naive_solver.
    + rewrite lookup_insert_ne by done. destruct (dag s !! cround c); simpl; rewrite ?lookup_empty; naive_solver.
  - rewrite lookup_insert_ne by done. naive_solver.
Qed.

Lemma dag_nonempty_add s c : dag_nonempty (dag s) → dag_nonempty (dag (add_certificate s c)).
Proof.
  intros Hne. unfold add_certificate; simpl. apply map_Forall_insert_2; [|done].
  apply insert_non_empty.
Qed.

End update.

(** ** The order in which the primary feeds the consensus *)

Section feed.
Context `{!Sha512}.

(** The parents of [c] are digests of known certificates of the previous round. *)
Definition has_parents (known : list (Digest * Round)) (c : Certificate) : bool :=
  forallb (λ p, existsb (λ x, if x.2 + 1 =? cround c then bool_decide (x.1 = p) else false) known)
    (elements (hd_parents (ct_header c))).

Fixpoint causal_from (known : list (Digest * Round)) (cs : list Certificate) : bool :=
  match cs with
  | [] => true
  | c :: cs => has_parents known c && causal_from ((digest c, cround c) :: known) cs
  end.

(** "The primary should send us new certificates only if it already sent us its whole history." *)
Definition causal (seen cs : list Certificate) : bool :=
  causal_from ((λ x, (digest x, cround x)) <$> seen) cs.

Lemma has_parents_spec seen c :
  has_parents ((λ x, (digest x, cround x)) <$> seen) c = true ↔
    ∀ p, p ∈ hd_parents (ct_header c) → ∃ x, x ∈ seen ∧ digest x = p ∧ cround x + 1 = cround c.
Proof.
  unfold has_parents. rewrite forallb_elem. setoid_rewrite elem_of_elements.
  setoid_rewrite existsb_In. setoid_rewrite list_elem_of_fmap. split.
  - intros Hall p Hp. destruct (Hall p Hp) as (e & (x & -> & Hx) & Hb). simpl in Hb.
    destruct (N.eqb_spec (cround x + 1) (cround c)); [|done]. apply bool_decide_eq_true in Hb. eauto.
  - intros Hall p Hp. destruct (Hall p Hp) as (x & Hx & Hd & Hr). exists (digest x, cround x). split; [eauto|].
    simpl. rewrite Hr, N.eqb_refl. by apply bool_decide_eq_true.
Qed.

Lemma causal_cons seen c cs :
  causal seen (c :: cs) = true ↔
    has_parents ((λ x, (digest x, cround x)) <$> seen) c = true ∧ causal (c :: seen) cs = true.
Proof. unfold causal; csimpl. by rewrite andb_true_iff. Qed.

End feed.
