(* ===== verification/ConsensusOrder.v ===== *)
(** The depth-first search of [Consensus::order_dag]: it ends within the fuel of the model, and orders
    exactly the certificates reachable from the leader through parents that are in the DAG and are not the last
    committed one of their author, each once. *)

From S2P Require Import Prelude Crypto Config Messages Adversary Consensus ConsensusFacts.

#[local] Arguments visit_parent : simpl never.

Section order.
Context `{!Sha512}.
Implicit Types (s : State) (d : Dag) (x y L : Certificate) (p : Digest) (buffer ordered : list Certificate).

(** The entries of a DAG are filed under their slot, with their digest, in rounds that leave room for
    the additions of the code. *)
Record dag_wf (gc : Round) d : Prop := {
  wf_digest r n e : dag_at d r n = Some e → e.1 = digest e.2;
  wf_slot r n e : dag_at d r n = Some e → slot e.2 = (r, n);
  wf_bound r n e : dag_at d r n = Some e → r + gc + 2 < two64
}.

(** The search goes from [x] to [y] through the parent [p] of [x]. *)
Definition edge_via s x p y : Prop :=
  find_parent (dag s) x p = Some (p, y) ∧ last_committed s !! origin y ≠ Some (cround y).

Definition edge s x y : Prop := ∃ p, p ∈ hd_parents (ct_header x) ∧ edge_via s x p y.

(** The parent [y] of [x] is in the DAG and not among the certificates committed. In the states of a run this is
    what [edge] is ([feed_edge]), although the code only looks at the last committed round of the author. *)
Definition uncommitted_parent s (committed : list Certificate) x y : Prop :=
  digest y ∈ hd_parents (ct_header x) ∧ cround y + 1 = cround x ∧
  dag_at (dag s) (cround y) (origin y) = Some (digest y, y) ∧ y ∉ committed.

Lemma find_parent_Some d x p e :
  find_parent d x p = Some e → e.1 = p ∧ ∃ n, dag_at d (u64_sub (cround x) 1) n = Some e.
Proof.
  intros (a & Ha & ([i e'] & Hf & ->)%fmap_Some)%bind_Some; simpl.
  apply list_find_Some in Hf as (Hi & He & _). split; [done|].
  apply list_elem_of_lookup_2, elem_of_round in Hi as [n Hn]. exists n. apply dag_at_Some. eauto.
Qed.

Lemma find_parent_is_Some d x p n y :
  dag_at d (u64_sub (cround x) 1) n = Some (p, y) → is_Some (find_parent d x p).
Proof.
  intros (a & Ha & Hn)%dag_at_Some. unfold find_parent. rewrite Ha; simpl.
  destruct (list_find_elem_of (λ e : Digest * Certificate, e.1 = p) (map_to_list a).*2 (p, y)) as [? ->];
    [|done|eauto]. apply elem_of_round. eauto.
Qed.

Section loop.
Variables (gc : Round) (s : State).
Hypothesis Hwf : dag_wf gc (dag s).

Lemma edge_via_digest x p y : edge_via s x p y → digest y = p.
Proof.
  intros [Hf _]. apply find_parent_Some in Hf as (_ & n & Hn). by apply (wf_digest _ _ Hwf) in Hn.
Qed.

Lemma edge_entry x y : edge s x y → (digest y, y) ∈ dag_entries (dag s).
Proof.
  intros (p & _ & He). pose proof (edge_via_digest _ _ _ He) as ->. destruct He as [Hf _].
  apply find_parent_Some in Hf as (_ & n & Hn). apply elem_of_dag_entries. eauto.
Qed.

(** A step goes one round down. *)
Lemma edge_round x y : cround x < two64 → edge s x y → cround y + 1 = cround x.
Proof.
  intros Hx (p & _ & [Hf _]). apply find_parent_Some in Hf as (_ & n & Hn).
  pose proof (wf_slot _ _ Hwf _ _ _ Hn) as Hs. pose proof (wf_bound _ _ Hwf _ _ _ Hn) as Hb.
  unfold slot in Hs. simpl in Hs. injection Hs as Hr Ho.
  destruct (decide (cround x = 0)) as [E|].
  - assert (u64_sub 0 1 = two64 - 1) as E' by reflexivity. rewrite E, E' in Hb. lia.
  - rewrite Hr, u64_sub_small; lia.
Qed.

Lemma visit_parent_step x buffer already p :
  visit_parent s x (buffer, already) p = (buffer, already) ∧
    (∀ y, edge_via s x p y → digest y ∈ already) ∨
  ∃ y, edge_via s x p y ∧ digest y ∉ already ∧
    visit_parent s x (buffer, already) p = (y :: buffer, {[ digest y ]} ∪ already).
Proof.
  unfold visit_parent. destruct (find_parent (dag s) x p) as [[d y]|] eqn:Hf.
  - pose proof (find_parent_Some _ _ _ _ Hf) as [Hd (n & Hn)]. simpl in Hd. subst d.
    pose proof (wf_digest _ _ Hwf _ _ _ Hn) as Hy. simpl in Hy.
    case_bool_decide as Hin; simpl.
    { left. split; [done|]. intros y' Hv. by rewrite (edge_via_digest _ _ _ Hv). }
    destruct (last_committed s !! origin y) as [r|] eqn:Hlc; [destruct (N.eqb_spec r (cround y)) as [->|Hne]|].
    + left. split; [done|]. intros y' [Hf' Hl]. rewrite Hf in Hf'. by simplify_eq.
    + right. exists y. rewrite <-Hy. split; [|done]. split; [done|]. rewrite Hlc. by intros [= ->].
    + right. exists y. rewrite <-Hy. split; [|done]. split; [done|]. by rewrite Hlc.
  - left. split; [done|]. intros y [Hf' _]. by rewrite Hf in Hf'.
Qed.

Lemma visit_parents_spec x ps buffer already buffer' already' :
  foldl (visit_parent s x) (buffer, already) ps = (buffer', already') →
  ∃ new, buffer' = new ++ buffer ∧ already' = list_to_set (digest <$> new) ∪ already ∧
    NoDup (digest <$> new) ∧
    (∀ y, y ∈ new → digest y ∉ already ∧ ∃ p, p ∈ ps ∧ edge_via s x p y) ∧
    (∀ p y, p ∈ ps → edge_via s x p y → digest y ∈ already').
Proof.
  revert buffer already. induction ps as [|p ps IH]; intros buffer already; csimpl.
  { intros [= <- <-]. exists []. split_and!; [done|set_solver|constructor|set_solver|set_solver]. }
  destruct (visit_parent_step x buffer already p) as [[-> Hin]|(y & Hv & Hni & ->)];
    intros (new & -> & -> & Hnd & Hnew & Hall)%IH.
  - exists new. split_and!; [done..| |].
    + intros y Hy. destruct (Hnew y Hy) as (? & p' & ? & ?). split; [done|]. exists p'. split; [by right|done].
    + intros p' y [->|?]%elem_of_cons Hv; [|by eapply Hall]. apply Hin in Hv. by apply elem_of_union_r.
  - exists (new ++ [y]). rewrite fmap_app; csimpl. split_and!.
    + by rewrite <-app_assoc.
    + rewrite list_to_set_app_L. simpl. by rewrite (right_id_L ∅ (∪)), (assoc_L (∪)).
    + apply NoDup_app_intro; [done|apply NoDup_singleton|].
      intros ? (z & -> & Hz)%list_elem_of_fmap. apply Hnew in Hz as [Hz _].
      rewrite not_elem_of_union, not_elem_of_singleton in Hz. rewrite list_elem_of_singleton. tauto.
    + intros z [Hz| ->%list_elem_of_singleton]%elem_of_app.
      * destruct (Hnew z Hz) as (Hz' & p' & ? & ?). rewrite not_elem_of_union in Hz'.
        split; [tauto|]. exists p'. split; [by right|done].
      * split; [done|]. exists p. split; [by left|done].
    + intros p' z [->|?]%elem_of_cons Hz; [|by eapply Hall].
      rewrite (edge_via_digest _ _ _ Hz), <-(edge_via_digest _ _ _ Hv).
      apply elem_of_union_r, elem_of_union_l, elem_of_singleton. done.
Qed.

Variable L : Certificate.

(** The invariant of the search: what was popped and what is on the stack are the leader and the
    certificates pushed, each of them once; and the successors of what was popped were pushed. *)
Definition dfs_inv (buffer : list Certificate) (already : gset Digest) (ordered : list Certificate) : Prop :=
  ∃ pushed, ordered ++ buffer ≡ₚ L :: pushed ∧ already = list_to_set (digest <$> pushed) ∧
    NoDup (digest <$> pushed) ∧
    (∀ y, y ∈ pushed → tc (edge s) L y) ∧
    (∀ x y, x ∈ ordered → edge s x y → digest y ∈ already).

Lemma dfs_init : dfs_inv [L] ∅ [].
Proof. exists []. split_and!; [done|done|constructor|set_solver|set_solver]. Qed.

Lemma dfs_step x buffer already ordered buffer' already' :
  dfs_inv (x :: buffer) already ordered →
  foldl (visit_parent s x) (buffer, already) (btree_elems (hd_parents (ct_header x))) = (buffer', already') →
  dfs_inv buffer' already' (ordered ++ [x]) ∧
  ∃ new, buffer' = new ++ buffer ∧ already' = list_to_set (digest <$> new) ∪ already ∧
    NoDup (digest <$> new) ∧ (∀ y, y ∈ new → digest y ∉ already ∧ edge s x y).
Proof.
  intros (pushed & Hp & -> & Hnd & Hreach & Hsucc) (new & -> & -> & Hnd' & Hnew & Hall)%visit_parents_spec.
  assert (Hedge : ∀ y, y ∈ new → digest y ∉ (list_to_set (digest <$> pushed) : gset Digest) ∧ edge s x y).
  { intros y Hy. destruct (Hnew y Hy) as (? & p & Hp' & ?). split; [done|]. exists p.
    by rewrite <-(elem_of_btree_elems (hd_parents (ct_header x))). }
  split; [|by exists new]. exists (new ++ pushed). split_and!.
  - trans (new ++ ordered ++ x :: buffer); [solve_Permutation|]. rewrite Hp. solve_Permutation.
  - rewrite fmap_app, list_to_set_app_L. done.
  - rewrite fmap_app. apply NoDup_app_intro; [done..|].
    intros ? (z & -> & Hz)%list_elem_of_fmap. apply Hedge in Hz as [? _]. by rewrite <-(elem_of_list_to_set (C:=gset Digest)).
  - intros y [Hy|?]%elem_of_app; [|auto]. apply Hedge in Hy as [_ Hy].
    assert (Hx : x ∈ L :: pushed) by (rewrite <-Hp; set_solver).
    apply elem_of_cons in Hx as [->|Hx]; [by apply tc_once|]. eapply tc_r; eauto.
  - intros z y [Hz| ->%list_elem_of_singleton]%elem_of_app Hzy.
    + pose proof (Hsucc _ _ Hz Hzy). set_solver.
    + destruct Hzy as (p & Hp' & Hv). eapply Hall; [|done]. by apply elem_of_btree_elems.
Qed.

(** The digests of the DAG. *)
Definition dag_digests : gset Digest := list_to_set (dag_entries (dag s)).*1.

Lemma dfs_measure_step x buffer already ordered buffer' already' :
  dfs_inv (x :: buffer) already ordered →
  foldl (visit_parent s x) (buffer, already) (btree_elems (hd_parents (ct_header x))) = (buffer', already') →
  (length buffer' + size (dag_digests ∖ already') < S (length buffer) + size (dag_digests ∖ already))%nat.
Proof.
  intros Hinv Hf. destruct (dfs_step _ _ _ _ _ _ Hinv Hf) as (_ & new & -> & -> & Hnd & Hnew).
  set (D := list_to_set (digest <$> new) : gset Digest).
  assert (Hsz : size D = length new).
  { unfold D. rewrite size_list_to_set by done. by rewrite length_fmap. }
  assert (Hsub : D ⊆ dag_digests ∖ already).
  { intros p. unfold D. rewrite elem_of_list_to_set. intros (y & -> & Hy)%list_elem_of_fmap.
    apply Hnew in Hy as [? He%edge_entry]. apply elem_of_difference. split; [|done].
    apply elem_of_list_to_set, list_elem_of_fmap. by exists (digest y, y). }
  assert (E : dag_digests ∖ already = D ∪ (dag_digests ∖ (D ∪ already))).
  { apply set_eq. intros p. destruct (decide (p ∈ D)); set_solver. }
  rewrite E, (size_union D) by set_solver. rewrite length_app, Hsz. lia.
Qed.

Lemma order_dag_loop_total fuel buffer already ordered :
  dfs_inv buffer already ordered → (length buffer + size (dag_digests ∖ already) < fuel)%nat →
  ∃ ordered' already', order_dag_loop fuel s buffer already ordered = Some ordered' ∧
    dfs_inv [] already' ordered'.
Proof.
  revert buffer already ordered. induction fuel as [|fuel IH]; intros buffer already ordered Hinv Hfuel; [lia|].
  destruct buffer as [|x buffer]; simpl; [eauto|].
  destruct (foldl _ _ _) as [buffer' already'] eqn:Hf.
  pose proof (dfs_measure_step _ _ _ _ _ _ Hinv Hf). simpl in Hfuel.
  apply IH; [by eapply dfs_step|lia].
Qed.

Lemma size_dag_digests : (size dag_digests ≤ length (dag_entries (dag s)))%nat.
Proof.
  unfold size, set_size; simpl. rewrite <-(length_fmap fst (dag_entries (dag s))).
  apply submseteq_length, NoDup_submseteq; [apply NoDup_elements|].
  intros p. unfold dag_digests. by rewrite elem_of_elements, elem_of_list_to_set.
Qed.

(** The search returns, and what it pops satisfies its invariant with an empty stack. *)
Lemma order_dag_search :
  ∃ ordered already, order_dag_loop (order_dag_fuel (dag s)) s [L] ∅ [] = Some ordered ∧
    dfs_inv [] already ordered.
Proof.
  apply order_dag_loop_total; [apply dfs_init|]. unfold order_dag_fuel. simpl.
  pose proof size_dag_digests. assert (size (dag_digests ∖ ∅) ≤ size dag_digests)%nat
    by (apply subseteq_size; set_solver). lia.
Qed.

Hypothesis HL : cround L < two64.

Lemma edge_target x y : edge s x y →
  dag_at (dag s) (cround y) (origin y) = Some (digest y, y) ∧ last_committed s !! origin y ≠ Some (cround y).
Proof.
  intros (p & _ & He). pose proof (edge_via_digest _ _ _ He) as <-. destruct He as [Hf Hl].
  split; [|done]. apply find_parent_Some in Hf as (_ & n & Hn).
  pose proof (wf_slot _ _ Hwf _ _ _ Hn) as [= -> ->]. done.
Qed.

(** What is reached from the leader is an entry of the DAG, in an earlier round, that is not the last
    committed one of its author. *)
Lemma reached_entry y : tc (edge s) L y →
  dag_at (dag s) (cround y) (origin y) = Some (digest y, y) ∧ last_committed s !! origin y ≠ Some (cround y) ∧
  cround y < cround L.
Proof.
  intros Hy. apply (tc_ind_r (R := edge s) (λ y, dag_at (dag s) (cround y) (origin y) = Some (digest y, y) ∧
    last_committed s !! origin y ≠ Some (cround y) ∧ cround y < cround L) L); [| |done].
  - intros x Hx. destruct (edge_target _ _ Hx). apply edge_round in Hx; [|done]. split_and!; [done..|lia].
  - intros x z _ Hz (_ & _ & Hx). destruct (edge_target _ _ Hz). apply edge_round in Hz; [|lia].
    split_and!; [done..|lia].
Qed.

(** What [order_dag] returns: the certificates within the depth of the garbage collector among the
    leader and those pushed, each slot once, in the order of their rounds. *)
Lemma order_dag_result gc' :
  ∃ pushed xs, order_dag gc' L s = Some xs ∧
    xs ≡ₚ filter (λ x, last_committed_round s ≤ u64_add (cround x) gc') (L :: pushed) ∧
    StronglySorted (λ a b, cround a ≤ cround b) xs ∧
    NoDup (slot <$> L :: pushed) ∧
    (∀ y, y ∈ pushed → tc (edge s) L y) ∧
    (∀ x y, x ∈ L :: pushed → edge s x y → ∃ z, z ∈ pushed ∧ digest z = digest y).
Proof.
  destruct order_dag_search as (ordered & already & Hs & pushed & Hp & -> & Hnd & Hreach & Hsucc).
  rewrite app_nil_r in Hp. exists pushed. eexists. unfold order_dag. rewrite Hs. simpl. split; [done|].
  split_and!; [by rewrite sort_by_key_perm, Hp|apply sort_by_key_sorted| |done|].
  - csimpl. apply NoDup_cons. split.
    + intros (y & Hy & Hin)%list_elem_of_fmap. apply Hreach, reached_entry in Hin as (_ & _ & Hlt).
      injection Hy as Hy _. lia.
    + clear Hp Hsucc Hs.
      induction pushed as [|y pushed IH]; csimpl; [constructor|].
      apply NoDup_cons in Hnd as [Hy Hnd]. apply NoDup_cons. split.
      * intros (z & Hz & Hin)%list_elem_of_fmap. apply Hy. injection Hz as Hr Ho.
        destruct (reached_entry y) as (Ey & _); [apply Hreach; by left|].
        destruct (reached_entry z) as (Ez & _); [apply Hreach; by right|].
        rewrite Hr, Ho, Ez in Ey.
        assert (digest y = digest z) as -> by congruence. by apply list_elem_of_fmap_2.
      * apply IH; [done|]. intros; apply Hreach; by right.
  - intros x y Hx Hy. rewrite <-Hp in Hx. apply (Hsucc _ _ Hx) in Hy.
    rewrite elem_of_list_to_set in Hy. apply list_elem_of_fmap in Hy as (z & ? & ?). eauto.
Qed.

(** When digests identify the entries of the DAG, everything reachable is ordered. *)
Lemma order_dag_complete pushed :
  (∀ r n r' n' e e', dag_at (dag s) r n = Some e → dag_at (dag s) r' n' = Some e' → e.1 = e'.1 → e = e') →
  (∀ y, y ∈ pushed → tc (edge s) L y) →
  (∀ x y, x ∈ L :: pushed → edge s x y → ∃ z, z ∈ pushed ∧ digest z = digest y) →
  ∀ y, tc (edge s) L y → y ∈ pushed.
Proof.
  intros Hinj Hreach Hsucc.
  assert (Hone : ∀ x y, x ∈ L :: pushed → edge s x y → y ∈ pushed).
  { intros x y Hx Hy. destruct (Hsucc _ _ Hx Hy) as (z & Hz & E).
    destruct (edge_target _ _ Hy) as [Hyd _]. destruct (reached_entry z (Hreach z Hz)) as (Hzd & _).
    assert (E' : (digest z, z) = (digest y, y)) by (by eapply Hinj).
    assert (z = y) as <- by congruence. done. }
  intros y Hy. apply (tc_ind_r (R := edge s) (λ y, y ∈ pushed) L); [| |done].
  - intros x Hx. apply (Hone L); [by left|done].
  - intros x z _ Hz Hx. apply (Hone x); [by right|done].
Qed.

End loop.
End order.
