(* ===== verification/ConsensusSafety.v ===== *)
(** Safety of one consensus task: the invariant of its state, that no certificate is committed twice,
    that the last committed round only grows, and what the search of a leader's sub-DAG returns. *)

From S2P Require Import Prelude Crypto Config Messages Adversary Consensus ConsensusFacts ConsensusOrder.

(** ** The leaders to commit *)

Lemma elem_of_rev_step_by_2 lo hi r : r ∈ rev_step_by_2 lo hi → lo ≤ r ∧ r ≤ hi.
Proof.
  unfold rev_step_by_2. destruct (N.ltb_spec hi lo); [set_solver|].
  intros (i & -> & [_ Hi]%elem_of_N_range)%list_elem_of_fmap. div_lia.
Qed.

Lemma N_range_sorted lo hi : StronglySorted (<) (N_range lo hi).
Proof.
  unfold N_range. generalize 0%nat as a. induction (N.to_nat (hi - lo)) as [|n IH]; intros a; csimpl; constructor.
  - apply IH.
  - apply Forall_forall. intros ? (i & -> & [? _]%elem_of_seq)%list_elem_of_fmap. lia.
Qed.

Lemma rev_step_by_2_sorted lo hi : StronglySorted (λ a b, b < a) (rev_step_by_2 lo hi).
Proof.
  unfold rev_step_by_2. destruct (N.ltb_spec hi lo); [constructor|].
  assert (Hb : Forall (λ i, 2 * i ≤ hi) (N_range 0 ((hi - lo) / 2 + 1))).
  { apply Forall_forall. intros i [_ Hi]%elem_of_N_range. div_lia. }
  induction (N_range_sorted 0 ((hi - lo) / 2 + 1)) as [|i l _ IH Hi]; csimpl; [constructor|].
  apply Forall_cons in Hb as [Hb Hbs]. constructor; [by apply IH|].
  apply Forall_fmap, Forall_forall. intros j Hj. rewrite Forall_forall in Hi, Hbs.
  specialize (Hi j Hj). specialize (Hbs j Hj). simpl. lia.
Qed.

Section safety.
Context `{!Sha512}.
Variables (committee : Committee) (gc : Round) (env : Environment).
Implicit Types (s : State) (d : Dag) (c x y L : Certificate) (committed seen : list Certificate).

Lemma leader_Ret r d l : leader committee r d = Ret l → ∃ key, leader_key committee r = Ret key ∧ l = dag_at d r key.
Proof. unfold leader. rewrite outcome_bind_ret. intros (key & ? & [= <-]). eauto. Qed.

(** The previous leaders found are entries of the DAG, in decreasing rounds of the range. *)
Lemma order_leaders_loop_Ret rounds tc last d out :
  dag_wf gc d → order_leaders_loop committee rounds tc last d = Ret out →
  ∃ more, out = tc ++ more ∧ (cround <$> more) `sublist_of` rounds ∧
    ∀ x, x ∈ more → ∃ r n, dag_at d r n = Some (digest x, x).
Proof.
  intros Hwf. revert tc last. induction rounds as [|r rounds IH]; intros tc last; simpl.
  { intros [= <-]. exists []. rewrite app_nil_r. split_and!; [done|constructor|set_solver]. }
  rewrite outcome_bind_ret. intros (l & (key & _ & ->)%leader_Ret & Hl).
  destruct (dag_at d r key) as [[dp prev]|] eqn:Hp.
  - apply outcome_bind_ret in Hl as (b & _ & Hl). destruct b.
    + apply IH in Hl as (more & -> & Hsub & Hmore). exists (prev :: more). rewrite <-app_assoc. csimpl.
      pose proof (wf_slot _ _ Hwf _ _ _ Hp) as [= -> _].
      split_and!; [done|by constructor|]. intros x [->|?]%elem_of_cons; [|auto].
      exists r, key. pose proof (wf_digest _ _ Hwf _ _ _ Hp) as E. simpl in E. by rewrite <-E.
    + apply IH in Hl as (more & ? & ? & ?). exists more. split_and!; [done|by constructor|done].
  - apply IH in Hl as (more & ? & ? & ?). exists more. split_and!; [done|by constructor|done].
Qed.

Lemma sublist_sorted {A} (R : relation A) l k : l `sublist_of` k → StronglySorted R k → StronglySorted R l.
Proof.
  induction 1 as [|x l k Hlk IH|x l k Hlk IH]; inversion 1 as [|? ? Hk Hx]; subst; [constructor|..|auto].
  constructor; [auto|]. rewrite Forall_forall in Hx |- *. intros y Hy. apply Hx.
  by eapply elem_of_sublist.
Qed.

(** ** The invariant *)

(** [seen] are the certificates of the genesis and those received, [committed] those of the genesis and
    those output. *)
Record safe s (seen committed : list Certificate) : Prop := {
  safe_wf : dag_wf gc (dag s);
  safe_seen r n e : dag_at (dag s) r n = Some e → e.2 ∈ seen;
  safe_committed_seen c : c ∈ committed → c ∈ seen;
  safe_last c : c ∈ committed → ∃ r, last_committed s !! origin c = Some r ∧ cround c ≤ r;
  safe_slot c e : c ∈ committed → dag_at (dag s) (cround c) (origin c) = Some e →
    last_committed s !! origin c = Some (cround c);
  safe_last_in n r : last_committed s !! n = Some r → ∃ x, x ∈ committed ∧ slot x = (r, n);
  safe_lcr : last_committed_round s = max_round (last_committed s);
  safe_nodup : NoDup (slot <$> committed)
}.

Lemma dag_wf_sub d d' :
  (∀ r n e, dag_at d' r n = Some e → dag_at d r n = Some e) → dag_wf gc d → dag_wf gc d'.
Proof. intros Hsub [H1 H2 H3]. split; intros r n e He%Hsub; eauto. Qed.

Lemma safe_committed_lcr s seen committed c : safe s seen committed → c ∈ committed → cround c ≤ last_committed_round s.
Proof.
  intros Hs Hc. destruct (safe_last _ _ _ Hs c Hc) as (r & Hr%max_round_ge & ?).
  rewrite (safe_lcr _ _ _ Hs). lia.
Qed.

Lemma safe_add s seen committed c :
  safe s seen committed → slot c ∉ slot <$> seen → cround c + gc + 2 < two64 →
  safe (add_certificate s c) (c :: seen) committed.
Proof.
  intros [[Hd Hsl Hb] Hseen Hcs Hlast Hslot Hin Hlcr Hnd] Hc Hbound. split; [|..|done|done|done].
  - split; intros r n e [(-> & -> & ->)|[_ ?]]%add_entries; eauto.
  - intros r n e [(-> & -> & ->)|[_ ?]]%add_entries; [by left|]. right. eauto.
  - intros x Hx. right. auto.
  - done.
  - intros x e Hx [(Hr & Ho & _)|[_ ?]]%add_entries; [|by eapply Hslot].
    destruct Hc. apply list_elem_of_fmap. exists x. split; [|auto]. unfold slot. congruence.
Qed.

Lemma safe_update s seen committed c :
  safe s seen committed → c ∈ seen → slot c ∉ slot <$> committed →
  safe (update s c gc) seen (committed ++ [c]).
Proof.
  intros [Hwf Hseen Hcs Hlast Hslot Hin Hlcr Hnd] Hc Hnew.
  assert (Hlast' : ∀ x, x ∈ committed ++ [c] →
    ∃ r, last_committed (update s c gc) !! origin x = Some r ∧ cround x ≤ r).
  { intros x Hx. rewrite update_last_committed. apply elem_of_app in Hx as [Hx| ->%list_elem_of_singleton].
    - destruct (Hlast x Hx) as (r & -> & ?). case_decide; eexists; (split; [done|]); lia.
    - rewrite decide_True by done. eexists; split; [done|].
      destruct (last_committed s !! origin c); lia. }
  split; [| | |done| | | |].
  - eapply dag_wf_sub; [|done]. by intros r n e [? _]%update_entries.
  - intros r n e [? _]%update_entries. eauto.
  - intros x [?| ->%list_elem_of_singleton]%elem_of_app; auto.
  - intros x e Hx (_ & Hle & _)%update_entries. destruct (Hlast' x Hx) as (r & Hr & ?).
    rewrite Hr. f_equal. specialize (Hle r Hr). lia.
  - intros n r. rewrite update_last_committed.
    assert (Hold : last_committed s !! n = Some r → ∃ x, x ∈ committed ++ [c] ∧ slot x = (r, n)).
    { intros (x & ? & ?)%Hin. exists x. split; [set_solver|done]. }
    assert (Hthis : n = origin c → r = cround c → ∃ x, x ∈ committed ++ [c] ∧ slot x = (r, n)).
    { intros -> ->. exists c. split; [set_solver|done]. }
    case_decide; [|done]. destruct (last_committed s !! n) as [r'|]; intros [= E]; [|by apply Hthis].
    destruct (N.max_spec r' (cround c)) as [[_ E']|[_ E']]; [apply Hthis; [done|lia]|apply Hold; f_equal; lia].
  - done.
  - rewrite fmap_app. apply NoDup_app_intro; [done|apply NoDup_singleton|].
    intros k Hk ->%list_elem_of_singleton. done.
Qed.

(** ** Committing *)

Lemma commit_sub_dag_safe xs s seen committed s' sequence :
  safe s seen committed → (∀ x, x ∈ xs → x ∈ seen) → NoDup (slot <$> xs) →
  (∀ x, x ∈ xs → slot x ∉ slot <$> committed) →
  commit_sub_dag committee gc s xs = Ret (s', sequence) →
  sequence.*1 = xs ∧ safe s' seen (committed ++ xs) ∧
  last_committed_round s' = foldl N.max (last_committed_round s) (cround <$> xs).
Proof.
  revert s committed sequence. induction xs as [|x xs IH]; intros s committed sequence Hs Hseen Hnd Hnew; simpl.
  { intros [= <- <-]. by rewrite app_nil_r. }
  rewrite outcome_bind_ret. intros (b & _ & Hb). apply outcome_bind_ret in Hb as ([s1 seq1] & Hrun & [= <- <-]).
  csimpl in *. apply NoDup_cons in Hnd as [Hx Hnd].
  assert (Hs' := safe_update _ _ _ x Hs (Hseen x ltac:(by left)) (Hnew x ltac:(by left))).
  apply (IH _ (committed ++ [x])) in Hrun as (<- & ? & Hlcr); [|done|intros; apply Hseen; by right|done|].
  - split_and!; [done|by rewrite cons_middle, app_assoc|].
    rewrite Hlcr, (update_lcr s x) by apply Hs. done.
  - intros y Hy. rewrite fmap_app, not_elem_of_app. split; [apply Hnew; by right|].
    intros E%list_elem_of_singleton. apply Hx. rewrite <-E. by apply list_elem_of_fmap_2.
Qed.

Lemma foldl_max_between (l : list N) a b : a ≤ b → b ∈ l → (∀ r : N, r ∈ l → r ≤ b) → foldl N.max a l = b.
Proof.
  intros Ha Hb Hl. assert (Hge : ∀ l a, a ≤ foldl N.max a l ∧ ∀ r : N, r ∈ l → r ≤ foldl N.max a l).
  { clear. induction l as [|k l IH]; intros a; simpl; [split; [done|set_solver]|].
    destruct (IH (N.max a k)) as [H1 H2]. split; [lia|]. intros r [->|?]%elem_of_cons; [lia|auto]. }
  apply N.le_antisymm; [|by apply Hge]. clear Hb Hge. revert a Ha.
  induction l as [|k l IH]; intros a Ha; simpl; [done|].
  assert (k ≤ b) by (apply Hl; left). apply IH; [intros; apply Hl; by right|lia].
Qed.

(** The sub-DAG of a leader above the last committed round: seen, in distinct slots not committed yet. *)
Lemma order_dag_fresh s seen committed L :
  safe s seen committed → L ∈ seen → last_committed_round s < cround L → cround L + gc + 2 < two64 →
  ∃ xs, order_dag gc L s = Some xs ∧ L ∈ xs ∧ (∀ x, x ∈ xs → x ∈ seen) ∧ NoDup (slot <$> xs) ∧
    (∀ x, x ∈ xs → slot x ∉ slot <$> committed) ∧ (∀ x, x ∈ xs → cround x ≤ cround L).
Proof.
  intros Hs HL Hlt Hb. pose proof (safe_wf _ _ _ Hs) as Hwf.
  destruct (order_dag_result gc s Hwf L ltac:(lia) gc) as (pushed & xs & E & Hp & _ & Hnd & Hreach & _).
  exists xs. split; [done|].
  assert (Hin : ∀ x, x ∈ xs → x = L ∨ tc (edge s) L x).
  { intros x Hx. rewrite Hp in Hx. apply list_elem_of_filter in Hx as [_ Hx].
    apply elem_of_cons in Hx as [->|Hx]; auto. }
  assert (Hr : ∀ x, tc (edge s) L x → _) by (intros x; apply (reached_entry gc s Hwf L ltac:(lia) x)).
  split_and!.
  - rewrite Hp. apply list_elem_of_filter. split; [|by left]. rewrite u64_add_small; lia.
  - intros x [->|(Hx & _)%Hr]%Hin; [done|]. by apply (safe_seen _ _ _ Hs) in Hx.
  - rewrite Hp. eapply sublist_NoDup; [exact Hnd|]. apply fmap_sublist, sublist_filter.
  - intros x Hx (c & Hsl & Hcc)%list_elem_of_fmap. injection Hsl as Er Eo.
    destruct (Hin x Hx) as [->|(Hd & Hl & _)%Hr].
    + apply (safe_committed_lcr s seen) in Hcc; [|done]. lia.
    + apply Hl. rewrite Er, Eo in *. by eapply (safe_slot _ _ _ Hs).
  - intros x [->|(_ & _ & ?)%Hr]%Hin; [done|lia].
Qed.

(** Committing the sub-DAG of a leader above the last committed round. *)
Lemma commit_leader_safe s seen committed L xs s' sequence :
  safe s seen committed → L ∈ seen → last_committed_round s < cround L → cround L + gc + 2 < two64 →
  order_dag gc L s = Some xs → commit_sub_dag committee gc s xs = Ret (s', sequence) →
  sequence.*1 = xs ∧ safe s' seen (committed ++ xs) ∧ last_committed_round s' = cround L.
Proof.
  intros Hs HL Hlt Hb Hxs Hc.
  destruct (order_dag_fresh s seen committed L) as (xs' & E & HLx & Hseen & Hnd & Hnew & Hle); [done..|].
  simplify_eq. apply (commit_sub_dag_safe _ _ seen committed) in Hc as (? & ? & ->); [|done..].
  split_and!; [done..|]. apply foldl_max_between; [lia|by apply list_elem_of_fmap_2|].
  intros ? (x & -> & Hx)%list_elem_of_fmap. auto.
Qed.

Lemma commit_leaders_safe leaders s seen committed s' sequence :
  safe s seen committed → (∀ L, L ∈ leaders → L ∈ seen ∧ cround L + gc + 2 < two64) →
  StronglySorted (<) (last_committed_round s :: (cround <$> leaders)) →
  commit_leaders committee gc s leaders = Ret (s', sequence) →
  safe s' seen (committed ++ sequence.*1) ∧
  last_committed_round s' = foldl (λ _ L, cround L) (last_committed_round s) leaders.
Proof.
  revert s committed sequence. induction leaders as [|L leaders IH]; intros s committed sequence Hs HL Hsort; simpl.
  { intros [= <- <-]. csimpl. by rewrite app_nil_r. }
  rewrite outcome_bind_ret. intros (xs & Hxs & Hrest).
  destruct (order_dag gc L s) as [xs'|] eqn:Ho; [|done]. injection Hxs as ->.
  apply outcome_bind_ret in Hrest as ([s1 seq1] & H1 & Hrest). apply outcome_bind_ret in Hrest as ([s2 seq2] & H2 & [= <- <-]).
  csimpl in *. apply StronglySorted_inv in Hsort as [Hsort Hall]. apply Forall_cons in Hall as [Hlt _].
  destruct (HL L) as [? ?]; [by left|].
  destruct (commit_leader_safe _ _ _ _ _ _ _ Hs ltac:(done) Hlt ltac:(done) Ho H1) as (<- & Hs1 & Hr1).
  apply (IH _ (committed ++ seq1.*1)) in H2 as [Hs2 Hr2]; [|done| |by rewrite Hr1].
  2: { intros L' HL'. apply HL. by right. }
  rewrite fmap_app, app_assoc. split; [done|]. by rewrite Hr2, Hr1.
Qed.

(** ** The run *)

(** A leader with support is an entry of the DAG above the last committed round. *)
Lemma supported_leader_Ret s round L :
  dag_wf gc (dag s) → supported_leader committee env s round = Ret (Some L) →
  last_committed_round s < cround L ∧ 2 ≤ cround L ∧ dag_at (dag s) (cround L) (origin L) = Some (digest L, L).
Proof.
  intros Hwf. unfold supported_leader. destruct (_ || _) eqn:Hr4; [done|].
  apply orb_false_elim in Hr4 as [_ Hr4%N.ltb_ge].
  destruct (N.leb_spec (u64_sub (u64_sub round 1) 2) (last_committed_round s)); [done|].
  rewrite outcome_bind_ret. intros (selected & _ & E). destruct (negb selected); [done|]. revert E.
  rewrite outcome_bind_ret. intros (l & (key & _ & ->)%leader_Ret & Hl).
  destruct (dag_at _ _ _) as [[dg L']|] eqn:Hd; [|done].
  apply outcome_bind_ret in Hl as (a & _ & Hl). destruct (_ <? _); simplify_eq.
  pose proof (wf_slot _ _ Hwf _ _ _ Hd) as [= Hr Ho]. pose proof (wf_digest _ _ Hwf _ _ _ Hd) as E.
  simpl in *. subst dg key. rewrite Hr. split_and!; [done| |done].
  pose proof (u64_sub_lt round 1). rewrite u64_sub_small; lia.
Qed.

Lemma StronglySorted_reverse {A} (R : relation A) l :
  StronglySorted R l → StronglySorted (flip R) (reverse l).
Proof.
  induction 1 as [|a l _ IH Hl]; [constructor|]. rewrite reverse_cons. apply StronglySorted_app_2; [|done|by repeat constructor].
  intros y z Hy ->%list_elem_of_singleton. rewrite elem_of_reverse in Hy. rewrite Forall_forall in Hl. by apply Hl.
Qed.

(** The leaders committed on a certificate, in the order in which they are committed. *)
Lemma order_leaders_sorted s L leaders :
  dag_wf gc (dag s) → last_committed_round s < cround L → 2 ≤ cround L →
  dag_at (dag s) (cround L) (origin L) = Some (digest L, L) →
  order_leaders committee L s = Ret leaders →
  StronglySorted (<) (last_committed_round s :: (cround <$> reverse leaders)) ∧
  ∀ x, x ∈ leaders → ∃ r n, dag_at (dag s) r n = Some (digest x, x).
Proof.
  intros Hwf Hlt H2 HL Ho. unfold order_leaders in Ho.
  apply order_leaders_loop_Ret in Ho as (more & -> & Hsub & Hmore); [|done].
  pose proof (wf_bound _ _ Hwf _ _ _ HL) as Hb.
  assert (Hm : ∀ r, r ∈ cround <$> more → last_committed_round s < r ∧ r < cround L).
  { intros r Hr. eapply elem_of_sublist in Hsub; [|done]. apply elem_of_rev_step_by_2 in Hsub as [H1 Hr2].
    rewrite u64_add_small in H1 by lia. rewrite u64_sub_small in Hr2 by lia. lia. }
  assert (Hs2 : StronglySorted (λ a b, b < a) (cround L :: (cround <$> more))).
  { constructor; [|apply Forall_forall; intros r Hr; by apply Hm].
    eapply sublist_sorted; [exact Hsub|apply rev_step_by_2_sorted]. }
  split.
  - constructor.
    + rewrite fmap_reverse. apply (StronglySorted_reverse _ _ Hs2).
    + apply Forall_forall. intros r Hr. rewrite fmap_reverse, elem_of_reverse in Hr. csimpl in Hr.
      apply elem_of_cons in Hr as [->|Hr]; [done|by apply Hm].
  - intros x [->|Hx]%elem_of_cons; [eauto|by apply Hmore].
Qed.

Lemma foldl_last_ge leaders a : StronglySorted (<) (a :: (cround <$> leaders)) → a ≤ foldl (λ _ L, cround L) a leaders.
Proof.
  revert a. induction leaders as [|L leaders IH]; intros a; csimpl; [done|].
  intros [Hs [Ha _]%Forall_cons]%StronglySorted_inv. apply IH in Hs. lia.
Qed.

Lemma process_certificate_safe s seen committed c s' sequence :
  safe s seen committed → slot c ∉ slot <$> seen → cround c + gc + 2 < two64 →
  process_certificate committee gc env s c = Ret (s', sequence) →
  safe s' (c :: seen) (committed ++ sequence.*1) ∧ last_committed_round s ≤ last_committed_round s'.
Proof.
  intros Hs Hc Hb. apply (safe_add _ _ _ c) in Hs; [|done..]. unfold process_certificate.
  change (last_committed_round s) with (last_committed_round (add_certificate s c)).
  generalize dependent (add_certificate s c). clear s. intros s Hs. pose proof (safe_wf _ _ _ Hs) as Hwf.
  rewrite outcome_bind_ret. intros ([L|] & HL & Hp); [|injection Hp as <- <-; csimpl; by rewrite app_nil_r].
  apply supported_leader_Ret in HL as (Hlt & H2 & HL); [|done].
  apply outcome_bind_ret in Hp as (leaders & Hl & Hp).
  apply order_leaders_sorted in Hl as [Hsort Hmem]; [|done..].
  apply (commit_leaders_safe _ _ (c :: seen) committed) in Hp as [Hs' ->]; [|done| |done].
  - split; [done|]. by apply foldl_last_ge.
  - intros x Hx. rewrite elem_of_reverse in Hx. destruct (Hmem x Hx) as (r & n & Hd).
    split; [by apply (safe_seen _ _ _ Hs) in Hd|].
    pose proof (wf_slot _ _ Hwf _ _ _ Hd) as [= E _]. rewrite E. by eapply (wf_bound _ _ Hwf).
Qed.

Lemma run_safe cs s seen committed s' sequence :
  safe s seen committed → NoDup (slot <$> cs) → (∀ c, c ∈ cs → slot c ∉ slot <$> seen ∧ cround c + gc + 2 < two64) →
  run committee gc env s cs = Ret (s', sequence) →
  safe s' (reverse cs ++ seen) (committed ++ sequence.*1) ∧ last_committed_round s ≤ last_committed_round s'.
Proof.
  revert s seen committed sequence. induction cs as [|c cs IH]; intros s seen committed sequence Hs Hnd Hcs; simpl.
  { intros [= <- <-]. csimpl. by rewrite app_nil_r. }
  rewrite outcome_bind_ret. intros ([s1 seq1] & H1 & Hrest).
  apply outcome_bind_ret in Hrest as ([s2 seq2] & H2 & [= <- <-]).
  destruct (Hcs c) as [Hc Hb]; [by left|]. csimpl in Hnd. apply NoDup_cons in Hnd as [Hn Hnd].
  destruct (process_certificate_safe _ _ _ _ _ _ Hs Hc Hb H1) as [Hs1 Hle].
  apply (IH _ (c :: seen) (committed ++ seq1.*1)) in H2 as [Hs2 Hle2]; [|done..|].
  - rewrite fmap_app, app_assoc, reverse_cons, <-app_assoc. split; [done|lia].
  - intros x Hx. split; [|by apply Hcs; right]. csimpl. rewrite not_elem_of_cons. split; [|by apply Hcs; right].
    intros E. apply Hn. rewrite <-E. by apply list_elem_of_fmap_2.
Qed.

(** ** The initial state *)

Lemma genesis_round c : c ∈ genesis committee → cround c = 0.
Proof. by intros (k & _ & ->)%elem_of_genesis. Qed.

Lemma NoDup_genesis : NoDup (origin <$> genesis committee).
Proof.
  unfold genesis. rewrite <-list_fmap_compose. rewrite (list_fmap_ext _ id), list_fmap_id; [|done].
  apply NoDup_btree_keys.
Qed.

Lemma genesis_map n e :
  (list_to_map (reverse ((λ x, (origin x, (digest x, x))) <$> genesis committee))
    : gmap PublicKey (Digest * Certificate)) !! n = Some e ↔
  ∃ g, g ∈ genesis committee ∧ n = origin g ∧ e = (digest g, g).
Proof.
  rewrite <-elem_of_list_to_map.
  - rewrite elem_of_reverse, list_elem_of_fmap. naive_solver.
  - rewrite fmap_reverse. rewrite reverse_Permutation, <-list_fmap_compose. apply NoDup_genesis.
Qed.

Lemma State_new_entries r n e :
  dag_at (dag (State_new (genesis committee))) r n = Some e ↔
    r = 0 ∧ ∃ g, g ∈ genesis committee ∧ n = origin g ∧ e = (digest g, g).
Proof.
  unfold State_new; cbn [dag]. rewrite <-genesis_map. unfold dag_at. destruct (decide (r = 0)) as [->|Hr].
  - rewrite lookup_singleton_eq. naive_solver.
  - rewrite lookup_singleton_ne by done. naive_solver.
Qed.

Lemma State_new_safe : gc + 2 < two64 →
  safe (State_new (genesis committee)) (genesis committee) (genesis committee).
Proof.
  intros Hgc.
  assert (Hl : ∀ n r, last_committed (State_new (genesis committee)) !! n = Some r ↔
    r = 0 ∧ ∃ g, g ∈ genesis committee ∧ n = origin g).
  { intros n r. unfold State_new; cbn [last_committed]. rewrite lookup_fmap, fmap_Some.
    setoid_rewrite genesis_map. split.
    - intros (e & (g & Hg & -> & ->) & ->). pose proof (genesis_round g Hg). simpl. eauto.
    - intros (-> & g & Hg & ->). eexists. split; [by eexists|]. by rewrite <-(genesis_round g Hg). }
  split.
  - split; intros r n e (-> & g & Hg & -> & ->)%State_new_entries; [done| |done].
    unfold slot; simpl. by rewrite (genesis_round g Hg).
  - by intros r n e (-> & g & Hg & -> & ->)%State_new_entries.
  - done.
  - intros c Hc. exists 0. rewrite (genesis_round c Hc). split; [|done]. apply Hl. eauto.
  - intros c e Hc _. rewrite (genesis_round c Hc). apply Hl. eauto.
  - intros n r (-> & g & Hg & ->)%Hl. exists g. split; [done|]. unfold slot. by rewrite (genesis_round g Hg).
  - symmetry. apply N.le_antisymm; [|apply N.le_0_l]. apply max_round_le. by intros n r [-> _]%Hl.
  - unfold slot. apply (NoDup_fmap_1 snd). rewrite <-list_fmap_compose. apply NoDup_genesis.
Qed.
End safety.

Section feed.
Context `{!Sha512}.
Variables (committee : Committee) (gc : Round) (env : Environment) (cs : list Certificate).
Variables (s : State) (sequence : list (Certificate * bool)).
Hypothesis Hnd : NoDup (slot <$> cs).
Hypothesis Hcs : ∀ c, c ∈ cs → 0 < cround c ∧ cround c + gc + 2 < two64.
Hypothesis Hgc : gc + 2 < two64.
Hypothesis Hrun : run committee gc env (State_new (genesis committee)) cs = Ret (s, sequence).

Notation seen := (genesis committee ++ cs).
Notation committed := (genesis committee ++ sequence.*1).

Lemma feed_not_genesis c : c ∈ cs → slot c ∉ slot <$> genesis committee.
Proof.
  intros [Hpos _]%Hcs (g & E & Hg)%list_elem_of_fmap. apply genesis_round in Hg. injection E as E _. lia.
Qed.

Lemma feed_slots : NoDup (slot <$> seen).
Proof.
  rewrite fmap_app. apply NoDup_app_intro; [apply (safe_nodup _ _ _ _ (State_new_safe committee gc Hgc))|done|].
  intros k Hg (c & -> & Hc)%list_elem_of_fmap. by destruct (feed_not_genesis c).
Qed.

Lemma feed_seen c : c ∈ reverse cs ++ genesis committee ↔ c ∈ seen.
Proof. rewrite !elem_of_app, elem_of_reverse. tauto. Qed.

Lemma feed_safe : safe gc s (reverse cs ++ genesis committee) committed.
Proof.
  apply (run_safe _ _ _ _ _ _ _ _ _ (State_new_safe committee gc Hgc) Hnd) in Hrun; [apply Hrun|].
  intros c Hc. split; [by apply feed_not_genesis|by apply Hcs].
Qed.

(** What is output was received, and is output once per slot. *)
Lemma run_outputs : NoDup (slot <$> sequence.*1) ∧ ∀ c, c ∈ sequence.*1 → c ∈ cs.
Proof.
  pose proof (safe_nodup _ _ _ _ feed_safe) as Hnd'. rewrite fmap_app in Hnd'.
  apply NoDup_app in Hnd' as (_ & Hdisj & ?). split; [done|]. intros c Hc.
  assert (Hseen : c ∈ seen) by (apply feed_seen, (safe_committed_seen _ _ _ _ feed_safe); set_solver).
  apply elem_of_app in Hseen as [Hg|]; [|done]. destruct (Hdisj (slot c)); by apply list_elem_of_fmap_2.
Qed.

(** The search goes from a certificate to its parents in the DAG that are not committed. *)
Lemma feed_edge x y : cround x < two64 → (∀ a b, a ∈ seen → b ∈ seen → digest a = digest b → a = b) →
  edge s x y ↔ uncommitted_parent s committed x y.
Proof.
  intros Hx Hinj. pose proof feed_safe as Hs. pose proof (safe_wf _ _ _ _ Hs) as Hwf. unfold uncommitted_parent. split.
  - intros He. pose proof (edge_round gc s Hwf x y Hx He). destruct (edge_target gc s Hwf x y He) as [Hd Hl].
    destruct He as (p & Hp & Hv). pose proof (edge_via_digest gc s Hwf _ _ _ Hv) as <-. split_and!; [done..|].
    intros Hc. by destruct Hl; eapply (safe_slot _ _ _ _ Hs).
  - intros (Hp & Hr & Hd & Hc). exists (digest y). split; [done|].
    destruct (find_parent_is_Some (dag s) x (digest y) (origin y) y) as [[d z] Hz].
    { rewrite u64_sub_small by lia. by replace (cround x - 1) with (cround y) by lia. }
    pose proof (find_parent_Some _ _ _ _ Hz) as [E (n & Hn)]. simpl in E. subst d.
    pose proof (wf_digest _ _ Hwf _ _ _ Hn) as E. simpl in E.
    assert (z = y) as ->.
    { apply Hinj; [apply feed_seen; by apply (safe_seen _ _ _ _ Hs) in Hn|
        apply feed_seen; by apply (safe_seen _ _ _ _ Hs) in Hd|done]. }
    split; [done|]. intros (w & Hw & Ew)%(safe_last_in _ _ _ _ Hs). destruct Hc.
    assert (w = y) as <-; [|done].
    apply (NoDup_fmap_inj_elem slot seen); [apply feed_slots|by apply feed_seen, (safe_committed_seen _ _ _ _ Hs)| |done].
    apply feed_seen. by apply (safe_seen _ _ _ _ Hs) in Hd.
Qed.

Lemma feed_reach L x : cround L < two64 → (∀ a b, a ∈ seen → b ∈ seen → digest a = digest b → a = b) →
  rtc (edge s) L x ↔ rtc (uncommitted_parent s committed) L x.
Proof.
  intros HL Hinj. split; intros Hr; revert HL.
  - induction Hr as [|L y x He _ IH]; intros HL; [done|]. pose proof He as He'. apply feed_edge in He'; [|done..].
    apply rtc_l with y; [done|]. apply IH. destruct He' as (_ & ? & _). lia.
  - induction Hr as [|L y x He _ IH]; intros HL; [done|]. pose proof He as (_ & ? & _).
    apply rtc_l with y; [by apply feed_edge|]. apply IH. lia.
Qed.
End feed.

(** The search, on any state whose DAG is in order. *)
Lemma order_dag_reaches `{!Sha512} gc s L :
  dag_wf gc (dag s) → cround L < two64 →
  (∀ r n r' n' e e', dag_at (dag s) r n = Some e → dag_at (dag s) r' n' = Some e' → e.1 = e'.1 → e = e') →
  ∃ xs, order_dag gc L s = Some xs ∧
    (∀ x, x ∈ xs ↔ rtc (edge s) L x ∧ last_committed_round s ≤ u64_add (cround x) gc) ∧
    NoDup (slot <$> xs) ∧ StronglySorted (λ a b, cround a ≤ cround b) xs.
Proof.
  intros Hwf HL Hinj.
  destruct (order_dag_result gc s Hwf L HL gc) as (pushed & xs & Hxs & Hp & Hsort & Hnd & Hreach & Hsucc).
  exists xs. split_and!; [done| | |done].
  - intros x. rewrite Hp, list_elem_of_filter, elem_of_cons.
    assert (Hiff : x = L ∨ x ∈ pushed ↔ rtc (edge s) L x); [|tauto]. split.
    + intros [->|Hx]; [done|]. by apply tc_rtc, Hreach.
    + intros [->|Hx]%rtc_tc; [by left|]. right. by eapply (order_dag_complete gc).
  - rewrite Hp. eapply sublist_NoDup; [exact Hnd|]. apply fmap_sublist, sublist_filter.
Qed.

(** ** Properties *)

(** C10: No certificate is committed twice: whatever the feed, as long as the certificates in it are for
    distinct slots (round, author) of rounds above 0, that of the genesis, and some way below 2^64, every slot is
    output at most once, and only certificates that were received are output. *)
Theorem commit_once `{!Sha512} committee gc env cs s sequence :
  NoDup (slot <$> cs) → (∀ c, c ∈ cs → 0 < cround c ∧ cround c + gc + 2 < two64) → gc + 2 < two64 →
  run committee gc env (State_new (genesis committee)) cs = Ret (s, sequence) →
  NoDup (slot <$> sequence.*1) ∧ ∀ c, c ∈ sequence.*1 → c ∈ cs.
Proof. intros Hnd Hcs Hgc Hrun. by apply (run_outputs committee gc env cs s). Qed.

(** The last committed round never decreases, on any such feed. *)
Theorem last_committed_round_monotone `{!Sha512} committee gc env cs cs' s1 sequence1 s2 sequence2 :
  NoDup (slot <$> cs ++ cs') → (∀ c, c ∈ cs ++ cs' → 0 < cround c ∧ cround c + gc + 2 < two64) → gc + 2 < two64 →
  run committee gc env (State_new (genesis committee)) cs = Ret (s1, sequence1) →
  run committee gc env s1 cs' = Ret (s2, sequence2) →
  last_committed_round s1 ≤ last_committed_round s2.
Proof.
  intros Hnd Hcs Hgc H1 H2. pose proof (State_new_safe committee gc Hgc) as Hs.
  rewrite fmap_app in Hnd. apply NoDup_app in Hnd as (Hnd1 & Hdisj & Hnd2).
  assert (Hg : ∀ c, 0 < cround c → slot c ∉ slot <$> genesis committee).
  { intros c Hc (g & E & Hg)%list_elem_of_fmap. apply genesis_round in Hg. injection E as E _. lia. }
  apply (run_safe _ _ _ _ _ _ _ _ _ Hs Hnd1) in H1 as [Hs1 _].
  2: { intros c Hc. destruct (Hcs c) as [??]; [set_solver|]. auto. }
  apply (run_safe _ _ _ _ _ _ _ _ _ Hs1 Hnd2) in H2 as [_ ?]; [done|].
  intros c Hc. destruct (Hcs c) as [??]; [set_solver|]. split; [|done].
  rewrite fmap_app, not_elem_of_app, fmap_reverse, elem_of_reverse. split; [|auto].
  intros Hin. apply (Hdisj (slot c)); [done|]. by apply list_elem_of_fmap_2.
Qed.

(** C12: In the state that the task reaches on any feed of certificates for distinct slots of rounds above 0 and
    some way below 2^64, with digests that tell them and the genesis apart, [order_dag] returns for every
    certificate received, and returns exactly the certificates within the depth of the garbage collector that are
    reached from it (it is one of them) through parents that are in the DAG, not of the genesis and not output
    before, each slot once and in the order of the rounds: a parent comes before its children. *)
Theorem order_dag_spec `{!Sha512} committee gc env cs s sequence L :
  NoDup (slot <$> cs) → (∀ c, c ∈ cs → 0 < cround c ∧ cround c + gc + 2 < two64) → gc + 2 < two64 →
  (∀ x y, x ∈ genesis committee ++ cs → y ∈ genesis committee ++ cs → digest x = digest y → x = y) →
  run committee gc env (State_new (genesis committee)) cs = Ret (s, sequence) → L ∈ cs →
  ∃ xs, order_dag gc L s = Some xs ∧
    (∀ x, x ∈ xs ↔ rtc (uncommitted_parent s (genesis committee ++ sequence.*1)) L x ∧
      last_committed_round s ≤ cround x + gc) ∧
    NoDup (slot <$> xs) ∧ StronglySorted (λ a b, cround a ≤ cround b) xs.
Proof.
  intros Hnd Hcs Hgc Hinj Hrun HL. pose proof (feed_safe committee gc env cs s sequence Hnd Hcs Hgc Hrun) as Hs.
  pose proof (safe_wf _ _ _ _ Hs) as Hwf. destruct (Hcs L HL) as [_ Hb]. assert (HL64 : cround L < two64) by lia.
  destruct (order_dag_reaches gc s L Hwf HL64) as (xs & E & Hxs & ? & ?).
  { intros r n r' n' e e' He He' Ed. pose proof (wf_digest _ _ Hwf _ _ _ He). pose proof (wf_digest _ _ Hwf _ _ _ He').
    apply (safe_seen _ _ _ _ Hs), feed_seen in He, He'. destruct e, e'; simpl in *. f_equal; [done|].
    apply Hinj; [done..|congruence]. }
  exists xs. split_and!; [done| |done..]. intros x. rewrite Hxs, (feed_reach committee gc env cs s sequence) by done.
  assert (Hx : rtc (uncommitted_parent s (genesis committee ++ sequence.*1)) L x → cround x ≤ cround L).
  { clear. induction 1 as [|L y x (_ & ? & _) _ IH]; [done|]. lia. }
  split; intros [Hr Hl]; (split; [done|]); specialize (Hx Hr); [rewrite u64_add_small in Hl; lia|].
  rewrite u64_add_small; lia.
Qed.

(** [State::update] raises the committed round of the author to the round of the certificate, takes
    the largest as the last committed round, and keeps exactly the entries of the DAG that are not older
    than the committed round of their author nor than the depth of the garbage collector. *)
Theorem update_spec `{!Sha512} s c gc :
  last_committed_round s = max_round (last_committed s) →
  (∀ n, last_committed (update s c gc) !! n =
    if decide (n = origin c) then Some (N.max (default 0 (last_committed s !! n)) (cround c))
    else last_committed s !! n) ∧
  last_committed_round (update s c gc) = N.max (last_committed_round s) (cround c) ∧
  ∀ r n e, dag_at (dag (update s c gc)) r n = Some e ↔
    dag_at (dag s) r n = Some e ∧ default 0 (last_committed (update s c gc) !! n) ≤ r ∧
    last_committed_round (update s c gc) ≤ u64_add r gc.
Proof.
  intros Hl. split_and!.
  - intros n. rewrite update_last_committed. case_decide; [|done]. f_equal.
    destruct (last_committed s !! n); simpl; lia.
  - by apply update_lcr.
  - intros r n e. rewrite update_entries. destruct (last_committed (update s c gc) !! n) as [r'|]; simpl.
    + naive_solver.
    + split; [|naive_solver]. intros (? & _ & ?). split_and!; [done|apply N.le_0_l|done].
Qed.

Section witnesses.
Import Toy SampleDag.

Lemma commit_once_witness :
  length (outputs feed) = 21%nat ∧ NoDup (slot <$> outputs feed) ∧ ∀ c, c ∈ outputs feed → c ∈ feed.
Proof.
  split; [vm_compute; reflexivity|]. unfold outputs.
  apply (commit_once Sample.committee 50 no_variables feed (final start feed).1 (final start feed).2).
  - apply (bool_decide_unpack _). vm_compute. exact I.
  - apply Forall_forall. apply (bool_decide_unpack _). vm_compute. exact I.
  - vm_compute. reflexivity.
  - apply final_run. vm_compute. reflexivity.
Defined.

(** The DAG of four and of five full rounds. *)
Notation four_rounds := (final start (take 16 feed)).1.
Notation five_rounds := (final start (take 20 feed)).1.

Lemma last_committed_round_monotone_witness :
  let s := (final five_rounds (drop 20 feed)).1 in
  last_committed_round five_rounds = 2 ∧ last_committed_round s = 6 ∧
  last_committed_round five_rounds ≤ last_committed_round s.
Proof.
  split; [vm_compute; reflexivity|]. split; [vm_compute; reflexivity|].
  apply (last_committed_round_monotone Sample.committee 50 no_variables (take 20 feed) (drop 20 feed)
    five_rounds (final start (take 20 feed)).2 _ (final five_rounds (drop 20 feed)).2).
  - apply (bool_decide_unpack _). vm_compute. exact I.
  - apply Forall_forall. apply (bool_decide_unpack _). vm_compute. exact I.
  - vm_compute. reflexivity.
  - apply final_run. vm_compute. reflexivity.
  - apply final_run. vm_compute. reflexivity.
Defined.

Lemma order_dag_spec_witness :
  let L := nth 19 feed Certificate_default in
  last_committed_round five_rounds = 2 ∧ cround L = 5 ∧
  ∃ xs, order_dag 50 L five_rounds = Some xs ∧
    (∀ x, x ∈ xs ↔ rtc (uncommitted_parent five_rounds (genesis ++ (final start (take 20 feed)).2.*1)) L x ∧
      last_committed_round five_rounds ≤ cround x + 50) ∧
    NoDup (slot <$> xs) ∧ StronglySorted (λ a b, cround a ≤ cround b) xs.
Proof.
  split; [vm_compute; reflexivity|]. split; [vm_compute; reflexivity|].
  apply (order_dag_spec Sample.committee 50 no_variables (take 20 feed)).
  - apply (bool_decide_unpack _). vm_compute. exact I.
  - apply Forall_forall. apply (bool_decide_unpack _). vm_compute. exact I.
  - vm_compute. reflexivity.
  - intros x y. apply NoDup_fmap_inj_elem. apply (bool_decide_unpack _). vm_compute. exact I.
  - apply final_run. vm_compute. reflexivity.
  - apply (bool_decide_unpack _). vm_compute. exact I.
Defined.

Lemma update_spec_witness :
  let c := nth 15 feed Certificate_default in
  let s := update four_rounds c 50 in
  last_committed_round s = N.max (last_committed_round four_rounds) (cround c) ∧
  last_committed s !! origin c = Some 4.
Proof.
  split; [|vm_compute; reflexivity]. apply (update_spec four_rounds). vm_compute. reflexivity.
Defined.

(** The certificates of the next two theorems. In both, authority 4 has a certificate that the first
    leaders do not reference. *)
Definition late_rounds : list Certificate :=
  let l3 := take 12 feed in
  let l4 := layer [1; 2; 3] 4 (drop 8 l3) in
  let m4 := layer [4] 4 (drop 8 l3) in
  let l5 := layer [1; 2; 3] 5 l4 in
  let m5 := layer [4] 5 (m4 ++ take 2 l4) in
  let l6 := layer [1; 2; 3] 6 l5 in
  let m6 := layer [4] 6 (m5 ++ take 2 l5) in
  let l7 := layer [1; 2; 3] 7 (m6 ++ l6) in
  let l8 := layer [1; 2; 3] 8 l7 in
  let l9 := layer [1; 2; 3] 9 l8 in
  l3 ++ l4 ++ m4 ++ l5 ++ m5 ++ l6 ++ m6 ++ l7 ++ l8 ++ l9 ++ layer [1; 2; 3] 10 l9.

(** The last certificate, of round 11, and the one of authority 1 in round 3. *)
Definition last_one : list Certificate := layer [1] 11 (drop 34 late_rounds).
Definition redelivered : list Certificate := take 1 (drop 8 late_rounds).

(** C14: The clean-up of [State::update] forgets certificates that it relies on to recognise duplicates: a
    certificate of the feed that is delivered a second time, after its author's later rounds were
    committed, is committed a second time, although the feed is in causal order. *)
Theorem redelivered_certificate_committed_twice :
  let cs := late_rounds ++ redelivered ++ last_one in
  causal genesis cs = true ∧
  NoDup (slot <$> late_rounds ++ last_one) ∧ NoDup (slot <$> outputs (late_rounds ++ last_one)) ∧
  ∃ c, redelivered = [c] ∧ length (filter (λ x, slot x = slot c) (outputs cs)) = 2%nat.
Proof.
  cbv zeta. split; [vm_compute; reflexivity|].
  split; [apply (bool_decide_unpack _); vm_compute; exact I|].
  split; [apply (bool_decide_unpack _); vm_compute; exact I|].
  exists (nth 8 late_rounds Certificate_default). split; [reflexivity|vm_compute; reflexivity].
Qed.

Definition rounds_3 : list Certificate := take 12 feed.
Definition rounds_4 : list Certificate := layer [1; 2; 3] 4 (drop 8 rounds_3).
Definition rounds_5 : list Certificate := layer [1; 2; 4] 5 rounds_4.
Definition rounds_6 : list Certificate := layer [2; 3; 4] 6 rounds_5.
Definition rounds_7 : list Certificate := layer [2; 3; 4] 7 rounds_6.
Definition rounds_8 : list Certificate := layer [2; 3; 4] 8 rounds_7.
(** The first certificate of round 9 commits the leader of round 6. *)
Definition trigger : list Certificate := layer [2] 9 rounds_8.
(** The certificates in question: of authority 4 in round 4, of authority 3 in round 5 and, by
    authority 1, those of the rounds 6, 7 and 8 that lead to them. *)
Definition late_4 : list Certificate := layer [4] 4 (drop 8 rounds_3).
Definition late_5 : list Certificate := layer [3] 5 (late_4 ++ take 2 rounds_4).
Definition late_6 : list Certificate := layer [1] 6 (late_5 ++ take 2 rounds_5).
Definition late_7 : list Certificate := layer [1] 7 (late_6 ++ rounds_6).
Definition late_8 : list Certificate := layer [1] 8 (late_7 ++ rounds_7).
Definition rounds_9 : list Certificate := layer [1; 3; 4] 9 (late_8 ++ rounds_8).
Definition rounds_10 : list Certificate := layer [1; 3; 4] 10 rounds_9.
Definition rounds_11 : list Certificate := layer [1] 11 rounds_10.

(** Two nodes receive the same certificates: the first the late ones after the trigger, the second
    every round in turn. *)
Definition feed_1 : list Certificate :=
  rounds_3 ++ rounds_4 ++ rounds_5 ++ rounds_6 ++ rounds_7 ++ rounds_8 ++ trigger ++
  late_4 ++ late_5 ++ late_6 ++ late_7 ++ late_8 ++ rounds_9 ++ rounds_10 ++ rounds_11.
Definition feed_2 : list Certificate :=
  rounds_3 ++ rounds_4 ++ late_4 ++ rounds_5 ++ late_5 ++ rounds_6 ++ late_6 ++ rounds_7 ++ late_7 ++
  rounds_8 ++ late_8 ++ trigger ++ rounds_9 ++ rounds_10 ++ rounds_11.

Lemma feeds_perm : feed_1 ≡ₚ feed_2.
Proof.
  unfold feed_1, feed_2. generalize rounds_3, rounds_4, rounds_5, rounds_6, rounds_7, rounds_8, trigger,
    late_4, late_5, late_6, late_7, late_8, rounds_9, rounds_10, rounds_11. intros. solve_Permutation.
Qed.

(** C13: What is committed depends on the order of delivery: two nodes that receive the same certificates,
    one per slot and each in causal order, commit different sequences. The node that receives a
    certificate after committing a later round of its author finds it in its DAG and commits it; the node
    that received it before has removed it and never commits it. *)
Theorem delivery_order_changes_output :
  feed_1 ≡ₚ feed_2 ∧ NoDup (slot <$> feed_1) ∧
  causal genesis feed_1 = true ∧ causal genesis feed_2 = true ∧
  (∃ c, late_4 = [c] ∧ slot c ∈ slot <$> outputs feed_1 ∧ slot c ∉ slot <$> outputs feed_2) ∧
  length (outputs feed_1) = 29%nat ∧ length (outputs feed_2) = 27%nat.
Proof.
  split; [apply feeds_perm|].
  split; [apply (bool_decide_unpack _); vm_compute; exact I|].
  do 2 (split; [vm_compute; reflexivity|]). split.
  - exists (nth 0 late_4 Certificate_default). split; [reflexivity|].
    split; apply (bool_decide_unpack _); vm_compute; exact I.
  - split; vm_compute; reflexivity.
Qed.
End witnesses.
