(* ===== verification/ConsensusAgreement.v ===== *)
(** Agreement on the leaders: an abstract specification of the consensus on the graph of all certificates
    that exist, and the theorem that every node fed from that graph commits the leaders the specification
    gives. Two nodes then commit the same sequence of leaders, one a prefix of the other. *)

From S2P Require Import Prelude Crypto Config Messages Adversary Consensus ConsensusFacts ConsensusOrder.
From S2P Require Import ConsensusSafety.

(** ** The graph of certificates *)

Notation Slot := (Round * PublicKey)%type.

(** The certificates that exist: at most one per slot, with the digest and the parents given. *)
Record Graph := MkGraph {
  certified : Slot → Prop;
  slot_digest : Slot → Digest;
  slot_parents : Slot → gset Digest
}.

(** [k'] is a parent of [k]. *)
Definition step (G : Graph) (k k' : Slot) : Prop :=
  certified G k' ∧ k'.1 + 1 = k.1 ∧ slot_digest G k' ∈ slot_parents G k.

Notation path G := (rtc (step G)).

(** What the protocol ensures of the graph: digests identify certificates, and every certificate has
    a quorum of parents. *)
Record graph_ok (committee : Committee) (G : Graph) : Prop := {
  graph_digest k k' : certified G k → certified G k' → slot_digest G k = slot_digest G k' → k = k';
  graph_quorum k : certified G k → 0 < k.1 →
    ∃ Q : gset PublicKey, quorum_threshold committee ≤ stake_of committee Q ∧
      ∀ n, n ∈ Q → step G k (k.1 - 1, n)
}.

(** The certificate a node holds for a slot is the one of the graph. *)
Definition certifies `{!Sha512} (G : Graph) (c : Certificate) : Prop :=
  certified G (slot c) ∧ digest c = slot_digest G (slot c) ∧ hd_parents (ct_header c) = slot_parents G (slot c).

(** ** The specification *)

Section spec.
Context (committee : Committee) (G : Graph).
Implicit Types (k l : Slot) (r : Round).

(** A leader is supported when validity-threshold many authorities reference it in the next round. *)
Definition supported l : Prop :=
  ∃ F : gset PublicKey, validity_threshold committee ≤ stake_of committee F ∧
    ∀ n, n ∈ F → certified G (l.1 + 1, n) ∧ step G (l.1 + 1, n) l.

(** The leaders of the rounds of a list, each linked from the previous one that was linked. *)
Inductive chain : list Round → Slot → list Slot → Prop :=
| chain_nil k : chain [] k []
| chain_linked r rs k key ls :
    leader_key committee r = Ret key → path G k (r, key) → chain rs (r, key) ls →
    chain (r :: rs) k ((r, key) :: ls)
| chain_skip r rs k key ls :
    leader_key committee r = Ret key → ¬ path G k (r, key) → chain rs k ls → chain (r :: rs) k ls.

(** The leaders committed, in order, when the last committed round is [r]. *)
Definition history (r : Round) (leaders : list Slot) : Prop :=
  r = 0 ∧ leaders = [] ∨
  ∃ l lower, l.1 = r ∧ 2 ≤ r ∧ r mod 2 = 0 ∧ leader_key committee r = Ret l.2 ∧ certified G l ∧ supported l ∧
    chain (rev_step_by_2 2 (r - 2)) l lower ∧ leaders = reverse (l :: lower).

(** ** Chains *)

Lemma chain_det rs k ls ls' : chain rs k ls → chain rs k ls' → ls = ls'.
Proof.
  intros Hc. revert ls'.
  induction Hc as [|r rs k key ls Hk Hp _ IH|r rs k key ls Hk Hp _ IH]; intros ls' Hc'; inversion Hc'; subst; same_ret;
    first [done|contradiction|f_equal; by auto|by auto].
Qed.

(** The last of a list of slots. *)
Definition last_slot k (ls : list Slot) : Slot := foldl (λ _ l, l) k ls.

Lemma chain_app rs rs' k ls :
  chain (rs ++ rs') k ls ↔ ∃ ls1 ls2, ls = ls1 ++ ls2 ∧ chain rs k ls1 ∧ chain rs' (last_slot k ls1) ls2.
Proof.
  revert k ls. induction rs as [|r rs IH]; intros k ls; simpl; split.
  - intros Hc. exists [], ls. split_and!; [done|constructor|done].
  - intros (ls1 & ls2 & -> & Hc & ?). by inversion Hc; subst.
  - inversion 1; subst; match goal with H : chain (_ ++ _) _ _ |- _ => apply IH in H as (ls1 & ls2 & -> & ? & ?) end.
    + exists ((r, key) :: ls1), ls2. split_and!; [done|by constructor|done].
    + exists ls1, ls2. split_and!; [done|by econstructor|done].
  - intros (ls1 & ls2 & -> & Hc & Hl). inversion Hc; subst; simpl.
    + constructor; [done..|]. apply IH. eauto.
    + eapply chain_skip; [done..|]. apply IH. eauto.
Qed.

Lemma path_round k l : path G k l → l.1 ≤ k.1.
Proof.
  induction 1 as [|k k' l (_ & E & _) _ IH]; [done|].
  lia.
Qed.

Lemma path_certified k l : certified G k → path G k l → certified G l.
Proof. intros Hk. induction 1 as [|k k' l (? & _) _ IH]; auto. Qed.

Lemma chain_rounds rs k ls l : chain rs k ls → certified G k → l ∈ ls → l.1 ∈ rs ∧ certified G l.
Proof.
  induction 1 as [|r rs k key ls Hk Hp _ IH|r rs k key ls Hk Hp _ IH]; intros Hc Hl; [set_solver|..].
  - assert (certified G (r, key)) by (by eapply path_certified).
    apply elem_of_cons in Hl as [->|Hl]; [split; [left|done]|]. destruct IH; [done..|]. by split; [right|].
  - destruct IH; [done..|]. by split; [right|].
Qed.

Lemma last_slot_in k ls : last_slot k ls = k ∨ last_slot k ls ∈ ls.
Proof.
  revert k. induction ls as [|l ls IH]; intros k; simpl; [by left|].
  right. destruct (IH l) as [->|?]; [left|by right].
Qed.

(** ** Supported leaders are linked from everything above *)

Hypothesis Hsmall : small_stake committee.
Hypothesis HG : graph_ok committee G.

Lemma quorum_positive : 0 < quorum_threshold committee.
Proof. rewrite quorum_threshold_small, N.add_1_r by done. apply N.lt_0_succ. Qed.

Lemma graph_parent k : certified G k → 0 < k.1 → ∃ n, step G k (k.1 - 1, n).
Proof.
  intros Hk Hpos. destruct (graph_quorum _ _ HG k Hk Hpos) as (Q & Hq & HQ). pose proof quorum_positive.
  destruct (stake_of_pos committee Q) as (n & Hn & _); [lia|]. eauto.
Qed.

Lemma supported_path_n (n : nat) k l :
  supported l → certified G k → k.1 = l.1 + 2 + N.of_nat n → path G k l.
Proof.
  intros (F & HF & Hsup). revert k. induction n as [|n IH]; intros k Hk Hr.
  - destruct (graph_quorum _ _ HG k Hk) as (Q & HQ & Hstep); [lia|].
    destruct (quorum_validity_meet committee Q F) as (a & HaQ & HaF & _); [done..|].
    replace (k.1 - 1) with (l.1 + 1) in Hstep by lia.
    eapply rtc_l; [by apply Hstep|]. apply rtc_once. by apply Hsup.
  - destruct (graph_parent k Hk) as (a & Ha); [lia|]. eapply rtc_l; [exact Ha|]. apply IH; [apply Ha|simpl; lia].
Qed.

Lemma supported_path k l : supported l → certified G k → l.1 + 2 ≤ k.1 → path G k l.
Proof. intros Hs Hk Hle. apply (supported_path_n (N.to_nat (k.1 - l.1 - 2))); [done..|lia]. Qed.

(** ** Even rounds *)

Lemma rev_step_by_2_cons lo hi :
  lo ≤ hi → 2 ≤ hi → rev_step_by_2 lo hi = hi :: (if lo + 2 <=? hi then rev_step_by_2 lo (hi - 2) else []).
Proof.
  intros Hle H2. unfold rev_step_by_2 at 1. destruct (N.ltb_spec hi lo); [lia|].
  unfold N_range at 1. replace (N.to_nat ((hi - lo) / 2 + 1 - 0)) with (S (N.to_nat ((hi - lo) / 2)))
    by (generalize ((hi - lo) / 2); lia).
  cbn [seq fmap list_fmap]. f_equal; [lia|]. destruct (N.leb_spec (lo + 2) hi).
  - unfold rev_step_by_2. destruct (N.ltb_spec (hi - 2) lo); [lia|].
    assert (Hd : (hi - lo) / 2 = (hi - 2 - lo) / 2 + 1).
    { replace (hi - lo) with (hi - 2 - lo + 1 * 2) by lia. by rewrite N.div_add. }
    unfold N_range. replace (N.to_nat ((hi - 2 - lo) / 2 + 1 - 0)) with (N.to_nat ((hi - lo) / 2))
      by (rewrite Hd; generalize ((hi - 2 - lo) / 2); lia).
    rewrite <-(fmap_S_seq 0), <-!list_fmap_compose. apply list_fmap_ext. intros _ i _. simpl. lia.
  - rewrite (N.div_small (hi - lo)) by lia. done.
Qed.

(** The even rounds down to 2, split at an even round. *)
Lemma rev_step_by_2_split (n : nat) r :
  2 ≤ r → rev_step_by_2 2 (r + 2 * N.of_nat n) = rev_step_by_2 (r + 2) (r + 2 * N.of_nat n) ++ r :: rev_step_by_2 2 (r - 2).
Proof.
  intros Hr. induction n as [|n IH].
  - replace (r + 2 * N.of_nat 0) with r by lia. unfold rev_step_by_2 at 2.
    destruct (N.ltb_spec r (r + 2)); [|lia]. rewrite rev_step_by_2_cons by lia. simpl. f_equal.
    destruct (N.leb_spec (2 + 2) r); [done|]. unfold rev_step_by_2. destruct (N.ltb_spec (r - 2) 2); [done|lia].
  - rewrite rev_step_by_2_cons by lia. destruct (N.leb_spec (2 + 2) (r + 2 * N.of_nat (S n))); [|lia].
    replace (r + 2 * N.of_nat (S n) - 2) with (r + 2 * N.of_nat n) by lia. rewrite IH.
    rewrite (rev_step_by_2_cons (r + 2) (r + 2 * N.of_nat (S n))) by lia.
    replace (r + 2 * N.of_nat (S n) - 2) with (r + 2 * N.of_nat n) by lia. simpl. f_equal. f_equal.
    destruct (N.leb_spec (r + 2 + 2) (r + 2 * N.of_nat (S n))); [done|].
    unfold rev_step_by_2. destruct (N.ltb_spec (r + 2 * N.of_nat n) (r + 2)); [done|lia].
Qed.

Lemma rev_step_by_2_even lo hi r : hi mod 2 = 0 → r ∈ rev_step_by_2 lo hi → r mod 2 = 0.
Proof.
  intros He. unfold rev_step_by_2. destruct (hi <? lo); [set_solver|].
  intros (i & -> & [_ Hi]%elem_of_N_range)%list_elem_of_fmap. div_lia.
Qed.

Lemma split_rounds r r' : 2 ≤ r → r mod 2 = 0 → r' mod 2 = 0 → r < r' →
  rev_step_by_2 2 (r' - 2) = rev_step_by_2 (r + 2) (r' - 2) ++ r :: rev_step_by_2 2 (r - 2).
Proof.
  intros Hr He He' Hlt. assert (∃ n : nat, r' - 2 = r + 2 * N.of_nat n) as [n ->]; [|by apply rev_step_by_2_split].
  exists (N.to_nat ((r' - 2 - r) / 2)). div_lia.
Qed.

(** Between a leader and a supported leader below it, the chain goes through the latter. *)
Lemma chain_through r key k ls lower :
  2 ≤ r → r mod 2 = 0 → k.1 mod 2 = 0 → r < k.1 → leader_key committee r = Ret key →
  certified G k → supported (r, key) →
  chain (rev_step_by_2 2 (k.1 - 2)) k ls ∧ chain (rev_step_by_2 2 (r - 2)) (r, key) lower ↔
  ∃ upper, chain (rev_step_by_2 (r + 2) (k.1 - 2)) k upper ∧
    chain (rev_step_by_2 2 (r - 2)) (r, key) lower ∧ ls = upper ++ (r, key) :: lower.
Proof.
  intros Hr He Hek Hlt Hkey Hk Hsup. rewrite (split_rounds r k.1) by done.
  assert (Hpath : ∀ ls1, chain (rev_step_by_2 (r + 2) (k.1 - 2)) k ls1 → path G (last_slot k ls1) (r, key)).
  { intros ls1 Hc. apply supported_path; simpl.
    - done.
    - destruct (last_slot_in k ls1) as [->|Hin]; [done|]. apply (chain_rounds _ _ _ _ Hc Hk Hin).
    - destruct (last_slot_in k ls1) as [->|Hin]; [div_lia|].
      apply (chain_rounds _ _ _ _ Hc) in Hin as [Hin _]; [|done]. by apply elem_of_rev_step_by_2 in Hin as [? _]. }
  rewrite chain_app. split.
  - intros [(ls1 & ls2 & -> & Hc1 & Hc2) Hl]. exists ls1. split_and!; [done..|].
    inversion Hc2; subst; same_ret; [|by exfalso; auto]. do 2 f_equal. by eapply chain_det.
  - intros (upper & Hc1 & Hl & ->). split; [|done]. exists upper, ((r, key) :: lower). split_and!; [done..|].
    apply chain_linked; auto.
Qed.

(** Any two histories are prefixes of one another. *)
Lemma history_prefix r r' ls ls' : history r ls → history r' ls' → r ≤ r' → ls `prefix_of` ls'.
Proof.
  intros [[-> ->]|(l & lower & Er & H2 & He & Hk & Hl & Hs & Hc & ->)] H' Hle; [apply prefix_nil|].
  destruct H' as [[-> _]|(l' & lower' & Er' & H2' & He' & Hk' & Hl' & Hs' & Hc' & ->)]; [lia|].
  destruct (decide (r = r')) as [<-|Hne].
  - assert (l = l') as <- by (destruct l, l'; simpl in *; congruence). by rewrite (chain_det _ _ _ _ Hc Hc').
  - destruct l as [? key]. simpl in *. subst r r'.
    destruct (proj1 (chain_through _ key l' lower' lower H2 He He' ltac:(lia) Hk Hl' Hs) (conj Hc' Hc))
      as (upper & _ & _ & ->).
    rewrite app_comm_cons, reverse_app. apply prefix_app_r. done.
Qed.

(** A history grows by a supported leader and the chain down to the last committed round. *)
Lemma history_extend r leaders l upper :
  history r leaders → r < l.1 → 2 ≤ l.1 → l.1 mod 2 = 0 → leader_key committee l.1 = Ret l.2 →
  certified G l → supported l → chain (rev_step_by_2 (r + 2) (l.1 - 2)) l upper →
  history l.1 (leaders ++ reverse (l :: upper)).
Proof.
  intros Hh Hlt H2 He Hk Hl Hs Hc. right. destruct Hh as [[-> ->]|(l0 & lower & <- & H20 & He0 & Hk0 & Hl0 & Hs0 & Hc0 & ->)].
  - by exists l, upper.
  - exists l, (upper ++ l0 :: lower). destruct l0 as [r0 key]; simpl in *. split_and!; [done..| |].
    + apply (chain_through r0 key l _ lower); [done..|]. eauto.
    + by rewrite (app_comm_cons upper), !reverse_app, reverse_cons.
Qed.
End spec.

(** ** Nodes *)

Section node.
Context `{!Sha512}.
Variables (committee : Committee) (gc : Round) (env : Environment) (G : Graph).
Hypothesis Hsmall : small_stake committee.
Hypothesis HG : graph_ok committee G.
Hypothesis Hsize : committee_size committee ≠ 0.
Implicit Types (s : State) (d : Dag) (c x y L : Certificate) (committed seen : list Certificate).

Notation chain := (chain committee G).

Lemma leader_key_total r : ∃ key, leader_key committee r = Ret key.
Proof.
  unfold leader_key. destruct (N.eqb_spec (committee_size committee) 0) as [|_]; [done|].
  set (keys := merge_sort _ _). assert (Hl : length keys = size (authorities committee)).
  { unfold keys. rewrite merge_sort_Permutation. apply length_btree_keys. }
  destruct (lookup_lt_is_Some_2 keys (N.to_nat (r mod committee_size committee))) as [key ->]; [|by exists key].
  rewrite Hl. pose proof (N.mod_lt r _ Hsize). unfold committee_size in *. lia.
Qed.

(** What a node knows of the graph: the certificates seen, which include their own history. *)
Record knows seen : Prop := {
  knows_certifies c : c ∈ seen → certifies G c;
  knows_slots : NoDup (slot <$> seen);
  knows_parents c : c ∈ seen → has_parents ((λ x, (digest x, cround x)) <$> seen) c = true
}.

(** The DAG of a node holds every certificate seen from the last committed round on. *)
Definition holds s seen : Prop :=
  ∀ c, c ∈ seen → last_committed_round s ≤ cround c → dag_at (dag s) (cround c) (origin c) = Some (digest c, c).

(** The schedule of direct commits panics nowhere in a computation: the number of faults in the environment is not
    absurd, or the computation is known not to panic. *)
Definition schedule_ok {A} (m : task A) : Prop := window_fits (env_number env "TUSK_FAULTS") ∨ m ≠ Panic.

Lemma schedule_ok_bind {A B} (m : task A) (f : A → task B) : schedule_ok (m ≫= f) → schedule_ok m.
Proof. intros [?|Hp]; [by left|right]. by intros ->. Qed.

Lemma schedule_ok_next {A B} (m : task A) (f : A → task B) a : schedule_ok (m ≫= f) → m = Ret a → schedule_ok (f a).
Proof. by intros Hp ->. Qed.

Lemma direct_commit_ok {B} r (f : bool → task B) :
  schedule_ok (direct_commit_selected committee env r ≫= f) → ∃ b, direct_commit_selected committee env r = Ret b.
Proof.
  intros [Hf|Hp].
  - by apply direct_commit_total.
  - destruct (direct_commit_selected _ _ _) as [b|[]|] eqn:E; [by exists b|]. by destruct Hp.
Qed.

Section knows.
Context (seen : list Certificate).
Hypothesis Hk : knows seen.

Lemma seen_slot_inj x y : x ∈ seen → y ∈ seen → slot x = slot y → x = y.
Proof.
  apply NoDup_fmap_inj_elem, Hk.
Qed.

(** The parents of a certificate seen are seen. *)
Lemma seen_step x k : x ∈ seen →
  step G (slot x) k ↔ ∃ y, y ∈ seen ∧ slot y = k ∧ digest y ∈ hd_parents (ct_header x) ∧ cround y + 1 = cround x.
Proof.
  intros Hx. destruct (knows_certifies _ Hk _ Hx) as (_ & _ & Hp). split.
  - intros (Hck & Hr & Hin). rewrite <-Hp in Hin.
    destruct (proj1 (has_parents_spec seen x) (knows_parents _ Hk _ Hx) _ Hin) as (y & Hy & Hd & Hyr).
    destruct (knows_certifies _ Hk _ Hy) as (Hcy & Hdy & _).
    assert (slot y = k) by (apply (graph_digest _ _ HG); [done..|congruence]).
    exists y. rewrite Hd. done.
  - intros (y & Hy & <- & Hin & Hr). destruct (knows_certifies _ Hk _ Hy) as (Hcy & Hdy & _).
    split_and!; [done..|]. by rewrite <-Hdy, <-Hp.
Qed.

Lemma seen_path x k : x ∈ seen → path G (slot x) k → ∃ y, y ∈ seen ∧ slot y = k.
Proof.
  intros Hx Hp. remember (slot x) as kx eqn:E. revert x Hx E.
  induction Hp as [kx|kx k1 k Hs _ IH]; intros x Hx ->; [eauto|].
  apply (seen_step _ _ Hx) in Hs as (y & Hy & <- & _). by apply (IH y).
Qed.

(** The rounds below a certificate seen are populated. *)
Lemma seen_rounds (n : nat) x : x ∈ seen → N.of_nat n ≤ cround x → ∃ y, y ∈ seen ∧ cround y + N.of_nat n = cround x.
Proof.
  revert x. induction n as [|n IH]; intros x Hx Hn; [exists x; split; [done|lia]|].
  destruct (knows_certifies _ Hk _ Hx) as (Hc & _).
  destruct (graph_parent _ _ Hsmall HG (slot x) Hc) as (a & Ha); [simpl; lia|].
  apply (seen_step _ _ Hx) in Ha as (y & Hy & _ & _ & Hr).
  destruct (IH y Hy) as (z & Hz & ?); [lia|]. exists z. split; [done|lia].
Qed.
End knows.

(** ** The search for linked leaders *)

Section links.
Context (s : State) (seen committed : list Certificate).
Hypothesis Hs : safe gc s seen committed.
Hypothesis Hk : knows seen.
Hypothesis Hh : holds s seen.

Lemma held_round x : x ∈ seen → last_committed_round s ≤ cround x → is_Some (dag s !! cround x).
Proof. intros Hx Hr. apply Hh in Hx as (a & Ha & _)%dag_at_Some; [|done]. eauto. Qed.

Lemma held_below x r : x ∈ seen → last_committed_round s ≤ r → r ≤ cround x → is_Some (dag s !! r).
Proof.
  intros Hx Hr Hle. destruct (seen_rounds seen Hk (N.to_nat (cround x - r)) x Hx) as (y & Hy & E); [lia|].
  assert (cround y = r) as <- by lia. by apply held_round.
Qed.

Lemma elem_of_parents_in parents a y r :
  dag s !! r = Some a → last_committed_round s ≤ r → (∀ x, x ∈ parents → x ∈ seen ∧ cround x = r + 1) →
  y ∈ parents_in parents a ↔ y ∈ seen ∧ cround y = r ∧ ∃ x, x ∈ parents ∧ step G (slot x) (slot y).
Proof.
  intros Ha Hr Hp. unfold parents_in. rewrite list_elem_of_fmap.
  setoid_rewrite list_elem_of_filter. setoid_rewrite existsb_In. split.
  - intros (e & -> & (x & Hx & Hin%bool_decide_eq_true) & [n Hn]%elem_of_round).
    assert (He : dag_at (dag s) r n = Some e) by (apply dag_at_Some; eauto).
    pose proof (wf_slot _ _ (safe_wf _ _ _ _ Hs) _ _ _ He) as [= Er _].
    pose proof (wf_digest _ _ (safe_wf _ _ _ _ Hs) _ _ _ He) as Ed.
    pose proof (safe_seen _ _ _ _ Hs _ _ _ He). split_and!; [done..|]. exists x. split; [done|].
    destruct (Hp x Hx) as [Hxs Hxr]. apply (seen_step seen Hk x); [done|].
    exists e.2. rewrite <-Ed. split_and!; [done..|lia].
  - intros (Hy & <- & x & Hx & Hst). pose proof (Hh y Hy Hr) as Hd.
    apply dag_at_Some in Hd as (a' & Ha' & Hn). simplify_eq. exists (digest y, y).
    split; [done|]. split; [|apply elem_of_round; eauto]. exists x. split; [done|].
    apply bool_decide_eq_true. destruct (Hp x Hx) as [Hxs _].
    apply (seen_step seen Hk x _ Hxs) in Hst as (y' & Hy' & E & Hin & _).
    by rewrite (seen_slot_inj seen Hk y y').
Qed.

Lemma N_range_rev_S lo (n : nat) :
  reverse (N_range lo (lo + N.of_nat (S n))) = (lo + N.of_nat n) :: reverse (N_range lo (lo + N.of_nat n)).
Proof.
  unfold N_range. replace (N.to_nat (lo + N.of_nat (S n) - lo)) with (S n) by lia.
  replace (N.to_nat (lo + N.of_nat n - lo)) with n by lia.
  by rewrite seq_S, fmap_app, reverse_app.
Qed.

Lemma linked_loop_spec (n : nat) lo parents :
  last_committed_round s ≤ lo → (∀ x, x ∈ parents → x ∈ seen ∧ cround x = lo + N.of_nat n) →
  (∀ r, lo ≤ r → r < lo + N.of_nat n → is_Some (dag s !! r)) →
  ∃ result, linked_loop parents (reverse (N_range lo (lo + N.of_nat n))) (dag s) = Ret result ∧
    ∀ y, y ∈ result ↔ y ∈ seen ∧ cround y = lo ∧ ∃ x, x ∈ parents ∧ path G (slot x) (slot y).
Proof.
  intros Hlo. revert parents. induction n as [|n IH]; intros parents Hp Hrounds.
  - replace (lo + N.of_nat 0) with lo in * by lia. unfold N_range. rewrite N.sub_diag. simpl.
    eexists. split; [done|]. intros y. split.
    + intros Hy. destruct (Hp y Hy). split_and!; [done..|]. by exists y.
    + intros (Hy & Hr & x & Hx & Hxy). destruct (Hp x Hx) as [Hxs Hxr].
      replace y with x; [done|]. apply (seen_slot_inj seen Hk); [done..|].
      apply rtc_inv in Hxy as [|(k & (_ & E & _) & Hky)]; [done|]. apply path_round in Hky. simpl in *. lia.
  - rewrite N_range_rev_S. cbn [linked_loop]. destruct (Hrounds (lo + N.of_nat n)) as [a Ha]; [lia..|].
    rewrite Ha. simpl.
    assert (Hin := λ y, elem_of_parents_in parents a y _ Ha ltac:(lia)
      ltac:(intros x Hx; destruct (Hp x Hx); split; [done|lia])).
    destruct (IH (parents_in parents a)) as (result & -> & Hres).
    + intros x Hx. apply Hin in Hx as (? & ? & _). done.
    + intros r ??. apply Hrounds; lia.
    + eexists. split; [done|]. intros y. rewrite Hres. split.
      * intros (? & ? & x & (_ & _ & z & Hz & Hzx)%Hin & Hxy). split_and!; [done..|]. exists z.
        split; [done|]. by eapply rtc_l.
      * intros (Hy & Hr & x & Hx & Hxy). split_and!; [done..|]. destruct (Hp x Hx) as [Hxs Hxr].
        apply rtc_inv in Hxy as [E|(k & Hst & Hky)]; [exfalso; injection E as E _; lia|].
        apply (seen_step seen Hk x _ Hxs) in Hst as (z & Hz & <- & Hd & Hzr).
        exists z. split; [|done]. apply Hin. split_and!; [done|lia|]. exists x. split; [done|].
        apply (seen_step seen Hk x _ Hxs). eauto.
Qed.

(** [linked] never panics and decides the existence of a path. *)
Lemma linked_spec L prev :
  L ∈ seen → prev ∈ seen → last_committed_round s ≤ cround prev → cround prev ≤ cround L →
  ∃ b : bool, linked L prev (dag s) = Ret b ∧ (b = true ↔ path G (slot L) (slot prev)).
Proof.
  intros HL Hprev Hr Hle. unfold linked.
  replace (cround L) with (cround prev + N.of_nat (N.to_nat (cround L - cround prev))) by lia.
  destruct (linked_loop_spec (N.to_nat (cround L - cround prev)) (cround prev) [L]) as (result & -> & Hres); [done|..].
  - intros x ->%list_elem_of_singleton. split; [done|lia].
  - intros r ??. apply (held_below L); [done|lia..].
  - simpl. eexists. split; [done|]. rewrite existsb_In. setoid_rewrite certificate_eqb_spec. split.
    + intros (y & (Hy & _ & x & ->%list_elem_of_singleton & Hp)%Hres & _ & E1 & E2).
      unfold slot at 2. by rewrite E1, E2.
    + intros Hp. exists prev. split; [|done]. apply Hres. split_and!; [done..|]. exists L. split; [left|done].
Qed.

Lemma leader_spec r key : leader_key committee r = Ret key → leader committee r (dag s) = Ret (dag_at (dag s) r key).
Proof. intros Hkey. unfold leader. by rewrite Hkey. Qed.

(** [order_leaders] implements [chain]. *)
Lemma order_leaders_loop_spec rounds tc last :
  last ∈ seen → StronglySorted (λ a b, b < a) (cround last :: rounds) →
  (∀ r, r ∈ rounds → last_committed_round s ≤ r) →
  ∃ more, order_leaders_loop committee rounds tc last (dag s) = Ret (tc ++ more) ∧
    (∀ x, x ∈ more → x ∈ seen) ∧ chain rounds (slot last) (slot <$> more).
Proof.
  revert tc last. induction rounds as [|r rounds IH]; intros tc last Hlast Hsort Hlo; simpl.
  { exists []. rewrite app_nil_r. split_and!; [done|set_solver|constructor]. }
  destruct (leader_key_total r) as [key Hkey]. rewrite (leader_spec _ _ Hkey). simpl.
  apply StronglySorted_inv in Hsort as [Hsort [Hlt Hall]%Forall_cons].
  assert (Hsort' : StronglySorted (λ a b, b < a) (cround last :: rounds)).
  { apply StronglySorted_inv in Hsort as [? _]. by constructor. }
  assert (Hr : last_committed_round s ≤ r) by (apply Hlo; left).
  assert (Hlo' : ∀ r, r ∈ rounds → last_committed_round s ≤ r) by (intros; apply Hlo; by right).
  destruct (dag_at (dag s) r key) as [[dp prev]|] eqn:Hd.
  - pose proof (wf_slot _ _ (safe_wf _ _ _ _ Hs) _ _ _ Hd) as Es. simpl in Es.
    pose proof (safe_seen _ _ _ _ Hs _ _ _ Hd) as Hprev. simpl in Hprev.
    assert (Er : cround prev = r) by (by injection Es).
    destruct (linked_spec last prev) as (b & -> & Hb); [done..|lia|lia|]. rewrite Es in Hb. simpl.
    destruct b.
    + destruct (IH (tc ++ [prev]) prev) as (more & -> & Hin & Hc); [done|by rewrite Er|done|].
      exists (prev :: more). rewrite <-app_assoc. split; [done|]. split; [|rewrite Es in Hc].
      * intros x [->|?]%elem_of_cons; auto.
      * csimpl. rewrite Es. constructor; [done| |done]. by apply Hb.
    + destruct (IH tc last) as (more & -> & Hin & Hc); [done..|]. exists more. split_and!; [done..|].
      eapply chain_skip; [done| |done]. intros Hp%Hb. done.
  - destruct (IH tc last) as (more & -> & Hin & Hc); [done..|]. exists more. split_and!; [done..|].
    eapply chain_skip; [done| |done]. intros (y & Hy & E)%(seen_path seen Hk); [|done].
    injection E as E1 E2. pose proof (Hh y Hy) as Hdy. rewrite E1, E2 in Hdy. rewrite Hdy in Hd by done. done.
Qed.
(** The support computed is the stake of a set of authorities that reference the leader. *)
Lemma support_spec r a dg :
  dag s !! r = Some a → ∃ F, stake_of committee F = support committee dg a ∧
    ∀ n, n ∈ F → ∃ x, x ∈ seen ∧ slot x = (r, n) ∧ dg ∈ hd_parents (ct_header x).
Proof.
  intros Ha. set (entries := filter (λ e, dg ∈ hd_parents (ct_header e.2)) (map_to_list a).*2).
  assert (He : ∀ e, e ∈ entries → e.2 ∈ seen ∧ cround e.2 = r ∧ a !! origin e.2 = Some e ∧
    dg ∈ hd_parents (ct_header e.2)).
  { intros e [Hdg [n Hn]%elem_of_round]%list_elem_of_filter.
    assert (Hd : dag_at (dag s) r n = Some e) by (apply dag_at_Some; eauto).
    pose proof (wf_slot _ _ (safe_wf _ _ _ _ Hs) _ _ _ Hd) as [= Er <-]. split_and!; [|done..].
    by apply (safe_seen _ _ _ _ Hs) in Hd. }
  assert (Hnd : NoDup ((λ e, origin e.2) <$> entries)).
  { apply NoDup_fmap_2_strong.
    - intros e e' (_ & _ & E & _)%He (_ & _ & E' & _)%He Ho. rewrite Ho in E. congruence.
    - apply NoDup_filter. assert (Hinj : ∀ p p', p ∈ map_to_list a → p' ∈ map_to_list a → p.2 = p'.2 → p = p').
      { intros [n e] [n' e'] H1%elem_of_map_to_list H2%elem_of_map_to_list; simpl; intros <-.
        assert (Hd1 : dag_at (dag s) r n = Some e) by (apply dag_at_Some; eauto).
        assert (Hd2 : dag_at (dag s) r n' = Some e) by (apply dag_at_Some; eauto).
        pose proof (wf_slot _ _ (safe_wf _ _ _ _ Hs) _ _ _ Hd1).
        pose proof (wf_slot _ _ (safe_wf _ _ _ _ Hs) _ _ _ Hd2). congruence. }
      apply NoDup_fmap_2_strong; [exact Hinj|apply NoDup_map_to_list]. }
  exists (list_to_set ((λ e, origin e.2) <$> entries)). split.
  - unfold support. fold entries. assert (E : sum_N id (stake committee <$> ((λ e, origin e.2) <$> entries)) =
      stake_of committee (list_to_set ((λ e, origin e.2) <$> entries))).
    { unfold stake_of. rewrite sum_set_list_to_set by done. apply sum_N_fmap. }
    rewrite <-list_fmap_compose in E. rewrite u32_sum_small; [by rewrite <-E|].
    change (sum_N id (stake committee ∘ (λ e, origin e.2) <$> entries) < two32). rewrite E.
    pose proof (stake_of_total committee (list_to_set ((λ e, origin e.2) <$> entries))).
    unfold small_stake in Hsmall. lia.
  - intros n Hn. rewrite elem_of_list_to_set in Hn. apply list_elem_of_fmap in Hn as (e & -> & (? & Hr & _ & ?)%He).
    exists e.2. unfold slot. by rewrite Hr.
Qed.

(** The guards never panic, and a leader they let through is supported. *)
Lemma supported_leader_spec c :
  c ∈ seen → 0 < cround c → cround c < two64 → schedule_ok (supported_leader committee env s (cround c)) →
  ∃ l, supported_leader committee env s (cround c) = Ret l ∧
    ∀ L, l = Some L → L ∈ seen ∧ last_committed_round s < cround L ∧ 2 ≤ cround L ∧ cround L mod 2 = 0 ∧
      leader_key committee (cround L) = Ret (origin L) ∧ supported committee G (slot L).
Proof.
  intros Hc Hpos Hb. unfold supported_leader. set (r := u64_sub (cround c) 1).
  destruct (N.eqb_spec (r mod 2) 0) as [He|]; simpl; [|intros _; by eexists].
  destruct (N.ltb_spec r 4) as [|H4]; [intros _; by eexists|].
  pose proof (u64_sub_lt (cround c) 1) as Hlt. fold r in Hlt. rewrite !(u64_sub_small r) by lia.
  destruct (N.leb_spec (r - 2) (last_committed_round s)) as [|Hlcr]; [intros _; by eexists|].
  intros [b ->]%direct_commit_ok. simpl. destruct b; simpl; [|by eexists].
  destruct (leader_key_total (r - 2)) as [key Hkey]. rewrite (leader_spec _ _ Hkey). simpl.
  destruct (dag_at (dag s) (r - 2) key) as [[dg L]|] eqn:Hd; [|by eexists].
  pose proof (wf_slot _ _ (safe_wf _ _ _ _ Hs) _ _ _ Hd) as Es. simpl in Es.
  pose proof (wf_digest _ _ (safe_wf _ _ _ _ Hs) _ _ _ Hd) as Ed. simpl in Ed.
  pose proof (safe_seen _ _ _ _ Hs _ _ _ Hd) as HL. simpl in HL.
  assert (Hr : r = cround c - 1) by (unfold r; rewrite u64_sub_small; lia).
  destruct (held_below c (r - 1)) as [a Ha]; [done|lia..|]. rewrite Ha. simpl.
  destruct (N.ltb_spec (support committee dg a) (validity_threshold committee)) as [|Hsup]; [by eexists|].
  eexists. split; [done|]. intros ? [= <-]. injection Es as Er Eo. rewrite Er, Eo.
  split_and!; [done|done|lia|div_lia|done|].
  destruct (support_spec (r - 1) a dg Ha) as (F & HF & HFin). exists F. split; [by rewrite HF|].
  intros n (x & Hx & Ex & Hin)%HFin. simpl. rewrite Er. replace (r - 2 + 1) with (r - 1) by lia.
  rewrite <-Ex. split; [by apply (knows_certifies _ Hk)|]. apply (seen_step seen Hk x _ Hx).
  exists L. injection Ex as Exr _. subst dg. split_and!; [done..|lia].
Qed.

(** [order_leaders] never panics and gives the chain down to the last committed round. *)
Lemma order_leaders_spec L :
  L ∈ seen → 2 ≤ cround L → last_committed_round s < cround L → cround L + 2 < two64 →
  ∃ upper, order_leaders committee L s = Ret (L :: upper) ∧ (∀ x, x ∈ upper → x ∈ seen) ∧
    chain (rev_step_by_2 (last_committed_round s + 2) (cround L - 2)) (slot L) (slot <$> upper).
Proof.
  intros HL H2 Hlt Hb. unfold order_leaders.
  rewrite u64_add_small, u64_sub_small by lia.
  destruct (order_leaders_loop_spec (rev_step_by_2 (last_committed_round s + 2) (cround L - 2)) [L] L)
    as (upper & -> & ? & ?); [done| | |by eexists].
  - constructor; [apply rev_step_by_2_sorted|]. apply Forall_forall.
    intros r Hr%elem_of_rev_step_by_2. lia.
  - intros r Hr%elem_of_rev_step_by_2. lia.
Qed.
End links.

(** ** Committing keeps the upper part of the DAG *)

Lemma holds_add s seen c :
  slot c ∉ slot <$> seen → holds s seen → holds (add_certificate s c) (c :: seen).
Proof.
  intros Hc Hh x Hx Hr. apply add_entries. apply elem_of_cons in Hx as [->|Hx]; [by left|]. right.
  split; [|by apply Hh]. intros E. apply Hc. rewrite <-E. by apply (list_elem_of_fmap_2 slot).
Qed.

Lemma holds_update s seen committed c :
  safe gc s seen committed → (∀ x, x ∈ seen → cround x + gc < two64) → holds s seen → holds (update s c gc) seen.
Proof.
  intros Hs Hb Hh x Hx Hr. rewrite (update_lcr s c gc) in Hr by apply Hs. apply update_entries.
  split; [apply Hh; [done|lia]|]. split.
  - intros r Hl%max_round_ge. rewrite <-update_lcr_max, (update_lcr s c gc) in Hl by apply Hs. lia.
  - rewrite (update_lcr s c gc) by apply Hs. rewrite u64_add_small by (by apply Hb). lia.
Qed.

Lemma is_leader_total s x : ∃ b, is_leader committee s x = Ret b.
Proof.
  unfold is_leader. destruct (_ =? _); [|by eexists]. destruct (leader_key_total (cround x)) as [key Hkey].
  rewrite (leader_spec _ _ _ Hkey). simpl. by eexists.
Qed.

Lemma commit_sub_dag_total xs s seen committed :
  safe gc s seen committed → (∀ x, x ∈ seen → cround x + gc < two64) → holds s seen →
  (∀ x, x ∈ xs → x ∈ seen) → NoDup (slot <$> xs) → (∀ x, x ∈ xs → slot x ∉ slot <$> committed) →
  ∃ s' sequence, commit_sub_dag committee gc s xs = Ret (s', sequence) ∧ holds s' seen.
Proof.
  revert s committed. induction xs as [|x xs IH]; intros s committed Hs Hb Hh Hin Hnd Hnew; simpl; [by do 2 eexists|].
  destruct (is_leader_total s x) as [b ->]. simpl. csimpl in Hnd. apply NoDup_cons in Hnd as [Hx Hnd].
  destruct (IH (update s x gc) (committed ++ [x])) as (s' & sequence & -> & ?); [..|simpl; eauto].
  - apply safe_update; [done|apply Hin; left|apply Hnew; left].
  - done.
  - by eapply holds_update.
  - intros y Hy. apply Hin. by right.
  - done.
  - intros y Hy. rewrite fmap_app, not_elem_of_app. split; [apply Hnew; by right|].
    intros E%list_elem_of_singleton. apply Hx. rewrite <-E. by apply list_elem_of_fmap_2.
Qed.

Lemma commit_leaders_total leaders s seen committed :
  safe gc s seen committed → holds s seen → (∀ x, x ∈ seen → cround x + gc + 2 < two64) →
  (∀ L, L ∈ leaders → L ∈ seen) → StronglySorted (<) (last_committed_round s :: (cround <$> leaders)) →
  ∃ s' sequence, commit_leaders committee gc s leaders = Ret (s', sequence) ∧ holds s' seen ∧
    leaders `sublist_of` sequence.*1.
Proof.
  revert s committed. induction leaders as [|L leaders IH]; intros s committed Hs Hh Hb HL Hsort; simpl.
  { do 2 eexists. split_and!; [done|done|constructor]. }
  csimpl in *. apply StronglySorted_inv in Hsort as [Hsort [Hlt _]%Forall_cons].
  assert (HLs : L ∈ seen) by (apply HL; left).
  destruct (order_dag_fresh gc s seen committed L) as (xs & Hxs & HLx & Hin & Hnd & Hnew & _); [by auto..|].
  rewrite Hxs. simpl.
  destruct (commit_sub_dag_total xs s seen committed) as (s1 & seq1 & H1 & Hh1); [done| |done..|].
  { intros x Hx. specialize (Hb x Hx). lia. }
  destruct (commit_leader_safe committee gc s seen committed L xs s1 seq1) as (E1 & Hs1 & Hr1); [by auto..|].
  rewrite H1. simpl.
  destruct (IH s1 (committed ++ xs)) as (s2 & seq2 & -> & Hh2 & Hsub); [done..| |by rewrite Hr1|].
  { intros L' HL'. apply HL. by right. }
  simpl. do 2 eexists. split; [done|]. split; [done|]. rewrite fmap_app, E1.
  apply (sublist_app [L] xs leaders); [by apply singleton_sublist_l|done].
Qed.

(** ** The run *)

(** The leaders whose sub-DAGs [process_certificate] commits, in order. *)
Definition process_leaders (s : State) (c : Certificate) : task (list Certificate) :=
  let s := add_certificate s c in
  l ← supported_leader committee env s (cround c);
  match l with
  | None => Ret []
  | Some leader => leaders ← order_leaders committee leader s; Ret (reverse leaders)
  end.

Fixpoint run_leaders (s : State) (cs : list Certificate) : task (list Certificate) :=
  match cs with
  | [] => Ret []
  | c :: cs =>
      leaders ← process_leaders s c;
      '(s, _) ← process_certificate committee gc env s c;
      leaders' ← run_leaders s cs;
      Ret (leaders ++ leaders')
  end.

(** The state of a node that saw [seen], committed [committed] and the leaders [leaders]. *)
Record node_ok (s : State) (seen committed leaders : list Certificate) : Prop := {
  node_safe : safe gc s seen committed;
  node_knows : knows seen;
  node_holds : holds s seen;
  node_bound x : x ∈ seen → cround x + gc + 2 < two64;
  node_history : history committee G (last_committed_round s) (slot <$> leaders)
}.

Lemma knows_cons seen c :
  knows seen → certifies G c → slot c ∉ slot <$> seen →
  has_parents ((λ x, (digest x, cround x)) <$> seen) c = true → knows (c :: seen).
Proof.
  intros [Hc Hn Hp] Hcc Hnew Hpc. split.
  - intros x [->|?]%elem_of_cons; auto.
  - csimpl. by apply NoDup_cons.
  - intros x Hx. assert (Hpx : has_parents ((λ x, (digest x, cround x)) <$> seen) x = true)
      by (apply elem_of_cons in Hx as [->|?]; auto).
    rewrite has_parents_spec in Hpx |- *. intros p (y & ? & ?)%Hpx. exists y. split; [by right|done].
Qed.

(** A node that receives a certificate it can verify goes on, and its history of leaders grows. *)
Lemma process_certificate_spec s seen committed leaders c :
  node_ok s seen committed leaders → certifies G c → slot c ∉ slot <$> seen → 0 < cround c →
  cround c + gc + 2 < two64 → has_parents ((λ x, (digest x, cround x)) <$> seen) c = true →
  schedule_ok (process_certificate committee gc env s c) →
  ∃ new s' sequence, process_leaders s c = Ret new ∧
    process_certificate committee gc env s c = Ret (s', sequence) ∧
    node_ok s' (c :: seen) (committed ++ sequence.*1) (leaders ++ new) ∧ new `sublist_of` sequence.*1.
Proof.
  intros [Hs Hk Hh Hb Hist] Hc Hnew Hpos Hbc Hp Hsched. apply schedule_ok_bind in Hsched.
  apply (safe_add gc _ _ _ c) in Hs; [|done..]. apply (holds_add _ _ c) in Hh; [|done].
  apply (knows_cons _ c) in Hk; [|done..].
  assert (Hb' : ∀ x, x ∈ c :: seen → cround x + gc + 2 < two64) by (intros x [->|?]%elem_of_cons; auto).
  change (last_committed_round s) with (last_committed_round (add_certificate s c)) in Hist.
  unfold process_leaders, process_certificate.
  generalize dependent (add_certificate s c). clear s Hb Hnew Hp. intros s Hs Hh Hist Hsched.
  destruct (supported_leader_spec s (c :: seen) committed Hs Hk Hh c) as (l & -> & Hl); [by left|lia..|done|].
  destruct l as [L|]; simpl.
  - destruct (Hl L eq_refl) as (HL & Hlt & H2 & He & Hkey & Hsup). pose proof (Hb' L HL).
    destruct (order_leaders_spec s (c :: seen) committed Hs Hk Hh L) as (upper & Ho & Hup & Hchain); [done..|lia|].
    pose proof (order_leaders_sorted committee gc s L (L :: upper) (safe_wf _ _ _ _ Hs) Hlt H2) as Hsort.
    destruct Hsort as [Hsort _]; [apply Hh; [done|lia]|done|].
    rewrite Ho. simpl.
    destruct (commit_leaders_total (reverse (L :: upper)) s (c :: seen) committed) as (s' & sequence & Hcl & Hh' & Hsub);
      [done..| |done|].
    { intros x. rewrite elem_of_reverse. intros [->|?]%elem_of_cons; auto. }
    exists (reverse (L :: upper)), s', sequence. rewrite Hcl. split_and!; [done..| |done].
    destruct (commit_leaders_safe committee gc (reverse (L :: upper)) s (c :: seen) committed s' sequence) as [Hs' Hr'];
      [done| |done..|].
    { intros x. rewrite elem_of_reverse. intros [->|Hx]%elem_of_cons; auto. }
    rewrite reverse_cons, foldl_app in Hr'. simpl in Hr'. split; [done..|]. rewrite Hr', fmap_app, fmap_reverse.
    apply (history_extend committee G Hsmall HG (last_committed_round s) _ (slot L)); [done..| |done|done].
    by apply (knows_certifies _ Hk).
  - exists [], s, []. csimpl. rewrite !app_nil_r. split_and!; [done..| |constructor]. done.
Qed.

Lemma run_spec cs s seen committed leaders :
  node_ok s seen committed leaders → (∀ c, c ∈ cs → certifies G c ∧ 0 < cround c ∧ cround c + gc + 2 < two64) →
  NoDup (slot <$> cs) → (∀ c, c ∈ cs → slot c ∉ slot <$> seen) → causal seen cs = true →
  schedule_ok (run committee gc env s cs) →
  ∃ new s' sequence, run_leaders s cs = Ret new ∧ run committee gc env s cs = Ret (s', sequence) ∧
    node_ok s' (reverse cs ++ seen) (committed ++ sequence.*1) (leaders ++ new) ∧ new `sublist_of` sequence.*1.
Proof.
  revert s seen committed leaders.
  induction cs as [|c cs IH]; intros s seen committed leaders Hn Hcs Hnd Hnew Hcausal Hsched.
  { exists [], s, []. csimpl. rewrite !app_nil_r. split_and!; [done..|constructor]. }
  apply causal_cons in Hcausal as [Hp Hcausal]. destruct (Hcs c) as (Hc & Hpos & Hb); [by left|].
  csimpl in Hnd. apply NoDup_cons in Hnd as [Hn' Hnd]. assert (Hnc : slot c ∉ slot <$> seen) by (apply Hnew; left).
  destruct (process_certificate_spec s seen committed leaders c) as (new & s1 & seq1 & E1 & E2 & Hn1 & Hsub);
    [done..|by eapply schedule_ok_bind|].
  pose proof (schedule_ok_bind _ _ (schedule_ok_next _ _ _ Hsched E2)) as Hsched'.
  destruct (IH s1 (c :: seen) (committed ++ seq1.*1) (leaders ++ new)) as (new2 & s2 & seq2 & E3 & E4 & Hn2 & Hsub2);
    [done| |done| |done|done|].
  { intros x Hx. apply Hcs. by right. }
  { intros x Hx. csimpl. rewrite not_elem_of_cons. split; [|apply Hnew; by right]. intros E. apply Hn'.
    rewrite <-E. by apply (list_elem_of_fmap_2 slot). }
  exists (new ++ new2), s2, (seq1 ++ seq2). simpl. rewrite E1; simpl. rewrite E2; simpl. rewrite E3, E4; simpl.
  rewrite fmap_app, reverse_cons, <-(app_assoc _ [c]), !(app_assoc committed), !(app_assoc leaders).
  split_and!; [done..|]. by apply sublist_app.
Qed.

(** What the primary feeds the task: certificates of the graph, each slot once, after their parents. *)
Definition good_feed (cs : list Certificate) : Prop :=
  NoDup (slot <$> cs) ∧ (∀ c, c ∈ cs → certifies G c ∧ 0 < cround c ∧ cround c + gc + 2 < two64) ∧
  causal (genesis committee) cs = true.

Lemma State_new_ok :
  gc + 2 < two64 → (∀ g, g ∈ genesis committee → certifies G g) →
  node_ok (State_new (genesis committee)) (genesis committee) (genesis committee) [].
Proof.
  intros Hgc HgG. split.
  - by apply State_new_safe.
  - split; [done|apply (safe_nodup gc _ _ _ (State_new_safe committee gc Hgc))|].
    intros g Hg. apply has_parents_spec. apply elem_of_genesis in Hg as (k & _ & ->). simpl. set_solver.
  - intros g Hg _. apply State_new_entries. split; [by apply genesis_round in Hg|]. eauto.
  - intros g Hg. apply genesis_round in Hg. lia.
  - left. done.
Qed.

Lemma run_good_feed cs :
  gc + 2 < two64 → (∀ g, g ∈ genesis committee → certifies G g) → good_feed cs →
  schedule_ok (run committee gc env (State_new (genesis committee)) cs) →
  ∃ leaders s sequence, run_leaders (State_new (genesis committee)) cs = Ret leaders ∧
    run committee gc env (State_new (genesis committee)) cs = Ret (s, sequence) ∧
    leaders `sublist_of` sequence.*1 ∧ history committee G (last_committed_round s) (slot <$> leaders).
Proof.
  intros Hgc HgG (Hnd & Hcs & Hcausal) Hsched.
  destruct (run_spec cs (State_new (genesis committee)) (genesis committee) (genesis committee) [])
    as (leaders & s & sequence & E1 & E2 & Hn & Hsub); [by apply State_new_ok|done..| |done|done|].
  - intros c Hc (g & E & Hg)%list_elem_of_fmap. destruct (Hcs c Hc) as (_ & Hpos & _).
    apply genesis_round in Hg. injection E as E _. lia.
  - exists leaders, s, sequence. split_and!; [done..|]. apply (node_history _ _ _ _ Hn).
Qed.

End node.

(** ** Properties *)

(** C11: A node implements the specification: fed with certificates of the graph, each slot once, of a round above
    0 and some way below 2^64 and after its parents, and with a number of faults in the environment small enough for
    the windows of the schedule of direct commits to be allocated, it never panics, the leaders it commits are those
    of the specification (the supported leader of the last committed round and the leaders linked below it), and
    they are output in order. *)
Theorem leaders_follow_specification `{!Sha512} committee gc env G cs :
  small_stake committee → graph_ok committee G → committee_size committee ≠ 0 → gc + 2 < two64 →
  (∀ g, g ∈ genesis committee → certifies G g) → good_feed committee gc G cs →
  window_fits (env_number env "TUSK_FAULTS") →
  ∃ leaders s sequence,
    run_leaders committee gc env (State_new (genesis committee)) cs = Ret leaders ∧
    run committee gc env (State_new (genesis committee)) cs = Ret (s, sequence) ∧
    leaders `sublist_of` sequence.*1 ∧ history committee G (last_committed_round s) (slot <$> leaders).
Proof. intros. apply run_good_feed; [done..|by left]. Qed.

(** Agreement on the leaders: two nodes fed from the same graph, in any order that respects the
    parents and with any schedule of direct commits, commit the same leaders in the same order, up to how
    far they got. *)
Theorem leaders_agreement `{!Sha512} committee gc env env' G cs cs' :
  small_stake committee → graph_ok committee G → committee_size committee ≠ 0 → gc + 2 < two64 →
  (∀ g, g ∈ genesis committee → certifies G g) → good_feed committee gc G cs → good_feed committee gc G cs' →
  window_fits (env_number env "TUSK_FAULTS") → window_fits (env_number env' "TUSK_FAULTS") →
  ∃ leaders leaders',
    run_leaders committee gc env (State_new (genesis committee)) cs = Ret leaders ∧
    run_leaders committee gc env' (State_new (genesis committee)) cs' = Ret leaders' ∧
    ((slot <$> leaders) `prefix_of` (slot <$> leaders') ∨ (slot <$> leaders') `prefix_of` (slot <$> leaders)).
Proof.
  intros Hsmall HG Hsize Hgc HgG Hcs Hcs' Hf Hf'.
  destruct (run_good_feed committee gc env G Hsmall HG Hsize cs) as (ls & s & seq & E1 & _ & _ & H1); [done..|by left|].
  destruct (run_good_feed committee gc env' G Hsmall HG Hsize cs') as (ls' & s' & seq' & E2 & _ & _ & H2); [done..|by left|].
  exists ls, ls'. split_and!; [done..|].
  destruct (N.le_ge_cases (last_committed_round s) (last_committed_round s')) as [Hle|Hle]; [left|right];
    by eapply history_prefix.
Qed.

(** ** A sample graph *)

Section sample.
Context `{!Sha512}.

(** The graph of a list of certificates. *)
Definition graph_map (cs : list Certificate) : gmap Slot Certificate := list_to_map ((λ c, (slot c, c)) <$> cs).
Definition graph_of (cs : list Certificate) : Graph :=
  let m := graph_map cs in
  {| certified k := is_Some (m !! k);
     slot_digest k := from_option digest Digest_default (m !! k);
     slot_parents k := from_option (λ c, hd_parents (ct_header c)) ∅ (m !! k) |}.

(** The authors of the certificates of the previous round that a certificate has as parents. *)
Definition parent_authors (cs : list Certificate) (c : Certificate) : gset PublicKey :=
  list_to_set (origin <$> filter (λ x,
    (if cround x + 1 =? cround c then bool_decide (digest x ∈ hd_parents (ct_header c)) else false) = true) cs).

Definition graph_check (committee : Committee) (cs : list Certificate) : bool :=
  bool_decide (NoDup (slot <$> cs)) && bool_decide (NoDup (digest <$> cs)) &&
  forallb (λ c, (cround c =? 0) || (quorum_threshold committee <=? stake_of committee (parent_authors cs c))) cs.

Lemma graph_map_lookup cs k c : NoDup (slot <$> cs) → graph_map cs !! k = Some c ↔ c ∈ cs ∧ slot c = k.
Proof.
  intros Hnd. unfold graph_map. rewrite <-elem_of_list_to_map.
  - rewrite list_elem_of_fmap. naive_solver.
  - by rewrite <-list_fmap_compose.
Qed.

Lemma graph_of_certifies cs c : NoDup (slot <$> cs) → c ∈ cs → certifies (graph_of cs) c.
Proof.
  intros Hnd Hc. assert (E : graph_map cs !! slot c = Some c) by (by apply graph_map_lookup).
  unfold certifies, graph_of; simpl. rewrite E. simpl. eauto.
Qed.

Lemma graph_of_ok committee cs : graph_check committee cs = true → graph_ok committee (graph_of cs).
Proof.
  unfold graph_check. rewrite !andb_true_iff, !bool_decide_eq_true, forallb_elem. intros [[Hs Hd] Hq]. split.
  - intros k k' [c Hc] [c' Hc']; simpl. rewrite Hc, Hc'; simpl. intros E.
    apply graph_map_lookup in Hc as [Hc <-]; [|done]. apply graph_map_lookup in Hc' as [Hc' <-]; [|done].
    f_equal. apply list_elem_of_lookup in Hc as [i Hi], Hc' as [j Hj].
    assert (i = j) as <-; [|congruence].
    eapply (NoDup_lookup (digest <$> cs) i j (digest c)); [done|by rewrite list_lookup_fmap, Hi|].
    by rewrite list_lookup_fmap, Hj, E.
  - intros k [c Hc] Hpos. pose proof Hc as [Hin E]%graph_map_lookup; [|done].
    specialize (Hq c Hin). apply orb_true_iff in Hq as [Hq%N.eqb_eq|Hq%N.leb_le].
    { subst k. simpl in Hpos. lia. }
    exists (parent_authors cs c). split; [done|]. intros n Hn. unfold parent_authors in Hn.
    rewrite elem_of_list_to_set in Hn. apply list_elem_of_fmap in Hn as (x & -> & [Hrp Hx]%list_elem_of_filter).
    destruct (N.eqb_spec (cround x + 1) (cround c)) as [Hr|]; [|done]. apply bool_decide_eq_true in Hrp as Hp.
    assert (Ex : (k.1 - 1, origin x) = slot x) by (subst k; unfold slot; simpl; f_equal; lia).
    assert (Hgx : graph_map cs !! slot x = Some x) by (by apply graph_map_lookup).
    rewrite Ex. split_and!; simpl; [by rewrite Hgx|subst k; simpl; lia|]. by rewrite Hgx, Hc.
Qed.
End sample.

Section witnesses.
Import Toy SampleDag.

(** The graph of the two feeds that commit different certificates. *)
Notation sample_graph := (graph_of (genesis ++ feed_1)).

Lemma sample_graph_slots : NoDup (slot <$> genesis ++ feed_1).
Proof. apply (bool_decide_unpack _). vm_compute. exact I. Qed.

Lemma sample_good_feed cs :
  cs ≡ₚ feed_1 → causal genesis cs = true → good_feed Sample.committee 50 sample_graph cs.
Proof.
  intros Hp Hcausal. split; [|split; [|exact Hcausal]].
  - pose proof sample_graph_slots as Hnd. rewrite fmap_app in Hnd.
    apply NoDup_app in Hnd as (_ & _ & Hnd). by rewrite Hp.
  - assert (Hb : Forall (λ c, 0 < cround c ∧ cround c + 50 + 2 < two64) feed_1).
    { apply (bool_decide_unpack _). vm_compute. exact I. }
    rewrite Forall_forall in Hb. intros c Hc. rewrite Hp in Hc. split; [|by apply Hb].
    apply graph_of_certifies; [apply sample_graph_slots|]. apply elem_of_app. by right.
Qed.

Lemma sample_genesis g : g ∈ genesis → certifies sample_graph g.
Proof. intros Hg. apply graph_of_certifies; [apply sample_graph_slots|]. apply elem_of_app. by left. Qed.

Lemma sample_graph_ok : graph_ok Sample.committee sample_graph.
Proof. apply graph_of_ok. vm_compute. reflexivity. Qed.

Lemma leaders_follow_specification_witness :
  ∃ leaders s sequence,
    run_leaders Sample.committee 50 no_variables start feed_1 = Ret leaders ∧
    run Sample.committee 50 no_variables start feed_1 = Ret (s, sequence) ∧
    leaders `sublist_of` sequence.*1 ∧
    history Sample.committee sample_graph (last_committed_round s) (slot <$> leaders).
Proof.
  apply (leaders_follow_specification Sample.committee 50 no_variables sample_graph feed_1).
  - vm_compute. reflexivity.
  - exact sample_graph_ok.
  - intros E. assert (Hn : (committee_size Sample.committee =? 0) = false) by (vm_compute; reflexivity).
    apply N.eqb_neq in Hn. contradiction.
  - vm_compute. reflexivity.
  - exact sample_genesis.
  - apply sample_good_feed; [reflexivity|]. vm_compute. reflexivity.
  - vm_compute. discriminate.
Defined.

Lemma leaders_agreement_witness :
  ∃ leaders leaders',
    run_leaders Sample.committee 50 no_variables start feed_1 = Ret leaders ∧
    run_leaders Sample.committee 50 no_variables start feed_2 = Ret leaders' ∧
    ((slot <$> leaders) `prefix_of` (slot <$> leaders') ∨ (slot <$> leaders') `prefix_of` (slot <$> leaders)).
Proof.
  apply (leaders_agreement Sample.committee 50 no_variables no_variables sample_graph feed_1 feed_2).
  - vm_compute. reflexivity.
  - exact sample_graph_ok.
  - intros E. assert (Hn : (committee_size Sample.committee =? 0) = false) by (vm_compute; reflexivity).
    apply N.eqb_neq in Hn. contradiction.
  - vm_compute. reflexivity.
  - exact sample_genesis.
  - apply sample_good_feed; [reflexivity|]. vm_compute. reflexivity.
  - apply sample_good_feed; [symmetry; apply feeds_perm|]. vm_compute. reflexivity.
  - vm_compute. discriminate.
  - vm_compute. discriminate.
Defined.

End witnesses.
