(* ===== verification/Store.v ===== *)
(** The storage task ([src/store/src/lib.rs]).

    RocksDB is a parameter ([Rocksdb]), with what the store relies on as [RocksdbLaws]. The task is the
    function [handle_command] from its state (the database and the senders waiting for a key) and a command to
    the new state and the replies sent. The senders of the one-shot channels are values of a type [S];
    sending to a receiver that is gone is ignored by the code and is a reply nobody reads here. *)

From S2P Require Import Prelude Crypto Messages.

Notation Key := (list byte) (only parsing).
Notation Value := (list byte) (only parsing).

(** ** RocksDB *)

(** [put] and [get]; the result of [put] is ignored by the code. *)
Class Rocksdb `{Backend} := {
  DB : Type;
  db_open : DB;
  db_put : DB → Key → Value → DB;
  db_get : DB → Key → outcome StoreError (option Value)
}.

(** A database whose writes succeed: what was put is what is read, and nothing else changes. *)
Class RocksdbLaws `{Backend} (R : Rocksdb) : Prop := {
  db_get_open k : db_get db_open k = Ret None;
  db_get_put d k v : db_get (db_put d k v) k = Ret (Some v);
  db_get_put_ne d k k' v : k ≠ k' → db_get (db_put d k v) k' = db_get d k'
}.

(** ** The task *)

Section store.
Context `{R : Rocksdb} {S : Type}.

Inductive StoreCommand :=
| Write (key : Key) (value : Value)
| Read (key : Key) (sender : S)
| NotifyRead (key : Key) (sender : S).

(** A reply to a [Read] and to a [NotifyRead]. *)
Inductive Reply :=
| ReadReply (sender : S) (response : outcome StoreError (option Value))
| NotifyReply (sender : S) (response : outcome StoreError Value).

Record StoreTask := MkStoreTask {
  db : DB;
  obligations : gmap Key (list S)
}.

Definition StoreTask_new : StoreTask := MkStoreTask db_open ∅.

(** One iteration of the loop of the task. *)
Definition handle_command (t : StoreTask) (command : StoreCommand) : StoreTask * list Reply :=
  match command with
  | Write key value =>
      let db := db_put (db t) key value in
      match obligations t !! key with
      | Some senders =>
          (MkStoreTask db (delete key (obligations t)), (λ s, NotifyReply s (Ret value)) <$> senders)
      | None => (MkStoreTask db (obligations t), [])
      end
  | Read key sender => (t, [ReadReply sender (db_get (db t) key)])
  | NotifyRead key sender =>
      match db_get (db t) key with
      | Ret None =>
          (MkStoreTask (db t) (<[ key := default [] (obligations t !! key) ++ [sender] ]> (obligations t)), [])
      | Ret (Some value) => (t, [NotifyReply sender (Ret value)])
      | Throw e => (t, [NotifyReply sender (Throw e)])
      | Panic => (t, [NotifyReply sender Panic])
      end
  end.

Fixpoint handle_commands (t : StoreTask) (commands : list StoreCommand) : StoreTask * list Reply :=
  match commands with
  | [] => (t, [])
  | c :: commands =>
      let '(t, replies) := handle_command t c in
      let '(t, replies') := handle_commands t commands in
      (t, replies ++ replies')
  end.

(** ** Specification *)

(** The value last written under a key. *)
Fixpoint last_write (key : Key) (commands : list StoreCommand) (before : option Value) : option Value :=
  match commands with
  | [] => before
  | Write key' value :: commands => last_write key commands (if decide (key' = key) then Some value else before)
  | _ :: commands => last_write key commands before
  end.

(** The senders of the notifications asked for and of those sent, and those still waiting for a key. *)
Definition notify_senders (commands : list StoreCommand) : list S :=
  omap (λ c, match c with NotifyRead _ s => Some s | _ => None end) commands.
Definition notified (replies : list Reply) : list S :=
  omap (λ r, match r with NotifyReply s _ => Some s | _ => None end) replies.
Definition all_senders (m : gmap Key (list S)) : list S := (map_to_list m).*2 ≫= id.
Definition waiting (t : StoreTask) : list S := all_senders (obligations t).

Context `{L : !RocksdbLaws R}.

(** A sender waits only for a key that is not in the database. *)
Definition store_ok (t : StoreTask) : Prop :=
  ∀ key senders, obligations t !! key = Some senders → db_get (db t) key = Ret None.

Lemma handle_command_ok t c : store_ok t → store_ok (handle_command t c).1.
Proof.
  intros Ht. destruct c as [key value|key s|key s]; simpl; [|done|].
  - destruct (obligations t !! key) eqn:E; intros key' senders Hk; simpl in *.
    + apply lookup_delete_Some in Hk as [? Hk]. rewrite db_get_put_ne by done. by eapply Ht.
    + destruct (decide (key = key')) as [->|]; [congruence|]. rewrite db_get_put_ne by done. by eapply Ht.
  - destruct (db_get (db t) key) as [[v|]|?|] eqn:E; try exact Ht. intros key' senders Hk; simpl in *.
    apply lookup_insert_Some in Hk as [[<- _]|[_ Hk]]; [done|by eapply Ht].
Qed.

Lemma handle_command_get t c key :
  db_get (db (handle_command t c).1) key =
    match c with Write key' value => if decide (key' = key) then Ret (Some value) else db_get (db t) key | _ => db_get (db t) key end.
Proof.
  destruct c as [key' value|key' s|key' s]; simpl; [|done|].
  - assert (E : db_get (db_put (db t) key' value) key =
      if decide (key' = key) then Ret (Some value) else db_get (db t) key).
    { case_decide; [subst; apply db_get_put|by apply db_get_put_ne]. }
    by destruct (obligations t !! key').
  - by destruct (db_get (db t) key') as [[v|]|?|].
Qed.

Lemma all_senders_insert m key senders :
  m !! key = None → all_senders (<[ key := senders ]> m) ≡ₚ senders ++ all_senders m.
Proof. intros E. unfold all_senders. by rewrite map_to_list_insert. Qed.

Lemma all_senders_delete m key senders :
  m !! key = Some senders → all_senders m ≡ₚ senders ++ all_senders (delete key m).
Proof. intros E. unfold all_senders. by rewrite <-(map_to_list_delete _ _ _ E). Qed.

Lemma notified_replies senders response : notified ((λ s, NotifyReply s response) <$> senders) = senders.
Proof. unfold notified. induction senders as [|s senders IH]; csimpl; [done|]. by rewrite IH. Qed.

(** No notification is lost or duplicated by a command. *)
Lemma handle_command_senders t c :
  notified (handle_command t c).2 ++ waiting (handle_command t c).1 ≡ₚ notify_senders [c] ++ waiting t.
Proof.
  destruct c as [key value|key s|key s]; simpl; [|done|].
  - destruct (obligations t !! key) as [senders|] eqn:E; simpl; [|done].
    unfold waiting; simpl. by rewrite notified_replies, (all_senders_delete _ _ _ E).
  - destruct (db_get (db t) key) as [[v|]|?|]; simpl; try done. unfold waiting; simpl.
    destruct (obligations t !! key) as [senders|] eqn:E; simpl.
    + rewrite (all_senders_delete _ _ _ E), <-insert_delete_eq, all_senders_insert by (by rewrite lookup_delete_eq).
      solve_Permutation.
    + by rewrite all_senders_insert.
Qed.

End store.

Arguments StoreCommand _ : clear implicits.
Arguments Reply {_} _.
Arguments StoreTask {_ _} _.

(** ** The interface the other tasks use *)

(** A store that can be read and written; what a task relies on is [StorageLaws]. *)
Class Storage `{Backend} := {
  storage : Type;
  storage_read : storage → Key → outcome StoreError (option Value);
  storage_write : storage → Key → Value → storage
}.

Class StorageLaws `{Backend} (St : Storage) : Prop := {
  storage_read_total s k : ∃ v, storage_read s k = Ret v;
  storage_read_write s k v : storage_read (storage_write s k v) k = Ret (Some v);
  storage_read_write_ne s k k' v : k ≠ k' → storage_read (storage_write s k v) k' = storage_read s k'
}.

(** [Store::write] and [Store::read]: the command is sent to the task and the reply awaited. *)
Section store_client.
Context `{R : Rocksdb}.

Definition Store_write (t : StoreTask unit) (key : Key) (value : Value) : StoreTask unit :=
  (handle_command t (Write key value)).1.

Definition Store_read (t : StoreTask unit) (key : Key) : outcome StoreError (option Value) :=
  match (handle_command t (Read key ())).2 with
  | [ReadReply _ response] => response
  | _ => Panic
  end.

#[export] Instance store_storage : Storage :=
  {| storage := StoreTask unit; storage_read := Store_read; storage_write := Store_write |}.

(** The task implements the interface, on a database that never fails to read. *)
Lemma store_storage_laws : RocksdbLaws R → (∀ d k, ∃ v, db_get d k = Ret v) → StorageLaws store_storage.
Proof.
  intros HR Htotal. split.
  - intros t k. apply Htotal.
  - intros t k v. etrans; [apply (handle_command_get t (Write k v) k)|]. by rewrite decide_True.
  - intros t k k' v Hk. etrans; [apply (handle_command_get t (Write k v) k')|]. by rewrite decide_False.
Qed.
End store_client.

(** ** A database in memory *)

Module MapDB.
Import ToyBackend.

#[export] Instance map_rocksdb : @Rocksdb toy_backend := {|
  DB := gmap (list byte) (list byte);
  db_open := ∅;
  db_put d k v := <[ k := v ]> d;
  db_get d k := Ret (d !! k)
|}.

#[export] Instance map_rocksdb_laws : RocksdbLaws map_rocksdb.
Proof.
  split; simpl.
  - intros k. by rewrite lookup_empty.
  - intros d k v. by rewrite lookup_insert_eq.
  - intros d k k' v ?. by rewrite lookup_insert_ne.
Qed.

#[export] Instance map_storage : @Storage toy_backend := store_storage.

#[export] Instance map_storage_laws : StorageLaws map_storage.
Proof. apply store_storage_laws; [apply _|]. intros d k. by exists (d !! k). Qed.
End MapDB.

(** ** Properties *)

Section runs.
Context `{R : Rocksdb, !RocksdbLaws R} {S : Type}.
Implicit Types (t : StoreTask S) (commands : list (StoreCommand S)).

Lemma last_write_get commands t v key :
  db_get (db t) key = Ret v → db_get (db (handle_commands t commands).1) key = Ret (last_write key commands v).
Proof.
  revert t v. induction commands as [|c commands IH]; intros t v Ht; simpl; [done|].
  pose proof (handle_command_get t c key) as Hc.
  destruct (handle_command t c) as [t1 r1]. specialize (IH t1).
  destruct (handle_commands t1 commands) as [t2 r2]. simpl in *.
  destruct c as [key' value|key' s'|key' s']; try case_decide; apply IH; by rewrite Hc.
Qed.

Lemma notified_app (l k : list (Reply S)) : notified (l ++ k) = notified l ++ notified k.
Proof. apply omap_app. Qed.

Lemma notify_senders_cons c commands : notify_senders (c :: commands) = notify_senders [c] ++ notify_senders commands.
Proof. apply (omap_app _ [c]). Qed.

Lemma handle_commands_senders commands t :
  store_ok t → notified (handle_commands t commands).2 ++ waiting (handle_commands t commands).1
    ≡ₚ notify_senders commands ++ waiting t ∧ store_ok (handle_commands t commands).1.
Proof.
  revert t. induction commands as [|c commands IH]; intros t Ht; cbn [handle_commands]; [done|].
  pose proof (handle_command_ok t c Ht) as Hok. pose proof (handle_command_senders t c) as Hs.
  destruct (handle_command t c) as [t1 r1]. specialize (IH t1 Hok).
  destruct (handle_commands t1 commands) as [t2 r2]. destruct IH as [IH ?]. split; [|done]. cbn [fst snd] in *.
  rewrite notified_app, notify_senders_cons, <-app_assoc, IH, <-app_assoc.
  trans (notify_senders commands ++ notify_senders [c] ++ waiting t); [rewrite <-Hs|]; solve_Permutation.
Qed.
End runs.

(** ** Properties *)

(** A read returns the value last written under its key, whatever the commands before it. *)
Theorem read_last_write `{R : Rocksdb, !RocksdbLaws R} {S} (commands : list (StoreCommand S)) key (s : S) :
  let t := (handle_commands StoreTask_new commands).1 in
  (handle_command t (Read key s)).2 = [ReadReply s (Ret (last_write key commands None))].
Proof. cbv zeta. simpl. by rewrite (last_write_get _ _ None) by apply db_get_open. Qed.

(** C32: No request to be notified is lost or answered twice: the senders answered and those still waiting
    are those that asked. Only keys that were never written have senders waiting, and a write answers all
    those waiting for its key, in the order they asked, with the value written. *)
Theorem notify_read_spec `{R : Rocksdb, !RocksdbLaws R} {S} (commands : list (StoreCommand S)) :
  let t := (handle_commands StoreTask_new commands).1 in
  notified (handle_commands StoreTask_new commands).2 ++ waiting t ≡ₚ notify_senders commands ∧
  (∀ key senders, obligations t !! key = Some senders → last_write key commands None = None) ∧
  ∀ key senders value, obligations t !! key = Some senders →
    handle_command t (Write key value) =
      (MkStoreTask (db_put (db t) key value) (delete key (obligations t)), (λ s, NotifyReply s (Ret value)) <$> senders).
Proof.
  cbv zeta. destruct (handle_commands_senders commands StoreTask_new) as [Hp Hok]; [done|]. split_and!.
  - rewrite Hp. unfold waiting, all_senders; simpl. by rewrite map_to_list_empty, app_nil_r.
  - intros key senders Hk%Hok. rewrite (last_write_get _ _ None) in Hk by apply db_get_open. by simplify_eq.
  - intros key senders value Hk. simpl. by rewrite Hk.
Qed.

Section witnesses.
Import ToyBackend MapDB.

Lemma read_last_write_witness :
  (handle_command (handle_commands StoreTask_new [Write [x01] [x02]; Read [x01] 1; Write [x01] [x03]]).1
    (Read [x01] 2)).2 = [ReadReply 2 (Ret (Some [x03]))].
Proof. apply (@read_last_write _ MapDB.map_rocksdb MapDB.map_rocksdb_laws N). Defined.

Lemma notify_read_spec_witness :
  let commands := [NotifyRead [x01] 1; Write [x02] []; NotifyRead [x01] 2; NotifyRead [x02] 3] in
  let t := (handle_commands StoreTask_new commands).1 in
  notified (handle_commands StoreTask_new commands).2 ++ waiting t ≡ₚ [1; 2; 3] ∧
  (handle_command t (Write [x01] [x05])).2 = [NotifyReply 1 (Ret [x05]); NotifyReply 2 (Ret [x05])].
Proof.
  cbv zeta.
  destruct (@notify_read_spec _ MapDB.map_rocksdb MapDB.map_rocksdb_laws N
    [NotifyRead [x01] 1; Write [x02] []; NotifyRead [x01] 2; NotifyRead [x02] 3]) as (H1 & _ & H3).
  split; [exact H1|]. rewrite (H3 [x01] [1; 2] [x05]); reflexivity.
Defined.
End witnesses.
