(* ===== verification/Primary.v ===== *)
(** The messages of the primary and its receivers ([src/primary/src/primary.rs]), and the parts of the
    primary that answer from the store: the [Synchronizer] ([synchronizer.rs]), the [Helper]
    ([helper.rs]) and the [PayloadReceiver] ([payload_receiver.rs]).

    What a function sends on a channel or on the network is part of its result. The store is the
    interface [Storage], and [bincode] a parameter. *)

From S2P Require Import Prelude Crypto Config Messages Store.

(** ** Messages *)

Inductive PrimaryMessage :=
| PMHeader (header : Header)
| PMVote (vote : Vote)
| PMCertificate (certificate : Certificate)
| PMCertificatesRequest (missing : list Digest) (requestor : PublicKey).

#[export] Instance PrimaryMessage_eq_dec : EqDecision PrimaryMessage.
Proof. solve_decision. Defined.

Inductive PrimaryWorkerMessage :=
| Synchronize (digests : list Digest) (target : PublicKey)
| Cleanup (round : Round)
| BatchSilent (round : Round) (pause : bool).

Inductive WorkerPrimaryMessage :=
| OurBatch (digest : Digest) (id : WorkerId)
| OthersBatch (digest : Digest) (id : WorkerId).

(** The commands that can be sent to the [HeaderWaiter] ([header_waiter.rs]). *)
Inductive WaiterMessage :=
| SyncBatches (missing : gmap Digest WorkerId) (header : Header)
| SyncParents (missing : list Digest) (header : Header).

#[export] Instance WaiterMessage_eq_dec : EqDecision WaiterMessage.
Proof. solve_decision. Defined.

(** The key [[digest.as_ref(), &worker_id.to_le_bytes()].concat()]. *)
Definition payload_key (digest : Digest) (worker_id : WorkerId) : Key :=
  Digest_to_vec digest ++ le_bytes 4 worker_id.

(** It is longer than a digest. *)
Lemma payload_key_digest digest worker_id d : payload_key digest worker_id ≠ Digest_to_vec d.
Proof.
  intros E%(f_equal length). unfold payload_key in E. by rewrite length_app, !length_Digest_to_vec, length_le_bytes in E.
Qed.

(** What the receivers do with a message, in order. *)
Inductive Dispatch :=
| Ack
| ToCore (m : PrimaryMessage)
| ToHelper (missing : list Digest) (requestor : PublicKey)
| ToOurDigests (digest : Digest) (id : WorkerId)
| ToOthersDigests (digest : Digest) (id : WorkerId).

Section primary.
Context `{!Sha512, !Dalek, !Backend, !Storage}.
Context `{!Bincode Header, !Bincode Certificate, !Bincode PrimaryMessage, !Bincode WorkerPrimaryMessage}.

(** ** The receivers *)

(** [PrimaryReceiverHandler::dispatch]. *)
Definition dispatch_primary (serialized : list byte) : list Dispatch * DagResult unit :=
  match map_err SerializationError (deserialize serialized) with
  | Ret (PMCertificatesRequest missing requestor) => ([Ack; ToHelper missing requestor], Ret ())
  | Ret request => ([Ack; ToCore request], Ret ())
  | Throw e => ([Ack], Throw e)
  | Panic => ([Ack], Panic)
  end.

(** [WorkerReceiverHandler::dispatch]. *)
Definition dispatch_worker (serialized : list byte) : list Dispatch * DagResult unit :=
  match map_err SerializationError (deserialize serialized) with
  | Ret (OurBatch digest worker_id) => ([ToOurDigests digest worker_id], Ret ())
  | Ret (OthersBatch digest worker_id) => ([ToOthersDigests digest worker_id], Ret ())
  | Throw e => ([], Throw e)
  | Panic => ([], Panic)
  end.

(** ** [PayloadReceiver] *)

(** One iteration of [PayloadReceiver::run]. *)
Definition receive_payload (s : storage) (digest : Digest) (worker_id : WorkerId) : storage :=
  storage_write s (payload_key digest worker_id) [].

(** ** [Synchronizer] *)

Variable name : PublicKey.
Variable committee : Committee.

(** [Store::read(..).await?]. *)
Definition read (s : storage) (key : Key) : DagResult (option Value) := map_err StoreFailure (storage_read s key).

(** The genesis with its digests, as [Synchronizer::new] collects it. *)
Definition genesis_digests : list (Digest * Certificate) := (λ x, (digest x, x)) <$> genesis committee.

(** [for (digest, worker_id) in header.payload.iter()]. *)
Fixpoint missing_payload_loop (s : storage) (payload : list (Digest * WorkerId)) (missing : gmap Digest WorkerId) :
    DagResult (gmap Digest WorkerId) :=
  match payload with
  | [] => Ret missing
  | (digest, worker_id) :: payload =>
      value ← read s (payload_key digest worker_id);
      missing_payload_loop s payload
        (match value : option Value with None => <[ digest := worker_id ]> missing | Some _ => missing end)
  end.

(** [Synchronizer::missing_payload]: the result and what is sent to the [HeaderWaiter]. *)
Definition missing_payload (s : storage) (header : Header) : DagResult (bool * list WaiterMessage) :=
  if decide (hd_author header = name) then Ret (false, [])
  else
    missing ← missing_payload_loop s (btree_iter (hd_payload header)) ∅;
    if decide (missing = ∅) then Ret (false, [])
    else Ret (true, [SyncBatches missing header]).

(** [self.genesis.iter().find(|(x, _)| x == digest)]. *)
Definition find_genesis (d : Digest) : option Certificate := find_key d genesis_digests.

(** [for digest in &header.parents]. *)
Fixpoint get_parents_loop (s : storage) (digests missing : list Digest) (parents : list Certificate) :
    DagResult (list Digest * list Certificate) :=
  match digests with
  | [] => Ret (missing, parents)
  | d :: digests =>
      match find_genesis d with
      | Some genesis => get_parents_loop s digests missing (parents ++ [genesis])
      | None =>
          value ← read s (Digest_to_vec d);
          match value with
          | Some certificate =>
              certificate ← map_err SerializationError (deserialize certificate);
              get_parents_loop s digests missing (parents ++ [certificate])
          | None => get_parents_loop s digests (missing ++ [d]) parents
          end
      end
  end.

(** [Synchronizer::get_parents]. *)
Definition get_parents (s : storage) (header : Header) : DagResult (list Certificate * list WaiterMessage) :=
  '(missing, parents) ← get_parents_loop s (btree_elems (hd_parents header)) [] [];
  match missing with
  | [] => Ret (parents, [])
  | _ => Ret ([], [SyncParents missing header])
  end.

Fixpoint deliver_loop (s : storage) (certificate : Certificate) (digests : list Digest) :
    DagResult (bool * list Certificate) :=
  match digests with
  | [] => Ret (true, [])
  | d :: digests =>
      if existsb (λ x, bool_decide (x.1 = d)) genesis_digests then deliver_loop s certificate digests
      else
        value ← read s (Digest_to_vec d);
        match value : option Value with
        | None => Ret (false, [certificate])
        | Some _ => deliver_loop s certificate digests
        end
  end.

(** [Synchronizer::deliver_certificate]: the result and what is sent to the [CertificateWaiter]. *)
Definition deliver_certificate (s : storage) (certificate : Certificate) : DagResult (bool * list Certificate) :=
  deliver_loop s certificate (btree_elems (hd_parents (ct_header certificate))).

(** ** [Helper] *)

(** The loop over the digests requested: the certificates sent, and how it ends, with a panic when what is stored
    does not deserialize. *)
Fixpoint help_loop (s : storage) (address : SocketAddr) (digests : list Digest) :
    list (SocketAddr * list byte) * DagResult unit :=
  match digests with
  | [] => ([], Ret ())
  | d :: digests =>
      match storage_read s (Digest_to_vec d) with
      | Ret (Some data) =>
          match deserialize data with
          | Ret certificate =>
              let '(sent, result) := help_loop s address digests in
              ((address, serialize (PMCertificate certificate)) :: sent, result)
          | _ => ([], Panic)
          end
      | Panic => ([], Panic)
      | _ => help_loop s address digests
      end
  end.

(** One iteration of [Helper::run]. *)
Definition help (s : storage) (digests : list Digest) (origin : PublicKey) :
    list (SocketAddr * list byte) * DagResult unit :=
  match Config.primary committee origin with
  | Ret x => help_loop s (primary_to_primary x) digests
  | _ => ([], Ret ())
  end.

(** ** Lemmas *)

Context `{!StorageLaws _}.

(** The key is in the store. *)
Definition stored (s : storage) (key : Key) : Prop := ∃ v, storage_read s key = Ret (Some v).

Lemma read_cases s key : (∃ v, read s key = Ret (Some v) ∧ stored s key) ∨ (read s key = Ret None ∧ ¬ stored s key).
Proof.
  unfold read, stored. destruct (storage_read_total s key) as [[v|] ->]; [left; eauto|right].
  split; [done|]. intros [v ?]. simplify_eq.
Qed.

Lemma missing_payload_loop_spec s payload missing :
  NoDup payload.*1 → (∀ d w, (d, w) ∈ payload → missing !! d = None) →
  ∃ m, missing_payload_loop s payload missing = Ret m ∧
    ∀ d w, m !! d = Some w ↔ missing !! d = Some w ∨ (d, w) ∈ payload ∧ ¬ stored s (payload_key d w).
Proof.
  revert missing. induction payload as [|[d w] payload IH]; intros missing Hnd Hnew; csimpl.
  { exists missing. split; [done|]. set_solver. }
  csimpl in Hnd. apply NoDup_cons in Hnd as [Hd Hnd].
  assert (Hm : missing !! d = None) by (apply (Hnew d w); left).
  destruct (read_cases s (payload_key d w)) as [(v & -> & Hs)|[-> Hs]]; simpl.
  - destruct (IH missing) as (m & -> & Hspec); [done|intros; eapply Hnew; by right|].
    exists m. split; [done|]. intros d' w'. rewrite Hspec, elem_of_cons. naive_solver.
  - destruct (IH (<[ d := w ]> missing)) as (m & -> & Hspec); [done| |].
    + intros d' w' Hin. rewrite lookup_insert_ne; [eapply Hnew; by right|].
      intros ->. apply Hd. apply list_elem_of_fmap. by exists (d', w').
    + exists m. split; [done|]. intros d' w'. rewrite Hspec, elem_of_cons, lookup_insert_Some.
      destruct (decide (d = d')) as [<-|]; naive_solver.
Qed.

(** The batches of a header that the store does not have. *)
Lemma missing_payload_loop_all s h :
  ∃ m, missing_payload_loop s (btree_iter (hd_payload h)) ∅ = Ret m ∧
    ∀ d w, m !! d = Some w ↔ hd_payload h !! d = Some w ∧ ¬ stored s (payload_key d w).
Proof.
  destruct (missing_payload_loop_spec s (btree_iter (hd_payload h)) ∅) as (m & -> & Hm).
  - rewrite btree_iter_keys. apply NoDup_btree_keys.
  - intros. apply lookup_empty.
  - exists m. split; [done|]. intros d w. rewrite Hm, lookup_empty, elem_of_btree_iter. naive_solver.
Qed.

(** The certificate a digest stands for, in the genesis or in the store. *)
Definition lookup_certificate (s : storage) (d : Digest) : option Certificate :=
  match find_genesis d with
  | Some g => Some g
  | None =>
      match storage_read s (Digest_to_vec d) with
      | Ret (Some v) => match deserialize v with Ret c => Some c | _ => None end
      | _ => None
      end
  end.

(** What the store holds under the digests of a list are certificates. *)
Definition holds_certificates (s : storage) (digests : list Digest) : Prop :=
  ∀ d v, d ∈ digests → find_genesis d = None → storage_read s (Digest_to_vec d) = Ret (Some v) →
    ∃ c : Certificate, deserialize v = Ret c.

Lemma get_parents_loop_spec s digests missing parents :
  holds_certificates s digests →
  get_parents_loop s digests missing parents =
    Ret (missing ++ filter (λ d, lookup_certificate s d = None) digests, parents ++ omap (lookup_certificate s) digests).
Proof.
  revert missing parents. induction digests as [|d digests IH]; intros missing parents Hc; csimpl.
  { by rewrite !app_nil_r. }
  assert (Hc' : holds_certificates s digests) by (intros d' v Hd; eapply Hc; by right).
  rewrite filter_cons. destruct (find_genesis d) as [g|] eqn:Eg.
  - assert (El : lookup_certificate s d = Some g) by (unfold lookup_certificate; by rewrite Eg).
    rewrite El, decide_False by done. by rewrite IH, <-app_assoc.
  - unfold read. destruct (storage_read_total s (Digest_to_vec d)) as [[v|] E]; rewrite E; simpl.
    + destruct (Hc d v) as [c Ec]; [by left|done..|].
      assert (El : lookup_certificate s d = Some c) by (unfold lookup_certificate; by rewrite Eg, E, Ec).
      rewrite Ec, El, decide_False by done. simpl. by rewrite IH, <-app_assoc.
    + assert (El : lookup_certificate s d = None) by (unfold lookup_certificate; by rewrite Eg, E).
      rewrite El, decide_True by done. by rewrite IH, <-app_assoc.
Qed.

Lemma existsb_genesis d : existsb (λ x, bool_decide (x.1 = d)) genesis_digests = true ↔ is_Some (find_genesis d).
Proof.
  rewrite existsb_In. setoid_rewrite bool_decide_eq_true. unfold find_genesis, find_key. split.
  - intros (x & Hx & Hd). destruct (list_find_elem_of (λ x : Digest * Certificate, x.1 = d) genesis_digests x)
      as [? ->]; eauto.
  - intros [c (x & ([i x'] & E & ->)%fmap_Some & ->)%fmap_Some]. simpl in *.
    apply list_find_Some in E as (Hi & Hd & _). exists x'. split; [by eapply list_elem_of_lookup_2|done].
Qed.

(** A parent is available when it is in the genesis or in the store. *)
Definition available (s : storage) (d : Digest) : Prop := is_Some (find_genesis d) ∨ stored s (Digest_to_vec d).

Lemma deliver_loop_spec s c digests :
  (Forall (available s) digests ∧ deliver_loop s c digests = Ret (true, [])) ∨
  (¬ Forall (available s) digests ∧ deliver_loop s c digests = Ret (false, [c])).
Proof.
  induction digests as [|d digests IH]; [left; by split|]. cbn [deliver_loop]. rewrite Forall_cons.
  unfold available at 1 3. destruct (existsb _ _) eqn:E.
  - apply existsb_genesis in E. tauto.
  - assert (Hn : ¬ is_Some (find_genesis d)) by (rewrite <-existsb_genesis, E; done).
    destruct (read_cases s (Digest_to_vec d)) as [(v & -> & Hs)|[-> Hs]]; simpl; tauto.
Qed.

End primary.

(** ** Properties *)

Section properties.
Context `{!Sha512, !Dalek, !Backend, !Storage, !StorageLaws _}.
Context `{!Bincode Header, !Bincode Certificate, !Bincode PrimaryMessage}.

(** [missing_payload] lets a header through exactly when it is our own or the store has a mark for every
    (batch, worker) pair of its payload; otherwise the pairs without a mark, and only those, are sent to the
    [HeaderWaiter] with the header. *)
Theorem missing_payload_spec name s h :
  ∃ missing, (∀ d w, missing !! d = Some w ↔ hd_payload h !! d = Some w ∧ ¬ stored s (payload_key d w)) ∧
    missing_payload name s h =
      if decide (hd_author h = name ∨ missing = ∅) then Ret (false, []) else Ret (true, [SyncBatches missing h]).
Proof.
  destruct (missing_payload_loop_all s h) as (m & E & Hm). exists m. split; [done|].
  unfold missing_payload. rewrite E; simpl. destruct (decide (hd_author h = name)), (decide (m = ∅));
    destruct (decide (_ ∨ _)); naive_solver.
Qed.

(** [get_parents] returns the certificates of all the parents, in the order of their digests, or no
    certificate when one is neither in the genesis nor in the store; then exactly the digests of those are
    sent to the [HeaderWaiter] with the header. *)
Theorem get_parents_spec committee s h :
  let digests := btree_elems (hd_parents h) in
  holds_certificates committee s digests →
  get_parents committee s h =
    match filter (λ d, lookup_certificate committee s d = None) digests with
    | [] => Ret (omap (lookup_certificate committee s) digests, [])
    | missing => Ret ([], [SyncParents missing h])
    end.
Proof.
  intros digests Hc. unfold get_parents. rewrite get_parents_loop_spec by done. simpl. fold digests.
  by destruct (filter _ _).
Qed.

(** [deliver_certificate] succeeds exactly when every parent is in the genesis or in the store, and
    otherwise hands the certificate, once, to the [CertificateWaiter]. *)
Theorem deliver_certificate_spec committee s c :
  let all := ∀ d, d ∈ hd_parents (ct_header c) → available committee s d in
  (all ∧ deliver_certificate committee s c = Ret (true, [])) ∨
  (¬ all ∧ deliver_certificate committee s c = Ret (false, [c])).
Proof.
  unfold deliver_certificate.
  destruct (deliver_loop_spec committee s c (btree_elems (hd_parents (ct_header c)))) as [[Ha E]|[Ha E]];
    rewrite Forall_forall in Ha; setoid_rewrite elem_of_btree_elems in Ha; auto.
Qed.

(** C22: Headers and certificates are in one store, and the [Helper] takes what it finds under a digest for a
    certificate: a request that has the id of a stored header among its digests ends the task with a panic, for
    every requestor of the committee, if [bincode] does not read a certificate out of the bytes of a header. *)
Theorem helper_panics_on_header_id committee s h digests origin :
  origin ∈ members committee → storage_read s (Digest_to_vec (hd_id h)) = Ret (Some (serialize h)) →
  (∀ c : Certificate, deserialize (serialize h) ≠ Ret c) → hd_id h ∈ digests →
  (help committee s digests origin).2 = Panic.
Proof.
  unfold members. intros Ho Hs Hb Hin. unfold help, Config.primary. apply elem_of_dom in Ho as [a Ha]. rewrite Ha. simpl.
  set (address := primary_to_primary _). clearbody address.
  induction digests as [|d digests IH]; [by apply not_elem_of_nil in Hin|]. simpl.
  apply elem_of_cons in Hin as [<-|Hin].
  - rewrite Hs. destruct (deserialize (serialize h)) as [c| |]; [by destruct (Hb c)|done..].
  - specialize (IH Hin). destruct (storage_read s (Digest_to_vec d)) as [[data|]| |]; [|done..].
    destruct (deserialize data); [|done..]. by destruct (help_loop _ _ _).
Qed.
End properties.

(** ** Evaluation on a store in memory *)

Module SampleStore.
Import Toy ToyBackend ToyBincode MapDB SampleMessages.

#[export] Program Instance primary_message_countable : Countable PrimaryMessage :=
  inj_countable'
    (λ m, match m with
          | PMHeader h => inl (inl h)
          | PMVote v => inl (inr (vt_id v, vt_round v, vt_origin v, vt_author v, vt_signature v))
          | PMCertificate c => inr (inl c)
          | PMCertificatesRequest l k => inr (inr (l, k))
          end)
    (λ m, match m with
          | inl (inl h) => PMHeader h
          | inl (inr (i, r, o, a, g)) => PMVote (MkVote i r o a g)
          | inr (inl c) => PMCertificate c
          | inr (inr (l, k)) => PMCertificatesRequest l k
          end) _.
Next Obligation. by intros [|[]| |]. Qed.

#[export] Instance primary_message_bincode : Bincode PrimaryMessage := toy_bincode PrimaryMessage x03.

(** A store with the header [h1], the certificate [c1] and the mark of a batch. *)
Definition s1 : storage :=
  storage_write (storage_write (storage_write StoreTask_new (Digest_to_vec (hd_id h1)) (serialize h1))
    (Digest_to_vec (digest c1)) (serialize c1)) (payload_key (dg 5) 0) [].

(** A header on the certificate [c1]. *)
Definition h2 : Header := MkHeader (pk 2) 2 {[ dg 5 := 0 ]} {[ digest c1 ]} Digest_default Signature_default.
End SampleStore.

Section witnesses.
Import Toy ToyBackend ToyBincode MapDB SampleMessages SampleStore.

Lemma missing_payload_spec_witness :
  ∃ missing, (∀ d w, missing !! d = Some w ↔ hd_payload h2 !! d = Some w ∧ ¬ stored s1 (payload_key d w)) ∧
    missing_payload (pk 1) s1 h2 =
      if decide (hd_author h2 = pk 1 ∨ missing = ∅) then Ret (false, []) else Ret (true, [SyncBatches missing h2]).
Proof. apply missing_payload_spec. Defined.

Lemma get_parents_spec_witness :
  get_parents Sample.committee s1 h2 =
    match filter (λ d, lookup_certificate Sample.committee s1 d = None) (btree_elems (hd_parents h2)) with
    | [] => Ret (omap (lookup_certificate Sample.committee s1) (btree_elems (hd_parents h2)), [])
    | missing => Ret ([], [SyncParents missing h2])
    end.
Proof.
  apply get_parents_spec. intros d v Hd _. rewrite elem_of_btree_elems in Hd. apply (elem_of_singleton (C := gset Digest) d (digest c1)) in Hd as ->.
  intros E. exists c1. assert (E' : storage_read s1 (Digest_to_vec (digest c1)) = Ret (Some (serialize c1))).
  { unfold s1. rewrite storage_read_write_ne; [apply storage_read_write|].
    apply (bool_decide_unpack _). vm_compute. exact I. }
  rewrite E' in E. injection E as <-. apply toy_bincode_laws.
Defined.

Lemma deliver_certificate_spec_witness :
  let all := ∀ d, d ∈ hd_parents (ct_header c1) → available Sample.committee s1 d in
  (all ∧ deliver_certificate Sample.committee s1 c1 = Ret (true, [])) ∨
  (¬ all ∧ deliver_certificate Sample.committee s1 c1 = Ret (false, [c1])).
Proof. apply deliver_certificate_spec. Defined.

Lemma helper_panics_on_header_id_witness :
  length (help Sample.committee s1 [digest c1; hd_id h1] (pk 2)).1 = 1%nat ∧
  (help Sample.committee s1 [digest c1; hd_id h1] (pk 2)).2 = Panic.
Proof.
  split; [vm_compute; reflexivity|]. apply helper_panics_on_header_id with (h := h1).
  - apply (bool_decide_unpack _). vm_compute. exact I.
  - unfold s1. rewrite storage_read_write_ne, storage_read_write_ne; [apply storage_read_write|..];
      apply (bool_decide_unpack _); vm_compute; exact I.
  - intros c E. assert (E' : is_ret (deserialize (A := Certificate) (serialize h1)) = false)
      by (vm_compute; reflexivity). rewrite E in E'. discriminate E'.
  - apply list_elem_of_further, list_elem_of_here.
Defined.
End witnesses.
