(* ===== verification/Core.v ===== *)
(** The core of the primary ([src/primary/src/core.rs]): the processing of headers, votes and certificates.

    A handler is a computation over the state of the core that emits messages and returns a [DagResult];
    its changes to the state and its messages stay when it fails, as with [&mut self] in the code. The
    handlers call each other and run on fuel; [fuel_enough] shows that the seven levels of [core_fuel] are
    always enough. A handler runs on the store as it finds it and as it writes it; what other tasks write
    comes between two handlers. *)

From S2P Require Import Prelude Crypto Config Messages Aggregators Store Primary.

(** ** State and effects *)

(** A [CancelHandler] keeps the message it can cancel in flight. *)
Notation CancelHandler := (SocketAddr * PrimaryMessage)%type (only parsing).

Record Core `{Backend, !Storage} := MkCore {
  store : storage;
  gc_round : Round;
  last_voted : gmap Round (gset PublicKey);
  processing : gmap Round (gset Digest);
  current_header : Header;
  votes_aggregator : VotesAggregator.t;
  certificates_aggregators : gmap Round CertificatesAggregator.t;
  cancel_handlers : gmap Round (list CancelHandler)
}.

Arguments MkCore {_ _} _ _ _ _ _ _ _ _.

(** What the core sends: on the network (reliably) and on its channels, those to the store and to the
    signature service included (which gets the digest of the vote). *)
Inductive Effect :=
| ToStore (key : Key) (value : Value)
| ToSignatureService (vote : Vote)
| NetworkSend (address : SocketAddr) (m : PrimaryMessage)
| NetworkBroadcast (addresses : list SocketAddr) (m : PrimaryMessage)
| ToHeaderWaiter (m : WaiterMessage)
| ToCertificateWaiter (c : Certificate)
| ToProposer (parents : list Digest) (round : Round)
| ToConsensus (c : Certificate).

#[export] Instance Effect_eq_dec : EqDecision Effect.
Proof. solve_decision. Defined.

Section monad.
Context `{!Dalek, !Backend, !Storage}.

(** [None] is the end of the fuel. *)
Definition handler (A : Type) : Type := Core → option (Core * list Effect * DagResult A).

#[export] Instance handler_ret : MRet handler := λ A a c, Some (c, [], Ret a).
#[export] Instance handler_bind : MBind handler := λ A B f m c,
  match m c with
  | Some (c, es, Ret a) =>
      match f a c with Some (c, es', r) => Some (c, es ++ es', r) | None => None end
  | Some (c, es, Throw e) => Some (c, es, Throw e)
  | Some (c, es, Panic) => Some (c, es, Panic)
  | None => None
  end.

Definition get {A} (f : Core → A) : handler A := λ c, Some (c, [], Ret (f c)).
Definition modify (f : Core → Core) : handler unit := λ c, Some (f c, [], Ret ()).
Definition emit (es : list Effect) : handler unit := λ c, Some (c, es, Ret ()).
Definition lift {A} (r : DagResult A) : handler A := λ c, Some (c, [], r).
Definition out_of_fuel {A} : handler A := λ c, None.

(** [m.await.expect(..)]. *)
Definition expect_ok {A} (m : handler A) : handler A := λ c,
  match m c with
  | Some (c, es, Throw _) => Some (c, es, Panic)
  | r => r
  end.
End monad.

(** ** Updates of single fields *)

Section fields.
Context `{!Backend, !Storage}.
Implicit Types c : Core.

Definition set_store f c := MkCore (f (store c)) (gc_round c) (last_voted c) (processing c) (current_header c)
  (votes_aggregator c) (certificates_aggregators c) (cancel_handlers c).
Definition set_last_voted f c := MkCore (store c) (gc_round c) (f (last_voted c)) (processing c) (current_header c)
  (votes_aggregator c) (certificates_aggregators c) (cancel_handlers c).
Definition set_processing f c := MkCore (store c) (gc_round c) (last_voted c) (f (processing c)) (current_header c)
  (votes_aggregator c) (certificates_aggregators c) (cancel_handlers c).
Definition set_current h a c := MkCore (store c) (gc_round c) (last_voted c) (processing c) h
  a (certificates_aggregators c) (cancel_handlers c).
Definition set_votes_aggregator a c := set_current (current_header c) a c.
Definition set_certificates_aggregators f c := MkCore (store c) (gc_round c) (last_voted c) (processing c)
  (current_header c) (votes_aggregator c) (f (certificates_aggregators c)) (cancel_handlers c).
Definition set_cancel_handlers f c := MkCore (store c) (gc_round c) (last_voted c) (processing c)
  (current_header c) (votes_aggregator c) (certificates_aggregators c) (f (cancel_handlers c)).

(** [.entry(round).or_insert_with(HashSet::new).insert(x)]. *)
Definition insert_at {K} `{Countable K} (round : Round) (x : K) (m : gmap Round (gset K)) : gmap Round (gset K) :=
  <[ round := {[ x ]} ∪ default ∅ (m !! round) ]> m.

(** [.entry(round).or_insert_with(Vec::new).extend(handlers)]. *)
Definition extend_at (round : Round) (handlers : list CancelHandler) (m : gmap Round (list CancelHandler)) :=
  <[ round := default [] (m !! round) ++ handlers ]> m.

(** [.get(&round).map_or_else(|| false, |x| x.contains(..))]. *)
Definition contains_at {K} `{Countable K} (round : Round) (x : K) (m : gmap Round (gset K)) : bool :=
  match m !! round with Some s => bool_decide (x ∈ s) | None => false end.
End fields.

(** ** Handlers *)

Section core.
Context `{!Sha512, !Dalek, !Backend, !Storage, !Bincode Header, !Bincode Certificate}.
Variables (name : PublicKey) (committee : Committee) (signature_service : SecretKey) (gc_depth : Round).

(** The state [Core::spawn] starts with. *)
Definition Core_new (s : storage) : Core :=
  MkCore s 0 ∅ ∅ Header_default VotesAggregator.new ∅ ∅.

Definition primary_addresses : list SocketAddr := (λ x, primary_to_primary x.2) <$> others_primaries committee name.

(** [self.network.broadcast(addresses, ..)] and the handlers it returns, kept under a round. *)
Definition broadcast (round : Round) (m : PrimaryMessage) : handler unit :=
  emit [NetworkBroadcast primary_addresses m];;
  modify (set_cancel_handlers (extend_at round ((λ a, (a, m)) <$> primary_addresses))).

(** [self.store.write(key, value)]. *)
Definition write (key : Key) (value : Value) : handler unit :=
  emit [ToStore key value];; modify (set_store (λ s, storage_write s key value)).

(** The loop over the parents of a header: the stake of their authors. *)
Fixpoint check_parents (header : Header) (parents : list Certificate) (acc : Stake) : DagResult Stake :=
  match parents with
  | [] => Ret acc
  | x :: parents =>
      ensure (u64_add (cround x) 1 =? hd_round header) (MalformedHeader (hd_id header));;
      check_parents header parents (u32_add acc (stake committee (origin x)))
  end.

(** The calls to the synchronizer. *)
Definition call_get_parents (header : Header) : handler (list Certificate) :=
  s ← get store;
  '(parents, messages) ← lift (get_parents committee s header);
  emit (ToHeaderWaiter <$> messages);;
  mret parents.

Definition call_missing_payload (header : Header) : handler bool :=
  s ← get store;
  '(missing, messages) ← lift (missing_payload name s header);
  emit (ToHeaderWaiter <$> messages);;
  mret missing.

Definition call_deliver_certificate (certificate : Certificate) : handler bool :=
  s ← get store;
  '(delivered, certificates) ← lift (deliver_certificate committee s certificate);
  emit (ToCertificateWaiter <$> certificates);;
  mret delivered.

(** The address the vote for a header goes to. *)
Definition author_address (header : Header) : DagResult SocketAddr :=
  match Config.primary committee (hd_author header) with
  | Ret x => Ret (primary_to_primary x)
  | _ => Panic
  end.

(** [Vote::new(header, &self.name, &mut self.signature_service)]: the digest of the vote without a signature
    is what the service signs. *)
Definition unsigned_vote (header : Header) : Vote :=
  MkVote (hd_id header) (hd_round header) (hd_author header) name Signature_default.

Definition call_vote (header : Header) : handler Vote :=
  emit [ToSignatureService (unsigned_vote header)];;
  lift (map_err InvalidSignature (Vote_new header name signature_service)).

(** [process_header], [process_vote] and [process_certificate]. *)
Fixpoint process_header (fuel : nat) (header : Header) : handler unit :=
  match fuel with
  | O => out_of_fuel
  | S fuel =>
      modify (set_processing (insert_at (hd_round header) (hd_id header)));;
      parents ← call_get_parents header;
      match parents with
      | [] => mret ()
      | _ =>
          weight ← lift (check_parents header parents 0);
          lift (ensure (quorum_threshold committee <=? weight) (HeaderRequiresQuorum (hd_id header)));;
          missing ← call_missing_payload header;
          if missing : bool then mret ()
          else
            write (Digest_to_vec (hd_id header)) (serialize header);;
            voted ← get (λ c, contains_at (hd_round header) (hd_author header) (last_voted c));
            modify (set_last_voted (insert_at (hd_round header) (hd_author header)));;
            if voted : bool then mret ()
            else
              vote ← call_vote header;
              if decide (vt_origin vote = name) then expect_ok (process_vote fuel vote)
              else
                address ← lift (author_address header);
                emit [NetworkSend address (PMVote vote)];;
                modify (set_cancel_handlers (extend_at (hd_round header) [(address, PMVote vote)]))
      end
  end
with process_vote (fuel : nat) (vote : Vote) : handler unit :=
  match fuel with
  | O => out_of_fuel
  | S fuel =>
      '(a, r) ← get (λ c, VotesAggregator.append (votes_aggregator c) vote committee (current_header c));
      modify (set_votes_aggregator a);;
      o ← lift r;
      match o with
      | None => mret ()
      | Some certificate =>
          broadcast (cround certificate) (PMCertificate certificate);;
          expect_ok (process_certificate fuel certificate)
      end
  end
with process_certificate (fuel : nat) (certificate : Certificate) : handler unit :=
  match fuel with
  | O => out_of_fuel
  | S fuel =>
      let header := ct_header certificate in
      known ← get (λ c, contains_at (hd_round header) (hd_id header) (processing c));
      (if known : bool then mret () else process_header fuel header);;
      delivered ← call_deliver_certificate certificate;
      if negb delivered then mret ()
      else
        write (Digest_to_vec (digest certificate)) (serialize certificate);;
        '(a, r) ← get (λ c, CertificatesAggregator.append
          (default CertificatesAggregator.new (certificates_aggregators c !! cround certificate)) certificate committee);
        modify (set_certificates_aggregators (λ m, <[ cround certificate := a ]> m));;
        o ← lift r;
        emit (match o with Some parents => [ToProposer parents (cround certificate)] | None => [] end);;
        emit [ToConsensus certificate]
  end.

Definition core_fuel : nat := 7.

Definition process_own_header (header : Header) : handler unit :=
  modify (set_current header VotesAggregator.new);;
  broadcast (hd_round header) (PMHeader header);;
  process_header core_fuel header.

(** ** Checks on what comes from the network *)

Definition sanitize_header (c : Core) (header : Header) : DagResult unit :=
  ensure (gc_round c <=? hd_round header) (TooOld (hd_id header) (hd_round header));;
  Header_verify header committee.

Definition sanitize_vote (c : Core) (vote : Vote) : DagResult unit :=
  ensure (hd_round (current_header c) <=? vt_round vote) (TooOld (digest vote) (vt_round vote));;
  ensure (bool_decide (vt_id vote = hd_id (current_header c)) &&
          bool_decide (vt_origin vote = hd_author (current_header c)) &&
          (vt_round vote =? hd_round (current_header c)))
    (UnexpectedVote (vt_id vote));;
  Vote_verify vote committee.

Definition sanitize_certificate (c : Core) (certificate : Certificate) : DagResult unit :=
  ensure (gc_round c <=? cround certificate) (TooOld (digest certificate) (cround certificate));;
  Certificate_verify certificate committee.

(** ** The main loop *)

Inductive CoreInput :=
| FromPrimaries (m : PrimaryMessage)
| FromHeaderWaiter (header : Header)
| FromCertificateWaiter (certificate : Certificate)
| FromProposer (header : Header).

Definition handle_input (input : CoreInput) : handler unit :=
  match input with
  | FromPrimaries (PMHeader header) =>
      r ← get (λ c, sanitize_header c header); lift r;; process_header core_fuel header
  | FromPrimaries (PMVote vote) =>
      r ← get (λ c, sanitize_vote c vote); lift r;; process_vote core_fuel vote
  | FromPrimaries (PMCertificate certificate) =>
      r ← get (λ c, sanitize_certificate c certificate); lift r;; process_certificate core_fuel certificate
  | FromPrimaries (PMCertificatesRequest _ _) => lift Panic
  | FromHeaderWaiter header => process_header core_fuel header
  | FromCertificateWaiter certificate => process_certificate core_fuel certificate
  | FromProposer header => process_own_header header
  end.

(** The clean-up at the end of an iteration, for the round read from [consensus_round]. *)
Definition cleanup (consensus_round : Round) (c : Core) : Core :=
  if gc_depth <? consensus_round then
    let gc_round := consensus_round - gc_depth in
    let keep {A} (m : gmap Round A) : gmap Round A := filter (λ e, gc_round ≤ e.1) m in
    MkCore (store c) gc_round (keep (last_voted c)) (keep (processing c)) (current_header c)
      (votes_aggregator c) (keep (certificates_aggregators c)) (keep (cancel_handlers c))
  else c.

(** One iteration of [Core::run] up to the clean-up: the new state, [None] when the task ends (a panic, or an
    error of the store), and what was sent. *)
Definition core_handle (c : Core) (input : CoreInput) : option Core * list Effect :=
  match handle_input input c with
  | Some (c, es, Ret ()) => (Some c, es)
  | Some (c, es, Throw (StoreFailure _)) => (None, es)
  | Some (c, es, Throw _) => (Some c, es)
  | Some (c, es, Panic) => (None, es)
  | None => (None, [])
  end.

(** The whole iteration. *)
Definition core_step (c : Core) (input : CoreInput) (consensus_round : Round) : option Core * list Effect :=
  let '(c, es) := core_handle c input in (cleanup consensus_round <$> c, es).

(** The run on the inputs in the order in which they are taken, each with the consensus round read after
    it; between two iterations other tasks write to the store. *)
Fixpoint core_run (c : Core) (inputs : list (CoreInput * Round * list (Key * Value))) : option Core * list Effect :=
  match inputs with
  | [] => (Some c, [])
  | (input, consensus_round, writes) :: inputs =>
      match core_step c input consensus_round with
      | (None, es) => (None, es)
      | (Some c, es) =>
          let c := set_store (λ s, foldl (λ s w, storage_write s w.1 w.2) s writes) c in
          let '(c, es') := core_run c inputs in (c, es ++ es')
      end
  end.

End core.
