(* ===== verification/CoreFacts.v ===== *)
(** Properties of the core of the primary: the recursion of its handlers is bounded, it votes at most once
    per author and round within the depth of the garbage collector, and it feeds the consensus with
    certificates whose parents it fed before. *)

From S2P Require Import Prelude Crypto Config Messages Aggregators Store Primary Core.

(** ** Handlers, forwards: totality *)

Section wp.
Context `{!Dalek, !Backend, !Storage}.

(** The handler does not run out of fuel, and ends in a state and with a result in [Q]. *)
Definition wp {A} (m : handler A) (Q : Core → DagResult A → Prop) (c : Core) : Prop :=
  match m c with Some (c', _, r) => Q c' r | None => False end.

Lemma wp_bind {A B} (m : handler A) (f : A → handler B) Q c :
  wp m (λ c' r, match r with Ret a => wp (f a) Q c' | Throw e => Q c' (Throw e) | Panic => Q c' Panic end) c →
  wp (m ≫= f) Q c.
Proof.
  unfold wp, mbind, handler_bind. destruct (m c) as [[[c' es] [a|e|]]|]; [|done..].
  by destruct (f a c') as [[[? ?] ?]|].
Qed.

Lemma wp_mono {A} (m : handler A) (Q Q' : Core → DagResult A → Prop) c :
  (∀ c' r, Q c' r → Q' c' r) → wp m Q c → wp m Q' c.
Proof. unfold wp. intros HQ. destruct (m c) as [[[? ?] ?]|]; auto. Qed.

Lemma wp_expect_ok {A} (m : handler A) c : wp m (λ _ _, True) c → wp (expect_ok m) (λ _ _, True) c.
Proof. unfold wp, expect_ok. by destruct (m c) as [[[? ?] []]|]. Qed.
End wp.

(** A relation between the state before, what is sent and the state after, kept by a handler. *)
Section respects.
Context `{!Dalek, !Backend, !Storage}.
Variable R : Core → list Effect → Core → Prop.

Definition respects {A} (m : handler A) : Prop := ∀ c c' es r, m c = Some (c', es, r) → R c es c'.

Class EffectRelation : Prop := {
  R_refl c : R c [] c;
  R_trans c1 es1 c2 es2 c3 : R c1 es1 c2 → R c2 es2 c3 → R c1 (es1 ++ es2) c3
}.

Context `{!EffectRelation}.

Lemma respects_bind {A B} (m : handler A) (f : A → handler B) :
  respects m → (∀ a, respects (f a)) → respects (m ≫= f).
Proof.
  intros Hm Hf c c' es r. unfold mbind, handler_bind.
  destruct (m c) as [[[c1 es1] [a|e|]]|] eqn:E1; [|naive_solver..].
  destruct (f a c1) as [[[c2 es2] r2]|] eqn:E2; intros [= <- <- <-].
  eapply R_trans; [by eapply Hm|by eapply Hf].
Qed.

Lemma respects_pure {A} (m : handler A) : (∀ c, ∃ r, m c = Some (c, [], r)) → respects m.
Proof. intros Hm c c' es r E. destruct (Hm c) as [r' E']. simplify_eq. apply R_refl. Qed.

Lemma respects_ret {A} (a : A) : respects (mret a).
Proof. apply respects_pure. eauto. Qed.
Lemma respects_get {A} (f : Core → A) : respects (get f).
Proof. apply respects_pure. eauto. Qed.
Lemma respects_lift {A} (r : DagResult A) : respects (lift r).
Proof. apply respects_pure. eauto. Qed.
Lemma respects_modify f : (∀ c, R c [] (f c)) → respects (modify f).
Proof. intros Hf c c' es r [= <- <- <-]. apply Hf. Qed.
Lemma respects_emit l : (∀ c, R c l c) → respects (emit l).
Proof. intros Hl c c' es r [= <- <- <-]. apply Hl. Qed.
Lemma respects_out_of_fuel {A} : respects (out_of_fuel (A := A)).
Proof. by intros c c' es r ?. Qed.
Lemma respects_expect_ok {A} (m : handler A) : respects m → respects (expect_ok m).
Proof.
  intros Hm c c' es r. unfold expect_ok. destruct (m c) as [[[c1 es1] []]|] eqn:E; [..|done];
    intros [= <- <- <-]; by eapply Hm.
Qed.
End respects.

(** Closes the goals on actions that neither change the state nor send anything. *)
Ltac respects_auto :=
  intros; first [assumption | apply respects_ret | apply respects_get | apply respects_lift | apply respects_expect_ok];
  try apply _; auto.

(** ** The recursion of the handlers is bounded *)

Section wp_rules.
Context `{!Dalek, !Backend, !Storage}.

Lemma wp_ret {A} (a : A) Q c : Q c (Ret a) → wp (mret a) Q c.
Proof. done. Qed.
Lemma wp_get {A} (f : Core → A) Q c : Q c (Ret (f c)) → wp (get f) Q c.
Proof. done. Qed.
Lemma wp_modify f Q c : Q (f c) (Ret ()) → wp (modify f) Q c.
Proof. done. Qed.
Lemma wp_emit l Q c : Q c (Ret ()) → wp (emit l) Q c.
Proof. done. Qed.
Lemma wp_lift {A} (r : DagResult A) Q c : Q c r → wp (lift r) Q c.
Proof. done. Qed.
End wp_rules.

(** Executes the first action of a handler whose postcondition is [True] in the end. *)
Ltac wp_step :=
  first [done | apply wp_bind | apply wp_ret | apply wp_get | apply wp_modify | apply wp_emit | apply wp_lift];
  cbv beta iota.
Ltac wp_result :=
  match goal with
  | |- match ?r with Ret _ => _ | Throw _ => _ | Panic => _ end =>
      let E := fresh "E" in destruct r eqn:E; [|done..]
  | |- wp (let (_, _) := ?p in _) _ _ => destruct p
  end.

Section bounded.
Context `{!Sha512, !Dalek, !Backend, !Storage, !Bincode Header, !Bincode Certificate}.
Variables (name : PublicKey) (committee : Committee) (signature_service : SecretKey).

Notation process_header := (process_header name committee signature_service).
Notation process_vote := (process_vote name committee signature_service).
Notation process_certificate := (process_certificate name committee signature_service).
Notation total m c := (wp m (λ _ _, True) c).

(** The vote of the author is in the aggregator. *)
Definition voted_self (c : Core) : Prop := name ∈ VotesAggregator.used (votes_aggregator c).

Lemma Vote_new_fields h vote :
  Vote_new h name signature_service = Ret vote →
  vt_id vote = hd_id h ∧ vt_round vote = hd_round h ∧ vt_origin vote = hd_author h ∧ vt_author vote = name.
Proof. unfold Vote_new. intros (s & _ & [= <-])%outcome_bind_ret. done. Qed.

(** A vote of an author who voted does not start a certificate. *)
Lemma process_vote_used n vote c :
  vt_author vote ∈ VotesAggregator.used (votes_aggregator c) → total (process_vote (S n) vote) c.
Proof.
  intros Hu. cbn [Core.process_vote]. repeat wp_step. unfold VotesAggregator.append.
  rewrite decide_True by done. by repeat wp_step.
Qed.

(** A header whose own vote, if there is one, can be processed. *)
Lemma process_header_total n header c :
  (∀ c' vote, vt_author vote = name → votes_aggregator c' = votes_aggregator c → total (process_vote n vote) c') →
  total (process_header (S n) header) c.
Proof.
  intros Hv. cbn [Core.process_header]. unfold call_get_parents, call_missing_payload. repeat wp_step.
  wp_result. destruct a as [parents messages]. repeat wp_step. destruct parents as [|p parents]; [done|].
  repeat wp_step. wp_result. repeat wp_step. wp_result. repeat wp_step. wp_result. destruct a1 as [missing messages'].
  repeat wp_step. destruct missing; [done|]. repeat wp_step. destruct (contains_at _ _ _); [done|].
  repeat wp_step. wp_result.
  assert (Ha : vt_author a1 = name).
  { destruct (Vote_new header name signature_service) eqn:E'; simpl in *; simplify_eq. by apply Vote_new_fields in E' as (_ & _ & _ & ?). }
  case_decide; [by apply wp_expect_ok, Hv|]. repeat wp_step. wp_result. by repeat wp_step.
Qed.

Lemma process_certificate_total n certificate c :
  total (process_header n (ct_header certificate)) c → total (process_certificate (S n) certificate) c.
Proof.
  intros Hh. cbn [Core.process_certificate]. repeat wp_step.
  apply (wp_mono _ (λ _ _, True)); [|destruct (contains_at _ _ _); [by apply wp_ret|exact Hh]].
  simpl. intros c' [[]| |] _; [|done..]. unfold call_deliver_certificate. repeat wp_step. wp_result.
  destruct a as [delivered certificates]. repeat wp_step. destruct delivered; [|done]. simpl.
  repeat wp_step. destruct (CertificatesAggregator.append _ _ _) as [a r]. repeat wp_step. wp_result.
  by repeat wp_step.
Qed.

Lemma process_vote_total n vote c :
  (∀ c' certificate, vt_author vote ∈ VotesAggregator.used (votes_aggregator c') →
    total (process_certificate n certificate) c') →
  total (process_vote (S n) vote) c.
Proof.
  intros Hc. cbn [Core.process_vote]. repeat wp_step. unfold VotesAggregator.append.
  case_decide as Hu; [by repeat wp_step|]. destruct (_ <=? _); [|by repeat wp_step].
  repeat wp_step. unfold broadcast. repeat wp_step. apply wp_expect_ok, Hc. simpl. set_solver.
Qed.

(** Once our vote is in the aggregator the recursion ends: a header does not start another certificate. *)
Lemma header_after_own_vote n header c : voted_self c → total (process_header (S (S n)) header) c.
Proof.
  intros Hs. apply process_header_total. intros c' vote Ha E. apply process_vote_used. by rewrite Ha, E.
Qed.

Lemma certificate_after_own_vote n certificate c :
  voted_self c → total (process_certificate (S (S (S n))) certificate) c.
Proof. intros. by apply process_certificate_total, header_after_own_vote. Qed.

Lemma header_total n header c : total (process_header (5 + n) header) c.
Proof.
  apply process_header_total. intros c' vote Ha _. apply process_vote_total. intros c'' certificate Hu.
  rewrite Ha in Hu. by apply (certificate_after_own_vote n).
Qed.

Lemma certificate_total n certificate c : total (process_certificate (6 + n) certificate) c.
Proof. apply process_certificate_total, (header_total n). Qed.

Lemma vote_total n vote c : total (process_vote (7 + n) vote) c.
Proof. apply process_vote_total. intros. apply (certificate_total n). Qed.
End bounded.

(** C20: The handlers of the core never run out of fuel: the seven levels of [core_fuel] are enough for any
    input in any state, because a vote of the author itself goes to the aggregator at most once. *)
Theorem fuel_enough `{!Sha512, !Dalek, !Backend, !Storage, !Bincode Header, !Bincode Certificate}
    name committee signature_service input c :
  ∃ c' es r, handle_input name committee signature_service input c = Some (c', es, r).
Proof.
  assert (Hw : wp (handle_input name committee signature_service input) (λ _ _, True) c).
  { destruct input as [[header|vote|certificate|missing requestor]|header|certificate|header]; simpl.
    - repeat wp_step. wp_result. apply (header_total name committee signature_service 2).
    - repeat wp_step. wp_result. apply (vote_total name committee signature_service 0).
    - repeat wp_step. wp_result. apply (certificate_total name committee signature_service 1).
    - done.
    - apply (header_total name committee signature_service 2).
    - apply (certificate_total name committee signature_service 1).
    - unfold process_own_header, broadcast. do 3 wp_step. apply (header_total name committee signature_service 2). }
  unfold wp in Hw. destruct (handle_input _ _ _ _ _) as [[[c' es] r]|]; [eauto|done].
Qed.

(** ** Relations kept by all handlers *)

(** The parts of the state no relation below speaks about may change. *)
Definition same_core `{!Backend, !Storage} (c c' : Core) : Prop :=
  store c' = store c ∧ gc_round c' = gc_round c ∧ last_voted c' = last_voted c ∧
  certificates_aggregators c' = certificates_aggregators c.

Section handlers.
Context `{!Sha512, !Dalek, !Backend, !Storage, !Bincode Header, !Bincode Certificate}.
Variables (name : PublicKey) (committee : Committee) (signature_service : SecretKey).
Variable R : Core → list Effect → Core → Prop.

(** What the core checked of a header before it stores it. *)
Inductive header_checked c h : Prop :=
| checked parents weight :
    get_parents committee (store c) h = Ret (parents, []) → parents ≠ [] →
    check_parents committee h parents 0 = Ret weight → quorum_threshold committee ≤ weight →
    missing_payload name (store c) h = Ret (false, []) → header_checked c h.

Definition header_write h : Effect := ToStore (Digest_to_vec (hd_id h)) (serialize h).
Definition write_header h c : Core := set_store (λ s, storage_write s (Digest_to_vec (hd_id h)) (serialize h)) c.

(** What a relation must satisfy to be kept by the processing of a header: one law per action. *)
Record header_relation : Prop := {
  hr_refl_trans :: EffectRelation R;
  hr_same c c' : same_core c c' → R c [] c';
  hr_waiter c l : R c (ToHeaderWaiter <$> l) c;
  hr_header c h : R c [header_write h] (write_header h c);
  hr_voted c r a : R c [] (set_last_voted (insert_at r a) c);
  hr_sign c h :
    header_checked c h → contains_at (hd_round h) (hd_author h) (last_voted c) = false →
    R c [header_write h; ToSignatureService (unsigned_vote name h)]
      (set_last_voted (insert_at (hd_round h) (hd_author h)) (write_header h c));
  hr_vote c h v address :
    header_checked c h → contains_at (hd_round h) (hd_author h) (last_voted c) = false →
    Vote_new h name signature_service = Ret v →
    R c [header_write h; ToSignatureService (unsigned_vote name h); NetworkSend address (PMVote v)]
      (set_last_voted (insert_at (hd_round h) (hd_author h)) (write_header h c))
}.

(** The aggregator of the certificates of a round, what it sends to the proposer, and the state after a
    certificate is delivered. *)
Definition aggregator (r : Round) c : CertificatesAggregator.t :=
  default CertificatesAggregator.new (certificates_aggregators c !! r).

Definition proposals x (parents : option (list Digest)) : list Effect :=
  match parents with Some parents => [ToProposer parents (cround x)] | None => [] end.

Definition write_certificate x c : Core := set_store (λ s, storage_write s (Digest_to_vec (digest x)) (serialize x)) c.

(** And what it must satisfy to be kept by all handlers. *)
Record core_relation : Prop := {
  cr_headers : header_relation;
  cr_certificate_waiter c l : R c (ToCertificateWaiter <$> l) c;
  cr_broadcast c addresses x : R c [NetworkBroadcast addresses (PMCertificate x)] c;
  cr_certificate c x a parents :
    deliver_certificate committee (store c) x = Ret (true, []) →
    CertificatesAggregator.append (aggregator (cround x) c) x committee = (a, Ret parents) →
    R c (ToStore (Digest_to_vec (digest x)) (serialize x) :: proposals x parents ++ [ToConsensus x])
      (set_certificates_aggregators (λ m, <[ cround x := a ]> m) (write_certificate x c))
}.

Section headers.
Hypothesis HR : header_relation.
#[local] Instance header_effect_relation : EffectRelation R := hr_refl_trans HR.

Lemma respects_same f : (∀ c, same_core c (f c)) → respects R (modify f).
Proof. intros Hf. apply respects_modify. intros c. apply (hr_same HR), Hf. Qed.

Lemma respects_broadcast r m :
  (∀ c addresses, R c [NetworkBroadcast addresses m] c) → respects R (broadcast name committee r m).
Proof.
  intros Hm. unfold broadcast. apply (respects_bind R).
  - apply respects_emit. intros c. apply Hm.
  - intros _. by apply respects_same.
Qed.

(** The last part of [process_header], after the checks and the write to the store. *)
Definition vote_for (process_vote : Vote → handler unit) h : handler unit :=
  voted ← get (λ c, contains_at (hd_round h) (hd_author h) (last_voted c));
  modify (set_last_voted (insert_at (hd_round h) (hd_author h)));;
  if voted : bool then mret ()
  else
    vote ← call_vote name signature_service h;
    if decide (vt_origin vote = name) then expect_ok (process_vote vote)
    else
      address ← lift (author_address committee h);
      emit [NetworkSend address (PMVote vote)];;
      modify (set_cancel_handlers (extend_at (hd_round h) [(address, PMVote vote)])).

Lemma vote_for_respects (process_vote : Vote → handler unit) h c c' es r :
  (∀ v, respects R (process_vote v)) → header_checked c h →
  vote_for process_vote h (write_header h c) = Some (c', es, r) → R c (header_write h :: es) c'.
Proof.
  intros Hv Hch. set (c1 := set_last_voted (insert_at (hd_round h) (hd_author h)) (write_header h c)).
  unfold vote_for, mbind, handler_bind, call_vote, get, modify, lift, emit, mbind, handler_bind. fold c1.
  destruct (contains_at _ _ _) eqn:Hn; simpl in Hn.
  { intros [= <- <- <-]. apply (R_trans R c [_] (write_header h c) []); [apply (hr_header HR)|apply (hr_voted HR)]. }
  assert (Hs : R c [header_write h; ToSignatureService (unsigned_vote name h)] c1) by by apply (hr_sign HR).
  destruct (Vote_new h name signature_service) as [v|e|] eqn:Ev; simpl; [|intros [= <- <- <-]; exact Hs..].
  case_decide.
  - destruct (expect_ok (process_vote v) c1) as [[[c2 es2] r2]|] eqn:E; [|done]. intros [= <- <- <-].
    apply (R_trans R c [_; _] c1 es2 c2); [done|]. by apply (respects_expect_ok R _ (Hv v)) in E.
  - unfold author_address. destruct (Config.primary committee (hd_author h)) as [x| |]; simpl;
      [|intros [= <- <- <-]; exact Hs..]. intros [= <- <- <-].
    apply (R_trans R c [_; _; NetworkSend (primary_to_primary x) (PMVote v)] c1 []); [by apply (hr_vote HR)|].
    by apply (hr_same HR).
Qed.

(** The part of [process_header] that checks, writes and votes. *)
Definition check_and_vote (process_vote : Vote → handler unit) h : handler unit :=
  parents ← call_get_parents committee h;
  match parents with
  | [] => mret ()
  | _ =>
      weight ← lift (check_parents committee h parents 0);
      lift (ensure (quorum_threshold committee <=? weight) (HeaderRequiresQuorum (hd_id h)));;
      missing ← call_missing_payload name h;
      if missing : bool then mret ()
      else
        write (Digest_to_vec (hd_id h)) (serialize h);;
        vote_for process_vote h
  end.

Lemma process_header_S n h :
  process_header name committee signature_service (S n) h =
  (modify (set_processing (insert_at (hd_round h) (hd_id h)));;
   check_and_vote (process_vote name committee signature_service n) h).
Proof. reflexivity. Qed.

Lemma get_parents_messages s h parents messages :
  get_parents committee s h = Ret (parents, messages) → parents ≠ [] → messages = [].
Proof. unfold get_parents. intros E Hne. apply outcome_bind_ret in E as ([[|d ds] ps] & _ & E); congruence. Qed.

Lemma missing_payload_messages s h messages : missing_payload name s h = Ret (false, messages) → messages = [].
Proof.
  unfold missing_payload. case_decide; [by intros [= <-]|]. intros E. apply outcome_bind_ret in E as (m & _ & E).
  case_decide; congruence.
Qed.

Lemma check_and_vote_respects (process_vote : Vote → handler unit) h :
  (∀ v, respects R (process_vote v)) → respects R (check_and_vote process_vote h).
Proof.
  intros Hv c c' es r. assert (Hw : ∀ l, R c (ToHeaderWaiter <$> l) c) by apply (hr_waiter HR).
  unfold check_and_vote, call_get_parents, call_missing_payload, write.
  unfold mbind, handler_bind, modify, get, lift, emit, mret, handler_ret.
  destruct (get_parents committee (store c) h) as [[parents messages]|e|] eqn:Hp; simpl; [|intros [= <- <- <-]; apply (R_refl R)..].
  pose proof (get_parents_messages _ _ _ _ Hp) as Hm.
  destruct parents as [|p parents]; [intros [= <- <- <-]; rewrite !app_nil_r; apply Hw|].
  rewrite (Hm ltac:(done)) in *. simpl.
  destruct (check_parents committee h (p :: parents) 0) as [weight|e|] eqn:Hc; simpl in Hc; rewrite Hc;
    [|intros [= <- <- <-]; apply (R_refl R)..].
  unfold ensure. destruct (N.leb_spec (quorum_threshold committee) weight) as [Hq|];
    [|intros [= <- <- <-]; apply (R_refl R)].
  destruct (missing_payload name (store c) h) as [[missing messages']|e|] eqn:Hmp; simpl;
    [|intros [= <- <- <-]; apply (R_refl R)..].
  destruct missing; [intros [= <- <- <-]; rewrite !app_nil_r; apply Hw|].
  rewrite (missing_payload_messages _ _ _ Hmp) in Hmp |- *. simpl. fold (write_header h c).
  destruct (vote_for process_vote h (write_header h c)) as [[[c2 es2] r2]|] eqn:E; [|done]. intros [= <- <- <-].
  eapply vote_for_respects; [exact Hv| |exact E]. by eapply (checked c h (p :: parents)).
Qed.
End headers.

Hypothesis HR : core_relation.
#[local] Instance effect_relation : EffectRelation R := hr_refl_trans (cr_headers HR).

(** Delivering: the write to the store, the aggregator and what is sent to the proposer and the consensus. *)
Lemma respects_deliver x :
  respects R (
    delivered ← call_deliver_certificate committee x;
    if negb delivered then mret ()
    else
      write (Digest_to_vec (digest x)) (serialize x);;
      '(a, r) ← get (λ c, CertificatesAggregator.append
        (default CertificatesAggregator.new (certificates_aggregators c !! cround x)) x committee);
      modify (set_certificates_aggregators (λ m, <[ cround x := a ]> m));;
      o ← lift r;
      emit (match o with Some parents => [ToProposer parents (cround x)] | None => [] end);;
      emit [ToConsensus x]).
Proof.
  intros c c' es r. set (c1 := write_certificate x c).
  unfold mbind, handler_bind, call_deliver_certificate, write, get, modify, lift, emit, mret, handler_ret.
  unfold mbind, handler_bind. destruct (deliver_certificate committee (store c) x) as [[delivered l]|e|] eqn:Hd;
    simpl; [|intros [= <- <- <-]; apply (R_refl R)..].
  assert (Hl : delivered = true → l = []).
  { intros ->. unfold deliver_certificate in Hd. revert Hd.
    induction (btree_elems (hd_parents (ct_header x))) as [|d ds IH]; simpl; [by intros [= <-]|].
    destruct (existsb _ _); [done|]. destruct (read _ _) as [[v|]| |]; simpl; [done|done..]. }
  destruct delivered; simpl.
  - rewrite (Hl eq_refl) in *. simpl. change (set_store _ c) with c1.
    assert (Ha : ∀ a, ∃ a' o, CertificatesAggregator.append a x committee = (a', Ret o)).
    { intros a. unfold CertificatesAggregator.append. case_decide; [eauto|]. case_match; eauto. }
    change (default _ _) with (aggregator (cround x) c). destruct (Ha (aggregator (cround x) c)) as (a' & o & E). rewrite E.
    simpl. intros [= <- <- <-]. by apply (cr_certificate HR).
  - intros [= <- <- <-]. rewrite !app_nil_r. apply (cr_certificate_waiter HR).
Qed.

Lemma handlers_respect (n : nat) :
  (∀ h, respects R (process_header name committee signature_service n h)) ∧
  (∀ v, respects R (process_vote name committee signature_service n v)) ∧
  (∀ x, respects R (process_certificate name committee signature_service n x)).
Proof.
  induction n as [|n (IHh & IHv & IHc)]; [split_and!; intros; apply respects_out_of_fuel|]. split_and!.
  - intros h. rewrite process_header_S. apply (respects_bind R); [by apply (respects_same (cr_headers HR))|]. intros _.
    by apply (check_and_vote_respects (cr_headers HR)).
  - intros v. cbn [process_vote]. apply (respects_bind R); [respects_auto|]. intros [a r].
    apply (respects_bind R); [by apply (respects_same (cr_headers HR))|]. intros _.
    apply (respects_bind R); [respects_auto|]. intros [certificate|]; [|respects_auto].
    apply (respects_bind R); [apply (respects_broadcast (cr_headers HR)); intros; apply (cr_broadcast HR)|]. intros _. respects_auto.
  - intros x. cbn [process_certificate]. apply (respects_bind R); [respects_auto|]. intros known.
    apply (respects_bind R); [destruct known; [apply respects_ret; apply _|apply IHh]|]. intros _.
    apply respects_deliver.
Qed.

(** A header of our own is the only one that is broadcast. *)
Definition own_header (input : CoreInput) : option Header :=
  match input with FromProposer h => Some h | _ => None end.

Lemma handle_other_respects input :
  own_header input = None → respects R (handle_input name committee signature_service input).
Proof.
  intros Hn. destruct (handlers_respect core_fuel) as (Hh & Hv & Hc).
  destruct input as [[h|v|x|missing requestor]|h|x|h]; unfold handle_input; [| | |respects_auto|auto..|done].
  all: apply (respects_bind R); [respects_auto|]; intros r;
    apply (respects_bind R); [respects_auto|]; auto.
Qed.

Lemma handle_input_respects input :
  (∀ c addresses h, R c [NetworkBroadcast addresses (PMHeader h)] c) →
  respects R (handle_input name committee signature_service input).
Proof.
  intros Hheader. destruct (own_header input) as [h'|] eqn:Eh; [|by apply handle_other_respects].
  destruct input as [m|h|x|h]; [done..|]. unfold handle_input, process_own_header.
  apply (respects_bind R); [by apply (respects_same (cr_headers HR))|]. intros _.
  apply (respects_bind R); [by apply (respects_broadcast (cr_headers HR))|]. intros _. apply handlers_respect.
Qed.

(** An iteration: the relation holds up to the state it ends in, which is the new one unless the task ends. *)
Lemma core_handle_respects c input o es :
  (∀ c addresses h, R c [NetworkBroadcast addresses (PMHeader h)] c) →
  core_handle name committee signature_service c input = (o, es) →
  ∃ c1, R c es c1 ∧ ∀ c2, o = Some c2 → c2 = c1.
Proof.
  intros Hheader. pose proof (handle_input_respects input Hheader c) as Hr. unfold core_handle.
  destruct (handle_input _ _ _ input c) as [[[c1 es1] r1]|].
  - specialize (Hr _ _ _ eq_refl). destruct r1 as [[]|e|]; [|destruct e|]; intros [= <- <-]; exists c1;
      (split; [done|]); by intros c2 [= <-].
  - intros [= <- <-]. exists c. split; [apply (R_refl R)|done].
Qed.

Lemma core_step_respects gc_depth c input consensus_round o es :
  (∀ c addresses h, R c [NetworkBroadcast addresses (PMHeader h)] c) →
  core_step name committee signature_service gc_depth c input consensus_round = (o, es) →
  ∃ c1, R c es c1 ∧ ∀ c2, o = Some c2 → c2 = cleanup gc_depth consensus_round c1.
Proof.
  unfold core_step. intros Hheader. destruct (core_handle _ _ _ c input) as [o1 es1] eqn:E. intros [= <- <-].
  apply core_handle_respects in E as (c1 & Hr & Hc); [|done]. exists c1. split; [done|].
  intros c2 (c3 & E & ->)%fmap_Some. by rewrite (Hc c3).
Qed.
End handlers.

(** ** One vote per author and round *)

Section votes.
Context `{!Sha512, !Dalek, !Backend, !Storage, !Bincode Header, !Bincode Certificate}.
Variables (name : PublicKey) (committee : Committee) (signature_service : SecretKey) (gc_depth : Round).
Implicit Types c : Core.

(** The rounds and the authors of the headers voted for, among the votes signed, or the votes sent. *)
Inductive VoteTrace := Signed | Sent.

Definition vote_key (v : Vote) : Round * PublicKey := (vt_round v, vt_origin v).

Definition vote_mark (t : VoteTrace) (e : Effect) : option (Round * PublicKey) :=
  match t, e with
  | Signed, ToSignatureService v | Sent, NetworkSend _ (PMVote v) => Some (vote_key v)
  | _, _ => None
  end.

Definition votes (t : VoteTrace) (es : list Effect) : list (Round * PublicKey) := omap (vote_mark t) es.
Definition votes_sent (es : list Effect) : list (Round * PublicKey) := votes Sent es.
Context (t : VoteTrace).

Definition voted c (k : Round * PublicKey) : Prop := contains_at k.1 k.2 (last_voted c) = true.

Lemma votes_app es es' : votes t (es ++ es') = votes t es ++ votes t es'.
Proof. apply omap_app. Qed.

Lemma contains_insert_at {K} `{Countable K} r r' (x x' : K) m :
  contains_at r x (insert_at r' x' m) = true ↔ (r, x) = (r', x') ∨ contains_at r x m = true.
Proof.
  unfold contains_at, insert_at. destruct (decide (r = r')) as [->|].
  - rewrite lookup_insert_eq, bool_decide_eq_true, elem_of_union, elem_of_singleton.
    destruct (m !! r') as [s|]; simpl; [rewrite bool_decide_eq_true|]; set_solver.
  - rewrite lookup_insert_ne by done. destruct (m !! r); naive_solver.
Qed.

(** The votes are new ones, each once, and are remembered. *)
Definition votes_once c (es : list Effect) c' : Prop :=
  (∀ k, voted c k → voted c' k) ∧ NoDup (votes t es) ∧
  ∀ k, k ∈ votes t es → ¬ voted c k ∧ voted c' k.

Lemma votes_once_silent c es c' :
  (∀ k, voted c k → voted c' k) → votes t es = [] → votes_once c es c'.
Proof. intros Hv E. unfold votes_once. rewrite E. split_and!; [done|constructor|set_solver]. Qed.

Lemma votes_once_header c h es :
  contains_at (hd_round h) (hd_author h) (last_voted c) = false →
  votes t es `sublist_of` [(hd_round h, hd_author h)] →
  votes_once c es (set_last_voted (insert_at (hd_round h) (hd_author h)) (write_header h c)).
Proof.
  intros Hn Hs. split_and!.
  - intros [r a] Hk. apply contains_insert_at. by right.
  - eapply sublist_NoDup; [apply NoDup_singleton|exact Hs].
  - intros k Hk. eapply elem_of_sublist in Hk; [|exact Hs]. apply list_elem_of_singleton in Hk as ->.
    split; [unfold voted; simpl; by rewrite Hn|]. apply contains_insert_at. by left.
Qed.

Lemma votes_once_relation : core_relation name committee signature_service votes_once.
Proof.
  split; [split|..].
  - split.
    + intros c. by apply votes_once_silent.
    + intros c1 es1 c2 es2 c3 (M1 & N1 & V1) (M2 & N2 & V2). unfold votes_once.
      rewrite votes_app. split_and!; [naive_solver| |].
      * apply NoDup_app_intro; [done..|]. intros k [_ Hk]%V1 [Hk' _]%V2. done.
      * intros k [Hk|Hk]%elem_of_app; [apply V1 in Hk|apply V2 in Hk]; naive_solver.
  - intros c c' (_ & _ & E & _). apply votes_once_silent; [|done]. unfold voted. by rewrite E.
  - intros c l. apply votes_once_silent; [done|]. induction l; [done|]. by destruct t.
  - intros c h. apply votes_once_silent; [done|]. by destruct t.
  - intros c r a. apply votes_once_silent; [|done]. intros [r' a'] Hk. apply contains_insert_at. by right.
  - intros c h _ Hn. assert (votes t [header_write h; ToSignatureService (unsigned_vote name h)] `sublist_of` [(hd_round h, hd_author h)])
      by (destruct t; [done|apply sublist_nil_l]). by apply votes_once_header.
  - intros c h v address _ Hn Hv. apply Vote_new_fields in Hv as (_ & Er & Eo & _). apply votes_once_header; [done|].
    destruct t; simpl; unfold vote_key; by rewrite ?Er, ?Eo.
  - intros c l. apply votes_once_silent; [done|]. induction l; [done|]. by destruct t.
  - intros c addresses m. apply votes_once_silent; [done|]. by destruct t.
  - intros c x a parents _ _. apply votes_once_silent; [done|]. by destruct parents, t.
Qed.

Lemma votes_once_header_broadcast c addresses h : votes_once c [NetworkBroadcast addresses (PMHeader h)] c.
Proof. apply votes_once_silent; [done|]. by destruct t. Qed.

Lemma core_step_votes c input consensus_round o es :
  core_step name committee signature_service gc_depth c input consensus_round = (o, es) →
  ∃ c1, votes_once c es c1 ∧ ∀ c2, o = Some c2 → c2 = cleanup gc_depth consensus_round c1.
Proof.
  apply (core_step_respects name committee signature_service _ votes_once_relation).
  apply votes_once_header_broadcast.
Qed.

(** The clean-up keeps the votes of the rounds from the last garbage collected round on. *)
Lemma cleanup_voted consensus_round c k g :
  consensus_round ≤ g + gc_depth → g ≤ k.1 → voted c k → voted (cleanup gc_depth consensus_round c) k.
Proof.
  intros Hg Hk Hv. unfold cleanup. destruct (N.ltb_spec gc_depth consensus_round); [|done].
  unfold voted, contains_at in *. simpl. destruct (last_voted c !! k.1) as [s|] eqn:E; [|done].
  assert (E' : filter (λ e : Round * gset PublicKey, consensus_round - gc_depth ≤ e.1) (last_voted c) !! k.1 = Some s).
  { apply map_lookup_filter_Some. split; [done|]. simpl. lia. }
  by rewrite E'.
Qed.

Lemma core_run_votes g inputs c :
  (∀ i, i ∈ inputs → i.1.2 ≤ g + gc_depth) →
  NoDup (filter (λ k, g ≤ k.1) (votes t (core_run name committee signature_service gc_depth c inputs).2)) ∧
  ∀ k, k ∈ votes t (core_run name committee signature_service gc_depth c inputs).2 → g ≤ k.1 → ¬ voted c k.
Proof.
  revert c. induction inputs as [|[[input consensus_round] writes] inputs IH]; intros c Hi; simpl.
  { split; [constructor|set_solver]. }
  destruct (core_step _ _ _ _ _ _ _) as [o es] eqn:E.
  apply core_step_votes in E as (c1 & (Hm & Hn & Hv) & Hc).
  destruct o as [c2|]; [|split; [by apply NoDup_filter|naive_solver]].
  specialize (Hc c2 eq_refl). simpl in *.
  set (c3 := set_store _ c2) in *. assert (Hi' : ∀ i, i ∈ inputs → i.1.2 ≤ g + gc_depth) by (intros; apply Hi; by right).
  destruct (IH c3 Hi') as [IH1 IH2]. destruct (core_run _ _ _ _ c3 inputs) as [c4 es']. simpl in *.
  assert (Hk : ∀ k, g ≤ k.1 → voted c1 k → voted c3 k).
  { intros k Hg Hk. unfold c3, voted. simpl. rewrite Hc. apply (cleanup_voted consensus_round c1 k g); [|done..].
    apply (Hi (input, consensus_round, writes)). left. }
  rewrite votes_app, filter_app. split.
  - apply NoDup_app_intro; [by apply NoDup_filter|done|]. intros k [Hg Hk1]%list_elem_of_filter [_ Hk2]%list_elem_of_filter.
    apply (IH2 k Hk2 Hg), Hk, Hv; done.
  - intros k [Hk1|Hk2]%elem_of_app Hg; [by apply Hv|]. intros Hvc. apply (IH2 k Hk2 Hg), Hk; auto.
Qed.
End votes.

(** The core votes at most once per author and round: among the votes it sends for headers of the
    rounds that are not garbage collected in the run, no two are for the same author and round, whatever
    it receives. *)
Theorem one_vote_per_author_and_round `{!Sha512, !Dalek, !Backend, !Storage, !Bincode Header, !Bincode Certificate}
    name committee signature_service gc_depth s inputs g :
  (∀ i, i ∈ inputs → i.1.2 ≤ g + gc_depth) →
  NoDup (filter (λ k, g ≤ k.1)
    (votes_sent (core_run name committee signature_service gc_depth (Core_new s) inputs).2)).
Proof. intros Hi. by apply core_run_votes. Qed.

(** ** The certificates fed to the consensus *)

Section feed.
Context `{!Sha512, !Dalek, !Backend, !Storage, !StorageLaws _, !Bincode Header, !Bincode Certificate}.
Variables (name : PublicKey) (committee : Committee) (signature_service : SecretKey) (gc_depth : Round).
Implicit Types (c : Core) (d : Digest).

(** Among what was sent, [d] is the digest of a certificate fed to the consensus, or the id under which
    a header was written. *)
Definition told (es : list Effect) d : Prop :=
  (∃ y, ToConsensus y ∈ es ∧ digest y = d) ∨
  (∃ h, ToStore (Digest_to_vec (hd_id h)) (serialize h) ∈ es ∧ hd_id h = d).

(** Every certificate fed has its parents in [known] or told before. *)
Definition fed (known : Digest → Prop) (es : list Effect) : Prop :=
  ∀ pre x post d, es = pre ++ ToConsensus x :: post → d ∈ hd_parents (ct_header x) → known d ∨ told pre d.

Lemma told_app es es' d : told (es ++ es') d ↔ told es d ∨ told es' d.
Proof. unfold told. setoid_rewrite elem_of_app. naive_solver. Qed.

Lemma fed_app known known' es es' :
  fed known es → fed known' es' → (∀ d, known' d → known d ∨ told es d) → fed known (es ++ es').
Proof.
  intros F1 F2 Hk pre x post d E Hd. apply app_eq_app in E as (l & [[-> E]|[-> E]]).
  - destruct l as [|e l]; simplify_eq/=.
    + rewrite app_nil_r in Hk. destruct (F2 [] x post d eq_refl Hd) as [Hkd|Ht]; [by apply Hk|].
      unfold told in Ht. set_solver.
    + by eapply (F1 pre x l).
  - destruct (F2 l x post d E Hd) as [Hkd|Ht].
    + apply Hk in Hkd as [?|?]; [by left|]. right. apply told_app. by left.
    + right. apply told_app. by right.
Qed.

Lemma fed_silent known es : (∀ x, ToConsensus x ∉ es) → fed known es.
Proof. intros Hes pre x post d ->. destruct (Hes x). set_solver. Qed.

Definition in_genesis d : Prop := is_Some (find_genesis committee d).

Definition feeds c (es : list Effect) c' : Prop :=
  (∀ d, stored (store c') (Digest_to_vec d) → stored (store c) (Digest_to_vec d) ∨ told es d) ∧
  fed (λ d, in_genesis d ∨ stored (store c) (Digest_to_vec d)) es.

Lemma stored_write s k v k' : stored (storage_write s k v) k' → k = k' ∨ stored s k'.
Proof.
  intros [v' Hv]. destruct (decide (k = k')) as [|Hk]; [by left|]. right. exists v'.
  by rewrite storage_read_write_ne in Hv.
Qed.

Lemma feeds_silent c es c' : store c' = store c → (∀ x, ToConsensus x ∉ es) → feeds c es c'.
Proof. intros E Hes. split; [rewrite E; by left|by apply fed_silent]. Qed.

Lemma feeds_header c h es c' :
  store c' = store (write_header h c) → (∀ x, ToConsensus x ∉ es) → feeds c (header_write h :: es) c'.
Proof.
  intros E Hes. split.
  - rewrite E. simpl. intros d [Ek|?]%stored_write; [|by left]. right. right. exists h. split; [left|].
    by apply Digest_to_vec_inj.
  - apply fed_silent. by intros x [?|?%Hes]%elem_of_cons.
Qed.

Lemma feeds_relation : core_relation name committee signature_service feeds.
Proof.
  split; [split|..].
  - split.
    + intros c. apply feeds_silent; [done|set_solver].
    + intros c1 es1 c2 es2 c3 [S1 F1] [S2 F2]. split.
      * intros d [Hd|Hd]%S2; [apply S1 in Hd as [?|?]|]; rewrite told_app; auto.
      * eapply fed_app; [exact F1|exact F2|]. intros d [?|[?|?]%S1]; auto.
  - intros c c' (E & _). apply feeds_silent; [done|set_solver].
  - intros c l. apply feeds_silent; [done|]. intros x (? & ? & _)%list_elem_of_fmap. done.
  - intros c h. apply (feeds_header c h []); [done|set_solver].
  - intros c r a. apply feeds_silent; [done|set_solver].
  - intros c h _ _. apply feeds_header; [done|]. by intros x ?%list_elem_of_singleton.
  - intros c h v address _ _ _. apply feeds_header; [done|].
    by intros x [?|[?|?%elem_of_nil]%elem_of_cons]%elem_of_cons.
  - intros c l. apply feeds_silent; [done|]. intros x (? & ? & _)%list_elem_of_fmap. done.
  - intros c addresses m. apply feeds_silent; [done|]. intros x ?%list_elem_of_singleton. done.
  - intros c x a parents Hd _. split; simpl.
    + intros d [E|?]%stored_write; [|by left]. right. left. exists x.
      split; [|by apply Digest_to_vec_inj]. set_solver.
    + intros pre y post d E Hdy. left.
      assert (Hxy : x = y).
      { assert (Hin : ToConsensus y ∈ ToStore (Digest_to_vec (digest x)) (serialize x) :: proposals x parents ++ [ToConsensus x]).
        { rewrite E. set_solver. }
        apply elem_of_cons in Hin as [|[Hin|Hin]%elem_of_app]; [done| |].
        - destruct parents; [by apply list_elem_of_singleton in Hin|by apply elem_of_nil in Hin].
        - apply list_elem_of_singleton in Hin. by injection Hin. }
      subst y. destruct (deliver_loop_spec committee (store c) x (btree_elems (hd_parents (ct_header x))))
        as [[Ha _]|[_ E']]; [|by unfold deliver_certificate in Hd; rewrite Hd in E'].
      rewrite Forall_forall in Ha. apply Ha. by apply elem_of_btree_elems.
Qed.

Lemma core_step_feeds c input consensus_round o es :
  core_step name committee signature_service gc_depth c input consensus_round = (o, es) →
  ∃ c1, feeds c es c1 ∧ ∀ c2, o = Some c2 → store c2 = store c1.
Proof.
  intros (c1 & Hf & Hc)%(core_step_respects name committee signature_service _ feeds_relation).
  - exists c1. split; [done|]. intros c2 ->%Hc. unfold cleanup. by destruct (_ <? _).
  - intros. apply feeds_silent; [done|]. by intros x ?%list_elem_of_singleton.
Qed.

Lemma stored_writes writes s d :
  Forall (λ w : Key * Value, length w.1 ≠ 32%nat) writes →
  stored (foldl (λ s w, storage_write s w.1 w.2) s writes) (Digest_to_vec d) → stored s (Digest_to_vec d).
Proof.
  intros Hw. revert s. induction Hw as [|w writes Hl _ IH]; intros s; simpl; [done|].
  intros [E|?]%IH%stored_write; [|done]. rewrite E, length_Digest_to_vec in Hl. done.
Qed.

Lemma core_run_feeds inputs c :
  (∀ i, i ∈ inputs → Forall (λ w : Key * Value, length w.1 ≠ 32%nat) i.2) →
  fed (λ d, in_genesis d ∨ stored (store c) (Digest_to_vec d))
    (core_run name committee signature_service gc_depth c inputs).2.
Proof.
  revert c. induction inputs as [|[[input consensus_round] writes] inputs IH]; intros c Hi; simpl.
  { apply fed_silent. set_solver. }
  destruct (core_step _ _ _ _ _ _ _) as [o es] eqn:E. apply core_step_feeds in E as (c1 & (Hs & Hf) & Hc).
  destruct o as [c2|]; [|done]. specialize (Hc c2 eq_refl).
  set (c3 := set_store _ c2) in *. specialize (IH c3).
  destruct (core_run _ _ _ _ c3 inputs) as [c4 es']. simpl in *.
  eapply fed_app; [exact Hf|apply IH; intros; apply Hi; by right|].
  intros d [?|Hd]; [auto|]. unfold c3 in Hd. simpl in Hd. rewrite Hc in Hd.
  apply stored_writes in Hd; [|by apply (Hi (input, consensus_round, writes)); left].
  apply Hs in Hd as [?|?]; auto.
Qed.
End feed.

(** C15: The core feeds the consensus with whole histories: starting with a store without certificates, and
    when the other tasks write no key of the length of a digest (the keys of the [PayloadReceiver] are
    longer), every parent of a certificate sent to the consensus is the digest of a genesis certificate or of
    a certificate sent to the consensus before, or the id under which a header was written to the store. *)
Theorem consensus_fed_with_history
    `{!Sha512, !Dalek, !Backend, !Storage, !StorageLaws _, !Bincode Header, !Bincode Certificate}
    name committee signature_service gc_depth s inputs pre x post d :
  (∀ d, ¬ stored s (Digest_to_vec d)) →
  (∀ i, i ∈ inputs → Forall (λ w : Key * Value, length w.1 ≠ 32%nat) i.2) →
  (core_run name committee signature_service gc_depth (Core_new s) inputs).2 = pre ++ ToConsensus x :: post →
  d ∈ hd_parents (ct_header x) →
  is_Some (find_genesis committee d) ∨ told pre d.
Proof.
  intros Hs Hi E Hd. pose proof (core_run_feeds name committee signature_service gc_depth inputs (Core_new s) Hi) as Hf.
  destruct (Hf pre x post d E Hd) as [[?|Hst]|?]; [by left|by destruct (Hs d)|by right].
Qed.

(** ** What a vote stands for *)

Section vote_conditions.
Context `{!Sha512, !Dalek, !Backend, !Storage, !StorageLaws _, !Bincode Header, !Bincode Certificate}.
Variables (name : PublicKey) (committee : Committee) (signature_service : SecretKey).

Lemma check_parents_ret h parents acc weight :
  check_parents committee h parents acc = Ret weight ↔
    (∀ x, x ∈ parents → u64_add (cround x) 1 = hd_round h) ∧
    weight = foldl u32_add acc ((λ x, stake committee (origin x)) <$> parents).
Proof.
  revert acc. induction parents as [|x parents IH]; intros acc; csimpl.
  - split; [intros [= ->]; set_solver|by intros [_ ->]].
  - rewrite ensure_bind_ret, IH, N.eqb_eq. setoid_rewrite elem_of_cons. naive_solver.
Qed.

(** What a handler that processes the header of another authority did before it sent a vote. *)
Lemma process_header_vote n h c c' es r address v :
  hd_author h ≠ name →
  process_header name committee signature_service (S n) h c = Some (c', es, r) →
  NetworkSend address (PMVote v) ∈ es →
  ∃ parents weight, get_parents committee (store c) h = Ret (parents, []) ∧ parents ≠ [] ∧
    check_parents committee h parents 0 = Ret weight ∧ quorum_threshold committee ≤ weight ∧
    missing_payload name (store c) h = Ret (false, []) ∧
    contains_at (hd_round h) (hd_author h) (last_voted c) = false ∧
    Vote_new h name signature_service = Ret v ∧ author_address committee h = Ret address ∧
    store c' = storage_write (store c) (Digest_to_vec (hd_id h)) (serialize h).
Proof.
  intros Hne. cbn [process_header]. unfold call_get_parents, call_missing_payload, write.
  unfold mbind, handler_bind, modify, get, lift, emit, mret, handler_ret. cbn [store set_processing].
  assert (Hno : ∀ l : list WaiterMessage, NetworkSend address (PMVote v) ∉ (ToHeaderWaiter <$> l)).
  { intros l (? & ? & _)%list_elem_of_fmap. done. }
  destruct (get_parents committee (store c) h) as [[parents messages]|e|] eqn:Hp; [|intros [= <- <- <-]; set_solver..].
  pose proof (get_parents_messages committee _ _ _ _ Hp) as Hm.
  destruct parents as [|p parents]; [intros [= <- <- <-]; simpl; rewrite !app_nil_r; by intros ?%Hno|].
  rewrite (Hm ltac:(done)) in *. simpl.
  destruct (check_parents committee h (p :: parents) 0) as [weight|e|] eqn:Hc; simpl in Hc; rewrite Hc;
    [|intros [= <- <- <-]; set_solver..].
  unfold ensure. destruct (N.leb_spec (quorum_threshold committee) weight) as [Hq|]; [|intros [= <- <- <-]; set_solver].
  destruct (missing_payload name (store c) h) as [[missing messages']|e|] eqn:Hmp; simpl; [|intros [= <- <- <-]; set_solver..].
  destruct missing; [intros [= <- <- <-]; rewrite !app_nil_r; by intros ?%Hno|].
  rewrite (missing_payload_messages name _ _ _ Hmp) in Hmp |- *. simpl.
  destruct (contains_at _ _ _) eqn:Hv; [intros [= <- <- <-]; set_solver|].
  unfold call_vote, mbind, handler_bind, emit, lift.
  destruct (Vote_new h name signature_service) as [v'|e|] eqn:Ev; simpl; [|intros [= <- <- <-]; set_solver..].
  pose proof (Vote_new_fields _ _ _ _ Ev) as (_ & _ & Eo & _).
  rewrite decide_False by congruence.
  destruct (author_address committee h) as [a|e|] eqn:Ea; simpl; [|intros [= <- <- <-]; set_solver..].
  intros [= <- <- <-] Hin. simpl in Hin.
  assert (a = address ∧ v' = v) as [-> ->].
  { do 2 (apply elem_of_cons in Hin as [|Hin]; [done|]). apply list_elem_of_singleton in Hin. by injection Hin. }
  exists (p :: parents), weight. split_and!; done.
Qed.
End vote_conditions.

(** A vote is only sent for a header of another authority whose parents are all known certificates of
    the previous round with a quorum of stake, whose payload is available, and whose author did not get a
    vote in this round yet; it is a vote for that header, sent to its author, and the header is stored. *)
Theorem vote_conditions `{!Sha512, !Dalek, !Backend, !Storage, !StorageLaws _, !Bincode Header, !Bincode Certificate}
    name committee signature_service n h c c' es r address v :
  hd_author h ≠ name →
  process_header name committee signature_service (S n) h c = Some (c', es, r) →
  NetworkSend address (PMVote v) ∈ es →
  (∃ parents, get_parents committee (store c) h = Ret (parents, []) ∧
    (∀ x, x ∈ parents → u64_add (cround x) 1 = hd_round h) ∧
    quorum_threshold committee ≤ u32_sum ((λ x, stake committee (origin x)) <$> parents)) ∧
  (∀ d w, hd_payload h !! d = Some w → stored (store c) (payload_key d w)) ∧
  contains_at (hd_round h) (hd_author h) (last_voted c) = false ∧
  vt_id v = hd_id h ∧ vt_round v = hd_round h ∧ vt_origin v = hd_author h ∧ vt_author v = name ∧
  (∃ x, Config.primary committee (hd_author h) = Ret x ∧ address = primary_to_primary x) ∧
  stored (store c') (Digest_to_vec (hd_id h)).
Proof.
  intros Hne Hp Hin.
  destruct (process_header_vote _ _ _ _ _ _ _ _ _ _ _ Hne Hp Hin)
    as (parents & weight & Hg & _ & [Hr ->]%check_parents_ret & Hq & Hm & Hv & Hvn & Ha & Hs).
  apply Vote_new_fields in Hvn as (? & ? & ? & ?). split_and!; [by exists parents| |done..| |].
  - intros d w Hd. destruct (missing_payload_loop_all (store c) h) as (m & E & Hspec).
    unfold missing_payload in Hm. rewrite decide_False, E in Hm by done. simpl in Hm.
    case_decide as Hmt; [|done]. destruct (read_cases (store c) (payload_key d w)) as [(v' & _ & ?)|[_ Hns]]; [done|].
    exfalso. assert (m !! d = Some w) by (by apply Hspec). by rewrite Hmt, lookup_empty in *.
  - unfold author_address in Ha. destruct (Config.primary _ _) as [x| |]; [|done..]. exists x. by injection Ha.
  - rewrite Hs. eexists. apply storage_read_write.
Qed.

(** ** Votes after a clean-up *)

Section below_gc.
Context `{!Sha512, !Dalek, !Backend, !Storage, !Bincode Header, !Bincode Certificate}.
Variables (name : PublicKey) (committee : Committee) (secret : SecretKey) (gc_depth : Round).
Implicit Types (c : Core.Core) (h : Header) (v : Vote) (writes : list (Key * Value)).

(** A run ends with a clean-up and writes of other tasks. *)
Lemma core_run_last c0 inputs input consensus_round writes c es :
  core_run name committee secret gc_depth c0 (inputs ++ [(input, consensus_round, writes)]) = (Some c, es) →
  ∃ c1 f, c = set_store f (cleanup gc_depth consensus_round c1).
Proof.
  revert c0 es. induction inputs as [|[[i r] ws] inputs IH]; intros c0 es; simpl.
  - unfold core_step. destruct (core_handle _ _ _ c0 input) as [[c1|] es1]; [|done]. simpl. intros [= <- _].
    by exists c1, (λ s, foldl (λ s w, storage_write s w.1 w.2) s writes).
  - destruct (core_step _ _ _ _ c0 i r) as [[c1|] es1]; [|done].
    destruct (core_run _ _ _ _ _ _) as [o es2] eqn:E. intros [= -> _]. by eapply IH.
Qed.

Lemma cleanup_forgets consensus_round c r a :
  gc_depth < consensus_round → r < consensus_round - gc_depth →
  contains_at r a (last_voted (cleanup gc_depth consensus_round c)) = false.
Proof.
  intros Hd Hr. unfold cleanup. rewrite (proj2 (N.ltb_lt _ _) Hd). unfold contains_at. cbn [last_voted].
  destruct (filter _ (last_voted c) !! r) as [x|] eqn:E; [|done].
  apply map_lookup_filter_Some in E as [_ E]. simpl in E. lia.
Qed.

(** The header of another authority that passes the checks gets a vote, when its author has none in the round. *)
Lemma process_header_votes n c h v a :
  hd_author h ≠ name → contains_at (hd_round h) (hd_author h) (last_voted c) = false → header_checked name committee c h →
  Vote_new h name secret = Ret v → Config.primary committee (hd_author h) = Ret a →
  ∃ c', process_header name committee secret (S n) h c =
    Some (c', [header_write h; ToSignatureService (unsigned_vote name h); NetworkSend (primary_to_primary a) (PMVote v)], Ret ()).
Proof.
  intros Hne Hv [parents weight Hg Hn Hc Hq Hm] Hvn Ha. rewrite process_header_S. generalize (process_vote name committee secret n).
  intros pv. unfold check_and_vote, vote_for, call_get_parents, call_missing_payload, call_vote, write, author_address.
  unfold mbind, handler_bind, modify, get, lift, emit, mret, handler_ret. cbn [store set_processing].
  rewrite Hg. destruct parents as [|p ps]; [done|]. simpl in Hc |- *. rewrite Hc. unfold ensure.
  rewrite (proj2 (N.leb_le _ _) Hq), Hm. simpl. rewrite Hv, Hvn. simpl.
  pose proof (Vote_new_fields _ _ _ _ Hvn) as (_ & _ & Eo & _). rewrite decide_False by congruence. rewrite Ha. simpl.
  by eexists.
Qed.

(** [header_checked], for evaluation. *)
Definition header_check c h : bool :=
  match get_parents committee (store c) h, missing_payload name (store c) h with
  | Ret (p :: ps, []), Ret (false, []) =>
      match check_parents committee h (p :: ps) 0 with Ret w => quorum_threshold committee <=? w | _ => false end
  | _, _ => false
  end.

Lemma header_check_spec c h : header_check c h = true → header_checked name committee c h.
Proof.
  unfold header_check. destruct (get_parents _ _ _) as [[[|p ps] [|]]| |] eqn:Eg; try done.
  destruct (missing_payload _ _ _) as [[[] [|]]| |] eqn:Em; try done.
  destruct (check_parents _ _ _ _) as [w| |] eqn:Ec; [|done..]. intros Hq%N.leb_le. by eapply checked.
Qed.

(** From the network it is refused as too old. *)
Lemma old_header_refused c h :
  hd_round h < gc_round c → core_handle name committee secret c (FromPrimaries (PMHeader h)) = (Some c, []).
Proof.
  intros Hr. unfold core_handle, handle_input, sanitize_header, mbind, handler_bind, get, lift, ensure.
  by rewrite (proj2 (N.leb_gt _ _) Hr).
Qed.
End below_gc.

(** C21: Nothing is left of the votes for rounds below the one that was garbage collected last, and a header that
    comes back from the [HeaderWaiter] is not checked against it. Take any run of the core in which it voted for a
    header, and whose last clean-up is beyond the round of that header: when another header of the same author
    and round passes the checks of parents and payload, the core refuses it as too old from the network, but votes
    for it as well when it loops back, and has sent votes for both. *)
Theorem votes_again_below_gc_round `{!Sha512, !Dalek, !Backend, !Storage, !Bincode Header, !Bincode Certificate}
    name committee secret gc_depth c0 inputs input consensus_round writes c es address0 v0 h v a :
  core_run name committee secret gc_depth c0 (inputs ++ [(input, consensus_round, writes)]) = (Some c, es) →
  NetworkSend address0 (PMVote v0) ∈ es → vote_key v0 = (hd_round h, hd_author h) → vt_id v0 ≠ hd_id h →
  gc_depth < consensus_round → hd_round h < consensus_round - gc_depth →
  hd_author h ≠ name → header_checked name committee c h →
  Vote_new h name secret = Ret v → Config.primary committee (hd_author h) = Ret a →
  core_handle name committee secret c (FromPrimaries (PMHeader h)) = (Some c, []) ∧
  (∃ c' es', core_handle name committee secret c (FromHeaderWaiter h) = (Some c', es') ∧
     NetworkSend (primary_to_primary a) (PMVote v) ∈ es') ∧
  vote_key v = vote_key v0 ∧ vt_id v ≠ vt_id v0.
Proof.
  intros Hrun _ Hk Hid Hd Hr Hne Hch Hvn Ha.
  apply core_run_last in Hrun as (c1 & f & ->). pose proof (Vote_new_fields _ _ _ _ Hvn) as (Ei & Er & Eo & _).
  split_and!; [..|unfold vote_key in *; congruence|congruence].
  - apply old_header_refused. unfold cleanup. rewrite (proj2 (N.ltb_lt _ _) Hd). done.
  - pose proof (cleanup_forgets gc_depth consensus_round c1 (hd_round h) (hd_author h) Hd Hr) as Hv.
    destruct (process_header_votes name committee secret 6 (set_store f (cleanup gc_depth consensus_round c1)) h v a
      Hne Hv Hch Hvn Ha) as [c' E].
    unfold core_handle, handle_input, core_fuel. rewrite E. do 2 eexists. split; [done|]. set_solver.
Qed.

(** ** Evaluation *)

Module SampleCore.
Import Toy ToyBackend ToyBincode MapDB SampleMessages.

(** The core of an authority with an empty store. *)
Notation start := (Core_new (StoreTask_new : @storage _ map_storage)).

(** The core of authority [n] of the sample committee on inputs, with a garbage collection depth of 50. *)
Definition effects (n : N) (inputs : list (CoreInput * Round * list (Key * Value))) : list Effect :=
  (core_run (pk n) Sample.committee (sk n) 50 start inputs).2.

(** Two headers of authority 2 in round 1. *)
Definition header_a : Header := header 2 1 ∅ genesis_digests.
Definition header_b : Header := header 2 1 {[ dg 5 := 0 ]} genesis_digests.

(** The second comes first, and is suspended until its batch is there; the clean-up of round 60 follows the first,
    and the mark of the batch. *)
Definition inputs_2 : list (CoreInput * Round * list (Key * Value)) :=
  [(FromPrimaries (PMHeader header_b), 0, []); (FromPrimaries (PMHeader header_a), 60, [(payload_key (dg 5) 0, [])])].

(** A header, a certificate, and the header again. *)
Definition inputs_1 : list (CoreInput * Round * list (Key * Value)) :=
  [(FromPrimaries (PMHeader header_a), 0, []); (FromPrimaries (PMCertificate c1), 0, []);
   (FromPrimaries (PMHeader header_a), 0, [])].
End SampleCore.

Section witnesses.
Import Toy ToyBackend ToyBincode MapDB SampleMessages SampleCore.

Lemma fuel_enough_witness :
  ∃ c' es r, handle_input (pk 4) Sample.committee (sk 4) (FromPrimaries (PMCertificate c1)) start
    = Some (c', es, r).
Proof. apply fuel_enough. Defined.

Lemma one_vote_per_author_and_round_witness :
  votes_sent (effects 4 inputs_1) = [(1, pk 2)] ∧
  NoDup (filter (λ k, 0 ≤ k.1) (votes_sent (effects 4 inputs_1))).
Proof.
  split; [apply (bool_decide_unpack _); vm_compute; exact I|]. unfold effects.
  unfold effects. apply (one_vote_per_author_and_round (pk 4) Sample.committee (sk 4) 50 (StoreTask_new : @storage _ map_storage) inputs_1 0).
  apply Forall_forall. apply (bool_decide_unpack _). vm_compute. exact I.
Defined.

Lemma effects_1 :
  (core_run (pk 4) Sample.committee (sk 4) 50 start (take 2 inputs_1)).2 = removelast (effects 4 (take 2 inputs_1)) ++ [ToConsensus c1].
Proof. apply (bool_decide_unpack _). vm_compute. exact I. Qed.

(** A parent of [c1]. *)
Definition parent_1 : Digest := digest (nth 1 (genesis Sample.committee) Certificate_default).

Lemma parent_1_in : parent_1 ∈ hd_parents (ct_header c1).
Proof. apply (bool_decide_unpack _). vm_compute. exact I. Qed.

Lemma consensus_fed_with_history_witness :
  is_Some (find_genesis Sample.committee parent_1) ∨ told (removelast (effects 4 (take 2 inputs_1))) parent_1.
Proof.
  apply (consensus_fed_with_history (pk 4) Sample.committee (sk 4) 50 (StoreTask_new : @storage _ map_storage) (take 2 inputs_1) _ c1 []);
    [| | |exact parent_1_in].
  - intros d' [v E]. discriminate E.
  - apply Forall_forall. apply (bool_decide_unpack _). vm_compute. exact I.
  - exact effects_1.
Defined.

(** The result of processing [header_a] and the vote sent for it. *)
Notation result_a :=
  (default (start, [], Ret ()) (process_header (pk 4) Sample.committee (sk 4) 7 header_a start)).
Definition vote_a : SocketAddr * Vote :=
  match last result_a.1.2 with
  | Some (NetworkSend address (PMVote v)) => (address, v)
  | _ => (Sample.address 0, vote header_a 4)
  end.

Lemma default_triple {A B C} (m : option (A * B * C)) d :
  match m with Some _ => true | None => false end = true → m = Some ((default d m).1.1, (default d m).1.2, (default d m).2).
Proof. by destruct m as [[[? ?] ?]|]. Qed.

Lemma header_a_author : hd_author header_a ≠ pk 4.
Proof. apply (bool_decide_unpack _). vm_compute. exact I. Qed.

Lemma result_a_eq :
  process_header (pk 4) Sample.committee (sk 4) 7 header_a start = Some (result_a.1.1, result_a.1.2, result_a.2).
Proof. apply default_triple. vm_compute. reflexivity. Qed.

Lemma vote_a_sent : NetworkSend vote_a.1 (PMVote vote_a.2) ∈ result_a.1.2.
Proof. apply (bool_decide_unpack _). vm_compute. exact I. Qed.

Lemma vote_conditions_witness :
  vt_id vote_a.2 = hd_id header_a ∧ stored (store result_a.1.1) (Digest_to_vec (hd_id header_a)).
Proof.
  destruct (vote_conditions (pk 4) Sample.committee (sk 4) 6 header_a start _ _ _ vote_a.1 vote_a.2
    header_a_author result_a_eq vote_a_sent) as (_ & _ & _ & Hid & _ & _ & _ & _ & Hs).
  split; [exact Hid|exact Hs].
Defined.

(** The core of authority 1 after the inputs, and what it sent. *)
Notation run_2 := (core_run (pk 1) Sample.committee (sk 1) 50 start inputs_2).
Notation core_2 := (default start run_2.1).

Lemma run_2_eq : run_2 = (Some core_2, run_2.2).
Proof.
  assert (E : match run_2.1 with Some _ => true | None => false end = true) by (vm_compute; reflexivity).
  revert E. generalize run_2. intros [[c|] es]; by simpl.
Qed.

Lemma header_b_checked : header_checked (pk 1) Sample.committee core_2 header_b.
Proof. apply header_check_spec. vm_compute. reflexivity. Qed.

(** The address of authority 2. *)
Definition address_2 : PrimaryAddresses :=
  value (MkPrimaryAddresses (Sample.address 0) (Sample.address 0)) (Config.primary Sample.committee (pk 2)).

Lemma value_ret {E A} (d : A) (m : outcome E A) : is_ret m = true → m = Ret (value d m).
Proof. by destruct m. Qed.

Lemma votes_again_below_gc_round_witness :
  ToHeaderWaiter (SyncBatches {[ dg 5 := 0 ]} header_b) ∈ run_2.2 ∧
  NetworkSend (primary_to_primary address_2) (PMVote (vote header_a 1)) ∈ run_2.2 ∧
  core_handle (pk 1) Sample.committee (sk 1) core_2 (FromPrimaries (PMHeader header_b)) = (Some core_2, []) ∧
  (∃ c' es', core_handle (pk 1) Sample.committee (sk 1) core_2 (FromHeaderWaiter header_b) = (Some c', es') ∧
     NetworkSend (primary_to_primary address_2) (PMVote (vote header_b 1)) ∈ es') ∧
  vote_key (vote header_b 1) = vote_key (vote header_a 1) ∧ vt_id (vote header_b 1) ≠ vt_id (vote header_a 1).
Proof.
  assert (Hs : NetworkSend (primary_to_primary address_2) (PMVote (vote header_a 1)) ∈ run_2.2)
    by (apply (bool_decide_unpack _); vm_compute; exact I).
  split; [apply (bool_decide_unpack _); vm_compute; exact I|]. split; [exact Hs|].
  apply (votes_again_below_gc_round (pk 1) Sample.committee (sk 1) 50 start
    [(FromPrimaries (PMHeader header_b), 0, [])] (FromPrimaries (PMHeader header_a)) 60 [(payload_key (dg 5) 0, [])]
    core_2 run_2.2 (primary_to_primary address_2) (vote header_a 1) header_b (vote header_b 1) address_2).
  - exact run_2_eq.
  - exact Hs.
  - vm_compute. reflexivity.
  - apply (bool_decide_unpack _). vm_compute. exact I.
  - vm_compute. reflexivity.
  - vm_compute. reflexivity.
  - apply (bool_decide_unpack _). vm_compute. exact I.
  - exact header_b_checked.
  - apply value_ret. vm_compute. reflexivity.
  - apply value_ret. vm_compute. reflexivity.
Defined.
End witnesses.
