(* ===== verification/CoreTrace.v ===== *)
(** Where the certificates come from that the core hands on: to the consensus, and to the certificate waiter. *)

From S2P Require Import Prelude Crypto Config Messages Aggregators Store Primary Core CoreFacts.

Section trace.
Context `{!Sha512, !Dalek, !Backend, !Storage, !Bincode Header, !Bincode Certificate}.
Variables (name : PublicKey) (committee : Committee) (signature_service : SecretKey).
Implicit Types (es : list Effect) (x y : Certificate) (A : Certificate → Prop).

Definition forwarded es y : Prop := ToConsensus y ∈ es ∨ ToCertificateWaiter y ∈ es.

(** The core assembled the certificate from votes: it broadcast it. *)
Definition assembled es y : Prop := ∃ addresses, NetworkBroadcast addresses (PMCertificate y) ∈ es.

(** What is forwarded is in [A] or was assembled. *)
Definition traced A es : Prop := ∀ y, forwarded es y → A y ∨ assembled es y.

Lemma forwarded_app es es' y : forwarded (es ++ es') y ↔ forwarded es y ∨ forwarded es' y.
Proof. unfold forwarded. set_solver. Qed.

Lemma assembled_app es es' y : assembled (es ++ es') y ↔ assembled es y ∨ assembled es' y.
Proof. unfold assembled. setoid_rewrite elem_of_app. naive_solver. Qed.

Lemma traced_app A es es' : traced A es → traced A es' → traced A (es ++ es').
Proof. intros T1 T2 y [[?|?]%T1|[?|?]%T2]%forwarded_app; rewrite assembled_app; auto. Qed.

Lemma traced_silent A es : (∀ y, ¬ forwarded es y) → traced A es.
Proof. by intros Hes y ?%Hes. Qed.

Lemma traced_none A es : traced (λ _, False) es → traced A es.
Proof. intros Ht y [[]|?]%Ht. by right. Qed.

(** Relations on the effects alone. *)
Notation keeps A := (respects (λ _ es _, traced A es)).

#[local] Instance traced_effects A : EffectRelation (λ _ es _, traced A es).
Proof.
  split; [|intros; by apply traced_app]. intros _. apply traced_silent.
  by intros y [?%elem_of_nil|?%elem_of_nil].
Qed.

Lemma traced_headers A : header_relation name committee signature_service (λ _ es _, traced A es).
Proof.
  split; [apply traced_effects|..]; intros; apply traced_silent; intros y [Hy|Hy];
    repeat match goal with
    | H : _ ∈ [] |- _ => by apply elem_of_nil in H
    | H : _ ∈ _ :: _ |- _ => apply elem_of_cons in H as [|H]; [done|]
    | H : _ ∈ _ <$> _ |- _ => by apply list_elem_of_fmap in H as (? & ? & _)
    end.
Qed.

(** A certificate that is not forwarded, or is the one allowed. *)
Lemma deliver_traced x :
  keeps (eq x) (
    delivered ← call_deliver_certificate committee x;
    if negb delivered then mret ()
    else
      write (Digest_to_vec (digest x)) (serialize x);;
      '(a, r) ← get (λ c, CertificatesAggregator.append
        (default CertificatesAggregator.new (certificates_aggregators c !! cround x)) x committee);
      modify (set_certificates_aggregators (λ m, <[ cround x := a ]> m));;
      o ← lift r;
      emit (match o with Some parents => [ToProposer parents (cround x)] | None => [] end);;
      emit [ToConsensus x]).
Proof.
  set (R := λ (_ : Core.Core) es (_ : Core.Core), traced (eq x) es). assert (HE : EffectRelation R) by apply traced_effects.
  assert (Hone : ∀ e c, (∀ y, forwarded [e] y → x = y) → R c [e] c).
  { intros e c He y Hy. left. by apply He. }
  assert (Hmod : ∀ f, respects R (modify f)) by (intros f; apply respects_modify; intros c; exact (R_refl R c)).
  assert (Hcw : ∀ l, (∀ y, y ∈ l → x = y) → respects R (emit (ToCertificateWaiter <$> l))).
  { intros l Hl. apply respects_emit. intros c y [(? & ? & _)%list_elem_of_fmap|(z & [= ->] & Hz)%list_elem_of_fmap]; [done|].
    left. by apply Hl. }
  apply (respects_bind R).
  - unfold call_deliver_certificate. intros c c' es r. unfold mbind, handler_bind, get, lift, emit, mret, handler_ret.
    destruct (deliver_certificate committee (store c) x) as [[delivered l]|e|] eqn:Hd; simpl; [|intros [= <- <- <-]; apply (R_refl R)..].
    intros [= <- <- <-]. rewrite app_nil_r. apply (Hcw l) with (c := c) (c' := c) (r := Ret ()); [|done].
    intros y Hy. unfold deliver_certificate in Hd. revert Hd.
    induction (btree_elems (hd_parents (ct_header x))) as [|d ds IH]; simpl; [intros [= _ <-]; by apply elem_of_nil in Hy|].
    destruct (existsb _ _); [done|]. destruct (read _ _) as [[v|]| |]; simpl; [done| |done..].
    intros [= _ <-]. by apply list_elem_of_singleton in Hy.
  - intros delivered. destruct (negb delivered); [by apply respects_ret|].
    apply (respects_bind R).
    { unfold write. apply (respects_bind R); [|intros _; apply Hmod].
      apply respects_emit. intros c. apply Hone. by intros y [?%list_elem_of_singleton|?%list_elem_of_singleton]. }
    intros _. apply (respects_bind R); [by apply respects_get|]. intros [a r].
    apply (respects_bind R); [apply Hmod|]. intros _.
    apply (respects_bind R); [by apply respects_lift|]. intros o.
    apply (respects_bind R).
    + apply respects_emit. intros c. destruct o; [|apply (R_refl R)]. apply Hone.
      by intros y [?%list_elem_of_singleton|?%list_elem_of_singleton].
    + intros _. apply respects_emit. intros c. apply Hone.
      intros y [Hy%list_elem_of_singleton|?%list_elem_of_singleton]; [by injection Hy|done].
Qed.

Lemma handlers_traced n :
  (∀ h, keeps (λ _, False) (process_header name committee signature_service n h)) ∧
  (∀ v, keeps (λ _, False) (process_vote name committee signature_service n v)) ∧
  (∀ x, keeps (eq x) (process_certificate name committee signature_service n x)).
Proof.
  pose proof (traced_effects (λ _, False)) as HE.
  induction n as [|n (IHh & IHv & IHc)]; [split_and!; intros; apply respects_out_of_fuel|]. split_and!.
  - intros h. rewrite process_header_S. apply (respects_bind _).
    { by apply (respects_same _ _ _ _ (traced_headers _)). }
    intros _. by apply (check_and_vote_respects _ _ _ _ (traced_headers _)).
  - intros v. cbn [process_vote]. apply (respects_bind _); [by apply respects_get|]. intros [a r].
    apply (respects_bind _); [by apply (respects_same _ _ _ _ (traced_headers _))|]. intros _.
    apply (respects_bind _); [by apply respects_lift|]. intros [x|]; [|by apply respects_ret].
    intros c c' es r'. unfold broadcast, mbind, handler_bind, emit, modify.
    match goal with |- context [expect_ok ?m ?c0] => destruct (expect_ok m c0) as [[[c2 es2] r2]|] eqn:E; [|done] end.
    apply (respects_expect_ok _ _ (IHc x)) in E. intros [= <- <- <-].
    intros y Hy. assert (Hy' : forwarded es2 y) by (by destruct Hy as [[?|?]%elem_of_cons|[?|?]%elem_of_cons]; [|left| |right]).
    right. apply E in Hy' as [<-|[addresses ?]].
    + eexists. by left.
    + exists addresses. by right.
  - intros x. pose proof (traced_effects (eq x)) as HEx. cbn [process_certificate]. apply (respects_bind _); [by apply respects_get|].
    intros known. apply (respects_bind _); [|intros _; apply deliver_traced].
    destruct known; [by apply respects_ret|]. intros c c' es r E. by eapply traced_none, IHh.
Qed.

(** The certificate an input brings: one from the network that verifies, or one the certificate waiter kept. *)
Definition incoming (input : CoreInput) y : Prop :=
  match input with
  | FromPrimaries (PMCertificate x) => y = x ∧ Certificate_verify x committee = Ret ()
  | FromCertificateWaiter x => y = x
  | _ => False
  end.

Lemma core_handle_traced c input o es :
  core_handle name committee signature_service c input = (o, es) → traced (incoming input) es.
Proof.
  destruct (handlers_traced core_fuel) as (Hh & Hv & Hx). unfold core_handle.
  destruct (handle_input _ _ _ input c) as [[[c1 es1] r1]|] eqn:E.
  2: { intros [= <- <-]. apply traced_silent. by intros y [?%elem_of_nil|?%elem_of_nil]. }
  intros Er. assert (es1 = es) as -> by (by destruct r1 as [[]|[]|]; injection Er). clear Er.
  assert (Hnil : traced (incoming input) []) by (apply traced_silent; by intros y [?%elem_of_nil|?%elem_of_nil]).
  destruct input as [[h|v|x|missing requestor]|h|x|h]; unfold handle_input in E.
  - unfold mbind, handler_bind, get, lift in E. destruct (sanitize_header _ _ _) as [[]| |]; [|by simplify_eq..].
    destruct (process_header _ _ _ _ h c) as [[[c2 es2] r2]|] eqn:E2; [|done]. apply Hh in E2. simplify_eq/=. by apply traced_none.
  - unfold mbind, handler_bind, get, lift in E. destruct (sanitize_vote _ _ _) as [[]| |]; [|by simplify_eq..].
    destruct (process_vote _ _ _ _ v c) as [[[c2 es2] r2]|] eqn:E2; [|done]. apply Hv in E2. simplify_eq/=. by apply traced_none.
  - unfold mbind, handler_bind, get, lift in E.
    destruct (sanitize_certificate _ _ _) as [[]| |] eqn:Es; [|by simplify_eq..].
    destruct (process_certificate _ _ _ _ x c) as [[[c2 es2] r2]|] eqn:E2; [|done]. apply Hx in E2. simplify_eq/=.
    unfold sanitize_certificate in Es. apply ensure_bind_ret in Es as [_ Es].
    intros y [<-|?]%E2; [by left|by right].
  - injection E as <- <- <-. exact Hnil.
  - apply Hh in E. by apply traced_none.
  - apply Hx in E. intros y [<-|?]%E; [by left|by right].
  - unfold process_own_header, broadcast, mbind, handler_bind, modify, emit in E.
    match type of E with context [process_header ?a ?b ?d ?f h ?c0] =>
      destruct (process_header a b d f h c0) as [[[c2 es2] r2]|] eqn:E2; [|done] end.
    apply Hh in E2. injection E as <- <- <-.
    apply traced_none, (traced_app _ [NetworkBroadcast (primary_addresses name committee) (PMHeader h)]); [|done].
    apply traced_silent. by intros y [?%list_elem_of_singleton|?%list_elem_of_singleton].
Qed.
End trace.
