(* ===== verification/CoreStore.v ===== *)
(** The store of the primary is well typed: what the core and the [PayloadReceiver] put under a key is what
    the tasks that read it expect there. *)

From S2P Require Import Prelude Crypto Config Messages Aggregators Store Primary Core CoreFacts.

Section typing.
Context `{!Sha512, !Dalek, !Backend, !Storage, !StorageLaws _, !Bincode Header, !Bincode Certificate}.
Variables (name : PublicKey) (committee : Committee) (signature_service : SecretKey) (gc_depth : Round).

(** A header under its id, a certificate under its digest, or the mark of a batch under its digest and the
    worker that has it. *)
Inductive entry_typed : Key → Value → Prop :=
| header_entry h : entry_typed (Digest_to_vec (hd_id h)) (serialize h)
| certificate_entry x : entry_typed (Digest_to_vec (digest x)) (serialize x)
| payload_entry d w : entry_typed (payload_key d w) [].

Definition store_typed (s : storage) : Prop := ∀ key v, storage_read s key = Ret (Some v) → entry_typed key v.

Lemma store_typed_write s key v : store_typed s → entry_typed key v → store_typed (storage_write s key v).
Proof.
  intros Hs Hv key' v'. destruct (decide (key = key')) as [<-|?].
  - rewrite storage_read_write. by intros [= <-].
  - rewrite storage_read_write_ne by done. apply Hs.
Qed.

Lemma store_typed_writes writes s :
  Forall (λ w : Key * Value, entry_typed w.1 w.2) writes → store_typed s →
  store_typed (foldl (λ s w, storage_write s w.1 w.2) s writes).
Proof.
  intros Hw. revert s. induction Hw as [|w writes Hv _ IH]; intros s Hs; simpl; [done|].
  apply IH. by apply store_typed_write.
Qed.

(** Kept by every handler of the core. *)
Lemma typed_relation :
  core_relation name committee signature_service (λ c _ c', store_typed (store c) → store_typed (store c')).
Proof.
  split; [split|..]; simpl; auto.
  - split; auto.
  - by intros c c' (-> & _).
  - intros c h Hs. apply store_typed_write; [done|constructor].
  - intros c h _ _ Hs. apply store_typed_write; [done|constructor].
  - intros c h v address _ _ _ Hs. apply store_typed_write; [done|constructor].
  - intros c x a parents _ _ Hs. apply store_typed_write; [done|constructor].
Qed.

Lemma core_step_typed c input consensus_round c' es :
  core_step name committee signature_service gc_depth c input consensus_round = (Some c', es) →
  store_typed (store c) → store_typed (store c').
Proof.
  intros (c1 & Hr & Hc)%(core_step_respects name committee signature_service _ typed_relation) Hs; [|auto].
  rewrite (Hc c' eq_refl). unfold cleanup. destruct (_ <? _); auto.
Qed.

Lemma core_run_typed inputs c c' es :
  (∀ i, i ∈ inputs → Forall (λ w : Key * Value, entry_typed w.1 w.2) i.2) →
  core_run name committee signature_service gc_depth c inputs = (Some c', es) →
  store_typed (store c) → store_typed (store c').
Proof.
  revert c es. induction inputs as [|[[input consensus_round] writes] inputs IH]; intros c es Hw; simpl; [by intros [= <- _]|].
  destruct (core_step _ _ _ _ _ _ _) as [[c1|] es1] eqn:E; [|done].
  pose proof (core_step_typed _ _ _ _ _ E) as Hstep.
  set (c2 := set_store _ c1). destruct (core_run _ _ _ _ c2 inputs) as [o es2] eqn:E2. intros [= -> <-] Hs.
  apply (IH c2 es2); [intros i Hi; apply Hw; by right|done|].
  apply Hstep in Hs. unfold c2. simpl. specialize (Hw (input, consensus_round, writes) ltac:(left)). by apply store_typed_writes.
Qed.
End typing.

(** C23: The store of the primary stays well typed: if it is at the start, and the other tasks only write what
    the [PayloadReceiver] writes, then whatever the core is sent, every entry is a header under its id, a
    certificate under its digest or an empty mark under a batch and a worker id. In particular what is read
    under a digest is a header with that id or a certificate with that digest, never a mark. *)
Theorem store_well_typed
    `{!Sha512, !Dalek, !Backend, !Storage, !StorageLaws _, !Bincode Header, !Bincode Certificate}
    name committee signature_service gc_depth s inputs c es :
  store_typed s →
  (∀ i, i ∈ inputs → Forall (λ w : Key * Value, ∃ d id, w = (payload_key d id, [])) i.2) →
  core_run name committee signature_service gc_depth (Core_new s) inputs = (Some c, es) →
  store_typed (store c) ∧
  ∀ d v, storage_read (store c) (Digest_to_vec d) = Ret (Some v) →
    (∃ h, hd_id h = d ∧ v = serialize h) ∨ (∃ x, digest x = d ∧ v = serialize x).
Proof.
  intros Hs Hw E. assert (Ht : store_typed (store c)).
  { eapply core_run_typed; [|exact E|exact Hs]. intros i Hi. eapply Forall_impl; [by apply Hw|].
    intros w (d & id & ->). constructor. }
  split; [done|]. intros d v Hv. apply Ht in Hv. remember (Digest_to_vec d) as key eqn:Ek. destruct Hv as [h|x|d' w].
  - left. exists h. split; [by apply Digest_to_vec_inj|done].
  - right. exists x. split; [by apply Digest_to_vec_inj|done].
  - by apply payload_key_digest in Ek.
Qed.

Section witnesses.
Import Toy ToyBackend ToyBincode MapDB SampleMessages SampleCore.

(** The core of authority 4 after a header and its certificate. *)
Definition after_1 : Core := default start (core_run (pk 4) Sample.committee (sk 4) 50 start (take 2 inputs_1)).1.

Lemma after_1_eq :
  core_run (pk 4) Sample.committee (sk 4) 50 start (take 2 inputs_1) =
    (Some after_1, (core_run (pk 4) Sample.committee (sk 4) 50 start (take 2 inputs_1)).2).
Proof.
  unfold after_1. assert (E : bool_decide (is_Some (core_run (pk 4) Sample.committee (sk 4) 50 start (take 2 inputs_1)).1) = true)
    by (vm_compute; reflexivity).
  apply bool_decide_eq_true in E. destruct (core_run _ _ _ _ _ _) as [[c|] es]; [done|]. by destruct E.
Qed.

Lemma store_well_typed_witness :
  store_typed (store after_1) ∧
  ∀ d v, storage_read (store after_1) (Digest_to_vec d) = Ret (Some v) →
    (∃ h : Header, hd_id h = d ∧ v = serialize h) ∨ (∃ x : Certificate, digest x = d ∧ v = serialize x).
Proof.
  eapply (store_well_typed (pk 4) Sample.committee (sk 4) 50 (StoreTask_new : @storage _ map_storage) (take 2 inputs_1) after_1).
  - intros key v E. discriminate E.
  - intros i Hi. assert (Hn : Forall (λ i : CoreInput * Round * list (Key * Value), i.2 = []) (take 2 inputs_1))
      by (repeat constructor). rewrite Forall_forall in Hn. rewrite (Hn i Hi). constructor.
  - exact after_1_eq.
Defined.
End witnesses.
