(* ===== verification/CoreTally.v ===== *)
(** The certificate of a header of our own: what the core counts between two headers of its proposer, and
    that the votes of a quorum make it broadcast exactly one certificate. *)

From S2P Require Import Prelude Crypto Config Messages Aggregators Store Primary Core CoreFacts.

(** An input of [core_run]. *)
Notation run_input := (CoreInput * Round * list (Key * Value))%type (only parsing).

(** ** What is counted *)

(** The certificates that are broadcast. *)
Definition certificates_broadcast (es : list Effect) : list Certificate :=
  omap (λ e, match e with NetworkBroadcast _ (PMCertificate x) => Some x | _ => None end) es.

(** Neither a certificate that is broadcast nor a vote that is signed. *)
Definition silent (es : list Effect) : Prop :=
  Forall (λ e, match e with NetworkBroadcast _ (PMCertificate _) | ToSignatureService _ => False | _ => True end) es.

Lemma silent_certificates es : silent es → certificates_broadcast es = [].
Proof.
  unfold certificates_broadcast. induction 1 as [|e es He _ IH]; [done|]. cbn.
  destruct e as [? ?|?|? ?|? []|?|?|? ?|?]; done || exact IH.
Qed.

Lemma silent_fmap {A} (f : A → Effect) l : (∀ a, silent [f a]) → silent (f <$> l).
Proof.
  intros Hf. induction l as [|a l IH]; [constructor|]. apply Forall_cons. split; [|exact IH].
  pose proof (Hf a) as Ha. by apply Forall_cons in Ha as [Ha _].
Qed.

Section tally.
Context `{!Sha512, !Dalek, !Backend, !Storage, !Bincode Header, !Bincode Certificate}.
Variables (name : PublicKey) (committee : Committee) (signature_service : SecretKey).
Implicit Types (c : Core) (es : list Effect) (vs : list Vote).

(** A vote for a header of our own is signed, by a signature service that answers. *)
Definition own_vote es h : Prop :=
  hd_author h = name ∧ ToSignatureService (unsigned_vote name h) ∈ es ∧ is_ret (Vote_new h name signature_service) = true.

(** The handlers gave [vs] to the aggregator of the votes and broadcast what it emitted. *)
Record tally vs c es c' : Prop := {
  tally_header : current_header c' = current_header c;
  tally_votes : (VotesAggregator.append_all (votes_aggregator c) vs committee (current_header c)).1 = votes_aggregator c';
  tally_certificates :
    VotesAggregator.emitted (VotesAggregator.append_all (votes_aggregator c) vs committee (current_header c)).2 =
      certificates_broadcast es;
  tally_own h : own_vote es h → name ∈ vote_authors vs
}.

(** And the votes are our own, as those the processing of a header or a certificate leads to. *)
Definition own_votes vs : Prop := Forall (λ v, vt_author v = name) vs.
Definition tallied c es c' : Prop := ∃ vs, tally vs c es c' ∧ own_votes vs.

Lemma tally_silent c es c' :
  current_header c' = current_header c → votes_aggregator c' = votes_aggregator c → silent es → tally [] c es c'.
Proof.
  intros Hh Ha Hs. split; [done|by symmetry|by rewrite silent_certificates|].
  intros h (_ & Hin & _). unfold silent in Hs. rewrite Forall_forall in Hs. destruct (Hs _ Hin).
Qed.

Lemma tally_app vs vs' c1 es c2 es' c3 :
  tally vs c1 es c2 → tally vs' c2 es' c3 → tally (vs ++ vs') c1 (es ++ es') c3.
Proof.
  intros [Eh1 Ev1 Ec1 Eo1] [Eh2 Ev2 Ec2 Eo2]. rewrite Eh1 in *.
  destruct (VotesAggregator.append_all (votes_aggregator c1) vs committee (current_header c1)) as [a rs] eqn:E1.
  simpl in *. subst a.
  destruct (VotesAggregator.append_all (votes_aggregator c2) vs' committee (current_header c1)) as [a rs'] eqn:E2. simpl in *.
  split; [by rewrite Eh2|by rewrite votes_append_all_app, E1, E2| |].
  - rewrite votes_append_all_app, E1, E2. unfold certificates_broadcast, VotesAggregator.emitted in *; simpl.
    by rewrite !omap_app, Ec1, Ec2.
  - intros h (Ha & [Hin|Hin]%elem_of_app & Hv); unfold vote_authors in *; rewrite fmap_app, list_to_set_app_L, elem_of_union.
    + left. by apply (Eo1 h).
    + right. by apply (Eo2 h).
Qed.

#[local] Instance tallied_effects : EffectRelation tallied.
Proof.
  split.
  - intros c. exists []. split; [apply tally_silent; [done..|constructor]|constructor].
  - intros * (vs & Ht & Hv) (vs' & Ht' & Hv'). exists (vs ++ vs'). split; [by eapply tally_app|by apply Forall_app].
Qed.

Notation keeps := (respects tallied).

Lemma keeps_modify f :
  (∀ c, current_header (f c) = current_header c ∧ votes_aggregator (f c) = votes_aggregator c) → keeps (modify f).
Proof. intros Hf. apply respects_modify. intros c. destruct (Hf c). exists []. split; [apply tally_silent; [done..|constructor]|constructor]. Qed.

Lemma keeps_emit es : silent es → keeps (emit es).
Proof. intros Hs. apply respects_emit. intros c. exists []. split; [by apply tally_silent|constructor]. Qed.

(** The calls to the synchronizer. *)
Lemma keeps_call {A B} (call : storage → DagResult (A * list B)) (f : B → Effect) :
  (∀ b, silent [f b]) →
  keeps (s ← get store; '(a, l) ← lift (call s); emit (f <$> l);; mret a).
Proof.
  intros Hf. apply (respects_bind _); [respects_auto|]. intros s. apply (respects_bind _); [respects_auto|]. intros [a l].
  apply (respects_bind _); [by apply keeps_emit, silent_fmap|respects_auto].
Qed.

(** [unsigned_vote] keeps all that [Vote_new] looks at. *)
Lemma own_vote_unsigned h h' es :
  unsigned_vote name h = unsigned_vote name h' → own_vote es h → own_vote es h'.
Proof.
  intros E (Ha & Hin & Hv). unfold own_vote. rewrite <-E. unfold Vote_new in *. injection E as Ei Er Eo.
  by rewrite Ei, Er, Eo in *.
Qed.

Lemma own_vote_singleton es h h' :
  silent es → own_vote (ToSignatureService (unsigned_vote name h) :: es) h' →
  hd_author h = name ∧ is_ret (Vote_new h name signature_service) = true.
Proof.
  intros Hs Hv. pose proof Hv as (_ & Hin & _). apply elem_of_cons in Hin as [[= E1 E2 E3]|Hin].
  - eapply (own_vote_unsigned h' h) in Hv as (? & _ & ?); [done|]. by unfold unsigned_vote; f_equal.
  - unfold silent in Hs. rewrite Forall_forall in Hs. destruct (Hs _ Hin).
Qed.

(** The last part of [process_header], given that a vote that is processed is counted. *)
Lemma vote_for_tallied (process_vote : Vote → handler unit) h :
  (∀ v c c' es r, process_vote v c = Some (c', es, r) → ∃ vs, tally (v :: vs) c es c' ∧ own_votes vs) →
  keeps (vote_for name committee signature_service process_vote h).
Proof.
  intros Hv. unfold vote_for. apply (respects_bind _); [respects_auto|]. intros voted.
  apply (respects_bind _); [by apply keeps_modify|]. intros _. destruct voted; [respects_auto|].
  intros c c' es r. unfold call_vote, mbind, handler_bind, emit, lift, mbind, handler_bind.
  set (signs := ToSignatureService (unsigned_vote name h)).
  assert (Hone : ∀ es c', current_header c' = current_header c → votes_aggregator c' = votes_aggregator c →
    silent es → hd_author h ≠ name ∨ is_ret (Vote_new h name signature_service) = false →
    tallied c (signs :: es) c').
  { intros es' c1 Hh Ha Hs Hn. exists []. split; [|constructor]. split; [done|by symmetry|by apply silent_certificates in Hs|].
    intros h' (Hname & Hret)%own_vote_singleton; [|done]. destruct Hn as [?|Hn]; [done|by rewrite Hn in Hret]. }
  destruct (Vote_new h name signature_service) as [v|e|] eqn:Ev; simpl.
  2,3: intros [= <- <- <-]; apply Hone; [done..|constructor|by right].
  pose proof (Vote_new_fields _ _ _ _ Ev) as (_ & _ & Ho & Ha). case_decide as Hd.
  - destruct (expect_ok (process_vote v) c) as [[[c2 es2] r2]|] eqn:E; [|done]. intros [= <- <- <-].
    unfold expect_ok in E. destruct (process_vote v c) as [[[c3 es3] r3]|] eqn:E3; [|done].
    assert (c3 = c2 ∧ es3 = es2) as [-> ->] by (by destruct r3; simplify_eq).
    apply Hv in E3 as (vs & [Eh1 Ev1 Ec1 Eo1] & Hvs). exists (v :: vs). split; [|by apply Forall_cons]. split; [done..|].
    intros _ _. unfold vote_authors. csimpl. rewrite Ha. set_solver.
  - rewrite Ho in Hd. unfold author_address. destruct (Config.primary committee (hd_author h)) as [x| |]; simpl;
      intros [= <- <- <-]; apply Hone; try done; try (by left); repeat constructor.
Qed.

Lemma check_and_vote_tallied (process_vote : Vote → handler unit) h :
  (∀ v c c' es r, process_vote v c = Some (c', es, r) → ∃ vs, tally (v :: vs) c es c' ∧ own_votes vs) →
  keeps (check_and_vote name committee signature_service process_vote h).
Proof.
  intros Hv. unfold check_and_vote, call_get_parents, call_missing_payload, write.
  apply (respects_bind _); [apply (keeps_call (λ s, get_parents committee s h)); repeat constructor|].
  intros [|p parents]; [respects_auto|].
  apply (respects_bind _); [respects_auto|]. intros weight. apply (respects_bind _); [respects_auto|]. intros _.
  apply (respects_bind _); [apply (keeps_call (λ s, missing_payload name s h)); repeat constructor|].
  intros [|]; [respects_auto|]. apply (respects_bind _); [|intros _; by apply vote_for_tallied].
  apply (respects_bind _); [apply keeps_emit; repeat constructor|]. intros _. by apply keeps_modify.
Qed.

Lemma deliver_tallied x :
  keeps (
    delivered ← call_deliver_certificate committee x;
    if negb delivered then mret ()
    else
      write (Digest_to_vec (digest x)) (serialize x);;
      '(a, r) ← get (λ c, CertificatesAggregator.append
        (default CertificatesAggregator.new (certificates_aggregators c !! cround x)) x committee);
      modify (set_certificates_aggregators (λ m, <[ cround x := a ]> m));;
      o ← lift r;
      emit (match o with Some parents => [ToProposer parents (cround x)] | None => [] end);;
      emit [ToConsensus x]).
Proof.
  apply (respects_bind _); [apply (keeps_call (λ s, deliver_certificate committee s x)); repeat constructor|].
  intros delivered. destruct (negb delivered); [respects_auto|]. unfold write.
  apply (respects_bind _).
  { apply (respects_bind _); [apply keeps_emit; repeat constructor|]. intros _. by apply keeps_modify. }
  intros _. apply (respects_bind _); [respects_auto|]. intros [a r].
  apply (respects_bind _); [by apply keeps_modify|]. intros _. apply (respects_bind _); [respects_auto|]. intros o.
  apply (respects_bind _); [apply keeps_emit; destruct o; repeat constructor|]. intros _. apply keeps_emit. repeat constructor.
Qed.

(** A vote that is processed is given to the aggregator first. *)
Lemma process_vote_tallied n v c c' es r :
  (∀ x, keeps (process_certificate name committee signature_service n x)) →
  process_vote name committee signature_service (S n) v c = Some (c', es, r) →
  ∃ vs, tally (v :: vs) c es c' ∧ own_votes vs.
Proof.
  intros Hx. cbn [process_vote]. unfold mbind, handler_bind, get, modify, lift, broadcast, emit, mbind, handler_bind.
  destruct (VotesAggregator.append (votes_aggregator c) v committee (current_header c)) as [a ra] eqn:Ea.
  assert (Hone : ∀ es, VotesAggregator.emitted [ra] = certificates_broadcast es → (∀ h, ¬ own_vote es h) →
    tally [v] c es (set_votes_aggregator a c)).
  { intros es1 Hc Ho. split; [done|by simpl; rewrite Ea|by simpl; rewrite Ea|]. by intros h ?%Ho. }
  destruct ra as [o|e|]; simpl.
  2,3: intros [= <- <- <-]; exists []; (split; [|constructor]); apply Hone; [done|]; by intros h (_ & Hin%elem_of_nil & _).
  destruct o as [x|]; simpl.
  2: intros [= <- <- <-]; exists []; (split; [|constructor]); apply Hone; [done|]; by intros h (_ & Hin%elem_of_nil & _).
  set (c1 := set_cancel_handlers _ _).
  match goal with |- context [expect_ok ?m ?c0] => destruct (expect_ok m c0) as [[[c2 es2] r2]|] eqn:E; [|done] end.
  intros [= <- <- <-]. apply (respects_expect_ok _ _ (Hx x)) in E as (vs & Hvs & Ho). exists vs. split; [|done].
  assert (Ht1 : tally [v] c [NetworkBroadcast (primary_addresses name committee) (PMCertificate x)] c1).
  { destruct (Hone [NetworkBroadcast (primary_addresses name committee) (PMCertificate x)]) as [Eh1 Ev1 Ec1 Eo1]; [done| |by split].
    by intros h (_ & Hin%list_elem_of_singleton & _). }
  exact (tally_app _ _ _ _ _ _ _ Ht1 Hvs).
Qed.

Lemma handlers_tallied n :
  (∀ h, keeps (process_header name committee signature_service n h)) ∧
  (∀ v c c' es r, process_vote name committee signature_service n v c = Some (c', es, r) →
    ∃ vs, tally (v :: vs) c es c' ∧ own_votes vs) ∧
  (∀ x, keeps (process_certificate name committee signature_service n x)).
Proof.
  induction n as [|n (IHh & IHv & IHc)]; [split_and!; intros; [apply respects_out_of_fuel|done|apply respects_out_of_fuel]|].
  split_and!.
  - intros h. rewrite process_header_S. apply (respects_bind _); [by apply keeps_modify|]. intros _.
    by apply check_and_vote_tallied.
  - intros v c c' es r. by apply process_vote_tallied.
  - intros x. cbn [process_certificate]. apply (respects_bind _); [respects_auto|]. intros known.
    apply (respects_bind _); [destruct known; [respects_auto|apply IHh]|]. intros _. apply deliver_tallied.
Qed.

(** ** Between two headers of the proposer *)

(** A vote that [sanitize_vote] lets through while the header is the current one. *)
Definition accepts h v : Prop :=
  vt_id v = hd_id h ∧ vt_origin v = hd_author h ∧ vt_round v = hd_round h ∧ Vote_verify v committee = Ret ().

Lemma sanitize_vote_accepts c v : sanitize_vote committee c v = Ret () ↔ accepts (current_header c) v.
Proof.
  unfold sanitize_vote, accepts. rewrite !ensure_bind_ret, N.leb_le, !andb_true_iff, !bool_decide_eq_true, N.eqb_eq.
  naive_solver lia.
Qed.

(** What is counted of the votes that come from the network, and nothing else but votes of our own. *)
Definition counted (inputs : list CoreInput) h vs : Prop :=
  (∀ v, FromPrimaries (PMVote v) ∈ inputs → accepts h v → v ∈ vs) ∧
  (∀ v, v ∈ vs → vt_author v = name ∨ (FromPrimaries (PMVote v) ∈ inputs ∧ accepts h v)).

Lemma counted_own inputs h vs :
  own_votes vs → (∀ v, FromPrimaries (PMVote v) ∈ inputs → ¬ accepts h v) → counted inputs h vs.
Proof.
  unfold own_votes. rewrite Forall_forall. intros Ho Hi. split; [by intros v ? ?%Hi|]. intros v ?. left. by apply Ho.
Qed.

Lemma counted_app inputs inputs' h vs vs' :
  counted inputs h vs → counted inputs' h vs' → counted (inputs ++ inputs') h (vs ++ vs').
Proof. unfold counted. intros [? ?] [? ?]. split; intros v; rewrite !elem_of_app; naive_solver. Qed.

Lemma handle_input_tally input c c' es r :
  own_header input = None →
  handle_input name committee signature_service input c = Some (c', es, r) →
  ∃ vs, tally vs c es c' ∧ counted [input] (current_header c) vs.
Proof.
  intros Hn. destruct (handlers_tallied core_fuel) as (Hh & Hv & Hc).
  assert (Hr : (∀ v, input = FromPrimaries (PMVote v) → ¬ accepts (current_header c) v) → tallied c es c' →
    ∃ vs, tally vs c es c' ∧ counted [input] (current_header c) vs).
  { intros Hi (vs & Ht & Ho). exists vs. split; [done|]. apply counted_own; [done|].
    intros v Hin%list_elem_of_singleton. by apply Hi. }
  destruct input as [[h|v|x|missing requestor]|h|x|h]; unfold handle_input; [..|done].
  2: { unfold mbind, handler_bind, get, lift. destruct (sanitize_vote committee c v) as [[]|e|] eqn:Es.
    - apply sanitize_vote_accepts in Es.
      destruct (process_vote _ _ _ _ _ _) as [[[c1 es1] r1]|] eqn:E1; [|done].
      apply Hv in E1 as (vs & Ht & Ho). intros [= <- <- <-]. exists (v :: vs). split; [done|]. unfold own_votes in Ho.
      rewrite Forall_forall in Ho. split.
      + intros v' [= <-]%list_elem_of_singleton _. by left.
      + intros v' [->|?]%elem_of_cons; [right; split; [by left|done]|left; by apply Ho].
    - intros [= <- <- <-]. apply Hr; [|apply (R_refl _)]. intros v' [= <-] Ha%sanitize_vote_accepts. congruence.
    - intros [= <- <- <-]. apply Hr; [|apply (R_refl _)]. intros v' [= <-] Ha%sanitize_vote_accepts. congruence. }
  all: intros E; apply Hr; [done|]; revert c c' es r E Hr.
  all: match goal with |- context [?m _ = Some _] => enough (keeps m) by (intros; eauto) end.
  all: repeat first [apply Hh | apply Hc | apply (respects_bind _); [respects_auto|]; intros ? | respects_auto].
Qed.

(** An iteration is the handling of the input and the clean-up, which leaves the aggregator alone as other
    tasks do. *)
Lemma core_step_handled gc_depth c input consensus_round c' es :
  core_step name committee signature_service gc_depth c input consensus_round = (Some c', es) →
  ∃ c1 r, handle_input name committee signature_service input c = Some (c1, es, r) ∧ c' = cleanup gc_depth consensus_round c1.
Proof.
  unfold core_step, core_handle. destruct (handle_input _ _ _ input c) as [[[c1 es1] r]|]; [|by intros [= ? ?]].
  intros Es. exists c1, r. by destruct r as [[]|[]|]; simplify_eq/=.
Qed.

Lemma tally_end gc_depth consensus_round writes vs c es c' :
  tally vs c es c' → tally vs c es (set_store writes (cleanup gc_depth consensus_round c')).
Proof. intros [Eh1 Ev1 Ec1 Eo1]. unfold cleanup. destruct (_ <? _); by split. Qed.

Lemma core_run_tally gc_depth inputs c c' es :
  Forall (λ i : run_input, own_header i.1.1 = None) inputs →
  core_run name committee signature_service gc_depth c inputs = (Some c', es) →
  ∃ vs, tally vs c es c' ∧ counted (inputs.*1.*1) (current_header c) vs.
Proof.
  intros Hn. revert c es. induction Hn as [|[[input consensus_round] writes] inputs Hn _ IH]; intros c es; csimpl in *.
  - intros [= <- <-]. exists []. split; [apply tally_silent; [done..|constructor]|].
    apply counted_own; [constructor|]. by intros v ?%elem_of_nil.
  - destruct (core_step _ _ _ _ _ _ _) as [[c1|] es1] eqn:E; [|done].
    apply core_step_handled in E as (c2 & r & E & ->). apply handle_input_tally in E as (vs & Ht & Hc); [|done].
    apply (tally_end gc_depth consensus_round (λ s, foldl (λ s w, storage_write s w.1 w.2) s writes)) in Ht.
    match goal with |- context [core_run _ _ _ _ ?c3 _] => specialize (IH c3); destruct (core_run _ _ _ _ c3 inputs) as [o es2] eqn:E2 end.
    intros [= -> <-]. destruct (IH es2 eq_refl) as (vs' & Ht' & Hc').
    rewrite (tally_header _ _ _ _ Ht) in Hc'. exists (vs ++ vs').
    split; [by eapply tally_app|by apply (counted_app [input])].
Qed.

(** A header of our own starts the count again. *)
Lemma own_header_tally gc_depth h consensus_round c c' es writes :
  core_step name committee signature_service gc_depth c (FromProposer h) consensus_round = (Some c', es) →
  ∃ vs, tally vs (set_current h VotesAggregator.new c) es (set_store writes c') ∧ own_votes vs.
Proof.
  intros (c1 & r & E & ->)%core_step_handled.
  assert (Hk : keeps (broadcast name committee (hd_round h) (PMHeader h);;
    process_header name committee signature_service core_fuel h)).
  { apply (respects_bind _); [|intros _; apply handlers_tallied]. apply (respects_bind _).
    - apply keeps_emit. repeat constructor.
    - intros _. by apply keeps_modify. }
  change (handle_input _ _ _ _ _) with (process_own_header name committee signature_service h c) in E.
  unfold process_own_header in E. unfold mbind at 1, handler_bind at 1, modify at 1 in E.
  match type of E with context [match ?x with _ => _ end] => destruct x as [[[c2 es2] r2]|] eqn:E2; [|done] end.
  apply Hk in E2 as (vs & Ht & Ho). injection E as <- <- <-. exists vs. split; [by apply tally_end|done].
Qed.

Lemma own_run_tally gc_depth h consensus_round writes inputs c c' es :
  Forall (λ i : run_input, own_header i.1.1 = None) inputs →
  core_run name committee signature_service gc_depth c ((FromProposer h, consensus_round, writes) :: inputs) = (Some c', es) →
  ∃ vs, tally vs (set_current h VotesAggregator.new c) es c' ∧ counted (inputs.*1.*1) h vs.
Proof.
  intros Hn. cbn [core_run]. destruct (core_step _ _ _ _ _ _ _) as [[c1|] es1] eqn:E; [|done].
  eapply own_header_tally in E as (vs & Ht & Ho).
  match goal with |- context [core_run _ _ _ _ ?c3 _] => destruct (core_run _ _ _ _ c3 inputs) as [o es2] eqn:E2 end.
  intros [= -> <-]. apply core_run_tally in E2 as (vs' & Ht' & Hc'); [|done].
  rewrite (tally_header _ _ _ _ Ht) in Hc'. exists (vs ++ vs').
  split; [by eapply tally_app|]. apply (counted_app []); [|done]. apply counted_own; [done|]. by intros v ?%elem_of_nil.
Qed.
End tally.

(** C16: The votes of a quorum certify a header: from the header the proposer hands over to its next one, if
    the authorities whose vote the core is sent (for that header, with a valid signature), together with its
    own if it could vote for its header, hold a quorum, the core broadcasts exactly one certificate, whatever
    else it is sent and in whichever order. It certifies that header with votes of distinct authorities that
    hold a quorum, each of them a valid vote the core was sent, unless it is its own; when the header and
    its own vote verify, so does the certificate, at every primary. *)
Theorem header_certified
    `{!Sha512, D : !Dalek, !DalekLaws D, !Backend, !Storage, !Bincode Header, !Bincode Certificate}
    name committee signature_service gc_depth c h consensus_round writes inputs c' es (U : gset PublicKey) :
  small_stake committee →
  Forall (λ i : run_input, own_header i.1.1 = None) inputs →
  core_run name committee signature_service gc_depth c ((FromProposer h, consensus_round, writes) :: inputs) =
    (Some c', es) →
  (∀ k, k ∈ U → (k = name ∧ own_vote name signature_service es h) ∨
    ∃ v, FromPrimaries (PMVote v) ∈ inputs.*1.*1 ∧ accepts committee h v ∧ vt_author v = k) →
  quorum_threshold committee ≤ stake_of committee U →
  ∃ x, certificates_broadcast es = [x] ∧ ct_header x = h ∧ NoDup (voters (ct_votes x)) ∧
    quorum_threshold committee ≤ stake_of committee (list_to_set (voters (ct_votes x))) ∧
    (∀ k s, (k, s) ∈ ct_votes x → k = name ∨
      ∃ v, FromPrimaries (PMVote v) ∈ inputs.*1.*1 ∧ accepts committee h v ∧ vt_author v = k ∧ vt_signature v = s) ∧
    (Header_verify h committee = Ret () →
     (∀ s, (name, s) ∈ ct_votes x → 0 < stake committee name ∧ Signature_verify s (digest x) name = Ret ()) →
     Certificate_verify x committee = Ret ()).
Proof.
  intros Hs Hn E HU Hq. apply own_run_tally in E as (vs & [_ _ Hcs Ho] & [Hc1 Hc2]); [|done].
  cbn [set_current votes_aggregator current_header] in Hcs.
  assert (Hsub : U ⊆ vote_authors vs).
  { intros k [[-> Hk]|(v & Hv & Ha & <-)]%HU; [by eapply Ho|].
    unfold vote_authors. apply elem_of_list_to_set, list_elem_of_fmap_2, Hc1; done. }
  pose proof (sum_set_mono (stake committee) _ _ Hsub) as Hle.
  destruct (votes_quorum_once committee h vs Hs) as [Hnil [Hcs'|(x & Ex & <- & Hnd & Hqx & Hx)]].
  { apply Hnil in Hcs'. unfold stake_of in *. lia. }
  assert (Hgiven : ∀ k s, (k, s) ∈ ct_votes x → k = name ∨ ∃ v, FromPrimaries (PMVote v) ∈ inputs.*1.*1 ∧
    accepts committee (ct_header x) v ∧ vt_author v = k ∧ vt_signature v = s).
  { intros k s (v & Hv & <- & <-)%Hx. destruct (Hc2 v Hv) as [?|[? ?]]; [by left|right; by exists v]. }
  exists x. rewrite <-Hcs. split_and!; [done..|]. intros Hh Hown. apply votes_certify; [done..|].
  intros k s Hin. destruct (Hgiven k s Hin) as [->|(v & _ & (? & ? & ? & ?) & <- & <-)]; [by apply Hown|].
  destruct x as [h votes]. by apply vote_verify_certificate.
Qed.

Section witness.
Import Toy ToyBackend ToyBincode MapDB SampleMessages SampleCore.

(** Authority 1 gets its header and the votes of two others. *)
Definition votes_1 : list run_input :=
  (λ n, (FromPrimaries (PMVote (vote h1 n)), 0, [])) <$> [2; 3].
Definition run_1 : option Core * list Effect :=
  core_run (pk 1) Sample.committee (sk 1) 50 start ((FromProposer h1, 0, []) :: votes_1).

Lemma run_1_eq : run_1 = (Some (default start run_1.1), run_1.2).
Proof.
  assert (E : bool_decide (is_Some run_1.1) = true) by (vm_compute; reflexivity).
  apply bool_decide_eq_true in E. destruct run_1 as [[c|] es]; [done|]. by destruct E.
Qed.

Lemma votes_1_given n : n ∈ [2; 3] → FromPrimaries (PMVote (vote h1 n)) ∈ votes_1.*1.*1.
Proof.
  unfold votes_1. rewrite <-!list_fmap_compose. apply (list_elem_of_fmap_2 (λ n, FromPrimaries (PMVote (vote h1 n)))).
Qed.

Lemma votes_1_accepted : Forall (λ n, accepts Sample.committee h1 (vote h1 n) ∧ vt_author (vote h1 n) = pk n) [2; 3].
Proof.
  repeat (apply Forall_cons_2; [split; [|reflexivity];
    split_and!; [reflexivity..|apply is_ret_unit; vm_compute; reflexivity]|]).
  apply Forall_nil_2.
Qed.

Lemma own_vote_1 : own_vote (pk 1) (sk 1) run_1.2 h1.
Proof. split_and!; [reflexivity|apply (bool_decide_unpack _); vm_compute; exact I|vm_compute; reflexivity]. Qed.

Lemma voters_1 k :
  k ∈ ({[ pk 1 ]} ∪ list_to_set (pk <$> [2; 3]) : gset PublicKey) →
  (k = pk 1 ∧ own_vote (pk 1) (sk 1) run_1.2 h1) ∨
  ∃ v, FromPrimaries (PMVote v) ∈ votes_1.*1.*1 ∧ accepts Sample.committee h1 v ∧ vt_author v = k.
Proof.
  intros [->%elem_of_singleton|Hk%elem_of_list_to_set]%elem_of_union; [left; split; [reflexivity|exact own_vote_1]|right].
  apply list_elem_of_fmap in Hk as (n & -> & Hn). exists (vote h1 n). pose proof votes_1_accepted as H.
  rewrite Forall_forall in H. exact (conj (votes_1_given n Hn) (H n Hn)).
Qed.

Lemma header_certified_witness :
  ∃ x, certificates_broadcast run_1.2 = [x] ∧ ct_header x = h1 ∧ NoDup (voters (ct_votes x)) ∧
    quorum_threshold Sample.committee ≤ stake_of Sample.committee (list_to_set (voters (ct_votes x))) ∧
    (∀ k s, (k, s) ∈ ct_votes x → k = pk 1 ∨
      ∃ v, FromPrimaries (PMVote v) ∈ votes_1.*1.*1 ∧ accepts Sample.committee h1 v ∧ vt_author v = k ∧ vt_signature v = s) ∧
    (Header_verify h1 Sample.committee = Ret () →
     (∀ s, (pk 1, s) ∈ ct_votes x →
       0 < stake Sample.committee (pk 1) ∧ Signature_verify s (digest x) (pk 1) = Ret ()) →
     Certificate_verify x Sample.committee = Ret ()).
Proof.
  apply (header_certified (pk 1) Sample.committee (sk 1) 50 start h1 0 [] votes_1 (default start run_1.1) run_1.2
    ({[ pk 1 ]} ∪ list_to_set (pk <$> [2; 3]))); [| |exact run_1_eq|exact voters_1|].
  - vm_compute. reflexivity.
  - repeat constructor.
  - apply (bool_decide_unpack _). vm_compute. exact I.
Defined.
End witness.
