(* ===== verification/Proposer.v ===== *)
(** The proposer of headers ([src/primary/src/proposer.rs]).

    One iteration of the loop of [Proposer::run] is a function of the state, of the readings of the clock it
    makes and of the branch of [select!] it takes; instants are milliseconds. What is sent to the core and
    to the workers is its output. A run is a list of iterations, from the state [start]. *)

From S2P Require Import Prelude Crypto Config Messages Adversary Store Primary.

(** ** Settings, state and outputs *)

(** The fields of [Proposer] that never change. *)
Record Settings := MkSettings {
  name : PublicKey;
  authority_keys : list PublicKey;
  adversary_faults : N;
  adversary_seed : N;
  pause_batches_during_silence : bool;
  worker_addresses : list SocketAddr;
  signature_service : SecretKey;
  set_header_size : N;
  set_max_header_delay : N
}.

(** The others, with the deadline of the timer of [run] and the message whose cancel handlers
    [worker_handlers] keeps. *)
Record Proposer := MkProposer {
  round : Round;
  silent : bool;
  worker_handlers : list (SocketAddr * PrimaryWorkerMessage);
  last_parents : list Digest;
  digests : list (Digest * WorkerId);
  payload_size : N;
  deadline : N
}.

Inductive Output :=
| SendHeader (header : Header)
| BroadcastWorkers (addresses : list SocketAddr) (m : PrimaryWorkerMessage).

(** The branches of [select!]. *)
Inductive Event :=
| Parents (parents : list Digest) (round : Round)
| Batch (digest : Digest) (worker_id : WorkerId)
| Timer.

(** [std::env::VarError]. *)
Inductive VarError := NotPresent | NotUnicode.

(** [Vec::drain(..).collect::<BTreeMap<_, _>>()]: the last entry of a key stays. *)
Definition collect_map {K V} `{Countable K} (l : list (K * V)) : gmap K V := foldl (λ m e, <[ e.1 := e.2 ]> m) ∅ l.

Definition pause_batches (var : outcome VarError string) : outcome unit bool :=
  match var with
  | Ret value => if decide (value = "send"%string) then Ret false
      else if decide (value = "pause"%string) then Ret true else Panic
  | Throw NotPresent => Ret true
  | _ => Panic
  end.

Section proposer.
Context `{!Sha512, !Dalek}.

(** [Proposer::spawn] up to the start of the task, with the variables of the environment. *)
Definition spawn (name : PublicKey) (committee : Committee) (secret : SecretKey) (header_size max_header_delay : N)
    (env : Environment) (client_during_silence : outcome VarError string) : outcome unit (Settings * Proposer) :=
  pause ← pause_batches client_during_silence;
  match our_workers committee name with
  | Ret workers =>
      Ret (MkSettings name (btree_keys (authorities committee)) (env_number env "TUSK_FAULTS")
             (env_number env "TUSK_ADVERSARY_SEED") pause (primary_to_worker <$> workers)
             secret header_size max_header_delay,
           MkProposer 1 false [] (digest <$> genesis committee) [] 0 0)
  | _ => Panic
  end.

Variable cfg : Settings.
Implicit Types (p q : Proposer) (h : Header) (out : list Output) (its : list (N * N * Event)).

(** [Proposer::enter_round]. *)
Definition enter_round (p : Proposer) (round : Round) : Proposer * list Output :=
  let silent := selected (name cfg) (authority_keys cfg) round (adversary_faults cfg) (adversary_seed cfg) in
  let entered handlers := MkProposer round silent handlers (last_parents p) (digests p) (payload_size p) (deadline p) in
  if adversary_faults cfg =? 0 then (entered (worker_handlers p), [])
  else
    let message := BatchSilent round (silent && pause_batches_during_silence cfg) in
    (entered ((λ a, (a, message)) <$> worker_addresses cfg), [BroadcastWorkers (worker_addresses cfg) message]).

(** [Proposer::make_header]. *)
Definition make_header (p : Proposer) : outcome CryptoError (Proposer * list Output) :=
  header ← Header_new (name cfg) (round p) (collect_map (digests p)) (list_to_set (last_parents p))
    (signature_service cfg);
  Ret (MkProposer (round p) (silent p) (worker_handlers p) [] [] (payload_size p) (deadline p), [SendHeader header]).

(** The head of the loop: [now] is read by [timer.is_elapsed()] and [now'] by [Instant::now()]. *)
Definition propose (p : Proposer) (now now' : N) : outcome CryptoError (Proposer * list Output) :=
  let enough_parents := negb (bool_decide (last_parents p = [])) in
  let enough_digests := set_header_size cfg <=? payload_size p in
  let timer_expired := deadline p <=? now in
  if (timer_expired || enough_digests) && enough_parents then
    let deadline' := now' + set_max_header_delay cfg in
    if silent p then
      Ret (MkProposer (round p) (silent p) (worker_handlers p) [] (digests p) (payload_size p) deadline', [])
    else
      '(p, out) ← make_header p;
      Ret (MkProposer (round p) (silent p) (worker_handlers p) (last_parents p) (digests p) 0 deadline', out)
  else Ret (p, []).

(** The branch of [select!] taken. *)
Definition handle_event (p : Proposer) (e : Event) : Proposer * list Output :=
  match e with
  | Parents parents r =>
      if r <? round p then (p, [])
      else
        let '(p, out) := enter_round p (u64_add r 1) in
        (MkProposer (round p) (silent p) (worker_handlers p) parents (digests p) (payload_size p) (deadline p), out)
  | Batch digest worker_id =>
      (MkProposer (round p) (silent p) (worker_handlers p) (last_parents p) (digests p ++ [(digest, worker_id)])
         (u64_add (payload_size p) (Digest_size digest)) (deadline p), [])
  | Timer => (p, [])
  end.

(** One iteration. *)
Definition step (p : Proposer) (i : N * N * Event) : outcome CryptoError (Proposer * list Output) :=
  let '(now, now', e) := i in
  '(p, out) ← propose p now now';
  let '(p, out') := handle_event p e in
  Ret (p, out ++ out').

Fixpoint steps (p : Proposer) (its : list (N * N * Event)) : outcome CryptoError (Proposer * list Output) :=
  match its with
  | [] => Ret (p, [])
  | i :: its =>
      '(p, out) ← step p i;
      '(p, out') ← steps p its;
      Ret (p, out ++ out')
  end.

(** The beginning of [Proposer::run], at the instant [now]. *)
Definition start (p : Proposer) (now : N) : Proposer * list Output :=
  let '(p, out) := enter_round p (round p) in
  (MkProposer (round p) (silent p) (worker_handlers p) (last_parents p) (digests p) (payload_size p)
     (now + set_max_header_delay cfg), out).

(** ** What a run shows *)

Definition headers (out : list Output) : list Header :=
  omap (λ o, match o with SendHeader h => Some h | _ => None end) out.
Definition received (its : list (N * N * Event)) : list (Digest * WorkerId) :=
  omap (λ i, match i.2 with Batch d w => Some (d, w) | _ => None end) its.

(** The parents and the round of a message of the core that moves the proposer to a round. *)
Definition parents_of (its : list (N * N * Event)) (round : Round) (parents : list Digest) : Prop :=
  ∃ now now' r, (now, now', Parents parents r) ∈ its ∧ u64_add r 1 = round.

Lemma headers_app out out' : headers (out ++ out') = headers out ++ headers out'.
Proof. apply omap_app. Qed.

Lemma received_cons i its : received (i :: its) = received [i] ++ received its.
Proof. apply (omap_app _ [i]). Qed.

Lemma enter_round_headers p r : headers (enter_round p r).2 = [].
Proof. unfold enter_round. by destruct (_ =? _). Qed.

Lemma handle_event_headers p e : headers (handle_event p e).2 = [].
Proof.
  destruct e as [parents r|d w|]; simpl; [|done..]. destruct (r <? round p); [done|].
  pose proof (enter_round_headers p (u64_add r 1)) as E. by destruct (enter_round _ _).
Qed.

(** The proposer is silent exactly in the rounds selected for it. *)
Definition silent_ok p : Prop :=
  silent p = selected (name cfg) (authority_keys cfg) (round p) (adversary_faults cfg) (adversary_seed cfg).

(** What the head of the loop can do: nothing, dropping the parents of a silent round, or one header. *)
Inductive proposed p now : Proposer → list Output → Prop :=
| proposed_nothing :
    last_parents p = [] ∨ now < deadline p ∧ payload_size p < set_header_size cfg → proposed p now p []
| proposed_silent p' :
    last_parents p ≠ [] → silent p = true → round p' = round p → silent p' = silent p → last_parents p' = [] →
    digests p' = digests p → proposed p now p' []
| proposed_header p' h :
    last_parents p ≠ [] → silent p = false → round p' = round p → silent p' = silent p → last_parents p' = [] →
    digests p' = [] → hd_author h = name cfg → hd_round h = round p → hd_parents h = list_to_set (last_parents p) →
    hd_payload h = collect_map (digests p) → hd_id h = digest h → proposed p now p' [SendHeader h].

Lemma Header_new_fields author r payload parents secret h :
  Header_new author r payload parents secret = Ret h →
  hd_author h = author ∧ hd_round h = r ∧ hd_payload h = payload ∧ hd_parents h = parents ∧ hd_id h = digest h.
Proof. unfold Header_new. intros E. inv_ret. by repeat split. Qed.

Lemma propose_spec p now now' p' out : propose p now now' = Ret (p', out) → proposed p now p' out.
Proof.
  unfold propose, make_header. intros E. destruct (decide (last_parents p = [])) as [Hp|Hp].
  { rewrite bool_decide_eq_true_2, andb_false_r in E by done. simplify_eq. constructor. by left. }
  rewrite bool_decide_eq_false_2, andb_true_r in E by done.
  destruct ((deadline p <=? now) || (set_header_size cfg <=? payload_size p)) eqn:Eg; cycle 1.
  { apply orb_false_iff in Eg as [?%N.leb_gt ?%N.leb_gt]. simplify_eq. constructor. by right. }
  destruct (silent p) eqn:Es; [simplify_eq; by apply proposed_silent|].
  inv_ret. simplify_eq.
  match goal with H : Header_new _ _ _ _ _ = _ |- _ => apply Header_new_fields in H as (?&?&?&?&?) end.
  simplify_eq. by apply proposed_header.
Qed.

(** What the branch taken can do to the round: nothing, or the move of a message of the core. *)
Lemma handle_event_round p e :
  (∀ parents r, e = Parents parents r → r + 1 < two64) → silent_ok p →
  let p' := (handle_event p e).1 in
  silent_ok p' ∧
  (round p' = round p ∧ last_parents p' = last_parents p ∨
   ∃ parents r, e = Parents parents r ∧ round p < round p' ∧ round p' = u64_add r 1 ∧ last_parents p' = parents).
Proof.
  intros He Hs. destruct e as [parents r|d w|]; simpl; [|split; [done|by left]..].
  destruct (N.ltb_spec r (round p)); [split; [done|by left]|].
  specialize (He parents r eq_refl). unfold enter_round, silent_ok.
  destruct (adversary_faults cfg =? 0); simpl; (split; [done|]); right;
    exists parents, r; rewrite u64_add_small by done; repeat split; lia.
Qed.

Definition bounded (its : list (N * N * Event)) : Prop :=
  ∀ now now' parents r, (now, now', Parents parents r) ∈ its → r + 1 < two64.

Lemma bounded_cons i its : bounded (i :: its) → bounded [i] ∧ bounded its.
Proof.
  intros Hb. split; intros now now' parents r Hin; apply (Hb now now' parents); [|by right].
  apply list_elem_of_singleton in Hin as ->. left.
Qed.

(** Where a header of a run comes from. *)
Definition header_ok p its h : Prop :=
  hd_author h = name cfg ∧ hd_id h = digest h ∧
  selected (name cfg) (authority_keys cfg) (hd_round h) (adversary_faults cfg) (adversary_seed cfg) = false ∧
  (hd_round h = round p ∧ hd_parents h = list_to_set (last_parents p) ∨
   ∃ parents, parents_of its (hd_round h) parents ∧ hd_parents h = list_to_set parents).

(** The headers of a run: their rounds, and where each comes from. *)
Definition headers_from p its out : Prop :=
  StronglySorted N.lt (hd_round <$> headers out) ∧
  ∀ h, h ∈ headers out →
    round p ≤ hd_round h ∧ (last_parents p = [] → round p < hd_round h) ∧ header_ok p its h.

Lemma headers_from_step p q i its out :
  silent_ok p → bounded [i] → q = (handle_event p i.2).1 → headers_from q its out → headers_from p (i :: its) out.
Proof.
  destruct i as [[now now'] e]. intros Hs Hb Eq [Hso Hh]. split; [done|]. intros h Hin.
  destruct (Hh h Hin) as (Hle & Hlt & Ha & Hi & Hsel & Hor).
  destruct (handle_event_round p e) as [_ Hr]; [|done|].
  { intros parents r ->. apply (Hb now now' parents). left. }
  cbn [snd] in Eq. rewrite <-Eq in Hr. unfold header_ok. destruct Hr as [[Er Ep]|(parents & r & -> & ? & Er & Ep)].
  - rewrite <-Er, <-Ep. split_and!; try done. destruct Hor as [?|(parents & (? & ? & r & ? & ?) & ?)]; [by left|right].
    exists parents. split; [|done]. do 2 eexists. exists r. split; [by right|done].
  - split_and!; try done; [lia|lia|]. right. destruct Hor as [[Eh E]|(parents' & (? & ? & r' & ? & ?) & ?)].
    + exists parents. split; [exists now, now', r; split; [left|congruence]|congruence].
    + exists parents'. split; [|done]. do 2 eexists. exists r'. split; [by right|done].
Qed.

Lemma headers_from_propose p now q out its out' :
  proposed p now q out → silent_ok p → headers_from q its out' →
  silent_ok q ∧ headers_from p its (out ++ out').
Proof.
  intros Hp Hs [Hso Hh]. unfold silent_ok, headers_from, header_ok in *. destruct Hp as [Hnone|q Hne Es Er Es' Eq _|q h Hne Es Er Es' Eq _ Ea Ehr Ehp _ Ei]; simpl.
  - done.
  - split; [congruence|]. split; [done|]. rewrite <-Er. intros h Hin. destruct (Hh h Hin) as (? & Hlt & ? & ? & ? & Hor).
    specialize (Hlt Eq). split_and!; try done. destruct Hor as [[? ?]|?]; [lia|by right].
  - split; [congruence|]. split.
    + constructor; [done|]. apply Forall_fmap, Forall_forall. intros h' Hin. simpl.
      destruct (Hh h' Hin) as (? & Hlt & _). rewrite Ehr, <-Er. auto.
    + intros h' [->|Hin]%elem_of_cons.
      * rewrite Ehr, Ea, Ei. split_and!; try done; [congruence|by left].
      * destruct (Hh h' Hin) as (? & Hlt & ? & ? & ? & Hor). specialize (Hlt Eq). rewrite <-Er.
        split_and!; try done. destruct Hor as [[? ?]|?]; [lia|by right].
Qed.

Lemma step_ret p now now' e p' out :
  step p (now, now', e) = Ret (p', out) →
  ∃ q out1, propose p now now' = Ret (q, out1) ∧ p' = (handle_event q e).1 ∧ out = out1 ++ (handle_event q e).2.
Proof.
  unfold step. intros E. apply outcome_bind_ret in E as ([q out1] & Ep & E). exists q, out1.
  destruct (handle_event q e). by simplify_eq/=.
Qed.

Lemma steps_cons_ret p i its p' out :
  steps p (i :: its) = Ret (p', out) →
  ∃ q out1 out2, step p i = Ret (q, out1) ∧ steps q its = Ret (p', out2) ∧ out = out1 ++ out2.
Proof.
  cbn [steps]. intros E. apply outcome_bind_ret in E as ([q out1] & Es & E).
  apply outcome_bind_ret in E as ([q' out2] & Es' & E). simplify_eq/=. by exists q, out1, out2.
Qed.

Lemma steps_headers p its p' out :
  silent_ok p → bounded its → steps p its = Ret (p', out) → headers_from p its out.
Proof.
  revert p p' out. induction its as [|i its IH]; intros p p' out Hs Hb E.
  { injection E as <- <-. split; [constructor|]. set_solver. }
  apply steps_cons_ret in E as (p2 & out1 & out2 & E & Es & ->). destruct i as [[now now'] e].
  apply step_ret in E as (p1 & out0 & Hp%propose_spec & E2 & ->).
  assert (Hs1 : silent_ok p1).
  { apply (headers_from_propose p now p1 out0 [] [] Hp Hs). split; [constructor|set_solver]. }
  apply bounded_cons in Hb as [Hb1 Hb].
  destruct (handle_event_round p1 e) as [Hs2 _]; [|done|].
  { intros parents r ->. apply (Hb1 now now' parents). left. }
  rewrite <-E2 in Hs2. apply IH in Es; [|done..].
  eapply (headers_from_step p1 p2 (now, now', e)) in Es; [|done..].
  eapply headers_from_propose in Es as [_ Es]; [|done..].
  unfold headers_from in *. rewrite !headers_app, handle_event_headers, app_nil_r in *. done.
Qed.

(** ** The digests *)

Lemma enter_round_digests p r : digests (enter_round p r).1 = digests p.
Proof. unfold enter_round. by destruct (_ =? _). Qed.

Lemma handle_event_digests p now now' e : digests (handle_event p e).1 = digests p ++ received [(now, now', e)].
Proof.
  destruct e as [parents r|d w|]; csimpl; rewrite ?app_nil_r; try done.
  destruct (r <? round p); [done|].
  pose proof (enter_round_digests p (u64_add r 1)) as E. by destruct (enter_round _ _).
Qed.

Lemma steps_digests p its p' out :
  steps p its = Ret (p', out) →
  ∃ segments, Forall2 (λ h segment, hd_payload h = collect_map segment) (headers out) segments ∧
    concat segments ++ digests p' = digests p ++ received its.
Proof.
  revert p p' out. induction its as [|i its IH]; intros p p' out E.
  { injection E as <- <-. exists []. split; [constructor|]. by rewrite app_nil_r. }
  apply steps_cons_ret in E as (p2 & out1 & out2 & E & Es & ->). destruct i as [[now now'] e].
  apply step_ret in E as (p1 & out0 & Hp%propose_spec & -> & ->).
  apply IH in Es as (segments & Hf & Ec). rewrite (handle_event_digests p1 now now' e), <-app_assoc, <-received_cons in Ec.
  rewrite !headers_app, handle_event_headers, app_nil_r.
  generalize dependent (received ((now, now', e) :: its)); intros ds Ec.
  destruct Hp as [|q ?????|q h ???????????]; simpl.
  - by exists segments.
  - exists segments. split; [done|congruence].
  - exists (digests p :: segments). split; [by constructor|]. simpl. rewrite <-app_assoc, Ec.
    match goal with Hd : digests q = [] |- _ => by rewrite Hd end.
Qed.

(** ** Progress *)

(** A proposer that may propose does so at the head of the loop. *)
Lemma propose_ready p now now' :
  last_parents p ≠ [] → silent p = false → deadline p ≤ now ∨ set_header_size cfg ≤ payload_size p →
  propose p now now' =
    '(p', out) ← make_header p;
    Ret (MkProposer (round p') (silent p') (worker_handlers p') (last_parents p') (digests p') 0
           (now' + set_max_header_delay cfg), out).
Proof.
  intros Hp Hs Hr. unfold propose. rewrite bool_decide_eq_false_2, andb_true_r, Hs by done.
  assert ((deadline p <=? now) || (set_header_size cfg <=? payload_size p) = true) as ->; [|done].
  apply orb_true_iff. rewrite !N.leb_le. done.
Qed.

(** An iteration that does not move to another round either leaves the proposer waiting, with the same
    deadline, or sends the header of the round. *)
Lemma step_waits p now now' e p' out :
  last_parents p ≠ [] → silent p = false → (∀ parents r, e = Parents parents r → r < round p) →
  step p (now, now', e) = Ret (p', out) →
  (∃ h, headers out = [h] ∧ hd_round h = round p) ∨
  now < deadline p ∧ headers out = [] ∧ round p' = round p ∧ silent p' = silent p ∧ last_parents p' = last_parents p ∧
    deadline p' = deadline p.
Proof.
  intros Hne Hs He E. apply step_ret in E as (q & out1 & Hq & -> & ->).
  rewrite headers_app, handle_event_headers, app_nil_r.
  pose proof (propose_spec _ _ _ _ _ Hq) as Hp.
  destruct Hp as [[?|[? ?]]|q ? ?|q h ?????]; [done| |congruence|left; by exists h].
  right. destruct e as [parents r|d w|]; simpl; [|done..].
  rewrite (proj2 (N.ltb_lt r (round p))); [done|by eapply He].
Qed.

(** A service that has a key pair signs, and the proposer never stops. *)
Definition can_sign : Prop := ∃ k, keypair_from_bytes (secret_array (signature_service cfg)) = Ret k.

Lemma steps_total p its : can_sign → ∃ p' out, steps p its = Ret (p', out).
Proof.
  intros [k Hk]. revert p. induction its as [|[[now now'] e] its IH]; intros p; [by do 2 eexists|].
  assert (Hp : ∃ q out, propose p now now' = Ret (q, out)).
  { unfold propose, make_header, Header_new, request_signature, Signature_new. rewrite Hk.
    destruct (_ && _); [destruct (silent p)|]; simpl; by do 2 eexists. }
  destruct Hp as (q & out & Hp). cbn [steps]. unfold step. rewrite Hp. simpl.
  destruct (handle_event q e) as [p2 out2]. simpl. destruct (IH p2) as (p' & out' & ->). by do 2 eexists.
Qed.

Lemma steps_header p its now now' e p' out :
  last_parents p ≠ [] → silent p = false → deadline p ≤ now →
  (∀ a b parents r, (a, b, Parents parents r) ∈ its ++ [(now, now', e)] → r < round p) →
  steps p (its ++ [(now, now', e)]) = Ret (p', out) →
  ∃ h, h ∈ headers out ∧ hd_round h = round p.
Proof.
  revert p out. induction its as [|[[a b] e'] its IH]; intros p out Hne Hs Hd Hb E; cbn [app] in E;
    apply steps_cons_ret in E as (q & out1 & out2 & E & Es & ->); rewrite headers_app.
  - apply step_waits in E as [(h & -> & ?)|(? & ?)]; [exists h; set_solver|lia|done..|].
    intros parents r ->. apply (Hb now now' parents). left.
  - apply step_waits in E as [(h & -> & ?)|(_ & -> & Er & Es' & Ep & Ed)]; [exists h; set_solver| |done..|].
    + rewrite <-Er. apply (IH q out2); try congruence. intros a' b' parents r ?. rewrite Er. eapply Hb. by right.
    + intros parents r ->. apply (Hb a b parents). left.
Qed.

(** The whole task: [start] and the iterations. *)
Definition run p now its : outcome CryptoError (Proposer * list Output) :=
  let '(p, out) := start p now in
  '(p, out') ← steps p its;
  Ret (p, out ++ out').

Lemma run_ret p now its p' out :
  run p now its = Ret (p', out) →
  ∃ q out', steps q its = Ret (p', out') ∧ headers out = headers out' ∧ silent_ok q ∧
    round q = round p ∧ last_parents q = last_parents p ∧ digests q = digests p.
Proof.
  unfold run, start. pose proof (enter_round_headers p (round p)) as Eh.
  pose proof (enter_round_digests p (round p)) as Ed.
  destruct (enter_round p (round p)) as [q out0] eqn:Eq. intros E.
  apply outcome_bind_ret in E as ([p1 out1] & Es & E). simplify_eq/=.
  do 2 eexists. split; [exact Es|]. rewrite headers_app, Eh. simpl.
  unfold enter_round in Eq. destruct (_ =? _); simplify_eq/=; split_and!; done.
Qed.
End proposer.

Section properties.
Context `{!Sha512, !Dalek}.

(** The proposer equivocates in no round: the headers of a run have strictly increasing rounds, so no two
    of them share one. Each is authored by the proposer, carries its own digest as id, belongs to a round in
    which the proposer is not selected to be silent, and has as parents the genesis (in round 1) or the
    certificates the core sent with the round before. *)
Theorem one_header_per_round name committee secret header_size max_header_delay env var cfg p now its p' out :
  spawn name committee secret header_size max_header_delay env var = Ret (cfg, p) →
  bounded its →
  run cfg p now its = Ret (p', out) →
  StronglySorted N.lt (hd_round <$> headers out) ∧
  ∀ h, h ∈ headers out →
    hd_author h = name ∧ hd_id h = digest h ∧
    selected name (btree_keys (authorities committee)) (hd_round h) (env_number env "TUSK_FAULTS")
      (env_number env "TUSK_ADVERSARY_SEED") = false ∧
    (hd_round h = 1 ∧ hd_parents h = list_to_set (digest <$> genesis committee) ∨
     ∃ parents, parents_of its (hd_round h) parents ∧ hd_parents h = list_to_set parents).
Proof.
  unfold spawn. intros Esp Hb (q & out' & Es & -> & Hs & Er & Ep & _)%run_ret.
  apply outcome_bind_ret in Esp as (pause & _ & Esp). destruct (our_workers _ _); [|done..]. simplify_eq/=.
  apply steps_headers in Es as [Hso Hh]; [|done..]. split; [done|]. intros h Hin.
  destruct (Hh h Hin) as (_ & _ & Ha & Hi & Hsel & Hor). simpl in *. split_and!; try done.
  destruct Hor as [[? ?]|?]; [left|by right]. by rewrite <-Er, <-Ep.
Qed.

(** C24: No batch is lost or proposed twice: at any point of a run, the (digest, worker) pairs received from
    the workers are, in order, those of the headers sent, one segment for each header, followed by those that
    wait for the next header. A round in which the proposer is silent takes no segment. *)
Theorem digests_conserved cfg p now its p' out :
  digests p = [] →
  run cfg p now its = Ret (p', out) →
  ∃ segments, Forall2 (λ h segment, hd_payload h = collect_map segment) (headers out) segments ∧
    concat segments ++ digests p' = received its.
Proof.
  intros Hp (q & out' & Es & -> & _ & _ & _ & Ed)%run_ret. apply steps_digests in Es as (segments & Hf & Ec).
  exists segments. split; [done|]. by rewrite Ec, Ed, Hp.
Qed.

(** C25: A proposer that has the parents of its round and is not silent proposes in that round: unless the
    core moves it to another round, whatever iterations it makes, it gets through them, and a header of its
    round is sent by the end of the first iteration that starts at the deadline of the timer or later. *)
Theorem header_by_deadline cfg p its now now' e :
  can_sign cfg → last_parents p ≠ [] → silent p = false → deadline p ≤ now →
  (∀ a b parents r, (a, b, Parents parents r) ∈ its ++ [(now, now', e)] → r < round p) →
  ∃ p' out h, steps cfg p (its ++ [(now, now', e)]) = Ret (p', out) ∧ h ∈ headers out ∧ hd_round h = round p.
Proof.
  intros Hc Hp Hs Hd Hb. destruct (steps_total cfg p (its ++ [(now, now', e)]) Hc) as (p' & out & E).
  destruct (steps_header _ _ _ _ _ _ _ _ Hp Hs Hd Hb E) as (h & ? & ?). by exists p', out, h.
Qed.
End properties.

(** ** Evaluation *)

Module SampleProposer.
Import Toy ToyBackend SampleMessages.

(** Authority 1 of the sample committee, without silent authorities. *)
Definition spawned : outcome unit (Settings * Proposer) :=
  spawn (pk 1) Sample.committee (sk 1) 64 100 (λ _, None) (Throw NotPresent).
Definition cfg : Settings := match spawned with Ret x => x.1 | _ => MkSettings (pk 1) [] 0 0 false [] (sk 1) 0 0 end.
Definition p0 : Proposer := match spawned with Ret x => x.2 | _ => MkProposer 0 false [] [] [] 0 0 end.

(** Two batches fill a header, the core moves to round 2, and the timer closes that round with one more batch. *)
Definition its : list (N * N * Event) :=
  [(1, 1, Batch (dg 5) 0); (2, 2, Batch (dg 6) 0); (3, 3, Batch (dg 7) 0); (4, 4, Parents [digest c1] 1);
   (104, 104, Batch (dg 8) 0); (105, 105, Timer)].
Definition out : list Output := match run cfg p0 0 its with Ret x => x.2 | _ => [] end.
Definition p1 : Proposer := match run cfg p0 0 its with Ret x => x.1 | _ => p0 end.
End SampleProposer.

Section witnesses.
Import Toy ToyBackend SampleMessages SampleProposer.

Lemma spawned_eq : spawn (pk 1) Sample.committee (sk 1) 64 100 (λ _, None) (Throw NotPresent) = Ret (cfg, p0).
Proof. unfold cfg, p0, spawned. destruct (spawn _ _ _ _ _ _ _) as [[? ?]| |] eqn:E; [done|..]; vm_compute in E; discriminate E. Qed.

Lemma run_eq : run cfg p0 0 its = Ret (p1, out).
Proof.
  unfold p1, out. assert (E : is_ret (run cfg p0 0 its) = true) by (vm_compute; reflexivity).
  by destruct (run cfg p0 0 its) as [[? ?]| |].
Qed.

Lemma its_bounded : bounded its.
Proof.
  intros now now' parents r. unfold its. rewrite !elem_of_cons, elem_of_nil. intros Hin.
  destruct_or! Hin; simplify_eq; done.
Qed.

Lemma cfg_can_sign : can_sign cfg.
Proof.
  unfold can_sign. assert (E : is_ret (keypair_from_bytes (secret_array (signature_service cfg))) = true)
    by (vm_compute; reflexivity).
  destruct (keypair_from_bytes _) as [k| |]; [by exists k|discriminate E..].
Qed.

Lemma one_header_per_round_witness :
  hd_round <$> headers out = [1; 2] ∧ StronglySorted N.lt (hd_round <$> headers out).
Proof.
  split; [vm_compute; reflexivity|].
  apply (one_header_per_round (pk 1) Sample.committee (sk 1) 64 100 (λ _, None) (Throw NotPresent) cfg p0 0 its p1 out
    spawned_eq its_bounded run_eq).
Defined.

Lemma digests_conserved_witness :
  received its = [(dg 5, 0); (dg 6, 0); (dg 7, 0); (dg 8, 0)] ∧
  ∃ segments, Forall2 (λ h segment, hd_payload h = collect_map segment) (headers out) segments ∧
    concat segments ++ digests p1 = received its.
Proof. split; [reflexivity|]. apply (digests_conserved cfg p0 0 its p1 out); [vm_compute; reflexivity|exact run_eq]. Defined.

Lemma header_by_deadline_witness :
  ∃ p' out h, steps cfg p0 ([(1, 1, Batch (dg 5) 0)] ++ [(100, 100, Timer)]) = Ret (p', out) ∧
    h ∈ headers out ∧ hd_round h = round p0.
Proof.
  apply (header_by_deadline cfg p0 [(1, 1, Batch (dg 5) 0)] 100 100 Timer).
  - exact cfg_can_sign.
  - apply (bool_decide_unpack _). vm_compute. exact I.
  - vm_compute. reflexivity.
  - vm_compute. discriminate.
  - intros a b parents r. cbn [app]. rewrite !elem_of_cons, elem_of_nil. intros Hin. destruct_or! Hin; simplify_eq.
Defined.
End witnesses.
