(* ===== verification/Pool.v ===== *)
(** The pool of cancellable waiters the [HeaderWaiter] of the primary and the [Synchronizer] of the worker
    keep ([pending] and [waiting] in [src/primary/src/header_waiter.rs] and
    [src/worker/src/synchronizer.rs]).

    A waiter is a future in a [FuturesUnordered]; the map [pending] holds, under an identifier, the sending
    half of the channel that cancels it. Sending on that channel and dropping it both make the waiter end
    without a result, so an entry that leaves the map cancels its waiter. *)

From S2P Require Import Prelude Crypto Messages Store.

(** ** What a waiter results in *)

Section waiter.
Context `{!Dalek, !Backend, !Storage}.

(** [try_join_all] of [notify_read]s against the cancel channel: the value to deliver once all the keys are
    in the store, nothing once cancelled, either when both hold, or an error of the store. *)
Inductive waiter_result {A} (s : storage) (keys : list Key) (deliver : A) (cancelled : bool) : DagResult (option A) → Prop :=
| waiter_delivers :
    (∀ key, key ∈ keys → ∃ v, storage_read s key = Ret (Some v)) →
    waiter_result s keys deliver cancelled (Ret (Some deliver))
| waiter_cancelled : cancelled = true → waiter_result s keys deliver cancelled (Ret None)
| waiter_fails key e : key ∈ keys → storage_read s key = Throw e → waiter_result s keys deliver cancelled (Throw (StoreFailure e)).

(** With a store that never fails to read there is no error. *)
Lemma waiter_result_ret {A} `{!StorageLaws _} s keys (deliver : A) cancelled r :
  waiter_result s keys deliver cancelled r → r = Ret (Some deliver) ∨ cancelled = true ∧ r = Ret None.
Proof.
  intros [?|?|key e ? E]; auto. destruct (storage_read_total s key) as [v E']. rewrite E in E'. done.
Qed.
End waiter.

(** ** The pool *)

Section pool.
Context {V A : Type}.

(** A waiter with its identifier and whether it was cancelled. *)
Notation waiter := (Digest * A * bool)%type.

Record Pool := MkPool {
  pending : gmap Digest V;
  waiting : list waiter
}.

Implicit Types (p : Pool) (w : waiter).

Definition pool_new : Pool := MkPool ∅ [].

(** [pending.insert(id, (v, tx_cancel))] and [waiting.push(fut)]. *)
Definition pool_insert (id : Digest) (v : V) (a : A) p : Pool :=
  MkPool (<[ id := v ]> (pending p)) (waiting p ++ [(id, a, false)]).

Definition cancel (ids : Digest → bool) (ws : list waiter) : list waiter :=
  (λ '(id, a, c), (id, a, c || ids id)) <$> ws.

(** [pending.remove(&id)]. *)
Definition pool_remove (id : Digest) p : Pool :=
  MkPool (delete id (pending p)) (cancel (λ id', bool_decide (id' = id)) (waiting p)).

(** The waiter that [waiting.next()] returned leaves. *)
Definition pool_pop (i : nat) p : Pool := MkPool (pending p) (delete i (waiting p)).

(** [pending.retain(..)], after a message to the waiters of the entries that go. *)
Definition pool_retain (keep : V → bool) p : Pool :=
  MkPool (filter (λ e, keep e.2 = true) (pending p))
    (cancel (λ id, match pending p !! id with Some v => negb (keep v) | None => false end) (waiting p)).

(** ** Invariant *)

Definition live_ids (ws : list waiter) : list Digest := omap (λ w, if w.2 then None else Some w.1.1) ws.

(** [R] relates an entry to the waiter it can cancel. *)
Variable R : Digest → V → A → Prop.

(** The entries are, one for one, the waiters that were not cancelled. *)
Record pool_ok p : Prop := {
  pool_nodup : NoDup (live_ids (waiting p));
  pool_entry id v : pending p !! id = Some v → ∃ a, (id, a, false) ∈ waiting p ∧ R id v a;
  pool_waiter id a : (id, a, false) ∈ waiting p → ∃ v, pending p !! id = Some v
}.

Lemma elem_of_live_ids ws id : id ∈ live_ids ws ↔ ∃ a, (id, a, false) ∈ ws.
Proof.
  unfold live_ids. rewrite list_elem_of_omap. split.
  - intros ([[id' a] []] & Hin & [=]). simplify_eq/=. eauto.
  - intros [a Hin]. exists (id, a, false). by split.
Qed.

Lemma elem_of_cancel ids ws id a : (id, a, false) ∈ cancel ids ws ↔ (id, a, false) ∈ ws ∧ ids id = false.
Proof.
  unfold cancel. rewrite list_elem_of_fmap. split.
  - intros ([[id' a'] c] & [= -> -> Ec] & Hin). symmetry in Ec. by apply orb_false_iff in Ec as [-> ?].
  - intros [Hin E]. exists (id, a, false). by rewrite E.
Qed.

Lemma live_ids_cancel ids ws : live_ids (cancel ids ws) = filter (λ id, ids id = false) (live_ids ws).
Proof.
  induction ws as [|[[id a] []] ws IH]; csimpl; [done|apply IH|]. rewrite filter_cons.
  destruct (ids id); simpl; [apply IH|]. f_equal. apply IH.
Qed.

Lemma live_ids_app ws ws' : live_ids (ws ++ ws') = live_ids ws ++ live_ids ws'.
Proof. apply omap_app. Qed.

Lemma pool_new_ok : pool_ok pool_new.
Proof. split; simpl; [constructor|set_solver..]. Qed.

Lemma pool_insert_ok id v a p : pool_ok p → pending p !! id = None → R id v a → pool_ok (pool_insert id v a p).
Proof.
  intros [Hn He Hw] Hid HR. split; simpl.
  - rewrite live_ids_app. csimpl. apply NoDup_app_intro; [done|by apply NoDup_singleton|].
    intros x [a' Hx]%elem_of_live_ids ->%list_elem_of_singleton. apply Hw in Hx as [? ?]. congruence.
  - intros id' v' [[<- <-]|[? (a' & ? & ?)%He]]%lookup_insert_Some.
    + exists a. split; [|done]. apply elem_of_app. right. left.
    + exists a'. split; [|done]. apply elem_of_app. by left.
  - intros id' a' [[v' Hv]%Hw|[= -> ->]%list_elem_of_singleton]%elem_of_app.
    + destruct (decide (id = id')) as [->|?]; [by eexists; apply lookup_insert_eq|].
      exists v'. by rewrite lookup_insert_ne.
    + exists v. by rewrite lookup_insert_eq.
Qed.

Lemma pool_cancel_ok (ids : Digest → bool) (m : gmap Digest V) p :
  pool_ok p → (∀ id v, m !! id = Some v ↔ pending p !! id = Some v ∧ ids id = false) →
  pool_ok (MkPool m (cancel ids (waiting p))).
Proof.
  intros [Hn He Hw] Hm. split; simpl.
  - rewrite live_ids_cancel. by apply NoDup_filter.
  - intros id v [(a & ? & ?)%He ?]%Hm. exists a. by rewrite elem_of_cancel.
  - intros id a [[v ?]%Hw ?]%elem_of_cancel. exists v. by rewrite Hm.
Qed.

Lemma pool_remove_ok id p : pool_ok p → pool_ok (pool_remove id p).
Proof.
  intros Hp. apply pool_cancel_ok; [done|]. intros id' v. rewrite lookup_delete_Some, bool_decide_eq_false. naive_solver.
Qed.

Lemma pool_retain_ok keep p : pool_ok p → pool_ok (pool_retain keep p).
Proof.
  intros Hp. apply pool_cancel_ok; [done|]. intros id v. rewrite map_lookup_filter_Some. simpl. split.
  - intros [E Hk]. by rewrite E, Hk.
  - intros [E Hk]. split; [done|]. rewrite E in Hk. by apply negb_false_iff in Hk.
Qed.

(** A cancelled waiter, or one whose entry was removed, may leave. *)
Lemma pool_pop_ok i id a p : pool_ok p → waiting p !! i = Some (id, a, true) → pool_ok (pool_pop i p).
Proof.
  intros [Hn He Hw] Hi. destruct (list_elem_of_split_length _ _ _ Hi) as (l1 & l2 & El & ->).
  assert (Hin : ∀ id' a', (id', a', false) ∈ delete (length l1) (waiting p) ↔ (id', a', false) ∈ waiting p).
  { intros id' a'. rewrite El, delete_middle, !elem_of_app, elem_of_cons. naive_solver. }
  split; simpl.
  - rewrite El, delete_middle, live_ids_app. rewrite El, live_ids_app in Hn. done.
  - intros id' v' (a' & ? & ?)%He. exists a'. by rewrite Hin.
  - intros id' a' ?%Hin. by eapply Hw.
Qed.

(** The waiter that delivers its value leaves together with its entry. *)
Lemma pool_deliver_ok i id a c p :
  pool_ok p → waiting p !! i = Some (id, a, c) → pool_ok (pool_remove id (pool_pop i p)).
Proof.
  intros Hp Hi. assert (Hr := pool_remove_ok id p Hp).
  assert (Hi' : waiting (pool_remove id p) !! i = Some (id, a, true)).
  { simpl. unfold cancel. rewrite list_lookup_fmap, Hi. simpl. by rewrite bool_decide_eq_true_2, orb_true_r. }
  apply (pool_pop_ok i id a) in Hr; [|done]. unfold pool_remove, pool_pop in *; simpl in *.
  unfold cancel in *. by rewrite list_fmap_delete.
Qed.
End pool.

Arguments Pool : clear implicits.
