(* ===== verification/Waiters.v ===== *)
(** The tasks of the primary that wait and clean up: the [HeaderWaiter] ([src/primary/src/header_waiter.rs]),
    the [CertificateWaiter] ([certificate_waiter.rs]) and the [GarbageCollector]
    ([garbage_collector.rs]).

    One iteration of a task is a function of its state and of the branch of [select!] it takes, and what it
    sends is its output. The iteration order of a [HashMap] is that of [map_to_list]; no statement depends on
    it. Timestamps are milliseconds. *)

From S2P Require Import Prelude Crypto Config Messages Store Primary Pool.

(** ** [HeaderWaiter] *)

(** What a waiter of the pool waits for, and the header it delivers. *)
Notation Awaited := (list Key * Header)%type (only parsing).

Record HeaderWaiter := MkHeaderWaiter {
  parent_requests : gmap Digest (Round * N);
  batch_requests : gmap Digest Round;
  pool : Pool Round Awaited
}.

Definition HeaderWaiter_new : HeaderWaiter := MkHeaderWaiter ∅ ∅ pool_new.

Inductive WaiterOutput :=
| SendWorker (address : SocketAddr) (m : PrimaryWorkerMessage)
| SendPrimary (address : SocketAddr) (m : PrimaryMessage)
| LuckyBroadcast (addresses : list SocketAddr) (m : PrimaryMessage) (nodes : N)
| LoopBack (header : Header).

(** The branches of [select!]: a command at an instant, the result of the [i]-th waiter, or the timer. *)
Inductive WaiterEvent `{!Dalek, !Backend} :=
| Command (m : WaiterMessage) (now : N)
| Done (i : nat) (r : DagResult (option Header))
| RetryTimer (now : N).

(** The entries of a map a task has not asked for yet, in order: [entry(..).or_insert_with(..)] in a loop. *)
Fixpoint fresh_entries {K V} `{Countable K} (v : V) (keys : list K) (requests : gmap K V) : list K * gmap K V :=
  match keys with
  | [] => ([], requests)
  | k :: keys =>
      match requests !! k with
      | Some _ => fresh_entries v keys requests
      | None => let '(ks, requests) := fresh_entries v keys (<[ k := v ]> requests) in (k :: ks, requests)
      end
  end.

Section header_waiter.
Context `{!Sha512, !Dalek, !Backend}.
Variables (name : PublicKey) (committee : Committee) (gc_depth : Round) (sync_retry_delay sync_retry_nodes : N).
Implicit Types (hw : HeaderWaiter) (header : Header) (out : list WaiterOutput).

(** [requires_sync.entry(worker_id).or_insert_with(Vec::new).push(digest)] for the fresh digests. *)
Definition group_by_worker (missing : gmap Digest WorkerId) (fresh : list Digest) : gmap WorkerId (list Digest) :=
  foldl (λ m d, match missing !! d with
    | Some w => <[ w := default [] (m !! w) ++ [d] ]> m
    | None => m
    end) ∅ fresh.

(** [for (worker_id, digests) in requires_sync]. *)
Fixpoint sync_workers (author : PublicKey) (requires_sync : list (WorkerId * list Digest)) : outcome unit (list WaiterOutput) :=
  match requires_sync with
  | [] => Ret []
  | (worker_id, digests) :: requires_sync =>
      match worker committee author worker_id with
      | Ret x =>
          out ← sync_workers author requires_sync;
          Ret (SendWorker (primary_to_worker x) (Synchronize digests author) :: out)
      | _ => Panic
      end
  end.

(** The commands of the synchronizer; [None] when the header is pending already ([continue]). *)
Definition sync_batches hw (missing : gmap Digest WorkerId) header : outcome unit (HeaderWaiter * list WaiterOutput) :=
  let pool := pool_insert (hd_id header) (hd_round header)
    ((λ e, payload_key e.1 e.2) <$> map_to_list missing, header) (pool hw) in
  let '(fresh, requests) := fresh_entries (hd_round header) (map_to_list missing).*1 (batch_requests hw) in
  out ← sync_workers (hd_author header) (map_to_list (group_by_worker missing fresh));
  Ret (MkHeaderWaiter (parent_requests hw) requests pool, out).

Definition sync_parents hw (missing : list Digest) header (now : N) : outcome unit (HeaderWaiter * list WaiterOutput) :=
  let pool := pool_insert (hd_id header) (hd_round header) (Digest_to_vec <$> missing, header) (pool hw) in
  let '(requires_sync, requests) := fresh_entries (hd_round header, now) missing (parent_requests hw) in
  let hw := MkHeaderWaiter requests (batch_requests hw) pool in
  match requires_sync with
  | [] => Ret (hw, [])
  | _ =>
      match Config.primary committee (hd_author header) with
      | Ret x => Ret (hw, [SendPrimary (primary_to_primary x) (PMCertificatesRequest requires_sync name)])
      | _ => Panic
      end
  end.

(** The result of a waiter. *)
Definition deliver_header hw header : HeaderWaiter * list WaiterOutput :=
  (MkHeaderWaiter
     (foldl (λ m x, delete x m) (parent_requests hw) (btree_elems (hd_parents header)))
     (foldl (λ m x, delete x m) (batch_requests hw) (btree_keys (hd_payload header)))
     (pool_remove (hd_id header) (pool hw)), [LoopBack header]).

(** The timer: the requests older than the delay are sent again, to nodes picked at random. *)
Definition retry_parents hw (now : N) : list WaiterOutput :=
  let retry := (filter (λ e, e.2.2 + sync_retry_delay < now) (map_to_list (parent_requests hw))).*1 in
  [LuckyBroadcast ((λ x, primary_to_primary x.2) <$> others_primaries committee name)
     (PMCertificatesRequest retry name) sync_retry_nodes].

(** The clean-up at the end of an iteration, for the round read from [consensus_round]. *)
Definition waiter_cleanup (round : Round) hw : HeaderWaiter :=
  if gc_depth <? round then
    let gc_round := round - gc_depth in
    MkHeaderWaiter (filter (λ e, gc_round < e.2.1) (parent_requests hw)) (filter (λ e, gc_round < e.2) (batch_requests hw))
      (pool_retain (λ r, gc_round <? r) (pool hw))
  else hw.

(** One iteration of [HeaderWaiter::run]. *)
Definition waiter_step hw (e : WaiterEvent) (round : Round) : outcome unit (HeaderWaiter * list WaiterOutput) :=
  match e with
  | Command (SyncBatches missing header) _ =>
      if decide (is_Some (pending (pool hw) !! hd_id header)) then Ret (hw, [])
      else '(hw, out) ← sync_batches hw missing header; Ret (waiter_cleanup round hw, out)
  | Command (SyncParents missing header) now =>
      if decide (is_Some (pending (pool hw) !! hd_id header)) then Ret (hw, [])
      else '(hw, out) ← sync_parents hw missing header now; Ret (waiter_cleanup round hw, out)
  | Done i r =>
      let hw := MkHeaderWaiter (parent_requests hw) (batch_requests hw) (pool_pop i (pool hw)) in
      match r with
      | Ret (Some header) => let '(hw, out) := deliver_header hw header in Ret (waiter_cleanup round hw, out)
      | Ret None => Ret (waiter_cleanup round hw, [])
      | _ => Panic
      end
  | RetryTimer now => Ret (waiter_cleanup round hw, retry_parents hw now)
  end.
End header_waiter.

(** ** [CertificateWaiter] *)

(** The keys a certificate waits for: those of all its parents. *)
Definition certificate_awaited (c : Certificate) : list Key := Digest_to_vec <$> btree_elems (hd_parents (ct_header c)).

(** The branches of [select!]: a certificate of the synchronizer, or a waiter whose keys are all in the store
    (an error of the store ends the task). *)
Inductive CertificateWaiterEvent :=
| TakeCertificate (c : Certificate)
| CertificateReady (i : nat).

(** One iteration of [CertificateWaiter::run]: the pool and what is sent to the core. *)
Definition certificate_waiter_step (pool : list (list Key * Certificate)) (e : CertificateWaiterEvent) :
    list (list Key * Certificate) * list Certificate :=
  match e with
  | TakeCertificate c => (pool ++ [(certificate_awaited c, c)], [])
  | CertificateReady i => (delete i pool, option_list (snd <$> pool !! i))
  end.

Fixpoint certificate_waiter_run (pool : list (list Key * Certificate)) (es : list CertificateWaiterEvent) :
    list (list Key * Certificate) * list Certificate :=
  match es with
  | [] => (pool, [])
  | e :: es =>
      let '(pool, out) := certificate_waiter_step pool e in
      let '(pool, out') := certificate_waiter_run pool es in (pool, out ++ out')
  end.

(** Every certificate taken is in the pool or was looped back, once. *)
Lemma certificate_waiter_conserves pool es :
  let '(pool', out) := certificate_waiter_run pool es in
  out ++ pool'.*2 ≡ₚ pool.*2 ++ omap (λ e, match e with TakeCertificate c => Some c | _ => None end) es.
Proof.
  revert pool. induction es as [|[c|i] es IH]; intros pool; csimpl; [by rewrite app_nil_r|..].
  - specialize (IH (pool ++ [(certificate_awaited c, c)])). destruct (certificate_waiter_run _ _) as [pool' out]. simpl.
    by rewrite IH, fmap_app, <-app_assoc.
  - specialize (IH (delete i pool)). destruct (certificate_waiter_run _ _) as [pool' out]. rewrite <-app_assoc, IH.
    rewrite app_assoc. f_equiv. destruct (pool !! i) as [c|] eqn:E; simpl.
    + symmetry. apply (fmap_Permutation snd _ _ (delete_Permutation _ _ _ E)).
    + apply lookup_ge_None in E. rewrite delete_take_drop, take_ge, drop_ge, app_nil_r by lia. done.
Qed.

(** ** [GarbageCollector] *)

(** The last committed round, which is also what [consensus_round] holds, and the clean-ups broadcast. *)
Definition collect_step (last_committed_round : Round) (certificate : Certificate) : Round * list PrimaryWorkerMessage :=
  let round := cround certificate in
  if last_committed_round <? round then (round, [Cleanup round]) else (last_committed_round, []).

Fixpoint collect (last_committed_round : Round) (certificates : list Certificate) : Round * list PrimaryWorkerMessage :=
  match certificates with
  | [] => (last_committed_round, [])
  | c :: certificates =>
      let '(r, out) := collect_step last_committed_round c in
      let '(r, out') := collect r certificates in (r, out ++ out')
  end.

Definition cleanup_rounds (out : list PrimaryWorkerMessage) : list Round :=
  omap (λ m, match m with Cleanup r => Some r | _ => None end) out.

(** The consensus round is the highest round committed, and the workers hear of increasing rounds only. *)
Lemma collect_spec r certificates :
  let '(r', out) := collect r certificates in
  r' = foldl N.max r (cround <$> certificates) ∧ StronglySorted N.lt (r :: cleanup_rounds out) ∧
  Forall (λ x, x ≤ r') (r :: cleanup_rounds out).
Proof.
  revert r. induction certificates as [|c certificates IH]; intros r; csimpl.
  { split_and!; [done|repeat constructor..]. done. }
  unfold collect_step. destruct (N.ltb_spec r (cround c)) as [Hr|Hr].
  - specialize (IH (cround c)). destruct (collect _ _) as [r' out]. destruct IH as (-> & Hs & Hle). csimpl.
    rewrite N.max_r by lia. inversion Hle as [|?? Hc Hle']. split; [done|]. split.
    + inversion Hs as [|?? Hs' Hall]. constructor; [done|]. constructor; [done|].
      eapply Forall_impl; [exact Hall|]. simpl. lia.
    + constructor; [|done]. simpl in *. lia.
  - specialize (IH r). destruct (collect _ _) as [r' out]. destruct IH as (-> & ?). by rewrite N.max_l.
Qed.

(** ** Facts on the [HeaderWaiter] *)

Section requests.
Context `{Countable K} {V : Type} (v : V).

(** The fresh keys are those without an entry, each once, and afterwards every key has one. *)
Lemma fresh_entries_spec (keys : list K) requests fresh requests' :
  fresh_entries v keys requests = (fresh, requests') →
  NoDup fresh ∧ (∀ k, k ∈ fresh ↔ k ∈ keys ∧ requests !! k = None) ∧
  ∀ k, requests' !! k = if decide (k ∈ fresh) then Some v else requests !! k.
Proof.
  revert requests fresh requests'. induction keys as [|k keys IH]; intros requests fresh requests'; simpl.
  { intros [= <- <-]. split_and!; [constructor|set_solver|done]. }
  destruct (requests !! k) as [v'|] eqn:Ek.
  { intros (Hn & Hf & Hr)%IH. split_and!; [done| |done]. intros k'. rewrite Hf, elem_of_cons. naive_solver. }
  destruct (fresh_entries _ _ _) as [ks m] eqn:E. intros [= <- <-]. apply IH in E as (Hn & Hf & Hr).
  assert (Hk : k ∉ ks). { rewrite Hf, lookup_insert_eq. naive_solver. }
  split_and!.
  - by constructor.
  - intros k'. rewrite !elem_of_cons, Hf. destruct (decide (k = k')) as [->|?].
    + rewrite lookup_insert_eq. naive_solver.
    + rewrite lookup_insert_ne by done. naive_solver.
  - intros k'. rewrite Hr. destruct (decide (k = k')) as [->|?].
    + rewrite lookup_insert_eq. repeat case_decide; set_solver.
    + rewrite lookup_insert_ne by done. repeat case_decide; set_solver.
Qed.
End requests.

Section header_waiter_facts.
Context `{!Sha512, !Dalek, !Backend, !Storage, !StorageLaws _}.
Variables (name : PublicKey) (committee : Committee) (gc_depth : Round) (sync_retry_delay sync_retry_nodes : N).
Implicit Types (hw : HeaderWaiter) (header : Header) (out : list WaiterOutput) (e : WaiterEvent).

Notation step := (waiter_step name committee gc_depth sync_retry_delay sync_retry_nodes).

(** An entry of [pending] is the round of the header its waiter delivers. *)
Definition entry_of (id : Digest) (r : Round) (a : Awaited) : Prop := hd_id a.2 = id ∧ hd_round a.2 = r.

Record waiter_ok hw : Prop := {
  waiter_pool_ok : pool_ok entry_of (pool hw);
  waiter_ids i id a c : waiting (pool hw) !! i = Some (id, a, c) → hd_id a.2 = id
}.

(** What can happen with the store as it is: a waiter completes with a result it can have. *)
Definition enabled (s : storage) hw e : Prop :=
  match e with
  | Done i r => ∃ id a c, waiting (pool hw) !! i = Some (id, a, c) ∧ waiter_result s a.1 a.2 c r
  | _ => True
  end.

(** The author of a header, and its workers, are in the committee: what the core checks of every header. *)
Definition known e : Prop :=
  match e with
  | Command (SyncBatches missing header) _ => ∀ d w, missing !! d = Some w → is_ret (worker committee (hd_author header) w) = true
  | Command (SyncParents _ header) _ => is_ret (Config.primary committee (hd_author header)) = true
  | _ => True
  end.

(** Reachable states, whatever happens in the store. *)
Inductive waiter_reach : HeaderWaiter → Prop :=
| waiter_start : waiter_reach HeaderWaiter_new
| waiter_steps hw s e round hw' out :
    waiter_reach hw → enabled s hw e → step hw e round = Ret (hw', out) → waiter_reach hw'.

Lemma cancel_lookup {A} ids (ws : list (Digest * A * bool)) i id a c :
  cancel ids ws !! i = Some (id, a, c) → ∃ c', ws !! i = Some (id, a, c').
Proof. unfold cancel. rewrite list_lookup_fmap. intros ([[id' a'] c'] & E & [= <- <- _])%fmap_Some. eauto. Qed.

Lemma waiter_cleanup_ok round hw : waiter_ok hw → waiter_ok (waiter_cleanup gc_depth round hw).
Proof.
  intros [Hp Hi]. unfold waiter_cleanup. destruct (gc_depth <? round); [|done]. split; simpl; [by apply pool_retain_ok|].
  intros i id a c [c' E]%cancel_lookup. by eapply Hi.
Qed.

Lemma waiter_insert_ok m m' keys header hw :
  waiter_ok hw → pending (pool hw) !! hd_id header = None →
  waiter_ok (MkHeaderWaiter m m' (pool_insert (hd_id header) (hd_round header) (keys, header) (pool hw))).
Proof.
  intros [Hp Hi] Hn. split; simpl; [by apply pool_insert_ok; [| |split]|].
  intros i id a c [?|[_ [_ E]%list_lookup_singleton_Some]]%lookup_app_Some; [by eapply Hi|by simplify_eq/=].
Qed.

Lemma waiter_done_ok m m' i id a c (r : DagResult (option Header)) s hw :
  waiter_ok hw → waiting (pool hw) !! i = Some (id, a, c) → waiter_result s a.1 a.2 c r →
  waiter_ok (match r with
    | Ret (Some header) => MkHeaderWaiter m m' (pool_remove (hd_id header) (pool_pop i (pool hw)))
    | _ => MkHeaderWaiter m m' (if c then pool_pop i (pool hw) else pool hw)
    end).
Proof.
  intros [Hp Hi] E Hr. pose proof (Hi _ _ _ _ E) as Hid.
  assert (Hpop : ∀ j id a c, delete i (waiting (pool hw)) !! j = Some (id, a, c) → hd_id a.2 = id).
  { intros j id' a' c' Hj. rewrite list_lookup_delete in Hj. case_decide; by eapply Hi. }
  apply waiter_result_ret in Hr as [->|[-> ->]].
  - split; simpl; [subst id; by eapply pool_deliver_ok|].
    intros j id' a' c' [c'' Ej]%cancel_lookup. by eapply Hpop.
  - split; simpl; [by eapply pool_pop_ok|]. exact Hpop.
Qed.

Lemma waiter_step_ok s hw e round hw' out :
  waiter_ok hw → enabled s hw e → step hw e round = Ret (hw', out) → waiter_ok hw'.
Proof.
  intros Hok He E. destruct e as [[missing header|missing header] now|i r|now]; simpl in E.
  - case_decide as Hn; [by simplify_eq|]. apply eq_None_not_Some in Hn.
    apply outcome_bind_ret in E as ([hw1 o] & Es & E). simplify_eq. apply waiter_cleanup_ok.
    unfold sync_batches in Es. destruct (fresh_entries _ _ _). apply outcome_bind_ret in Es as (o & _ & Es). simplify_eq.
    by apply waiter_insert_ok.
  - case_decide as Hn; [by simplify_eq|]. apply eq_None_not_Some in Hn.
    apply outcome_bind_ret in E as ([hw1 o] & Es & E). simplify_eq. apply waiter_cleanup_ok.
    unfold sync_parents in Es. destruct (fresh_entries _ _ _) as [[|d ds] requests]; [by simplify_eq; apply waiter_insert_ok|].
    destruct (Config.primary _ _); simplify_eq. by apply waiter_insert_ok.
  - destruct He as (id & a & c & Ei & Hr).
    pose proof (λ m m', waiter_done_ok m m' i id a c r s hw Hok Ei Hr) as Hd.
    apply waiter_result_ret in Hr as [->|[-> ->]]; simplify_eq; apply waiter_cleanup_ok; apply Hd.
  - simplify_eq. by apply waiter_cleanup_ok.
Qed.

Lemma waiter_reach_ok hw : waiter_reach hw → waiter_ok hw.
Proof.
  induction 1 as [|hw s e round hw' out _ IH He E]; [|by eapply waiter_step_ok].
  split; [apply pool_new_ok|]. intros i id a c; simpl. by rewrite lookup_nil.
Qed.

Lemma sync_workers_ret author l :
  (∀ x, x ∈ l → is_ret (worker committee author x.1) = true) → ∃ out, sync_workers committee author l = Ret out.
Proof.
  induction l as [|[w ds] l IH]; intros Hl; simpl; [by eexists|].
  pose proof (Hl (w, ds) ltac:(left)) as Hw. simpl in Hw. destruct (worker committee author w); [|done..].
  destruct IH as [out ->]; [intros; apply Hl; by right|]. by eexists.
Qed.

Lemma group_by_worker_keys missing fresh w ds :
  group_by_worker missing fresh !! w = Some ds → ∃ d, missing !! d = Some w.
Proof.
  unfold group_by_worker. assert (Hempty : ∀ w ds, (∅ : gmap WorkerId (list Digest)) !! w = Some ds → ∃ d, missing !! d = Some w)
    by (intros ??; by rewrite lookup_empty).
  revert Hempty. generalize (∅ : gmap WorkerId (list Digest)). revert w ds.
  induction fresh as [|d fresh IH]; intros w ds m Hm; simpl; [apply Hm|]. apply IH. intros w' ds'.
  destruct (missing !! d) as [w0|] eqn:Ed; [|apply Hm]. intros [[<- _]|[_ ?]]%lookup_insert_Some; [by exists d|by eapply Hm].
Qed.

(** The header of a command. *)
Definition command_header (m : WaiterMessage) : Header :=
  match m with SyncBatches _ header | SyncParents _ header => header end.

Lemma waiter_cleanup_pending round hw id r :
  pending (pool hw) !! id = Some r → gc_depth < round → round - gc_depth < r ∨ round ≤ gc_depth →
  pending (pool (waiter_cleanup gc_depth round hw)) !! id = Some r.
Proof.
  intros E Hr Hor. unfold waiter_cleanup. rewrite (proj2 (N.ltb_lt _ _) Hr). simpl.
  rewrite map_lookup_filter_Some. split; [done|]. simpl. apply N.ltb_lt. lia.
Qed.

Lemma waiter_step_command hw m now round :
  known (Command m now) →
  ∃ hw' out, step hw (Command m now) round = Ret (hw', out) ∧
    (is_Some (pending (pool hw') !! hd_id (command_header m)) ∨
     gc_depth < round ∧ hd_round (command_header m) ≤ round - gc_depth).
Proof.
  assert (Hcl : ∀ header hw1, pending (pool hw1) !! hd_id header = Some (hd_round header) →
    is_Some (pending (pool (waiter_cleanup gc_depth round hw1)) !! hd_id header) ∨
    gc_depth < round ∧ hd_round header ≤ round - gc_depth).
  { intros header hw1 E. destruct (decide (gc_depth < round)) as [Hr|Hr].
    - destruct (decide (round - gc_depth < hd_round header)); [left; exists (hd_round header); apply waiter_cleanup_pending; auto|].
      right. split; [done|lia].
    - left. unfold waiter_cleanup. rewrite (proj2 (N.ltb_ge _ _)) by lia. eauto. }
  intros Hk. destruct m as [missing header|missing header]; simpl in *; (case_decide; [by do 2 eexists; split; [|left]|]).
  - unfold sync_batches. destruct (fresh_entries _ _ _) as [fresh requests].
    destruct (sync_workers_ret (hd_author header) (map_to_list (group_by_worker missing fresh))) as [out ->].
    { intros [w ds] (d & Hd)%elem_of_map_to_list%group_by_worker_keys. by apply (Hk d). }
    simpl. do 2 eexists. split; [done|]. apply Hcl. simpl. by rewrite lookup_insert_eq.
  - unfold sync_parents. destruct (fresh_entries _ _ _) as [[|d ds] requests].
    + simpl. do 2 eexists. split; [done|]. apply Hcl. simpl. by rewrite lookup_insert_eq.
    + destruct (Config.primary _ _); [|done..]. simpl. do 2 eexists. split; [done|]. apply Hcl. simpl. by rewrite lookup_insert_eq.
Qed.
End header_waiter_facts.

(** ** Properties *)

Section properties.
Context `{!Sha512, !Dalek, !Backend, !Storage, !StorageLaws _}.

(** C31: No suspended header is forgotten. In every reachable state of the [HeaderWaiter]: a header of a known
    author handed to it is accepted, and is pending afterwards unless its round is garbage collected; every
    pending header has a waiter in the pool that is not cancelled and will deliver a header of that id and
    round; and as soon as what such a waiter waits for is in the store it can complete, which sends its header
    back to the core and frees the entry. *)
Theorem suspended_headers_resume name committee gc_depth sync_retry_delay sync_retry_nodes hw :
  waiter_reach name committee gc_depth sync_retry_delay sync_retry_nodes hw →
  let step := waiter_step name committee gc_depth sync_retry_delay sync_retry_nodes in
  (∀ m now round, known committee (Command m now) →
    ∃ hw' out, step hw (Command m now) round = Ret (hw', out) ∧
      (is_Some (pending (pool hw') !! hd_id (command_header m)) ∨
       gc_depth < round ∧ hd_round (command_header m) ≤ round - gc_depth)) ∧
  (∀ id r, pending (pool hw) !! id = Some r →
    ∃ i keys header, waiting (pool hw) !! i = Some (id, (keys, header), false) ∧ hd_id header = id ∧ hd_round header = r) ∧
  ∀ s i id keys header c round,
    waiting (pool hw) !! i = Some (id, (keys, header), c) → (∀ key, key ∈ keys → stored s key) →
    enabled s hw (Done i (Ret (Some header))) ∧
    ∃ hw', step hw (Done i (Ret (Some header))) round = Ret (hw', [LoopBack header]) ∧
      pending (pool hw') !! id = None.
Proof.
  intros Hr step. apply waiter_reach_ok in Hr as [Hp Hi]. split_and!.
  - intros m now round Hk. by apply waiter_step_command.
  - intros id r ([keys header] & Hin & ? & ?)%(pool_entry _ _ Hp). apply list_elem_of_lookup in Hin as [i ?].
    by exists i, keys, header.
  - intros s i id keys header c round Ei Hs. split.
    { exists id, (keys, header), c. split; [done|]. by constructor. }
    unfold step. simpl. eexists. split; [done|]. rewrite <-(Hi _ _ _ _ Ei). simpl. unfold waiter_cleanup.
    destruct (gc_depth <? round); simpl; [rewrite map_lookup_filter_None; left|]; by rewrite lookup_delete_eq.
Qed.

(** A missing parent is asked of the author of the header unless it was asked for before, and is remembered
    until it arrives or is garbage collected. *)
Lemma parents_requested_once name committee hw missing header now hw' out :
  sync_parents name committee hw missing header now = Ret (hw', out) →
  (∀ d, d ∈ missing → is_Some (parent_requests hw' !! d)) ∧
  (∀ d, is_Some (parent_requests hw !! d) → parent_requests hw' !! d = parent_requests hw !! d) ∧
  match out with
  | [] => ∀ d, d ∈ missing → is_Some (parent_requests hw !! d)
  | _ => ∃ address ds, out = [SendPrimary address (PMCertificatesRequest ds name)] ∧ NoDup ds ∧
      ∀ d, d ∈ ds ↔ d ∈ missing ∧ parent_requests hw !! d = None
  end.
Proof.
  unfold sync_parents. destruct (fresh_entries _ _ _) as [ds requests] eqn:E. apply fresh_entries_spec in E as (Hn & Hf & Hr).
  intros Es. assert (Er : parent_requests hw' = requests).
  { destruct ds; [by simplify_eq|]. destruct (Config.primary _ _); by simplify_eq. }
  rewrite Er. split_and!.
  - intros d Hd. rewrite Hr. case_decide as Hin; [done|]. apply not_eq_None_Some. rewrite Hf in Hin. tauto.
  - intros d [v Hv]. rewrite Hr, decide_False; [done|]. rewrite Hf, Hv. naive_solver.
  - destruct ds as [|d0 ds].
    + simplify_eq. intros d Hd. apply not_eq_None_Some. intros Hnone. assert (d ∈ []) as []%elem_of_nil by (by apply Hf).
    + destruct (Config.primary _ _); simplify_eq. by do 2 eexists.
Qed.
End properties.

(** ** Evaluation *)

Module SampleWaiter.
Import Toy ToyBackend ToyBincode MapDB SampleMessages SampleStore.

(** The header [h2] suspended until its parent [c1] is there. *)
Definition suspended : HeaderWaiter :=
  match waiter_step (pk 1) Sample.committee 50 5000 3 HeaderWaiter_new (Command (SyncParents [digest c1] h2) 7) 0 with
  | Ret (hw, _) => hw
  | _ => HeaderWaiter_new
  end.
End SampleWaiter.

Section witnesses.
Import Toy ToyBackend ToyBincode MapDB SampleMessages SampleStore SampleWaiter.

Lemma suspended_reach : waiter_reach (pk 1) Sample.committee 50 5000 3 suspended.
Proof.
  assert (E : is_ret (waiter_step (pk 1) Sample.committee 50 5000 3 HeaderWaiter_new
    (Command (SyncParents [digest c1] h2) 7) 0) = true) by (vm_compute; reflexivity).
  unfold suspended. destruct (waiter_step _ _ _ _ _ _ _ _) as [[hw out]| |] eqn:Es; [|discriminate E..].
  eapply (waiter_steps _ _ _ _ _ _ s1 (Command (SyncParents [digest c1] h2) 7)); [apply waiter_start|exact I|exact Es].
Qed.

Lemma suspended_pending : pending (pool suspended) !! hd_id h2 = Some 2.
Proof. vm_compute. reflexivity. Qed.

Lemma suspended_headers_resume_witness :
  ∃ i keys header, waiting (pool suspended) !! i = Some (hd_id h2, (keys, header), false) ∧
    hd_id header = hd_id h2 ∧ hd_round header = 2.
Proof.
  apply (suspended_headers_resume (pk 1) Sample.committee 50 5000 3 suspended suspended_reach).
  exact suspended_pending.
Defined.
End witnesses.
