(* ===== verification/Network.v ===== *)
(** The network crate ([src/network/src/reliable_sender.rs], [simple_sender.rs], [receiver.rs], [error.rs]).

    Sockets are the environment: what a connection attempt, a write or a read results in, and which callers
    have dropped their cancel handler, are inputs of the steps. A [oneshot] channel is a number; its sending
    half is in a message, its receiving half is the [CancelHandler] of the caller. *)

From S2P Require Import Prelude Config.

Notation Bytes := (list byte) (only parsing).

(** [io::Error]s are not kept. *)
Inductive NetworkError :=
| FailedToConnect (address : SocketAddr) (retry : N)
| FailedToListen
| FailedToSendMessage (address : SocketAddr)
| FailedToReceiveMessage (peer : SocketAddr)
| FailedToReceiveAck (address : SocketAddr)
| UnexpectedAck (address : SocketAddr).

Record InnerMessage := MkInnerMessage {
  data : Bytes;
  cancel_handler : nat
}.

#[export] Instance InnerMessage_eq_dec : EqDecision InnerMessage.
Proof. solve_decision. Defined.

(** ** [ReliableSender]: one connection *)

(** Where [Connection::run] is: at [TcpStream::connect], in the loop ['waiter], or in [keep_alive]. *)
Inductive Phase := Connecting | Waiting | Alive.

Record Connection := MkConnection {
  address : SocketAddr;
  phase : Phase;
  delay : N;
  retry : N;
  buffer : list InnerMessage;
  pending_replies : list InnerMessage
}.

(** What happens to a connection; [sends] are the results of the writes that follow (success when the list
    is over), and a response is [None] at the end of the stream or on an error. *)
Inductive ConnectionEvent :=
| ConnectResult (ok : bool) (sends : list bool)
| DelayOver
| Receive (m : InnerMessage) (sends : list bool)
| Response (r : option Bytes) (sends : list bool).

Inductive ConnectionOutput :=
| Sent (m : InnerMessage)
| Acked (m : InnerMessage) (response : Bytes)
| Warn (e : NetworkError).

Definition retry_delay : N := 200.

Definition u16_add (a b : N) : N := (a + b) mod 65536.

Definition Connection_new (address : SocketAddr) : Connection := MkConnection address Connecting retry_delay 0 [] [].

Section connection.
Implicit Types (c : Connection) (m : InnerMessage) (out : list ConnectionOutput) (closed : gset nat).

(** [while let Some((data, handler)) = self.buffer.pop_front()]: the buffer and the pending replies after it,
    and whether every write succeeded. *)
Fixpoint drain closed (sends : list bool) (buffer pending : list InnerMessage) :
    list InnerMessage * list InnerMessage * list ConnectionOutput * bool :=
  match buffer with
  | [] => ([], pending, [], true)
  | m :: buffer =>
      if decide (cancel_handler m ∈ closed) then drain closed sends buffer pending
      else
        match sends with
        | false :: _ => (m :: buffer, pending, [], false)
        | _ =>
            let '(buffer, pending, out, ok) := drain closed (tail sends) buffer (pending ++ [m]) in
            (buffer, pending, Sent m :: out, ok)
        end
  end.

(** [while let Some(message) = pending_replies.pop_back()] with [self.buffer.push_front(message)]. *)
Definition requeue (pending buffer : list InnerMessage) : list InnerMessage :=
  foldl (λ buffer m, m :: buffer) buffer (reverse pending).

(** The end of [keep_alive]. *)
Definition disconnect c (e : NetworkError) : Connection * list ConnectionOutput :=
  (MkConnection (address c) Connecting (delay c) (retry c) (requeue (pending_replies c) (buffer c)) [], [Warn e]).

(** The head of the loop of [keep_alive]. *)
Definition transmit closed sends c : Connection * list ConnectionOutput :=
  let '(buffer, pending, out, ok) := drain closed sends (buffer c) (pending_replies c) in
  let c := MkConnection (address c) Alive (delay c) (retry c) buffer pending in
  if ok then (c, out)
  else let '(c, out') := disconnect c (FailedToSendMessage (address c)) in (c, out ++ out').

(** One step of [Connection::run] or [keep_alive]; [None] when the event is not one it waits for. *)
Definition connection_step c closed (e : ConnectionEvent) : option (Connection * list ConnectionOutput) :=
  match phase c, e with
  | Connecting, ConnectResult true sends =>
      Some (transmit closed sends (MkConnection (address c) Alive retry_delay 0 (buffer c) []))
  | Connecting, ConnectResult false _ =>
      Some (MkConnection (address c) Waiting (delay c) (retry c) (buffer c) [],
            [Warn (FailedToConnect (address c) (retry c))])
  | Waiting, DelayOver =>
      Some (MkConnection (address c) Connecting (N.min (u64_mul 2 (delay c)) 60000) (u16_add (retry c) 1) (buffer c) [], [])
  | Waiting, Receive m _ =>
      Some (MkConnection (address c) Waiting (delay c) (retry c)
              (filter (λ m, cancel_handler m ∉ closed) (buffer c ++ [m])) [], [])
  | Alive, Receive m sends =>
      Some (transmit closed sends
              (MkConnection (address c) Alive (delay c) (retry c) (buffer c ++ [m]) (pending_replies c)))
  | Alive, Response r sends =>
      match pending_replies c with
      | [] => Some (disconnect c (UnexpectedAck (address c)))
      | m :: pending =>
          match r with
          | Some bytes =>
              let '(c, out) := transmit closed sends
                (MkConnection (address c) Alive (delay c) (retry c) (buffer c) pending) in
              Some (c, Acked m bytes :: out)
          | None => Some (disconnect c (FailedToReceiveAck (address c)))
          end
      end
  | _, _ => None
  end.

Fixpoint connection_run c (es : list (gset nat * ConnectionEvent)) : option (Connection * list ConnectionOutput) :=
  match es with
  | [] => Some (c, [])
  | (closed, e) :: es =>
      '(c, out) ← connection_step c closed e;
      '(c, out') ← connection_run c es;
      Some (c, out ++ out')
  end.

(** ** Its specification: a queue of the messages not acknowledged yet *)

Definition in_flight c : list InnerMessage := pending_replies c ++ buffer c.
Definition acked out : list InnerMessage := omap (λ o, match o with Acked m _ => Some m | _ => None end) out.
Definition sent out : list InnerMessage := omap (λ o, match o with Sent m => Some m | _ => None end) out.
Definition taken (es : list (gset nat * ConnectionEvent)) : list InnerMessage :=
  omap (λ e, match e.2 with Receive m _ => Some m | _ => None end) es.

(** The buffer is empty while the connection is alive, and nothing is pending otherwise. *)
Definition connection_ok c : Prop :=
  match phase c with Alive => buffer c = [] | _ => pending_replies c = [] end.

(** [k] comes from [l] by dropping cancelled messages. *)
Definition drops closed (l k : list InnerMessage) : Prop :=
  k `sublist_of` l ∧ ∀ m, m ∈ l → m ∈ k ∨ cancel_handler m ∈ closed.

Lemma drops_refl closed l : drops closed l l.
Proof. split; [done|auto]. Qed.

Lemma drops_skip closed x l k : drops closed l k → drops closed (x :: l) (x :: k).
Proof. intros [? Hk]. split; [by apply sublist_skip|]. intros m. rewrite !elem_of_cons. naive_solver. Qed.

Lemma drops_app closed h l k : drops closed l k → drops closed (h ++ l) (h ++ k).
Proof. intros. induction h; simpl; [done|by apply drops_skip]. Qed.

Lemma drops_filter closed l : drops closed l (filter (λ m, cancel_handler m ∉ closed) l).
Proof.
  split; [apply sublist_filter|]. intros m Hm. destruct (decide (cancel_handler m ∈ closed)); [by right|left].
  by apply list_elem_of_filter.
Qed.

Lemma requeue_app pending buffer : requeue pending buffer = pending ++ buffer.
Proof.
  unfold requeue. revert buffer. induction pending as [|m pending IH] using rev_ind; intros buffer; [done|].
  rewrite reverse_snoc. simpl. by rewrite IH, <-app_assoc.
Qed.

Lemma drain_spec closed sends b p b' p' out ok :
  drain closed sends b p = (b', p', out, ok) →
  drops closed (p ++ b) (p' ++ b') ∧ acked out = [] ∧ (ok = true → b' = []).
Proof.
  revert sends p b' p' out ok. induction b as [|m b IH]; intros sends p b' p' out ok; simpl.
  { intros [= <- <- <- <-]. split_and!; [apply drops_refl|done..]. }
  destruct (decide (cancel_handler m ∈ closed)) as [Hm|Hm].
  { intros E. destruct (IH _ _ _ _ _ _ E) as ([Hs Hd] & ? & ?). split_and!; [|done..]. split.
    - etrans; [exact Hs|]. apply sublist_app; [done|by apply sublist_cons].
    - intros m'. rewrite elem_of_app, elem_of_cons. intros [?|[->|?]]; [|by right|];
        apply Hd; rewrite elem_of_app; auto. }
  assert (Hsend : ∀ sends', (let '(b2, p2, out2, ok2) := drain closed sends' b (p ++ [m]) in
      (b2, p2, Sent m :: out2, ok2)) = (b', p', out, ok) →
    drops closed (p ++ m :: b) (p' ++ b') ∧ acked out = [] ∧ (ok = true → b' = [])).
  { intros sends' E. destruct (drain closed sends' b (p ++ [m])) as [[[b2 p2] out2] ok2] eqn:Ed. simplify_eq.
    destruct (IH _ _ _ _ _ _ Ed) as (Hd & Ha & Hok). rewrite <-app_assoc in Hd. done. }
  destruct sends as [|[] sends]; [apply Hsend..|].
  intros [= <- <- <- <-]. split_and!; [apply drops_refl|done..].
Qed.

Lemma transmit_spec closed sends c c' out :
  transmit closed sends c = (c', out) →
  drops closed (in_flight c) (in_flight c') ∧ acked out = [] ∧ connection_ok c'.
Proof.
  unfold transmit. destruct (drain _ _ _ _) as [[[b p] o] ok] eqn:Ed. apply drain_spec in Ed as (Hd & Ha & Hok).
  destruct ok; intros [= <- <-]; unfold in_flight, connection_ok; simpl.
  - split_and!; auto.
  - rewrite requeue_app. split_and!; [done| |done]. unfold acked. rewrite omap_app.
    unfold acked in Ha. by rewrite Ha.
Qed.

(** A step of a connection is a step of the queue: a message taken goes to its end, an acknowledgement is of
    its front and removes it, and only cancelled messages are dropped. *)
Lemma connection_step_spec c closed e c' out :
  connection_ok c → connection_step c closed e = Some (c', out) →
  connection_ok c' ∧ drops closed (in_flight c ++ taken [(closed, e)]) (acked out ++ in_flight c').
Proof.
  unfold connection_step. intros Hok E. destruct (phase c) eqn:Eph, e as [[] sends| |m sends|r sends]; try done;
    unfold connection_ok in Hok; rewrite Eph in Hok.
  - injection E as E. apply transmit_spec in E as (Hd & -> & ?). split; [done|].
    unfold in_flight in *; simpl in *. by rewrite Hok, app_nil_r.
  - simplify_eq. split; [done|]. unfold in_flight; csimpl. rewrite Hok, app_nil_r. apply drops_refl.
  - simplify_eq. split; [done|]. unfold in_flight; csimpl. rewrite Hok, app_nil_r. apply drops_refl.
  - simplify_eq. split; [done|]. unfold in_flight; csimpl. rewrite Hok. apply drops_filter.
  - injection E as E. apply transmit_spec in E as (Hd & -> & ?). split; [done|].
    unfold in_flight in *; csimpl. simpl in Hd. by rewrite <-app_assoc.
  - destruct (pending_replies c) as [|m p] eqn:Ep.
    { unfold disconnect in E. simplify_eq. split; [done|]. unfold in_flight; csimpl. rewrite Ep, Hok, requeue_app. apply drops_refl. }
    destruct r as [bytes|].
    + destruct (transmit _ _ _) as [c2 out2] eqn:Et. simplify_eq. apply transmit_spec in Et as (Hd & Ha & ?).
      split; [done|]. csimpl. fold (acked out2). rewrite Ha, app_nil_r. unfold in_flight in *; simpl in *.
      rewrite Ep. by apply drops_skip.
    + unfold disconnect in E. simplify_eq. split; [done|]. unfold in_flight; csimpl. rewrite Ep, requeue_app, app_nil_r. apply drops_refl.
Qed.

(** Some caller had dropped the handler of a message at a step. *)
Definition cancelled (es : list (gset nat * ConnectionEvent)) m : Prop :=
  ∃ closed e, (closed, e) ∈ es ∧ cancel_handler m ∈ closed.

Lemma acked_app out out' : acked (out ++ out') = acked out ++ acked out'.
Proof. apply omap_app. Qed.

Lemma taken_cons e es : taken (e :: es) = taken [e] ++ taken es.
Proof. apply (omap_app _ [e]). Qed.

Lemma connection_run_spec c es c' out :
  connection_ok c → connection_run c es = Some (c', out) →
  (acked out ++ in_flight c') `sublist_of` (in_flight c ++ taken es) ∧
  (∀ m, m ∈ in_flight c ++ taken es → m ∈ acked out ++ in_flight c' ∨ cancelled es m) ∧ connection_ok c'.
Proof.
  revert c c' out. induction es as [|[closed e] es IH]; intros c c' out Hok E.
  { injection E as <- <-. csimpl. rewrite app_nil_r. split_and!; auto. }
  cbn [connection_run] in E. apply bind_Some in E as ([c1 out1] & E1 & E).
  apply bind_Some in E as ([c2 out2] & E2 & E). simplify_eq.
  destruct (connection_step_spec _ _ _ _ _ Hok E1) as [Hok1 [Hs1 Hd1]].
  destruct (IH _ _ _ Hok1 E2) as (Hs2 & Hd2 & Hok2). rewrite taken_cons, acked_app, <-(app_assoc (acked out1)), (app_assoc (in_flight c)).
  split_and!; [|intros m|done].
  - transitivity ((acked out1 ++ in_flight c1) ++ taken es); [|by apply sublist_app].
    rewrite <-app_assoc. by apply sublist_app.
  - rewrite elem_of_app. intros [Hm|Hm].
    + destruct (Hd1 m Hm) as [[?|Hm1]%elem_of_app|?].
      * left. rewrite !elem_of_app. auto.
      * destruct (Hd2 m) as [?|(cl & e' & ? & ?)]; [rewrite elem_of_app; auto| |].
        -- left. rewrite elem_of_app. auto.
        -- right. exists cl, e'. split; [by right|done].
      * right. exists closed, e. split; [left|done].
    + destruct (Hd2 m) as [?|(cl & e' & ? & ?)]; [rewrite elem_of_app; auto| |].
      * left. rewrite elem_of_app. auto.
      * right. exists cl, e'. split; [by right|done].
Qed.

(** ** The delay between attempts *)

(** After [k] failed attempts in a row the delay is [min (200 * 2 ^ k) 60000] milliseconds. *)
Definition delay_ok c : Prop := ∃ k, retry c = k mod 65536 ∧ delay c = N.min (200 * 2 ^ k) 60000.

Lemma delay_ok_start c : retry c = 0 → delay c = retry_delay → delay_ok c.
Proof. intros Hr Hd. exists 0. by rewrite Hr, Hd. Qed.

Lemma connection_step_delay c closed e c' out :
  delay_ok c → connection_step c closed e = Some (c', out) → delay_ok c'.
Proof.
  assert (Ht : ∀ sends c0, delay_ok c0 → delay_ok (transmit closed sends c0).1).
  { intros sends c0 (k & Hk). unfold transmit. destruct (drain _ _ _ _) as [[[b p] o] [] ]; by exists k. }
  unfold connection_step. intros (k & Hr & Hd) E. destruct (phase c), e as [[] sends| |m sends|r sends]; try done.
  - injection E as E. pose proof (Ht sends (MkConnection (address c) Alive retry_delay 0 (buffer c) [])) as Hc.
    rewrite E in Hc. by apply Hc, delay_ok_start.
  - simplify_eq. by exists k.
  - simplify_eq. exists (k + 1). simpl. rewrite Hr, Hd. split.
    + unfold u16_add. by rewrite N.Div0.add_mod_idemp_l.
    + rewrite u64_mul_small by (unfold two64; lia). rewrite N.add_1_r, N.pow_succ_r'. lia.
  - simplify_eq. by exists k.
  - injection E as E. pose proof (Ht sends (MkConnection (address c) Alive (delay c) (retry c) (buffer c ++ [m]) (pending_replies c))) as Hc.
    rewrite E in Hc. apply Hc. by exists k.
  - unfold disconnect in E. destruct (pending_replies c) as [|m p]; [simplify_eq; by exists k|].
    destruct r as [bytes|]; [|simplify_eq; by exists k].
    pose proof (Ht sends (MkConnection (address c) Alive (delay c) (retry c) (buffer c) p)) as Hc.
    destruct (transmit _ _ _) as [c2 out2]. simplify_eq. apply Hc. by exists k.
Qed.

Lemma connection_run_delay c es c' out : delay_ok c → connection_run c es = Some (c', out) → delay_ok c'.
Proof.
  revert c c' out. induction es as [|[closed e] es IH]; intros c c' out Hc E; [by simplify_eq/=|].
  cbn [connection_run] in E. apply bind_Some in E as ([c1 out1] & E1 & E).
  apply bind_Some in E as ([c2 out2] & E2 & E). simplify_eq.
  apply connection_step_delay in E1; [|done]. by eapply IH.
Qed.

(** ** Delivery *)

Notation live closed := (filter (λ m, cancel_handler m ∉ closed)).

Lemma drain_all closed b p :
  drain closed [] b p = ([], p ++ live closed b, Sent <$> live closed b, true).
Proof.
  revert p. induction b as [|m b IH]; intros p; simpl; [by rewrite app_nil_r|]. rewrite filter_cons.
  destruct (decide (cancel_handler m ∈ closed)) as [Hm|Hm].
  - rewrite decide_False by auto. apply IH.
  - rewrite decide_True by done. simpl. by rewrite IH, <-app_assoc.
Qed.

Lemma connection_acks c closed bytes :
  phase c = Alive → buffer c = [] →
  ∃ c' out, connection_run c (replicate (length (pending_replies c)) (closed, Response (Some bytes) [])) = Some (c', out) ∧
    acked out = pending_replies c ∧ in_flight c' = [].
Proof.
  remember (pending_replies c) as l eqn:El. revert c El. induction l as [|m l IH]; intros c El Hph Hb.
  { exists c, []. unfold in_flight. by rewrite Hb, <-El. }
  cbn [replicate length connection_run]. unfold connection_step. rewrite Hph, <-El.
  unfold transmit. simpl. rewrite Hb. simpl.
  destruct (IH (MkConnection (address c) Alive (delay c) (retry c) [] l)) as (c' & out & Er & Ea & Ef); [done..|].
  simpl in Er. rewrite Er. simpl. do 2 eexists. split; [reflexivity|]. csimpl. fold (acked out). by rewrite Ea.
Qed.
End connection.

(** ** [ReliableSender] *)

(** The channels of the connections, and the number of the next [oneshot] channel. *)
Record ReliableSender := MkReliableSender {
  connections : gmap SocketAddr (list InnerMessage);
  next_handler : nat
}.

Definition ReliableSender_new : ReliableSender := MkReliableSender ∅ 0.

(** [send]: a connection is spawned at the first message to an address. *)
Definition reliable_send (s : ReliableSender) (address : SocketAddr) (data : Bytes) : ReliableSender * nat :=
  (MkReliableSender
     (<[ address := default [] (connections s !! address) ++ [MkInnerMessage data (next_handler s)] ]> (connections s))
     (S (next_handler s)), next_handler s).

Fixpoint reliable_broadcast (s : ReliableSender) (addresses : list SocketAddr) (data : Bytes) : ReliableSender * list nat :=
  match addresses with
  | [] => (s, [])
  | address :: addresses =>
      let '(s, handler) := reliable_send s address data in
      let '(s, handlers) := reliable_broadcast s addresses data in (s, handler :: handlers)
  end.

(** [lucky_broadcast], with the shuffle its generator of random numbers leads to. *)
Definition reliable_lucky_broadcast (shuffle : list SocketAddr → list SocketAddr) (s : ReliableSender)
    (addresses : list SocketAddr) (data : Bytes) (nodes : N) : ReliableSender * list nat :=
  reliable_broadcast s (take (N.to_nat nodes) (shuffle addresses)) data.

(** The handlers are fresh, and ordered as the addresses, whose channels get the message with them. *)
Lemma reliable_broadcast_spec s addresses data :
  let '(s', handlers) := reliable_broadcast s addresses data in
  handlers = seq (next_handler s) (length addresses) ∧
  ∀ a, default [] (connections s' !! a) = default [] (connections s !! a) ++
    ((λ e, MkInnerMessage data e.2) <$> filter (λ e, e.1 = a) (zip addresses handlers)).
Proof.
  revert s. induction addresses as [|a addresses IH]; intros s; simpl.
  { split; [done|]. intros a. by rewrite app_nil_r. }
  specialize (IH (reliable_send s a data).1). simpl in IH. destruct (reliable_broadcast _ _ _) as [s' handlers].
  destruct IH as [-> Hc]. split; [done|]. intros a'. rewrite Hc, filter_cons. simpl.
  destruct (decide (a = a')) as [->|?].
  - rewrite lookup_insert_eq. csimpl. by rewrite <-app_assoc.
  - by rewrite lookup_insert_ne.
Qed.

(** ** [SimpleSender] *)

(** A connection whose task has ended refuses messages. *)
Record SimpleConnection := MkSimpleConnection { alive : bool; channel : list Bytes }.

Definition simple_send (connections : gmap SocketAddr SimpleConnection) (address : SocketAddr) (data : Bytes) :
    gmap SocketAddr SimpleConnection :=
  match connections !! address with
  | Some (MkSimpleConnection true channel) => <[ address := MkSimpleConnection true (channel ++ [data]) ]> connections
  | _ => <[ address := MkSimpleConnection true [data] ]> connections
  end.

Definition simple_broadcast (connections : gmap SocketAddr SimpleConnection) (addresses : list SocketAddr) (data : Bytes) :
    gmap SocketAddr SimpleConnection :=
  foldl (λ connections address, simple_send connections address data) connections addresses.

Definition simple_lucky_broadcast (shuffle : list SocketAddr → list SocketAddr)
    (connections : gmap SocketAddr SimpleConnection) (addresses : list SocketAddr) (data : Bytes) (nodes : N) :
    gmap SocketAddr SimpleConnection :=
  simple_broadcast connections (take (N.to_nat nodes) (shuffle addresses)) data.

(** What happens to a connection of a [SimpleSender] once connected. *)
Inductive SimpleEvent :=
| SimpleReceive (data : Bytes) (ok : bool)
| SimpleResponse (ok : bool).

(** [Connection::run]: what is written, and the warning it ends with, if it ends. *)
Fixpoint simple_connection_loop (address : SocketAddr) (es : list SimpleEvent) : list Bytes * option NetworkError :=
  match es with
  | [] => ([], None)
  | SimpleReceive data true :: es =>
      let '(written, e) := simple_connection_loop address es in (data :: written, e)
  | SimpleReceive _ false :: _ => ([], Some (FailedToSendMessage address))
  | SimpleResponse true :: es => simple_connection_loop address es
  | SimpleResponse false :: _ => ([], Some (FailedToReceiveAck address))
  end.

Definition simple_connection_run (address : SocketAddr) (connected : bool) (es : list SimpleEvent) :
    list Bytes * option NetworkError :=
  if connected then simple_connection_loop address es else ([], Some (FailedToConnect address 0)).

Definition simple_taken (es : list SimpleEvent) : list Bytes :=
  omap (λ e, match e with SimpleReceive data _ => Some data | _ => None end) es.

(** Best effort: a prefix of the messages is written, each once, and all of them when nothing fails. *)
Lemma simple_connection_prefix address connected es written e :
  simple_connection_run address connected es = (written, e) →
  written `prefix_of` simple_taken es ∧ (e = None → written = simple_taken es).
Proof.
  unfold simple_connection_run. destruct connected; [|intros [= <- <-]; split; [apply prefix_nil|done]].
  revert written e. induction es as [|[data []|[]] es IH]; intros written e; csimpl.
  - intros [= <- <-]. split; [apply prefix_nil|done].
  - destruct (simple_connection_loop address es) as [w e']. intros [= <- <-]. destruct (IH w e' eq_refl) as [? Hn].
    split; [by apply prefix_cons|]. intros He. by rewrite Hn.
  - intros [= <- <-]. split; [apply prefix_nil|done].
  - apply IH.
  - intros [= <- <-]. split; [apply prefix_nil|done].
Qed.

(** ** [Receiver] *)

(** [spawn_runner]: what the handler does with the frames of a connection ([Throw] is a failed read), until
    the stream ends or the handler or a read fails. *)
Fixpoint runner {E O} (dispatch : Bytes → list O * outcome E unit) (frames : list (outcome unit Bytes)) : list O :=
  match frames with
  | Ret message :: frames =>
      match dispatch message with
      | (out, Ret ()) => out ++ runner dispatch frames
      | (out, _) => out
      end
  | _ => []
  end.

(** ** Properties *)

(** C26: A connection of the [ReliableSender] refines a queue: from any state of a run, the messages
    acknowledged and then those still in flight (written and not acknowledged, or waiting to be written) are
    the messages it took, in the same order and none twice, less cancelled ones. No failed connection, write
    or read loses a message, acknowledgements are given in the order of the messages, and the delay between
    attempts follows the failures in a row up to a minute. *)
Theorem reliable_fifo address es c out :
  connection_run (Connection_new address) es = Some (c, out) →
  (acked out ++ in_flight c) `sublist_of` taken es ∧
  (∀ m, m ∈ taken es → m ∈ acked out ∨ m ∈ in_flight c ∨ cancelled es m) ∧
  ∃ k, retry c = k mod 65536 ∧ delay c = N.min (200 * 2 ^ k) 60000.
Proof.
  intros E. destruct (connection_run_spec _ _ _ _ (eq_refl : connection_ok (Connection_new address)) E) as (Hs & Hd & _).
  split_and!; [done| |].
  - intros m Hm. destruct (Hd m Hm) as [[?|?]%elem_of_app|?]; auto.
  - by apply (connection_run_delay _ _ _ _ (delay_ok_start (Connection_new address) eq_refl eq_refl) E).
Qed.

(** C27: The retransmission succeeds once the peer is back: when an attempt to connect succeeds and nothing
    fails after it, one response for each message in flight that is not cancelled acknowledges all of them,
    in order, and nothing stays in flight. *)
Theorem reliable_delivery c closed bytes :
  connection_ok c → phase c = Connecting →
  let live := filter (λ m, cancel_handler m ∉ closed) (in_flight c) in
  ∃ c' out,
    connection_run c ((closed, ConnectResult true []) :: replicate (length live) (closed, Response (Some bytes) []))
      = Some (c', out) ∧
    acked out = live ∧ in_flight c' = [].
Proof.
  intros Hok Hph l. unfold connection_ok in Hok. rewrite Hph in Hok.
  assert (El : l = filter (λ m, cancel_handler m ∉ closed) (buffer c)) by (unfold l, in_flight; by rewrite Hok).
  clearbody l. cbn [connection_run]. unfold connection_step. rewrite Hph. unfold transmit. simpl. rewrite drain_all, <-El. simpl.
  destruct (connection_acks (MkConnection (address c) Alive retry_delay 0 [] l) closed bytes) as (c' & out & Er & Ea & Ef);
    [done..|]. simpl in Er. rewrite Er. simpl. do 2 eexists. split; [reflexivity|]. rewrite acked_app, Ea.
  split; [|done]. replace (acked (Sent <$> l)) with (@nil InnerMessage); [done|].
  clear. unfold acked. by induction l.
Qed.

Module SampleConnection.
Definition a : SocketAddr := MkSocketAddr [x7f; x00; x00; x01] 1000.
Definition m (n : nat) : InnerMessage := MkInnerMessage [byte_of_N (N.of_nat n)] n.

(** Three messages: the first write succeeds and the stream breaks, the second message is cancelled, and the
    connection is tried again. *)
Definition es : list (gset nat * ConnectionEvent) :=
  [(∅, ConnectResult true []); (∅, Receive (m 1) []); (∅, Receive (m 2) [false]);
   (∅, ConnectResult false []); ({[ 2%nat ]}, Receive (m 3) []); ({[ 2%nat ]}, DelayOver);
   ({[ 2%nat ]}, ConnectResult true []); ({[ 2%nat ]}, Response (Some []) [])].
Definition result := default (Connection_new a, []) (connection_run (Connection_new a) es).

(** A connection that was lost with two messages in flight. *)
Definition broken : Connection := MkConnection a Connecting 200 0 [m 1; m 2] [].
End SampleConnection.

Section witnesses.
Import SampleConnection.

Lemma reliable_fifo_witness :
  acked result.2 = [m 1] ∧ in_flight result.1 = [m 3] ∧
  (acked result.2 ++ in_flight result.1) `sublist_of` taken es.
Proof.
  split_and!; [vm_compute; reflexivity..|].
  apply (reliable_fifo a es result.1 result.2). vm_compute. reflexivity.
Defined.

Lemma reliable_delivery_witness :
  filter (λ x, cancel_handler x ∉ ({[ 2%nat ]} : gset nat)) [m 1; m 2] = [m 1] ∧
  let live := filter (λ x, cancel_handler x ∉ ({[ 2%nat ]} : gset nat)) (in_flight broken) in
  ∃ c' out,
    connection_run broken (({[ 2%nat ]}, ConnectResult true []) ::
      replicate (length live) ({[ 2%nat ]}, Response (Some []) [])) = Some (c', out) ∧
    acked out = live ∧ in_flight c' = [].
Proof. split; [vm_compute; reflexivity|]. apply (reliable_delivery broken {[ 2%nat ]} []); reflexivity. Defined.
End witnesses.
