(* ===== verification/Worker.v ===== *)
(** The worker ([src/worker/src/worker.rs]): its messages and receivers, and the tasks that make batches and
    bring their digests to the primary: the [BatchMaker] ([batch_maker.rs]), the [QuorumWaiter]
    ([quorum_waiter.rs]), the [Processor] ([processor.rs]), the [PrimaryConnector]
    ([primary_connector.rs]), and the [Helper] ([helper.rs]).

    One iteration of a task is a function of its state and of what it takes; what it sends is its output. *)

From S2P Require Import Prelude Crypto Config Messages Store Primary.

Notation Transaction := (list byte) (only parsing).
Notation Batch := (list (list byte)) (only parsing).

Inductive WorkerMessage :=
| WMBatch (batch : Batch)
| WMBatchRequest (missing : list Digest) (requestor : PublicKey).

#[export] Instance WorkerMessage_eq_dec : EqDecision WorkerMessage.
Proof. solve_decision. Defined.

#[export] Instance PrimaryWorkerMessage_eq_dec : EqDecision PrimaryWorkerMessage.
Proof. solve_decision. Defined.

(** ** The receivers *)

(** What they do with a message, in order. *)
Inductive WorkerDispatch :=
| WAck
| ToBatchMaker (transaction : Transaction)
| ToProcessor (serialized : list byte)
| ToWorkerHelper (missing : list Digest) (requestor : PublicKey)
| ToWorkerSynchronizer (m : PrimaryWorkerMessage)
| ToWatch (value : Round * bool).

Section receivers.
Context `{!Backend, !Bincode WorkerMessage, !Bincode PrimaryWorkerMessage}.

(** [TxReceiverHandler::dispatch]. *)
Definition dispatch_transaction (message : list byte) : list WorkerDispatch := [ToBatchMaker message].

(** [WorkerReceiverHandler::dispatch]: a batch is forwarded as it was received. *)
Definition dispatch_worker_message (serialized : list byte) : list WorkerDispatch :=
  match deserialize serialized with
  | Ret (WMBatch _) => [WAck; ToProcessor serialized]
  | Ret (WMBatchRequest missing requestor) => [WAck; ToWorkerHelper missing requestor]
  | _ => [WAck]
  end.

(** [PrimaryReceiverHandler::dispatch], with the value the watch channel holds. *)
Definition dispatch_primary_message (watch : Round * bool) (serialized : list byte) : (Round * bool) * list WorkerDispatch :=
  match deserialize serialized with
  | Ret (BatchSilent round silent) =>
      if watch.1 <=? round then ((round, silent), [WAck; ToWatch (round, silent)]) else (watch, [WAck])
  | Ret message => (watch, [WAck; ToWorkerSynchronizer message])
  | _ => (watch, [WAck])
  end.

Fixpoint dispatch_primary_messages (watch : Round * bool) (messages : list (list byte)) : Round * bool :=
  match messages with
  | [] => watch
  | m :: messages => dispatch_primary_messages (dispatch_primary_message watch m).1 messages
  end.
End receivers.

(** ** [BatchMaker] *)

(** The state of the task, with the deadline of its timer. *)
Record BatchMaker := MkBatchMaker {
  current_batch : Batch;
  current_batch_size : N;
  batch_deadline : N
}.

(** [QuorumWaiterMessage]: the cancel handlers are known by the authorities they wait for. *)
Record QuorumWaiterMessage := MkQuorumWaiterMessage {
  qw_batch : list byte;
  qw_handlers : list PublicKey
}.

(** What the task sends: a broadcast to the other workers and a message to the [QuorumWaiter]. *)
Inductive BatchOutput :=
| BroadcastBatch (addresses : list SocketAddr) (serialized : list byte)
| ToQuorumWaiter (m : QuorumWaiterMessage).

(** The branch taken in an iteration: a change of the watch channel ([None] when its sender is gone), a
    transaction, or the timer. *)
Inductive BatchEvent :=
| SilentChanged (value : option bool)
| TakeTransaction (transaction : Transaction)
| BatchTimer.

Section batch_maker.
Context `{!Backend, !Bincode WorkerMessage}.

(** [benchmark] is the feature the repository compiles its benchmarks with. *)
Variables (benchmark : bool) (batch_size max_batch_delay : N) (workers_addresses : list (PublicKey * SocketAddr)).

Implicit Types (b : BatchMaker).

Definition BatchMaker_new (now : N) : BatchMaker := MkBatchMaker [] 0 (now + max_batch_delay).

(** The sample transactions of a batch ([tx[0]], [tx[1..9]]): indexing an empty transaction panics. *)
Fixpoint tx_ids (batch : Batch) : outcome unit (list (list byte)) :=
  match batch with
  | [] => Ret []
  | [] :: _ => Panic
  | ((x :: rest) as tx) :: batch =>
      ids ← tx_ids batch;
      Ret (if bool_decide (x = x00) && bool_decide (8 < length tx)%nat then take 8 rest :: ids else ids)
  end.

(** [BatchMaker::seal]. *)
Definition seal b : outcome unit (BatchMaker * list BatchOutput) :=
  (if benchmark then _ ← tx_ids (current_batch b); Ret () else Ret ());;
  let serialized := serialize (WMBatch (current_batch b)) in
  Ret (MkBatchMaker [] 0 (batch_deadline b),
       [BroadcastBatch workers_addresses.*2 serialized;
        ToQuorumWaiter (MkQuorumWaiterMessage serialized workers_addresses.*1)]).

Definition reset_timer (now : N) b : BatchMaker :=
  MkBatchMaker (current_batch b) (current_batch_size b) (now + max_batch_delay).

(** One iteration of [BatchMaker::run], with what [borrow().1] reads at its head and the clock: the new
    state, or [None] when the task returns. An event the iteration does not wait for leaves the state: while
    the value read is [true], only changes of the watch channel are awaited. *)
Definition batch_step (silent : bool) (now : N) b (e : BatchEvent) :
    outcome unit (option BatchMaker * list BatchOutput) :=
  match e with
  | SilentChanged None => Ret (None, [])
  | SilentChanged (Some true) => Ret (Some b, [])
  | SilentChanged (Some false) => Ret (Some (reset_timer now b), [])
  | TakeTransaction transaction =>
      if silent then Ret (Some b, [])
      else
        let b := MkBatchMaker (current_batch b ++ [transaction])
          (u64_add (current_batch_size b) (N.of_nat (length transaction))) (batch_deadline b) in
        if batch_size <=? current_batch_size b then
          '(b, out) ← seal b; Ret (Some (reset_timer now b), out)
        else Ret (Some b, [])
  | BatchTimer =>
      if silent then Ret (Some b, [])
      else
        match current_batch b with
        | [] => Ret (Some (reset_timer now b), [])
        | _ => '(b, out) ← seal b; Ret (Some (reset_timer now b), out)
        end
  end.

Fixpoint batch_steps b (es : list (bool * N * BatchEvent)) : outcome unit (option BatchMaker * list BatchOutput) :=
  match es with
  | [] => Ret (Some b, [])
  | (silent, now, e) :: es =>
      '(b', out) ← batch_step silent now b e;
      match b' with
      | None => Ret (None, out)
      | Some b => '(b, out') ← batch_steps b es; Ret (b, out ++ out')
      end
  end.

(** The transactions taken, and the messages to the [QuorumWaiter]. *)
Definition transactions_taken (es : list (bool * N * BatchEvent)) : list (list byte) :=
  omap (λ e, match e with (false, _, TakeTransaction tx) => Some tx | _ => None end) es.
Definition to_quorum_waiter (out : list BatchOutput) : list QuorumWaiterMessage :=
  omap (λ o, match o with ToQuorumWaiter m => Some m | _ => None end) out.
End batch_maker.

(** ** [QuorumWaiter] *)

Section quorum_waiter.
Variables (committee : Committee) (own_stake : Stake).

(** [while let Some(stake) = wait_for_quorum.next().await]: the authorities in the order in which their
    handlers complete, and whether the batch is delivered. *)
Fixpoint quorum_loop (total_stake : Stake) (completed : list PublicKey) : bool :=
  match completed with
  | [] => false
  | name :: completed =>
      let total_stake := u32_add total_stake (stake committee name) in
      if quorum_threshold committee <=? total_stake then true else quorum_loop total_stake completed
  end.

(** One iteration of [QuorumWaiter::run]: what is sent to the [Processor] when all of [completed] are done. *)
Definition quorum_wait (m : QuorumWaiterMessage) (completed : list PublicKey) : option (list byte) :=
  if quorum_loop own_stake completed then Some (qw_batch m) else None.
End quorum_waiter.

(** ** [Processor], [PrimaryConnector] and [Helper] *)

Section processor.
Context `{!Sha512, !Backend, !Storage, !Bincode WorkerPrimaryMessage}.

(** One iteration of [Processor::spawn]: the store and the message to the primary. *)
Definition process_batch (s : storage) (id : WorkerId) (own_digest : bool) (batch : list byte) : storage * list byte :=
  let digest := hash_bytes batch in
  (storage_write s (Digest_to_vec digest) batch,
   serialize (if own_digest then OurBatch digest id else OthersBatch digest id)).

Fixpoint process_batches (s : storage) (id : WorkerId) (own_digest : bool) (batches : list (list byte)) :
    storage * list (list byte) :=
  match batches with
  | [] => (s, [])
  | batch :: batches =>
      let '(s, m) := process_batch s id own_digest batch in
      let '(s, ms) := process_batches s id own_digest batches in (s, m :: ms)
  end.

(** [PrimaryConnector::run]: the messages to the primary and where they are sent. *)
Definition connect_primary (primary_address : SocketAddr) (digests : list (list byte)) : list (SocketAddr * list byte) :=
  (λ d, (primary_address, d)) <$> digests.

(** One iteration of [Helper::run]: what is sent to the worker that asks. *)
Fixpoint reply_loop (s : storage) (address : SocketAddr) (digests : list Digest) : list (SocketAddr * list byte) :=
  match digests with
  | [] => []
  | digest :: digests =>
      match storage_read s (Digest_to_vec digest) with
      | Ret (Some data) => (address, data) :: reply_loop s address digests
      | _ => reply_loop s address digests
      end
  end.

Definition reply (id : WorkerId) (committee : Committee) (s : storage) (digests : list Digest) (origin : PublicKey) :
    list (SocketAddr * list byte) :=
  match worker committee origin id with
  | Ret x => reply_loop s (worker_to_worker x) digests
  | _ => []
  end.
End processor.

(** ** Lemmas *)

Section batch_facts.
Context `{!Backend, !Bincode WorkerMessage}.
Variables (benchmark : bool) (batch_size max_batch_delay : N) (workers_addresses : list (PublicKey * SocketAddr)).
Implicit Types (b : BatchMaker) (es : list (bool * N * BatchEvent)) (out : list BatchOutput) (txs : list (list byte)).

Definition bytes_of txs : N := sum_N (λ tx, N.of_nat (length tx)) txs.

(** A batch is sealed as soon as it reaches the size, or before. *)
Definition sealed_ok txs : Prop := ∃ front tx, txs = front ++ [tx] ∧ (front = [] ∨ bytes_of front < batch_size).

(** The size counts the bytes of the current batch, which is below the limit. *)
Definition batch_ok b : Prop :=
  current_batch_size b = bytes_of (current_batch b) ∧ (current_batch b = [] ∨ bytes_of (current_batch b) < batch_size).

Definition message_of txs : QuorumWaiterMessage :=
  MkQuorumWaiterMessage (serialize (WMBatch txs)) workers_addresses.*1.

(** The batches an iteration seals. *)
Definition seals out (batches : list Batch) : Prop :=
  to_quorum_waiter out = message_of <$> batches ∧ Forall sealed_ok batches.

Lemma tx_ids_ret txs : (∀ tx, tx ∈ txs → tx ≠ []) → ∃ ids, tx_ids txs = Ret ids.
Proof.
  induction txs as [|[|x tx] txs IH]; intros Hne; simpl; [by eexists| |].
  - destruct (Hne []); [left|done].
  - destruct IH as [ids ->]; [intros; apply Hne; by right|]. by eexists.
Qed.

Lemma tx_ids_panic txs : [] ∈ txs → tx_ids txs = Panic.
Proof.
  induction txs as [|[|x tx] txs IH]; intros Hin; [by apply elem_of_nil in Hin|done|]. simpl.
  apply elem_of_cons in Hin as [?|?]; [done|]. by rewrite IH.
Qed.

Lemma seal_ret b :
  (benchmark = true → ∀ tx, tx ∈ current_batch b → tx ≠ []) →
  seal benchmark workers_addresses b =
    Ret (MkBatchMaker [] 0 (batch_deadline b),
      [BroadcastBatch workers_addresses.*2 (serialize (WMBatch (current_batch b)));
       ToQuorumWaiter (message_of (current_batch b))]).
Proof.
  intros Hne. unfold seal. destruct benchmark; [|done].
  destruct (tx_ids_ret (current_batch b)) as [ids ->]; [by apply Hne|done].
Qed.

Lemma bytes_of_app txs txs' : bytes_of (txs ++ txs') = bytes_of txs + bytes_of txs'.
Proof. apply sum_N_app. Qed.

Notation step := (batch_step benchmark batch_size max_batch_delay workers_addresses).
Notation steps := (batch_steps benchmark batch_size max_batch_delay workers_addresses).

(** What an iteration does: it returns, seals batches and keeps the transactions in order. *)
Definition step_ok b (taken : list (list byte)) (r : outcome unit (option BatchMaker * list BatchOutput)) : Prop :=
  ∃ o out batches, r = Ret (o, out) ∧ seals out batches ∧
    (o = None ∧ batches = [] ∨
     ∃ b1, o = Some b1 ∧ batch_ok b1 ∧ concat batches ++ current_batch b1 = current_batch b ++ taken).

Lemma batch_step_spec silent now b e :
  let taken := transactions_taken [(silent, now, e)] in
  batch_ok b → bytes_of (current_batch b ++ taken) < two64 →
  (benchmark = true → ∀ tx, tx ∈ current_batch b ++ taken → tx ≠ []) →
  step_ok b taken (step silent now b e).
Proof.
  intros taken [Hsize Hlt] Hbound Hne.
  assert (Hquiet : ∀ b1, current_batch b1 = current_batch b → current_batch_size b1 = current_batch_size b →
    taken = [] → step silent now b e = Ret (Some b1, []) → step_ok b taken (step silent now b e)).
  { intros b1 Ec Es Et E. exists (Some b1), [], []. split_and!; [done..|]. right. exists b1. unfold batch_ok.
    by rewrite Ec, Es, Et, app_nil_r. }
  unfold taken in *. clear taken.
  assert (Hclosed : e = SilentChanged None → step_ok b (transactions_taken [(silent, now, e)]) (step silent now b e)).
  { intros ->. exists None, [], []. split_and!; [done|by split|by left]. }
  destruct silent, e as [[[]|]|tx|]; try (by apply (Hquiet b));
    try (by apply (Hquiet (reset_timer max_batch_delay now b))); try (by apply Hclosed).
  - clear Hquiet Hclosed. csimpl in *. simpl.
    rewrite Hsize, u64_add_small by (rewrite bytes_of_app in Hbound; unfold bytes_of in Hbound |- *; simpl in Hbound; lia).
    assert (Ebytes : bytes_of (current_batch b) + N.of_nat (length tx) = bytes_of (current_batch b ++ [tx])).
    { rewrite bytes_of_app. unfold bytes_of. simpl. lia. }
    destruct (N.leb_spec batch_size (bytes_of (current_batch b) + N.of_nat (length tx))) as [Hfull|Hroom].
    + rewrite seal_ret by done. simpl. do 2 eexists. exists [current_batch b ++ [tx]]. split; [done|]. split.
      * split; [done|]. repeat constructor. by exists (current_batch b), tx.
      * right. eexists. split; [done|]. split; [by split; [|left]|]. simpl. by rewrite !app_nil_r.
    + do 2 eexists. exists []. split; [done|]. split; [done|]. right. eexists. split; [done|]. split; [|done].
      unfold batch_ok. simpl. rewrite <-Ebytes. auto.
  - destruct (decide (current_batch b = [])) as [Eb|Hn].
    { apply (Hquiet (reset_timer max_batch_delay now b)); [done..|]. simpl. by rewrite Eb. }
    clear Hquiet Hclosed. csimpl in *. rewrite app_nil_r in Hne. pose proof (seal_ret b Hne) as Es.
    destruct (current_batch b) as [|tx txs] eqn:Eb; [done|]. simpl. rewrite Es. simpl.
    do 2 eexists. exists [tx :: txs]. split; [done|]. split.
    + split; [done|]. repeat constructor. destruct (exists_last (l := tx :: txs)) as (front & tx' & E); [done|].
      rewrite E. exists front, tx'. split; [done|]. right. destruct Hlt as [?|Hlt]; [done|].
      rewrite E, bytes_of_app in Hlt. lia.
    + right. eexists. split; [done|]. split; [by split; [|left]|]. simpl. by rewrite !app_nil_r.
Qed.

(** Iterations that return keep the transactions in order, whatever the sizes. *)
Lemma batch_step_conserves silent now b e b1 out :
  step silent now b e = Ret (Some b1, out) →
  ∃ batches, to_quorum_waiter out = message_of <$> batches ∧
    concat batches ++ current_batch b1 = current_batch b ++ transactions_taken [(silent, now, e)].
Proof.
  assert (Hseal : ∀ b b1 out, seal benchmark workers_addresses b = Ret (b1, out) →
    to_quorum_waiter out = [message_of (current_batch b)] ∧ current_batch b1 = []).
  { clear. intros b b1 out. unfold seal. destruct benchmark; [destruct (tx_ids _)|]; simpl; by intros [= <- <-]. }
  assert (Hquiet : ∀ b1, current_batch b1 = current_batch b → ∃ batches, to_quorum_waiter [] = message_of <$> batches ∧
    concat batches ++ current_batch b1 = current_batch b ++ []).
  { intros b2 ->. exists []. by rewrite app_nil_r. }
  destruct silent, e as [[[]|]|tx|]; csimpl; try (by intros [= <- <-]; apply Hquiet).
  - destruct (_ <=? _); [|intros [= <- <-]; by exists []]. intros ([b2 out2] & [Eo Ec]%Hseal & [= <- <-])%outcome_bind_ret.
    exists [current_batch b ++ [tx]]. split; [done|]. simpl. by rewrite Ec, !app_nil_r.
  - destruct (current_batch b) eqn:Eb; [intros [= <- <-]; apply Hquiet; simpl; congruence|].
    intros ([b2 out2] & [Eo Ec]%Hseal & [= <- <-])%outcome_bind_ret. rewrite <-Eb.
    exists [current_batch b]. split; [done|]. simpl. by rewrite Ec, !app_nil_r.
Qed.

(** Every batch awaited is broadcast in the same iteration. *)
Lemma batch_step_broadcasts silent now b e o out m :
  batch_step benchmark batch_size max_batch_delay workers_addresses silent now b e = Ret (o, out) →
  m ∈ to_quorum_waiter out → BroadcastBatch workers_addresses.*2 (qw_batch m) ∈ out.
Proof.
  assert (Hseal : ∀ b b1 out, seal benchmark workers_addresses b = Ret (b1, out) →
    m ∈ to_quorum_waiter out → BroadcastBatch workers_addresses.*2 (qw_batch m) ∈ out).
  { clear. intros b b1 out. unfold seal. destruct benchmark; [destruct (tx_ids _)|]; simpl; try done;
      intros [= <- <-] ->%list_elem_of_singleton; left. }
  intros E Hm. destruct silent, e as [[[]|]|tx|]; simpl in E; try (injection E as <- <-; by apply elem_of_nil in Hm).
  - destruct (_ <=? _); [|injection E as <- <-; by apply elem_of_nil in Hm].
    apply outcome_bind_ret in E as ([b2 out2] & Es & [= <- <-]). by eapply Hseal.
  - destruct (current_batch b); [injection E as <- <-; by apply elem_of_nil in Hm|].
    apply outcome_bind_ret in E as ([b2 out2] & Es & [= <- <-]). by eapply Hseal.
Qed.

Lemma transactions_taken_cons e es : transactions_taken (e :: es) = transactions_taken [e] ++ transactions_taken es.
Proof. apply (omap_app _ [e]). Qed.

Lemma seals_app out out' batches batches' :
  seals out batches → seals out' batches' → seals (out ++ out') (batches ++ batches').
Proof.
  intros [Eo Ho] [Eo' Ho']. split; [|by apply Forall_app].
  unfold to_quorum_waiter in *. by rewrite omap_app, fmap_app, Eo, Eo'.
Qed.

Lemma bytes_of_le txs txs' : bytes_of txs' ≤ bytes_of (txs ++ txs').
Proof. rewrite bytes_of_app. lia. Qed.

Lemma batch_steps_spec es b :
  batch_ok b → bytes_of (current_batch b ++ transactions_taken es) < two64 →
  (benchmark = true → ∀ tx, tx ∈ current_batch b ++ transactions_taken es → tx ≠ []) →
  ∃ o out batches, steps b es = Ret (o, out) ∧ seals out batches ∧
    concat batches `prefix_of` current_batch b ++ transactions_taken es ∧
    ∀ b1, o = Some b1 → batch_ok b1 ∧ concat batches ++ current_batch b1 = current_batch b ++ transactions_taken es.
Proof.
  revert b. induction es as [|[[silent now] e] es IH]; intros b Hok Hbound Hne.
  { exists (Some b), [], []. split; [done|]. split; [by split|]. split; [apply prefix_nil|].
    intros b1 [= <-]. csimpl. by rewrite app_nil_r. }
  rewrite transactions_taken_cons in *. set (taken := transactions_taken [_]) in *.
  rewrite app_assoc in Hbound, Hne.
  destruct (batch_step_spec silent now b e) as (o & out & batches & Es & Hs & Ho); [done| |..]; fold taken.
  { rewrite bytes_of_app in Hbound. lia. }
  { intros Hb tx Hin. apply (Hne Hb). rewrite elem_of_app. by left. }
  fold taken in Ho. cbn [batch_steps]. rewrite Es. simpl. destruct Ho as [[-> ->]|(b1 & -> & Hok1 & Ec)].
  { exists None, out, []. split; [done|]. split; [done|]. split; [apply prefix_nil|done]. }
  rewrite app_assoc, <-Ec in *. rewrite <-app_assoc in *.
  destruct (IH b1) as (o & out' & batches' & Es' & Hs' & Hp & Hb); [done|rewrite bytes_of_app in Hbound; lia| |].
  { intros Hb tx Hin. apply (Hne Hb). rewrite elem_of_app. by right. }
  rewrite Es'. simpl. do 2 eexists. exists (batches ++ batches'). split; [done|]. split; [by apply seals_app|].
  rewrite concat_app. split; [by apply prefix_app|]. intros b2 ->. destruct (Hb b2 eq_refl) as [? Ec']. split; [done|].
  by rewrite <-app_assoc, Ec'.
Qed.
End batch_facts.

Section quorum_facts.
Variables (committee : Committee).

(** The loop delivers at the first acknowledgement that makes a quorum. *)
Lemma quorum_loop_spec total completed :
  total + sum_N (stake committee) completed < two32 →
  quorum_loop committee total completed = true ↔
    completed ≠ [] ∧ quorum_threshold committee ≤ total + sum_N (stake committee) completed.
Proof.
  revert total. induction completed as [|k completed IH]; intros total Hb; simpl in *; [naive_solver|].
  rewrite u32_add_small by lia. destruct (N.leb_spec (quorum_threshold committee) (total + stake committee k)) as [Hq|Hq].
  - split; [intros _|done]. split; [done|]. lia.
  - rewrite IH by lia. rewrite N.add_assoc. split; [naive_solver|]. intros [_ Hq']. split; [|done].
    intros ->. simpl in Hq'. lia.
Qed.

Lemma quorum_loop_stake name completed :
  small_stake committee → NoDup (name :: completed) →
  quorum_loop committee (stake committee name) completed = true ↔
    completed ≠ [] ∧ quorum_threshold committee ≤ stake_of committee ({[ name ]} ∪ list_to_set completed).
Proof.
  intros Hs Hnd. assert (Est : stake_of committee ({[ name ]} ∪ list_to_set completed) =
    stake committee name + sum_N (stake committee) completed).
  { apply (sum_set_list_to_set (stake committee) (name :: completed)) in Hnd. done. }
  pose proof (stake_of_total committee ({[ name ]} ∪ list_to_set completed)) as Ht. rewrite Est in *.
  apply quorum_loop_spec. unfold small_stake in Hs. lia.
Qed.
End quorum_facts.

Section watch_facts.
Context `{!Backend, !Bincode PrimaryWorkerMessage}.

(** The watch channel never goes back to an earlier round, and reaches every round received. *)
Lemma watch_monotone watch messages :
  watch.1 ≤ (dispatch_primary_messages watch messages).1 ∧
  ∀ m round silent, m ∈ messages → deserialize m = Ret (BatchSilent round silent) →
    round ≤ (dispatch_primary_messages watch messages).1.
Proof.
  revert watch. induction messages as [|m messages IH]; intros watch; cbn [dispatch_primary_messages]; [split; [done|set_solver]|].
  destruct (IH (dispatch_primary_message watch m).1) as [Hle Hin].
  assert (Hstep : watch.1 ≤ (dispatch_primary_message watch m).1.1 ∧
    ∀ round silent, deserialize m = Ret (BatchSilent round silent) → round ≤ (dispatch_primary_message watch m).1.1).
  { unfold dispatch_primary_message. destruct (deserialize m) as [[| |r b]| |]; try (split; [done|congruence]).
    destruct (N.leb_spec watch.1 r); simpl; (split; [lia|]); intros ?? [= -> ->]; lia. }
  split; [lia|]. intros m' round silent [->|?]%elem_of_cons E; [|by eapply Hin].
  destruct Hstep as [_ Hstep]. apply Hstep in E. lia.
Qed.
End watch_facts.

Section processor_facts.
Context `{!Sha512, !Backend, !Storage, !StorageLaws _, !Bincode WorkerPrimaryMessage}.

(** Under a digest there is a batch with that digest. *)
Definition batch_at (s : storage) (d : Digest) : Prop :=
  ∃ data, storage_read s (Digest_to_vec d) = Ret (Some data) ∧ hash_bytes data = d.

Lemma batch_at_write s d data : batch_at s d → batch_at (storage_write s (Digest_to_vec (hash_bytes data)) data) d.
Proof.
  intros (data' & E & Hd). destruct (decide (Digest_to_vec (hash_bytes data) = Digest_to_vec d)) as [Ed|Ed].
  - exists data. rewrite <-Ed, storage_read_write. split; [done|]. by apply Digest_to_vec_inj.
  - exists data'. by rewrite storage_read_write_ne.
Qed.

Lemma process_batches_spec s id own batches s' ms :
  process_batches s id own batches = (s', ms) →
  (∀ d, batch_at s d → batch_at s' d) ∧
  ms = (λ batch, serialize (if own then OurBatch (hash_bytes batch) id else OthersBatch (hash_bytes batch) id)) <$> batches ∧
  ∀ batch, batch ∈ batches → batch_at s' (hash_bytes batch).
Proof.
  revert s s' ms. induction batches as [|batch batches IH]; intros s s' ms; simpl.
  { intros [= <- <-]. split_and!; [auto|done|set_solver]. }
  destruct (process_batches _ _ _ _) as [s1 ms1] eqn:E. intros [= <- <-]. apply IH in E as (Hk & -> & Hb).
  split_and!; [by intros; apply Hk, batch_at_write|done|]. intros x [->|?]%elem_of_cons; [|auto].
  apply Hk. exists batch. by rewrite storage_read_write.
Qed.
End processor_facts.

(** ** Properties *)

Section properties.
Context `{!Sha512, !Backend, !Storage, !StorageLaws _, !Bincode WorkerMessage, !Bincode WorkerPrimaryMessage}.

(** C28: No transaction is lost, reordered or put in two batches: whatever iterations the batch maker goes
    through (as long as fewer than 2^64 bytes are taken and, in a benchmark build, no transaction is empty),
    it does not fail, and the batches it sends to the quorum waiter and then the current batch are the
    transactions it took, in order. No batch is empty, and a batch without its last transaction is below the
    batch size. *)
Theorem batches_conserved benchmark batch_size max_batch_delay addresses now es :
  bytes_of (transactions_taken es) < two64 →
  (benchmark = true → ∀ tx, tx ∈ transactions_taken es → tx ≠ []) →
  ∃ o out batches,
    batch_steps benchmark batch_size max_batch_delay addresses (BatchMaker_new max_batch_delay now) es = Ret (o, out) ∧
    to_quorum_waiter out = (λ txs, MkQuorumWaiterMessage (serialize (WMBatch txs)) addresses.*1) <$> batches ∧
    concat batches `prefix_of` transactions_taken es ∧
    (∀ b, o = Some b → concat batches ++ current_batch b = transactions_taken es) ∧
    ∀ txs, txs ∈ batches → ∃ front tx, txs = front ++ [tx] ∧ (front = [] ∨ bytes_of front < batch_size).
Proof.
  intros Hb Hne. destruct (batch_steps_spec benchmark batch_size max_batch_delay addresses es (BatchMaker_new max_batch_delay now))
    as (o & out & batches & Es & [Eo Ho] & Hp & Hl); [split; [done|by left]|done..|].
  exists o, out, batches. split_and!; [done..| |].
  - intros b1 E. by apply Hl.
  - by apply Forall_forall.
Qed.

(** In a benchmark build one empty transaction from a client ends the task: an empty transaction can be
    taken, and sealing the batch that has it indexes its first byte. *)
Theorem empty_transaction_panics batch_size max_batch_delay addresses b now now' :
  batch_steps true batch_size max_batch_delay addresses b
    [(false, now, TakeTransaction []); (false, now', BatchTimer)] = Panic.
Proof.
  cbn [batch_steps batch_step]. simpl. set (b1 := MkBatchMaker _ _ _).
  assert (Es : seal true addresses b1 = Panic).
  { unfold seal. simpl. rewrite tx_ids_panic; [done|]. simpl. apply elem_of_app. right. left. }
  destruct (_ <=? _); [by rewrite Es|]. simpl. rewrite Es. by destruct (current_batch b).
Qed.

(** C29: The quorum waiter forwards a batch exactly when another authority acknowledged it and the stakes of
    those that did make a quorum with that of the own authority. In a committee of which the own authority is
    a quorum by itself, with no other worker to broadcast to, no batch is ever forwarded. *)
Theorem quorum_waiter_spec committee name m completed :
  small_stake committee → NoDup (name :: completed) →
  quorum_wait committee (stake committee name) m completed =
    if decide (completed ≠ [] ∧ quorum_threshold committee ≤ stake_of committee ({[ name ]} ∪ list_to_set completed))
    then Some (qw_batch m) else None.
Proof.
  intros Hs Hnd. pose proof (quorum_loop_stake committee name completed Hs Hnd) as Hl. unfold quorum_wait.
  destruct (quorum_loop _ _ _), (decide (_ ∧ _)); naive_solver.
Qed.

(** Batches are stored before they are announced: after any run of the processor, every message to the
    primary announces the digest of a batch it processed, and the store has a batch with that digest under
    it; what the store had under other digests stays there. *)
Theorem announced_batches_stored s id own batches s' ms :
  process_batches s id own batches = (s', ms) →
  (∀ m, m ∈ ms → ∃ batch, batch ∈ batches ∧
     m = serialize (if own then OurBatch (hash_bytes batch) id else OthersBatch (hash_bytes batch) id) ∧
     batch_at s' (hash_bytes batch)) ∧
  ∀ d, batch_at s d → batch_at s' d.
Proof.
  intros (Hk & -> & Hb)%process_batches_spec. split; [|done].
  intros m (batch & -> & Hin)%list_elem_of_fmap. exists batch. auto.
Qed.
End properties.

(** ** Evaluation *)

Module SampleWorker.
Import Toy ToyBackend ToyBincode MapDB.

#[export] Program Instance worker_message_countable : Countable WorkerMessage :=
  inj_countable' (λ m, match m with WMBatch b => inl b | WMBatchRequest l k => inr (l, k) end)
    (λ m, match m with inl b => WMBatch b | inr (l, k) => WMBatchRequest l k end) _.
Next Obligation. by intros []. Qed.

#[export] Instance WorkerPrimaryMessage_eq_dec : EqDecision WorkerPrimaryMessage.
Proof. solve_decision. Defined.
#[export] Program Instance worker_primary_message_countable : Countable WorkerPrimaryMessage :=
  inj_countable' (λ m, match m with OurBatch d i => inl (d, i) | OthersBatch d i => inr (d, i) end)
    (λ m, match m with inl (d, i) => OurBatch d i | inr (d, i) => OthersBatch d i end) _.
Next Obligation. by intros []. Qed.

#[export] Instance worker_message_bincode : Bincode WorkerMessage := toy_bincode WorkerMessage x04.
#[export] Instance worker_primary_message_bincode : Bincode WorkerPrimaryMessage := toy_bincode WorkerPrimaryMessage x05.
#[export] Instance worker_primary_message_laws : BincodeLaws WorkerPrimaryMessage := toy_bincode_laws _ _.

(** Three transactions fill a batch of five bytes, the timer seals a fourth. *)
Definition txs : list (list byte) := [[x00; x01]; [x01; x01]; [x01; x02]; [x01; x03]].
Definition events : list (bool * N * BatchEvent) :=
  [(false, 1, TakeTransaction [x00; x01]); (false, 2, TakeTransaction [x01; x01]); (true, 2, SilentChanged (Some false));
   (false, 3, TakeTransaction [x01; x02]); (false, 4, TakeTransaction [x01; x03]); (false, 104, BatchTimer)].
Definition addresses : list (PublicKey * SocketAddr) := [(pk 2, Sample.address 1013)].

(** A batch as the [BatchMaker] sends it. *)
Definition batch_1 : list byte := serialize (WMBatch [[x00; x01]]).

Definition empty_store : storage := StoreTask_new.
End SampleWorker.

Section witnesses.
Import Toy ToyBackend ToyBincode MapDB SampleWorker.

Lemma batches_conserved_witness :
  transactions_taken events = txs ∧
  ∃ o out batches,
    batch_steps true 5 100 addresses (BatchMaker_new 100 0) events = Ret (o, out) ∧
    to_quorum_waiter out = (λ txs, MkQuorumWaiterMessage (serialize (WMBatch txs)) addresses.*1) <$> batches ∧
    concat batches `prefix_of` transactions_taken events ∧
    (∀ b, o = Some b → concat batches ++ current_batch b = transactions_taken events) ∧
    ∀ txs, txs ∈ batches → ∃ front tx, txs = front ++ [tx] ∧ (front = [] ∨ bytes_of front < 5).
Proof.
  split; [reflexivity|]. apply (batches_conserved true 5 100 addresses 0 events); [reflexivity|].
  intros _ tx. cbn. rewrite !elem_of_cons, elem_of_nil. intros Hin. destruct_or! Hin; subst; done.
Defined.

Lemma quorum_waiter_spec_witness :
  quorum_wait Sample.committee (stake Sample.committee (pk 1)) (MkQuorumWaiterMessage batch_1 [pk 2; pk 3; pk 4]) [pk 3; pk 2] =
    if decide ([pk 3; pk 2] ≠ [] ∧ quorum_threshold Sample.committee ≤
      stake_of Sample.committee ({[ pk 1 ]} ∪ list_to_set [pk 3; pk 2])) then Some batch_1 else None.
Proof.
  apply (quorum_waiter_spec Sample.committee (pk 1) (MkQuorumWaiterMessage batch_1 [pk 2; pk 3; pk 4]) [pk 3; pk 2]).
  - vm_compute. reflexivity.
  - apply (bool_decide_unpack _). vm_compute. exact I.
Defined.

Lemma announced_batches_stored_witness :
  (∀ m, m ∈ (process_batches empty_store 0 true [batch_1]).2 → ∃ batch, batch ∈ [batch_1] ∧
     m = serialize (if true then OurBatch (hash_bytes batch) 0 else OthersBatch (hash_bytes batch) 0) ∧
     batch_at (process_batches empty_store 0 true [batch_1]).1 (hash_bytes batch)) ∧
  ∀ d, batch_at empty_store d → batch_at (process_batches empty_store 0 true [batch_1]).1 d.
Proof.
  apply (announced_batches_stored empty_store 0 true [batch_1]). apply surjective_pairing.
Defined.
End witnesses.
