(* ===== verification/WorkerSync.v ===== *)
(** The synchronizer of the worker ([src/worker/src/synchronizer.rs]): it asks other workers for the batches
    the primary misses, and waits for them in a pool of cancellable waiters ([Pool]). *)

From S2P Require Import Prelude Crypto Config Messages Store Primary Pool Worker.

(** ** State *)

Record WorkerSynchronizer := MkWorkerSynchronizer {
  ws_round : Round;
  ws_pool : Pool (Round * N) ()
}.

Definition WorkerSynchronizer_new : WorkerSynchronizer := MkWorkerSynchronizer 0 pool_new.

Inductive SyncOutput :=
| SendBatchRequest (address : SocketAddr) (m : WorkerMessage)
| LuckyBatchRequest (addresses : list SocketAddr) (m : WorkerMessage) (nodes : N).

(** The branches of [select!]: a message of the primary at an instant, the result of the [i]-th waiter, or the
    timer. *)
Inductive SyncEvent `{Backend} :=
| SyncMessage (m : PrimaryWorkerMessage) (now : N)
| SyncDone (i : nat) (r : outcome StoreError (option Digest))
| SyncTimer (now : N).

Section synchronizer.
Context `{!Sha512, !Backend, !Storage}.
Variables (name : PublicKey) (id : WorkerId) (committee : Committee) (gc_depth : Round).
Variables (sync_retry_delay sync_retry_nodes : N).
Implicit Types (ws : WorkerSynchronizer) (out : list SyncOutput) (e : SyncEvent).

(** [for digest in digests]: the pool and the digests to ask for. *)
Fixpoint synchronize_loop (s : storage) (entry : Round * N) (digests : list Digest) (pool : Pool (Round * N) ())
    (missing : list Digest) : Pool (Round * N) () * list Digest :=
  match digests with
  | [] => (pool, missing)
  | digest :: digests =>
      match pending pool !! digest with
      | Some _ => synchronize_loop s entry digests pool missing
      | None =>
          let wait := pool_insert digest entry () pool in
          match storage_read s (Digest_to_vec digest) with
          | Ret None => synchronize_loop s entry digests wait (missing ++ [digest])
          | Ret (Some _) => synchronize_loop s entry digests wait missing
          | _ => synchronize_loop s entry digests pool missing
          end
      end
  end.

Definition synchronize (s : storage) ws (digests : list Digest) (target : PublicKey) (now : N) :
    WorkerSynchronizer * list SyncOutput :=
  let '(pool, missing) := synchronize_loop s (ws_round ws, now) digests (ws_pool ws) [] in
  (MkWorkerSynchronizer (ws_round ws) pool,
   match worker committee target id with
   | Ret address => [SendBatchRequest (worker_to_worker address) (WMBatchRequest missing name)]
   | _ => []
   end).

Definition sync_cleanup ws (round : Round) : WorkerSynchronizer :=
  if round <? gc_depth then MkWorkerSynchronizer round (ws_pool ws)
  else MkWorkerSynchronizer round (pool_retain (λ v, round - gc_depth <? v.1) (ws_pool ws)).

Definition retry_batches ws (now : N) : list SyncOutput :=
  let retry := (filter (λ e : Digest * (Round * N), e.2.2 + sync_retry_delay < now) (map_to_list (pending (ws_pool ws)))).*1 in
  match retry with
  | [] => []
  | _ => [LuckyBatchRequest ((λ x, worker_to_worker x.2) <$> others_workers committee name id)
            (WMBatchRequest retry name) sync_retry_nodes]
  end.

(** One iteration of [Synchronizer::run], on the store as it is. *)
Definition sync_step (s : storage) ws e : WorkerSynchronizer * list SyncOutput :=
  match e with
  | SyncMessage (Synchronize digests target) now => synchronize s ws digests target now
  | SyncMessage (Cleanup round) _ => (sync_cleanup ws round, [])
  | SyncMessage (BatchSilent _ _) _ => (ws, [])
  | SyncDone i (Ret (Some digest)) => (MkWorkerSynchronizer (ws_round ws) (pool_remove digest (pool_pop i (ws_pool ws))), [])
  | SyncDone i _ => (MkWorkerSynchronizer (ws_round ws) (pool_pop i (ws_pool ws)), [])
  | SyncTimer now => (ws, retry_batches ws now)
  end.

(** ** Facts *)

Context `{!StorageLaws _}.

(** Every waiter relates to every entry: it only holds its digest. *)
Definition any_entry (_ : Digest) (_ : Round * N) (_ : ()) : Prop := True.

(** What can happen with the store as it is. *)
Definition sync_enabled (s : storage) ws e : Prop :=
  match e with
  | SyncDone i r => ∃ d c, waiting (ws_pool ws) !! i = Some (d, (), c) ∧
      (stored s (Digest_to_vec d) ∧ r = Ret (Some d) ∨ c = true ∧ r = Ret None)
  | _ => True
  end.

Inductive sync_reach : WorkerSynchronizer → Prop :=
| sync_start : sync_reach WorkerSynchronizer_new
| sync_steps ws s e : sync_reach ws → sync_enabled s ws e → sync_reach (sync_step s ws e).1.

Lemma synchronize_loop_spec s entry digests pool missing :
  pool_ok any_entry pool →
  let r := synchronize_loop s entry digests pool missing in
  pool_ok any_entry r.1 ∧
  (∀ d, is_Some (pending r.1 !! d) ↔ is_Some (pending pool !! d) ∨ d ∈ digests) ∧
  ∃ new, r.2 = missing ++ new ∧ NoDup new ∧
    ∀ d, d ∈ new ↔ d ∈ digests ∧ pending pool !! d = None ∧ ¬ stored s (Digest_to_vec d).
Proof.
  revert pool missing. induction digests as [|d digests IH]; intros pool missing Hok; simpl.
  { split; [done|]. split; [set_solver|]. exists []. rewrite app_nil_r. split; [done|]. split; [constructor|set_solver]. }
  destruct (pending pool !! d) as [v|] eqn:Ed.
  { destruct (IH pool missing Hok) as (Hp & Hd & new & E & Hn & Hnew). split; [done|]. split.
    - intros d'. rewrite Hd, elem_of_cons. split; [naive_solver|]. intros [?|[->|?]]; eauto.
    - exists new. split; [done|]. split; [done|]. intros d'. rewrite Hnew, elem_of_cons. naive_solver. }
  assert (Hok' : pool_ok any_entry (pool_insert d entry () pool)) by (by apply pool_insert_ok).
  assert (Hpend : ∀ d' : Digest, is_Some (pending (pool_insert d entry () pool) !! d') ↔ is_Some (pending pool !! d') ∨ d' = d).
  { intros d'. simpl. destruct (decide (d = d')) as [->|?]; [rewrite lookup_insert_eq|rewrite lookup_insert_ne by done];
      split; eauto; naive_solver. }
  assert (Hnone : ∀ d' : Digest, pending (pool_insert d entry () pool) !! d' = None ↔ pending pool !! d' = None ∧ d' ≠ d).
  { intros d'. rewrite !eq_None_not_Some, Hpend. tauto. }
  assert (Hs : match storage_read s (Digest_to_vec d) with Ret (Some _) => stored s (Digest_to_vec d) | _ => ¬ stored s (Digest_to_vec d) end).
  { unfold stored. destruct (storage_read_total s (Digest_to_vec d)) as [[v|] ->]; [by eexists|]. by intros [? ?]. }
  destruct (storage_read_total s (Digest_to_vec d)) as [[v|] Er]; rewrite Er in *.
  - destruct (IH _ missing Hok') as (Hp & Hd & new & E & Hn & Hnew). split; [done|]. split.
    + intros d'. rewrite Hd, Hpend, elem_of_cons. tauto.
    + exists new. split; [done|]. split; [done|]. intros d'. rewrite Hnew, Hnone, elem_of_cons. naive_solver.
  - destruct (IH _ (missing ++ [d]) Hok') as (Hp & Hd & new & E & Hn & Hnew). split; [done|]. split.
    + intros d'. rewrite Hd, Hpend, elem_of_cons. tauto.
    + exists (d :: new). rewrite <-app_assoc in E. split; [done|]. split.
      * constructor; [|done]. rewrite Hnew, Hnone. naive_solver.
      * intros d'. rewrite !elem_of_cons, Hnew, Hnone. destruct (decide (d' = d)) as [->|]; naive_solver.
Qed.

Lemma sync_step_ok s ws e :
  pool_ok any_entry (ws_pool ws) → sync_enabled s ws e → pool_ok any_entry (ws_pool (sync_step s ws e).1).
Proof.
  intros Hok He. destruct e as [[digests target|round|round silent] now|i r|now]; simpl in *; try done.
  - unfold synchronize. pose proof (synchronize_loop_spec s (ws_round ws, now) digests (ws_pool ws) [] Hok) as [Hp _].
    by destruct (synchronize_loop _ _ _ _ _).
  - unfold sync_cleanup. destruct (round <? gc_depth); simpl; [done|by apply pool_retain_ok].
  - destruct He as (d & c & E & [[_ ->]|[-> ->]]); simpl; [by eapply pool_deliver_ok|by eapply pool_pop_ok].
Qed.

Lemma sync_reach_ok ws : sync_reach ws → pool_ok any_entry (ws_pool ws).
Proof. induction 1; [apply pool_new_ok|by apply sync_step_ok]. Qed.
End synchronizer.

(** ** Properties *)

(** A batch the primary asks for is waited for and requested once. In every reachable state, when the
    primary asks for batches of a known worker, all of them are pending afterwards, and the request sent names
    exactly those that were not pending before and are not in the store, each once; and every pending batch
    has a waiter that is not cancelled, which frees the entry as soon as the batch is in the store. *)
Theorem batches_requested_once `{!Sha512, !Backend, !Storage, !StorageLaws _}
    name id committee gc_depth sync_retry_delay sync_retry_nodes ws s digests target address now :
  sync_reach name id committee gc_depth sync_retry_delay sync_retry_nodes ws →
  worker committee target id = Ret address →
  let step := sync_step name id committee gc_depth sync_retry_delay sync_retry_nodes in
  (∃ ws' missing, step s ws (SyncMessage (Synchronize digests target) now) =
      (ws', [SendBatchRequest (worker_to_worker address) (WMBatchRequest missing name)]) ∧
    (∀ d, d ∈ digests → is_Some (pending (ws_pool ws') !! d)) ∧
    NoDup missing ∧
    ∀ d, d ∈ missing ↔ d ∈ digests ∧ pending (ws_pool ws) !! d = None ∧ ¬ stored s (Digest_to_vec d)) ∧
  ∀ d, is_Some (pending (ws_pool ws) !! d) →
    ∃ i, waiting (ws_pool ws) !! i = Some (d, (), false) ∧
      (stored s (Digest_to_vec d) → sync_enabled s ws (SyncDone i (Ret (Some d)))) ∧
      pending (ws_pool (step s ws (SyncDone i (Ret (Some d)))).1) !! d = None.
Proof.
  intros Hr Ew step. apply sync_reach_ok in Hr; [|apply _]. split.
  - destruct (synchronize_loop_spec s (ws_round ws, now) digests (ws_pool ws) [] Hr) as (_ & Hd & new & E & Hn & Hnew).
    unfold step. simpl. unfold synchronize. destruct (synchronize_loop _ _ _ _ _) as [pool missing]. simpl in *. subst missing.
    rewrite Ew. exists (MkWorkerSynchronizer (ws_round ws) pool), new. split; [done|]. split; [|done]. intros d ?. simpl. apply Hd. by right.
  - intros d [v Hv]. destruct (pool_entry _ _ Hr _ _ Hv) as ([] & Hin & _). apply list_elem_of_lookup in Hin as [i Hi].
    exists i. split; [done|]. split; [intros ?; exists d, false; auto|]. apply lookup_delete_eq.
Qed.

Section witnesses.
Import Toy ToyBackend MapDB SampleWorker.

Lemma batches_requested_once_witness :
  ∃ ws' missing,
    sync_step (pk 1) 0 Sample.committee 50 5000 3 empty_store WorkerSynchronizer_new
        (SyncMessage (Synchronize [dg 5; dg 5; dg 6] (pk 2)) 7) =
      (ws', [SendBatchRequest (Sample.address 1013) (WMBatchRequest missing (pk 1))]) ∧
    (∀ d, d ∈ [dg 5; dg 5; dg 6] → is_Some (pending (ws_pool ws') !! d)) ∧ NoDup missing ∧
    ∀ d, d ∈ missing ↔ d ∈ [dg 5; dg 5; dg 6] ∧
      pending (ws_pool WorkerSynchronizer_new) !! d = None ∧ ¬ stored empty_store (Digest_to_vec d).
Proof.
  apply (batches_requested_once (pk 1) 0 Sample.committee 50 5000 3 WorkerSynchronizer_new empty_store [dg 5; dg 5; dg 6] (pk 2)
    (MkWorkerAddresses (Sample.address 1012) (Sample.address 1013) (Sample.address 1014)) 7).
  - apply sync_start.
  - vm_compute. reflexivity.
Defined.
End witnesses.
