(* ===== verification/WorkerNode.v ===== *)
(** A worker node: the tasks that [Worker::spawn] ([src/worker/src/worker.rs]) starts, the channels between
    them, the store they share and the watch channel with the silence of the primary.

    A step is an iteration of one task; the [BatchMaker] reads the watch channel at the head of its loop apart
    from [select!], since the value can change in between. Any task that can take a step may be the next; the
    run is the list of these choices, and its log says what each step took and what it sent. A run ends with
    the first task that panics. The channels are not bounded. *)

From S2P Require Import Prelude Channels Crypto Config Messages Store Primary Pool Worker WorkerSync.

(** ** Channels *)

Inductive WorkerChannel :=
| Digests | Commands | Transactions | SealedBatches | OwnBatches | BatchRequests | OthersBatches.

#[export] Instance WorkerChannel_eq_dec : EqDecision WorkerChannel.
Proof. solve_decision. Defined.

(** What is sent on them. *)
Inductive WorkerInternal :=
| OnDigests (message : list byte)
| OnCommands (m : PrimaryWorkerMessage)
| OnTransactions (transaction : Transaction)
| OnSealedBatches (m : QuorumWaiterMessage)
| OnOwnBatches (batch : list byte)
| OnBatchRequests (missing : list Digest) (requestor : PublicKey)
| OnOthersBatches (batch : list byte).

#[export] Instance worker_channelled : Channelled WorkerInternal WorkerChannel := λ m,
  match m with
  | OnDigests _ => Digests
  | OnCommands _ => Commands
  | OnTransactions _ => Transactions
  | OnSealedBatches _ => SealedBatches
  | OnOwnBatches _ => OwnBatches
  | OnBatchRequests _ _ => BatchRequests
  | OnOthersBatches _ => OthersBatches
  end.

(** ** State *)

(** [wn_changed] says that the watch channel has a value the [BatchMaker] has not seen, and [wn_reading] is
    what it read at the head of its loop when it is past it. *)
Record WorkerNode `{!Backend, !Storage} := MkWorkerNode {
  wn_store : storage;
  wn_batch_maker : BatchMaker;
  wn_silent : Round * bool;
  wn_changed : bool;
  wn_reading : option bool;
  wn_synchronizer : WorkerSynchronizer;
  wn_in_flight : list WorkerInternal
}.
Arguments MkWorkerNode {_ _} _ _ _ _ _ _ _.

(** Who takes the next step, with what the environment decides: the bytes of clients, of other workers and of
    the primary, the clock, the handlers that complete in an iteration of the [QuorumWaiter], and the waiter
    of the [Synchronizer] that completes. *)
Inductive WorkerAction :=
| ClientSends (message : list byte)
| WorkerSends (serialized : list byte)
| PrimarySends (serialized : list byte)
| BatchMakerReads
| BatchMakerChanges (now : N)
| BatchMakerTakes (now : N)
| BatchMakerTimer (now : N)
| QuorumWaiterWaits (completed : list PublicKey)
| ProcessorTakes (own_digest : bool)
| ConnectorTakes
| WorkerHelperTakes
| SynchronizerTakes (now : N)
| SynchronizerCompletes (i : nat) (cancelled : bool)
| SynchronizerRetries (now : N).

(** What a step did. *)
Inductive WorkerEntry `{!Backend} :=
| WDispatch (out : list WorkerDispatch)
| WRead (silent : bool)
| WBatch (silent : bool) (now : N) (e : BatchEvent) (out : list BatchOutput)
| WQuorum (m : QuorumWaiterMessage) (completed : list PublicKey) (delivered : option (list byte))
| WProcess (own_digest : bool) (batch : list byte) (message : list byte)
| WConnect (message : list byte) (sent : list (SocketAddr * list byte))
| WHelper (missing : list Digest) (requestor : PublicKey) (sent : list (SocketAddr * list byte))
| WSync (e : SyncEvent) (out : list SyncOutput).

Section entries.
Context `{!Backend}.

(** The message a step took from a channel. *)
Definition worker_taken (e : WorkerEntry) : option WorkerInternal :=
  match e with
  | WBatch _ _ (TakeTransaction transaction) _ => Some (OnTransactions transaction)
  | WQuorum m _ _ => Some (OnSealedBatches m)
  | WProcess true batch _ => Some (OnOwnBatches batch)
  | WProcess false batch _ => Some (OnOthersBatches batch)
  | WConnect message _ => Some (OnDigests message)
  | WHelper missing requestor _ => Some (OnBatchRequests missing requestor)
  | WSync (SyncMessage m _) _ => Some (OnCommands m)
  | _ => None
  end.

(** The messages a step sent on channels. *)
Definition worker_dispatched (d : WorkerDispatch) : option WorkerInternal :=
  match d with
  | ToBatchMaker transaction => Some (OnTransactions transaction)
  | ToProcessor serialized => Some (OnOthersBatches serialized)
  | ToWorkerHelper missing requestor => Some (OnBatchRequests missing requestor)
  | ToWorkerSynchronizer m => Some (OnCommands m)
  | ToWatch _ | WAck => None
  end.

Definition worker_sent (e : WorkerEntry) : list WorkerInternal :=
  match e with
  | WDispatch out => omap worker_dispatched out
  | WBatch _ _ _ out => OnSealedBatches <$> to_quorum_waiter out
  | WQuorum _ _ delivered => OnOwnBatches <$> option_list delivered
  | WProcess _ _ message => [OnDigests message]
  | _ => []
  end.
End entries.

(** ** Steps *)

Section worker_node.
Context `{!Sha512, !Backend, !Storage}.
Context `{!Bincode WorkerMessage, !Bincode PrimaryWorkerMessage, !Bincode WorkerPrimaryMessage}.
Variables (name : PublicKey) (id : WorkerId) (committee : Committee) (parameters : Parameters) (benchmark : bool).
Variable primary_address : SocketAddr.
Implicit Types (n : WorkerNode) (q : list WorkerInternal) (m : WorkerInternal).

Definition set_wn_store f n := MkWorkerNode (f (wn_store n)) (wn_batch_maker n) (wn_silent n) (wn_changed n)
  (wn_reading n) (wn_synchronizer n) (wn_in_flight n).
Definition set_wn_silent v b n := MkWorkerNode (wn_store n) (wn_batch_maker n) v b
  (wn_reading n) (wn_synchronizer n) (wn_in_flight n).
Definition set_wn_reading o n := MkWorkerNode (wn_store n) (wn_batch_maker n) (wn_silent n) (wn_changed n)
  o (wn_synchronizer n) (wn_in_flight n).
Definition set_wn_batch_maker b n := MkWorkerNode (wn_store n) b (wn_silent n) (wn_changed n)
  (wn_reading n) (wn_synchronizer n) (wn_in_flight n).
Definition set_wn_synchronizer ws n := MkWorkerNode (wn_store n) (wn_batch_maker n) (wn_silent n) (wn_changed n)
  (wn_reading n) ws (wn_in_flight n).
Definition set_wn_in_flight q n := MkWorkerNode (wn_store n) (wn_batch_maker n) (wn_silent n) (wn_changed n)
  (wn_reading n) (wn_synchronizer n) q.

(** The addresses a batch is broadcast to. *)
Definition workers_addresses : list (PublicKey * SocketAddr) :=
  (λ x, (x.1, worker_to_worker x.2)) <$> others_workers committee name id.

(** A branch of the [select!] of the batch maker, which then starts its next iteration. *)
Definition batch_maker_do n (now : N) (e : BatchEvent) : option (WorkerNode * WorkerEntry) :=
  silent ← wn_reading n;
  match batch_step benchmark (batch_size parameters) (max_batch_delay parameters) workers_addresses silent now
          (wn_batch_maker n) e with
  | Ret (Some b, out) => Some (set_wn_reading None (set_wn_batch_maker b n), WBatch silent now e out)
  | _ => None
  end.

(** The loop of the quorum waiter ends at a quorum, or when all handlers have completed. *)
Definition quorum_wait_ends (m : QuorumWaiterMessage) (completed : list PublicKey) : bool :=
  bool_decide (completed ⊆+ qw_handlers m) &&
  (quorum_loop committee (stake committee name) completed || bool_decide (length completed = length (qw_handlers m))).

Definition synchronizer_do n e : WorkerNode * WorkerEntry :=
  let '(ws, out) := sync_step name id committee (gc_depth parameters) (sync_retry_delay parameters)
    (sync_retry_nodes parameters) (wn_store n) (wn_synchronizer n) e in
  (set_wn_synchronizer ws n, WSync e out).

Definition processor_do n (own_digest : bool) (batch : list byte) : WorkerNode * WorkerEntry :=
  let '(s, message) := process_batch (wn_store n) id own_digest batch in
  (set_wn_store (λ _, s) n, WProcess own_digest batch message).

(** A step on a message taken from a channel, on the node without the message. *)
Definition worker_take n m (now : N) (completed : list PublicKey) : option (WorkerNode * WorkerEntry) :=
  match m with
  | OnTransactions transaction =>
      if decide (wn_reading n = Some false) then batch_maker_do n now (TakeTransaction transaction) else None
  | OnSealedBatches m =>
      if quorum_wait_ends m completed then
        Some (n, WQuorum m completed (quorum_wait committee (stake committee name) m completed))
      else None
  | OnOwnBatches batch => Some (processor_do n true batch)
  | OnOthersBatches batch => Some (processor_do n false batch)
  | OnDigests message => Some (n, WConnect message (connect_primary primary_address [message]))
  | OnBatchRequests missing requestor =>
      Some (n, WHelper missing requestor (reply id committee (wn_store n) missing requestor))
  | OnCommands m => Some (synchronizer_do n (SyncMessage m now))
  end.

Definition worker_take_from n (k : WorkerChannel) (now : N) (completed : list PublicKey) :
    option (WorkerNode * WorkerEntry) :=
  '(m, q) ← recv k (wn_in_flight n);
  worker_take (set_wn_in_flight q n) m now completed.

(** A value was sent on the watch channel. *)
Definition watch_sent (out : list WorkerDispatch) : bool :=
  existsb (λ d, match d with ToWatch _ => true | _ => false end) out.

Definition worker_act n (a : WorkerAction) : option (WorkerNode * WorkerEntry) :=
  match a with
  | ClientSends message => Some (n, WDispatch (dispatch_transaction message))
  | WorkerSends serialized => Some (n, WDispatch (dispatch_worker_message serialized))
  | PrimarySends serialized =>
      let '(silent, out) := dispatch_primary_message (wn_silent n) serialized in
      Some (set_wn_silent silent (wn_changed n || watch_sent out) n, WDispatch out)
  | BatchMakerReads =>
      match wn_reading n with
      | None => Some (set_wn_reading (Some (wn_silent n).2) n, WRead (wn_silent n).2)
      | Some _ => None
      end
  | BatchMakerChanges now =>
      if wn_changed n then batch_maker_do (set_wn_silent (wn_silent n) false n) now (SilentChanged (Some (wn_silent n).2))
      else None
  | BatchMakerTakes now => worker_take_from n Transactions now []
  | BatchMakerTimer now =>
      if decide (wn_reading n = Some false) then
        if batch_deadline (wn_batch_maker n) <=? now then batch_maker_do n now BatchTimer else None
      else None
  | QuorumWaiterWaits completed => worker_take_from n SealedBatches 0 completed
  | ProcessorTakes true => worker_take_from n OwnBatches 0 []
  | ProcessorTakes false => worker_take_from n OthersBatches 0 []
  | ConnectorTakes => worker_take_from n Digests 0 []
  | WorkerHelperTakes => worker_take_from n BatchRequests 0 []
  | SynchronizerTakes now => worker_take_from n Commands now []
  | SynchronizerCompletes i cancelled =>
      '(digest, _, c) ← waiting (ws_pool (wn_synchronizer n)) !! i;
      if cancelled then
        if c : bool then Some (synchronizer_do n (SyncDone i (Ret None))) else None
      else
        match storage_read (wn_store n) (Digest_to_vec digest) with
        | Ret (Some _) => Some (synchronizer_do n (SyncDone i (Ret (Some digest))))
        | _ => None
        end
  | SynchronizerRetries now => Some (synchronizer_do n (SyncTimer now))
  end.

(** A step: [None] when the task has nothing to take, or when it panics. *)
Definition worker_step n (a : WorkerAction) : option (WorkerNode * WorkerEntry) :=
  '(n, e) ← worker_act n a;
  Some (set_wn_in_flight (wn_in_flight n ++ worker_sent e) n, e).

Definition worker_run : WorkerNode → list WorkerAction → option (WorkerNode * list WorkerEntry) :=
  run_steps worker_step.
End worker_node.

(** [Worker::spawn], at an instant: the node, and the address of its primary. It panics when the worker or its
    primary are not in the committee. *)
Definition worker_spawn `{!Backend, !Storage} (name : PublicKey) (id : WorkerId) (committee : Committee)
    (parameters : Parameters) (s : storage) (now : N) : outcome unit (WorkerNode * SocketAddr) :=
  match worker committee name id, Config.primary committee name with
  | Ret _, Ret primary =>
      Ret (MkWorkerNode s (BatchMaker_new (max_batch_delay parameters) now) (0, false) false None
             WorkerSynchronizer_new [], worker_to_primary primary)
  | _, _ => Panic
  end.
