(* ===== verification/WorkerNodeFacts.v ===== *)
(** A worker node: its tasks run as their own models say, and what it announces to its primary is stored, and
    backed by a quorum when it is its own. *)

From S2P Require Import Prelude Channels Crypto Config Messages Store Primary Pool Worker WorkerSync WorkerNode.

Section facts.
Context `{!Sha512, !Backend, !Storage}.
Context `{!Bincode WorkerMessage, !Bincode PrimaryWorkerMessage, !Bincode WorkerPrimaryMessage}.
Variables (name : PublicKey) (id : WorkerId) (committee : Committee) (parameters : Parameters) (benchmark : bool).
Variable primary_address : SocketAddr.
Implicit Types (n : WorkerNode) (q : list WorkerInternal) (log : list WorkerEntry) (batches : list Batch).

Notation worker_act := (worker_act name id committee parameters benchmark primary_address).
Notation worker_step := (worker_step name id committee parameters benchmark primary_address).
Notation worker_run := (worker_run name id committee parameters benchmark primary_address).
Notation worker_take := (worker_take name id committee parameters benchmark primary_address).
Notation workers_addresses := (workers_addresses name id committee).
Notation batch_steps := (batch_steps benchmark (batch_size parameters) (max_batch_delay parameters) workers_addresses).

(** ** What a step does to the node *)

(** One case for each kind of entry: the parts of the node that change, but for the messages in flight. *)
Inductive worked n : WorkerEntry → WorkerNode → Prop :=
| worked_dispatch out v b :
    (∀ data, ToProcessor data ∈ out → ∃ batch, deserialize data = Ret (WMBatch batch)) →
    worked n (WDispatch out) (set_wn_silent v b n)
| worked_read silent o : worked n (WRead silent) (set_wn_reading o n)
| worked_batch silent now e b out v c :
    batch_step benchmark (batch_size parameters) (max_batch_delay parameters) workers_addresses silent now
      (wn_batch_maker n) e = Ret (Some b, out) →
    (∀ transaction, e = TakeTransaction transaction → silent = false) →
    worked n (WBatch silent now e out) (set_wn_reading None (set_wn_batch_maker b (set_wn_silent v c n)))
| worked_quorum m completed :
    quorum_wait_ends name committee m completed = true →
    worked n (WQuorum m completed (quorum_wait committee (stake committee name) m completed)) n
| worked_process own batch :
    worked n (WProcess own batch (process_batch (wn_store n) id own batch).2)
      (set_wn_store (λ _, (process_batch (wn_store n) id own batch).1) n)
| worked_connect message : worked n (WConnect message (connect_primary primary_address [message])) n
| worked_helper missing requestor : worked n (WHelper missing requestor (reply id committee (wn_store n) missing requestor)) n
| worked_sync e ws out : worked n (WSync e out) (set_wn_synchronizer ws n).

Lemma set_wn_silent_same n : set_wn_silent (wn_silent n) (wn_changed n) n = n.
Proof. by destruct n. Qed.

Lemma batch_maker_do_worked n now e n' entry v b :
  batch_maker_do name id committee parameters benchmark (set_wn_silent v b n) now e = Some (n', entry) →
  (∀ transaction, e = TakeTransaction transaction → wn_reading n = Some false) →
  worked n entry n' ∧ ∃ silent out, entry = WBatch silent now e out.
Proof.
  unfold batch_maker_do. simpl. destruct (wn_reading n) as [silent|]; [|done]. simpl.
  destruct (batch_step _ _ _ _ _ _ _ _) as [[[b'|] out]| |] eqn:E; [|done..]. intros [= <- <-] Ht.
  split; [|by do 2 eexists]. constructor; [exact E|]. intros tx Ee. by specialize (Ht tx Ee) as [= ->].
Qed.

Lemma synchronizer_do_worked n e :
  let r := synchronizer_do name id committee parameters n e in worked n r.2 r.1 ∧ ∃ out, r.2 = WSync e out.
Proof.
  unfold synchronizer_do. destruct (sync_step _ _ _ _ _ _ _ _ _) as [ws out]. split; [constructor|by eexists].
Qed.

Lemma processor_do_worked n own batch :
  let r := processor_do id n own batch in worked n r.2 r.1 ∧ ∃ message, r.2 = WProcess own batch message.
Proof.
  unfold processor_do. pose proof (worked_process n own batch) as Hw.
  destruct (process_batch _ _ _ _) as [s message]. split; [exact Hw|by eexists].
Qed.

Lemma worker_take_worked n m now completed n' e :
  worker_take n m now completed = Some (n', e) → worked n e n' ∧ worker_taken e = Some m.
Proof.
  destruct m as [message|m|tx|m|batch|ds requestor|batch]; simpl; intros E.
  - injection E as <- <-. split; [constructor|done].
  - destruct (synchronizer_do_worked n (SyncMessage m now)) as [Hw [out Eo]].
    destruct (synchronizer_do _ _ _ _ _ _). simplify_eq/=. done.
  - case_decide as Hr; [|done]. rewrite <-(set_wn_silent_same n) in E.
    apply batch_maker_do_worked in E as [Hw (s & out & ->)]; done.
  - destruct (quorum_wait_ends _ _ _ _) eqn:Eq; [|done]. injection E as <- <-. split; [by constructor|done].
  - destruct (processor_do_worked n true batch) as [Hw [message Em]]. destruct (processor_do _ _ _ _). by simplify_eq/=.
  - injection E as <- <-. split; [constructor|done].
  - destruct (processor_do_worked n false batch) as [Hw [message Em]]. destruct (processor_do _ _ _ _). by simplify_eq/=.
Qed.

(** What a receiver forwards to the processor is a batch. *)
Lemma dispatch_transaction_batches message data : ToProcessor data ∉ dispatch_transaction message.
Proof. by intros ?%list_elem_of_singleton. Qed.

Lemma dispatch_worker_batches serialized data :
  ToProcessor data ∈ dispatch_worker_message serialized → ∃ batch, deserialize data = Ret (WMBatch batch).
Proof.
  unfold dispatch_worker_message. destruct (deserialize serialized) as [[batch|ds k]| |] eqn:E;
    rewrite ?elem_of_cons, elem_of_nil; naive_solver.
Qed.

Lemma dispatch_primary_batches v serialized data : ToProcessor data ∉ (dispatch_primary_message v serialized).2.
Proof.
  unfold dispatch_primary_message. destruct (deserialize serialized) as [[| |r b]| |]; [..|destruct (_ <=? _)| |];
    simpl; rewrite ?elem_of_cons, elem_of_nil; naive_solver.
Qed.

(** A step takes at most one message from a channel, does one of these, and sends. *)
Definition worker_stepped n e n' : Prop :=
  ∃ q n1, consumes (wn_in_flight n) (worker_taken e) q ∧ worked (set_wn_in_flight q n) e n1 ∧
    n' = set_wn_in_flight (wn_in_flight n1 ++ worker_sent e) n1.

Lemma worker_act_worked n a n' e :
  worker_act n a = Some (n', e) → ∃ q, consumes (wn_in_flight n) (worker_taken e) q ∧ worked (set_wn_in_flight q n) e n'.
Proof.
  assert (Hn : set_wn_in_flight (wn_in_flight n) n = n) by by destruct n.
  assert (Hnone : worker_taken e = None → worked n e n' →
    ∃ q, consumes (wn_in_flight n) (worker_taken e) q ∧ worked (set_wn_in_flight q n) e n').
  { intros Ht Hw. exists (wn_in_flight n). by rewrite Hn, Ht. }
  assert (Htake : ∀ k now completed,
    worker_take_from name id committee parameters benchmark primary_address n k now completed = Some (n', e) →
    ∃ q, consumes (wn_in_flight n) (worker_taken e) q ∧ worked (set_wn_in_flight q n) e n').
  { intros k now completed. unfold worker_take_from. destruct (recv k _) as [[m q]|] eqn:Er; [|done]. simpl.
    intros [Hw Ht]%worker_take_worked. apply recv_consumes in Er as [_ Hc]. exists q. by rewrite Ht. }
  assert (Hsync : ∀ x, Some (synchronizer_do name id committee parameters n x) = Some (n', e) → worker_taken (WSync x []) = None →
    ∃ q, consumes (wn_in_flight n) (worker_taken e) q ∧ worked (set_wn_in_flight q n) e n').
  { intros x [= E] Ht. pose proof (synchronizer_do_worked n x) as [Hw [out Eo]]. rewrite E in *. simpl in *. subst e.
    by apply Hnone. }
  destruct a as [message|s|s| |now|now|now|completed|[]| | |now|i cancelled|now]; simpl; intros E; try by eapply Htake.
  - injection E as <- <-. apply Hnone; [done|]. rewrite <-(set_wn_silent_same n) at 2. constructor.
    intros data []%dispatch_transaction_batches.
  - injection E as <- <-. apply Hnone; [done|]. rewrite <-(set_wn_silent_same n) at 2. constructor.
    intros data. apply dispatch_worker_batches.
  - pose proof (dispatch_primary_batches (wn_silent n) s) as Hb. destruct (dispatch_primary_message _ _) as [v out].
    injection E as <- <-. apply Hnone; [done|]. constructor. by intros data ?%Hb.
  - destruct (wn_reading n) eqn:Er; [done|]. injection E as <- <-. apply Hnone; [done|constructor].
  - destruct (wn_changed n); [|done]. apply batch_maker_do_worked in E as [Hw (silent & out & ->)]; [|done]. by apply Hnone.
  - case_decide; [|done]. destruct (_ <=? now); [|done]. rewrite <-(set_wn_silent_same n) in E.
    apply batch_maker_do_worked in E as [Hw (silent & out & ->)]; [|done]. by apply Hnone.
  - destruct (_ !! i) as [[[d u] c]|]; [|done]. simpl in E. destruct cancelled.
    + destruct c; [|done]. by apply (Hsync (SyncDone i (Ret None))).
    + destruct (storage_read _ _) as [[v|]| |]; [|done..]. by apply (Hsync (SyncDone i (Ret (Some d)))).
  - by apply (Hsync (SyncTimer now)).
Qed.

Lemma worker_step_stepped n a n' e : worker_step n a = Some (n', e) → worker_stepped n e n'.
Proof.
  unfold WorkerNode.worker_step. destruct (worker_act n a) as [[n1 e1]|] eqn:E; [|done]. simpl. intros [= <- <-].
  apply worker_act_worked in E as (q & Hc & Hw). by exists q, n1.
Qed.

Lemma worker_run_ind (R : WorkerNode → list WorkerEntry → WorkerNode → Prop) n actions n' log :
  (∀ n, R n [] n) → (∀ n1 e n2 log n3, worker_stepped n1 e n2 → R n2 log n3 → R n1 (e :: log) n3) →
  worker_run n actions = Some (n', log) → R n log n'.
Proof. apply (run_steps_ind worker_step worker_stepped), worker_step_stepped. Qed.

(** ** What the log says of each task *)

(** The transactions received from clients, and the batches received from other workers. *)
Definition received log : list (list byte) :=
  log ≫= λ e, match e with WDispatch out => omap (λ d, match d with ToBatchMaker tx => Some tx | _ => None end) out | _ => [] end.
Definition received_batches log : list (list byte) :=
  log ≫= λ e, match e with WDispatch out => omap (λ d, match d with ToProcessor data => Some data | _ => None end) out | _ => [] end.

(** What the batch maker took and sent. *)
Definition batch_events log : list (bool * N * BatchEvent) :=
  omap (λ e, match e with WBatch silent now x _ => Some (silent, now, x) | _ => None end) log.
Definition batch_outputs log : list BatchOutput := log ≫= λ e, match e with WBatch _ _ _ out => out | _ => [] end.

(** The messages the quorum waiter took, and the batches it delivered. *)
Definition awaited log : list QuorumWaiterMessage := omap (λ e, match e with WQuorum m _ _ => Some m | _ => None end) log.
Definition delivered log : list (list byte) := log ≫= λ e, match e with WQuorum _ _ o => option_list o | _ => [] end.

(** The batches the two processors took, own and others', and the messages they sent to the connector. *)
Definition own_batches log : list (list byte) := omap (λ e, match e with WProcess true batch _ => Some batch | _ => None end) log.
Definition others_batches log : list (list byte) := omap (λ e, match e with WProcess false batch _ => Some batch | _ => None end) log.
Definition announcements log : list (list byte) := log ≫= λ e, match e with WProcess _ _ message => [message] | _ => [] end.

(** The messages the connector sent to the primary. *)
Definition announced log : list (list byte) := omap (λ e, match e with WConnect message _ => Some message | _ => None end) log.

(** A batch was broadcast to the other workers with the id, and the quorum waiter delivered it when those of
    [completed] among them had acknowledged it, whose stake is a quorum with the own one. *)
Definition acknowledged log (txs : Batch) : Prop :=
  let data := serialize (WMBatch txs) in
  let others := (others_workers committee name id).*1 in
  (∃ silent now e out, WBatch silent now e out ∈ log ∧ BroadcastBatch workers_addresses.*2 data ∈ out) ∧
  ∃ completed, WQuorum (MkQuorumWaiterMessage data others) completed (Some data) ∈ log ∧ completed ⊆+ others ∧
    quorum_threshold committee ≤ stake_of committee ({[ name ]} ∪ list_to_set completed).

Lemma worker_run_prefix {B} (f : B → WorkerInternal) g h k n actions n' log :
  Inj (=) (=) f → wn_in_flight n = [] →
  (∀ e, on k (worker_sent e) = f <$> g e) → (∀ e, on k (option_list (worker_taken e)) = f <$> option_list (h e)) →
  worker_run n actions = Some (n', log) → omap h log `prefix_of` log ≫= g.
Proof.
  intros Hf Hn Hg Hh. apply (run_steps_prefix _ wn_in_flight worker_taken worker_sent) with (f := f) (k := k); [|done| |done..].
  - intros n1 a n2 e (q & n3 & Hc & Hw & ->)%worker_step_stepped. exists q. split; [done|]. by destruct Hw.
  - by rewrite Hn.
Qed.

Ltac queue_of f chan :=
  apply (worker_run_prefix f _ _ chan); [by intros ?? [=]|done
    |intros [out|r|s now x out|m cs o|own b message|message out|ds k out|x out]; try done; simpl; sent_case
    |intros [out|r|s now [|tx|] out|m cs o|[] b message|message out|ds k out|[|?|?] out]; done].

Lemma received_queue n actions n' log :
  wn_in_flight n = [] → worker_run n actions = Some (n', log) →
  omap (λ e, match e with WBatch _ _ (TakeTransaction tx) _ => Some tx | _ => None end) log `prefix_of` received log.
Proof. intros Hn. queue_of OnTransactions Transactions. Qed.

Lemma sealed_queue n actions n' log :
  wn_in_flight n = [] → worker_run n actions = Some (n', log) →
  awaited log `prefix_of` log ≫= λ e, match e with WBatch _ _ _ out => to_quorum_waiter out | _ => [] end.
Proof. intros Hn. queue_of OnSealedBatches SealedBatches. Qed.

Lemma delivered_queue n actions n' log :
  wn_in_flight n = [] → worker_run n actions = Some (n', log) → own_batches log `prefix_of` delivered log.
Proof. intros Hn. queue_of OnOwnBatches OwnBatches. Qed.

Lemma others_queue n actions n' log :
  wn_in_flight n = [] → worker_run n actions = Some (n', log) → others_batches log `prefix_of` received_batches log.
Proof. intros Hn. queue_of OnOthersBatches OthersBatches. Qed.

Lemma announced_queue n actions n' log :
  wn_in_flight n = [] → worker_run n actions = Some (n', log) → announced log `prefix_of` announcements log.
Proof. intros Hn. queue_of OnDigests Digests. Qed.

(** The batch maker runs as [BatchMaker::run], and puts the transactions it takes into batches in order. *)
Lemma worker_run_batch_maker n actions n' log :
  worker_run n actions = Some (n', log) →
  batch_steps (wn_batch_maker n) (batch_events log) = Ret (Some (wn_batch_maker n'), batch_outputs log) ∧
  transactions_taken (batch_events log) =
    omap (λ e, match e with WBatch _ _ (TakeTransaction tx) _ => Some tx | _ => None end) log.
Proof.
  apply (worker_run_ind (λ n log n',
    batch_steps (wn_batch_maker n) (batch_events log) = Ret (Some (wn_batch_maker n'), batch_outputs log) ∧
    transactions_taken (batch_events log) =
      omap (λ e, match e with WBatch _ _ (TakeTransaction tx) _ => Some tx | _ => None end) log)); [done|].
  clear n actions n' log. intros n1 e n2 log n3 (q & n & _ & Hw & ->) [IH Ht]. unfold batch_outputs. rewrite bind_cons.
  destruct Hw as [| |silent now x b out v c Eb Hs| | | | |]; csimpl in *; try by split. split.
  - rewrite Eb. simpl. by rewrite IH.
  - rewrite <-Ht. destruct x as [|tx|]; [by destruct silent| |by destruct silent]. by rewrite (Hs tx eq_refl).
Qed.

Lemma batch_steps_conserve es b b1 out :
  batch_steps b es = Ret (Some b1, out) →
  ∃ batches, to_quorum_waiter out = message_of workers_addresses <$> batches ∧
    concat batches ++ current_batch b1 = current_batch b ++ transactions_taken es.
Proof.
  revert b out. induction es as [|[[silent now] e] es IH]; intros b out; cbn [Worker.batch_steps].
  { intros [= -> <-]. exists []. by rewrite app_nil_r. }
  intros ([[b2|] out1] & E1 & E)%outcome_bind_ret; [|done].
  apply outcome_bind_ret in E as ([b3 out2] & E2 & [= -> <-]).
  apply batch_step_conserves in E1 as (bs1 & Eo1 & Ec1). apply IH in E2 as (bs2 & Eo2 & Ec2).
  exists (bs1 ++ bs2). unfold to_quorum_waiter in *. rewrite omap_app, Eo1, Eo2, fmap_app. split; [done|].
  rewrite transactions_taken_cons, concat_app, <-app_assoc, Ec2, !app_assoc, Ec1. done.
Qed.

(** What is delivered was awaited, in order, until enough handlers completed. *)
Definition waited log (data : list byte) : Prop :=
  ∃ m completed, WQuorum m completed (Some data) ∈ log ∧ qw_batch m = data ∧ completed ⊆+ qw_handlers m ∧
    quorum_loop committee (stake committee name) completed = true.

Lemma waited_cons e log data : waited log data → waited (e :: log) data.
Proof. intros (m & completed & ? & ?). exists m, completed. split; [by right|done]. Qed.

Lemma worker_run_delivered n actions n' log :
  worker_run n actions = Some (n', log) →
  delivered log `sublist_of` qw_batch <$> awaited log ∧ ∀ data, data ∈ delivered log → waited log data.
Proof.
  apply (worker_run_ind (λ n log n', delivered log `sublist_of` qw_batch <$> awaited log ∧
    ∀ data, data ∈ delivered log → waited log data)); [by split; [|set_solver]|].
  clear n actions n' log. intros n1 e n2 log n3 (q & n & _ & Hw & ->) [Hsub IH]. unfold delivered. rewrite bind_cons.
  destruct Hw as [| | |m completed Hq| | | |]; csimpl; try (by split; [|intros data Hd; apply waited_cons, IH]).
  unfold quorum_wait, quorum_wait_ends in *. apply andb_true_iff in Hq as [Hc%bool_decide_eq_true _].
  destruct (quorum_loop _ _ _) eqn:El; simpl.
  - split; [by constructor|]. intros data [->|Hd]%elem_of_cons; [|by apply waited_cons, IH].
    exists m, completed. split; [left|done].
  - split; [by constructor|]. intros data Hd. by apply waited_cons, IH.
Qed.

(** What is awaited was broadcast. *)
Lemma worker_run_broadcast n actions n' log :
  worker_run n actions = Some (n', log) →
  ∀ m, m ∈ log ≫= (λ e, match e with WBatch _ _ _ out => to_quorum_waiter out | _ => [] end) →
    ∃ silent now e out, WBatch silent now e out ∈ log ∧ BroadcastBatch workers_addresses.*2 (qw_batch m) ∈ out.
Proof.
  apply (worker_run_ind (λ n log n',
    ∀ m, m ∈ log ≫= (λ e, match e with WBatch _ _ _ out => to_quorum_waiter out | _ => [] end) →
      ∃ silent now e out, WBatch silent now e out ∈ log ∧ BroadcastBatch workers_addresses.*2 (qw_batch m) ∈ out));
    [set_solver|].
  clear n actions n' log. intros n1 e n2 log n3 (q & n & _ & Hw & ->) IH m. rewrite bind_cons, elem_of_app. intros [Hm|Hm].
  - destruct Hw as [| |silent now x b out v c Eb _| | | | |]; try by apply elem_of_nil in Hm.
    exists silent, now, x, out. split; [left|]. by eapply batch_step_broadcasts.
  - destruct (IH m Hm) as (silent & now & x & out & ? & ?). exists silent, now, x, out. split; [by right|done].
Qed.

Lemma worker_run_received n actions n' log :
  worker_run n actions = Some (n', log) →
  ∀ data, data ∈ received_batches log → ∃ batch, deserialize data = Ret (WMBatch batch).
Proof.
  apply (worker_run_ind (λ n log n', ∀ data, data ∈ received_batches log →
    ∃ batch, deserialize data = Ret (WMBatch batch))); [set_solver|].
  clear n actions n' log. intros n1 e n2 log n3 (q & n & _ & Hw & ->) IH data. unfold received_batches. rewrite bind_cons.
  rewrite elem_of_app. intros [Hd|?]; [|by apply IH]. destruct Hw as [out v b Hb| | | | | | |]; try by apply elem_of_nil in Hd.
  apply list_elem_of_omap in Hd as (d & Hd & E). destruct d; simplify_eq. by apply Hb.
Qed.

Context `{!StorageLaws _}.

(** Every announcement is of a batch a processor took and stored. *)
Lemma worker_run_stored n actions n' log :
  worker_run n actions = Some (n', log) →
  (∀ d, batch_at (wn_store n) d → batch_at (wn_store n') d) ∧
  ∀ message, message ∈ announcements log →
    ∃ data, batch_at (wn_store n') (hash_bytes data) ∧
      (data ∈ own_batches log ∧ message = serialize (OurBatch (hash_bytes data) id) ∨
       data ∈ others_batches log ∧ message = serialize (OthersBatch (hash_bytes data) id)).
Proof.
  apply (worker_run_ind (λ n log n', (∀ d, batch_at (wn_store n) d → batch_at (wn_store n') d) ∧
    ∀ message, message ∈ announcements log →
      ∃ data, batch_at (wn_store n') (hash_bytes data) ∧
        (data ∈ own_batches log ∧ message = serialize (OurBatch (hash_bytes data) id) ∨
         data ∈ others_batches log ∧ message = serialize (OthersBatch (hash_bytes data) id)))); [by split; [|set_solver]|].
  clear n actions n' log. intros n1 e n2 log n3 (q & n & _ & Hw & ->) [Hk IH]. unfold announcements. rewrite bind_cons.
  destruct Hw as [| | | |own batch| | |]; csimpl in *; try by split. split.
  - intros d Hd. by apply Hk, batch_at_write.
  - intros message [->|(data & Hd & [[? ?]|[? ?]])%IH]%elem_of_cons; [|exists data; destruct own; csimpl; set_solver..].
    exists batch. split; [apply Hk; exists batch; by rewrite storage_read_write|]. destruct own; csimpl; set_solver.
Qed.
End facts.

(** The handlers that completed make a quorum of stake. *)
Lemma quorum_of_completed name id committee completed :
  small_stake committee → completed ⊆+ (others_workers committee name id).*1 →
  quorum_loop committee (stake committee name) completed = true →
  quorum_threshold committee ≤ stake_of committee ({[ name ]} ∪ list_to_set completed).
Proof.
  intros Hs Hc Hq. destruct (others_workers_spec committee name id) as [Hnd Hin].
  assert (Hk : ∀ k, k ∈ completed → k ∈ (others_workers committee name id).*1) by (intros; by eapply elem_of_submseteq).
  assert (Hnd' : NoDup (name :: completed)).
  { apply submseteq_Permutation in Hc as [l E]. rewrite E in Hnd. apply NoDup_app in Hnd as (Hnd & _).
    constructor; [|done]. intros ([k w] & -> & Hkw)%Hk%list_elem_of_fmap. apply Hin in Hkw. simpl in Hkw. tauto. }
  by apply quorum_loop_stake in Hq as [_ ?].
Qed.

(** ** Runs from the start *)

Section spawned.
Context `{!Sha512, !Backend, !Storage}.
Context `{!Bincode WorkerMessage, !Bincode PrimaryWorkerMessage, !Bincode WorkerPrimaryMessage}.
Variables (name : PublicKey) (id : WorkerId) (committee : Committee) (parameters : Parameters) (benchmark : bool).
Variables (s : storage) (now : N) (n0 : WorkerNode) (primary_address : SocketAddr).
Variables (actions : list WorkerAction) (n : WorkerNode) (log : list WorkerEntry).
Hypothesis Hspawn : worker_spawn name id committee parameters s now = Ret (n0, primary_address).
Hypothesis Hrun : worker_run name id committee parameters benchmark primary_address n0 actions = Some (n, log).

Lemma worker_spawned : wn_in_flight n0 = [] ∧ current_batch (wn_batch_maker n0) = [].
Proof. revert Hspawn. unfold worker_spawn. destruct (worker committee name id), (Config.primary committee name); intros; by simplify_eq/=. Qed.

(** The batches the batch maker sealed, from the transactions received. *)
Lemma sealed_batches : ∃ batches : list Batch, concat batches `prefix_of` received log ∧
  awaited log `prefix_of` message_of (workers_addresses name id committee) <$> batches.
Proof.
  destruct worker_spawned as [Hfl Hcb]. pose proof (worker_run_batch_maker _ _ _ _ _ _ _ _ _ _ Hrun) as [Hb Ht].
  apply batch_steps_conserve in Hb as (batches & Eq & Ec). rewrite Hcb, Ht in Ec. simpl in Ec.
  pose proof (received_queue _ _ _ _ _ _ _ _ _ _ Hfl Hrun) as Hrec.
  pose proof (sealed_queue _ _ _ _ _ _ _ _ _ _ Hfl Hrun) as Hseal. exists batches. split.
  - etrans; [|exact Hrec]. rewrite <-Ec. by exists (current_batch (wn_batch_maker n)).
  - rewrite <-Eq. etrans; [exact Hseal|]. apply reflexive_eq. unfold batch_outputs, to_quorum_waiter. clear.
    induction log as [|e l IH]; [done|]. rewrite !bind_cons, omap_app, IH. by destruct e.
Qed.

(** The own batches that are processed are among them, in order. *)
Lemma own_batches_sealed : ∃ batches : list Batch, concat batches `prefix_of` received log ∧
  own_batches log `sublist_of` (λ txs, serialize (WMBatch txs)) <$> batches.
Proof.
  destruct sealed_batches as (batches & Hrec & Hseal). exists batches. split; [done|].
  destruct worker_spawned as [Hfl _]. pose proof (delivered_queue _ _ _ _ _ _ _ _ _ _ Hfl Hrun) as Hdel.
  pose proof (worker_run_delivered _ _ _ _ _ _ _ _ _ _ Hrun) as [Hsub _].
  apply prefix_sublist in Hdel, Hseal. etrans; [exact Hdel|]. etrans; [exact Hsub|].
  apply (fmap_sublist qw_batch) in Hseal. by rewrite <-list_fmap_compose in Hseal.
Qed.

Lemma own_batch_acknowledged data :
  small_stake committee → data ∈ own_batches log →
  ∃ txs : Batch, data = serialize (WMBatch txs) ∧ txs ⊆ received log ∧ acknowledged name id committee log txs.
Proof.
  intros Hs Hd. destruct sealed_batches as (batches & Hrec & Hseal). destruct worker_spawned as [Hfl _].
  pose proof (delivered_queue _ _ _ _ _ _ _ _ _ _ Hfl Hrun) as Hdel.
  pose proof (worker_run_delivered _ _ _ _ _ _ _ _ _ _ Hrun) as [_ Hack].
  assert (Hin : data ∈ delivered log) by (by eapply elem_of_prefix).
  apply Hack in Hin as (m & completed & Hm & Ed & Hc & Hq).
  assert (Hma : m ∈ awaited log) by (apply list_elem_of_omap; by eexists).
  assert (Hm' : m ∈ message_of (workers_addresses name id committee) <$> batches) by (by eapply elem_of_prefix).
  pose proof (elem_of_prefix _ _ _ Hma (sealed_queue _ _ _ _ _ _ _ _ _ _ Hfl Hrun)) as Hb.
  apply (worker_run_broadcast _ _ _ _ _ _ _ _ _ _ Hrun) in Hb.
  apply list_elem_of_fmap in Hm' as (txs & Em & Htxs).
  assert (Eo : (workers_addresses name id committee).*1 = (others_workers committee name id).*1)
    by (unfold workers_addresses; by rewrite <-list_fmap_compose).
  unfold message_of in Em. rewrite Eo in Em. subst m. simpl in *. subst data. exists txs. split_and!; [done| |split; [done|]].
  - intros tx Htx. eapply elem_of_prefix; [|exact Hrec]. apply list_elem_of_In, in_concat. exists txs.
    by rewrite <-!list_elem_of_In.
  - exists completed. split_and!; [done..|]. by eapply quorum_of_completed.
Qed.

(** What is announced is stored. *)
Lemma announced_stored `{!StorageLaws _} message :
  message ∈ announced log → ∃ data, batch_at (wn_store n) (hash_bytes data) ∧
    (data ∈ own_batches log ∧ message = serialize (OurBatch (hash_bytes data) id) ∨
     data ∈ received_batches log ∧ (∃ batch, deserialize data = Ret (WMBatch batch)) ∧
       message = serialize (OthersBatch (hash_bytes data) id)).
Proof.
  intros Hm. destruct worker_spawned as [Hfl _].
  pose proof (announced_queue _ _ _ _ _ _ _ _ _ _ Hfl Hrun) as Hann. pose proof (others_queue _ _ _ _ _ _ _ _ _ _ Hfl Hrun) as Hoth.
  assert (Hin : message ∈ announcements log) by (by eapply elem_of_prefix).
  destruct (worker_run_stored _ _ _ _ _ _ _ _ _ _ Hrun) as [_ Hst]. apply Hst in Hin as (data & Hd & [?|[Ho ->]]); exists data.
  - by auto.
  - split; [done|]. right. assert (data ∈ received_batches log) by (by eapply elem_of_prefix).
    split; [done|]. split; [by eapply worker_run_received|done].
Qed.
End spawned.

(** ** Properties *)

Section properties.
Context `{!Sha512, !Backend, !Storage, !StorageLaws _}.
Context `{!Bincode WorkerMessage, !Bincode PrimaryWorkerMessage, !Bincode WorkerPrimaryMessage}.

(** C9: What a worker announces to its primary is backed. After any run of a worker node from its start: the
    batches its batch maker sealed hold the transactions that clients sent, in the order in which they were
    received and none twice; the own batches that are processed are among the sealed ones, in order, and each
    was broadcast to the other workers with the id, and waited for until those among them that acknowledged it
    had a quorum of stake with the own one; and every message sent to the primary announces, as our own, such a
    batch, or, as another's, a batch that another worker sent, and the store of the worker has a batch with the
    digest announced. *)
Theorem announced_digests_backed name id committee parameters benchmark s now n0 primary_address actions n log :
  small_stake committee →
  worker_spawn name id committee parameters s now = Ret (n0, primary_address) →
  worker_run name id committee parameters benchmark primary_address n0 actions = Some (n, log) →
  (∃ batches : list Batch, concat batches `prefix_of` received log ∧
     own_batches log `sublist_of` (λ txs, serialize (WMBatch txs)) <$> batches) ∧
  (∀ data, data ∈ own_batches log → ∃ txs : Batch,
     data = serialize (WMBatch txs) ∧ txs ⊆ received log ∧ acknowledged name id committee log txs) ∧
  ∀ message, message ∈ announced log → ∃ data, batch_at (wn_store n) (hash_bytes data) ∧
    (data ∈ own_batches log ∧ message = serialize (OurBatch (hash_bytes data) id) ∨
     data ∈ received_batches log ∧ (∃ batch, deserialize data = Ret (WMBatch batch)) ∧
       message = serialize (OthersBatch (hash_bytes data) id)).
Proof.
  intros Hs Hsp Hr. split; [by eapply own_batches_sealed|]. split; [by intros; eapply own_batch_acknowledged|].
  intros message Hm. by eapply announced_stored.
Qed.
End properties.

(** ** Evaluation *)

Module SampleWorkerNode.
Import Toy ToyBackend ToyBincode MapDB SampleWorker.

#[export] Program Instance primary_worker_message_countable : Countable PrimaryWorkerMessage :=
  inj_countable' (λ m, match m with Synchronize l k => inl (l, k) | Cleanup r => inr (inl r) | BatchSilent r b => inr (inr (r, b)) end)
    (λ m, match m with inl (l, k) => Synchronize l k | inr (inl r) => Cleanup r | inr (inr (r, b)) => BatchSilent r b end) _.
Next Obligation. by intros []. Qed.
#[export] Instance primary_worker_message_bincode : Bincode PrimaryWorkerMessage := toy_bincode PrimaryWorkerMessage x06.

Definition node : WorkerNode :=
  MkWorkerNode empty_store (BatchMaker_new 100 0) (0, false) false None WorkerSynchronizer_new [].

(** A batch of another worker. *)
Definition batch_2 : list byte := serialize (WMBatch [[x01; x09]]).

(** Two transactions make a batch when the timer fires, workers 2 and 3 acknowledge it; a batch of another
    worker is stored, and the primary has the worker pause. *)
Definition actions : list WorkerAction :=
  [ClientSends [x00; x01]; BatchMakerReads; BatchMakerTakes 5; ClientSends [x01; x02]; BatchMakerReads; BatchMakerTakes 6;
   WorkerSends batch_2; BatchMakerReads; BatchMakerTimer 500; QuorumWaiterWaits [pk 2; pk 3]; ProcessorTakes false;
   ProcessorTakes true; ConnectorTakes; PrimarySends (serialize (BatchSilent 1 true)); BatchMakerReads; BatchMakerChanges 510;
   ConnectorTakes; WorkerSends (serialize (WMBatchRequest [hash_bytes batch_2] (pk 3))); WorkerHelperTakes;
   PrimarySends (serialize (Synchronize [dg 5] (pk 2))); SynchronizerTakes 520].

Definition address : SocketAddr :=
  match Config.primary Sample.committee (pk 1) with Ret a => worker_to_primary a | _ => Sample.address 0 end.
Notation run := (worker_run (pk 1) 0 Sample.committee Parameters_default true address node actions).
Notation last := (default node (fst <$> run)).
Notation log := (default [] (snd <$> run)).

Lemma run_some {A B} (o : option (A * B)) a b :
  match o with Some _ => true | None => false end = true → o = Some (default a (fst <$> o), default b (snd <$> o)).
Proof. by destruct o as [[? ?]|]. Qed.

Lemma sample_worker_run : run = Some (last, log).
Proof. apply run_some. vm_compute. reflexivity. Qed.

Lemma log_announced : announced log = [serialize (OthersBatch (hash_bytes batch_2) 0);
  serialize (OurBatch (hash_bytes (serialize (WMBatch [[x00; x01]; [x01; x02]]))) 0)].
Proof. apply (bool_decide_unpack _). vm_compute. exact I. Qed.

Lemma small_stake_eq : small_stake Sample.committee.
Proof. vm_compute. reflexivity. Qed.

Lemma sample_worker_spawn : worker_spawn (pk 1) 0 Sample.committee Parameters_default empty_store 0 = Ret (node, address).
Proof.
  assert (E : is_ret (worker Sample.committee (pk 1) 0) && is_ret (Config.primary Sample.committee (pk 1)) = true)
    by (vm_compute; reflexivity).
  apply andb_true_iff in E as [Ew Ep]. unfold worker_spawn, address.
  destruct (worker _ _ _), (Config.primary _ _); by try discriminate.
Qed.
End SampleWorkerNode.

Section witnesses.
Import Toy ToyBackend ToyBincode MapDB SampleWorker SampleWorkerNode.

Lemma announced_digests_backed_witness :
  announced log = [serialize (OthersBatch (hash_bytes batch_2) 0); serialize (OurBatch (hash_bytes (serialize (WMBatch [[x00; x01]; [x01; x02]]))) 0)] ∧
  ∀ message, message ∈ announced log → ∃ data, batch_at (wn_store last) (hash_bytes data) ∧
    (data ∈ own_batches log ∧ message = serialize (OurBatch (hash_bytes data) 0) ∨
     data ∈ received_batches log ∧ (∃ batch, deserialize data = Ret (WMBatch batch)) ∧
       message = serialize (OthersBatch (hash_bytes data) 0)).
Proof.
  split; [apply log_announced|].
  exact (proj2 (proj2 (announced_digests_backed (pk 1) 0 Sample.committee Parameters_default true empty_store 0 node address actions
    last log small_stake_eq sample_worker_spawn sample_worker_run))).
Defined.
End witnesses.
