(* ===== verification/Node.v ===== *)
(** A primary node: the tasks that [Primary::spawn] ([src/primary/src/primary.rs]) and [run]
    ([src/node/src/main.rs]) start, the channels between them, the store they share and the atomic variable
    [consensus_round].

    A step of the node is an iteration of one task, or a part of one: the core runs the clean-up of an
    iteration apart from the rest, and the proposer the head of its loop apart from [select!], since the
    other tasks react in between to what they sent. Any task that can take a step may be the next; the run
    is the list of these choices, and its log says what each step took and what it sent. A run ends with the
    first task that panics. The channels are not bounded; a bound only removes interleavings. *)

From S2P Require Import Prelude Channels Crypto Config Messages Adversary Aggregators Store Primary.
From S2P Require Import Core Proposer Pool Waiters Consensus.

(** ** Channels *)

Inductive Channel :=
| OthersDigests | OurDigests | ParentsChannel | HeadersChannel | SyncHeaders | SyncCertificates
| HeadersLoopback | CertificatesLoopback | PrimaryMessages | CertRequests | NewCertificates | Feedback.

#[export] Instance Channel_eq_dec : EqDecision Channel.
Proof. solve_decision. Defined.

(** What is sent on them. *)
Inductive Message :=
| OnOthersDigests (digest : Digest) (worker_id : WorkerId)
| OnOurDigests (digest : Digest) (worker_id : WorkerId)
| OnParents (parents : list Digest) (round : Round)
| OnHeaders (header : Header)
| OnSyncHeaders (m : WaiterMessage)
| OnSyncCertificates (c : Certificate)
| OnHeadersLoopback (header : Header)
| OnCertificatesLoopback (c : Certificate)
| OnPrimaryMessages (m : PrimaryMessage)
| OnCertRequests (missing : list Digest) (requestor : PublicKey)
| OnNewCertificates (c : Certificate)
| OnFeedback (c : Certificate).

Definition channel (m : Message) : Channel :=
  match m with
  | OnOthersDigests _ _ => OthersDigests
  | OnOurDigests _ _ => OurDigests
  | OnParents _ _ => ParentsChannel
  | OnHeaders _ => HeadersChannel
  | OnSyncHeaders _ => SyncHeaders
  | OnSyncCertificates _ => SyncCertificates
  | OnHeadersLoopback _ => HeadersLoopback
  | OnCertificatesLoopback _ => CertificatesLoopback
  | OnPrimaryMessages _ => PrimaryMessages
  | OnCertRequests _ _ => CertRequests
  | OnNewCertificates _ => NewCertificates
  | OnFeedback _ => Feedback
  end.

#[export] Instance message_channelled : Channelled Message Channel := channel.

(** ** State *)

Section node_state.
Context `{!Dalek, !Backend, !Storage}.

(** The flags say that the core is before its clean-up, and the proposer in [select!]. The round is the value
    of [consensus_round], which is also the [last_committed_round] of the [GarbageCollector]. *)
Record Node := MkNode {
  core : Core.Core;
  cleaning : bool;
  proposer : Proposer.Proposer;
  selecting : bool;
  header_waiter : HeaderWaiter;
  certificate_waiter : list (list Key * Certificate);
  consensus : State;
  consensus_round : Round;
  in_flight : list Message
}.
End node_state.

(** Who takes the next step, with what the environment decides: the bytes a peer sends, the readings of the
    clock, the branch of a [select!], the waiter that completes and whether it does because it is cancelled. *)
Inductive Action :=
| PrimaryReceives (serialized : list byte)
| WorkerReceives (serialized : list byte)
| CoreTakes (k : Channel)
| CoreCleansUp
| PayloadReceiverTakes
| ProposerProposes (now now' : N)
| ProposerTakes (k : option Channel)
| HeaderWaiterTakes (now : N)
| HeaderWaiterCompletes (i : nat) (cancelled : bool)
| HeaderWaiterRetries (now : N)
| CertificateWaiterTakes
| CertificateWaiterCompletes (i : nat)
| HelperTakes
| ConsensusTakes
| CollectorTakes.

(** What a step did. *)
Inductive Entry `{!Dalek, !Backend} :=
| EDispatch (out : list Dispatch)
| ECore (input : CoreInput) (es : list Effect)
| ECleanUp (round : Round)
| EPayload (digest : Digest) (worker_id : WorkerId)
| EPropose (now now' : N) (out : list Output)
| EProposer (e : Proposer.Event) (out : list Output)
| EHeaderWaiter (e : WaiterEvent) (round : Round) (out : list WaiterOutput)
| ECertificateWaiter (e : CertificateWaiterEvent) (out : list Certificate)
| EHelper (missing : list Digest) (requestor : PublicKey) (sent : list (SocketAddr * list byte))
| EConsensus (c : Certificate) (sequence : list (Certificate * bool))
| ECollector (c : Certificate) (out : list PrimaryWorkerMessage).

Section entries.
Context `{!Dalek, !Backend}.

(** The message a step took from a channel. *)
Definition taken (e : Entry) : option Message :=
  match e with
  | ECore (FromPrimaries m) _ => Some (OnPrimaryMessages m)
  | ECore (FromHeaderWaiter header) _ => Some (OnHeadersLoopback header)
  | ECore (FromCertificateWaiter c) _ => Some (OnCertificatesLoopback c)
  | ECore (FromProposer header) _ => Some (OnHeaders header)
  | EPayload digest worker_id => Some (OnOthersDigests digest worker_id)
  | EProposer (Parents parents round) _ => Some (OnParents parents round)
  | EProposer (Proposer.Batch digest worker_id) _ => Some (OnOurDigests digest worker_id)
  | EHeaderWaiter (Command m _) _ _ => Some (OnSyncHeaders m)
  | ECertificateWaiter (TakeCertificate c) _ => Some (OnSyncCertificates c)
  | EHelper missing requestor _ => Some (OnCertRequests missing requestor)
  | EConsensus c _ => Some (OnNewCertificates c)
  | ECollector c _ => Some (OnFeedback c)
  | _ => None
  end.

(** The messages a step sent on channels. *)
Definition dispatched (d : Dispatch) : option Message :=
  match d with
  | ToCore m => Some (OnPrimaryMessages m)
  | ToHelper missing requestor => Some (OnCertRequests missing requestor)
  | ToOurDigests digest id => Some (OnOurDigests digest id)
  | ToOthersDigests digest id => Some (OnOthersDigests digest id)
  | Ack => None
  end.

Definition effect_message (e : Effect) : option Message :=
  match e with
  | ToHeaderWaiter m => Some (OnSyncHeaders m)
  | ToCertificateWaiter c => Some (OnSyncCertificates c)
  | ToProposer parents round => Some (OnParents parents round)
  | ToConsensus c => Some (OnNewCertificates c)
  | _ => None
  end.

Definition sent (e : Entry) : list Message :=
  match e with
  | EDispatch out => omap dispatched out
  | ECore _ es => omap effect_message es
  | EPropose _ _ out | EProposer _ out => OnHeaders <$> headers out
  | EHeaderWaiter _ _ out => omap (λ o, match o with LoopBack header => Some (OnHeadersLoopback header) | _ => None end) out
  | ECertificateWaiter _ out => OnCertificatesLoopback <$> out
  | EConsensus _ sequence => OnFeedback <$> sequence.*1
  | _ => []
  end.
End entries.

(** ** Steps *)

Section node.
Context `{!Sha512, !Dalek, !Backend, !Storage}.
Context `{!Bincode Header, !Bincode Certificate, !Bincode PrimaryMessage, !Bincode WorkerPrimaryMessage}.
Variables (name : PublicKey) (committee : Committee) (secret : SecretKey) (parameters : Parameters).
Variables (env : Environment) (cfg : Settings).
Implicit Types (n : Node) (q : list Message) (log : list Entry).

Notation gc_depth := (Config.gc_depth parameters).

Definition set_core f n := MkNode (f (core n)) (cleaning n) (proposer n) (selecting n) (header_waiter n)
  (certificate_waiter n) (consensus n) (consensus_round n) (in_flight n).
Definition set_cleaning b n := MkNode (core n) b (proposer n) (selecting n) (header_waiter n)
  (certificate_waiter n) (consensus n) (consensus_round n) (in_flight n).
Definition set_proposer p b n := MkNode (core n) (cleaning n) p b (header_waiter n)
  (certificate_waiter n) (consensus n) (consensus_round n) (in_flight n).
Definition set_header_waiter hw n := MkNode (core n) (cleaning n) (proposer n) (selecting n) hw
  (certificate_waiter n) (consensus n) (consensus_round n) (in_flight n).
Definition set_certificate_waiter cw n := MkNode (core n) (cleaning n) (proposer n) (selecting n) (header_waiter n)
  cw (consensus n) (consensus_round n) (in_flight n).
Definition set_consensus s n := MkNode (core n) (cleaning n) (proposer n) (selecting n) (header_waiter n)
  (certificate_waiter n) s (consensus_round n) (in_flight n).
Definition set_consensus_round r n := MkNode (core n) (cleaning n) (proposer n) (selecting n) (header_waiter n)
  (certificate_waiter n) (consensus n) r (in_flight n).
Definition set_in_flight q n := MkNode (core n) (cleaning n) (proposer n) (selecting n) (header_waiter n)
  (certificate_waiter n) (consensus n) (consensus_round n) q.

(** The branches of the [select!] of the core. *)
Definition core_input (m : Message) : option CoreInput :=
  match m with
  | OnPrimaryMessages m => Some (FromPrimaries m)
  | OnHeadersLoopback header => Some (FromHeaderWaiter header)
  | OnCertificatesLoopback c => Some (FromCertificateWaiter c)
  | OnHeaders header => Some (FromProposer header)
  | _ => None
  end.

Definition proposer_event (m : Message) : option Proposer.Event :=
  match m with
  | OnParents parents round => Some (Parents parents round)
  | OnOurDigests digest worker_id => Some (Proposer.Batch digest worker_id)
  | _ => None
  end.

(** The waiters of the pool that can complete: the keys are in the store. *)
Definition all_stored (s : storage) (keys : list Key) : bool :=
  forallb (λ key, match storage_read s key with Ret (Some _) => true | _ => false end) keys.

(** The task's part of a step, on the node without the message it takes. *)
Definition core_take n (m : Message) : option (Node * Entry) :=
  input ← core_input m;
  if cleaning n then None
  else
    match core_handle name committee secret (core n) input with
    | (Some c, es) => Some (set_cleaning true (set_core (λ _, c) n), ECore input es)
    | (None, _) => None
    end.

Definition proposer_take n (e : Proposer.Event) : option (Node * Entry) :=
  if selecting n then
    let '(p, out) := handle_event cfg (proposer n) e in
    Some (set_proposer p false n, EProposer e out)
  else None.

Definition header_waiter_do n (e : WaiterEvent) : option (Node * Entry) :=
  match waiter_step name committee gc_depth (sync_retry_delay parameters) (sync_retry_nodes parameters)
          (header_waiter n) e (consensus_round n) with
  | Ret (hw, out) => Some (set_header_waiter hw n, EHeaderWaiter e (consensus_round n) out)
  | _ => None
  end.

Definition certificate_waiter_do n (e : CertificateWaiterEvent) : option (Node * Entry) :=
  let '(cw, out) := certificate_waiter_step (certificate_waiter n) e in
  Some (set_certificate_waiter cw n, ECertificateWaiter e out).

(** A step on a message taken from a channel. *)
Definition take_message n (m : Message) (now : N) : option (Node * Entry) :=
  match m with
  | OnOthersDigests digest worker_id =>
      Some (set_core (set_store (λ s, receive_payload s digest worker_id)) n, EPayload digest worker_id)
  | OnParents _ _ | OnOurDigests _ _ => e ← proposer_event m; proposer_take n e
  | OnHeaders _ | OnHeadersLoopback _ | OnCertificatesLoopback _ | OnPrimaryMessages _ => core_take n m
  | OnSyncHeaders m => header_waiter_do n (Command m now)
  | OnSyncCertificates c => certificate_waiter_do n (TakeCertificate c)
  | OnCertRequests missing requestor =>
      match help committee (store (core n)) missing requestor with
      | (out, Ret ()) => Some (n, EHelper missing requestor out)
      | _ => None
      end
  | OnNewCertificates c =>
      match Consensus.process_certificate committee gc_depth env (consensus n) c with
      | Ret (s, sequence) => Some (set_consensus s n, EConsensus c sequence)
      | _ => None
      end
  | OnFeedback c =>
      let '(round, out) := collect_step (consensus_round n) c in
      Some (set_consensus_round round n, ECollector c out)
  end.

Definition take_from n (k : Channel) (now : N) : option (Node * Entry) :=
  '(m, q) ← recv k (in_flight n);
  take_message (set_in_flight q n) m now.

(** The other steps. *)
Definition act n (a : Action) : option (Node * Entry) :=
  match a with
  | PrimaryReceives serialized => Some (n, EDispatch (dispatch_primary serialized).1)
  | WorkerReceives serialized => Some (n, EDispatch (dispatch_worker serialized).1)
  | CoreTakes k =>
      match k with
      | PrimaryMessages | HeadersLoopback | CertificatesLoopback | HeadersChannel => take_from n k 0
      | _ => None
      end
  | CoreCleansUp =>
      if cleaning n then
        Some (set_cleaning false (set_core (cleanup gc_depth (consensus_round n)) n), ECleanUp (consensus_round n))
      else None
  | PayloadReceiverTakes => take_from n OthersDigests 0
  | ProposerProposes now now' =>
      if selecting n then None
      else
        match propose cfg (proposer n) now now' with
        | Ret (p, out) => Some (set_proposer p true n, EPropose now now' out)
        | _ => None
        end
  | ProposerTakes (Some ParentsChannel) => take_from n ParentsChannel 0
  | ProposerTakes (Some OurDigests) => take_from n OurDigests 0
  | ProposerTakes None => proposer_take n Timer
  | ProposerTakes _ => None
  | HeaderWaiterTakes now => take_from n SyncHeaders now
  | HeaderWaiterCompletes i cancelled =>
      '(_, (keys, header), c) ← waiting (pool (header_waiter n)) !! i;
      if cancelled then
        if c : bool then header_waiter_do n (Done i (Ret None)) else None
      else if all_stored (store (core n)) keys then header_waiter_do n (Done i (Ret (Some header))) else None
  | HeaderWaiterRetries now => header_waiter_do n (RetryTimer now)
  | CertificateWaiterTakes => take_from n SyncCertificates 0
  | CertificateWaiterCompletes i =>
      '(keys, _) ← certificate_waiter n !! i;
      if all_stored (store (core n)) keys then certificate_waiter_do n (CertificateReady i) else None
  | HelperTakes => take_from n CertRequests 0
  | ConsensusTakes => take_from n NewCertificates 0
  | CollectorTakes => take_from n Feedback 0
  end.

(** A step: [None] when the task has nothing to take, or when it panics. *)
Definition node_step n (a : Action) : option (Node * Entry) :=
  '(n, e) ← act n a;
  Some (set_in_flight (in_flight n ++ sent e) n, e).

Definition node_run : Node → list Action → option (Node * list Entry) := run_steps node_step.
End node.

(** [Primary::spawn] and the rest of [run] of main.rs, at an instant, with the variables of the environment:
    the settings of the proposer, the node and what the proposer sends on entering its first round. *)
Definition node_spawn `{!Sha512, !Dalek, !Backend, !Storage} (name : PublicKey) (secret : SecretKey) (committee : Committee)
    (parameters : Parameters) (s : storage) (env : Environment) (client_during_silence : outcome VarError string)
    (now : N) : outcome unit (Settings * Node * list Output) :=
  match Config.primary committee name with
  | Ret _ =>
      '(cfg, p) ← Proposer.spawn name committee secret (header_size parameters) (max_header_delay parameters)
        env client_during_silence;
      let '(p, out) := start cfg p now in
      Ret (cfg, MkNode (Core_new s) false p false HeaderWaiter_new [] (State_new (genesis committee)) 0 [], out)
  | _ => Panic
  end.

(** A run of a primary: what it is started with, the choices, and what becomes of it. *)
Record NodeRun `{!Dalek, !Backend, !Storage} := MkNodeRun {
  nr_secret : SecretKey;
  nr_parameters : Parameters;
  nr_env : Environment;
  nr_var : outcome VarError string;
  nr_now : N;
  nr_store : storage;
  nr_actions : list Action;
  nr_cfg : Settings;
  nr_start : Node;
  nr_out : list Output;
  nr_end : Node;
  nr_log : list Entry
}.

Arguments MkNodeRun {_ _ _} _ _ _ _ _ _ _ _ _ _ _ _.
