(* ===== verification/System.v ===== *)
(** Nodes put together: how a batch that a primary misses is asked for, and how it comes from the worker of another
    authority to ours and to our primary. Every message is taken where the address it is sent to says. *)

From S2P Require Import Prelude Channels Crypto Config Messages Adversary Store Primary Core Proposer Pool Waiters.
From S2P Require Import Consensus Network Worker WorkerSync WorkerNode WorkerNodeFacts Node.

Section batch_path.
Context `{!Sha512, !Dalek, !Backend, !Storage, !StorageLaws _}.
Context `{!Bincode Header, !Bincode Certificate, !Bincode PrimaryMessage}.
Context `{!Bincode WorkerMessage, !Bincode PrimaryWorkerMessage, !Bincode WorkerPrimaryMessage}.
Context `{!BincodeLaws WorkerMessage, !BincodeLaws PrimaryWorkerMessage, !BincodeLaws WorkerPrimaryMessage}.

(** A node of [name], and its workers with the number [id]. *)
Variables (committee : Committee) (parameters : Parameters) (benchmark : bool) (id : WorkerId).
Implicit Types (n : Node) (w : WorkerNode) (d : Digest) (h : Header) (s : storage).

Notation worker_runs name primary_address :=
  (worker_run name id committee parameters benchmark primary_address).

(** *** What a worker does with a message *)

(** A command to get a batch: the batch is asked for at the worker of the target, unless it is in the store. *)
Lemma worker_synchronizes name primary_address w d target x now :
  wn_in_flight w = [] → pending (ws_pool (wn_synchronizer w)) !! d = None → worker committee target id = Ret x →
  ∃ w' out, worker_runs name primary_address w [PrimarySends (serialize (Synchronize [d] target)); SynchronizerTakes now] =
      Some (w', [WDispatch out; WSync (SyncMessage (Synchronize [d] target) now)
        [SendBatchRequest (worker_to_worker x) (WMBatchRequest
          (match storage_read (wn_store w) (Digest_to_vec d) with Ret None => [d] | _ => [] end) name)]]) ∧
    wn_in_flight w' = [] ∧ wn_store w' = wn_store w.
Proof.
  destruct w as [s b v ch o ws q]. cbn [wn_in_flight wn_store wn_synchronizer]. intros -> Hp Hx.
  unfold worker_run, run_steps, worker_step, worker_act, dispatch_primary_message. rewrite bincode_roundtrip.
  cbn. rewrite decide_True by done. unfold mbind, option_bind. cbn. unfold synchronizer_do, sync_step, synchronize. cbn.
  rewrite Hp, Hx.
  destruct (storage_read s (Digest_to_vec d)) as [[y|]| |]; cbn; by do 2 eexists.
Qed.

(** A request of another worker for a batch in the store: it goes to that worker. *)
Lemma worker_replies name primary_address w d requestor x data :
  wn_in_flight w = [] → storage_read (wn_store w) (Digest_to_vec d) = Ret (Some data) → worker committee requestor id = Ret x →
  ∃ w' out, worker_runs name primary_address w [WorkerSends (serialize (WMBatchRequest [d] requestor)); WorkerHelperTakes] =
      Some (w', [WDispatch out; WHelper [d] requestor [(worker_to_worker x, data)]]).
Proof.
  destruct w as [s b v ch o ws q]. cbn [wn_in_flight wn_store]. intros -> Hs Hx.
  unfold worker_run, run_steps, worker_step, worker_act, dispatch_worker_message. rewrite bincode_roundtrip.
  cbn. rewrite decide_True by done. unfold mbind, option_bind. cbn. unfold reply. rewrite Hx. cbn. rewrite Hs. by do 2 eexists.
Qed.

(** A batch of another worker: it is stored, and its digest goes to the primary. *)
Lemma worker_stores name primary_address w data batch :
  wn_in_flight w = [] → deserialize data = Ret (WMBatch batch) →
  let m := serialize (OthersBatch (hash_bytes data) id) in
  ∃ w' out, worker_runs name primary_address w [WorkerSends data; ProcessorTakes false; ConnectorTakes] =
      Some (w', [WDispatch out; WProcess false data m; WConnect m [(primary_address, m)]]) ∧
    wn_store w' = storage_write (wn_store w) (Digest_to_vec (hash_bytes data)) data.
Proof.
  destruct w as [s b v ch o ws q]. cbn [wn_in_flight wn_store]. intros -> Hd. cbv zeta.
  unfold worker_run, run_steps, worker_step, worker_act, dispatch_worker_message. rewrite Hd.
  cbn. rewrite decide_True by done. unfold mbind, option_bind. cbn. rewrite decide_True by done. cbn. by do 2 eexists.
Qed.

(** *** What a primary does *)

Variables (name : PublicKey) (secret : SecretKey) (env : Environment) (cfg : Settings).
Notation primary_runs := (node_run name committee secret parameters env cfg).

(** The header that misses a batch is suspended; the command goes to the worker of its author. *)
Lemma primary_commands n d h x now :
  in_flight n = [OnSyncHeaders (SyncBatches {[ d := id ]} h)] →
  pending (pool (header_waiter n)) !! hd_id h = None → batch_requests (header_waiter n) !! d = None →
  worker committee (hd_author h) id = Ret x →
  ∃ n', primary_runs n [HeaderWaiterTakes now] =
      Some (n', [EHeaderWaiter (Command (SyncBatches {[ d := id ]} h) now) (consensus_round n)
        [SendWorker (primary_to_worker x) (Synchronize [d] (hd_author h))]]) ∧
    in_flight n' = [] ∧ store (core n') = store (core n).
Proof.
  destruct n as [c b p se hw cw co r q]. cbn [in_flight header_waiter consensus_round core]. intros -> Hp Hb Hx.
  unfold node_run, run_steps, node_step, act, take_from. cbn [recv in_flight]. rewrite decide_True by done.
  unfold mbind, option_bind. cbn [take_message]. unfold header_waiter_do, waiter_step. cbn [header_waiter set_in_flight].
  rewrite Hp, decide_False by (by intros [? ?]). unfold sync_batches. rewrite map_to_list_singleton. csimpl.
  rewrite Hb. unfold group_by_worker. csimpl. rewrite lookup_singleton_eq, lookup_empty. csimpl.
  rewrite insert_empty, map_to_list_singleton. cbn [sync_workers]. rewrite Hx. cbn. by eexists.
Qed.

(** An announcement of a batch of another: it is marked. *)
Lemma primary_marks n d :
  in_flight n = [] →
  ∃ n' log, primary_runs n [WorkerReceives (serialize (OthersBatch d id)); PayloadReceiverTakes] = Some (n', log) ∧
    store (core n') = receive_payload (store (core n)) d id.
Proof.
  destruct n as [c b p se hw cw co r q]. cbn [in_flight core]. intros ->.
  unfold node_run, run_steps, node_step, act, dispatch_worker. rewrite bincode_roundtrip.
  cbn. rewrite decide_True by done. unfold mbind, option_bind. cbn. by do 2 eexists.
Qed.

Lemma payload_stored_write s d i key : stored s key → stored (receive_payload s d i) key.
Proof.
  intros [v Hv]. unfold receive_payload. destruct (decide (payload_key d i = key)) as [<-|?].
  - exists []. by rewrite storage_read_write.
  - exists v. by rewrite storage_read_write_ne.
Qed.

(** The only batch missing is marked. *)
Lemma payload_complete s d h :
  hd_payload h !! d = Some id → (∀ d' i, hd_payload h !! d' = Some i → d' = d ∨ stored s (payload_key d' i)) →
  missing_payload name (receive_payload s d id) h = Ret (false, []).
Proof.
  intros Hpay Hrest. unfold missing_payload. case_decide; [done|].
  destruct (missing_payload_loop_all (receive_payload s d id) h) as (m & -> & Hm). simpl. rewrite decide_True; [done|].
  apply map_empty. intros d'. apply eq_None_not_Some. intros [i [Hp Hn]%Hm]. apply Hn.
  destruct (Hrest d' i Hp) as [->|?]; [|by apply payload_stored_write].
  assert (i = id) as -> by congruence. exists []. unfold receive_payload. by rewrite storage_read_write.
Qed.
End batch_path.

(** ** Properties *)

(** C30: A missing batch is asked for at the wrong worker. When a primary suspends the header of another authority
    for a batch of it, the only command it sends goes to the worker of the author of the header, not to its own:
    that worker has the batch, and the request it sends is empty and goes to itself. The rest of the way works,
    address by address: if our own worker had the command, it would ask the worker of the author for the batch,
    which would send it to ours, which would store it, touch nothing else, and announce it to our primary; the
    announcement would mark the batch, and the header, whose other batches are marked, would be let through. *)
Theorem missing_batch_requests `{!Sha512, !Dalek, !Backend, !Storage, !StorageLaws _, !Bincode Header, !Bincode Certificate,
    !Bincode PrimaryMessage, !Bincode WorkerMessage, !Bincode PrimaryWorkerMessage, !Bincode WorkerPrimaryMessage,
    !BincodeLaws WorkerMessage, !BincodeLaws PrimaryWorkerMessage, !BincodeLaws WorkerPrimaryMessage}
    committee parameters benchmark name secret env cfg id (p : Node) (ours theirs : WorkerNode) h data batch
    our_worker their_worker our_primary their_primary now :
  let d := hash_bytes data in
  let author := hd_author h in
  let ours_runs := worker_run name id committee parameters benchmark (worker_to_primary our_primary) in
  let theirs_runs := worker_run author id committee parameters benchmark (worker_to_primary their_primary) in
  let primary_runs := node_run name committee secret parameters env cfg in
  worker committee name id = Ret our_worker → worker committee author id = Ret their_worker →
  Config.primary committee name = Ret our_primary →
  (* The primary has just suspended the header for this batch, which the worker of the author has and ours has not. *)
  in_flight p = [OnSyncHeaders (SyncBatches {[ d := id ]} h)] →
  pending (pool (header_waiter p)) !! hd_id h = None → batch_requests (header_waiter p) !! d = None →
  hd_payload h !! d = Some id → (∀ d' i, hd_payload h !! d' = Some i → d' = d ∨ stored (store (core p)) (payload_key d' i)) →
  wn_in_flight theirs = [] → pending (ws_pool (wn_synchronizer theirs)) !! d = None →
  storage_read (wn_store theirs) (Digest_to_vec d) = Ret (Some data) → deserialize data = Ret (WMBatch batch) →
  wn_in_flight ours = [] → pending (ws_pool (wn_synchronizer ours)) !! d = None →
  storage_read (wn_store ours) (Digest_to_vec d) = Ret None →
  ∃ p1, primary_runs p [HeaderWaiterTakes now] =
      Some (p1, [EHeaderWaiter (Command (SyncBatches {[ d := id ]} h) now) (consensus_round p)
        [SendWorker (primary_to_worker their_worker) (Synchronize [d] author)]]) ∧
  (∃ theirs1 out, theirs_runs theirs [PrimarySends (serialize (Synchronize [d] author)); SynchronizerTakes now] =
      Some (theirs1, [WDispatch out; WSync (SyncMessage (Synchronize [d] author) now)
        [SendBatchRequest (worker_to_worker their_worker) (WMBatchRequest [] author)]])) ∧
  ∃ ours1 theirs1 ours2 p2 out1 out2 out3 log,
    ours_runs ours [PrimarySends (serialize (Synchronize [d] author)); SynchronizerTakes now] =
      Some (ours1, [WDispatch out1; WSync (SyncMessage (Synchronize [d] author) now)
        [SendBatchRequest (worker_to_worker their_worker) (WMBatchRequest [d] name)]]) ∧
    theirs_runs theirs [WorkerSends (serialize (WMBatchRequest [d] name)); WorkerHelperTakes] =
      Some (theirs1, [WDispatch out2; WHelper [d] name [(worker_to_worker our_worker, data)]]) ∧
    ours_runs ours1 [WorkerSends data; ProcessorTakes false; ConnectorTakes] =
      Some (ours2, [WDispatch out3; WProcess false data (serialize (OthersBatch d id));
        WConnect (serialize (OthersBatch d id)) [(worker_to_primary our_primary, serialize (OthersBatch d id))]]) ∧
    batch_at (wn_store ours2) d ∧
    (∀ key, key ≠ Digest_to_vec d → storage_read (wn_store ours2) key = storage_read (wn_store ours) key) ∧
    primary_runs p1 [WorkerReceives (serialize (OthersBatch d id)); PayloadReceiverTakes] = Some (p2, log) ∧
    missing_payload name (store (core p2)) h = Ret (false, []).
Proof.
  intros d author ours_runs theirs_runs primary_runs Ho Ht Hp Hpf Hpp Hpb Hpay Hrest Htf Htp Hts Hd Hof Hop Hos.
  destruct (primary_commands committee parameters id name secret env cfg p d h their_worker now Hpf Hpp Hpb Ht)
    as (p1 & E1 & Hf1 & Hs1).
  destruct (worker_synchronizes committee parameters benchmark id author (worker_to_primary their_primary) theirs d author
    their_worker now Htf Htp Ht) as (theirs1 & out & E2 & _). rewrite Hts in E2.
  destruct (worker_synchronizes committee parameters benchmark id name (worker_to_primary our_primary) ours d author
    their_worker now Hof Hop Ht) as (ours1 & out1 & E3 & Hf3 & Hs3). rewrite Hos in E3.
  destruct (worker_replies committee parameters benchmark id author (worker_to_primary their_primary) theirs d name our_worker
    data Htf Hts Ho) as (theirs2 & out2 & E4).
  destruct (worker_stores committee parameters benchmark id name (worker_to_primary our_primary) ours1 data batch Hf3 Hd)
    as (ours2 & out3 & E5 & Hs5).
  destruct (primary_marks committee parameters id name secret env cfg p1 d Hf1) as (p2 & log & E6 & Hs6).
  exists p1. split; [exact E1|]. split; [by exists theirs1, out|].
  exists ours1, theirs2, ours2, p2, out1, out2, out3, log. split_and!; [done..| | |done|].
  - rewrite Hs5. exists data. by rewrite storage_read_write.
  - intros key Hk. by rewrite Hs5, Hs3, storage_read_write_ne.
  - rewrite Hs6, Hs1. by apply payload_complete.
Qed.

(** ** Evaluation *)

Module SampleSystem.
Import Toy ToyBackend ToyBincode MapDB SampleStore SampleWorker SampleMessages SampleWorkerNode.

#[export] Instance worker_message_laws : BincodeLaws WorkerMessage := toy_bincode_laws _ _.
#[export] Instance primary_worker_message_laws : BincodeLaws PrimaryWorkerMessage := toy_bincode_laws _ _.

(** A header of authority 3 with [batch_1], and primary 1 when its core has suspended it. *)
Definition header_3 : Header := header 3 1 {[ hash_bytes batch_1 := 0 ]} genesis_digests.
Definition primary_1 : Node :=
  MkNode (Core_new empty_store) true SampleProposer.p0 false HeaderWaiter_new [] (State_new (genesis Sample.committee)) 0
    [OnSyncHeaders (SyncBatches {[ hash_bytes batch_1 := 0 ]} header_3)].

(** The worker of authority 3 has the batch, that of authority 1 has an empty store. *)
Definition worker_3 : WorkerNode :=
  set_wn_store (λ s, storage_write s (Digest_to_vec (hash_bytes batch_1)) batch_1) node.

Definition worker_of (i : N) : WorkerAddresses :=
  value (MkWorkerAddresses (Sample.address 0) (Sample.address 0) (Sample.address 0)) (worker Sample.committee (pk i) 0).
Definition primary_of (i : N) : PrimaryAddresses :=
  value (MkPrimaryAddresses (Sample.address 0) (Sample.address 0)) (Config.primary Sample.committee (pk i)).
End SampleSystem.

Section witnesses.
Import Toy ToyBackend ToyBincode MapDB SampleStore SampleWorker SampleMessages SampleWorkerNode SampleSystem.

Lemma missing_batch_requests_witness :
  primary_to_worker (worker_of 3) ≠ primary_to_worker (worker_of 1) ∧
  ∃ p1, node_run (pk 1) Sample.committee (sk 1) Parameters_default (λ _, None) SampleProposer.cfg primary_1 [HeaderWaiterTakes 7] =
    Some (p1, [EHeaderWaiter (Command (SyncBatches {[ hash_bytes batch_1 := 0 ]} header_3) 7) 0
      [SendWorker (primary_to_worker (worker_of 3)) (Synchronize [hash_bytes batch_1] (pk 3))]]).
Proof.
  split; [apply (bool_decide_unpack _); vm_compute; exact I|].
  destruct (missing_batch_requests Sample.committee Parameters_default true (pk 1) (sk 1) (λ _, None) SampleProposer.cfg 0
    primary_1 node worker_3 header_3 batch_1 [[x00; x01]] (worker_of 1) (worker_of 3) (primary_of 1) (primary_of 3) 7)
    as (p1 & E & _).
  - vm_compute. reflexivity.
  - vm_compute. reflexivity.
  - vm_compute. reflexivity.
  - reflexivity.
  - reflexivity.
  - reflexivity.
  - vm_compute. reflexivity.
  - intros d i Hd. assert (Ed : hd_payload header_3 = {[ hash_bytes batch_1 := 0 ]})
      by (apply (bool_decide_unpack _); vm_compute; exact I).
    rewrite Ed in Hd. apply lookup_singleton_Some in Hd as [Hd _]. left. symmetry. exact Hd.
  - reflexivity.
  - reflexivity.
  - vm_compute. reflexivity.
  - apply bincode_roundtrip.
  - reflexivity.
  - reflexivity.
  - vm_compute. reflexivity.
  - exists p1. exact E.
Defined.
End witnesses.
