(* ===== verification/NodeSamples.v ===== *)
(** Runs of the primaries of the sample committee, for evaluation: three honest primaries go through the rounds
    in step, the fourth authority sends what its peers expect of it. *)

From S2P Require Import Prelude Channels Crypto Config Messages Adversary Aggregators Store Primary.
From S2P Require Import Core Proposer Pool Waiters Consensus.
From S2P Require Import Network Worker Node.

Import Toy ToyBackend ToyBincode MapDB SampleStore SampleWorker SampleMessages.

Lemma sample_small : small_stake Sample.committee.
Proof. vm_compute. reflexivity. Qed.

Notation empty_store := (StoreTask_new : @storage _ map_storage).

(** The header of authority [i] in a round, given the certificates of the round before: its parents are the
    genesis, or the first quorum of certificates to arrive. Those of authority 4 have a batch. *)
Definition sample_parents (previous : list Certificate) : gset Digest :=
  list_to_set (digest <$> take 3 previous).

Definition sample_headers (r : N) (parents : gset Digest) : list Header :=
  (λ i, header i r (if i =? 4 then {[ hash_bytes batch_1 := 0 ]} else ∅) parents) <$> [1; 3; 4; 2].

Definition sample_certificates (headers : list Header) : list Certificate :=
  (λ h, certificate h [1; 2; 3]) <$> headers.

(** The headers and certificates of [n] rounds from round [r] on. *)
Fixpoint sample_rounds (n : nat) (r : N) (parents : gset Digest) : list (list Header * list Certificate) :=
  match n with
  | O => []
  | S n =>
      let hs := sample_headers r parents in
      let cs := sample_certificates hs in
      (hs, cs) :: sample_rounds n (r + 1) (sample_parents cs)
  end.

Definition core_step_actions (k : Channel) : list Action := [CoreTakes k; CoreCleansUp].

(** What primary [i] does in a round, which starts at [now]. *)
Definition round_actions (i now : N) (hs : list Header) (cs : list Certificate) : list Action :=
  ProposerProposes now now :: core_step_actions HeadersChannel ++
  ((filter (λ h, hd_author h ≠ pk i) hs) ≫= λ h,
    PrimaryReceives (serialize (PMHeader h)) :: core_step_actions PrimaryMessages) ++
  (cs ≫= λ c, PrimaryReceives (serialize (PMCertificate c)) :: core_step_actions PrimaryMessages) ++
  replicate (length cs) ConsensusTakes ++ [ProposerTakes (Some ParentsChannel)].

Fixpoint run_actions (i now : N) (rounds : list (list Header * list Certificate)) : list Action :=
  match rounds with
  | [] => []
  | (hs, cs) :: rounds => round_actions i now hs cs ++ run_actions i (now + 1000) rounds
  end.

Definition sample_spawn (i : N) : outcome unit (Settings * Node * list Output) :=
  node_spawn (pk i) (sk i) Sample.committee Parameters_default empty_store (λ _, None) (Throw NotPresent) 0.

Notation run_from i := (node_run (pk i) Sample.committee (sk i) Parameters_default (λ _, None)).

(** The run of primary [i] on a list of actions; evaluation shows that no step of it is refused. *)
Definition sample_run_on (i : N) (actions : list Action) : NodeRun :=
  let '(cfg, n0, out) := value (SampleProposer.cfg, MkNode (Core_new empty_store) false SampleProposer.p0 false
    HeaderWaiter_new [] (State_new (genesis Sample.committee)) 0 [], []) (sample_spawn i) in
  let '(n1, log) := default (n0, []) (run_from i cfg n0 actions) in
  MkNodeRun (sk i) Parameters_default (λ _, None) (Throw NotPresent) 0 empty_store actions cfg n0 out n1 log.

(** No step is refused, and a property of the end of the run holds: one evaluation for all that is asked. *)
Definition check_run (i : N) (actions : list Action) (P : Node → list Entry → bool) : bool :=
  match sample_spawn i with
  | Ret (cfg, n0, _) => match run_from i cfg n0 actions with Some (n, log) => P n log | None => false end
  | _ => false
  end.

Lemma check_run_spec i actions P :
  check_run i actions P = true →
  let r := sample_run_on i actions in
  sample_spawn i = Ret (nr_cfg r, nr_start r, nr_out r) ∧
  run_from i (nr_cfg r) (nr_start r) (nr_actions r) = Some (nr_end r, nr_log r) ∧
  P (nr_end r) (nr_log r) = true.
Proof.
  unfold check_run, sample_run_on. destruct (sample_spawn i) as [[[cfg n0] out]| |]; [|done..].
  cbn [value]. destruct (run_from i cfg n0 _) as [[n1 log]|] eqn:E; [|done]. intros HP. split_and!; [done|exact E|exact HP].
Qed.

Lemma sample_run_constants i actions :
  let r := sample_run_on i actions in
  nr_store r = empty_store ∧ nr_parameters r = Parameters_default ∧ nr_actions r = actions ∧
  nr_secret r = sk i ∧ nr_env r = (λ _, None) ∧ nr_var r = Throw NotPresent ∧ nr_now r = 0.
Proof. unfold sample_run_on. destruct (value _ _) as [[cfg n0] out]. by destruct (default _ _) as [n1 log]. Qed.

(** Through [n] rounds, when its worker has announced the batch. *)
Definition rounds_actions (i : N) (n : nat) : list Action :=
  [WorkerReceives (serialize (OthersBatch (hash_bytes batch_1) 0)); PayloadReceiverTakes] ++
  run_actions i 1000 (sample_rounds n 1 genesis_digests).
Notation sample_run i n := (sample_run_on i (rounds_actions i n)).
