(* ===== verification/NodeFacts.v ===== *)
(** Facts on the runs of a primary node: its channels are queues, and each of its tasks runs as its own model
    says on the messages it takes. *)

From S2P Require Import Prelude Channels Crypto Config Messages Adversary Aggregators Store Primary.
From S2P Require Import Core CoreFacts Proposer Pool Waiters Consensus Node.

Section facts.
Context `{!Sha512, !Dalek, !Backend, !Storage}.
Context `{!Bincode Header, !Bincode Certificate, !Bincode PrimaryMessage, !Bincode WorkerPrimaryMessage}.
Variables (name : PublicKey) (committee : Committee) (secret : SecretKey) (parameters : Parameters).
Variables (env : Environment) (cfg : Settings).
Implicit Types (n : Node) (q : list Message) (log : list Entry).

Notation act := (act name committee secret parameters env cfg).
Notation node_step := (node_step name committee secret parameters env cfg).
Notation node_run := (node_run name committee secret parameters env cfg).
Notation take_message := (take_message name committee secret parameters env cfg).
Notation gc_depth := (Config.gc_depth parameters).

(** ** What a step does to the node *)

(** One case for each kind of entry: the parts of the node that change, but for the messages in flight. *)
Inductive did n : Entry → Node → Prop :=
| did_dispatch out : did n (EDispatch out) n
| did_core input c es :
    cleaning n = false → core_handle name committee secret (core n) input = (Some c, es) →
    did n (ECore input es) (set_cleaning true (set_core (λ _, c) n))
| did_clean_up :
    cleaning n = true →
    did n (ECleanUp (consensus_round n)) (set_cleaning false (set_core (cleanup gc_depth (consensus_round n)) n))
| did_payload d w : did n (EPayload d w) (set_core (set_store (λ s, receive_payload s d w)) n)
| did_propose now now' p out :
    selecting n = false → propose cfg (proposer n) now now' = Ret (p, out) →
    did n (EPropose now now' out) (set_proposer p true n)
| did_proposer e :
    selecting n = true →
    did n (EProposer e (handle_event cfg (proposer n) e).2) (set_proposer (handle_event cfg (proposer n) e).1 false n)
| did_header_waiter e hw out :
    enabled (store (core n)) (header_waiter n) e →
    waiter_step name committee gc_depth (sync_retry_delay parameters) (sync_retry_nodes parameters)
      (header_waiter n) e (consensus_round n) = Ret (hw, out) →
    did n (EHeaderWaiter e (consensus_round n) out) (set_header_waiter hw n)
| did_certificate_waiter e :
    did n (ECertificateWaiter e (certificate_waiter_step (certificate_waiter n) e).2)
      (set_certificate_waiter (certificate_waiter_step (certificate_waiter n) e).1 n)
| did_help missing requestor out :
    help committee (store (core n)) missing requestor = (out, Ret ()) → did n (EHelper missing requestor out) n
| did_consensus c s sequence :
    Consensus.process_certificate committee gc_depth env (consensus n) c = Ret (s, sequence) →
    did n (EConsensus c sequence) (set_consensus s n)
| did_collect c :
    did n (ECollector c (collect_step (consensus_round n) c).2)
      (set_consensus_round (collect_step (consensus_round n) c).1 n).

Lemma header_waiter_do_did n e n' entry :
  enabled (store (core n)) (header_waiter n) e →
  header_waiter_do name committee parameters n e = Some (n', entry) →
  did n entry n' ∧ ∃ round out, entry = EHeaderWaiter e round out.
Proof.
  unfold header_waiter_do. intros He. destruct (waiter_step _ _ _ _ _ _ _ _) as [[hw out]| |] eqn:E; [|done..].
  intros [= <- <-]. split; [by constructor|by do 2 eexists].
Qed.

Lemma certificate_waiter_do_did n e n' entry :
  certificate_waiter_do n e = Some (n', entry) → did n entry n' ∧ ∃ out, entry = ECertificateWaiter e out.
Proof.
  unfold certificate_waiter_do. pose proof (did_certificate_waiter n e) as Hd.
  destruct (certificate_waiter_step _ _) as [cw out]. intros [= <- <-]. split; [done|by eexists].
Qed.

Lemma core_take_did n m n' e :
  core_take name committee secret n m = Some (n', e) → did n e n' ∧ taken e = Some m.
Proof.
  unfold core_take. intros E. destruct (core_input m) as [input|] eqn:Ei; [|done]. simpl in E.
  destruct (cleaning n) eqn:Ec; [done|]. destruct (core_handle _ _ _ _ _) as [[c|] es] eqn:Eh; [|done].
  injection E as <- <-. split; [by constructor|]. destruct m; simplify_eq/=; done.
Qed.

Lemma proposer_take_did n x n' e :
  proposer_take cfg n x = Some (n', e) → did n e n' ∧ ∃ out, e = EProposer x out.
Proof.
  unfold proposer_take. destruct (selecting n) eqn:Es; [|done]. pose proof (did_proposer n x Es) as Hd.
  destruct (handle_event cfg (proposer n) x) as [p out]. intros [= <- <-]. split; [done|by eexists].
Qed.

Lemma take_message_did n m now n' e :
  take_message n m now = Some (n', e) → did n e n' ∧ taken e = Some m.
Proof.
  destruct m as [d w|d w|ps r|h|m|c|h|c|m|ds o|c|c]; simpl; intros E.
  - injection E as <- <-. split; [constructor|done].
  - apply proposer_take_did in E as [? (? & ->)]. done.
  - apply proposer_take_did in E as [? (? & ->)]. done.
  - by apply core_take_did.
  - apply header_waiter_do_did in E as [? (? & ? & ->)]; done.
  - apply certificate_waiter_do_did in E as [? (? & ->)]. done.
  - by apply core_take_did.
  - by apply core_take_did.
  - by apply core_take_did.
  - destruct (help _ _ _ _) as [out [[]| |]] eqn:Eh; [|done..]. injection E as <- <-. split; [by constructor|done].
  - destruct (Consensus.process_certificate _ _ _ _ _) as [[s sequence]| |] eqn:Ep; [|done..].
    injection E as <- <-. split; [by constructor|done].
  - pose proof (did_collect n c) as Hd. destruct (collect_step _ _) as [r out]. injection E as <- <-. done.
Qed.

(** A step takes at most one message from a channel, does one of these, and sends. *)
Definition stepped n e n' : Prop :=
  ∃ q n1, consumes (in_flight n) (taken e) q ∧ did (set_in_flight q n) e n1 ∧
    n' = set_in_flight (in_flight n1 ++ sent e) n1.

Lemma all_stored_spec s keys : all_stored s keys = true → ∀ key, key ∈ keys → stored s key.
Proof.
  unfold all_stored, stored. rewrite forallb_elem. intros Hs key Hk. specialize (Hs key Hk).
  destruct (storage_read s key) as [[v|]| |]; [by exists v|done..].
Qed.

Lemma take_from_did n k now n' e :
  take_from name committee secret parameters env cfg n k now = Some (n', e) →
  ∃ q, consumes (in_flight n) (taken e) q ∧ did (set_in_flight q n) e n'.
Proof.
  unfold take_from. destruct (recv k (in_flight n)) as [[m q]|] eqn:E; [|done]. simpl.
  intros [Hd Ht]%take_message_did. apply recv_consumes in E as [_ Hc]. exists q. rewrite Ht. by split.
Qed.

Lemma act_did n a n' e :
  act n a = Some (n', e) → ∃ q, consumes (in_flight n) (taken e) q ∧ did (set_in_flight q n) e n'.
Proof.
  assert (Hn : set_in_flight (in_flight n) n = n) by by destruct n.
  assert (Hnone : taken e = None → did n e n' → ∃ q, consumes (in_flight n) (taken e) q ∧ did (set_in_flight q n) e n').
  { intros Ht Hd. exists (in_flight n). rewrite Hn, Ht. by split. }
  destruct a as [s|s|k| | |now now'|[k|]|now|i cancelled|now| |i| | |]; simpl; intros E;
    try (by eapply take_from_did); try (destruct k; [done || by eapply take_from_did..]).
  - injection E as <- <-. apply Hnone; [done|constructor].
  - injection E as <- <-. apply Hnone; [done|constructor].
  - destruct (cleaning n) eqn:Ec; [|done]. injection E as <- <-. apply Hnone; [done|by constructor].
  - destruct (selecting n) eqn:Es; [done|]. destruct (propose _ _ _ _) as [[p out]| |] eqn:Ep; [|done..].
    injection E as <- <-. apply Hnone; [done|by constructor].
  - apply proposer_take_did in E as [? (? & ->)]. by apply Hnone.
  - destruct (waiting (pool (header_waiter n)) !! i) as [[[id [keys h]] c]|] eqn:Ei; [|done]. simpl in E.
    destruct cancelled; [destruct c; [|done]|destruct (all_stored _ keys) eqn:Ek; [|done]];
      (apply header_waiter_do_did in E as [? (? & ? & ->)]; [by apply Hnone|]); simpl;
      do 3 eexists; (split; [exact Ei|]); simpl; [by apply waiter_cancelled|].
    apply waiter_delivers. intros. by eapply all_stored_spec.
  - apply header_waiter_do_did in E as [? (? & ? & ->)]; [by apply Hnone|done].
  - destruct (certificate_waiter n !! i) as [[keys c]|]; [|done]. simpl in E. destruct (all_stored _ _); [|done].
    apply certificate_waiter_do_did in E as [? (? & ->)]. by apply Hnone.
Qed.

Lemma node_step_stepped n a n' e : node_step n a = Some (n', e) → stepped n e n'.
Proof.
  unfold Node.node_step. destruct (act n a) as [[n1 e1]|] eqn:E; [|done]. simpl. intros [= <- <-].
  apply act_did in E as (q & Hc & Hd). by exists q, n1.
Qed.

(** ** Runs *)

(** A relation between the node before, what was done and the node after holds along a run when it is reflexive,
    transitive and holds of every step. *)
Lemma node_run_ind (R : Node → list Entry → Node → Prop) n actions n' log :
  (∀ n, R n [] n) → (∀ n1 e n2 log n3, stepped n1 e n2 → R n2 log n3 → R n1 (e :: log) n3) →
  node_run n actions = Some (n', log) → R n log n'.
Proof. intros Hr Hs. apply (run_steps_ind node_step stepped); [exact node_step_stepped|done..]. Qed.

(** ** What the log says of each task *)

Definition core_effects log : list Effect := log ≫= λ e, match e with ECore _ es => es | _ => [] end.
Definition proposer_outputs log : list Output :=
  log ≫= λ e, match e with EPropose _ _ out | EProposer _ out => out | _ => [] end.
Definition proposer_events log : list Proposer.Event := omap (λ e, match e with EProposer x _ => Some x | _ => None end) log.
Definition fed_certificates log : list Certificate := omap (λ e, match e with EConsensus c _ => Some c | _ => None end) log.
Definition committed log : list (Certificate * bool) := log ≫= λ e, match e with EConsensus _ seq => seq | _ => [] end.
Definition collected log : list Certificate := omap (λ e, match e with ECollector c _ => Some c | _ => None end) log.
Definition worker_cleanups log : list PrimaryWorkerMessage := log ≫= λ e, match e with ECollector _ out => out | _ => [] end.
Definition certificate_waiter_events log : list CertificateWaiterEvent :=
  omap (λ e, match e with ECertificateWaiter x _ => Some x | _ => None end) log.
Definition resumed_certificates log : list Certificate := log ≫= λ e, match e with ECertificateWaiter _ out => out | _ => [] end.

Lemma core_effects_app log log' : core_effects (log ++ log') = core_effects log ++ core_effects log'.
Proof. apply bind_app. Qed.
Lemma fed_certificates_app log log' : fed_certificates (log ++ log') = fed_certificates log ++ fed_certificates log'.
Proof. apply omap_app. Qed.

(** Every channel is a queue. *)
Lemma node_run_channels n actions n' log :
  node_run n actions = Some (n', log) →
  ∀ k, on k (in_flight n) ++ on k (log ≫= sent) = on k (omap taken log) ++ on k (in_flight n').
Proof.
  apply run_steps_channels. intros n1 a n2 e (q & n3 & Hc & Hd & ->)%node_step_stepped. exists q. split; [done|].
  by destruct Hd.
Qed.

(** What is taken from a channel that starts empty was sent on it, in order. *)
Lemma node_run_prefix {B} (f : B → Message) g h k n actions n' log :
  Inj (=) (=) f → on k (in_flight n) = [] →
  (∀ e, on k (sent e) = f <$> g e) → (∀ e, on k (option_list (taken e)) = f <$> option_list (h e)) →
  node_run n actions = Some (n', log) → omap h log `prefix_of` log ≫= g.
Proof.
  intros Hf Hn Hg Hh. apply (run_steps_prefix _ in_flight taken sent) with (f := f) (k := k); [|done..].
  intros n1 a n2 e (q & n3 & Hc & Hd & ->)%node_step_stepped. exists q. split; [done|]. by destruct Hd.
Qed.

(** What is dispatched comes from a message to one of the two receivers. *)
Lemma take_from_dispatch n k now n' out : take_from name committee secret parameters env cfg n k now ≠ Some (n', EDispatch out).
Proof.
  unfold take_from. destruct (recv k (in_flight n)) as [[m q]|]; [|done]. simpl. by intros [_ [=]]%take_message_did.
Qed.

Lemma header_waiter_dispatch n e n' out : header_waiter_do name committee parameters n e ≠ Some (n', EDispatch out).
Proof. unfold header_waiter_do. by destruct (waiter_step _ _ _ _ _ _ _ _) as [[hw o]| |]. Qed.

Lemma dispatched_received n actions n' log out :
  node_run n actions = Some (n', log) → EDispatch out ∈ log →
  (∃ s, PrimaryReceives s ∈ actions ∧ out = (dispatch_primary s).1) ∨
  (∃ s, WorkerReceives s ∈ actions ∧ out = (dispatch_worker s).1).
Proof.
  intros Hr He. destruct (run_steps_elem node_step _ _ _ _ _ Hr He) as (n1 & a & n2 & Ha & Es). clear He.
  unfold Node.node_step in Es. destruct (act n1 a) as [[n3 e]|] eqn:E; [|done]. simpl in Es. injection Es as _ ->.
  destruct a as [s|s|k| | |now now'|[k|]|now|i cancelled|now| |i| | |]; simpl in E;
    try (by apply take_from_dispatch in E); try (destruct k; [done || by apply take_from_dispatch in E..]).
  - left. exists s. split; [done|]. by injection E.
  - right. exists s. split; [done|]. by injection E.
  - by destruct (cleaning n1).
  - destruct (selecting n1); [done|]. by destruct (propose _ _ _ _) as [[p o]| |].
  - by apply proposer_take_did in E as [_ (? & [=])].
  - destruct (_ !! i) as [[[id [keys h]] c]|]; [|done]. simpl in E.
    destruct cancelled; [destruct c|destruct (all_stored _ _)]; by try apply header_waiter_dispatch in E.
  - by apply header_waiter_dispatch in E.
  - destruct (_ !! i) as [[keys c]|]; [|done]. simpl in E. destruct (all_stored _ _); [|done].
    by apply certificate_waiter_do_did in E as [_ (? & [=])].
Qed.

Lemma node_run_consensus n actions n' log :
  node_run n actions = Some (n', log) →
  Consensus.run committee gc_depth env (consensus n) (fed_certificates log) = Ret (consensus n', committed log).
Proof.
  apply (node_run_ind (λ n log n', Consensus.run committee gc_depth env (consensus n) (fed_certificates log) =
    Ret (consensus n', committed log))); [done|].
  clear n actions n' log. intros n1 e n2 log n3 (q & n & _ & Hd & ->) IH. simpl in IH.
  destruct Hd; csimpl in *; try exact IH.
  match goal with H : Consensus.process_certificate _ _ _ _ _ = _ |- _ => rewrite H; simpl end. by rewrite IH.
Qed.

Lemma node_run_collector n actions n' log :
  node_run n actions = Some (n', log) →
  collect (consensus_round n) (collected log) = (consensus_round n', worker_cleanups log).
Proof.
  apply (node_run_ind (λ n log n', collect (consensus_round n) (collected log) =
    (consensus_round n', worker_cleanups log))); [done|].
  clear n actions n' log. intros n1 e n2 log n3 (q & n & _ & Hd & ->) IH. simpl in IH.
  destruct Hd; csimpl in *; try exact IH.
  destruct (collect_step _ _) as [r out]. simpl in *. by rewrite IH.
Qed.

Lemma node_run_certificate_waiter n actions n' log :
  node_run n actions = Some (n', log) →
  certificate_waiter_run (certificate_waiter n) (certificate_waiter_events log) =
    (certificate_waiter n', resumed_certificates log).
Proof.
  apply (node_run_ind (λ n log n', certificate_waiter_run (certificate_waiter n) (certificate_waiter_events log) =
    (certificate_waiter n', resumed_certificates log))); [done|].
  clear n actions n' log. intros n1 e n2 log n3 (q & n & _ & Hd & ->) IH. simpl in IH.
  destruct Hd; csimpl in *; try exact IH.
  destruct (certificate_waiter_step _ _) as [r out]. simpl in *. by rewrite IH.
Qed.

Notation hw_reach := (waiter_reach name committee gc_depth (sync_retry_delay parameters) (sync_retry_nodes parameters)).

Lemma node_run_header_waiter n actions n' log :
  node_run n actions = Some (n', log) → hw_reach (header_waiter n) → hw_reach (header_waiter n').
Proof.
  apply (node_run_ind (λ n log n', hw_reach (header_waiter n) → hw_reach (header_waiter n'))); [done|].
  clear n actions n' log. intros n1 e n2 log n3 (q & n & _ & Hd & ->) IH Hn. apply IH. simpl.
  destruct Hd; simpl in *; try exact Hn. by eapply waiter_steps.
Qed.

(** [p] is the state of the proposer at the head of its current iteration, and [o] what it sent since. *)
Definition at_head n (p : Proposer.Proposer) (o : list Output) : Prop :=
  if selecting n then ∃ now now', propose cfg p now now' = Ret (proposer n, o) else p = proposer n ∧ o = [].

Definition proposer_between n log n' : Prop :=
  ∀ p o, at_head n p o →
    ∃ its p' out o', Proposer.steps cfg p its = Ret (p', out) ∧ its.*2 = proposer_events log ∧
      at_head n' p' o' ∧ o ++ proposer_outputs log = out ++ o'.

Lemma node_run_proposer n actions n' log :
  node_run n actions = Some (n', log) → proposer_between n log n'.
Proof.
  apply node_run_ind.
  { intros n1 p o Hp. exists [], p, [], o. by rewrite app_nil_r. }
  clear n actions n' log. intros n1 e n2 log n3 (q & n & _ & Hd & ->) IH p o Hp.
  unfold proposer_outputs. rewrite bind_cons. fold (proposer_outputs log).
  destruct Hd as [|input c es Hcl Hc|Hcl| |now now' p1 out Hs Hpr|e Hs|e hw out He Hw| | |c s sequence Hpc|c]; simpl in *;
    try (by apply IH).
  - unfold at_head in Hp. rewrite Hs in Hp. destruct Hp as [-> ->]. apply (IH (proposer n1) out).
    unfold at_head. simpl. by exists now, now'.
  - unfold at_head in Hp. rewrite Hs in Hp. destruct Hp as (now & now' & Hp).
    destruct (IH (handle_event cfg (proposer n1) e).1 []) as (its & p' & out & o' & Est & Ei & Hh & Eo); [done|].
    exists ((now, now', e) :: its), p', ((o ++ (handle_event cfg (proposer n1) e).2) ++ out), o'.
    split_and!; [|csimpl; by f_equal|done|by rewrite <-!app_assoc, <-Eo].
    cbn [steps]. unfold Proposer.step. rewrite Hp. simpl. destruct (handle_event _ _ _) as [p2 o2]. simpl in *.
    by rewrite Est.
Qed.

(** A relation that the handlers of the core keep, and so do the clean-ups of the run and the marks of the
    [PayloadReceiver], holds between the core before and after. *)
Lemma node_run_core (R : Core.Core → list Effect → Core.Core → Prop) n actions n' log :
  core_relation name committee secret R →
  (∀ c addresses h, R c [NetworkBroadcast addresses (PMHeader h)] c) →
  (∀ c d w, R c [] (set_store (λ s, receive_payload s d w) c)) →
  node_run n actions = Some (n', log) →
  (∀ r, ECleanUp r ∈ log → ∀ c, R c [] (cleanup gc_depth r c)) →
  R (core n) (core_effects log) (core n').
Proof.
  intros HR Hheader Hpay. pose proof (hr_refl_trans _ _ _ _ (cr_headers _ _ _ _ HR)) as HE.
  apply (node_run_ind (λ n log n', (∀ r, ECleanUp r ∈ log → ∀ c, R c [] (cleanup gc_depth r c)) →
    R (core n) (core_effects log) (core n'))); [intros; apply (R_refl R)|].
  clear n actions n' log. intros n1 e n2 log n3 (q & n & _ & Hd & ->) IH Hcl. simpl in IH.
  specialize (IH (λ r Hr, Hcl r (list_elem_of_further _ _ _ Hr))).
  change (core_effects (e :: log)) with (core_effects ([e] ++ log)). rewrite core_effects_app.
  eapply (R_trans R); [|exact IH]. unfold core_effects. simpl. rewrite ?app_nil_r.
  destruct Hd; simpl in *; rewrite ?app_nil_r; try apply (R_refl R).
  - match goal with H : core_handle _ _ _ _ _ = _ |- _ => apply (core_handle_respects _ _ _ _ HR) in H as (c1 & Hc1 & E); [|done] end.
    by rewrite (E c eq_refl).
  - apply Hcl. left.
  - apply Hpay.
Qed.

(** ** The headers a node broadcasts *)

Definition own_headers (es : list Effect) : list Header :=
  omap (λ e, match e with NetworkBroadcast _ (PMHeader h) => Some h | _ => None end) es.

Lemma own_headers_app es es' : own_headers (es ++ es') = own_headers es ++ own_headers es'.
Proof. apply omap_app. Qed.

(** The handlers broadcast no header, but for the own header they process. *)
Lemma no_headers_relation : core_relation name committee secret (λ _ es _, own_headers es = []).
Proof.
  split; [split|..]; try done.
  - split; [done|]. intros c1 es1 c2 es2 c3 E1 E2. by rewrite own_headers_app, E1, E2.
  - intros c l. by induction l.
  - intros c l. by induction l.
  - by intros c x a [parents|] _ _.
Qed.

Lemma core_handle_headers c input c' es :
  core_handle name committee secret c input = (Some c', es) → own_headers es = option_list (own_header input).
Proof.
  unfold core_handle. destruct (handle_input _ _ _ input c) as [[[c1 es1] r1]|] eqn:E; [|done].
  intros Er. assert (es1 = es) as -> by (by destruct r1 as [[]|[]|]; injection Er). clear Er.
  destruct (own_header input) as [h'|] eqn:Eh; [|by eapply (handle_other_respects _ _ _ _ no_headers_relation)].
  destruct input as [m|h|x|h]; [done..|]. injection Eh as <-.
  unfold handle_input, process_own_header, broadcast, mbind, handler_bind, modify, emit in E.
  match type of E with context [process_header ?a ?b ?d ?f h ?c0] =>
    destruct (process_header a b d f h c0) as [[[c2 es2] r2]|] eqn:E2; [|done] end.
  apply (handlers_respect _ _ _ _ no_headers_relation) in E2. injection E as <- <- <-. simpl. by rewrite E2.
Qed.

Definition taken_headers log : list Header := omap (λ e, match e with ECore (FromProposer h) _ => Some h | _ => None end) log.

Lemma node_run_headers n actions n' log :
  node_run n actions = Some (n', log) → own_headers (core_effects log) = taken_headers log.
Proof.
  apply (node_run_ind (λ _ log _, own_headers (core_effects log) = taken_headers log)); [done|].
  clear n actions n' log. intros n1 e n2 log n3 (q & n & _ & Hd & ->) IH.
  change (core_effects (e :: log)) with (core_effects ([e] ++ log)).
  change (taken_headers (e :: log)) with (taken_headers ([e] ++ log)).
  rewrite core_effects_app, own_headers_app, IH. unfold taken_headers. rewrite omap_app. f_equal.
  destruct Hd as [|input c es Hc E| | | | | | | | |]; try done. apply core_handle_headers in E.
  unfold core_effects. simpl. rewrite app_nil_r. by destruct input.
Qed.
End facts.

(** What an event of a task took was sent to it: for messages with two arguments. *)
Ltac node_queue f k :=
  apply (node_run_prefix _ _ _ _ _ _ (uncurry f) _ _ k);
    [by intros [??] [??] [=]; f_equal|done
    |intros [out|i es|r|d w|now now' out|x out|x r out|x out|ds k' out|x out|x out]; simpl; sent_case
    |intros [out|[] es|r|d w|now now' out|[] out|[] rd out|[] out|ds k' out|x out|x out]; done].
