(* ===== verification/NodeSafety.v ===== *)
(** What holds of a whole primary node, from the properties of its tasks: it broadcasts at most one header per
    round, and its consensus takes what the core sent it, in that order. *)

From S2P Require Import Prelude Channels Crypto Config Messages Adversary Aggregators Store Primary.
From S2P Require Import Core CoreFacts Proposer Pool Waiters Consensus Network Worker.
From S2P Require Import Node NodeSamples NodeFacts.

(** ** From the log to the channels *)

Section logs.
Context `{!Dalek, !Backend}.
Implicit Types (log : list Entry).

(** What the core sent to the consensus. *)
Definition certificates_sent (es : list Effect) : list Certificate :=
  omap (λ e, match e with ToConsensus c => Some c | _ => None end) es.

Lemma omap_app_cons {A B} (f : A → option B) l pre x post :
  omap f l = pre ++ x :: post → ∃ l1 a l2, l = l1 ++ a :: l2 ∧ f a = Some x ∧ omap f l1 = pre.
Proof.
  revert pre. induction l as [|a l IH]; intros pre E; [by destruct pre|]. csimpl in E.
  destruct (f a) as [y|] eqn:Ea.
  - destruct pre as [|z pre]; simplify_eq/=; [by exists [], a, l|].
    destruct (IH pre) as (l1 & b & l2 & -> & ? & <-); [done|]. exists (a :: l1), b, l2. csimpl. by rewrite Ea.
  - destruct (IH pre E) as (l1 & b & l2 & -> & ? & <-). exists (a :: l1), b, l2. csimpl. by rewrite Ea.
Qed.

Lemma headers_on_channel log : on HeadersChannel (log ≫= sent) = OnHeaders <$> headers (proposer_outputs log).
Proof.
  assert (E : headers (proposer_outputs log) = log ≫= λ e, match e with EPropose _ _ out | EProposer _ out => headers out | _ => [] end).
  { unfold proposer_outputs. induction log as [|e log IH]; [done|]. rewrite !bind_cons, headers_app, IH. by destruct e. }
  rewrite E. apply on_steps. intros [out|input es|r|d w|now now' out|x out|x r out|x out|ds o out|c seq|c out];
    simpl; sent_case.
Qed.

Lemma headers_taken_on_channel log : on HeadersChannel (omap taken log) = OnHeaders <$> taken_headers log.
Proof.
  apply on_taken. intros e.
  by destruct e as [|[]| | | |[]|[]|[]| | |].
Qed.

Lemma certificates_on_channel log :
  on NewCertificates (log ≫= sent) = OnNewCertificates <$> certificates_sent (core_effects log).
Proof.
  assert (E : certificates_sent (core_effects log) = log ≫= λ e, match e with ECore _ es => certificates_sent es | _ => [] end).
  { unfold core_effects. induction log as [|e log IH]; [done|]. rewrite !bind_cons. unfold certificates_sent at 1.
    rewrite omap_app. unfold certificates_sent in IH. rewrite IH. by destruct e. }
  rewrite E. apply on_steps. intros [out|input es|r|d w|now now' out|x out|x r out|x out|ds o out|c seq|c out];
    simpl; sent_case.
Qed.

Lemma certificates_taken_on_channel log :
  on NewCertificates (omap taken log) = OnNewCertificates <$> fed_certificates log.
Proof.
  apply on_taken. intros e. by destruct e as [|[]| | | |[]|[]|[]| | |].
Qed.
End logs.

(** ** The start of a node *)

Section start.
Context `{!Sha512, !Dalek, !Backend, !Storage, !StorageLaws _}.
Context `{!Bincode Header, !Bincode Certificate, !Bincode PrimaryMessage, !Bincode WorkerPrimaryMessage}.
Implicit Types (n : Node) (log : list Entry).

(** What is known of a node that was just spawned. *)
Record spawned_node name committee s cfg n : Prop := {
  spawned_size : committee_size committee ≠ 0;
  spawned_core : core n = Core_new s;
  spawned_cleaning : cleaning n = false;
  spawned_selecting : selecting n = false;
  spawned_header_waiter : header_waiter n = HeaderWaiter_new;
  spawned_certificate_waiter : certificate_waiter n = [];
  spawned_consensus : consensus n = State_new (genesis committee);
  spawned_consensus_round : consensus_round n = 0;
  spawned_in_flight : in_flight n = [];
  spawned_name : Proposer.name cfg = name;
  spawned_silent : silent_ok cfg (proposer n);
  spawned_round : Proposer.round (proposer n) = 1;
  spawned_parents : last_parents (proposer n) = digest <$> genesis committee;
  spawned_digests : digests (proposer n) = []
}.

Lemma node_spawn_spawned name secret committee parameters s env var now cfg n out :
  node_spawn name secret committee parameters s env var now = Ret (cfg, n, out) → spawned_node name committee s cfg n.
Proof.
  unfold node_spawn. destruct (Config.primary committee name) eqn:Ep; [|done..]. intros E.
  assert (Hsize : committee_size committee ≠ 0).
  { unfold Config.primary in Ep. destruct (authorities committee !! name) eqn:Ea; [|done].
    intros Hz. unfold committee_size in Hz. assert (Hs : size (authorities committee) = 0%nat) by lia.
    apply map_size_empty_inv in Hs. by rewrite Hs, lookup_empty in Ea. }
  apply outcome_bind_ret in E as ([cfg' p] & Esp & E).
  unfold Proposer.spawn in Esp. apply outcome_bind_ret in Esp as (pause & _ & Esp).
  destruct (our_workers _ _); [|done..]. injection Esp as <- <-.
  unfold start, enter_round in E. simpl in E. destruct (_ =? 0); simpl in E; simplify_eq; by split.
Qed.

Lemma node_spawn_secret name secret committee parameters s env var now cfg n out :
  node_spawn name secret committee parameters s env var now = Ret (cfg, n, out) → signature_service cfg = secret.
Proof.
  unfold node_spawn. destruct (Config.primary committee name); [|done..].
  intros ([cfg' p] & Esp & E)%outcome_bind_ret. unfold Proposer.spawn in Esp.
  apply outcome_bind_ret in Esp as (pause & _ & Esp). destruct (our_workers _ _); [|done..]. injection Esp as <- <-.
  destruct (start _ _ _). by injection E as <- _ _.
Qed.

Section runs.
Variables (name : PublicKey) (committee : Committee) (secret : SecretKey) (parameters : Parameters).
Variables (env : Environment) (cfg : Settings).
Notation node_run := (node_run name committee secret parameters env cfg).

Lemma steps_snoc p its i p' out q out' :
  Proposer.steps cfg p its = Ret (p', out) → Proposer.step cfg p' i = Ret (q, out') →
  Proposer.steps cfg p (its ++ [i]) = Ret (q, out ++ out').
Proof.
  intros E Ei. revert p out E. induction its as [|j its IH]; intros p out E.
  { injection E as <- <-. cbn [app Proposer.steps]. rewrite Ei. simpl. by rewrite app_nil_r. }
  apply steps_cons_ret in E as (p1 & out1 & out2 & E1 & E2 & ->). cbn [app Proposer.steps]. rewrite E1. simpl.
  rewrite (IH p1 out2 E2). simpl. by rewrite app_assoc.
Qed.

(** The iterations the proposer went through; the last one has no event yet when it is in [select!]. *)
Lemma node_run_proposer_steps n actions n' log :
  selecting n = false → node_run n actions = Some (n', log) →
  ∃ its p, Proposer.steps cfg (proposer n) its = Ret (p, proposer_outputs log) ∧
    (its.*2 = proposer_events log ∨ its.*2 = proposer_events log ++ [Timer]).
Proof.
  intros Hs Hr. destruct (node_run_proposer _ _ _ _ _ _ _ _ _ _ Hr (proposer n) []) as (its & p & out & o & E & Ei & Hh & Eo).
  { unfold at_head. by rewrite Hs. }
  simpl in Eo. rewrite Eo. unfold at_head in Hh. destruct (selecting n').
  - destruct Hh as (now & now' & Hp). exists (its ++ [(now, now', Timer)]), (proposer n'). split.
    + apply (steps_snoc _ _ _ p); [done|]. unfold Proposer.step. rewrite Hp. simpl. by rewrite app_nil_r.
    + right. by rewrite fmap_app, Ei.
  - destruct Hh as [-> ->]. exists its, (proposer n'). rewrite app_nil_r. split; [done|]. by left.
Qed.

(** What the consensus took was sent to it by the core, in order. *)
Lemma node_run_fed s n actions n' log :
  spawned_node name committee s cfg n → node_run n actions = Some (n', log) →
  fed_certificates log `prefix_of` certificates_sent (core_effects log).
Proof.
  intros Hn Hr. pose proof (node_run_channels _ _ _ _ _ _ _ _ _ _ Hr NewCertificates) as E.
  rewrite (spawned_in_flight _ _ _ _ _ Hn), certificates_on_channel, certificates_taken_on_channel in E. simpl in E.
  apply fmap_app_inv in E as (l1 & l2 & E1 & _ & ->). apply list_fmap_eq_inj in E1 as <-; [|by intros ?? [=]].
  by exists l2.
Qed.

Lemma node_run_own_headers s n actions n' log :
  spawned_node name committee s cfg n → node_run n actions = Some (n', log) →
  own_headers (core_effects log) `prefix_of` headers (proposer_outputs log).
Proof.
  intros Hn Hr. pose proof (node_run_channels _ _ _ _ _ _ _ _ _ _ Hr HeadersChannel) as E.
  rewrite (spawned_in_flight _ _ _ _ _ Hn), headers_on_channel, headers_taken_on_channel in E. simpl in E.
  rewrite (node_run_headers _ _ _ _ _ _ _ _ _ _ Hr).
  apply fmap_app_inv in E as (l1 & l2 & E1 & _ & ->). apply list_fmap_eq_inj in E1 as <-; [|by intros ?? [=]].
  by exists l2.
Qed.
End runs.
End start.

(** ** Properties *)

Section properties.
Context `{!Sha512, !Dalek, !Backend, !Storage, !StorageLaws _}.
Context `{!Bincode Header, !Bincode Certificate, !Bincode PrimaryMessage, !Bincode WorkerPrimaryMessage}.

(** C5: A node never equivocates in the headers it broadcasts: whatever it receives, and however its tasks
    interleave, the headers it broadcasts have strictly increasing rounds, are its own, carry their own digest
    as id and belong to rounds in which it is not selected to be silent, as long as no round reaches 2^64. *)
Theorem node_never_equivocates name secret committee parameters s env var now cfg n0 out0 actions n log :
  node_spawn name secret committee parameters s env var now = Ret (cfg, n0, out0) →
  node_run name committee secret parameters env cfg n0 actions = Some (n, log) →
  (∀ parents r, Parents parents r ∈ proposer_events log → r + 1 < two64) →
  let hs := own_headers (core_effects log) in
  StronglySorted N.lt (hd_round <$> hs) ∧
  ∀ h, h ∈ hs → hd_author h = name ∧ hd_id h = digest h ∧
    selected name (authority_keys cfg) (hd_round h) (adversary_faults cfg) (adversary_seed cfg) = false.
Proof.
  intros Hn%node_spawn_spawned Hr Hb hs. pose proof Hn as [_ _ _ Hsel _ _ _ _ _ Hname Hsil _ _ _].
  destruct (node_run_own_headers _ _ _ _ _ _ _ _ _ _ _ Hn Hr) as [rest Erest].
  destruct (node_run_proposer_steps _ _ _ _ _ _ _ _ _ _ Hsel Hr) as (its & p & Es & Ei).
  apply steps_headers in Es as [Hso Hh]; [|done|].
  - rewrite Erest, fmap_app in Hso. fold hs in Hso, Erest. split.
    + apply StronglySorted_app in Hso. apply Hso.
    + intros h Hin. destruct (Hh h) as (_ & _ & Ha & Hi & Hs & _); [rewrite Erest; set_solver|]. by rewrite Hname in Ha, Hs.
  - intros a b ps r Hin. apply (Hb ps). apply (list_elem_of_fmap_2 snd) in Hin. simpl in Hin.
    destruct Ei as [Ei|Ei]; rewrite Ei in Hin; [done|]. apply elem_of_app in Hin as [?|?%list_elem_of_singleton]; done.
Qed.

(** What the consensus of a node took: every parent is in the genesis, was taken before, or is the id of a
    header the core stored. *)
Lemma node_feed name secret committee parameters s env cfg n0 actions n log pre x post d :
  spawned_node name committee s cfg n0 → (∀ d, ¬ stored s (Digest_to_vec d)) →
  node_run name committee secret parameters env cfg n0 actions = Some (n, log) →
  fed_certificates log = pre ++ x :: post → d ∈ hd_parents (ct_header x) →
  is_Some (find_genesis committee d) ∨ (∃ y, y ∈ pre ∧ digest y = d) ∨
  ∃ h, ToStore (Digest_to_vec (hd_id h)) (serialize h) ∈ core_effects log ∧ hd_id h = d.
Proof.
  intros Hn Hs Hr Ef Hd. destruct (node_run_fed _ _ _ _ _ _ _ _ _ _ _ Hn Hr) as [rest Er].
  rewrite Ef, <-app_assoc in Er. simpl in Er.
  assert (Hf : feeds committee (core n0) (core_effects log) (core n)).
  { eapply node_run_core; [apply feeds_relation|..|exact Hr|].
    - intros. apply feeds_silent; [done|]. by intros ? ?%list_elem_of_singleton.
    - intros c d' w. split; [|apply fed_silent; set_solver]. simpl. intros d'' [E|?]%stored_write; [|by left].
      by apply payload_key_digest in E.
    - intros r _ c. unfold cleanup. destruct (_ <? _); by apply feeds_silent; [|set_solver]. }
  destruct Hf as [_ Hf]. unfold certificates_sent in Er.
  apply omap_app_cons in Er as (es & e & es' & E & Ee & <-).
  assert (e = ToConsensus x) as -> by (destruct e; by simplify_eq).
  destruct (Hf es x es' d E Hd) as [[?|Hst]|[(y & Hy & ?)|(h & Hh & ?)]].
  - by left.
  - rewrite (spawned_core _ _ _ _ _ Hn) in Hst. by destruct (Hs d).
  - right. left. exists y. split; [|done]. apply list_elem_of_omap. by exists (ToConsensus y).
  - right. right. exists h. split; [|done]. rewrite E. set_solver.
Qed.
End properties.

Section witnesses.
Import Toy ToyBackend ToyBincode MapDB SampleStore SampleWorker SampleMessages.

(** Primary 1 in two rounds. *)
Notation run_1 := (sample_run 1 2).

Definition log_1_check (log : list Entry) : bool :=
  bool_decide (length (fed_certificates log) = 8%nat) &&
  bool_decide (hd_round <$> own_headers (core_effects log) = [1; 2]) &&
  forallb (λ e, match e with Parents _ r => r + 1 <? two64 | _ => true end) (proposer_events log) &&
  forallb (λ e, match e with ECleanUp r => r <=? 51 | _ => true end) log &&
  (quorum_threshold Sample.committee <=?
    stake_of Sample.committee (cert_origins (filter (λ x, cround x = 1) (certificates_sent (core_effects log))))) &&
  match fed_certificates log !! 7%nat with Some c => bool_decide (origin c = pk 2) | None => false end.

Lemma run_1_eqs :
  sample_spawn 1 = Ret (nr_cfg run_1, nr_start run_1, nr_out run_1) ∧
  run_from 1 (nr_cfg run_1) (nr_start run_1) (nr_actions run_1) = Some (nr_end run_1, nr_log run_1) ∧
  log_1_check (nr_log run_1) = true.
Proof. apply (check_run_spec 1 _ (λ _, log_1_check)). vm_compute. reflexivity. Qed.

Lemma log_1_checked :
  length (fed_certificates (nr_log run_1)) = 8%nat ∧ hd_round <$> own_headers (core_effects (nr_log run_1)) = [1; 2] ∧
  (∀ parents r, Parents parents r ∈ proposer_events (nr_log run_1) → r + 1 < two64) ∧
  (∀ r, ECleanUp r ∈ nr_log run_1 → r ≤ 51) ∧
  quorum_threshold Sample.committee ≤
    stake_of Sample.committee (cert_origins (filter (λ x, cround x = 1) (certificates_sent (core_effects (nr_log run_1))))) ∧
  ∃ c, fed_certificates (nr_log run_1) !! 7%nat = Some c ∧ origin c = pk 2.
Proof.
  pose proof run_1_eqs as (_ & _ & Hc). revert Hc. generalize (nr_log run_1). intros log. unfold log_1_check.
  rewrite !andb_true_iff, !bool_decide_eq_true, !forallb_elem. intros [[[[[Hlen Hr] Hb] Hg] Hq] Hf].
  split_and!; [exact Hlen|exact Hr| | |exact (proj1 (N.leb_le _ _) Hq)|].
  - intros parents r Hin%Hb. by apply N.ltb_lt.
  - intros r Hin%Hg. by apply N.leb_le.
  - destruct (_ !! _) as [c|]; [|done]. exists c. split; [done|]. by apply bool_decide_eq_true in Hf.
Qed.

Lemma node_never_equivocates_witness :
  hd_round <$> own_headers (core_effects (nr_log run_1)) = [1; 2] ∧
  StronglySorted N.lt (hd_round <$> own_headers (core_effects (nr_log run_1))).
Proof.
  split; [exact (proj1 (proj2 log_1_checked))|].
  exact (proj1 (node_never_equivocates (pk 1) (sk 1) Sample.committee Parameters_default empty_store (λ _, None) (Throw NotPresent) 0
    (nr_cfg run_1) (nr_start run_1) (nr_out run_1) (nr_actions run_1) (nr_end run_1) (nr_log run_1)
    (proj1 run_1_eqs) (proj1 (proj2 run_1_eqs)) (proj1 (proj2 (proj2 log_1_checked))))).
Defined.
End witnesses.
