(* ===== verification/NodeRounds.v ===== *)
(** When a primary goes from one round to the next: its core counts the certificates it sends to the consensus,
    and hands the parents of the next headers to the proposer once, at a quorum. *)

From S2P Require Import Prelude Channels Crypto Config Messages Adversary Aggregators Store Primary.
From S2P Require Import Core CoreFacts Proposer Pool Waiters Consensus Network Worker.
From S2P Require Import Node NodeSamples NodeFacts NodeSafety.

(** ** The core *)

Section core.
Context `{!Sha512, !Dalek, !Backend, !Storage, !Bincode Header, !Bincode Certificate}.
Variables (name : PublicKey) (committee : Committee) (secret : SecretKey) (r : Round).
Implicit Types (c : Core.Core) (es : list Effect).

(** The parents sent to the proposer for a round, and the certificates of the round sent to the consensus. *)
Definition parents_for es : list (list Digest) :=
  omap (λ e, match e with ToProposer parents r' => if decide (r' = r) then Some parents else None | _ => None end) es.
Definition certificates_of es : list Certificate := filter (λ x, cround x = r) (certificates_sent es).

(** The aggregator of the round was given these certificates, and emitted these parents. *)
Definition gathers c es c' : Prop :=
  CertificatesAggregator.append_all (aggregator r c) (certificates_of es) committee =
    (aggregator r c', (CertificatesAggregator.append_all (aggregator r c) (certificates_of es) committee).2) ∧
  CertificatesAggregator.emitted
    (CertificatesAggregator.append_all (aggregator r c) (certificates_of es) committee).2 = parents_for es.

Lemma gathers_silent c es c' :
  aggregator r c' = aggregator r c → certificates_sent es = [] → parents_for es = [] → gathers c es c'.
Proof. intros Ea Ec Ep. unfold gathers, certificates_of. by rewrite Ec, Ep, Ea. Qed.

Lemma gathers_app c1 es c2 es' c3 : gathers c1 es c2 → gathers c2 es' c3 → gathers c1 (es ++ es') c3.
Proof.
  unfold gathers, certificates_of, parents_for, certificates_sent. rewrite !omap_app, filter_app, certs_append_all_app.
  destruct (CertificatesAggregator.append_all (aggregator r c1) _ _) as [a rs]. simpl. intros [[= ->] <-].
  destruct (CertificatesAggregator.append_all (aggregator r c2) _ _) as [a' rs']. simpl. intros [[= ->] <-].
  split; [done|]. apply omap_app.
Qed.

Lemma gathers_certificate c x a parents :
  CertificatesAggregator.append (aggregator (cround x) c) x committee = (a, Ret parents) →
  gathers c (ToStore (Digest_to_vec (digest x)) (serialize x) :: proposals x parents ++ [ToConsensus x])
    (set_certificates_aggregators (λ m, <[ cround x := a ]> m) (write_certificate x c)).
Proof.
  intros Ea. set (c' := set_certificates_aggregators _ _).
  assert (Ec : certificates_of (ToStore (Digest_to_vec (digest x)) (serialize x) :: proposals x parents ++ [ToConsensus x]) =
    if decide (cround x = r) then [x] else []) by (by destruct parents).
  assert (Ep : parents_for (ToStore (Digest_to_vec (digest x)) (serialize x) :: proposals x parents ++ [ToConsensus x]) =
    if decide (cround x = r) then option_list parents else []).
  { destruct parents; unfold parents_for; simpl; by case_decide. }
  unfold gathers. rewrite Ec, Ep. case_decide as Hr.
  - rewrite Hr in Ea. simpl. rewrite Ea. unfold aggregator at 1. simpl. rewrite Hr, lookup_insert_eq. by destruct parents.
  - split; [|done]. unfold aggregator. simpl. by rewrite lookup_insert_ne.
Qed.

Lemma gathers_relation : core_relation name committee secret gathers.
Proof.
  split; [split|..].
  - split; [intros c; by apply gathers_silent|by apply gathers_app].
  - intros c c' (_ & _ & _ & E). apply gathers_silent; [|done..]. unfold aggregator. by rewrite E.
  - intros c l. apply gathers_silent; [done|by induction l..].
  - intros c h. by apply gathers_silent.
  - intros c r' a. by apply gathers_silent.
  - intros c h _ _. by apply gathers_silent.
  - intros c h v address _ _ _. by apply gathers_silent.
  - intros c l. apply gathers_silent; [done|by induction l..].
  - intros c addresses x. by apply gathers_silent.
  - intros c x a parents _. apply gathers_certificate.
Qed.

(** The clean-up keeps the aggregators of the rounds within the depth. *)
Lemma gathers_cleanup gc_depth consensus_round c :
  consensus_round ≤ r + gc_depth → gathers c [] (cleanup gc_depth consensus_round c).
Proof.
  intros Hr. apply gathers_silent; [|done..]. unfold cleanup. destruct (_ <? _); [|done]. unfold aggregator. simpl.
  f_equal. rewrite map_lookup_filter. destruct (_ !! r); simpl; [|done]. rewrite option_guard_True; [done|]. lia.
Qed.
End core.

(** ** The node *)

Section node.
Context `{!Sha512, !Dalek, !Backend, !Storage, !StorageLaws _}.
Context `{!Bincode Header, !Bincode Certificate, !Bincode PrimaryMessage, !Bincode WorkerPrimaryMessage}.
Variables (name : PublicKey) (committee : Committee) (secret : SecretKey) (parameters : Parameters).
Variables (env : Environment) (cfg : Settings).
Implicit Types (n : Node) (log : list Entry) (r : Round).

Notation node_run := (node_run name committee secret parameters env cfg).

(** The messages with parents that the core sent to the proposer, and those the proposer took. *)
Definition parents_sent log : list (list Digest * Round) :=
  log ≫= λ e, match e with ECore _ es => omap (λ e, match e with ToProposer ps r => Some (ps, r) | _ => None end) es | _ => [] end.
Definition parents_taken log : list (list Digest * Round) :=
  omap (λ e, match e with EProposer (Parents ps r) _ => Some (ps, r) | _ => None end) log.

Lemma parents_queue n actions n' log :
  on ParentsChannel (in_flight n) = [] → node_run n actions = Some (n', log) → parents_taken log `prefix_of` parents_sent log.
Proof. intros Hn. node_queue OnParents ParentsChannel. Qed.

Lemma parents_taken_elem log ps r : Parents ps r ∈ proposer_events log → (ps, r) ∈ parents_taken log.
Proof.
  intros (e & He & Ee)%list_elem_of_omap. apply list_elem_of_omap. exists e. split; [done|].
  destruct e as [| | | | |x out| | | | |]; simplify_eq/=. done.
Qed.

Lemma parents_sent_elem log ps r : (ps, r) ∈ parents_sent log → ps ∈ parents_for r (core_effects log).
Proof.
  intros (e & Hin & He)%list_elem_of_bind. destruct e as [|input es| | | | | | | | |]; try by apply elem_of_nil in Hin.
  apply list_elem_of_omap in Hin as (e & Hin & Ee). apply list_elem_of_omap. exists e. split.
  - apply list_elem_of_bind. by exists (ECore input es).
  - destruct e; simplify_eq/=. by rewrite decide_True.
Qed.

(** The parents of a header of a later round than the first were handed over for the round before. *)
Lemma own_header_parents s n actions n' log h :
  spawned_node name committee s cfg n → node_run n actions = Some (n', log) →
  (∀ ps r, Parents ps r ∈ proposer_events log → r + 1 < two64) →
  h ∈ own_headers (core_effects log) → hd_round h ≠ 1 →
  ∃ ps, ps ∈ parents_for (hd_round h - 1) (core_effects log) ∧ hd_parents h = list_to_set ps ∧ 1 ≤ hd_round h.
Proof.
  intros Hn Hr Hb Hh Hne. destruct (node_run_own_headers _ _ _ _ _ _ _ _ _ _ _ Hn Hr) as [rest Erest].
  destruct (node_run_proposer_steps _ _ _ _ _ _ _ _ _ _ (spawned_selecting _ _ _ _ _ Hn) Hr) as (its & p & Es & Ei).
  assert (Hits : ∀ a b ps r, (a, b, Parents ps r) ∈ its → Parents ps r ∈ proposer_events log).
  { intros a b ps r Hin. apply (list_elem_of_fmap_2 snd) in Hin. simpl in Hin.
    destruct Ei as [Ei|Ei]; rewrite Ei in Hin; [done|]. apply elem_of_app in Hin as [?|?%list_elem_of_singleton]; done. }
  apply steps_headers in Es as [_ Hs]; [|by eapply spawned_silent|].
  2: { intros a b ps r Hin. by eapply Hb, Hits. }
  destruct (Hs h) as (_ & _ & _ & _ & _ & [[E _]|(ps & (a & b & r & Hin & Er) & Ep)]); [rewrite Erest; set_solver| |].
  { by rewrite (spawned_round _ _ _ _ _ Hn) in E. }
  apply Hits in Hin. pose proof (Hb _ _ Hin) as Hlt. rewrite u64_add_small in Er by done.
  exists ps. rewrite <-Er, N.add_sub. split_and!; [|done|lia]. apply parents_sent_elem.
  destruct (parents_queue n actions n' log) as [rest' E]; [by rewrite (spawned_in_flight _ _ _ _ _ Hn)|done|].
  rewrite E. apply elem_of_app. left. by apply parents_taken_elem.
Qed.

Lemma node_run_gathers s n actions n' log r :
  spawned_node name committee s cfg n → node_run n actions = Some (n', log) →
  (∀ r', ECleanUp r' ∈ log → r' ≤ r + Config.gc_depth parameters) →
  CertificatesAggregator.emitted (CertificatesAggregator.append_all CertificatesAggregator.new
    (certificates_of r (core_effects log)) committee).2 = parents_for r (core_effects log).
Proof.
  intros Hn Hr Hcl. assert (Hg : gathers committee r (core n) (core_effects log) (core n')).
  { eapply node_run_core; [apply gathers_relation|..|exact Hr|].
    - intros. by apply gathers_silent.
    - intros. by apply gathers_silent.
    - intros r' Hin c. apply gathers_cleanup. by apply Hcl. }
  destruct Hg as [_ Hg]. unfold aggregator in Hg. by rewrite (spawned_core _ _ _ _ _ Hn) in Hg.
Qed.
End node.

(** ** Properties *)

Section properties.
Context `{!Sha512, !Dalek, !Backend, !Storage, !StorageLaws _}.
Context `{!Bincode Header, !Bincode Certificate, !Bincode PrimaryMessage, !Bincode WorkerPrimaryMessage}.

(** C17: A primary enters a round by a quorum of the round before: in any run of a node from its start that has
    not garbage collected round [r], as long as the authorities whose certificates of round [r] went to the
    consensus do not hold a quorum, no parents of round [r] go to the proposer and no header of the next round
    is broadcast. Once they do, the parents went to the proposer exactly once, they are the digests of such
    certificates of distinct authorities that hold a quorum, and a header of the next round carries them. *)
Theorem rounds_by_quorum name secret committee parameters s env var now cfg n0 out0 actions n log r :
  node_spawn name secret committee parameters s env var now = Ret (cfg, n0, out0) →
  node_run name committee secret parameters env cfg n0 actions = Some (n, log) →
  small_stake committee → 0 < r →
  (∀ r', ECleanUp r' ∈ log → r' ≤ r + Config.gc_depth parameters) →
  (∀ parents r', Parents parents r' ∈ proposer_events log → r' + 1 < two64) →
  let es := core_effects log in
  let cs := certificates_of r es in
  (stake_of committee (cert_origins cs) < quorum_threshold committee →
   parents_for r es = [] ∧ ∀ h, h ∈ own_headers es → hd_round h ≠ r + 1) ∧
  (quorum_threshold committee ≤ stake_of committee (cert_origins cs) →
   ∃ l, parents_for r es = [digest <$> l] ∧ l ⊆ cs ∧ NoDup (origin <$> l) ∧
     quorum_threshold committee ≤ stake_of committee (cert_origins l) ∧
     ∀ h, h ∈ own_headers es → hd_round h = r + 1 → hd_parents h = list_to_set (digest <$> l)).
Proof.
  intros Hn%node_spawn_spawned Hr Hs Hpos Hcl Hb es cs.
  destruct (parents_quorum_once committee cs Hs) as [Hnil Hone].
  pose proof (node_run_gathers _ _ _ _ _ _ _ _ _ _ _ _ Hn Hr Hcl) as Hg. fold es cs in Hg. rewrite Hg in Hnil, Hone.
  assert (Hh : ∀ h, h ∈ own_headers es → hd_round h = r + 1 → ∃ ps, ps ∈ parents_for r es ∧ hd_parents h = list_to_set ps).
  { intros h Hh Er. destruct (own_header_parents _ _ _ _ _ _ _ _ _ _ _ h Hn Hr Hb Hh) as (ps & Hps & ? & _); [lia|].
    rewrite Er, N.add_sub in Hps. by exists ps. }
  split.
  - intros Hlt%Hnil. split; [done|]. intros h Hin Er.
    destruct (Hh h Hin Er) as (ps & Hps & _). rewrite Hlt in Hps. by apply elem_of_nil in Hps.
  - intros Hq. destruct Hone as [Hlt%Hnil|(l & E & ? & ? & ?)]; [lia|]. exists l. split_and!; [done..|].
    intros h Hin Er. destruct (Hh h Hin Er) as (ps & Hps & Ep). rewrite E in Hps.
    apply list_elem_of_singleton in Hps as ->. exact Ep.
Qed.
End properties.

Section witnesses.
Import Toy ToyBackend ToyBincode MapDB SampleStore SampleWorker SampleMessages.

Notation run_1 := (sample_run 1 2).
Notation effects_1 := (core_effects (nr_log run_1)).

Lemma rounds_by_quorum_witness :
  hd_round <$> own_headers effects_1 = [1; 2] ∧
  (∃ l, parents_for 1 effects_1 = [digest <$> l] ∧ l ⊆ certificates_of 1 effects_1 ∧ NoDup (origin <$> l) ∧
     quorum_threshold Sample.committee ≤ stake_of Sample.committee (cert_origins l) ∧
     ∀ h, h ∈ own_headers effects_1 → hd_round h = 1 + 1 → hd_parents h = list_to_set (digest <$> l)).
Proof.
  split; [exact (proj1 (proj2 log_1_checked))|].
  exact (proj2 (rounds_by_quorum (pk 1) (sk 1) Sample.committee Parameters_default empty_store (λ _, None) (Throw NotPresent) 0
    (nr_cfg run_1) (nr_start run_1) (nr_out run_1) (nr_actions run_1) (nr_end run_1) (nr_log run_1) 1
    (proj1 run_1_eqs) (proj1 (proj2 run_1_eqs)) sample_small eq_refl
    (proj1 (proj2 (proj2 (proj2 log_1_checked)))) (proj1 (proj2 (proj2 log_1_checked))))
    (proj1 (proj2 (proj2 (proj2 (proj2 log_1_checked)))))).
Defined.
End witnesses.
