(* ===== verification/NodeFeed.v ===== *)
(** Where the certificates come from that the consensus of a node takes: the core had verified them, or had
    assembled them from votes, whatever the way they went through the waiter and the channels. *)

From S2P Require Import Prelude Channels Crypto Config Messages Adversary Aggregators Store Primary.
From S2P Require Import Core CoreFacts CoreTrace Proposer Pool Waiters Consensus Network Worker.
From S2P Require Import Node NodeSamples NodeFacts NodeSafety.

Section feed.
Context `{!Sha512, !Dalek, !Backend, !Storage}.
Context `{!Bincode Header, !Bincode Certificate, !Bincode PrimaryMessage, !Bincode WorkerPrimaryMessage}.
Variables (name : PublicKey) (committee : Committee) (secret : SecretKey) (parameters : Parameters).
Variables (env : Environment) (cfg : Settings).
Implicit Types (n : Node) (q : list Message) (log : list Entry) (x y : Certificate) (A : Certificate → Prop).

Notation node_run := (node_run name committee secret parameters env cfg).
Notation verified y := (Certificate_verify y committee = Ret ()).

(** The certificates on their way to the certificate waiter, in its pool, and on their way back. *)
Definition suspended (m : Message) : option Certificate :=
  match m with
  | OnSyncCertificates c | OnCertificatesLoopback c => Some c
  | _ => None
  end.

Definition held n y : Prop := y ∈ (certificate_waiter n).*2 ∨ y ∈ omap suspended (in_flight n).

Lemma consumes_held n o q y :
  consumes (in_flight n) o q →
  held n y ↔ (∃ m, o = Some m ∧ suspended m = Some y) ∨ held (set_in_flight q n) y.
Proof.
  intros Hc. unfold held. simpl. rewrite !list_elem_of_omap. setoid_rewrite (consumes_elem _ _ _ _ Hc).
  assert (Ho : ∀ m, m ∈ option_list o ↔ o = Some m).
  { intros m. destruct o; simpl; rewrite ?list_elem_of_singleton, ?elem_of_nil; naive_solver. }
  setoid_rewrite Ho. naive_solver.
Qed.

(** A step does not make certificates up: what is held after it was held before, or comes from the core. *)
Lemma stepped_held n e n' y :
  stepped name committee secret parameters env cfg n e n' → held n' y → held n y ∨ ToCertificateWaiter y ∈ core_effects [e].
Proof.
  intros (q & n1 & Hc & Hd & ->) Hy. rewrite (consumes_held n _ _ y Hc).
  assert (Hs : y ∈ omap suspended (sent e) →
    ToCertificateWaiter y ∈ core_effects [e] ∨ y ∈ match e with ECertificateWaiter _ out => out | _ => [] end).
  { intros (m & Hm & Em)%list_elem_of_omap. unfold core_effects. simpl. rewrite ?app_nil_r.
    destruct e; simpl in Hm; try by apply elem_of_nil in Hm.
    all: try (apply list_elem_of_fmap in Hm as (z & -> & Hz); simplify_eq/=; by auto).
    all: apply list_elem_of_omap in Hm as (z & Hz & Ez); destruct z; simplify_eq/=; by auto. }
  assert (Hkeep : certificate_waiter n1 = certificate_waiter n → in_flight n1 = q →
    match e with ECertificateWaiter _ _ => False | _ => True end →
    ((∃ m, taken e = Some m ∧ suspended m = Some y) ∨ held (set_in_flight q n) y) ∨ ToCertificateWaiter y ∈ core_effects [e]).
  { intros E1 E2 He. unfold held in Hy |- *. simpl in Hy |- *. rewrite omap_app, elem_of_app, E1, E2 in Hy.
    destruct Hy as [?|[?|Hy]]; [by auto..|]. apply Hs in Hy as [?|Hy]; [by auto|].
    destruct e; (done || by apply elem_of_nil in Hy). }
  destruct Hd as [| | | | | | |x| | |]; try (by apply Hkeep). clear Hkeep. left.
  unfold held in Hy |- *. simpl in Hy, Hs |- *. rewrite omap_app, elem_of_app in Hy.
  assert (Hx : y ∈ (certificate_waiter_step (certificate_waiter n) x).1.*2 ++ (certificate_waiter_step (certificate_waiter n) x).2 →
    y ∈ (certificate_waiter n).*2 ∨ x = TakeCertificate y).
  { destruct x as [c|i]; simpl.
    - rewrite app_nil_r, fmap_app, elem_of_app. simpl. rewrite list_elem_of_singleton. intros [?| ->]; by auto.
    - rewrite elem_of_app. intros [(z & -> & Hz)%list_elem_of_fmap|Hz]; left.
      + apply list_elem_of_fmap_2. by eapply elem_of_sublist; [|apply sublist_delete].
      + destruct (certificate_waiter n !! i) as [z|] eqn:Ez; simpl in Hz; [|by apply elem_of_nil in Hz].
        apply list_elem_of_singleton in Hz as ->. by eapply list_elem_of_fmap_2, list_elem_of_lookup_2. }
  rewrite elem_of_app in Hx.
  assert (Hx' : y ∈ (certificate_waiter n).*2 ∨ x = TakeCertificate y ∨ y ∈ omap suspended q).
  { destruct Hy as [Hy|[Hy|[Hy|Hy]%Hs]]; [| |by apply elem_of_nil in Hy|]; by naive_solver. }
  destruct Hx' as [?|[->|?]]; [by auto|left|by auto]. by exists (OnSyncCertificates y).
Qed.

(** Everything the core forwards along a run was held at the start, verifies, or was assembled. *)
Lemma node_run_forwarded n actions n' log :
  node_run n actions = Some (n', log) →
  ∀ A, (∀ y, held n y → A y) →
  ∀ y, forwarded (core_effects log) y → A y ∨ verified y ∨ assembled (core_effects log) y.
Proof.
  apply (node_run_ind name committee secret parameters env cfg (λ n log _, ∀ A, (∀ y, held n y → A y) →
    ∀ y, forwarded (core_effects log) y → A y ∨ verified y ∨ assembled (core_effects log) y)).
  { intros _ A _ y [?%elem_of_nil|?%elem_of_nil]; done. }
  clear n actions n' log. intros n1 e n2 log n3 Hst IH A HA y.
  change (core_effects (e :: log)) with (core_effects ([e] ++ log)). rewrite core_effects_app, forwarded_app, assembled_app.
  assert (He : ∀ z, forwarded (core_effects [e]) z → A z ∨ verified z ∨ assembled (core_effects [e]) z).
  { pose proof Hst as (q & n & Hc & Hd & ->). unfold core_effects. simpl. rewrite app_nil_r.
    destruct e as [|input es| | | | | | | | |]; try (by intros z [?%elem_of_nil|?%elem_of_nil]).
    inversion Hd as [|? c ? _ Eh| | | | | | | | |]; subst. apply core_handle_traced in Eh.
    intros z [Hz|?]%Eh; [|by auto]. destruct input as [[h|v|x|ds o]|h|x|h]; simpl in Hz; try done.
    - destruct Hz as [-> ?]. by auto.
    - subst x. left. apply HA, (consumes_held _ _ _ _ Hc). left. by eexists. }
  intros [Hy|Hy]; [destruct (He y Hy) as [?|[?|?]]; by auto|].
  apply (IH (λ z, A z ∨ verified z ∨ assembled (core_effects [e]) z)) in Hy as [[?|[?|?]]|[?|?]]; [by auto..|].
  intros z [?|?]%(stepped_held _ _ _ _ Hst); [left; by apply HA|]. apply He. by right.
Qed.
End feed.

(** ** Properties *)

Section properties.
Context `{!Sha512, !Dalek, !Backend, !Storage, !StorageLaws _}.
Context `{!Bincode Header, !Bincode Certificate, !Bincode PrimaryMessage, !Bincode WorkerPrimaryMessage}.

(** C6: The consensus of a primary never takes a certificate on trust: after any run of a node from its start,
    each certificate the consensus took passed [Certificate::verify] in the core, whether it was then handed on
    at once or went through the certificate waiter, or it was assembled and broadcast by the core itself. *)
Theorem consensus_takes_verified name secret committee parameters s env var now cfg n0 out0 actions n log c :
  node_spawn name secret committee parameters s env var now = Ret (cfg, n0, out0) →
  node_run name committee secret parameters env cfg n0 actions = Some (n, log) →
  c ∈ fed_certificates log →
  Certificate_verify c committee = Ret () ∨
  ∃ addresses, NetworkBroadcast addresses (PMCertificate c) ∈ core_effects log.
Proof.
  intros Hn%node_spawn_spawned Hr Hc. destruct (node_run_fed _ _ _ _ _ _ _ _ _ _ _ Hn Hr) as [rest E].
  assert (Hf : forwarded (core_effects log) c).
  { left. assert (Hs : c ∈ certificates_sent (core_effects log)) by (rewrite E; set_solver).
    apply list_elem_of_omap in Hs as (e & He & Ee). by destruct e; simplify_eq. }
  destruct (node_run_forwarded _ _ _ _ _ _ _ _ _ _ Hr (λ _, False)) with (y := c) as [[]|?]; [|done..].
  unfold held. rewrite (spawned_certificate_waiter _ _ _ _ _ Hn), (spawned_in_flight _ _ _ _ _ Hn). simpl.
  by intros y [?%elem_of_nil|?%elem_of_nil].
Qed.
End properties.

Section witnesses.
Import Toy ToyBackend ToyBincode MapDB SampleStore SampleWorker SampleMessages.

Notation run_1 := (sample_run 1 2).

(** A certificate of authority 2 that primary 1 took. *)
Definition taken_2 : Certificate := default Certificate_default (fed_certificates (nr_log run_1) !! 7%nat).

Lemma taken_2_spec : taken_2 ∈ fed_certificates (nr_log run_1) ∧ origin taken_2 = pk 2.
Proof.
  destruct log_1_checked as (_ & _ & _ & _ & _ & c & E & Ho). unfold taken_2. rewrite E. split; [by eapply list_elem_of_lookup_2|done].
Qed.

Lemma consensus_takes_verified_witness :
  origin taken_2 = pk 2 ∧
  (Certificate_verify taken_2 Sample.committee = Ret () ∨
   ∃ addresses, NetworkBroadcast addresses (PMCertificate taken_2) ∈ core_effects (nr_log run_1)).
Proof.
  split; [exact (proj2 taken_2_spec)|].
  exact (consensus_takes_verified (pk 1) (sk 1) Sample.committee Parameters_default empty_store (λ _, None) (Throw NotPresent) 0
    (nr_cfg run_1) (nr_start run_1) (nr_out run_1) (nr_actions run_1) (nr_end run_1) (nr_log run_1) taken_2
    (proj1 run_1_eqs) (proj1 (proj2 run_1_eqs)) (proj1 taken_2_spec)).
Defined.
End witnesses.
