(* ===== verification/Certification.v ===== *)
(** Certification: honest primaries certify at most one header per author and round.

    What a primary signs is in the log of its node. The signatures on a certificate that verifies were made by
    the primaries of its voters, as far as these are honest: this is what the signature scheme is relied on
    for. From the runs of the honest primaries it follows that two certificates for the same slot certify the
    same header, and that a certified header has a quorum of certified parents. *)

From S2P Require Import Prelude Channels Crypto Config Messages Adversary Aggregators Store Primary.
From S2P Require Import Core CoreFacts Proposer Pool Waiters Consensus ConsensusFacts ConsensusAgreement.
From S2P Require Import Network Worker Node NodeSamples NodeFacts NodeSafety.

(** ** What a node signs *)

(** The votes whose digests the core had signed. *)
Definition signatures (es : list Effect) : list Vote :=
  omap (λ e, match e with ToSignatureService v => Some v | _ => None end) es.

Lemma signatures_app es es' : signatures (es ++ es') = signatures es ++ signatures es'.
Proof. apply omap_app. Qed.

Lemma signatures_keys es : vote_key <$> signatures es = votes Signed es.
Proof. induction es as [|[] es IH]; csimpl; congruence. Qed.

(** No vote is signed for a round below the last garbage collected one, [gc] at the start of the log: the core
    refuses what the network brings for such rounds, but not what its waiters still hold. *)
Fixpoint timely `{!Dalek, !Backend} (gc_depth gc : Round) (log : list Entry) : bool :=
  match log with
  | [] => true
  | ECore _ es :: log => forallb (λ v, gc <=? vt_round v) (signatures es) && timely gc_depth gc log
  | ECleanUp r :: log => timely gc_depth (if gc_depth <? r then r - gc_depth else gc) log
  | _ :: log => timely gc_depth gc log
  end.

Section signing.
Context `{!Sha512, !Dalek, !Backend, !Storage, !StorageLaws _}.
Context `{!Bincode Header, !Bincode Certificate, !Bincode PrimaryMessage, !Bincode WorkerPrimaryMessage}.
Variables (name : PublicKey) (committee : Committee) (secret : SecretKey) (parameters : Parameters).
Variables (env : Environment) (cfg : Settings).
Notation node_run := (node_run name committee secret parameters env cfg).
Notation gc_depth := (Config.gc_depth parameters).
Implicit Types (n : Node) (log : list Entry).

(** The core is not ahead of the consensus round. *)
Definition gc_behind n : Prop := gc_round (core n) = 0 ∨ gc_round (core n) + gc_depth ≤ consensus_round n.

Lemma core_handle_votes c input c' es :
  core_handle name committee secret c input = (Some c', es) →
  votes_once Signed c es c' ∧ gc_round c' = gc_round c.
Proof.
  intros E. split.
  - apply (core_handle_respects _ _ _ _ (votes_once_relation name committee secret Signed)) in E as (c1 & Hv & Hc);
      [|apply votes_once_header_broadcast]. by rewrite (Hc c' eq_refl).
  - eapply (core_handle_respects _ _ _ (λ c _ c', gc_round c' = gc_round c)) in E as (c1 & Hv & Hc); [|split; [split|..]; try done|done].
    + by rewrite (Hc c' eq_refl).
    + split; [done|]. congruence.
    + by intros c0 c0' (_ & ? & _).
Qed.

Lemma node_run_signs n actions n' log :
  node_run n actions = Some (n', log) → gc_behind n → timely gc_depth (gc_round (core n)) log = true →
  NoDup (votes Signed (core_effects log)) ∧
  ∀ k, k ∈ votes Signed (core_effects log) → gc_round (core n) ≤ k.1 ∧ ¬ voted (core n) k.
Proof.
  apply (node_run_ind name committee secret parameters env cfg (λ n log _,
    gc_behind n → timely gc_depth (gc_round (core n)) log = true →
    NoDup (votes Signed (core_effects log)) ∧
    ∀ k, k ∈ votes Signed (core_effects log) → gc_round (core n) ≤ k.1 ∧ ¬ voted (core n) k)).
  { intros n0 _ _. split; [constructor|set_solver]. }
  clear n actions n' log. intros n1 e n2 log n3 (q & n & _ & Hd & ->) IH Hb Ht.
  change (core_effects (e :: log)) with (core_effects ([e] ++ log)). rewrite core_effects_app, votes_app.
  unfold core_effects at 1 3. simpl. rewrite !app_nil_r.
  destruct Hd as [out|input c es Hcl E|Hcl|d w|now now' p out ? ?|x ?|x hw out ? ?|x|ds o out ?|c st seq ?|c];
    simpl in *; try (by apply IH).
  - apply andb_true_iff in Ht as [Hg Ht]. apply core_handle_votes in E as [(Hm & Hn & Hv) Egc].
    rewrite <-Egc in *. destruct IH as [Hn' Hv']; [unfold gc_behind in *; simpl in *; by rewrite Egc|exact Ht|]. split.
    + apply NoDup_app_intro; [done..|]. intros k [_ Hk]%Hv [_ Hk']%Hv'. done.
    + rewrite <-signatures_keys. intros k [Hk|Hk]%elem_of_app.
      * apply list_elem_of_fmap in Hk as (v & -> & Hin). rewrite forallb_elem in Hg. split; [by apply N.leb_le, Hg|].
        apply Hv. rewrite <-signatures_keys. by apply list_elem_of_fmap_2.
      * apply Hv' in Hk as [? Hk]. split; [done|]. naive_solver.
  - set (r := consensus_round n1) in *. unfold gc_behind, cleanup in IH, Hb |- *. simpl in IH, Hb.
    destruct (N.ltb_spec gc_depth r) as [Hr|Hr]; simpl in *; [|by apply IH].
    destruct IH as [Hn' Hv']; [lia|exact Ht|]. split; [done|]. intros k [Hk Hnv]%Hv'. split; [lia|].
    intros Hvk. apply Hnv. pose proof (cleanup_voted gc_depth r (core n1) k (r - gc_depth)) as Hc.
    unfold cleanup in Hc. rewrite (proj2 (N.ltb_lt _ _) Hr) in Hc. apply Hc; [lia|done..].
  - apply IH; [|done]. unfold gc_behind in *. simpl in *. unfold collect_step.
    destruct (N.ltb_spec (consensus_round n1) (cround c)); simpl; lia.
Qed.
End signing.

(** ** What a signed vote stands for *)

Section justification.
Context `{!Sha512, !Dalek, !Backend, !Storage, !StorageLaws _, !Bincode Header, !Bincode Certificate}.
Variables (name : PublicKey) (committee : Committee) (secret : SecretKey).
Implicit Types (c : Core.Core) (h : Header) (d : Digest) (es : list Effect) (s : storage).

Definition stored_header es h : Prop := ToStore (Digest_to_vec (hd_id h)) (serialize h) ∈ es.
Definition stored_certificate es (x : Certificate) : Prop := ToStore (Digest_to_vec (digest x)) (serialize x) ∈ es.

(** [v] was written under the digest [d]. *)
Definition written es d (v : Value) : Prop :=
  (∃ x, stored_certificate es x ∧ digest x = d ∧ v = serialize x) ∨
  (∃ h, stored_header es h ∧ hd_id h = d ∧ v = serialize h).

(** What is in the second store under a digest was in the first, or was written. *)
Definition from s es s' : Prop :=
  ∀ d v, storage_read s' (Digest_to_vec d) = Ret (Some v) → storage_read s (Digest_to_vec d) = Ret (Some v) ∨ written es d v.

(** The certificate [p] was found under the digest [d]. *)
Definition found s d (p : Certificate) : Prop :=
  find_genesis committee d = Some p ∨ ∃ v, storage_read s (Digest_to_vec d) = Ret (Some v) ∧ deserialize v = Ret p.

(** A vote for a header that is stored and whose parents were found: certificates of the previous round with
    a quorum of stake. *)
Definition justified s es (v : Vote) : Prop :=
  ∃ h parents, v = unsigned_vote name h ∧ stored_header es h ∧
    Forall2 (found s) (btree_elems (hd_parents h)) parents ∧
    (∀ p, p ∈ parents → u64_add (cround p) 1 = hd_round h) ∧
    quorum_threshold committee ≤ u32_sum ((λ p, stake committee (origin p)) <$> parents).

Definition justifies c es c' : Prop :=
  from (store c) es (store c') ∧ ∀ v, v ∈ signatures es → ∃ s, from (store c) es s ∧ justified s es v.

Lemma written_mono es es' d v : es ⊆ es' → written es d v → written es' d v.
Proof. unfold written, stored_certificate, stored_header. set_solver. Qed.

Lemma justified_mono s es es' v : es ⊆ es' → justified s es v → justified s es' v.
Proof.
  intros Hes (h & ps & ? & Hh & ? & ? & ?). exists h, ps. split_and!; try done. by apply Hes.
Qed.

Lemma from_refl s es : from s es s.
Proof. intros d v. by left. Qed.

Lemma from_trans s1 es1 s2 es2 s3 : from s1 es1 s2 → from s2 es2 s3 → from s1 (es1 ++ es2) s3.
Proof.
  intros F1 F2 d v [[?|Hw]%F1|Hw]%F2; [by left|right; eapply written_mono; [|exact Hw]; set_solver..].
Qed.

Lemma from_same s es s' : s' = s → from s es s'.
Proof. intros ->. apply from_refl. Qed.

Lemma from_header s h : from s [header_write h] (storage_write s (Digest_to_vec (hd_id h)) (serialize h)).
Proof.
  intros d v. destruct (decide (hd_id h = d)) as [<-|Hd].
  - rewrite storage_read_write. intros [= <-]. right. right. exists h. split; [left|done].
  - rewrite storage_read_write_ne; [by left|]. by intros ?%Digest_to_vec_inj.
Qed.

Lemma justifies_silent c es c' : store c' = store c → signatures es = [] → justifies c es c'.
Proof. intros E Es. split; [by apply from_same|]. rewrite Es. set_solver. Qed.

Lemma justifies_trans c1 es1 c2 es2 c3 : justifies c1 es1 c2 → justifies c2 es2 c3 → justifies c1 (es1 ++ es2) c3.
Proof.
  intros [F1 J1] [F2 J2]. split; [by eapply from_trans|]. intros v. rewrite signatures_app, elem_of_app. intros [Hv|Hv].
  - apply J1 in Hv as (s & Hs & Hj). exists s. split; [|eapply justified_mono; [|exact Hj]; set_solver].
    eapply (from_trans _ es1 s es2 s); [done|apply from_refl].
  - apply J2 in Hv as (s & Hs & Hj). exists s. split; [by eapply from_trans|].
    eapply justified_mono; [|exact Hj]. set_solver.
Qed.

Lemma get_parents_found s digests missing parents ps :
  get_parents_loop committee s digests missing parents = Ret ([], ps) →
  missing = [] ∧ ∃ new, ps = parents ++ new ∧ Forall2 (found s) digests new.
Proof.
  revert missing parents. induction digests as [|d digests IH]; intros missing parents; csimpl.
  { intros [= -> ->]. split; [done|]. exists []. by rewrite app_nil_r. }
  destruct (find_genesis committee d) as [g|] eqn:Eg.
  - intros (-> & new & -> & Hf)%IH. split; [done|]. exists (g :: new). rewrite <-app_assoc. split; [done|].
    constructor; [by left|done].
  - unfold read. destruct (storage_read_total s (Digest_to_vec d)) as [[v|] E]; rewrite E; simpl.
    + destruct (deserialize v) as [p| |] eqn:Ed; simpl; [|done..]. intros (-> & new & -> & Hf)%IH. split; [done|].
      exists (p :: new). rewrite <-app_assoc. split; [done|]. constructor; [|done]. right. by exists v.
    + intros (Hm & _)%IH. by destruct missing.
Qed.

Lemma header_checked_justified c h es :
  header_checked name committee c h → header_write h ∈ es → justified (store c) es (unsigned_vote name h).
Proof.
  intros [parents weight Hg _ [Hr ->]%check_parents_ret Hq _] Hes. exists h, parents. split_and!; try done.
  unfold get_parents in Hg. apply outcome_bind_ret in Hg as ([missing ps] & Hl & Hg).
  destruct missing as [|d ds]; [|by simplify_eq; simpl in *]. simpl in Hg. injection Hg as ->.
  apply get_parents_found in Hl as (_ & new & -> & Hf). exact Hf.
Qed.

Lemma justifies_header c h es c' :
  header_checked name committee c h → store c' = store (write_header h c) →
  signatures es = [unsigned_vote name h] → justifies c (header_write h :: es) c'.
Proof.
  intros Hch E Es. split.
  - rewrite E. eapply (from_trans _ [header_write h]); [apply from_header|apply from_refl].
  - simpl. rewrite Es. intros v ->%list_elem_of_singleton. exists (store c). split; [apply from_refl|].
    apply header_checked_justified; [done|left].
Qed.

Lemma justifies_relation : core_relation name committee secret justifies.
Proof.
  split; [split|..].
  - split; [intros c; by apply justifies_silent|by apply justifies_trans].
  - intros c c' (E & _). by apply justifies_silent.
  - intros c l. apply justifies_silent; [done|]. by induction l.
  - intros c h. split; [apply from_header|simpl; set_solver].
  - intros c r a. by apply justifies_silent.
  - intros c h Hch _. by apply justifies_header.
  - intros c h v address Hch _ _. by apply justifies_header.
  - intros c l. apply justifies_silent; [done|]. by induction l.
  - intros c addresses m. by apply justifies_silent.
  - intros c x a parents _ _. split.
    + intros d v. simpl. destruct (decide (digest x = d)) as [<-|Hd].
      * rewrite storage_read_write. intros [= <-]. right. left. exists x. split; [left|done].
      * rewrite storage_read_write_ne; [by left|]. by intros ?%Digest_to_vec_inj.
    + intros v Hv. destruct parents; by apply elem_of_nil in Hv.
Qed.
End justification.

(** ** Runs of honest primaries *)

Section honest.
Context `{!Sha512, !Dalek, !Backend, !Storage, !StorageLaws _}.
Context `{!Bincode Header, !Bincode Certificate, !Bincode PrimaryMessage, !Bincode WorkerPrimaryMessage}.
Variable committee : Committee.
Implicit Types (r : NodeRun) (a : PublicKey).

Notation effects r := (core_effects (nr_log r)).

(** The run of the primary [a] in the committee, from a store without headers and certificates. *)
Record run_of a r : Prop := {
  run_spawn : node_spawn a (nr_secret r) committee (nr_parameters r) (nr_store r) (nr_env r) (nr_var r) (nr_now r) =
    Ret (nr_cfg r, nr_start r, nr_out r);
  run_clean d : ¬ stored (nr_store r) (Digest_to_vec d);
  run_steps : node_run a committee (nr_secret r) (nr_parameters r) (nr_env r) (nr_cfg r) (nr_start r) (nr_actions r) =
    Some (nr_end r, nr_log r);
  run_timely : timely (Config.gc_depth (nr_parameters r)) 0 (nr_log r) = true
}.

Lemma run_signs_once a r : run_of a r → NoDup (vote_key <$> signatures (effects r)).
Proof.
  intros [Hs%node_spawn_spawned Hc Hr Ht]. rewrite signatures_keys.
  pose proof (spawned_core _ _ _ _ _ Hs) as Ec.
  eapply node_run_signs; [exact Hr|left; by rewrite Ec|by rewrite Ec].
Qed.

Lemma from_written s es s' d v :
  (∀ d, ¬ stored s (Digest_to_vec d)) → from s es s' → storage_read s' (Digest_to_vec d) = Ret (Some v) → written es d v.
Proof. intros Hc Hf [E|?]%Hf; [|done]. destruct (Hc d). by exists v. Qed.

(** What a vote the primary signed stands for, with the certificates it found under the parents. *)
Definition vote_stands a es (v : Vote) : Prop :=
  ∃ h parents, v = unsigned_vote a h ∧ stored_header es h ∧
    Forall2 (λ d p, find_genesis committee d = Some p ∨ ∃ w, written es d w ∧ deserialize w = Ret p)
      (btree_elems (hd_parents h)) parents ∧
    (∀ p, p ∈ parents → u64_add (cround p) 1 = hd_round h) ∧
    quorum_threshold committee ≤ u32_sum ((λ p, stake committee (origin p)) <$> parents).

Lemma run_votes_stand a r v : run_of a r → v ∈ signatures (effects r) → vote_stands a (effects r) v.
Proof.
  intros [Hs%node_spawn_spawned Hc Hr _] Hv. pose proof (spawned_core _ _ _ _ _ Hs) as Ec.
  assert (Hj : justifies a committee (core (nr_start r)) (effects r) (core (nr_end r))).
  { eapply node_run_core; [apply justifies_relation|..|exact Hr|].
    - intros. by apply justifies_silent.
    - intros c d w. split; [|simpl; set_solver]. intros d' v'. unfold receive_payload. simpl.
      rewrite storage_read_write_ne; [by left|]. apply payload_key_digest.
    - intros x _ c. unfold cleanup. destruct (_ <? _); by apply justifies_silent. }
  destruct Hj as [_ Hj]. apply Hj in Hv as (s & Hf & h & parents & Ev & Hh & Hps & Hro & Hq).
  rewrite Ec in Hf. exists h, parents. split_and!; try done. eapply Forall2_impl; [exact Hps|].
  intros d p [?|(w & Hw & Hd)]; [by left|right]. exists w. split; [by eapply from_written|done].
Qed.
End honest.

(** ** Certificates of honest quorums *)

(** The authorities of [honest] have more than N - f - 1 of the stake: the others have at most f. *)
Definition honest_stake (committee : Committee) (honest : gset PublicKey) : Prop :=
  total_stake committee < stake_of committee honest + validity_threshold committee.

Lemma honest_in_quorums committee honest X Y :
  small_stake committee → honest_stake committee honest →
  quorum_threshold committee ≤ stake_of committee X → quorum_threshold committee ≤ stake_of committee Y →
  ∃ a, a ∈ X ∧ a ∈ Y ∧ a ∈ honest.
Proof.
  unfold honest_stake. intros Hs. rewrite quorum_threshold_small, validity_threshold_small by done. intros Hh HX HY.
  pose proof (stake_of_inter_lower committee X Y). pose proof (stake_of_inter_lower committee (X ∩ Y) honest).
  destruct (stake_of_pos committee (X ∩ Y ∩ honest)) as (a & Ha & _); [div_lia|]. exists a. set_solver.
Qed.

Section certification.
Context `{!Sha512, !Dalek, !Backend, !Storage, !StorageLaws _}.
Context `{!Bincode Header, !Bincode Certificate, !Bincode PrimaryMessage, !Bincode WorkerPrimaryMessage}.
Variables (committee : Committee) (honest : gset PublicKey) (runs : PublicKey → NodeRun) (certs : list Certificate).

Notation effects a := (core_effects (nr_log (runs a))).

(** A certificate an honest primary can have found under a digest. *)
Definition known_certificate (x : Certificate) : Prop :=
  x ∈ genesis committee ∨ ∃ a, a ∈ honest ∧ stored_certificate (effects a) x.

(** What the signature scheme and the hash function are relied on for, in the runs of the honest authorities
    and for the certificates of a list: a voter of a certificate that verifies had its digest signed, and the
    hashes met do not collide: a signed vote, or a certificate that an honest primary has, with the digest of
    a certificate is for the same header; a header stored under the id of a certified header has its parents;
    and the id of no header that is stored is the digest of a certificate that is. *)
Record crypto_sound : Prop := {
  unforgeable c a :
    c ∈ certs → Certificate_verify c committee = Ret () → a ∈ voters (ct_votes c) → a ∈ honest →
    ∃ v, v ∈ signatures (effects a) ∧ digest v = digest c;
  vote_binding c a v :
    c ∈ certs → a ∈ honest → v ∈ signatures (effects a) → digest v = digest c →
    vt_id v = hd_id (ct_header c) ∧ vt_round v = cround c ∧ vt_origin v = origin c;
  header_binding c a h :
    c ∈ certs → a ∈ honest → stored_header (effects a) h → hd_id h = hd_id (ct_header c) →
    hd_parents h = hd_parents (ct_header c);
  certificate_binding x y :
    x ∈ genesis committee ++ certs ∨ known_certificate x → y ∈ genesis committee ++ certs → digest x = digest y →
    slot x = slot y;
  id_binding a h x : a ∈ honest → stored_header (effects a) h → known_certificate x → hd_id h ≠ digest x
}.

(** What the signature scheme and the hash function are relied on for, besides [crypto_sound]: the header of a
    certificate that verifies was made by its author, when this is honest, and a header that an honest
    primary stored or made under the id of a certified header has its payload. *)
Record headers_sound : Prop := {
  header_unforgeable c :
    c ∈ certs → Certificate_verify c committee = Ret () → 0 < cround c → origin c ∈ honest →
    ∃ h, h ∈ headers (proposer_outputs (nr_log (runs (origin c)))) ∧ hd_id h = hd_id (ct_header c);
  payload_binding c a h :
    c ∈ certs → a ∈ honest →
    stored_header (effects a) h ∨ h ∈ headers (proposer_outputs (nr_log (runs a))) →
    hd_id h = hd_id (ct_header c) → hd_payload h = hd_payload (ct_header c)
}.

Hypothesis Hsmall : small_stake committee.
Hypothesis Hhonest : honest_stake committee honest.
Hypothesis Hruns : ∀ a, a ∈ honest → run_of committee a (runs a).
Hypothesis Hcrypto : crypto_sound.

(** A certificate that verifies is not a genesis certificate or signed by a quorum. *)
Lemma verified_quorum c :
  Certificate_verify c committee = Ret () → 0 < cround c →
  quorum_threshold committee ≤ stake_of committee (list_to_set (voters (ct_votes c))).
Proof. intros [(_ & ? & _)|(_ & _ & _ & ? & _)]%Certificate_verify_ret ?; [lia|done|done]. Qed.

(** An honest voter of two certificates for one slot signed one vote, for the header of both. *)
Lemma common_vote c c' :
  c ∈ certs → c' ∈ certs → Certificate_verify c committee = Ret () → Certificate_verify c' committee = Ret () →
  0 < cround c → slot c = slot c' →
  ∃ a v, a ∈ honest ∧ v ∈ signatures (effects a) ∧ digest v = digest c ∧ digest v = digest c'.
Proof.
  intros Hc Hc' Hv Hv' Hpos Hs. assert (Hpos' : 0 < cround c') by (injection Hs; lia).
  destruct (honest_in_quorums committee honest _ _ Hsmall Hhonest (verified_quorum c Hv Hpos) (verified_quorum c' Hv' Hpos'))
    as (a & Ha & Ha' & Hh). rewrite elem_of_list_to_set in Ha, Ha'.
  destruct (unforgeable Hcrypto c a Hc Hv Ha Hh) as (v & Hsv & Ed).
  destruct (unforgeable Hcrypto c' a Hc' Hv' Ha' Hh) as (v' & Hsv' & Ed').
  destruct (vote_binding Hcrypto c a v Hc Hh Hsv Ed) as (Ei & Er & Eo).
  destruct (vote_binding Hcrypto c' a v' Hc' Hh Hsv' Ed') as (Ei' & Er' & Eo').
  assert (Ek : vote_key v = vote_key v').
  { unfold vote_key. unfold slot in Hs. congruence. }
  pose proof (run_signs_once committee a _ (Hruns a Hh)) as Hnd.
  assert (v = v') as <-; [|by exists a, v].
  apply list_elem_of_lookup in Hsv as [i Hi]. apply list_elem_of_lookup in Hsv' as [j Hj].
  assert (i = j) as <-; [|congruence].
  eapply (NoDup_lookup _ i j (vote_key v)); [exact Hnd|by rewrite list_lookup_fmap, Hi|by rewrite list_lookup_fmap, Hj, Ek].
Qed.

Lemma certificates_same c c' :
  c ∈ certs → c' ∈ certs → Certificate_verify c committee = Ret () → Certificate_verify c' committee = Ret () →
  0 < cround c → slot c = slot c' →
  hd_id (ct_header c) = hd_id (ct_header c') ∧ digest c = digest c' ∧ hd_parents (ct_header c) = hd_parents (ct_header c').
Proof.
  intros Hc Hc' Hv Hv' Hpos Hs.
  destruct (common_vote c c' Hc Hc' Hv Hv' Hpos Hs) as (a & v & Ha & Hsv & Ed & Ed').
  destruct (vote_binding Hcrypto c a v Hc Ha Hsv Ed) as (Ei & _ & _).
  destruct (vote_binding Hcrypto c' a v Hc' Ha Hsv Ed') as (Ei' & _ & _).
  split_and!; [congruence| |].
  - apply certificate_eqb_digest, certificate_eqb_spec. unfold slot in Hs. split_and!; congruence.
  - destruct (run_votes_stand committee a _ v (Hruns a Ha) Hsv) as (h & _ & Ev & Hh & _).
    assert (Eh : hd_id h = vt_id v) by by rewrite Ev.
    rewrite <-(header_binding Hcrypto c a h), <-(header_binding Hcrypto c' a h); congruence || done.
Qed.
End certification.

(** Both hold of a part of the certificates. *)
Section part.
Context `{!Sha512, !Dalek, !Backend, !Storage, !Bincode Header, !Bincode Certificate}.
Variables (committee : Committee) (honest : gset PublicKey) (runs : PublicKey → NodeRun) (certs certs' : list Certificate).
Hypothesis Hsub : certs' ⊆ certs.

Lemma crypto_sound_part : crypto_sound committee honest runs certs → crypto_sound committee honest runs certs'.
Proof.
  intros [Hu Hv Hh Hc Hi]. split; [by eauto..| |done]. intros x y Hx Hy. apply Hc; [|set_solver]. destruct Hx; [left|by right]. set_solver.
Qed.

Lemma headers_sound_part : headers_sound committee honest runs certs → headers_sound committee honest runs certs'.
Proof. intros [Hu Hp]. split; by eauto. Qed.
End part.

(** ** Properties *)

Section properties.
Context `{!Sha512, !Dalek, !Backend, !Storage, !StorageLaws _}.
Context `{!Bincode Header, !Bincode Certificate, !Bincode PrimaryMessage, !Bincode WorkerPrimaryMessage}.

(** C2: No two certificates for one slot. Take any runs of the primaries of the honest authorities, whose
    stake leaves at most f to the others, from stores without headers and certificates, in which no vote is signed
    for a round garbage collected before, no signature of an honest voter is forged and no digests collide: two
    certificates that verify and are for the same author and the same round above 0 certify headers of the same id,
    have the same digest and the same parents. (In round 0 anything that looks like a certificate of the genesis
    verifies.) *)
Theorem certificates_unique committee honest runs certs c c' :
  small_stake committee → honest_stake committee honest → (∀ a, a ∈ honest → run_of committee a (runs a)) →
  crypto_sound committee honest runs certs →
  c ∈ certs → c' ∈ certs → Certificate_verify c committee = Ret () → Certificate_verify c' committee = Ret () →
  0 < cround c → slot c = slot c' →
  hd_id (ct_header c) = hd_id (ct_header c') ∧ digest c = digest c' ∧ hd_parents (ct_header c) = hd_parents (ct_header c').
Proof. intros Hs Hh Hr Hc Hin Hin'. by apply (certificates_same committee honest runs certs Hs Hh Hr Hc). Qed.

(** C7: A primary signs at most one vote per author and round, whatever it receives and however its tasks
    interleave, as long as no vote is for a round garbage collected before; and every vote it signs is for a
    header in its log of stored headers, under whose parents it found certificates of the previous round with a
    quorum of stake, in the genesis or in what it stored. *)
Theorem signed_votes committee a r :
  run_of committee a r →
  NoDup (vote_key <$> signatures (core_effects (nr_log r))) ∧
  ∀ v, v ∈ signatures (core_effects (nr_log r)) → vote_stands committee a (core_effects (nr_log r)) v.
Proof. intros Hr. split; [by eapply run_signs_once|]. intros v Hv. by apply run_votes_stand. Qed.
End properties.

(** ** Evaluation *)

(** [crypto_sound] and [headers_sound] are decidable for given runs: [data] has, for every honest authority, the
    votes it signed, the headers and certificates it stored, and the headers it made. *)
Section check.
Context `{!Sha512, !Dalek, !Backend, !Storage, !Bincode Header, !Bincode Certificate}.
Context `{!BincodeLaws Header, !BincodeLaws Certificate}.
Variables (committee : Committee) (runs : PublicKey → NodeRun) (certs : list Certificate).

Definition stored_values {A} `{!Bincode A} (es : list Effect) : list A :=
  omap (λ e, match e with ToStore _ v => match deserialize v with Ret x => Some x | _ => None end | _ => None end) es.

Definition made (log : list Entry) : list Header := headers (proposer_outputs log).

Definition log_data (log : list Entry) : list Vote * list Header * list Certificate * list Header :=
  let es := core_effects log in (signatures es, stored_values es, stored_values es, made log).

Definition run_data (a : PublicKey) := log_data (nr_log (runs a)).

Definition crypto_check (data : list (PublicKey * (list Vote * list Header * list Certificate * list Header))) : bool :=
  let cs := (λ c, (digest c, c)) <$> certs in
  let all := (λ c, (digest c, slot c)) <$> (genesis committee ++ certs) in
  let known := all ++ ((λ c, (digest c, slot c)) <$> (genesis committee ++ (data ≫= λ e, e.2.1.2))) in
  forallb (λ e, let '(a, (votes, headers, certificates, _)) := e in
    let votes := (λ v, (digest v, v)) <$> votes in
    forallb (λ c,
      implb (bool_decide (a ∈ voters (ct_votes c.2))) (existsb (λ v, bool_decide (v.1 = c.1)) votes) &&
      forallb (λ v, implb (bool_decide (v.1 = c.1)) (bool_decide (vt_id v.2 = hd_id (ct_header c.2)) &&
        bool_decide (vt_round v.2 = cround c.2) && bool_decide (vt_origin v.2 = origin c.2))) votes &&
      forallb (λ h, implb (bool_decide (hd_id h = hd_id (ct_header c.2)))
        (bool_decide (hd_parents h = hd_parents (ct_header c.2)))) headers) cs &&
    forallb (λ h, forallb (λ x, negb (bool_decide (hd_id h = x.1))) known) headers) data &&
  forallb (λ x, forallb (λ y, implb (bool_decide (x.1 = y.1)) (bool_decide (x.2 = y.2))) all) known.

Lemma elem_of_stored_values {A} `{!Bincode A, !BincodeLaws A} es key (x : A) :
  ToStore key (serialize x) ∈ es → x ∈ stored_values es.
Proof. intros Hin. apply list_elem_of_omap. eexists. split; [exact Hin|]. simpl. by rewrite bincode_roundtrip. Qed.

Lemma crypto_check_sound honest (keys : list PublicKey) :
  honest = list_to_set keys → crypto_check ((λ a, (a, run_data a)) <$> keys) = true →
  crypto_sound committee honest runs certs.
Proof.
  intros -> Hc. unfold crypto_check in Hc. apply andb_true_iff in Hc as [Hd Hb].
  set (all := _ <$> (genesis committee ++ certs)) in *. set (known := all ++ _) in *.
  assert (Hk : ∀ x, known_certificate committee (list_to_set keys) runs x → (digest x, slot x) ∈ known).
  { intros x [Hx|(a & Ha%elem_of_list_to_set & Hx)]; unfold known; apply elem_of_app; right;
      apply (list_elem_of_fmap_2 (λ c, (digest c, slot c))); apply elem_of_app; [by left|right].
    apply list_elem_of_bind. exists (a, run_data a). split; [|by apply (list_elem_of_fmap_2 (λ a, (a, run_data a)))].
    simpl. eapply elem_of_stored_values. exact Hx. }
  assert (Hall : ∀ x, x ∈ genesis committee ++ certs → (digest x, slot x) ∈ all).
  { intros x Hx. by apply (list_elem_of_fmap_2 (λ c, (digest c, slot c))). }
  rewrite forallb_elem in Hd. rewrite forallb_elem in Hb.
  assert (Ha : ∀ a, a ∈ (list_to_set keys : gset PublicKey) → (a, run_data a) ∈ (λ a, (a, run_data a)) <$> keys).
  { intros a Hin%elem_of_list_to_set. by apply (list_elem_of_fmap_2 (λ a, (a, run_data a))). }
  split.
  - intros c a Hc _ Hv Hin. apply Ha, Hd in Hin. simpl in Hin. apply andb_true_iff in Hin as [Hin _].
    rewrite forallb_elem in Hin. specialize (Hin (digest c, c) (list_elem_of_fmap_2 (λ c, (digest c, c)) _ _ Hc)). simpl in Hin.
    rewrite !andb_true_iff in Hin. destruct Hin as [[Hin _] _]. rewrite bool_decide_eq_true_2 in Hin by done. simpl in Hin.
    apply existsb_In in Hin as (v & (v' & -> & Hv')%list_elem_of_fmap & E%bool_decide_eq_true). by exists v'.
  - intros c a v Hc Hin Hv E. apply Ha, Hd in Hin. simpl in Hin. apply andb_true_iff in Hin as [Hin _].
    rewrite forallb_elem in Hin. specialize (Hin (digest c, c) (list_elem_of_fmap_2 (λ c, (digest c, c)) _ _ Hc)). simpl in Hin.
    rewrite !andb_true_iff, !forallb_elem in Hin. destruct Hin as [[_ Hin] _].
    specialize (Hin (digest v, v) (list_elem_of_fmap_2 (λ v, (digest v, v)) _ _ Hv)). simpl in Hin.
    rewrite bool_decide_eq_true_2 in Hin by done. simpl in Hin. rewrite !andb_true_iff, !bool_decide_eq_true in Hin. tauto.
  - intros c a h Hc Hin Hh E. apply Ha, Hd in Hin. simpl in Hin. apply andb_true_iff in Hin as [Hin _].
    rewrite forallb_elem in Hin. specialize (Hin (digest c, c) (list_elem_of_fmap_2 (λ c, (digest c, c)) _ _ Hc)). simpl in Hin.
    rewrite !andb_true_iff, !forallb_elem in Hin. destruct Hin as [_ Hin].
    specialize (Hin h (elem_of_stored_values _ _ _ Hh)). rewrite bool_decide_eq_true_2 in Hin by done. simpl in Hin.
    by apply bool_decide_eq_true in Hin.
  - intros x y Hx Hy E. assert (Hx' : (digest x, slot x) ∈ known).
    { destruct Hx as [Hx|Hx]; [|by apply Hk]. apply elem_of_app. left. by apply Hall. }
    apply Hb in Hx'. rewrite forallb_elem in Hx'. apply Hall, Hx' in Hy. simpl in Hy.
    rewrite bool_decide_eq_true_2 in Hy by done. simpl in Hy. by apply bool_decide_eq_true in Hy.
  - intros a h x Hin Hh Hx E. apply Ha, Hd in Hin. simpl in Hin. apply andb_true_iff in Hin as [_ Hin].
    rewrite forallb_elem in Hin. specialize (Hin h (elem_of_stored_values _ _ _ Hh)). rewrite forallb_elem in Hin.
    specialize (Hin _ (Hk x Hx)). simpl in Hin. by rewrite bool_decide_eq_true_2 in Hin.
Qed.

Definition headers_check (data : list (PublicKey * (list Vote * list Header * list Certificate * list Header))) : bool :=
  forallb (λ e, let '(a, (_, headers, _, own)) := e in
    forallb (λ c,
      implb (bool_decide (origin c = a)) (existsb (λ h, bool_decide (hd_id h = hd_id (ct_header c))) own) &&
      forallb (λ h, implb (bool_decide (hd_id h = hd_id (ct_header c))) (bool_decide (hd_payload h = hd_payload (ct_header c))))
        (headers ++ own)) certs) data.

Lemma headers_check_sound honest (keys : list PublicKey) :
  honest = list_to_set keys → headers_check ((λ a, (a, run_data a)) <$> keys) = true →
  headers_sound committee honest runs certs.
Proof.
  intros -> Hc. unfold headers_check in Hc. rewrite forallb_elem in Hc.
  assert (Ha : ∀ a c, a ∈ (list_to_set keys : gset PublicKey) → c ∈ certs →
    (origin c = a → ∃ h, h ∈ made (nr_log (runs a)) ∧ hd_id h = hd_id (ct_header c)) ∧
    ∀ h, h ∈ stored_values (core_effects (nr_log (runs a))) ++ made (nr_log (runs a)) →
      hd_id h = hd_id (ct_header c) → hd_payload h = hd_payload (ct_header c)).
  { intros a c Hin%elem_of_list_to_set Hcc.
    specialize (Hc _ (list_elem_of_fmap_2 (λ a, (a, run_data a)) _ _ Hin)). unfold run_data, log_data in Hc. simpl in Hc.
    rewrite forallb_elem in Hc. apply Hc, andb_true_iff in Hcc as [Ho Hp]. split.
    - intros E. rewrite bool_decide_eq_true_2 in Ho by done. simpl in Ho.
      apply existsb_In in Ho as (h & ? & ?%bool_decide_eq_true). by exists h.
    - rewrite forallb_elem in Hp. intros h Hh%Hp Ei. rewrite bool_decide_eq_true_2 in Hh by done.
      by apply bool_decide_eq_true in Hh. }
  split.
  - intros c Hin _ _ Ho. by apply (Ha (origin c) c).
  - intros c a h Hin Hk Hh Ei. destruct (Ha a c Hk Hin) as [_ Hp]. apply Hp; [|done]. apply elem_of_app.
    destruct Hh as [Hh|Hh]; [left|by right]. eapply elem_of_stored_values. exact Hh.
Qed.
End check.

Module SampleRuns.
Import Toy ToyBackend ToyBincode MapDB SampleStore SampleWorker SampleMessages.

#[export] Instance header_laws : BincodeLaws Header := toy_bincode_laws _ _.
#[export] Instance certificate_laws : BincodeLaws Certificate := toy_bincode_laws _ _.

(** The runs of the three honest primaries through five rounds; the sample keys are numbered by their first byte. *)
Definition number (k : PublicKey) : N := match PublicKey_as_ref k with b :: _ => Strings.Byte.to_N b | [] => 0 end.
Definition runs (k : PublicKey) : NodeRun := sample_run (number k) 5.
Definition keys : list PublicKey := [pk 1; pk 2; pk 3].
Definition honest : gset PublicKey := list_to_set keys.
Definition certs : list Certificate := fed_certificates (nr_log (runs (pk 1))) ++ fed_certificates (nr_log (runs (pk 2))).

Lemma number_pk : number (pk 1) = 1 ∧ number (pk 2) = 2 ∧ number (pk 3) = 3.
Proof. vm_compute. repeat split. Qed.

Lemma honest_cases (P : PublicKey → Prop) : P (pk 1) → P (pk 2) → P (pk 3) → ∀ a, a ∈ honest → P a.
Proof.
  intros ??? a. unfold honest, keys. rewrite elem_of_list_to_set, !elem_of_cons, elem_of_nil. by intros [->|[->|[->|[]]]].
Qed.

Lemma honest_members : pk 1 ∈ honest ∧ pk 2 ∈ honest.
Proof. unfold honest, keys. rewrite !elem_of_list_to_set, !elem_of_cons. auto. Qed.

Lemma sample_honest : honest_stake Sample.committee honest.
Proof. vm_compute. reflexivity. Qed.

(** What the witnesses ask of these runs, all in one evaluation. *)
Definition proper_log (log : list Entry) : bool :=
  let cs := fed_certificates log in
  bool_decide (NoDup (slot <$> cs)) &&
  forallb (λ c, is_ret (Certificate_verify c Sample.committee) && (0 <? cround c) && (cround c + 50 + 2 <? two64)) cs.

Definition leader_check (log : list Entry) : bool :=
  match run_leaders Sample.committee 50 (λ _, None) (State_new (genesis Sample.committee)) (fed_certificates log) with
  | Ret [l] => bool_decide (slot l = (2, pk 3))
  | _ => false
  end.

Definition committed_check (log : list Entry) : bool :=
  match (committed log).*1 !! 1%nat with
  | Some c => bool_decide (hd_payload (ct_header c) = {[ hash_bytes batch_1 := 0 ]})
  | None => false
  end.

Definition same_slot (cs : list Certificate) : bool :=
  match cs !! 11%nat, cs !! 31%nat with Some c, Some c' => bool_decide (slot c = slot c') | _, _ => false end.

Definition logs_check (l1 l2 l3 : list Entry) : bool :=
  let certs := fed_certificates l1 ++ fed_certificates l2 in
  let data := [(pk 1, log_data l1); (pk 2, log_data l2); (pk 3, log_data l3)] in
  (timely 50 0 l1 && timely 50 0 l2 && timely 50 0 l3) && (proper_log l1 && proper_log l2) &&
  (crypto_check Sample.committee certs data && headers_check certs data) &&
  (same_slot certs && bool_decide (length (signatures (core_effects l1)) = 20%nat)) &&
  (leader_check l1 && committed_check l1).

Definition runs_check : bool :=
  check_run 1 (rounds_actions 1 5) (λ _ l1, check_run 2 (rounds_actions 2 5) (λ _ l2,
    check_run 3 (rounds_actions 3 5) (λ _ l3, logs_check l1 l2 l3))).

Lemma runs_checked : runs_check = true.
Proof. vm_compute. reflexivity. Qed.

Lemma run_of_sample i actions :
  let r := sample_run_on i actions in
  sample_spawn i = Ret (nr_cfg r, nr_start r, nr_out r) →
  run_from i (nr_cfg r) (nr_start r) (nr_actions r) = Some (nr_end r, nr_log r) →
  timely 50 0 (nr_log r) = true → run_of Sample.committee (pk i) r.
Proof.
  intros r Es Er Ht. unfold r, sample_run_on in *. destruct (value _ (sample_spawn i)) as [[cfg n0] out].
  destruct (default _ _) as [n1 log]. split; [exact Es| |exact Er|exact Ht]. by intros d [v E].
Qed.

Lemma runs_eq i : number (pk i) = i → runs (pk i) = sample_run i 5.
Proof. unfold runs. by intros ->. Qed.

Lemma honest_run i :
  number (pk i) = i →
  sample_spawn i = Ret (nr_cfg (sample_run i 5), nr_start (sample_run i 5), nr_out (sample_run i 5)) →
  run_from i (nr_cfg (sample_run i 5)) (nr_start (sample_run i 5)) (nr_actions (sample_run i 5)) =
    Some (nr_end (sample_run i 5), nr_log (sample_run i 5)) →
  timely 50 0 (nr_log (runs (pk i))) = true → run_of Sample.committee (pk i) (runs (pk i)).
Proof. intros E. rewrite (runs_eq i E). exact (run_of_sample i (rounds_actions i 5)). Qed.

Lemma logs_checked :
  logs_check (nr_log (runs (pk 1))) (nr_log (runs (pk 2))) (nr_log (runs (pk 3))) = true ∧
  ∀ a, a ∈ honest → timely 50 0 (nr_log (runs a)) = true → run_of Sample.committee a (runs a).
Proof.
  destruct number_pk as (E1 & E2 & E3).
  pose proof runs_checked as (Es1 & Er1 & (Es2 & Er2 & (Es3 & Er3 & Hc)%check_run_spec)%check_run_spec)%check_run_spec.
  split; [rewrite (runs_eq 1 E1), (runs_eq 2 E2), (runs_eq 3 E3); exact Hc|].
  exact (honest_cases _ (honest_run 1 E1 Es1 Er1) (honest_run 2 E2 Es2 Er2) (honest_run 3 E3 Es3 Er3)).
Qed.

(** The parts of the check, for logs that are not evaluated again. *)
Lemma logs_check_parts l1 l2 l3 :
  logs_check l1 l2 l3 = true →
  (timely 50 0 l1 = true ∧ timely 50 0 l2 = true ∧ timely 50 0 l3 = true) ∧ (proper_log l1 = true ∧ proper_log l2 = true) ∧
  (crypto_check Sample.committee (fed_certificates l1 ++ fed_certificates l2)
     [(pk 1, log_data l1); (pk 2, log_data l2); (pk 3, log_data l3)] = true ∧
   headers_check (fed_certificates l1 ++ fed_certificates l2)
     [(pk 1, log_data l1); (pk 2, log_data l2); (pk 3, log_data l3)] = true) ∧
  (same_slot (fed_certificates l1 ++ fed_certificates l2) = true ∧ length (signatures (core_effects l1)) = 20%nat) ∧
  leader_check l1 = true ∧ committed_check l1 = true.
Proof. unfold logs_check. rewrite !andb_true_iff, bool_decide_eq_true. tauto. Qed.

Lemma logs_parts :
  let l1 := nr_log (runs (pk 1)) in let l2 := nr_log (runs (pk 2)) in let l3 := nr_log (runs (pk 3)) in
  (timely 50 0 l1 = true ∧ timely 50 0 l2 = true ∧ timely 50 0 l3 = true) ∧ (proper_log l1 = true ∧ proper_log l2 = true) ∧
  (crypto_check Sample.committee certs [(pk 1, log_data l1); (pk 2, log_data l2); (pk 3, log_data l3)] = true ∧
   headers_check certs [(pk 1, log_data l1); (pk 2, log_data l2); (pk 3, log_data l3)] = true) ∧
  (same_slot certs = true ∧ length (signatures (core_effects l1)) = 20%nat) ∧
  leader_check l1 = true ∧ committed_check l1 = true.
Proof. exact (logs_check_parts _ _ _ (proj1 logs_checked)). Qed.

Lemma honest_runs a : a ∈ honest → run_of Sample.committee a (runs a).
Proof.
  destruct logs_parts as ((H1 & H2 & H3) & _). intros Ha.
  exact (proj2 logs_checked a Ha (honest_cases (λ a, timely 50 0 (nr_log (runs a)) = true) H1 H2 H3 a Ha)).
Qed.

Lemma sample_crypto : crypto_sound Sample.committee honest runs certs.
Proof. exact (crypto_check_sound Sample.committee runs certs honest keys eq_refl (proj1 (proj1 (proj2 (proj2 logs_parts))))). Qed.

Lemma sample_headers : headers_sound Sample.committee honest runs certs.
Proof. exact (headers_check_sound Sample.committee runs certs honest keys eq_refl (proj2 (proj1 (proj2 (proj2 logs_parts))))). Qed.
End SampleRuns.

Section witnesses.
Import Toy ToyBackend ToyBincode MapDB SampleStore SampleWorker SampleMessages SampleRuns.

(** The certificates of authority 2 in round 3 that primaries 1 and 2 took. *)
Definition first_taken : Certificate := default Certificate_default (certs !! 11%nat).
Definition second_taken : Certificate := default Certificate_default (certs !! 31%nat).

Lemma proper_log_elem log c :
  proper_log log = true → c ∈ fed_certificates log →
  Certificate_verify c Sample.committee = Ret () ∧ 0 < cround c ∧ cround c + 50 + 2 < two64.
Proof.
  unfold proper_log. rewrite andb_true_iff, forallb_elem. intros [_ Hc] Hin%Hc.
  rewrite !andb_true_iff, !N.ltb_lt in Hin. destruct Hin as [[Hv%is_ret_unit Hpos] Hb]. exact (conj Hv (conj Hpos Hb)).
Qed.

Lemma same_slot_spec cs :
  same_slot cs = true →
  default Certificate_default (cs !! 11%nat) ∈ cs ∧ default Certificate_default (cs !! 31%nat) ∈ cs ∧
  slot (default Certificate_default (cs !! 11%nat)) = slot (default Certificate_default (cs !! 31%nat)).
Proof.
  unfold same_slot. destruct (cs !! 11%nat) as [c|] eqn:E1; [|done]. destruct (cs !! 31%nat) as [c'|] eqn:E2; [|done].
  intros Hs%bool_decide_eq_true. split_and!; [by eapply list_elem_of_lookup_2..|done].
Qed.

Lemma taken_spec : first_taken ∈ certs ∧ second_taken ∈ certs ∧ slot first_taken = slot second_taken.
Proof. exact (same_slot_spec certs (proj1 (proj1 (proj2 (proj2 (proj2 logs_parts)))))). Qed.

Lemma proper_logs_verify l1 l2 c :
  proper_log l1 = true → proper_log l2 = true → c ∈ fed_certificates l1 ++ fed_certificates l2 →
  Certificate_verify c Sample.committee = Ret () ∧ 0 < cround c.
Proof.
  intros P1 P2 [Hc|Hc]%elem_of_app.
  - destruct (proper_log_elem _ _ P1 Hc) as (Hv & Hpos & _). exact (conj Hv Hpos).
  - destruct (proper_log_elem _ _ P2 Hc) as (Hv & Hpos & _). exact (conj Hv Hpos).
Qed.

Lemma certs_verify c : c ∈ certs → Certificate_verify c Sample.committee = Ret () ∧ 0 < cround c.
Proof. exact (proper_logs_verify _ _ c (proj1 (proj1 (proj2 logs_parts))) (proj2 (proj1 (proj2 logs_parts)))). Qed.

Lemma certificates_unique_witness :
  hd_id (ct_header first_taken) = hd_id (ct_header second_taken) ∧ digest first_taken = digest second_taken ∧
  hd_parents (ct_header first_taken) = hd_parents (ct_header second_taken).
Proof.
  exact (certificates_unique Sample.committee honest runs certs first_taken second_taken
    sample_small sample_honest honest_runs sample_crypto (proj1 taken_spec) (proj1 (proj2 taken_spec))
    (proj1 (certs_verify first_taken (proj1 taken_spec))) (proj1 (certs_verify second_taken (proj1 (proj2 taken_spec))))
    (proj2 (certs_verify first_taken (proj1 taken_spec))) (proj2 (proj2 taken_spec))).
Defined.

Lemma signed_votes_witness :
  length (signatures (core_effects (nr_log (runs (pk 1))))) = 20%nat ∧
  NoDup (vote_key <$> signatures (core_effects (nr_log (runs (pk 1))))).
Proof.
  split; [exact (proj2 (proj1 (proj2 (proj2 (proj2 logs_parts)))))|].
  exact (proj1 (signed_votes Sample.committee (pk 1) _ (honest_runs (pk 1) (proj1 honest_members)))).
Defined.
End witnesses.
