(* ===== verification/NodeAgreement.v ===== *)
(** Agreement of whole primaries: the certificates that the consensus tasks of two honest primaries take form
    a graph as the specification of the consensus asks for, so the two commit the same leaders. *)

From S2P Require Import Prelude Channels Crypto Config Messages Adversary Aggregators Store Primary.
From S2P Require Import Core CoreFacts Proposer Pool Waiters Consensus ConsensusFacts ConsensusAgreement.
From S2P Require Import CoreTrace Network Worker Node NodeSamples NodeFacts NodeSafety NodeFeed Certification.

Lemma Forall2_impl_elem {A B} (P Q : A → B → Prop) l k :
  Forall2 P l k → (∀ x y, x ∈ l → P x y → Q x y) → Forall2 Q l k.
Proof.
  induction 1 as [|x y l k Hxy _ IH]; intros HPQ; constructor; [apply HPQ; [left|done]|].
  apply IH. intros. apply HPQ; [by right|done].
Qed.

Lemma NoDup_Forall2_fmap {A B C} (P : A → B → Prop) (f : B → C) l k :
  Forall2 P l k → NoDup l →
  (∀ x x' y y', x ∈ l → x' ∈ l → P x y → P x' y' → f y = f y' → x = x') → NoDup (f <$> k).
Proof.
  induction 1 as [|x y l k Hxy Hlk IH]; intros Hnd Hinj; csimpl; [constructor|].
  apply NoDup_cons in Hnd as [Hn Hnd]. constructor.
  - intros (y' & E & Hy')%list_elem_of_fmap. apply list_elem_of_lookup in Hy' as [i Hi].
    destruct (Forall2_lookup_r _ _ _ _ _ Hlk Hi) as (x' & Hx' & Hxy'). apply list_elem_of_lookup_2 in Hx'.
    apply Hn. rewrite (Hinj x x' y y'); [done|left|by right|done..].
  - apply IH; [done|]. intros x1 x2 y1 y2 ??. apply Hinj; by right.
Qed.

(** ** The graph of certificates *)

Section graph.
Context `{!Sha512, !Dalek, !Backend, !Storage, !StorageLaws _}.
Context `{!Bincode Header, !Bincode Certificate, !Bincode PrimaryMessage, !Bincode WorkerPrimaryMessage}.
Context `{!BincodeLaws Certificate}.

(** The encoding of a header is not that of a certificate, which goes on after it. *)
Hypothesis Hencoding : ∀ (h : Header) (c : Certificate), deserialize (serialize h) ≠ Ret c.

Variables (committee : Committee) (honest : gset PublicKey) (runs : PublicKey → NodeRun) (certs : list Certificate).
Implicit Types (c x y q : Certificate) (p : Digest).

Notation effects a := (core_effects (nr_log (runs a))).
Notation all := (genesis committee ++ certs).
Notation G := (graph_of all).

Hypothesis Hsmall : small_stake committee.
Hypothesis Hhonest : honest_stake committee honest.
Hypothesis Hruns : ∀ a, a ∈ honest → run_of committee a (runs a).
Hypothesis Hcrypto : crypto_sound committee honest runs certs.

(** The certificates verify and are for proper rounds. *)
Hypothesis Hcerts : ∀ c, c ∈ certs → Certificate_verify c committee = Ret () ∧ 0 < cround c ∧ cround c + 1 < two64.

Lemma genesis_cround x : x ∈ genesis committee → cround x = 0.
Proof. intros (k & _ & ->)%elem_of_genesis. done. Qed.

Lemma all_same x y :
  x ∈ all → y ∈ all → slot x = slot y → digest x = digest y ∧ hd_parents (ct_header x) = hd_parents (ct_header y).
Proof.
  intros [Hx|Hx]%elem_of_app [Hy|Hy]%elem_of_app E.
  - apply elem_of_genesis in Hx as (k & _ & ->), Hy as (k' & _ & ->). unfold slot, origin in E. simpl in E. by simplify_eq.
  - apply genesis_cround in Hx. apply Hcerts in Hy as (_ & ? & _). injection E. lia.
  - apply genesis_cround in Hy. apply Hcerts in Hx as (_ & ? & _). injection E. lia.
  - destruct (Hcerts x Hx) as (? & ? & _), (Hcerts y Hy) as (? & _).
    by apply (certificates_same committee honest runs certs Hsmall Hhonest Hruns Hcrypto x y Hx Hy).
Qed.

Lemma lookup_all k x : graph_map all !! k = Some x → x ∈ all ∧ slot x = k.
Proof. intros (z & [-> ->]%pair_equal_spec & Hz)%elem_of_list_to_map_2%list_elem_of_fmap. done. Qed.

Lemma all_lookup x : x ∈ all → ∃ x', graph_map all !! slot x = Some x' ∧ x' ∈ all ∧ slot x' = slot x.
Proof.
  intros Hx. destruct (graph_map all !! slot x) as [x'|] eqn:E.
  - exists x'. split; [done|]. by apply lookup_all in E as [? ->].
  - exfalso. apply not_elem_of_list_to_map_2 in E. apply E. rewrite <-list_fmap_compose.
    by apply (list_elem_of_fmap_2 slot).
Qed.

Lemma all_certifies x : x ∈ all → certifies G x.
Proof.
  intros Hx. destruct (all_lookup x Hx) as (x' & E & Hx' & Es). unfold certifies.
  destruct (all_same x x' Hx Hx') as [Ed Ep]; [done|]. simpl. rewrite E. simpl. split_and!; [by eexists|done..].
Qed.

Lemma find_genesis_Some p q : find_genesis committee p = Some q → q ∈ genesis committee ∧ digest q = p.
Proof.
  unfold find_genesis, find_key, genesis_digests. intros (e & ([i e'] & E & ->)%fmap_Some & ->)%fmap_Some.
  apply list_find_Some in E as (Hi & Hd & _). rewrite list_lookup_fmap in Hi. apply fmap_Some in Hi as (g & Hg & ->).
  split; [by eapply list_elem_of_lookup_2|done].
Qed.

(** An honest voter of a certificate found certificates of the previous round under its parents, of a quorum. *)
Lemma voter_found c :
  c ∈ certs →
  ∃ ps, Forall2 (λ p q, digest q = p ∧ known_certificate committee honest runs q) (btree_elems (hd_parents (ct_header c))) ps ∧
    (∀ q, q ∈ ps → u64_add (cround q) 1 = cround c) ∧
    quorum_threshold committee ≤ u32_sum ((λ q, stake committee (origin q)) <$> ps).
Proof.
  intros Hc. destruct (Hcerts c Hc) as (Hv & Hpos & Hb).
  destruct (common_vote committee honest runs certs Hsmall Hhonest Hruns Hcrypto c c Hc Hc Hv Hv Hpos eq_refl)
    as (a & v & Ha & Hsv & Ed & _).
  destruct (vote_binding _ _ _ _ Hcrypto c a v Hc Ha Hsv Ed) as (Ei & Er & _).
  destruct (run_votes_stand committee a _ v (Hruns a Ha) Hsv) as (h & ps & -> & Hh & Hf & Hro & Hq). simpl in *.
  rewrite (header_binding _ _ _ _ Hcrypto c a h Hc Ha Hh Ei) in Hf. exists ps. rewrite <-Er. split_and!; [|done..].
  eapply Forall2_impl; [exact Hf|]. simpl.
  intros p q [[Hg ?]%find_genesis_Some|(w & [(x & Hx & Edx & ->)|(h' & _ & _ & ->)] & Hd)].
  - split; [done|]. by left.
  - rewrite bincode_roundtrip in Hd. injection Hd as ->. split; [done|]. right. by exists a.
  - by apply Hencoding in Hd.
Qed.

(** A primary takes every certificate after its parents. *)
Lemma feed_closed a pre x post p :
  a ∈ honest → fed_certificates (nr_log (runs a)) = pre ++ x :: post → x ∈ certs → p ∈ hd_parents (ct_header x) →
  ∃ y, y ∈ pre ++ genesis committee ∧ digest y = p.
Proof.
  intros Ha E Hx Hp. destruct (Hruns a Ha) as [Hs%node_spawn_spawned Hc Hr _].
  destruct (node_feed _ _ _ _ _ _ _ _ _ _ _ _ _ _ _ Hs Hc Hr E Hp) as [[g Hg]|[(y & Hy & Ed)|(h & Hh & Eh)]].
  - apply find_genesis_Some in Hg as [? ?]. exists g. set_solver.
  - exists y. set_solver.
  - exfalso. destruct (voter_found x Hx) as (ps & Hf & _).
    apply elem_of_btree_elems, list_elem_of_lookup in Hp as [i Hi].
    destruct (Forall2_lookup_l _ _ _ _ _ Hf Hi) as (q & _ & Eq & Hk).
    apply (id_binding _ _ _ _ Hcrypto a h q Ha Hh Hk). congruence.
Qed.

(** The certificates have their parents among themselves. *)
Hypothesis Hclosed : ∀ c p, c ∈ certs → p ∈ hd_parents (ct_header c) → ∃ y, y ∈ all ∧ digest y = p.

Lemma voter_parents c :
  c ∈ certs →
  ∃ ps, Forall2 (λ p q, digest q = p ∧ ∃ y, y ∈ all ∧ digest y = p ∧ slot q = slot y)
      (btree_elems (hd_parents (ct_header c))) ps ∧
    (∀ q, q ∈ ps → cround q + 1 = cround c) ∧
    quorum_threshold committee ≤ u32_sum ((λ q, stake committee (origin q)) <$> ps).
Proof.
  intros Hc. destruct (voter_found c Hc) as (ps & Hf & Hro & Hq).
  assert (Hf' : Forall2 (λ p q, digest q = p ∧ ∃ y, y ∈ all ∧ digest y = p ∧ slot q = slot y)
      (btree_elems (hd_parents (ct_header c))) ps).
  { eapply Forall2_impl_elem; [exact Hf|]. simpl. intros p q Hp%elem_of_btree_elems [Eq Hk].
    destruct (Hclosed c p Hc Hp) as (y & Hy & Edy). split; [done|]. exists y. split_and!; [done..|].
    apply (certificate_binding _ _ _ _ Hcrypto q y); [by right|done|congruence]. }
  exists ps. split_and!; [done| |done]. intros q Hin. rewrite <-(Hro q Hin).
  apply list_elem_of_lookup in Hin as [i Hi]. destruct (Forall2_lookup_r _ _ _ _ _ Hf' Hi) as (p & _ & _ & y & Hy & _ & Es).
  assert (Hby : cround y + 1 < two64).
  { apply elem_of_app in Hy as [->%genesis_cround|Hy]; [done|]. by apply Hcerts in Hy as (_ & _ & ?). }
  injection Es as -> _. by rewrite u64_add_small.
Qed.

Lemma parent_round c p : c ∈ certs → p ∈ hd_parents (ct_header c) → ∀ y, y ∈ all → digest y = p → cround y + 1 = cround c.
Proof.
  intros Hc Hp y Hy Ed. destruct (voter_parents c Hc) as (ps & Hf & Hr & _).
  apply elem_of_btree_elems, list_elem_of_lookup in Hp as [i Hi].
  destruct (Forall2_lookup_l _ _ _ _ _ Hf Hi) as (q & Hq & Eq & y' & Hy' & Ed' & Es).
  rewrite <-(Hr q) by (by eapply list_elem_of_lookup_2). f_equal.
  assert (Esy : slot y = slot y') by (apply (certificate_binding _ _ _ _ Hcrypto y y'); [by left|done|congruence]).
  injection Es as -> _. by injection Esy as -> _.
Qed.
(** Every certificate has a quorum of parents in the graph. *)
Lemma graph_parents c :
  c ∈ certs → ∃ Q : gset PublicKey, quorum_threshold committee ≤ stake_of committee Q ∧
    ∀ n, n ∈ Q → step G (slot c) (cround c - 1, n).
Proof.
  intros Hc. destruct (voter_parents c Hc) as (ps & Hf & Hr & Hq). exists (list_to_set (origin <$> ps)).
  assert (Hf' : Forall2 (λ p q, ∃ y, y ∈ all ∧ digest y = p ∧ slot y = (cround c - 1, origin q))
    (btree_elems (hd_parents (ct_header c))) ps).
  { eapply Forall2_same_length_lookup_2; [by eapply Forall2_length|]. intros i p q Hp Hq'.
    destruct (Forall2_lookup_lr _ _ _ _ _ _ Hf Hp Hq') as (_ & y & Hy & Ed & Es). exists y. split_and!; [done..|].
    rewrite <-Es. unfold slot. f_equal. specialize (Hr q (list_elem_of_lookup_2 _ _ _ Hq')). lia. }
  assert (Hnd : NoDup (origin <$> ps)).
  { eapply NoDup_Forall2_fmap; [exact Hf'|apply NoDup_btree_elems|].
    intros p p' q q' _ _ (y & Hy & <- & Es) (y' & Hy' & <- & Es') E. apply (all_same y y'); [done..|]. congruence. }
  assert (Estake : u32_sum ((λ q, stake committee (origin q)) <$> ps) = stake_of committee (list_to_set (origin <$> ps))).
  { assert (E : sum_N id ((λ q, stake committee (origin q)) <$> ps) = stake_of committee (list_to_set (origin <$> ps))).
    { unfold stake_of. rewrite sum_set_list_to_set by done. rewrite !sum_N_fmap. done. }
    rewrite u32_sum_small; [done|]. rewrite E. pose proof (stake_of_total committee (list_to_set (origin <$> ps))).
    unfold small_stake in Hsmall. lia. }
  rewrite Estake in Hq. split; [done|]. intros n (q & -> & Hin)%elem_of_list_to_set%list_elem_of_fmap.
  apply list_elem_of_lookup in Hin as [i Hi]. destruct (Forall2_lookup_r _ _ _ _ _ Hf' Hi) as (p & Hp & y & Hy & Ed & Es).
  apply list_elem_of_lookup_2, elem_of_btree_elems in Hp.
  destruct (Hcerts c Hc) as (_ & Hpos & _).
  destruct (all_certifies c) as (_ & _ & Ep); [apply elem_of_app; by right|].
  destruct (all_certifies y Hy) as (Hcy & Edy & _). rewrite Es in Hcy, Edy. split_and!; [done|simpl; lia|].
  by rewrite <-Ep, <-Edy, Ed.
Qed.

Lemma graph_of_certificates_ok : graph_ok committee G.
Proof.
  split.
  - intros k k' [x Hx] [x' Hx']. simpl. rewrite Hx, Hx'. simpl. intros E.
    apply lookup_all in Hx as [Hx <-], Hx' as [Hx' <-].
    apply (certificate_binding _ _ _ _ Hcrypto); [by left|done..].
  - intros k [x Hx] Hpos. apply lookup_all in Hx as [Hx <-]. apply graph_parents.
    apply elem_of_app in Hx as [Hx|?]; [|done]. apply genesis_cround in Hx. simpl in Hpos. lia.
Qed.

Lemma causal_intro seen cs :
  (∀ pre x post, cs = pre ++ x :: post → ∀ p, p ∈ hd_parents (ct_header x) →
    ∃ y, y ∈ pre ++ seen ∧ digest y = p ∧ cround y + 1 = cround x) →
  causal seen cs = true.
Proof.
  revert seen. induction cs as [|c cs IH]; intros seen Hp; [done|]. apply causal_cons. split.
  - apply has_parents_spec. apply (Hp [] c cs eq_refl).
  - apply IH. intros pre x post ->. intros p Hin.
    destruct (Hp (c :: pre) x post eq_refl p Hin) as (y & Hy & ? & ?). exists y. split; [|done]. set_solver.
Qed.

(** The feed of a primary with certificates of the graph is one the specification of the consensus accepts. *)
Lemma feed_good a cs :
  a ∈ honest → cs = fed_certificates (nr_log (runs a)) → cs ⊆ certs → NoDup (slot <$> cs) →
  (∀ c, c ∈ cs → cround c + Config.gc_depth (nr_parameters (runs a)) + 2 < two64) →
  good_feed committee (Config.gc_depth (nr_parameters (runs a))) G cs.
Proof.
  intros Ha Ecs Hcs Hnd Hb. split; [done|]. split.
  - intros c Hc. split; [apply all_certifies, elem_of_app; right; by apply Hcs|].
    split; [by apply Hcerts, Hcs|by apply Hb].
  - apply causal_intro. intros pre x post E p Hp. rewrite Ecs in E.
    assert (Hx : x ∈ certs) by (apply Hcs; rewrite Ecs, E; set_solver).
    destruct (feed_closed a pre x post p Ha E Hx Hp) as (y & Hy & Ed).
    exists y. split_and!; [done..|]. apply (parent_round x p Hx Hp); [|done].
    apply elem_of_app in Hy as [Hy|?]; apply elem_of_app; [right|by left]. apply Hcs. rewrite Ecs, E. set_solver.
Qed.
End graph.

(** ** Properties *)

Section properties.
Context `{!Sha512, !Dalek, !Backend, !Storage, !StorageLaws _}.
Context `{!Bincode Header, !Bincode Certificate, !Bincode PrimaryMessage, !Bincode WorkerPrimaryMessage}.
Context `{!BincodeLaws Certificate}.

(** What is asked of the certificates that the consensus task of a primary takes, and the code does not ensure.
    Each slot once: a certificate that is delivered twice may be committed twice. Those that the core assembled
    itself verify, as [assembled_certificate_verifies] says of the votes for one header. None is of round 0: a
    certificate that looks like one of the genesis verifies without a signature, and may be committed. And the
    rounds are some way from the largest [u64]. *)
Record proper_feed committee (r : NodeRun) : Prop := {
  proper_slots : NoDup (slot <$> fed_certificates (nr_log r));
  proper_own c : c ∈ fed_certificates (nr_log r) → assembled (core_effects (nr_log r)) c →
    Certificate_verify c committee = Ret ();
  proper_positive c : c ∈ fed_certificates (nr_log r) → 0 < cround c;
  proper_gc : Config.gc_depth (nr_parameters r) + 2 < two64;
  proper_bound c : c ∈ fed_certificates (nr_log r) → cround c + Config.gc_depth (nr_parameters r) + 2 < two64
}.

(** The other certificates verify as well, since the core checked them. *)
Lemma proper_feed_verified committee a r c :
  run_of committee a r → proper_feed committee r → c ∈ fed_certificates (nr_log r) →
  Certificate_verify c committee = Ret () ∧ 0 < cround c ∧
  cround c + Config.gc_depth (nr_parameters r) + 2 < two64.
Proof.
  intros [Hs _ Hr _] Hp Hc. split_and!; [|by apply Hp..].
  destruct (consensus_takes_verified _ _ _ _ _ _ _ _ _ _ _ _ _ _ c Hs Hr Hc) as [?|?]; [done|]. by apply Hp.
Qed.

(** The leaders the consensus of a primary commits on its feed. *)
Definition leaders_of committee (r : NodeRun) : task (list Certificate) :=
  run_leaders committee (Config.gc_depth (nr_parameters r)) (nr_env r) (State_new (genesis committee))
    (fed_certificates (nr_log r)).

(** C1: Honest primaries agree. Take any runs of the primaries of the honest authorities, whose stake leaves
    at most f to the others, from stores without headers and certificates, however their tasks interleave, in which
    no vote is signed for a round garbage collected before, no signature of an honest voter is forged and no digests
    collide. Take two of them whose consensus tasks take certificates only of rounds above 0 and some way below
    2^64, one per slot, and such that those assembled by their own cores verify: the code does not ensure this, in
    particular not that forged certificates of round 0 stay out. Then each outputs all the leaders it commits, in
    order, and the leaders one commits are a prefix of those of the other. *)
Theorem primaries_agree committee honest runs a b :
  (∀ (h : Header) (c : Certificate), deserialize (serialize h) ≠ Ret c) →
  small_stake committee → honest_stake committee honest → (∀ a, a ∈ honest → run_of committee a (runs a)) →
  a ∈ honest → b ∈ honest → proper_feed committee (runs a) → proper_feed committee (runs b) →
  crypto_sound committee honest runs (fed_certificates (nr_log (runs a)) ++ fed_certificates (nr_log (runs b))) →
  ∃ leaders leaders',
    leaders_of committee (runs a) = Ret leaders ∧ leaders `sublist_of` (committed (nr_log (runs a))).*1 ∧
    leaders_of committee (runs b) = Ret leaders' ∧ leaders' `sublist_of` (committed (nr_log (runs b))).*1 ∧
    ((slot <$> leaders) `prefix_of` (slot <$> leaders') ∨ (slot <$> leaders') `prefix_of` (slot <$> leaders)).
Proof.
  intros Henc Hsmall Hh Hruns Ha Hb Hpa Hpb Hcrypto.
  pose proof (λ c, proper_feed_verified committee a (runs a) c (Hruns a Ha) Hpa) as Hfa.
  pose proof (λ c, proper_feed_verified committee b (runs b) c (Hruns b Hb) Hpb) as Hfb.
  set (certs := fed_certificates (nr_log (runs a)) ++ fed_certificates (nr_log (runs b))) in *.
  set (G := graph_of (genesis committee ++ certs)).
  assert (Hcerts : ∀ c, c ∈ certs → Certificate_verify c committee = Ret () ∧ 0 < cround c ∧ cround c + 1 < two64).
  { intros c [(? & ? & ?)%Hfa|(? & ? & ?)%Hfb]%elem_of_app; (split_and!; [done..|lia]). }
  assert (Hclosed : ∀ c p, c ∈ certs → p ∈ hd_parents (ct_header c) → ∃ y, y ∈ genesis committee ++ certs ∧ digest y = p).
  { intros c p Hc Hp. assert (Hfeed : ∀ n, n ∈ honest → c ∈ fed_certificates (nr_log (runs n)) →
      (∀ y, y ∈ fed_certificates (nr_log (runs n)) → y ∈ certs) → ∃ y, y ∈ genesis committee ++ certs ∧ digest y = p).
    { intros n Hn Hcn Hsub. apply list_elem_of_split in Hcn as (pre & post & E).
      destruct (feed_closed Henc committee honest runs certs Hsmall Hh Hruns Hcrypto Hcerts n pre c post p Hn E Hc Hp)
        as (y & Hy & Ed). exists y. split; [|done]. apply elem_of_app. apply elem_of_app in Hy as [Hy|?]; [right|by left].
      apply Hsub. rewrite E. set_solver. }
    pose proof Hc as [?|?]%elem_of_app; [apply (Hfeed a)|apply (Hfeed b)]; try done; intros; unfold certs; set_solver. }
  assert (HG : graph_ok committee G) by by apply (graph_of_certificates_ok Henc committee honest runs certs).
  assert (Hnode : ∀ n, n ∈ honest → proper_feed committee (runs n) → fed_certificates (nr_log (runs n)) ⊆ certs →
    ∃ leaders s, leaders_of committee (runs n) = Ret leaders ∧ leaders `sublist_of` (committed (nr_log (runs n))).*1 ∧
      history committee G (last_committed_round s) (slot <$> leaders)).
  { intros n Hn Hp Hsub. pose proof Hp as [Hnd _ _ Hgc _].
    pose proof (λ c, proper_feed_verified committee n (runs n) c (Hruns n Hn) Hp) as Hf.
    pose proof (Hruns n Hn) as [Hs%node_spawn_spawned _ Hr _].
    pose proof (node_run_consensus _ _ _ _ _ _ _ _ _ _ Hr) as Hrc. rewrite (spawned_consensus _ _ _ _ _ Hs) in Hrc.
    destruct (run_good_feed committee (Config.gc_depth (nr_parameters (runs n))) (nr_env (runs n)) G Hsmall)
      with (cs := fed_certificates (nr_log (runs n))) as (ls & s & seq & E1 & E2 & Hsl & Hhist).
    - exact HG.
    - apply (spawned_size _ _ _ _ _ Hs).
    - done.
    - intros g Hg. apply (all_certifies committee honest runs certs); [done..|]. apply elem_of_app. by left.
    - apply (feed_good Henc committee honest runs certs) with (a := n); try done. intros c Hc. by apply Hf.
    - right. by rewrite Hrc.
    - exists ls, s. split_and!; [done| |done]. rewrite E2 in Hrc. by injection Hrc as _ <-. }
  destruct (Hnode a) as (ls & s & E & Hsl & Hist); [done..|unfold certs; set_solver|].
  destruct (Hnode b) as (ls' & s' & E' & Hsl' & Hist'); [done..|unfold certs; set_solver|].
  exists ls, ls'. split_and!; [done..|].
  destruct (N.le_ge_cases (last_committed_round s) (last_committed_round s')); [left|right]; by eapply history_prefix.
Qed.
End properties.

Section witnesses.
Import Toy ToyBackend ToyBincode MapDB SampleStore SampleWorker SampleMessages SampleRuns.

Lemma sample_encoding (h : Header) (c : Certificate) : deserialize (serialize h) ≠ Ret c.
Proof. done. Qed.

Lemma proper_sample r :
  nr_parameters r = Parameters_default → proper_log (nr_log r) = true → proper_feed Sample.committee r.
Proof.
  intros Ep Hc. pose proof (proper_log_elem (nr_log r)) as He.
  assert (Eg : Config.gc_depth (nr_parameters r) = 50) by (rewrite Ep; reflexivity). split.
  - unfold proper_log in Hc. apply andb_true_iff, proj1 in Hc. exact (bool_decide_eq_true_1 _ Hc).
  - intros c Hin _. exact (proj1 (He c Hc Hin)).
  - intros c Hin. exact (proj1 (proj2 (He c Hc Hin))).
  - rewrite Eg. vm_compute. reflexivity.
  - intros c Hin. rewrite Eg. exact (proj2 (proj2 (He c Hc Hin))).
Qed.

Lemma runs_parameters k : nr_parameters (runs k) = Parameters_default.
Proof. exact (proj1 (proj2 (sample_run_constants _ _))). Qed.

Lemma proper_1 : proper_feed Sample.committee (runs (pk 1)).
Proof. exact (proper_sample _ (runs_parameters _) (proj1 (proj1 (proj2 logs_parts)))). Qed.

Lemma proper_2 : proper_feed Sample.committee (runs (pk 2)).
Proof. exact (proper_sample _ (runs_parameters _) (proj2 (proj1 (proj2 logs_parts)))). Qed.

Lemma primaries_agree_witness :
  leader_check (nr_log (runs (pk 1))) = true ∧
  ∃ leaders leaders',
    leaders_of Sample.committee (runs (pk 1)) = Ret leaders ∧ leaders `sublist_of` (committed (nr_log (runs (pk 1)))).*1 ∧
    leaders_of Sample.committee (runs (pk 2)) = Ret leaders' ∧ leaders' `sublist_of` (committed (nr_log (runs (pk 2)))).*1 ∧
    ((slot <$> leaders) `prefix_of` (slot <$> leaders') ∨ (slot <$> leaders') `prefix_of` (slot <$> leaders)).
Proof.
  split; [exact (proj1 (proj2 (proj2 (proj2 (proj2 logs_parts)))))|].
  exact (primaries_agree Sample.committee honest runs (pk 1) (pk 2) sample_encoding sample_small sample_honest honest_runs
    (proj1 honest_members) (proj2 honest_members) proper_1 proper_2 sample_crypto).
Defined.
End witnesses.
