(* ===== verification/Availability.v ===== *)
(** Availability: the payload of a certified header is with the workers of honest authorities.

    The promise of the mempool, put together from the runs of primaries and of their workers: a primary signs
    a vote for the header of another only when its payload receiver has marked every batch of it; a mark comes
    from a message of a worker of its own, and a worker sends such a message for a batch it has stored. *)

From S2P Require Import Prelude Channels Crypto Config Messages Adversary Aggregators Store Primary.
From S2P Require Import Core CoreFacts Proposer Pool Waiters Consensus ConsensusFacts ConsensusSafety ConsensusAgreement.
From S2P Require Import Network Worker WorkerSync WorkerNode WorkerNodeFacts Node NodeSamples NodeFacts NodeSafety Certification.
From S2P Require Import NodeAgreement.

(** ** What the primary checks of a payload *)

Section checks.
Context `{!Sha512, !Dalek, !Backend, !Storage, !StorageLaws _, !Bincode Header, !Bincode Certificate}.
Variables (name : PublicKey) (committee : Committee) (secret : SecretKey).
Implicit Types (c : Core.Core) (h : Header) (es : list Effect) (s : storage).

Notation marked c d w := (stored (store c) (payload_key d w)).

(** All batches of the header are marked. *)
Definition payload_marked c h : Prop := ∀ d w, hd_payload h !! d = Some w → marked c d w.

(** The handlers make no marks, and what they sign is for a header of the node itself or with its batches marked. *)
Definition checks c es c' : Prop :=
  (∀ d w, marked c' d w → marked c d w) ∧
  ∀ v, v ∈ signatures es → ∃ h, v = unsigned_vote name h ∧ stored_header es h ∧ (hd_author h = name ∨ payload_marked c h).

Lemma checks_silent c es c' : store c' = store c → signatures es = [] → checks c es c'.
Proof. intros E Es. split; [by rewrite E|]. rewrite Es. set_solver. Qed.

Lemma checks_trans c1 es1 c2 es2 c3 : checks c1 es1 c2 → checks c2 es2 c3 → checks c1 (es1 ++ es2) c3.
Proof.
  unfold checks, stored_header. intros [K1 J1] [K2 J2]. split; [auto|]. intros v. rewrite signatures_app, elem_of_app. intros [Hv|Hv].
  - apply J1 in Hv as (h & ? & ? & ?). exists h. rewrite elem_of_app. auto.
  - apply J2 in Hv as (h & ? & ? & Hp). exists h. rewrite elem_of_app. split_and!; [done|by right|].
    destruct Hp as [?|Hp]; [by left|right]. intros d w Hd. by apply K1, Hp.
Qed.

Lemma marked_write s d v d' w : stored (storage_write s (Digest_to_vec d) v) (payload_key d' w) → stored s (payload_key d' w).
Proof. intros [x Hx]. exists x. rewrite storage_read_write_ne in Hx; [done|]. by intros E%eq_sym%payload_key_digest. Qed.

Lemma missing_payload_marked c h :
  missing_payload name (store c) h = Ret (false, []) → hd_author h = name ∨ payload_marked c h.
Proof.
  unfold missing_payload. case_decide as Ha; [by left|]. destruct (missing_payload_loop_all (store c) h) as (m & -> & Hm).
  simpl. case_decide as Em; [|done]. intros _. right. intros d w Hd.
  destruct (read_cases (store c) (payload_key d w)) as [(v & _ & ?)|[_ Hn]]; [done|].
  assert (m !! d = Some w) by by apply Hm. by rewrite Em, lookup_empty in *.
Qed.

Lemma checks_header c h es c' :
  header_checked name committee c h → store c' = store (write_header h c) →
  signatures es = [unsigned_vote name h] → checks c (header_write h :: es) c'.
Proof.
  intros [? ? _ _ _ _ Hm] E Es. split.
  - rewrite E. intros d w. apply marked_write.
  - simpl. rewrite Es. intros v ->%list_elem_of_singleton. exists h. split; [done|]. split; [left|].
    by apply missing_payload_marked.
Qed.

Lemma checks_relation : core_relation name committee secret checks.
Proof.
  split; [split|..].
  - split; [intros c; by apply checks_silent|by apply checks_trans].
  - intros c c' (E & _). by apply checks_silent.
  - intros c l. apply checks_silent; [done|]. by induction l.
  - intros c h. split; [intros d w; apply marked_write|simpl; set_solver].
  - intros c r a. by apply checks_silent.
  - intros c h Hch _. by apply checks_header.
  - intros c h v address Hch _ _. by apply checks_header.
  - intros c l. apply checks_silent; [done|]. by induction l.
  - intros c addresses m. by apply checks_silent.
  - intros c x a parents _ _. split; [intros d w; apply marked_write|]. intros v Hv.
    destruct parents; by apply elem_of_nil in Hv.
Qed.
End checks.

(** ** What a primary learns from its workers *)

(** The batches of others and of our workers that the receiver of the workers forwarded, and those that the
    payload receiver and the proposer took. *)
Definition others_forwarded `{!Dalek, !Backend} (log : list Entry) : list (Digest * WorkerId) :=
  log ≫= λ e, match e with EDispatch out => omap (λ d, match d with ToOthersDigests d w => Some (d, w) | _ => None end) out | _ => [] end.
Definition ours_forwarded `{!Dalek, !Backend} (log : list Entry) : list (Digest * WorkerId) :=
  log ≫= λ e, match e with EDispatch out => omap (λ d, match d with ToOurDigests d w => Some (d, w) | _ => None end) out | _ => [] end.
Definition marks `{!Dalek, !Backend} (log : list Entry) : list (Digest * WorkerId) :=
  omap (λ e, match e with EPayload d w => Some (d, w) | _ => None end) log.
Definition proposed `{!Dalek, !Backend} (log : list Entry) : list (Digest * WorkerId) :=
  omap (λ e, match e with EProposer (Proposer.Batch d w) _ => Some (d, w) | _ => None end) log.

Section node.
Context `{!Sha512, !Dalek, !Backend, !Storage, !StorageLaws _}.
Context `{!Bincode Header, !Bincode Certificate, !Bincode PrimaryMessage, !Bincode WorkerPrimaryMessage}.
Variables (name : PublicKey) (committee : Committee) (secret : SecretKey) (parameters : Parameters).
Variables (env : Environment) (cfg : Settings).
Notation node_run := (node_run name committee secret parameters env cfg).
Implicit Types (n : Node) (log : list Entry) (s : list byte).

(** What the receivers forward to the tasks of the digests comes from a worker. *)
Lemma digest_received n actions n' log out x :
  node_run n actions = Some (n', log) → EDispatch out ∈ log → x ∈ out →
  match x with
  | ToOthersDigests d w => ∃ s, WorkerReceives s ∈ actions ∧ deserialize s = Ret (OthersBatch d w)
  | ToOurDigests d w => ∃ s, WorkerReceives s ∈ actions ∧ deserialize s = Ret (OurBatch d w)
  | _ => True
  end.
Proof.
  intros Hr He Hx. destruct (dispatched_received _ _ _ _ _ _ _ _ _ _ _ Hr He) as [(s & Hs & ->)|(s & Hs & ->)].
  - unfold dispatch_primary in Hx. destruct (map_err _ _) as [[]| |], x; set_solver.
  - unfold dispatch_worker in Hx. destruct (deserialize s) as [[]| |] eqn:E, x; simpl in Hx; set_solver.
Qed.

Lemma marks_queue n actions n' log :
  on OthersDigests (in_flight n) = [] → node_run n actions = Some (n', log) → marks log `prefix_of` others_forwarded log.
Proof. intros Hn. node_queue OnOthersDigests OthersDigests. Qed.

Lemma proposed_queue n actions n' log :
  on OurDigests (in_flight n) = [] → node_run n actions = Some (n', log) → proposed log `prefix_of` ours_forwarded log.
Proof. intros Hn. node_queue OnOurDigests OurDigests. Qed.

(** The payload receiver marks what workers announced as the batch of another. *)
Lemma marks_received n actions n' log d w :
  in_flight n = [] → node_run n actions = Some (n', log) → (d, w) ∈ marks log →
  ∃ s, WorkerReceives s ∈ actions ∧ deserialize s = Ret (OthersBatch d w).
Proof.
  intros Hn Hr Hm. assert (Hf : (d, w) ∈ others_forwarded log).
  { eapply elem_of_prefix; [exact Hm|]. eapply marks_queue; [by rewrite Hn|exact Hr]. }
  apply list_elem_of_bind in Hf as ([out| | | | | | | | | |] & Hd & He); try by apply elem_of_nil in Hd.
  apply list_elem_of_omap in Hd as (x & Hx & Ex). destruct x; simplify_eq.
  apply (digest_received _ _ _ _ _ _ Hr He Hx).
Qed.

(** The proposer takes what workers announced as their own. *)
Lemma proposed_received n actions n' log d w :
  in_flight n = [] → node_run n actions = Some (n', log) → (d, w) ∈ proposed log →
  ∃ s, WorkerReceives s ∈ actions ∧ deserialize s = Ret (OurBatch d w).
Proof.
  intros Hn Hr Hm. assert (Hf : (d, w) ∈ ours_forwarded log).
  { eapply elem_of_prefix; [exact Hm|]. eapply proposed_queue; [by rewrite Hn|exact Hr]. }
  apply list_elem_of_bind in Hf as ([out| | | | | | | | | |] & Hd & He); try by apply elem_of_nil in Hd.
  apply list_elem_of_omap in Hd as (x & Hx & Ex). destruct x; simplify_eq.
  apply (digest_received _ _ _ _ _ _ Hr He Hx).
Qed.

(** What is signed in a run: own headers, and headers with a payload marked before or in the run. *)
Notation marked n d w := (stored (store (core n)) (payload_key d w)).

(** The log has a mark with the key of the batch. *)
Definition mark_in log d w : Prop := ∃ w', (d, w') ∈ marks log ∧ le_bytes 4 w' = le_bytes 4 w.

Lemma mark_in_cons e log d w : mark_in [e] d w ∨ mark_in log d w → mark_in (e :: log) d w.
Proof.
  unfold mark_in. change (marks (e :: log)) with (marks ([e] ++ log)). unfold marks. rewrite omap_app.
  intros [(w' & ? & ?)|(w' & ? & ?)]; exists w'; (split; [|done]); apply elem_of_app; auto.
Qed.

Lemma did_checks n e n' :
  did name committee secret parameters env cfg n e n' →
  (∀ d w, marked n' d w → marked n d w ∨ mark_in [e] d w) ∧
  ∀ v, v ∈ signatures (core_effects [e]) → ∃ h, v = unsigned_vote name h ∧ stored_header (core_effects [e]) h ∧
    (hd_author h = name ∨ payload_marked (core n) h).
Proof.
  intros Hd. destruct Hd as [|input c es _ E| |d w| | | | | | |]; simpl; try (split; [by left|set_solver]).
  - apply (core_handle_respects _ _ _ _ (checks_relation name committee secret)) in E as (c1 & [K J] & Ec);
      [|intros; by apply checks_silent].
    rewrite <-(Ec c eq_refl) in K. unfold core_effects. simpl. rewrite app_nil_r. split; [by left; apply K|exact J].
  - split; [|set_solver]. unfold cleanup. destruct (_ <? _); by left.
  - split; [|set_solver]. intros d' w' Hm. unfold receive_payload in Hm.
    apply stored_write in Hm as [E|?]; [|by left]. right. exists w. unfold payload_key in E.
    apply app_inj_1 in E as [->%Digest_to_vec_inj Ew]; [|by rewrite !length_Digest_to_vec].
    split; [by apply list_elem_of_singleton|done].
Qed.

Lemma node_run_checks n actions n' log :
  node_run n actions = Some (n', log) →
  ∀ v, v ∈ signatures (core_effects log) → ∃ h, v = unsigned_vote name h ∧ stored_header (core_effects log) h ∧
    (hd_author h = name ∨ ∀ d w, hd_payload h !! d = Some w → marked n d w ∨ mark_in log d w).
Proof.
  apply (node_run_ind name committee secret parameters env cfg (λ n log _,
    ∀ v, v ∈ signatures (core_effects log) → ∃ h, v = unsigned_vote name h ∧ stored_header (core_effects log) h ∧
      (hd_author h = name ∨ ∀ d w, hd_payload h !! d = Some w → marked n d w ∨ mark_in log d w))); [set_solver|].
  clear n actions n' log. intros n1 e n2 log n3 (q & n & _ & [K J]%did_checks & ->) IH.
  change (core_effects (e :: log)) with (core_effects ([e] ++ log)). rewrite core_effects_app, signatures_app.
  unfold stored_header. intros v [Hv|Hv]%elem_of_app.
  - apply J in Hv as (h & ? & ? & Hp). exists h. rewrite elem_of_app. split_and!; [done|by left|].
    destruct Hp as [?|Hp]; [by left|right]. intros d w Hd. left. exact (Hp d w Hd).
  - apply IH in Hv as (h & ? & ? & Hp). exists h. rewrite elem_of_app. split_and!; [done|by right|].
    destruct Hp as [?|Hp]; [by left|right]. intros d w [[?|?]%K|?]%Hp; [by left|right; apply mark_in_cons; auto..].
Qed.

Lemma collect_map_elem (l : list (Digest * WorkerId)) d w : collect_map l !! d = Some w → (d, w) ∈ l.
Proof.
  unfold collect_map. cut (∀ m : gmap Digest WorkerId,
    foldl (λ m e, <[ e.1 := e.2 ]> m) m l !! d = Some w → (d, w) ∈ l ∨ m !! d = Some w).
  { intros Hm [?|E]%Hm; [done|]. by rewrite lookup_empty in E. }
  induction l as [|[d' w'] l IH]; intros m; simpl; [by right|]. rewrite elem_of_cons.
  intros [?|[[-> ->]|[_ ?]]%lookup_insert_Some]%IH; auto.
Qed.

Lemma received_proposed its log :
  its.*2 = proposer_events log ∨ its.*2 = proposer_events log ++ [Timer] → Proposer.received its = proposed log.
Proof.
  set (batch := λ e, match e with Proposer.Batch d w => Some (d, w) | _ => None end).
  assert (Er : Proposer.received its = omap batch its.*2) by (clear; induction its as [|[? []] its IH]; csimpl; congruence).
  assert (Ep : proposed log = omap batch (proposer_events log)).
  { clear. induction log as [|[out|i es|r|d w|now now' out|[] out|x r out|x out|ds k' out|x out|x out] log IH];
      csimpl; congruence. }
  rewrite Er, Ep. intros [->| ->]; [done|]. by rewrite omap_app, app_nil_r.
Qed.

(** The batches of the headers the proposer makes were announced as own ones. *)
Lemma node_run_own_payload st n actions n' log h d w :
  spawned_node name committee st cfg n → node_run n actions = Some (n', log) →
  h ∈ headers (proposer_outputs log) → hd_payload h !! d = Some w → (d, w) ∈ proposed log.
Proof.
  intros Hn Hr Hin Hd.
  destruct (node_run_proposer_steps _ _ _ _ _ _ _ _ _ _ (spawned_selecting _ _ _ _ _ Hn) Hr) as (its & p & Es & Ei).
  apply steps_digests in Es as (segments & Hf & Ec). rewrite (spawned_digests _ _ _ _ _ Hn) in Ec. simpl in Ec.
  apply list_elem_of_lookup in Hin as [i Hi]. destruct (Forall2_lookup_l _ _ _ _ _ Hf Hi) as (segment & Hseg & Ep).
  rewrite Ep in Hd. apply collect_map_elem in Hd.
  assert (Hin : (d, w) ∈ Proposer.received its).
  { rewrite <-Ec. apply elem_of_app. left. apply list_elem_of_In, in_concat. exists segment.
    rewrite <-!list_elem_of_In. split; [by eapply list_elem_of_lookup_2|done]. }
  by rewrite <-(received_proposed its).
Qed.
End node.

(** ** Primaries with their workers *)

(** A run of a worker: what it is started with, the choices, and what becomes of it. *)
Record WorkerRun `{!Backend, !Storage} := MkWorkerRun {
  wr_id : WorkerId;
  wr_parameters : Parameters;
  wr_benchmark : bool;
  wr_store : storage;
  wr_now : N;
  wr_address : SocketAddr;
  wr_actions : list WorkerAction;
  wr_start : WorkerNode;
  wr_end : WorkerNode;
  wr_log : list WorkerEntry
}.
Arguments MkWorkerRun {_ _} _ _ _ _ _ _ _ _ _ _.

Section authority.
Context `{!Sha512, !Dalek, !Backend, !Storage, !StorageLaws _}.
Context `{!Bincode Header, !Bincode Certificate, !Bincode PrimaryMessage}.
Context `{!Bincode WorkerMessage, !Bincode PrimaryWorkerMessage, !Bincode WorkerPrimaryMessage, !BincodeLaws WorkerPrimaryMessage}.
Variable committee : Committee.
Implicit Types (a : PublicKey) (r : NodeRun) (w : WorkerRun) (ws : list WorkerRun).

(** The run of a worker of [a] in the committee. *)
Record worker_run_of a w : Prop := {
  worker_run_id : wr_id w < two32;
  worker_run_spawn : worker_spawn a (wr_id w) committee (wr_parameters w) (wr_store w) (wr_now w) = Ret (wr_start w, wr_address w);
  worker_run_steps : worker_run a (wr_id w) committee (wr_parameters w) (wr_benchmark w) (wr_address w) (wr_start w) (wr_actions w) =
    Some (wr_end w, wr_log w)
}.

(** The runs of the workers of a primary, which starts without marks: what the primary receives as from a
    worker was announced by one of these. *)
Record workers_of a r ws : Prop := {
  workers_run w : w ∈ ws → worker_run_of a w;
  workers_announced s : WorkerReceives s ∈ nr_actions r → ∃ w, w ∈ ws ∧ s ∈ announced (wr_log w);
  workers_unmarked d id : ¬ stored (nr_store r) (payload_key d id)
}.

(** One of the workers, with the id, has a batch with the digest. *)
Definition has_batch ws d (id : WorkerId) : Prop := ∃ w, w ∈ ws ∧ wr_id w = id ∧ batch_at (wn_store (wr_end w)) d.

(** It has sealed the batch itself from transactions that clients sent, and broadcast it to the other workers
    with the id, which acknowledged it with a quorum of stake. *)
Definition has_own_batch a ws d (id : WorkerId) : Prop :=
  ∃ w (txs : Batch), w ∈ ws ∧ wr_id w = id ∧ batch_at (wn_store (wr_end w)) d ∧
    hash_bytes (serialize (WMBatch txs)) = d ∧ txs ⊆ received (wr_log w) ∧ acknowledged a id committee (wr_log w) txs.

Lemma has_own_batch_has a ws d id : has_own_batch a ws d id → has_batch ws d id.
Proof. intros (w & _ & ? & ? & ? & _). by exists w. Qed.

Lemma announced_others a r ws s d id :
  workers_of a r ws → WorkerReceives s ∈ nr_actions r → deserialize s = Ret (OthersBatch d id) →
  id < two32 ∧ has_batch ws d id.
Proof.
  intros [Hws Hann _] Hs Hd. apply Hann in Hs as (w & Hw & Hs). destruct (Hws w Hw) as [Hid Hsp Hst].
  destruct (announced_stored _ _ _ _ _ _ _ _ _ _ _ _ Hsp Hst s Hs) as (data & Hb & [[_ ->]|(_ & _ & ->)]);
    rewrite bincode_roundtrip in Hd; simplify_eq. split; [done|]. by exists w.
Qed.

Lemma announced_ours a r ws s d id :
  small_stake committee → workers_of a r ws → WorkerReceives s ∈ nr_actions r → deserialize s = Ret (OurBatch d id) →
  has_own_batch a ws d id.
Proof.
  intros Hsm [Hws Hann _] Hs Hd. apply Hann in Hs as (w & Hw & Hs). destruct (Hws w Hw) as [Hid Hsp Hst].
  destruct (announced_stored _ _ _ _ _ _ _ _ _ _ _ _ Hsp Hst s Hs) as (data & Hb & [[Ho ->]|(_ & _ & ->)]);
    rewrite bincode_roundtrip in Hd; simplify_eq.
  destruct (own_batch_acknowledged _ _ _ _ _ _ _ _ _ _ _ _ Hsp Hst data Hsm Ho) as (txs & -> & ? & ?). by exists w, txs.
Qed.

Lemma mark_in_has_batch a r ws d id :
  run_of committee a r → workers_of a r ws → id < two32 → mark_in (nr_log r) d id → has_batch ws d id.
Proof.
  intros [Hs%node_spawn_spawned _ Hr _] Hws Hid (id' & Hm & E).
  apply (marks_received _ _ _ _ _ _ _ _ _ _ _ _ (spawned_in_flight _ _ _ _ _ Hs) Hr) in Hm as (s & Hrec & Hd).
  destruct (announced_others _ _ _ _ _ _ Hws Hrec Hd) as [Hid' Hb]. by apply le_bytes_inj in E as ->.
Qed.

(** The payload behind a vote the primary signed. *)
Lemma vote_payload a r ws v :
  run_of committee a r → workers_of a r ws → v ∈ signatures (core_effects (nr_log r)) →
  ∃ h, v = unsigned_vote a h ∧ stored_header (core_effects (nr_log r)) h ∧
    (hd_author h = a ∨ ∀ d id, hd_payload h !! d = Some id → id < two32 → has_batch ws d id).
Proof.
  intros Hr Hws Hv. pose proof Hr as [Hs%node_spawn_spawned _ Hst _].
  destruct (node_run_checks _ _ _ _ _ _ _ _ _ _ Hst v Hv) as (h & Ev & Hh & Hp). exists h. split_and!; [done..|].
  destruct Hp as [?|Hp]; [by left|right]. intros d id [Hm|Hm]%Hp Hid; [|by eapply mark_in_has_batch].
  rewrite (spawned_core _ _ _ _ _ Hs) in Hm. by apply (workers_unmarked _ _ _ Hws) in Hm.
Qed.

(** The payload of a header that the proposer of the primary made. *)
Lemma own_payload_backed a r ws h d id :
  small_stake committee → run_of committee a r → workers_of a r ws →
  h ∈ headers (proposer_outputs (nr_log r)) → hd_payload h !! d = Some id → has_own_batch a ws d id.
Proof.
  intros Hs [Hsp%node_spawn_spawned _ Hr _] Hw Hh Hd.
  pose proof (node_run_own_payload _ _ _ _ _ _ _ _ _ _ _ _ _ _ Hsp Hr Hh Hd) as Hp.
  apply (proposed_received _ _ _ _ _ _ _ _ _ _ _ _ (spawned_in_flight _ _ _ _ _ Hsp) Hr) in Hp as (s & Hrec & Hds).
  by eapply announced_ours.
Qed.
End authority.

(** The honest part of a quorum has more stake than the others can have. *)
Lemma honest_part committee honest Q :
  small_stake committee → honest_stake committee honest → quorum_threshold committee ≤ stake_of committee Q →
  validity_threshold committee ≤ stake_of committee (Q ∩ honest).
Proof.
  unfold honest_stake. intros Hs. rewrite quorum_threshold_small, validity_threshold_small by done. intros Hh HQ.
  pose proof (stake_of_inter_lower committee Q honest). div_lia.
Qed.

Section cluster.
Context `{!Sha512, !Dalek, !Backend, !Storage, !StorageLaws _}.
Context `{!Bincode Header, !Bincode Certificate, !Bincode PrimaryMessage}.
Context `{!Bincode WorkerMessage, !Bincode PrimaryWorkerMessage, !Bincode WorkerPrimaryMessage, !BincodeLaws WorkerPrimaryMessage}.
Variables (committee : Committee) (honest : gset PublicKey) (runs : PublicKey → NodeRun) (workers : PublicKey → list WorkerRun).

(** Honest voters of the certificate, with more stake than the others can have, have every batch of its header
    in the store of the worker with the id that the header tells; and when the author of the header is honest,
    its worker sealed the batch from transactions of clients, and workers with a quorum of stake acknowledged it. *)
Definition payload_available c : Prop :=
  (∃ X : gset PublicKey, validity_threshold committee ≤ stake_of committee X ∧
    ∀ a, a ∈ X → a ∈ honest ∧ a ∈ voters (ct_votes c) ∧
      ∀ d id, hd_payload (ct_header c) !! d = Some id → has_batch (workers a) d id) ∧
  (origin c ∈ honest → ∀ d id, hd_payload (ct_header c) !! d = Some id →
    has_own_batch committee (origin c) (workers (origin c)) d id).

Hypothesis Hsmall : small_stake committee.
Hypothesis Hhonest : honest_stake committee honest.
Hypothesis Hruns : ∀ a, a ∈ honest → run_of committee a (runs a).
Hypothesis Hworkers : ∀ a, a ∈ honest → workers_of committee a (runs a) (workers a).

Lemma verified_payload_available certs c :
  crypto_sound committee honest runs certs → headers_sound committee honest runs certs →
  c ∈ certs → Certificate_verify c committee = Ret () → 0 < cround c →
  (∀ d id, hd_payload (ct_header c) !! d = Some id → id < two32) →
  payload_available c.
Proof.
  intros Hc Hhs Hin Hv Hpos Hids.
  assert (Hown : origin c ∈ honest → ∀ d id, hd_payload (ct_header c) !! d = Some id →
    has_own_batch committee (origin c) (workers (origin c)) d id).
  { intros Ho d id Hd. destruct (header_unforgeable _ _ _ _ Hhs c Hin Hv Hpos Ho) as (h & Hm & Ei).
    eapply own_payload_backed; [done|by apply Hruns|by apply Hworkers|exact Hm|].
    by rewrite (payload_binding _ _ _ _ Hhs c _ h Hin Ho (or_intror Hm) Ei). }
  split; [|exact Hown]. exists (list_to_set (voters (ct_votes c)) ∩ honest).
  split; [by eapply honest_part, verified_quorum|]. intros a [Ha%elem_of_list_to_set Hah]%elem_of_intersection.
  split_and!; [done..|]. intros d id Hd.
  destruct (unforgeable _ _ _ _ Hc c a Hin Hv Ha Hah) as (v & Hsv & Ed).
  destruct (vote_binding _ _ _ _ Hc c a v Hin Hah Hsv Ed) as (Ei & _ & Eo).
  destruct (vote_payload _ _ _ _ _ (Hruns a Hah) (Hworkers a Hah) Hsv) as (h & Ev & Hst & [Hau|Hb]); subst v; simpl in *.
  - assert (Ea : a = origin c) by congruence. rewrite Ea in *. by eapply has_own_batch_has, Hown.
  - apply Hb; [|by eapply Hids]. by rewrite (payload_binding _ _ _ _ Hhs c a h Hin Hah (or_introl Hst) Ei).
Qed.
End cluster.

(** ** Properties *)

Section properties.
Context `{!Sha512, !Dalek, !Backend, !Storage, !StorageLaws _}.
Context `{!Bincode Header, !Bincode Certificate, !Bincode PrimaryMessage}.
Context `{!Bincode WorkerMessage, !Bincode PrimaryWorkerMessage, !Bincode WorkerPrimaryMessage, !BincodeLaws WorkerPrimaryMessage}.

(** C4: The payload of a certified header is available. Take any runs of the primaries of the honest
    authorities (their stake leaves at most f to the others, their stores hold no headers and certificates at the
    start, none signs a vote for a round garbage collected before, no signature of theirs is forged and no digests
    collide) and of their workers, and a certificate of a round above 0 that verifies: honest voters of it whose
    stake is more than the others can have (the validity threshold) stand behind it, and each of them has every
    batch of the payload in the store of its worker with the id that the header tells. When the author of the
    header is honest, its worker sealed each batch from transactions that clients sent to it, broadcast it to the
    workers of the others with the same id, and waited until those that acknowledged it had a quorum of stake. *)
Theorem certified_payload_available committee honest runs workers certs c :
  small_stake committee → honest_stake committee honest → (∀ a, a ∈ honest → run_of committee a (runs a)) →
  (∀ a, a ∈ honest → workers_of committee a (runs a) (workers a)) →
  crypto_sound committee honest runs certs → headers_sound committee honest runs certs →
  c ∈ certs → Certificate_verify c committee = Ret () → 0 < cround c →
  (∀ d id, hd_payload (ct_header c) !! d = Some id → id < two32) →
  payload_available committee honest workers c.
Proof. intros. by eapply verified_payload_available. Qed.

(** C3: What a primary commits is available. In such runs, when the consensus task of an honest primary takes
    certificates only of rounds above 0 and some way below 2^64, one per slot, and those assembled by its own core
    verify, every certificate it outputs has its payload available as above: what the application is given can be
    fetched from honest workers. A forged certificate of round 0 does not have this, and the code lets it in. *)
Theorem committed_payload_available committee honest runs workers a x :
  small_stake committee → honest_stake committee honest → (∀ a, a ∈ honest → run_of committee a (runs a)) →
  (∀ a, a ∈ honest → workers_of committee a (runs a) (workers a)) →
  a ∈ honest → proper_feed committee (runs a) →
  crypto_sound committee honest runs (fed_certificates (nr_log (runs a))) →
  headers_sound committee honest runs (fed_certificates (nr_log (runs a))) →
  x ∈ (committed (nr_log (runs a))).*1 →
  (∀ d id, hd_payload (ct_header x) !! d = Some id → id < two32) →
  payload_available committee honest workers x.
Proof.
  intros Hs Hh Hr Hw Ha Hp Hc Hhs Hx Hids. pose proof Hp as [Hnd _ Hpos Hgc Hb].
  assert (Hin : x ∈ fed_certificates (nr_log (runs a))).
  { destruct (Hr a Ha) as [Hsp%node_spawn_spawned _ Hst _].
    pose proof (node_run_consensus _ _ _ _ _ _ _ _ _ _ Hst) as Hrun. rewrite (spawned_consensus _ _ _ _ _ Hsp) in Hrun.
    destruct (run_outputs _ _ _ _ _ _ Hnd (λ c Hc, conj (Hpos c Hc) (Hb c Hc)) Hgc Hrun) as [_ Hsub]. by apply Hsub. }
  destruct (proper_feed_verified _ _ _ _ (Hr a Ha) Hp Hin) as (Hv & ? & _).
  by eapply verified_payload_available.
Qed.
End properties.

(** ** Evaluation *)

(** What a primary receives as from a worker is announced by one of its workers: decidable for given runs. *)
Section check.
Context `{!Sha512, !Dalek, !Backend, !Storage}.

Definition wiring_check (actions : list Action) (ws : list WorkerRun) : bool :=
  let messages := ws ≫= λ w, announced (wr_log w) in
  forallb (λ x, match x with WorkerReceives s => bool_decide (s ∈ messages) | _ => true end) actions.

Lemma wiring_checked actions ws s :
  wiring_check actions ws = true → WorkerReceives s ∈ actions → ∃ w, w ∈ ws ∧ s ∈ announced (wr_log w).
Proof.
  unfold wiring_check. rewrite forallb_elem. intros Hw Hs%Hw. apply bool_decide_eq_true in Hs.
  apply list_elem_of_bind in Hs as (w & ? & ?). by exists w.
Qed.
End check.

Module SampleCluster.
Import Toy ToyBackend ToyBincode MapDB SampleStore SampleWorker SampleMessages SampleRuns SampleWorkerNode.

(** The run of a worker of authority [i] on a list of actions. *)
Definition address_of (i : N) : SocketAddr :=
  match Config.primary Sample.committee (pk i) with Ret a => worker_to_primary a | _ => Sample.address 0 end.

Definition sample_worker (i : N) (actions : list WorkerAction) : WorkerRun :=
  let '(n, log) := default (node, [])
    (worker_run (pk i) 0 Sample.committee Parameters_default true (address_of i) node actions) in
  MkWorkerRun 0 Parameters_default true empty_store 0 (address_of i) actions node n log.

Definition worker_check (i : N) (actions : list WorkerAction) : bool :=
  is_ret (worker Sample.committee (pk i) 0) && is_ret (Config.primary Sample.committee (pk i)) &&
  match worker_run (pk i) 0 Sample.committee Parameters_default true (address_of i) node actions with
  | Some _ => true
  | None => false
  end.

Lemma sample_worker_run_of i actions :
  worker_check i actions = true → worker_run_of Sample.committee (pk i) (sample_worker i actions).
Proof.
  unfold worker_check, sample_worker. rewrite !andb_true_iff. intros [[Ew Ep] Er].
  destruct (worker_run _ _ _ _ _ _ _ _) as [[n log]|] eqn:E; [|done].
  split; cbn [fst snd default from_option wr_id wr_parameters wr_benchmark wr_store wr_now wr_address wr_actions wr_start wr_end wr_log];
    [reflexivity| |exact E].
  unfold worker_spawn, address_of. destruct (worker _ _ _), (Config.primary _ _); by try discriminate.
Qed.

Lemma sample_workers_of i actions worker_actions :
  worker_check i worker_actions = true → wiring_check actions [sample_worker i worker_actions] = true →
  workers_of Sample.committee (pk i) (sample_run_on i actions) [sample_worker i worker_actions].
Proof.
  intros Hc Hw. destruct (sample_run_constants i actions) as (Es & _ & Ea & _). split.
  - intros w ->%list_elem_of_singleton. by apply sample_worker_run_of.
  - intros s. rewrite Ea. by apply wiring_checked.
  - rewrite Es. by intros d id [v Hv].
Qed.

(** The workers of the honest authorities have [batch_2] of authority 4, and [batch_1]: authority 1 seals it and
    the workers of 2 and 3 acknowledge it; these receive it. *)
Definition seal_actions (peers : list PublicKey) : list WorkerAction :=
  [ClientSends [x00; x01]; BatchMakerReads; BatchMakerTakes 5; BatchMakerReads; BatchMakerTimer 500;
   QuorumWaiterWaits peers; ProcessorTakes true; ConnectorTakes].
Definition store_actions (batch : list byte) : list WorkerAction := [WorkerSends batch; ProcessorTakes false; ConnectorTakes].
Definition worker_actions (i : N) : list WorkerAction :=
  (if i =? 1 then seal_actions [pk 2; pk 3] else store_actions batch_1) ++ store_actions batch_2.

(** The headers of authorities 1 and 4, with the two batches, and their certificates. *)
Definition header_1 : Header := header 1 1 {[ hash_bytes batch_1 := 0 ]} genesis_digests.
Definition header_4 : Header := header 4 1 {[ hash_bytes batch_2 := 0 ]} genesis_digests.
Definition certs : list Certificate := [certificate header_1 [1; 2; 3]; certificate header_4 [1; 2; 3]].

(** The primaries receive what their workers announce; 1 proposes its header, and the others receive it. *)
Definition receive_header (h : Header) : list Action :=
  [PayloadReceiverTakes; PrimaryReceives (serialize (PMHeader h)); CoreTakes PrimaryMessages; CoreCleansUp].
Definition propose_header : list Action :=
  [ProposerProposes 10 10; ProposerTakes (Some OurDigests); ProposerProposes 1000 1000; CoreTakes HeadersChannel; CoreCleansUp].
Definition primary_actions (i : N) : list Action :=
  (WorkerReceives <$> announced (wr_log (sample_worker i (worker_actions i)))) ++
  (if i =? 1 then propose_header else receive_header header_1) ++ receive_header header_4.

Definition cluster (k : PublicKey) : NodeRun := sample_run_on (number k) (primary_actions (number k)).
Definition workers (k : PublicKey) : list WorkerRun := [sample_worker (number k) (worker_actions (number k))].

(** One evaluation for all that is asked of the runs. *)
Definition cluster_logs_check (l1 l2 l3 : list Entry) : bool :=
  let data := [(pk 1, log_data l1); (pk 2, log_data l2); (pk 3, log_data l3)] in
  (timely 50 0 l1 && timely 50 0 l2 && timely 50 0 l3) &&
  (crypto_check Sample.committee certs data && headers_check certs data).

Lemma cluster_logs_parts l1 l2 l3 :
  cluster_logs_check l1 l2 l3 = true →
  (timely 50 0 l1 = true ∧ timely 50 0 l2 = true ∧ timely 50 0 l3 = true) ∧
  let data := [(pk 1, log_data l1); (pk 2, log_data l2); (pk 3, log_data l3)] in
  crypto_check Sample.committee certs data = true ∧ headers_check certs data = true.
Proof. unfold cluster_logs_check. rewrite !andb_true_iff. tauto. Qed.

Lemma cluster_checked :
  check_run 1 (primary_actions 1) (λ _ l1, check_run 2 (primary_actions 2) (λ _ l2,
    check_run 3 (primary_actions 3) (λ _ l3, cluster_logs_check l1 l2 l3))) = true.
Proof. vm_compute. reflexivity. Qed.

Lemma cluster_eq i : number (pk i) = i → cluster (pk i) = sample_run_on i (primary_actions i).
Proof. unfold cluster. by intros ->. Qed.

Lemma cluster_run i :
  number (pk i) = i →
  let r := sample_run_on i (primary_actions i) in
  sample_spawn i = Ret (nr_cfg r, nr_start r, nr_out r) →
  run_from i (nr_cfg r) (nr_start r) (nr_actions r) = Some (nr_end r, nr_log r) →
  timely 50 0 (nr_log (cluster (pk i))) = true → run_of Sample.committee (pk i) (cluster (pk i)).
Proof. intros E. rewrite (cluster_eq i E). exact (run_of_sample i (primary_actions i)). Qed.

Lemma cluster_parts :
  (∀ a, a ∈ honest → run_of Sample.committee a (cluster a)) ∧
  let data := (λ a, (a, run_data cluster a)) <$> keys in
  crypto_check Sample.committee certs data = true ∧ headers_check certs data = true.
Proof.
  destruct number_pk as (E1 & E2 & E3).
  pose proof cluster_checked as (Es1 & Er1 & (Es2 & Er2 & (Es3 & Er3 & Hc)%check_run_spec)%check_run_spec)%check_run_spec.
  rewrite <-(cluster_eq 1 E1), <-(cluster_eq 2 E2), <-(cluster_eq 3 E3) in Hc.
  destruct (cluster_logs_parts _ _ _ Hc) as ((T1 & T2 & T3) & Hd). split; [|exact Hd].
  exact (honest_cases _ (cluster_run 1 E1 Es1 Er1 T1) (cluster_run 2 E2 Es2 Er2 T2) (cluster_run 3 E3 Es3 Er3 T3)).
Qed.

Lemma cluster_worker i :
  number (pk i) = i → worker_check i (worker_actions i) && wiring_check (primary_actions i) [sample_worker i (worker_actions i)] = true →
  workers_of Sample.committee (pk i) (cluster (pk i)) (workers (pk i)).
Proof. unfold cluster, workers. intros -> [Hc Hw]%andb_true_iff. exact (sample_workers_of i _ _ Hc Hw). Qed.

Lemma cluster_workers a : a ∈ honest → workers_of Sample.committee a (cluster a) (workers a).
Proof. revert a. apply honest_cases; (apply cluster_worker; vm_compute; reflexivity). Qed.

Lemma cluster_crypto : crypto_sound Sample.committee honest cluster certs.
Proof. exact (crypto_check_sound Sample.committee cluster certs honest keys eq_refl (proj1 (proj2 cluster_parts))). Qed.

Lemma cluster_headers : headers_sound Sample.committee honest cluster certs.
Proof. exact (headers_check_sound Sample.committee cluster certs honest keys eq_refl (proj2 (proj2 cluster_parts))). Qed.

Lemma certificate_1_verifies : Certificate_verify (certificate header_1 [1; 2; 3]) Sample.committee = Ret ().
Proof. apply is_ret_unit. vm_compute. reflexivity. Qed.

Lemma payload_1 : hd_payload (ct_header (certificate header_1 [1; 2; 3])) = {[ hash_bytes batch_1 := 0 ]}.
Proof. apply (bool_decide_unpack _). vm_compute. exact I. Qed.

Lemma one_id (d0 d : Digest) (m : gmap Digest WorkerId) id : m = {[ d0 := 0 ]} → m !! d = Some id → id < two32.
Proof. intros ->. by intros [_ <-]%lookup_singleton_Some. Qed.
End SampleCluster.

Section witnesses.
Import Toy ToyBackend ToyBincode MapDB SampleStore SampleWorker SampleMessages SampleRuns SampleWorkerNode SampleCluster.

Lemma certified_payload_available_witness :
  hd_payload (ct_header (certificate header_1 [1; 2; 3])) = {[ hash_bytes batch_1 := 0 ]} ∧
  payload_available Sample.committee honest workers (certificate header_1 [1; 2; 3]).
Proof.
  split; [exact payload_1|].
  exact (certified_payload_available Sample.committee honest cluster workers SampleCluster.certs (certificate header_1 [1; 2; 3])
    sample_small sample_honest (proj1 cluster_parts) cluster_workers cluster_crypto cluster_headers (list_elem_of_here _ _)
    certificate_1_verifies eq_refl (λ d id, one_id _ d _ id payload_1)).
Defined.

(** The workers in the runs of five rounds, which store the batch of the headers of authority 4. *)
Definition round_workers (k : PublicKey) : list WorkerRun := [sample_worker (number k) (store_actions batch_1)].

Lemma round_worker i :
  number (pk i) = i →
  worker_check i (store_actions batch_1) && wiring_check (rounds_actions i 5) [sample_worker i (store_actions batch_1)] = true →
  workers_of Sample.committee (pk i) (runs (pk i)) (round_workers (pk i)).
Proof. unfold runs, round_workers. intros -> [Hc Hw]%andb_true_iff. exact (sample_workers_of i _ _ Hc Hw). Qed.

Lemma rounds_workers a : a ∈ honest → workers_of Sample.committee a (runs a) (round_workers a).
Proof. revert a. apply honest_cases; (apply round_worker; vm_compute; reflexivity). Qed.

Notation fed_1 := (fed_certificates (nr_log (runs (pk 1)))).

Lemma fed_part (l l' : list Certificate) : l ⊆ l ++ l'.
Proof. set_solver. Qed.

Lemma fed_1_part : fed_1 ⊆ SampleRuns.certs.
Proof. exact (fed_part fed_1 (fed_certificates (nr_log (runs (pk 2))))). Qed.

Lemma rounds_crypto : crypto_sound Sample.committee honest runs fed_1.
Proof. exact (crypto_sound_part Sample.committee honest runs SampleRuns.certs fed_1 fed_1_part sample_crypto). Qed.

Lemma rounds_headers : headers_sound Sample.committee honest runs fed_1.
Proof. exact (headers_sound_part Sample.committee honest runs SampleRuns.certs fed_1 fed_1_part sample_headers). Qed.

(** The certificate of authority 4 in the first round is committed. *)
Definition committed_4 : Certificate := default Certificate_default ((committed (nr_log (runs (pk 1)))).*1 !! 1%nat).

Lemma committed_check_spec log :
  committed_check log = true →
  default Certificate_default ((committed log).*1 !! 1%nat) ∈ (committed log).*1 ∧
  hd_payload (ct_header (default Certificate_default ((committed log).*1 !! 1%nat))) = {[ hash_bytes batch_1 := 0 ]}.
Proof.
  unfold committed_check. destruct ((committed log).*1 !! 1%nat) as [c|] eqn:E; [|done].
  intros Hc. split; [by eapply list_elem_of_lookup_2|]. exact (bool_decide_eq_true_1 _ Hc).
Qed.

Lemma committed_4_spec :
  committed_4 ∈ (committed (nr_log (runs (pk 1)))).*1 ∧ hd_payload (ct_header committed_4) = {[ hash_bytes batch_1 := 0 ]}.
Proof. exact (committed_check_spec _ (proj2 (proj2 (proj2 (proj2 (proj2 logs_parts)))))). Qed.

Lemma committed_payload_available_witness :
  hd_payload (ct_header committed_4) = {[ hash_bytes batch_1 := 0 ]} ∧
  payload_available Sample.committee honest round_workers committed_4.
Proof.
  split; [exact (proj2 committed_4_spec)|].
  exact (committed_payload_available Sample.committee honest runs round_workers (pk 1) committed_4
    sample_small sample_honest honest_runs rounds_workers (proj1 honest_members) proper_1 rounds_crypto rounds_headers
    (proj1 committed_4_spec) (λ d id, one_id _ d _ id (proj2 committed_4_spec))).
Defined.
End witnesses.
