(* ===== verification/Restart.v ===== *)
(** What a primary forgets when it stops and is started again on its store: [Primary::spawn] takes the store, but
    the rounds of the proposer, the votes and the headers in process of the core are in memory only. *)

From S2P Require Import Prelude Channels Crypto Config Messages Adversary Aggregators Store Primary.
From S2P Require Import Core CoreFacts Proposer Pool Waiters Consensus.
From S2P Require Import Network Worker Node NodeSamples NodeFacts NodeSafety Certification.

Section restart.
Context `{!Sha512, !Dalek, !Backend, !Storage, !Bincode Header, !Bincode Certificate}.
Variables (name : PublicKey) (committee : Committee) (secret : SecretKey).
Notation process_header := (process_header name committee secret).
Notation process_vote := (process_vote name committee secret).
Notation process_certificate := (Core.process_certificate name committee secret).
Implicit Types (c : Core.Core) (h : Header) (v : Vote) (x : Certificate).

(** The own vote on a header, when the aggregator has one already for the current header. *)
Lemma own_vote_reused n v c :
  vt_author v ∈ VotesAggregator.used (votes_aggregator c) →
  ∃ c' es, expect_ok (process_vote (S n) v) c = Some (c', es, Panic).
Proof.
  intros Hu. unfold expect_ok. cbn [Core.process_vote]. unfold mbind, handler_bind, get, modify, lift.
  unfold VotesAggregator.append. rewrite decide_True by done. simpl. by do 2 eexists.
Qed.

Lemma own_header_panics n h c v :
  hd_author h = name → header_checked name committee c h →
  contains_at (hd_round h) name (last_voted c) = false → Vote_new h name secret = Ret v →
  name ∈ VotesAggregator.used (votes_aggregator c) →
  ∃ c' es, process_header (S (S n)) h c = Some (c', es, Panic).
Proof.
  intros Ha [parents weight Hg Hne Hc Hq Hm] Hv Hvn Hu. rewrite process_header_S.
  pose proof (own_vote_reused n v) as Hreused. revert Hreused. generalize (process_vote (S n)). intros pv Hreused.
  unfold check_and_vote, vote_for, call_get_parents, call_missing_payload, call_vote, write.
  unfold mbind, handler_bind, modify, get, lift, emit, mret, handler_ret. cbn [store set_processing].
  rewrite Hg. destruct parents as [|p ps]; [done|]. simpl in Hc |- *. rewrite Hc. unfold ensure.
  rewrite (proj2 (N.leb_le _ _) Hq), Hm. simpl. rewrite Ha, Hv. simpl. rewrite Hvn. simpl.
  pose proof (Vote_new_fields _ _ _ _ Hvn) as (_ & _ & Eo & Ea). rewrite decide_True by congruence.
  match goal with |- context [expect_ok (pv v) ?c0] =>
    destruct (Hreused c0) as (c' & es & E); [by rewrite Ea|] end.
  rewrite E. by do 2 eexists.
Qed.

(** A certificate of an unknown header: the header is processed first. *)
Lemma process_certificate_S n x : ∃ rest : handler unit,
  process_certificate (S n) x =
    (known ← get (λ c, contains_at (cround x) (hd_id (ct_header x)) (processing c));
     (if known : bool then mret () else process_header n (ct_header x));; rest).
Proof. eexists. reflexivity. Qed.

Lemma certificate_panics n x c c' es :
  contains_at (cround x) (hd_id (ct_header x)) (processing c) = false →
  process_header n (ct_header x) c = Some (c', es, Panic) → process_certificate (S n) x c = Some (c', es, Panic).
Proof.
  intros Hp E. destruct (process_certificate_S n x) as [rest ->]. unfold mbind, handler_bind, get. by rewrite Hp, E.
Qed.
End restart.

(** A run of a primary in a committee, on any store. *)
Definition is_run `{!Sha512, !Dalek, !Backend, !Storage, !Bincode Header, !Bincode Certificate, !Bincode PrimaryMessage,
    !Bincode WorkerPrimaryMessage} committee (a : PublicKey) (r : NodeRun) : Prop :=
  node_spawn a (nr_secret r) committee (nr_parameters r) (nr_store r) (nr_env r) (nr_var r) (nr_now r) =
    Ret (nr_cfg r, nr_start r, nr_out r) ∧
  node_run a committee (nr_secret r) (nr_parameters r) (nr_env r) (nr_cfg r) (nr_start r) (nr_actions r) =
    Some (nr_end r, nr_log r).

(** ** A primary that is started twice *)

Module SampleRestart.
Import Toy ToyBackend ToyBincode MapDB SampleStore SampleWorker SampleMessages.

(** Primary 1 goes through two rounds, stops, and is started again on its store: its worker announces a batch,
    and it proposes a header with it. *)
Definition second_spawn (n : Node) : outcome unit (Settings * Node * list Output) :=
  node_spawn (pk 1) (sk 1) Sample.committee Parameters_default (store (core n)) (λ _, None) (Throw NotPresent) 0.

Definition second_actions : list Action :=
  [ProposerProposes 10 10; WorkerReceives (serialize (OurBatch (hash_bytes batch_1) 0)); ProposerTakes (Some OurDigests);
   ProposerProposes 1000 1000; CoreTakes HeadersChannel; CoreCleansUp].

(** Two headers for a round, and two votes for an author and a round. *)
Definition equivocates (log log' : list Entry) : bool :=
  existsb (λ h, existsb (λ h', bool_decide (hd_round h = hd_round h') && negb (bool_decide (hd_id h = hd_id h')))
    (own_headers (core_effects log'))) (own_headers (core_effects log)) &&
  existsb (λ v, existsb (λ v', bool_decide (vote_key v = vote_key v') && negb (bool_decide (vt_id v = vt_id v')))
    (signatures (core_effects log'))) (signatures (core_effects log)).

(** The certificate of the header of the second round of the first run. *)
Definition old_certificate (log : list Entry) : Certificate :=
  certificate (default Header_default (own_headers (core_effects log) !! 1%nat)) [1; 2; 3].

Definition old_certificate_check (c : Core.Core) (x : Certificate) : bool :=
  bool_decide (origin x = pk 1) && is_ret (sanitize_certificate Sample.committee c x) &&
  negb (contains_at (cround x) (hd_id (ct_header x)) (processing c)) && negb (contains_at (cround x) (pk 1) (last_voted c)) &&
  header_check (pk 1) Sample.committee c (ct_header x) && is_ret (Vote_new (ct_header x) (pk 1) (sk 1)) &&
  bool_decide (pk 1 ∈ VotesAggregator.used (votes_aggregator c)).

Definition restart_check (n : Node) (log : list Entry) : bool :=
  match second_spawn n with
  | Ret (cfg, n0, _) =>
      match run_from 1 cfg n0 second_actions with
      | Some (n1, log1) => equivocates log log1 && old_certificate_check (core n1) (old_certificate log)
      | None => false
      end
  | _ => false
  end.

Notation first := (sample_run 1 2).

Lemma first_checked :
  sample_spawn 1 = Ret (nr_cfg first, nr_start first, nr_out first) ∧
  run_from 1 (nr_cfg first) (nr_start first) (nr_actions first) = Some (nr_end first, nr_log first) ∧
  restart_check (nr_end first) (nr_log first) = true.
Proof. apply (check_run_spec 1 _ restart_check). vm_compute. reflexivity. Qed.

(** The second run is one, and what is checked of it. *)
Lemma restart_checked n log :
  restart_check n log = true →
  ∃ cfg n0 out n1 log1, second_spawn n = Ret (cfg, n0, out) ∧ run_from 1 cfg n0 second_actions = Some (n1, log1) ∧
    equivocates log log1 = true ∧ old_certificate_check (core n1) (old_certificate log) = true.
Proof.
  unfold restart_check. destruct (second_spawn n) as [[[cfg n0] out]| |]; [|done..].
  destruct (run_from 1 cfg n0 second_actions) as [[n1 log1]|] eqn:E; [|done]. intros [? ?]%andb_true_iff.
  exists cfg, n0, out, n1, log1. done.
Qed.

Lemma equivocates_spec log log' :
  equivocates log log' = true →
  (∃ h h', h ∈ own_headers (core_effects log) ∧ h' ∈ own_headers (core_effects log') ∧
     hd_round h = hd_round h' ∧ hd_id h ≠ hd_id h') ∧
  ∃ v v', v ∈ signatures (core_effects log) ∧ v' ∈ signatures (core_effects log') ∧
     vote_key v = vote_key v' ∧ vt_id v ≠ vt_id v'.
Proof.
  unfold equivocates. intros [(h & Hh & (h' & Hh' & Hc)%existsb_In)%existsb_In (v & Hv & (v' & Hv' & Hd)%existsb_In)%existsb_In]%andb_true_iff.
  apply andb_true_iff in Hc as [?%bool_decide_eq_true ?%negb_true_iff%bool_decide_eq_false].
  apply andb_true_iff in Hd as [?%bool_decide_eq_true ?%negb_true_iff%bool_decide_eq_false].
  split; [by exists h, h'|by exists v, v'].
Qed.

Lemma old_certificate_spec c x :
  old_certificate_check c x = true →
  origin x = pk 1 ∧ sanitize_certificate Sample.committee c x = Ret () ∧
  contains_at (cround x) (hd_id (ct_header x)) (processing c) = false ∧ contains_at (cround x) (pk 1) (last_voted c) = false ∧
  header_checked (pk 1) Sample.committee c (ct_header x) ∧ (∃ v, Vote_new (ct_header x) (pk 1) (sk 1) = Ret v) ∧
  pk 1 ∈ VotesAggregator.used (votes_aggregator c).
Proof.
  unfold old_certificate_check. rewrite !andb_true_iff, !bool_decide_eq_true, !negb_true_iff.
  intros [[[[[[Ho Hs%is_ret_unit] ?] ?] Hh] Hv] ?]. split_and!; try done; [by apply header_check_spec|].
  destruct (Vote_new _ _ _) as [v| |]; by try exists v.
Qed.
End SampleRestart.

(** ** Properties *)

(** C19: A certificate of our own from before a restart ends the core. When the core has its own vote for its
    current header, a certificate that verifies for another header of this authority, one that passes the
    checks and that it does not know as in process or voted for, makes it vote for that header: the aggregator
    refuses a second vote of the same authority, and the task panics. *)
Theorem own_certificate_panics `{!Sha512, !Dalek, !Backend, !Storage, !Bincode Header, !Bincode Certificate}
    name committee secret c x v :
  origin x = name → sanitize_certificate committee c x = Ret () →
  contains_at (cround x) (hd_id (ct_header x)) (processing c) = false →
  contains_at (cround x) name (last_voted c) = false →
  header_checked name committee c (ct_header x) → Vote_new (ct_header x) name secret = Ret v →
  name ∈ VotesAggregator.used (votes_aggregator c) →
  (core_handle name committee secret c (FromPrimaries (PMCertificate x))).1 = None.
Proof.
  intros Ho Hs Hp Hv Hc Hvn Hu. unfold core_handle, handle_input, mbind, handler_bind, get, lift.
  destruct (own_header_panics name committee secret 4 (ct_header x) c v Ho Hc Hv Hvn Hu) as (c' & es & E).
  unfold core_fuel. by rewrite Hs, (certificate_panics _ _ _ _ _ _ _ _ Hp E).
Qed.

Section sample.
Import Toy ToyBackend ToyBincode MapDB SampleStore SampleWorker SampleMessages SampleRestart.

(** C18: A primary that is started again on its store equivocates. There are a run of a primary and a run of it
    from the store that the first left, with the same keys, that broadcast different headers for the same
    round, and that sign votes for different headers of the same author and round: the proposer starts in
    round 1 again, and what the core voted for is not in the store. *)
Theorem restarted_primary_equivocates : ∃ r r' : NodeRun,
  is_run Sample.committee (pk 1) r ∧ is_run Sample.committee (pk 1) r' ∧
  nr_secret r' = nr_secret r ∧ nr_store r' = store (core (nr_end r)) ∧
  (∃ h h', h ∈ own_headers (core_effects (nr_log r)) ∧ h' ∈ own_headers (core_effects (nr_log r')) ∧
     hd_round h = hd_round h' ∧ hd_id h ≠ hd_id h') ∧
  ∃ v v', v ∈ signatures (core_effects (nr_log r)) ∧ v' ∈ signatures (core_effects (nr_log r')) ∧
     vote_key v = vote_key v' ∧ vt_id v ≠ vt_id v'.
Proof.
  destruct first_checked as (Hs & Hr & Hc).
  pose proof (sample_run_constants 1 (rounds_actions 1 2)) as Hsec. cbv zeta in Hsec.
  revert Hs Hr Hc Hsec. generalize first. intros r Hs Hr Hc (E1 & E2 & _ & E3 & E4 & E5 & E6).
  apply restart_checked in Hc as (cfg & n0 & out & n1 & log & Hs' & Hr' & He & _). apply equivocates_spec in He as [Hh Hv].
  exists r, (MkNodeRun (sk 1) Parameters_default (λ _, None) (Throw NotPresent) 0 (store (core (nr_end r))) second_actions
    cfg n0 out n1 log). unfold is_run. rewrite E1, E2, E3, E4, E5, E6. by split_and!.
Qed.

Lemma own_certificate_panics_witness : ∃ (n : Node) (log : list Entry) (n' : Node),
  (∃ cfg n0 out log', second_spawn n = Ret (cfg, n0, out) ∧ run_from 1 cfg n0 second_actions = Some (n', log')) ∧
  (core_handle (pk 1) Sample.committee (sk 1) (core n') (FromPrimaries (PMCertificate (old_certificate log)))).1 = None.
Proof.
  exists (nr_end first), (nr_log first).
  destruct (restart_checked _ _ (proj2 (proj2 first_checked))) as (cfg & n0 & out & n1 & log1 & Hs & Hr & _ & Hc).
  exists n1. split; [exists cfg, n0, out, log1; exact (conj Hs Hr)|].
  destruct (old_certificate_spec _ _ Hc) as (Ho & Hsa & Hp & Hv & Hh & [v Hvn] & Hu).
  exact (own_certificate_panics (pk 1) Sample.committee (sk 1) (core n1) (old_certificate (nr_log first)) v Ho Hsa Hp Hv Hh Hvn Hu).
Defined.
End sample.
