(* ===== verification/Forgery.v ===== *)
(** A certificate that nobody signed, from the network to the output of the consensus. *)

From S2P Require Import Prelude Channels Crypto Config Messages Adversary Aggregators Store Primary.
From S2P Require Import Core CoreFacts Proposer Pool Waiters Consensus ConsensusFacts.
From S2P Require Import Network Worker Node NodeSamples NodeFacts NodeSafety Certification NodeAgreement Restart.

Module SampleForgery.
Import Toy ToyBackend ToyBincode MapDB SampleStore SampleWorker SampleMessages.

(** The certificate of authority [i] in a round, with the certificates [parents] as parents. *)
Definition on (r : N) (parents : list Certificate) (i : N) : Certificate :=
  certificate (header i r ∅ (list_to_set (digest <$> parents))) [1; 2; 3].

(** Seven rounds. Authority 4 takes part in the first two, and only authority 2 has its second certificate
    among its parents. *)
Definition round_1 : list Certificate := (λ i, certificate (header i 1 ∅ genesis_digests) [1; 2; 3]) <$> [1; 2; 3; 4].
Definition round_2 : list Certificate :=
  (on 2 (take 3 round_1) <$> [1; 2; 3]) ++ [on 2 (take 2 round_1 ++ drop 3 round_1) 4].
Definition round_3 : list Certificate := [on 3 (take 3 round_2) 1; on 3 round_2 2; on 3 (take 3 round_2) 3].
Definition next (r : N) (previous : list Certificate) : list Certificate := on r previous <$> [1; 2; 3].
Definition round_4 : list Certificate := next 4 round_3.
Definition round_5 : list Certificate := next 5 round_4.
Definition round_6 : list Certificate := next 6 round_5.
Definition round_7 : list Certificate := next 7 round_6.

(** It has the author, the round and the id of a certificate of the genesis; its payload is made up. *)
Definition forged : Certificate :=
  MkCertificate (MkHeader (pk 1) 0 {[ dg 666 := 7 ]} ∅ Digest_default Signature_default) [].

Definition receive_certificates (cs : list Certificate) : list Action :=
  (cs ≫= λ c, PrimaryReceives (serialize (PMCertificate c)) :: core_step_actions PrimaryMessages) ++
  replicate (length cs) ConsensusTakes.

(** Primary 1 proposes its header of a round, and receives the certificates of the round. *)
Definition round_steps (now : N) (cs : list Certificate) : list Action :=
  ProposerProposes now now :: core_step_actions HeadersChannel ++ receive_certificates cs ++ [ProposerTakes (Some ParentsChannel)].

Definition actions : list Action :=
  round_steps 1000 round_1 ++ round_steps 2000 round_2 ++ round_steps 3000 round_3 ++ round_steps 4000 round_4 ++
  round_steps 5000 round_5 ++ receive_certificates [forged] ++ round_steps 6000 round_6 ++ round_steps 7000 round_7.
End SampleForgery.

Section sample.
Import Toy ToyBackend ToyBincode MapDB SampleStore SampleWorker SampleMessages SampleForgery.

(** The forged certificate is committed, on a feed with one certificate per slot all of which verify. *)
Definition forgery_check (log : list Entry) : bool :=
  let fed := fed_certificates log in
  bool_decide (NoDup (slot <$> fed)) && forallb (λ c, is_ret (Certificate_verify c Sample.committee)) fed &&
  bool_decide (forged ∈ (committed log).*1).

Lemma forgery_check_spec log :
  forgery_check log = true →
  NoDup (slot <$> fed_certificates log) ∧ (∀ c, c ∈ fed_certificates log → Certificate_verify c Sample.committee = Ret ()) ∧
  forged ∈ (committed log).*1.
Proof.
  unfold forgery_check. rewrite !andb_true_iff, !bool_decide_eq_true, forallb_elem. intros [[? Hv] ?].
  split_and!; [done| |done]. intros c Hc. by apply is_ret_unit, Hv.
Qed.

Notation run := (sample_run_on 1 actions).

Lemma forgery_checked :
  sample_spawn 1 = Ret (nr_cfg run, nr_start run, nr_out run) ∧
  run_from 1 (nr_cfg run) (nr_start run) (nr_actions run) = Some (nr_end run, nr_log run) ∧
  forgery_check (nr_log run) = true.
Proof. apply (check_run_spec 1 actions (λ _, forgery_check)). vm_compute. reflexivity. Qed.

Lemma forged_received : PrimaryReceives (serialize (PMCertificate forged)) ∈ actions.
Proof. unfold actions. rewrite !elem_of_app. do 5 right. left. left. Qed.

(** *** Property *)

(** C8: A certificate that nobody signed is committed. There is a run of a primary from its start in which a peer
    sends it a certificate of round 0 with the author and the id of one of the genesis, a default signature, a
    payload it made up and no votes; the consensus takes it as one that verifies, on a feed with one certificate
    per slot, and outputs it. *)
Theorem forged_certificate_committed : ∃ (r : NodeRun) (x : Certificate),
  is_run Sample.committee (pk 1) r ∧ PrimaryReceives (serialize (PMCertificate x)) ∈ nr_actions r ∧
  cround x = 0 ∧ ct_votes x = [] ∧ hd_signature (ct_header x) = Signature_default ∧
  hd_payload (ct_header x) = {[ dg 666 := 7 ]} ∧ x ∉ genesis Sample.committee ∧
  NoDup (slot <$> fed_certificates (nr_log r)) ∧
  (∀ c, c ∈ fed_certificates (nr_log r) → Certificate_verify c Sample.committee = Ret ()) ∧
  x ∈ (committed (nr_log r)).*1.
Proof.
  destruct forgery_checked as (Hs & Hr & Hc). pose proof (sample_run_constants 1 actions) as Hsec. cbv zeta in Hsec.
  revert Hs Hr Hc Hsec. generalize run. intros r Hs Hr Hc (E1 & E2 & E3 & E4 & E5 & E6 & E7).
  apply forgery_check_spec in Hc as (Hnd & Hv & Hin). exists r, forged.
  split; [unfold is_run; rewrite E1, E2, E4, E5, E6, E7; exact (conj Hs Hr)|].
  split; [rewrite E3; exact forged_received|]. split; [reflexivity|]. split; [reflexivity|]. split; [reflexivity|]. split; [reflexivity|].
  split; [|exact (conj Hnd (conj Hv Hin))].
  apply (bool_decide_unpack _). vm_compute. exact I.
Qed.
End sample.
