(* ===== verification/Client.v ===== *)
(** The load generator ([src/node/src/benchmark_client.rs]): its arguments, the slots in which it is silent, and
    the transactions it sends. A tick of its loop is a step on what the clock reads and on which sends succeed. *)

From S2P Require Import Prelude Crypto Config Messages Store Primary Worker.

(** ** Arguments *)

(** The arguments as [clap] leaves them, with its defaults. *)
Record ClientArgs := MkClientArgs {
  arg_addr : string;
  arg_size : string;
  arg_rate : string;
  arg_nodes : list string;
  arg_silence_schedule : string;
  arg_silence_slot_ms : string
}.

Record Client := MkClient {
  target : SocketAddr;
  tx_size : N;
  rate : N;
  nodes : list SocketAddr;
  silence_schedule : list byte;
  silence_slot_ms : N
}.

(** The errors, by the messages the program prints. *)
Inductive ClientError :=
| InvalidAddress
| InvalidSchedule
| InvalidSlot
| SlotRequired
| InvalidSize
| InvalidRate
| SizeTooSmall
| FailedToConnect.

(** ['0'] and ['1']. *)
Definition zero_char : byte := x30.
Definition one_char : byte := x31.

Section main.
Variable parse_address : string → option SocketAddr.

Fixpoint parse_nodes (l : list string) : outcome ClientError (list SocketAddr) :=
  match l with
  | [] => Ret []
  | x :: l =>
      address ← ok_or (parse_address x) InvalidAddress;
      addresses ← parse_nodes l;
      Ret (address :: addresses)
  end.

(** [main], up to the client it makes. *)
Definition Client_new (args : ClientArgs) : outcome ClientError Client :=
  target ← ok_or (parse_address (arg_addr args)) InvalidAddress;
  let schedule := String.list_byte_of_string (arg_silence_schedule args) in
  (if existsb (λ v, negb (bool_decide (v = zero_char) || bool_decide (v = one_char))) schedule
   then Throw InvalidSchedule else Ret ());;
  slot ← ok_or (parse_u64 (arg_silence_slot_ms args)) InvalidSlot;
  (if bool_decide (schedule ≠ []) && (slot =? 0) then Throw SlotRequired else Ret ());;
  size ← ok_or (parse_u64 (arg_size args)) InvalidSize;
  rate ← ok_or (parse_u64 (arg_rate args)) InvalidRate;
  nodes ← parse_nodes (arg_nodes args);
  Ret (MkClient target size rate nodes schedule slot).
End main.

(** ** Silence *)

(** [client_is_silent], with the milliseconds of [elapsed]; the slot is cast to [usize]. *)
Definition client_is_silent (schedule : list byte) (slot_ms elapsed : N) : bool :=
  if bool_decide (schedule = []) || (slot_ms =? 0) then false
  else bool_decide (schedule !! N.to_nat ((elapsed / slot_ms) mod two64) = Some one_char).

(** ** Transactions *)

(** [put_u64]: big-endian. *)
Definition be_bytes (n : nat) (x : N) : list byte := rev (le_bytes n x).

(** [resize(size, 0)]. *)
Definition resize (size : nat) (l : list byte) : list byte := take size l ++ replicate (size - length l) x00.

(** A sample transaction with the counter, or a standard one with a number. *)
Inductive Tx := Sample (counter : N) | Standard (r : N).

Definition encode (size : N) (t : Tx) : list byte :=
  resize (N.to_nat size) (match t with
  | Sample counter => x00 :: be_bytes 8 counter
  | Standard r => x01 :: be_bytes 8 r
  end).

(** [PRECISION] and [BURST_DURATION]. *)
Definition PRECISION : N := 20.
Definition BURST_DURATION : N := 1000 / PRECISION.

Section send.
Variable c : Client.

Definition burst : N := rate c / PRECISION.

(** [for x in 0..burst]: the counter stays, [r] is counted up; [ok] says which sends succeed, and the flag
    whether all did. *)
Fixpoint burst_loop (counter r : N) (xs : list N) (ok : N → bool) : N * list Tx * bool :=
  match xs with
  | [] => (r, [], true)
  | x :: xs =>
      let '(r, t) := if x =? counter mod burst then (r, Sample counter)
                     else let r := u64_add r 1 in (r, Standard r) in
      if ok x then let '(r, txs, go) := burst_loop counter r xs ok in (r, t :: txs, go)
      else (r, [t], false)
  end.

(** One tick of the loop, [elapsed] milliseconds after the start: the counters, what is sent, and whether the
    loop goes on. *)
Definition tick (st : N * N) (elapsed : N) (ok : N → bool) : (N * N) * list Tx * bool :=
  let '(counter, r) := st in
  if client_is_silent (silence_schedule c) (silence_slot_ms c) elapsed then (st, [], true)
  else
    let '(r, txs, go) := burst_loop counter r (N_range 0 burst) ok in
    ((if go then u64_add counter 1 else counter, r), txs, go).

Fixpoint ticks (st : N * N) (l : list (N * (N → bool))) : list (list Tx) :=
  match l with
  | [] => []
  | (elapsed, ok) :: l =>
      let '(st, txs, go) := tick st elapsed ok in
      txs :: if go then ticks st l else []
  end.

(** [Client::send]: the transactions of each tick, for a random [r] and whether the connection is made. *)
Definition send (connected : bool) (r : N) (l : list (N * (N → bool))) : outcome ClientError (list (list (list byte))) :=
  if tx_size c <? 9 then Throw SizeTooSmall
  else if connected then Ret ((λ txs : list Tx, (encode (tx_size c) <$> txs : list (list byte))) <$> ticks (0, r) l)
  else Throw FailedToConnect.
End send.

(** ** Facts *)

Definition samples (txs : list Tx) : list N := omap (λ t, match t with Sample i => Some i | _ => None end) txs.
Definition standards (txs : list Tx) : list N := omap (λ t, match t with Standard r => Some r | _ => None end) txs.

Lemma samples_app l k : samples (l ++ k) = samples l ++ samples k.
Proof. apply omap_app. Qed.
Lemma standards_app l k : standards (l ++ k) = standards l ++ standards k.
Proof. apply omap_app. Qed.

Lemma NoDup_txs l : NoDup (samples l) → NoDup (standards l) → NoDup l.
Proof.
  induction l as [|[i|r] l IH]; csimpl; [by constructor|..]; intros Hs Hr.
  - apply NoDup_cons in Hs as [Hi Hs]. constructor; [|by apply IH].
    intros Hin. apply Hi, list_elem_of_omap. by exists (Sample i).
  - apply NoDup_cons in Hr as [Hi Hr]. constructor; [|by apply IH].
    intros Hin. apply Hi, list_elem_of_omap. by exists (Standard r).
Qed.

Lemma length_be_bytes n x : length (be_bytes n x) = n.
Proof. unfold be_bytes. by rewrite length_rev, length_le_bytes. Qed.

Lemma be_bytes_inj x y : x < two64 → y < two64 → be_bytes 8 x = be_bytes 8 y → x = y.
Proof. intros Hx Hy E. apply rev_inj in E. by apply (le_bytes_inj 8) in E. Qed.

Lemma length_resize size l : length (resize size l) = size.
Proof. unfold resize. rewrite length_app, length_take, length_replicate. lia. Qed.

(** Nine bytes tell the transactions apart. *)
Lemma encode_spec size t :
  9 ≤ size → ∃ rest, encode size t = (match t with Sample i => x00 :: be_bytes 8 i | Standard r => x01 :: be_bytes 8 r end) ++ rest ∧
    length (encode size t) = N.to_nat size.
Proof.
  intros Hs. unfold encode. rewrite length_resize. unfold resize. eexists. split; [|done].
  rewrite take_ge; [done|]. destruct t; cbn [length]; rewrite length_be_bytes; lia.
Qed.

Definition tx_small (t : Tx) : Prop := match t with Sample i | Standard i => i < two64 end.

Lemma encode_inj size t t' :
  9 ≤ size → tx_small t → tx_small t' → encode size t = encode size t' → t = t'.
Proof.
  intros Hs Ht Ht' E. destruct (encode_spec size t Hs) as (k & Ek & _), (encode_spec size t' Hs) as (k' & Ek' & _).
  rewrite Ek, Ek' in E. apply app_inj_1 in E as [E _]; [|destruct t, t'; cbn [length]; by rewrite !length_be_bytes].
  destruct t as [i|i], t' as [j|j]; simpl in Ht, Ht'; apply cons_eq_inj in E as [? E]; try done;
    f_equal; by apply be_bytes_inj.
Qed.

Section runs.
Variable c : Client.
Implicit Types (counter r : N) (xs : list N) (txs : list Tx) (ok : N → bool).

(** The numbers of [n] standard transactions after [r]. *)
Fixpoint numbers r (n : nat) : list N :=
  match n with
  | O => []
  | S n => u64_add r 1 :: numbers (u64_add r 1) n
  end.

Lemma u64_add_succ r n : u64_add (u64_add r 1) (N.of_nat n) = u64_add r (N.of_nat (S n)).
Proof. unfold u64_add. rewrite N.Div0.add_mod_idemp_l. f_equal. lia. Qed.

Lemma numbers_app r n m : numbers r (n + m) = numbers r n ++ numbers (u64_add r (N.of_nat n)) m.
Proof.
  revert r. induction n as [|n IH]; intros r; simpl.
  - destruct m; [done|]. simpl. unfold u64_add. rewrite N.add_0_r, N.Div0.add_mod_idemp_l. done.
  - by rewrite IH, u64_add_succ.
Qed.

Lemma numbers_fmap r n : numbers r n = (λ i, (r + 1 + N.of_nat i) mod two64) <$> seq 0 n.
Proof.
  revert r. induction n as [|n IH]; intros r; [done|]. cbn [numbers]. rewrite IH. cbn [seq]. rewrite fmap_cons. f_equal.
  - unfold u64_add. f_equal. lia.
  - rewrite <-fmap_S_seq, <-list_fmap_compose. apply list_fmap_ext. intros i x _. simpl. unfold u64_add.
    rewrite <-N.add_assoc, N.Div0.add_mod_idemp_l. f_equal. lia.
Qed.

Lemma numbers_NoDup r n : N.of_nat n ≤ two64 → NoDup (numbers r n).
Proof.
  intros Hn. rewrite numbers_fmap. apply NoDup_fmap_2_strong; [|apply NoDup_seq].
  intros x y [_ Hx]%elem_of_seq [_ Hy]%elem_of_seq E. unfold two64 in *. zify. Z.to_euclidean_division_equations. lia.
Qed.

Lemma numbers_small r n x : x ∈ numbers r n → x < two64.
Proof. rewrite numbers_fmap. intros (i & -> & _)%list_elem_of_fmap. by apply N.mod_lt. Qed.

(** A burst: at most one sample, with the counter, and the next standard transactions. *)
Lemma burst_loop_spec counter r xs ok :
  NoDup xs →
  let '(r', txs, go) := burst_loop c counter r xs ok in
  ∃ n, (n ≤ length xs)%nat ∧ standards txs = numbers r n ∧ (r < two64 → r' = u64_add r (N.of_nat n)) ∧
    (samples txs = [] ∨ samples txs = [counter] ∧ counter mod burst c ∈ xs) ∧
    (go = true → length txs = length xs ∧ (counter mod burst c ∈ xs → samples txs = [counter])).
Proof.
  assert (H0 : ∀ r, r < two64 → r = u64_add r 0) by (intros; by rewrite u64_add_small; lia).
  revert r. induction xs as [|x xs IH]; intros r Hnd; cbn [burst_loop].
  { exists 0%nat. split_and!; [done|done|apply H0|by left|]. intros _. split; [done|]. by intros ?%elem_of_nil. }
  apply NoDup_cons in Hnd as [Hx Hnd]. destruct (N.eqb_spec x (counter mod burst c)) as [->|Hne].
  - destruct (ok _).
    + specialize (IH r Hnd). destruct (burst_loop c counter r xs ok) as [[r' txs] go].
      destruct IH as (n & Hn & Es & Er & Hs & Hgo). exists n. csimpl. rewrite Es.
      assert (E0 : samples txs = []) by (destruct Hs as [?|[_ ?]]; done). rewrite E0.
      split_and!; [lia|done|done|right; split; [done|left]|]. intros ->. destruct Hgo as [-> _]; done.
    + exists 0%nat. csimpl. split_and!; [lia|done|apply H0|right; split; [done|left]|done].
  - destruct (ok _).
    + specialize (IH (u64_add r 1) Hnd). destruct (burst_loop c counter (u64_add r 1) xs ok) as [[r' txs] go].
      destruct IH as (n & Hn & Es & Er & Hs & Hgo). exists (S n). csimpl. rewrite Es. split_and!; [lia|done| | |].
      * intros Hr. rewrite Er, u64_add_succ; [done|]. by apply N.mod_lt.
      * destruct Hs as [?|[? ?]]; [by left|right]. split; [done|by right].
      * intros Ego. destruct (Hgo Ego) as [-> Hin]. split; [done|]. intros [?|?]%elem_of_cons; [congruence|by apply Hin].
    + exists 1%nat. csimpl. split_and!; [lia|done|done|by left|done].
Qed.

Lemma burst_zero st l : burst c = 0 → concat (ticks c st l) = [].
Proof.
  intros Hb. revert st. induction l as [|[elapsed ok] l IH]; intros [counter r]; simpl; [done|]. unfold tick.
  destruct (client_is_silent _ _ _); simpl; [apply IH|]. rewrite Hb. simpl. apply IH.
Qed.

(** The counters of [k] sample transactions from [counter] on. *)
Definition counters counter (k : nat) : list N := (λ i, counter + N.of_nat i) <$> seq 0 k.

Lemma counters_S counter k : counters counter (S k) = counter :: counters (counter + 1) k.
Proof.
  unfold counters. cbn [seq]. rewrite fmap_cons, <-fmap_S_seq, <-list_fmap_compose. f_equal; [lia|].
  apply list_fmap_ext. intros i x _. simpl. lia.
Qed.

Lemma counters_NoDup counter k : NoDup (counters counter k).
Proof. apply NoDup_fmap_2; [intros x y E; lia|apply NoDup_seq]. Qed.

(** All that is sent: the counters one by one, and the numbers after [r]. *)
Lemma ticks_spec counter r l :
  0 < burst c → r < two64 → counter + N.of_nat (length l) < two64 →
  ∃ k m, samples (concat (ticks c (counter, r) l)) = counters counter k ∧
    standards (concat (ticks c (counter, r) l)) = numbers r m ∧
    (k ≤ length l)%nat ∧ (m ≤ length l * N.to_nat (burst c))%nat.
Proof.
  intros Hb. revert counter r. induction l as [|[elapsed ok] l IH]; intros counter r Hr Hc; cbn [ticks].
  { by exists 0%nat, 0%nat. }
  unfold tick. cbn [length] in Hc |- *.
  destruct (client_is_silent _ _ _).
  { destruct (IH counter r) as (k & m & Es & Er & Hk & Hm); [done|lia|]. exists k, m. simpl. split_and!; [done|done|lia|lia]. }
  pose proof (burst_loop_spec counter r (N_range 0 (burst c)) ok (NoDup_N_range _ _)) as Hl.
  destruct (burst_loop c counter r _ ok) as [[r' txs] go].
  destruct Hl as (n & Hn & Es & Er & Hs & Hgo). rewrite length_N_range in Hn. specialize (Er Hr).
  assert (Hin : counter mod burst c ∈ N_range 0 (burst c)) by (apply elem_of_N_range; split; [apply N.le_0_l|apply N.mod_lt; lia]).
  destruct go.
  - destruct Hgo as [_ Hsam]; [done|]. specialize (Hsam Hin). rewrite u64_add_small by lia.
    destruct (IH (counter + 1) r') as (k & m & Es' & Er' & Hk & Hm); [rewrite Er; by apply N.mod_lt|lia|].
    exists (S k), (n + m)%nat. cbn [concat]. rewrite samples_app, standards_app, Es', Er', Hsam, Es, counters_S, numbers_app, Er.
    split_and!; [done|done|lia|lia].
  - cbn [concat]. rewrite app_nil_r. destruct Hs as [Hs|[Hs _]]; [exists 0%nat, n|exists 1%nat, n]; rewrite Hs, Es;
      (split_and!; [|done|lia|lia]); [done|]. unfold counters. simpl. f_equal. lia.
Qed.

Lemma ticks_small counter r l t :
  0 < burst c → r < two64 → counter + N.of_nat (length l) < two64 → t ∈ concat (ticks c (counter, r) l) → tx_small t.
Proof.
  intros Hb Hr Hc Ht. destruct (ticks_spec counter r l) as (k & m & Es & Er & Hk & _); [done..|]. destruct t as [i|i]; simpl.
  - assert (Hi : i ∈ counters counter k) by (rewrite <-Es; apply list_elem_of_omap; by exists (Sample i)).
    apply list_elem_of_fmap in Hi as (j & -> & [_ Hj]%elem_of_seq). lia.
  - apply (numbers_small r m). rewrite <-Er. apply list_elem_of_omap. by exists (Standard i).
Qed.

(** The sample transactions that the worker finds in a batch ([tx_ids]). *)
Lemma tx_ids_encode size txs : 9 ≤ size → tx_ids (encode size <$> txs) = Ret (be_bytes 8 <$> samples txs).
Proof.
  intros Hs. induction txs as [|t txs IH]; [done|]. rewrite fmap_cons.
  destruct (encode_spec size t Hs) as (rest & E & Hl). rewrite E in Hl |- *.
  clear E Hl. destruct t as [i|i]; cbn [app tx_ids]; by rewrite IH.
Qed.
End runs.

Lemma ticks_lengths c counter r l :
  (∀ e x, e ∈ l → e.2 x = true) →
  Forall2 (λ e txs, length txs = if client_is_silent (silence_schedule c) (silence_slot_ms c) e.1 then 0%nat else N.to_nat (burst c))
    l (ticks c (counter, r) l).
Proof.
  assert (Hgo : ∀ counter r xs ok, (∀ x, ok x = true) →
    (burst_loop c counter r xs ok).2 = true ∧ length (burst_loop c counter r xs ok).1.2 = length xs).
  { clear. intros counter r xs ok Hok. revert r. induction xs as [|x xs IH]; intros r; cbn [burst_loop]; [done|].
    destruct (_ =? _); rewrite Hok;
      [specialize (IH r)|specialize (IH (u64_add r 1))]; destruct (burst_loop _ _ _ _ _) as [[r' txs] go]; simpl in *;
      by destruct IH as [-> ->]. }
  revert counter r. induction l as [|[elapsed ok] l IH]; intros counter r Hok; cbn [ticks]; [constructor|]. unfold tick.
  assert (Hok' : ∀ e x, e ∈ l → e.2 x = true) by (intros e x ?; apply Hok; by right).
  destruct (client_is_silent _ _ _) eqn:Es; [constructor; [simpl; by rewrite Es|by apply IH]|].
  destruct (Hgo counter r (N_range 0 (burst c)) ok) as [Eg El]; [intros x; by apply (Hok (elapsed, ok)); left|].
  destruct (burst_loop c counter r _ ok) as [[r' txs] go]. simpl in Eg, El. subst go.
  constructor; [|by apply IH]. simpl. by rewrite Es, El, length_N_range, N.sub_0_r.
Qed.

(** ** Properties *)

(** C38: The load a client makes. With transactions of at least nine bytes (the comment asks for 16), whatever
    the clock reads and whichever sends fail, as long as fewer than 2^64 transactions are sent: all transactions
    are different and have the size asked for; none is empty, and the sample transactions a worker in a
    benchmark build finds among them have the ids 0, 1, 2 and so on, once each and in order. While the sends
    succeed, every tick out of a silent slot sends a burst of a twentieth of the rate, and a silent one
    nothing; with a rate below 20 nothing is ever sent. *)
Theorem client_transactions c r l :
  9 ≤ tx_size c → r < two64 → (N.of_nat (length l) + 1) * (burst c + 1) < two64 →
  ∃ bursts, send c true r l = Ret bursts ∧
    NoDup (concat bursts) ∧ (∀ tx, tx ∈ concat bursts → length tx = N.to_nat (tx_size c)) ∧
    (∃ k, tx_ids (concat bursts) = Ret (be_bytes 8 <$> counters 0 k)) ∧
    ((∀ e x, e ∈ l → e.2 x = true) →
      Forall2 (λ e txs, length txs = if client_is_silent (silence_schedule c) (silence_slot_ms c) e.1 then 0%nat
        else N.to_nat (rate c / 20)) l bursts) ∧
    (rate c < 20 → concat bursts = []).
Proof.
  intros Hs Hr Hb. unfold send. rewrite (proj2 (N.ltb_ge _ _)) by done. eexists. split; [done|].
  set (txs := concat (ticks c (0, r) l)).
  assert (Ec : concat ((λ txs : list Tx, (encode (tx_size c) <$> txs : list (list byte))) <$> ticks c (0, r) l) = encode (tx_size c) <$> txs)
    by (symmetry; apply concat_map).
  rewrite Ec. unfold txs. clear txs Ec. split_and!.
  - destruct (decide (burst c = 0)) as [E|Hn]; [rewrite burst_zero by done; constructor|].
    destruct (ticks_spec c 0 r l) as (k & m & Es & Er & Hk & Hm); [lia|done|nia|].
    apply NoDup_fmap_2_strong.
    + intros x y Hx Hy. apply encode_inj; [done|..]; (eapply ticks_small; [| | |eassumption]; [lia|done|nia]).
    + apply NoDup_txs; [rewrite Es; apply counters_NoDup|rewrite Er; apply numbers_NoDup; nia].
  - intros tx (t & -> & _)%list_elem_of_fmap. by apply length_resize.
  - rewrite tx_ids_encode by done. destruct (decide (burst c = 0)) as [E|Hn]; [rewrite burst_zero by done; by exists 0%nat|].
    destruct (ticks_spec c 0 r l) as (k & m & -> & _); [lia|done|nia|]. by exists k.
  - intros Hok. apply Forall2_fmap_r. eapply Forall2_impl; [by apply ticks_lengths|]. intros e sent. simpl.
    by rewrite length_fmap.
  - intros Hl. rewrite burst_zero; [done|]. unfold burst, PRECISION. by apply N.div_small.
Qed.

(** What a client is started with: only schedules of zeros and ones, with a slot when there is a schedule. *)
Theorem Client_new_ret parse_address args c :
  Client_new parse_address args = Ret c →
  (∀ v, v ∈ silence_schedule c → v = zero_char ∨ v = one_char) ∧
  (silence_schedule c ≠ [] → silence_slot_ms c ≠ 0) ∧
  parse_u64 (arg_size args) = Some (tx_size c) ∧ parse_u64 (arg_rate args) = Some (rate c).
Proof.
  unfold Client_new, ok_or. destruct (parse_address _) as [a|]; [|done]. simpl.
  destruct (existsb _ _) eqn:Es; [done|]. simpl. destruct (parse_u64 (arg_silence_slot_ms args)) as [slot|]; [|done]. simpl.
  destruct (_ && _) eqn:Eslot; [done|]. simpl.
  destruct (parse_u64 (arg_size args)) as [size|], (parse_u64 (arg_rate args)) as [rt|]; try done. simpl.
  destruct (parse_nodes _ _) as [ns| |]; [|done..]. intros [= <-]. simpl. split_and!; [| |done..].
  - intros v Hv. apply not_true_iff_false in Es. destruct (decide (v = zero_char ∨ v = one_char)) as [?|Hn]; [done|].
    destruct Es. apply existsb_exists. exists v. split; [by apply list_elem_of_In|].
    rewrite !bool_decide_eq_false_2 by tauto. done.
  - intros Hne ->. rewrite bool_decide_eq_true_2 in Eslot by done. done.
Qed.

Section witnesses.

Definition sample_client : Client :=
  MkClient (MkSocketAddr [x7f; x00; x00; x01] 7000) 9 60 [] (String.list_byte_of_string "010") 200.
Definition sample_ticks : list (N * (N → bool)) := (λ t, (t, λ _, true)) <$> [0; 50; 200; 250; 400].

Lemma client_transactions_witness :
  match send sample_client true 7 sample_ticks with
  | Ret bursts => bool_decide ((length <$> bursts) = [3; 3; 0; 0; 3]%nat)
  | _ => false
  end = true ∧
  ∃ bursts, send sample_client true 7 sample_ticks = Ret bursts ∧ NoDup (concat bursts) ∧
    (∀ tx, tx ∈ concat bursts → length tx = N.to_nat 9) ∧
    (∃ k, tx_ids (concat bursts) = Ret (be_bytes 8 <$> counters 0 k)) ∧
    ((∀ e x, e ∈ sample_ticks → e.2 x = true) →
      Forall2 (λ e txs, length txs = if client_is_silent (silence_schedule sample_client) 200 e.1 then 0%nat
        else N.to_nat (60 / 20)) sample_ticks bursts) ∧
    (60 < 20 → concat bursts = []).
Proof.
  split; [vm_compute; reflexivity|]. apply (client_transactions sample_client 7 sample_ticks); [done|done|vm_compute; reflexivity].
Defined.

(** The test of the source. *)
Example silence_slots :
  (λ t, client_is_silent (String.list_byte_of_string "101") 200 t) <$> [0; 200; 400; 600] = [true; false; true; false].
Proof. vm_compute. reflexivity. Qed.
End witnesses.
