(* ===== verification/Files.v ===== *)
(** The traits [Import] and [Export] of [src/config/src/lib.rs]: values in files, as JSON. Of [serde_json] the
    strings and the objects are parameters, with what is relied on as [JsonFormatLaws]; the key pair is written and
    read with the [Serialize] and [Deserialize] of its keys ([Crypto]). The files are a map from paths to contents. *)

From S2P Require Import Prelude Crypto Config.

(** ** JSON *)

(** [serde_json::to_string_pretty], and [serde_json::from_slice] with the message of its error. *)
Class ToJson (A : Type) := to_json : A → outcome (list byte) (list byte).
Class FromJson (A : Type) := from_json : list byte → outcome (list byte) A.

(** What [serde_json] does with strings, and with an object: its fields in the order of the document. The errors are
    messages; the last two are those of the code that [derive(Deserialize)] generates. *)
Class JsonFormat `{!Base64} := {
  #[global] json_format :: Format (list byte);
  write_object : list (list byte * format_output) → outcome (list byte) (list byte);
  read_object : list byte → outcome (list byte) (list (list byte * format_output));
  missing_field : list byte → list byte;
  duplicate_field : list byte → list byte
}.

(** Strings and objects of them can be written, and what is written can be read; white space after a document is
    skipped. *)
Class JsonFormatLaws `{!Base64} (J : JsonFormat) : Prop := {
  #[global] json_string_roundtrip :: FormatLaws (list byte);
  json_string_total s : ∃ o, serialize_str s = Ret o;
  json_object_total fields : ∃ data, write_object fields = Ret data;
  json_object_roundtrip fields data :
    NoDup fields.*1 → write_object fields = Ret data → read_object (data ++ [x0a]) = Ret fields
}.

(** *** The key pair *)

Section keypair.
Context `{!Base64, !JsonFormat}.

Definition field_name : list byte := String.list_byte_of_string "name".
Definition field_secret : list byte := String.list_byte_of_string "secret".

(** The derived [Serialize]: an object with two fields. *)
#[export] Instance KeyPair_to_json : ToJson (PublicKey * SecretKey) := λ k,
  name ← PublicKey_serialize k.1;
  secret ← SecretKey_serialize k.2;
  write_object [(field_name, name); (field_secret, secret)].

(** The derived [Deserialize]: the fields in their order, others are skipped. *)
Fixpoint visit_fields (fields : list (list byte * format_output)) (name : option PublicKey) (secret : option SecretKey) :
    outcome (list byte) (PublicKey * SecretKey) :=
  match fields with
  | [] =>
      name ← ok_or name (missing_field field_name);
      secret ← ok_or secret (missing_field field_secret);
      Ret (name, secret)
  | (key, value) :: fields =>
      if decide (key = field_name) then
        match name with
        | Some _ => Throw (duplicate_field field_name)
        | None => name ← PublicKey_deserialize value; visit_fields fields (Some name) secret
        end
      else if decide (key = field_secret) then
        match secret with
        | Some _ => Throw (duplicate_field field_secret)
        | None => secret ← SecretKey_deserialize value; visit_fields fields name (Some secret)
        end
      else visit_fields fields name secret
  end.

#[export] Instance KeyPair_from_json : FromJson (PublicKey * SecretKey) := λ data,
  fields ← read_object data;
  visit_fields fields None None.

(** A key pair can be written, and is read back. *)
Lemma keypair_roundtrip `{!Base64Laws _, !JsonFormatLaws _} (k : PublicKey * SecretKey) :
  ∃ data, to_json k = Ret data ∧ from_json (data ++ [x0a]) = Ret k.
Proof.
  destruct k as [name secret].
  destruct (json_string_total (PublicKey_encode_base64 name)) as [o1 E1].
  destruct (json_string_total (SecretKey_encode_base64 secret)) as [o2 E2].
  destruct (json_object_total [(field_name, o1); (field_secret, o2)]) as [data Ed]. exists data.
  destruct (key_serde_results (E := list byte)) as (Hp & Hs & _).
  unfold to_json, KeyPair_to_json, PublicKey_serialize, SecretKey_serialize. simpl. rewrite E1, E2. simpl. split; [done|].
  unfold from_json, KeyPair_from_json. rewrite (json_object_roundtrip [(field_name, o1); (field_secret, o2)] data).
  - unfold mbind at 1, outcome_bind. cbn [visit_fields]. rewrite decide_True, (Hp name o1) by done.
    unfold mbind, outcome_bind. rewrite decide_False, decide_True, (Hs secret o2) by done. done.
  - apply (bool_decide_unpack _). vm_compute. exact I.
  - done.
Qed.
End keypair.

(** ** Files *)

Notation Path := (list byte) (only parsing).
Notation Files := (gmap (list byte) (list byte)) (only parsing).

(** [fs::read], with the message of the system when it fails; that for a missing file is left empty. *)
Definition read_file (fs : Files) (error : option (list byte)) (path : Path) : outcome (list byte) (list byte) :=
  match error with
  | Some message => Throw message
  | None => ok_or (fs !! path) []
  end.

(** Writing to a file that is opened without [truncate]: what is longer stays. *)
Definition overwrite (old data : list byte) : list byte := data ++ drop (length data) old.

(** The capacity of a [BufWriter]. *)
Definition BUFFER_SIZE : nat := 8192.

Section traits.
Context {A : Type}.
Implicit Types (fs : Files) (path : Path).

(** [Import::import]. *)
Definition import `{!FromJson A} fs (error : option (list byte)) path : outcome ConfigError A :=
  map_err (ImportError path) (data ← read_file fs error path; from_json data).

(** [Export::export], with the error of opening the file and that of writing to it. The file is created before the
    value is serialized, with an [unwrap]. What fits in the buffer is written when the [BufWriter] is dropped, which
    ignores errors. *)
Definition export `{!ToJson A} (x : A) fs (open_error write_error : option (list byte)) path :
    Files * outcome ConfigError unit :=
  match open_error with
  | Some message => (fs, Throw (ExportError path message))
  | None =>
      let old := default [] (fs !! path) in
      match to_json x with
      | Ret data =>
          match write_error with
          | None => (<[path := overwrite old (data ++ [x0a])]> fs, Ret ())
          | Some message =>
              (<[path := old]> fs,
               if (length data + 1 <? BUFFER_SIZE)%nat then Ret () else Throw (ExportError path message))
          end
      | _ => (<[path := old]> fs, Panic)
      end
  end.

(** ** Facts *)

Lemma overwrite_longer old data : (length old ≤ length data)%nat → overwrite old data = data.
Proof. intros Hl. unfold overwrite. by rewrite drop_ge, app_nil_r. Qed.

Context `{!ToJson A, !FromJson A}.

Lemma export_import (x : A) fs path data :
  to_json x = Ret data → from_json (data ++ [x0a]) = Ret x → (length (default [] (fs !! path)) ≤ length (data ++ [x0a]))%nat →
  let '(fs', r) := export x fs None None path in r = Ret () ∧ import fs' None path = Ret x ∧
    ∀ path', path' ≠ path → fs' !! path' = fs !! path'.
Proof.
  intros Et Ef Hl. unfold export. rewrite Et. split; [done|]. split.
  - unfold import, read_file. rewrite lookup_insert_eq. simpl. by rewrite overwrite_longer, Ef.
  - intros path' Hne. by rewrite lookup_insert_ne.
Qed.

(** What was longer before keeps its end. *)
Lemma export_keeps_tail (x : A) fs path data old :
  to_json x = Ret data → fs !! path = Some old → (length (data ++ [x0a]) < length old)%nat →
  (export x fs None None path).1 !! path = Some ((data ++ [x0a]) ++ drop (length (data ++ [x0a])) old).
Proof. intros Et E Hl. unfold export. rewrite Et, E. apply lookup_insert_eq. Qed.

(** A small value that cannot be written is reported as written. *)
Lemma export_hides_failure (x : A) fs path data message :
  to_json x = Ret data → (length data + 1 < BUFFER_SIZE)%nat →
  export x fs None (Some message) path = (<[path := default [] (fs !! path)]> fs, Ret ()).
Proof. intros Et Hl. unfold export. by rewrite Et, (proj2 (Nat.ltb_lt _ _)). Qed.
End traits.
