(* ===== verification/Main.v ===== *)
(** The program [node] ([src/node/src/main.rs]): generating keys, and running a primary or a worker. *)

From S2P Require Import Prelude Channels Crypto Config Messages Adversary Aggregators Store Primary.
From S2P Require Import Core CoreFacts Proposer Pool Waiters Consensus Network Worker WorkerSync.
From S2P Require Import Node NodeSamples NodeFacts NodeSafety WorkerNode Files.

(** ** Arguments *)

Inductive Subcommand := RunPrimary | RunWorker (id : string).

Record RunArgs := MkRunArgs {
  keys_file : Path;
  committee_file : Path;
  parameters_file : option Path;
  store_path : Path;
  subcommand : Subcommand
}.

(** The level of the logs, by the occurrences of [-v]. *)
Inductive LogLevel := LError | LWarn | LInfo | LDebug | LTrace.
Definition log_level (occurrences : N) : LogLevel :=
  match occurrences with 0 => LError | 1 => LWarn | 2 => LInfo | 3 => LDebug | _ => LTrace end.

(** [parse::<WorkerId>()]. *)
Definition parse_u32 (s : string) : option N :=
  n ← parse_u64 s;
  if n <? two32 then Some n else None.

(** The errors, by the context [main] gives them. *)
Inductive MainError `{!Backend} :=
| FailedToGenerate (e : ConfigError)
| FailedToLoadKeypair (e : ConfigError)
| FailedToLoadCommittee (e : ConfigError)
| FailedToLoadParameters (e : ConfigError)
| FailedToCreateStore (e : StoreError)
| InvalidWorkerId.

Section main.
Context `{!Sha512, !Dalek, !Backend, !Storage}.
Context `{!Base64, !JsonFormat, !FromJson Committee, !FromJson Parameters}.
Implicit Types (fs : Files).

(** What [run] starts. *)
Inductive Launched :=
| LaunchedPrimary (cfg : Settings) (n : Node) (out : list Output)
| LaunchedWorker (n : WorkerNode) (primary_address : SocketAddr).

(** [generate_keys], for the key pair that is drawn and the errors of the file. *)
Definition generate_keys (keypair : dalek_keypair) fs (open_error write_error : option (list byte)) (filename : Path) :
    Files * outcome MainError unit :=
  let '(fs, r) := export (KeyPair_new keypair) fs open_error write_error filename in
  (fs, map_err FailedToGenerate r).

(** The parameters of a run: those of the file, or the default ones. *)
Definition load_parameters fs (errors : Path → option (list byte)) (file : option Path) : outcome MainError Parameters :=
  match file with
  | Some filename => map_err FailedToLoadParameters (import fs (errors filename) filename)
  | None => Ret Parameters_default
  end.

(** [run], up to the start of the tasks: [errors] are those of reading the files, [open_store] is the database
    under a path; the environment variables and the clock are read by the tasks. *)
Definition run (args : RunArgs) fs (errors : Path → option (list byte)) (open_store : Path → outcome StoreError storage)
    (env : Environment) (client_during_silence : outcome VarError string) (now : N) : outcome MainError Launched :=
  keypair ← map_err FailedToLoadKeypair (import (A := PublicKey * SecretKey) fs (errors (keys_file args)) (keys_file args));
  committee ← map_err FailedToLoadCommittee (import fs (errors (committee_file args)) (committee_file args));
  parameters ← load_parameters fs errors (parameters_file args);
  store ← map_err FailedToCreateStore (open_store (store_path args));
  match subcommand args with
  | RunPrimary =>
      match node_spawn keypair.1 keypair.2 committee parameters store env client_during_silence now with
      | Ret (cfg, n, out) => Ret (LaunchedPrimary cfg n out)
      | _ => Panic
      end
  | RunWorker id =>
      id ← ok_or (parse_u32 id) InvalidWorkerId;
      match worker_spawn keypair.1 id committee parameters store now with
      | Ret (n, primary_address) => Ret (LaunchedWorker n primary_address)
      | _ => Panic
      end
  end.

(** What [run] started: the primary or the worker the arguments ask for, with the keys, the committee, the
    parameters and the store it loaded. *)
Definition launched_as (args : RunArgs) (keypair : PublicKey * SecretKey) (committee : Committee) (parameters : Parameters)
    (s : storage) (env : Environment) (client_during_silence : outcome VarError string) (now : N) (l : Launched) : Prop :=
  match l with
  | LaunchedPrimary cfg n out =>
      subcommand args = RunPrimary ∧
      node_spawn keypair.1 keypair.2 committee parameters s env client_during_silence now = Ret (cfg, n, out)
  | LaunchedWorker n primary_address =>
      ∃ i id, subcommand args = RunWorker i ∧ parse_u32 i = Some id ∧
        worker_spawn keypair.1 id committee parameters s now = Ret (n, primary_address)
  end.

Lemma run_launched args fs errors open_store env var now launched :
  run args fs errors open_store env var now = Ret launched →
  ∃ keypair committee parameters s,
    import (A := PublicKey * SecretKey) fs (errors (keys_file args)) (keys_file args) = Ret keypair ∧
    import fs (errors (committee_file args)) (committee_file args) = Ret committee ∧
    load_parameters fs errors (parameters_file args) = Ret parameters ∧
    open_store (store_path args) = Ret s ∧
    launched_as args keypair committee parameters s env var now launched.
Proof.
  unfold run. destruct (import fs (errors (keys_file args)) (keys_file args)) as [keypair| |] eqn:Ek; [|done..]. simpl.
  destruct (import fs (errors (committee_file args)) (committee_file args)) as [committee| |] eqn:Ec; [|done..]. simpl.
  intros (parameters & Ep & E)%outcome_bind_ret.
  destruct (open_store _) as [s| |] eqn:Es; [|done..]. simpl in E.
  exists keypair, committee, parameters, s. split_and!; [done..|]. destruct (subcommand args) as [|id] eqn:Esub.
  - destruct (node_spawn _ _ _ _ _ _ _ _) as [[[cfg n] out]| |] eqn:En; [|done..]. by injection E as <-.
  - apply outcome_bind_ret in E as (i & Ei & E).
    destruct (worker_spawn _ _ _ _ _ _) as [[n a]| |] eqn:En; [|done..]. injection E as <-. exists id, i.
    split_and!; [done| |done]. by destruct (parse_u32 id); [injection Ei as <-|].
Qed.
End main.

(** ** Properties *)

Section properties.
Context `{!Sha512, !Dalek, !Backend, !Storage, !StorageLaws _}.
Context `{!Base64, !Base64Laws _, !JsonFormat, !JsonFormatLaws _, !FromJson Committee, !FromJson Parameters}.
Implicit Types (fs : gmap (list byte) (list byte)).

(** C39: Generated keys run a node. The key pair can be serialized; after [generate_keys] to a file that does not
    exist or is not longer, what [run] starts from this file, and from other files left as they were, is the node of
    the generated key pair: a primary has its name and signs with its secret key, a worker has its name and the id
    of the arguments, and both are spawned in the committee of the file and on the store that [run] opened. *)
Theorem generated_keys_run keypair fs filename args errors open_store env var now :
  keys_file args = filename → errors filename = None → committee_file args ≠ filename → parameters_file args ≠ Some filename →
  ∃ data, to_json (KeyPair_new keypair) = Ret data ∧
    ((length (default [] (fs !! filename)) ≤ length data + 1)%nat →
     let generated := generate_keys keypair fs None None filename in
     generated.2 = Ret () ∧
     ∀ launched, run args generated.1 errors open_store env var now = Ret launched →
       ∃ committee parameters s,
         import fs (errors (committee_file args)) (committee_file args) = Ret committee ∧
         load_parameters fs errors (parameters_file args) = Ret parameters ∧
         open_store (store_path args) = Ret s ∧
         launched_as args (generate_keypair keypair) committee parameters s env var now launched ∧
         match launched with
         | LaunchedPrimary cfg n _ =>
             spawned_node (generate_keypair keypair).1 committee s cfg n ∧ signature_service cfg = (generate_keypair keypair).2
         | LaunchedWorker n _ => wn_store n = s
         end).
Proof.
  intros Ek Ee Hne Hnp. destruct (keypair_roundtrip (KeyPair_new keypair)) as (data & Et & Ef). exists data.
  split; [done|]. intros Hl. unfold generate_keys.
  pose proof (export_import (KeyPair_new keypair) fs filename data Et Ef) as He. rewrite length_app in He.
  destruct (export (KeyPair_new keypair) fs None None filename) as [fs' r].
  destruct He as (-> & Ei & Hfs); [simpl; lia|]. split; [done|]. cbn [fst].
  intros launched (keypair' & committee & parameters & s & Hk & Hc & Hp & Hs & Hn)%run_launched.
  rewrite Ek, Ee, Ei in Hk. injection Hk as <-. exists committee, parameters, s. split_and!; [| |done|done|].
  - rewrite <-Hc. unfold import, read_file. by rewrite Hfs.
  - rewrite <-Hp. unfold load_parameters, import, read_file. destruct (parameters_file args) as [f|]; [|done].
    by rewrite Hfs by congruence.
  - destruct launched as [cfg n out|n a]; simpl in Hn.
    + destruct Hn as [_ Hn]. split; [by eapply node_spawn_spawned|by eapply node_spawn_secret].
    + destruct Hn as (i & id & _ & _ & Hn). revert Hn. unfold worker_spawn.
      destruct (worker _ _ _); [destruct (Config.primary _ _); [|done..]|done..]. by intros [= <- _].
Qed.
End properties.

(** ** Evaluation *)

Module SampleMain.
Import Toy ToyBackend ToyBincode MapDB SampleStore SampleWorker.

(** Documents are the numbers of what is written. *)
#[export] Instance toy_format : Format (list byte) := {|
  format_output := list byte; serialize_str := Ret; deserialize_string := Ret; custom _ := []
|}.
#[export] Instance toy_json : JsonFormat := {|
  write_object fields := Ret (bits (encode fields));
  read_object l := ok_or (decode (of_bits (removelast l))) [];
  missing_field name := name;
  duplicate_field name := name
|}.
#[export] Instance toy_json_laws : JsonFormatLaws toy_json.
Proof.
  split.
  - by intros s o [= ->].
  - intros s. by eexists.
  - intros fields. by eexists.
  - intros fields data _ [= <-]. simpl. by rewrite removelast_last, of_bits_bits, decode_encode.
Qed.

(** One committee and the default parameters are in the files. *)
#[export] Instance committee_json : FromJson Committee := λ _, Ret Sample.committee.
#[export] Instance parameters_json : FromJson Parameters := λ _, Ret Parameters_default.

Definition files : gmap (list byte) (list byte) := {[ [x01] := [] ]}.
Definition args (what : Subcommand) : RunArgs := MkRunArgs [x02] [x01] None [x03] what.
Definition store_of (_ : list byte) : outcome StoreError storage := Ret (StoreTask_new : @storage _ map_storage).

Notation run_of what :=
  (run (args what) (generate_keys (kp 1) files None None [x02]).1 (λ _, None) store_of (λ _, None) (Throw NotPresent) 0).
End SampleMain.

Section witnesses.
Import Toy ToyBackend ToyBincode MapDB SampleStore SampleWorker SampleMain.

Lemma launched_primary : ∃ cfg n out, run_of RunPrimary = Ret (LaunchedPrimary cfg n out).
Proof.
  assert (E : match run_of RunPrimary with Ret (LaunchedPrimary _ _ _) => true | _ => false end = true)
    by (vm_compute; reflexivity).
  revert E. generalize (run_of RunPrimary). intros [[cfg n out|]| |] E; try discriminate E. by exists cfg, n, out.
Qed.

Lemma launched_worker : ∃ n a, run_of (RunWorker "0") = Ret (LaunchedWorker n a).
Proof.
  assert (E : match run_of (RunWorker "0") with Ret (LaunchedWorker _ _) => true | _ => false end = true)
    by (vm_compute; reflexivity).
  revert E. generalize (run_of (RunWorker "0")). intros [[|n a]| |] E; try discriminate E. by exists n, a.
Qed.

(** Both programs run from the file of the generated keys. *)
Lemma generated_keys_run_witness :
  (∃ committee s cfg n out, run_of RunPrimary = Ret (LaunchedPrimary cfg n out) ∧
     spawned_node (generate_keypair (kp 1)).1 committee s cfg n ∧ signature_service cfg = (generate_keypair (kp 1)).2) ∧
  (∃ committee parameters s id n a, run_of (RunWorker "0") = Ret (LaunchedWorker n a) ∧
     worker_spawn (generate_keypair (kp 1)).1 id committee parameters s 0 = Ret (n, a)).
Proof.
  split.
  - destruct launched_primary as (cfg & n & out & E).
    destruct (generated_keys_run (kp 1) files [x02] (args RunPrimary) (λ _, None) store_of (λ _, None) (Throw NotPresent) 0
      eq_refl eq_refl ltac:(discriminate) ltac:(discriminate)) as (data & _ & Hr).
    destruct (proj2 (Hr (Nat.le_0_l _)) _ E) as (committee & parameters & s & _ & _ & _ & _ & Hn).
    exists committee, s, cfg, n, out. exact (conj E Hn).
  - destruct launched_worker as (n & a & E).
    destruct (generated_keys_run (kp 1) files [x02] (args (RunWorker "0")) (λ _, None) store_of (λ _, None) (Throw NotPresent) 0
      eq_refl eq_refl ltac:(discriminate) ltac:(discriminate)) as (data & _ & Hr).
    destruct (proj2 (Hr (Nat.le_0_l _)) _ E) as (committee & parameters & s & _ & _ & _ & (i & id & _ & _ & Hn) & _).
    exists committee, parameters, s, id, n, a. exact (conj E Hn).
Defined.
End witnesses.
